(* ===== verification/_CoqProject ===== *)
-Q . S2P
Prelude.v
Hlc.v
StoredItem.v
Compress.v
Lru.v
SyncBuffer.v
Pow2.v
MemStorage.v
MemStorageFacts.v
MemStorageProps.v
StoreConc.v
Codec.v
HashRing.v
Member.v
Cluster.v
Gossip.v
Writer.v
Lifecycle.v
TinyLfu.v
Cache.v
CacheProps.v
Reader.v
Entropy.v
Checkpoint.v
Replay.v
Wire.v
Net.v
Server.v
ConnPool.v
Scheduler.v
Executor.v
Queued.v
QueuedConc.v
Config.v
Transport.v
Node.v
Remote.v
Replicate.v
Pushes.v
Adapter.v
StoreFrom.v
Converge.v
Stale.v
Metrics.v
Boot.v
Capi.v
CapiProps.v
Adaptive.v
Loops.v
Shutdown.v
BufferPool.v
Logging.v
