(* ===== verification/Prelude.v ===== *)
(** * GridKV: a model of a node, from its facade to its connections

    GridKV (src/) is a distributed in-memory key-value store in Go.  A node
    keeps items in a sharded store, stamps writes with a hybrid logical clock,
    places keys on a consistent hash ring of the members that a SWIM protocol
    discovers, replicates writes by gossip, and reads through a cache from its
    store or from replicas.  Below it are worker pools, a scheduler, and a
    network of framed messages on pooled connections; beside it is an
    interface for C programs.  This library models these parts as executable
    functions and step relations and proves what makes them correct; where the
    code does not do what it means to, a theorem states what it does instead.

    ** Parts, files and source

    - [Prelude] (this file): machine integers, little-endian bytes, strings and
      byte slices (internal/utils/zerocopy), times, finite runs, the interface
      [XXH3] of the hash function, tactics and hints.
    - [Hlc]: internal/utils/hlc/hlc.go (Now, Update, AppendInt, AppendUint) and
      hlcToInt64 of internal/cluster/writer.go.  The state is [HLC]; clock
      readings are arguments.
    - [StoredItem]: internal/mem_storage/stored_item.go.
    - [Compress]: internal/utils/compress; LZ4 is the interface [LZ4] with its
      round-trip law [LZ4Laws]; a pool is the capacity it hands out.
    - [Lru], [SyncBuffer], [Pow2], [MemStorage]: the parts and the operations
      of internal/mem_storage/mem_storage.go, run one at a time.
      [MemStorageFacts] has the invariant, [MemStorageProps] the theorems.
    - [StoreConc]: the lock-free loops of the same file as threads that
      interleave at their loads and compare-and-swaps.
    - [Codec]: internal/cluster/codec.go with the messages of types.go.
    - [HashRing]: internal/cluster/hashring.go; sort.Slice is the interface
      [SortSlice]: any permutation that sorts.
    - [Member]: internal/cluster/member.go.  An operation returns the new state
      and what it did to the outside: sends, callbacks, timers.
    - [Cluster]: the wiring of internal/cluster/cluster.go: messages between
      two members through the codec, the callback that rebuilds the ring, the
      format of remote reads.
    - [Gossip]: internal/cluster/gossip.go: targets, push and pull messages,
      application of operations to the store.  [Pushes]: the attempts of a
      push, their delays and when they end.
    - [Writer]: internal/cluster/writer.go: versions, local write, queue,
      flush, and the scheduling of flushes on an executor that may refuse.
    - [Lifecycle]: internal/utils/lifecycle/lifecycle.go: the dependency order
      of the components and their start and shutdown.
    - [TinyLfu], [Cache]: internal/utils/cache: the count-min sketch, and the
      sharded cache with its entries as cells of a memory, linked by pointers
      and recycled through a pool.  [CacheProps] relates it to plain lists.
    - [Reader]: internal/cluster/reader.go: reads through the cache, from the
      store and from replicas, speculative and consistency reads, read repair
      and its rate limiter.  The answers of replicas and the order in which
      they arrive are arguments.
    - [Entropy], [Checkpoint], [Replay]: internal/cluster/entropy.go: digests
      and their comparison; saving and loading checkpoints as sequences of
      system calls on a file system with directories and inodes, in which only
      a sync makes data durable, any call can fail and the machine can stop at
      any call; restoring, hinted handoff.
    - [Wire]: internal/network/message.go, the codec of interface.go and the
      frames of transport.go.
    - [Net]: internal/network/backpressure.go with concurrent senders, and the
      retries of client.go.
    - [Server]: internal/network/server.go: the loop of a connection as a
      function of its events, and accepting connections as a step relation.
    - [ConnPool]: internal/network/pool.go: the critical sections of Get, Put,
      Remove, the cleanup and Close, interleaved by a step relation in which a
      connection may report any remote address.
    - [Scheduler], [Executor], [Queued]: internal/utils/executor: the binary
      heap (container/heap) and the dispatcher; the bounded executor as a step
      relation of callers and workers, with Resize and Stop in their steps and
      the timeout of Stop; the priority queues with stealing.
      [QueuedConc] has the queued executor again with every access to a
      channel or an atomic variable as a step.
    - [Config]: config.go and the first half of NewGridKV in gridkv.go; the
      durations of package time are parsed by [ParseDuration].
    - [Transport]: internal/network/transport.go: sending and receiving over
      TCP and QUIC on streams that fail at any byte, deadlines, sessions.
    - [Node]: gridkv.go and the construction of a node in cluster.go, on top
      of writer, reader, store, cache, membership and lifecycle.
    - [Remote], [Replicate]: two nodes: the remote reads of cluster.go through
      [Wire], [Server] and the handlers of the other node; a write from the
      facade of one node to the store of another.
    - [Adapter]: the send, get and receive functions between cluster.go and
      internal/network/interface.go, with the mailbox of membership messages.
    - [StoreFrom], [Converge]: any number of such nodes and the messages between
      them, as a step relation of Sets, Deletes, flushes, gossip rounds, rounds
      of anti-entropy, checkpoints, deliveries and losses; [StoreFrom] has where the
      versions and values in a store come from.  [Stale]: the nodes of the same
      relation that are not replicas.
    - [Shutdown]: Close of gridkv.go through the lifecycle manager to the
      components.
    - [Boot]: NewGridKV, network.NewNetwork and cluster.New: what a node
      consists of for given options, and what a failed start leaves.
    - [Metrics]: internal/network/stats.go, the measurements of pool.go and
      pool_debug.go, the statistics of store and database, with float64 as
      IEEE 754 binary64.
    - [Capi], [CapiProps]: cgo/cgo.go on a heap of C blocks, with [Malloc] as
      an interface; clients as sequences of calls and frees.
    - [Loops]: the goroutines of gossip, membership, anti-entropy and store at
      their ticks, the tasks and health checks that a panic may end, and how
      store, executor and server stop.
    - [Adaptive]: the adaptive size of the pool in pool.go, in binary64.
    - [BufferPool], [Logging]: internal/utils/bufferpool, internal/utils/logging.

    A client's Set ([Set_] of [Node]) goes through [WriterSet], which stamps
    it ([Now], [hlcToInt64]), stores it ([StoreSet]) and queues it for the
    replicas that [GetN] names; [flush] sends the queue with [Push]; the receiver's [HandleGossip] decodes
    it ([Deserialize]) and applies it ([applyOps]) to its own store.  A Get
    goes through [ReaderGet], which asks the cache, the store and then the live
    replicas.  What is sent is encoded ([encodeMessage]), framed ([frame]),
    sent on a connection of the pool ([poolGetBegin], [Put]) and handled by
    the receiver's [handleConn] and [onData], or for a remote read by
    [createGetFunc] on one side and [readHandler] on the other.  Membership
    messages go through [EncodeMemberMsg] and [DecodeMemberMsg] to
    [HandleMessage], whose callbacks update the ring ([updateRing]).

    ** What the theorems show

    - Store: [Set] refines a map that keeps the higher version; a value is read
      back through compression; shards, recency lists and counters stay
      consistent, the counters up to the expired keys that [Keys] has removed
      ([drift]); evictions take the least recently used keys; the recency
      list and the ring buffer refine a list and a bounded queue; how far the
      byte counter drifts; which compressed values cannot be read.
    - Concurrency: for every interleaving of writes and deletes of a key the
      highest version survives, the counter is exact at the end, and the retry
      loops end; a read of an expired key can delete a newer value.
    - Clock: stamps respect causality and never go back; versions are monotone
      within a window of 2^47 ns and go back at its end.
    - Placement: the owner of a key is the next virtual node clockwise; a node
      that joins or leaves moves only its own keys; replicas are distinct.
    - Membership: records stay well formed, none is removed and incarnations
      never go back between any two states; through every operation of the
      member manager and the cluster the ring follows the live members; silent nodes are suspected and then dead; suspicion is refuted
      by a ping; leave messages have no effect; acks are answered forever.
    - Replication: batches and messages survive the wire; a flush sends each
      replica exactly its operations, of the newest ones that the limit of the
      queue keeps; replicas that apply the same operations
      in any order hold the same items; the writer's versions increase; a
      flush is always scheduled unless the executor refuses twice in a row, in
      which case it never happens again.
    - Two nodes: a write on one node is, after its next flush, read from the
      store of every other live replica with the same value, version and
      expiration; a read on a node that lacks the key returns what the first
      live replica that has it holds.
    - Clusters: whatever is lost, every node holds only what was written; once
      nothing is queued or under way, a replica that missed no message about a
      key holds the greatest version that any write of it was given with the
      value of that write, in whatever order and how often messages arrived; a
      node that is not a replica keeps the copy of its own last write, and its
      reads return it.
    - Pushes: a push ends after at most 15 attempts and 125.75 seconds, and
      when it is acknowledged.
    - Lifecycle: the order is topological, and cycles are reported.
    - Node: a node that starts, with what its checkpoint restores, is healthy
      and serves alone; a client reads its
      own writes and deletes; WaitReady returns only after a stable interval;
      the components of a node resolve in their order of registration; Close
      hands the newest operations of the queue to an executor that still runs,
      for every live replica, as far as that executor has room.
    - Reads: the cache refines lists of items in order of use within its
      capacity and never returns an item beyond its time to live; a read
      returns a fresh cached item, the local one, or the first usable answer;
      a speculative read returns the highest version; consistency reads see no
      answer; how often repairs are allowed.
    - Recovery: digests have no false negatives; what an anti-entropy round
      pulls; checkpoints are atomic under failing calls and stops of the machine,
      because of the sync before the rename; how often a handoff is attempted.
    - Network: messages and frames survive the wire, or are rejected exactly
      when stated; permits stay within the capacity; what a send reports; late
      responses go to later requests; when a server connection closes and when
      the server stops accepting; a pooled connection has one user and Close
      closes it, when the counters of the pool are true, and when the limit of the pool holds; pools used with host names are exhausted;
      the adaptive limit stays within its bounds, changes once per cool-down
      and reaches its maximum under pressure;
      over either transport exactly the messages whose sends succeeded arrive
      at a receiver that no deadline interrupts.
    - C interface: a client that frees each result once with its function
      makes no bad free, leaks nothing and reads only live blocks; handles are never reused and calls
      touch their own instance only; what is set is what is read.
    - Tasks: the executor repeats and reorders no task, and without Resize it
      loses none and drains on Stop, after its timeout too; with Resize all
      workers may leave ([resize_race], [grow_race]); stealing finds a task if
      there is one; in the queued executor each accepted task is queued, run
      or finished once under any interleaving, and a worker at the top of its
      loop that stays runs every queued task, but a stop or a resize can leave
      tasks queued; scheduled tasks are taken when due, in order.
    - Loops: the gossip interval stays within its bounds and recovers; no
      number of concurrent Close calls closes a channel of the store twice;
      which loops end for good when the executor refuses.
    - Options: defaults complete any options and keep every field that is set; a
      configuration is refused exactly for a malformed duration.

    ** Conventions and bounds

    A Go integer is a [Z] with its wrap-around written out ([uint], [sint]); a
    nil slice is [None].  Pointers that may be nil are options; errors are the
    second component of a pair or the left of a sum.  Recursion that is not
    structural has fuel, chosen so that it does not run out: the length of a
    slice for searches and loops over it, 20 digits for the decimal printers,
    the eviction limit for the eviction loops ([evict_until_fuel]),
    one round for the store's retry loop when nothing interferes ([store_round];
    with interference, [conc_terminates]), the number of components plus one
    for the depth-first search, the number of items of a shard for the victim
    search, ten attempts for a handoff as in the source, the number of tasks
    for the heap and the dispatcher, the length of the text for durations, 15
    attempts for a push as in the source.  In each case a lemma or theorem
    gives the result, not only its correctness if it exists.

    Values are immutable: that the store hands out and keeps references to
    caller-owned byte slices is not modelled.  The iteration order of a Go map
    is that of [map_to_list], or an argument where a result depends on it.

    Where goroutines share state, a step is what no other goroutine can come
    between: a critical section, an atomic access, a channel operation.  Coarser
    than the code are these.  The handlers of [Member] are atomic, although
    updateNode, markSuspect and markDead load an entry of the table and store
    the new one in two accesses, between which another handler of the same peer
    can write, so that what is shown of them holds of handlers that run one
    after the other.  [Acquire] of [Net] is one step, and the requests of client.go,
    which take no permit, are outside its relation.  [CacheGet] is one step for
    the two lock sections of Get in ttl_cache.go.  The several readings of the
    clock in ResolveConflict are one.  The handler that [handleConn] calls is a
    function of the data it is given.  [Receive] is given the bytes that are
    there before the read deadline; a deadline inside a frame is
    [frame_desync] of [Wire].  [StopEnd] closes the stop channel and resets the
    count in one step.

    ** Not modelled

    Sockets, the crypto of TLS and the quic-go library behind transport.go,
    the decoding of JSON, the bytes that slog writes and the system's clock:
    input and output, whose results are arguments.  Fractions in the text of a
    duration, which package time computes in floating point, are a parameter
    ([fraction] of [Config]).  Go interfaces and accessors, which only hand out
    a field or a constant name.  The programs under tests/.

    The members and the ring are fixed in [Converge]: the code moves no data
    when a node joins or leaves, so that a new replica has only what is
    written, pulled or read through it later, and the convergence stated there
    is that of a cluster whose membership does not change.  Expiration, the
    limits of memory and queue and payloads that the receiver cannot decompress
    are likewise excluded there; what they do is stated for the single store
    ([MemStorageProps]), the single writer ([Writer]) and the codec ([Wire]).
    Messages may be lost there. *)

From Stdlib Require Import ZArith Lia.
From Stdlib Require Import Strings.String Strings.Ascii Strings.Byte.
From stdpp Require Export base tactics list gmap strings option numbers sorting.

#[global] Open Scope Z_scope.

(** * Automation *)

(** Lemmas that close the routine side conditions of the development. *)
Create HintDb gridkv discriminated.
#[export] Hint Constants Opaque : gridkv.

(** Case analysis on every [match] and [if] of the goal, with the equations
    simplified. *)
Ltac split_matches :=
  repeat (case_match; simplify_eq/=).

(** Turns the boolean comparisons of the code into arithmetic facts. *)
Ltac to_prop :=
  repeat match goal with
  | H : (_ && _)%bool = true |- _ => apply andb_true_iff in H as [? ?]
  | H : (_ || _)%bool = false |- _ => apply orb_false_iff in H as [? ?]
  | H : negb _ = true |- _ => apply negb_true_iff in H
  | H : negb _ = false |- _ => apply negb_false_iff in H
  | H : (_ <? _) = true |- _ => apply Z.ltb_lt in H
  | H : (_ <? _) = false |- _ => apply Z.ltb_ge in H
  | H : (_ <=? _) = true |- _ => apply Z.leb_le in H
  | H : (_ <=? _) = false |- _ => apply Z.leb_gt in H
  | H : (_ =? _) = true |- _ => apply Z.eqb_eq in H
  | H : (_ =? _) = false |- _ => apply Z.eqb_neq in H
  | H : bool_decide _ = true |- _ => apply bool_decide_eq_true in H
  | H : bool_decide _ = false |- _ => apply bool_decide_eq_false in H
  end.

(** Splits on every integer comparison of the goal and discards the cases
    that contradict the context. *)
Ltac arith_cases :=
  repeat match goal with
  | |- context [?a <? ?b] => destruct (Z.ltb_spec a b); try lia
  | |- context [?a <=? ?b] => destruct (Z.leb_spec a b); try lia
  | |- context [?a =? ?b] => destruct (Z.eqb_spec a b); try lia
  end; simpl.

(** * Machine integers

    A Go integer of width [w] is a [Z]; [uint] and [sint] are the two
    conversions, so that [uint64(x)] and [int64(x)] of the source are
    [uint 64 x] and [sint 64 x]. *)

Definition uint (w z : Z) : Z := z mod 2 ^ w.
Definition sint (w z : Z) : Z := (z + 2 ^ (w - 1)) mod 2 ^ w - 2 ^ (w - 1).

Definition is_uint (w z : Z) : Prop := 0 <= z < 2 ^ w.
Definition is_sint (w z : Z) : Prop := - 2 ^ (w - 1) <= z < 2 ^ (w - 1).

Lemma pow2_pos w : 0 <= w -> 0 < 2 ^ w.
Proof. intros; apply Z.pow_pos_nonneg; lia. Qed.

Lemma pow2_half w : 0 < w -> 2 ^ w = 2 * 2 ^ (w - 1).
Proof. intros. rewrite <- Z.pow_succ_r by lia. f_equal; lia. Qed.

Lemma uint_range w z : 0 <= w -> is_uint w (uint w z).
Proof. intros. apply Z.mod_pos_bound, pow2_pos; lia. Qed.

Lemma uint_id w z : is_uint w z -> uint w z = z.
Proof. intros. by apply Z.mod_small. Qed.

Lemma uint_add_l w a b : uint w (uint w a + b) = uint w (a + b).
Proof. apply Zplus_mod_idemp_l. Qed.
Lemma uint_add_r w a b : uint w (a + uint w b) = uint w (a + b).
Proof. apply Zplus_mod_idemp_r. Qed.

Lemma sint_range w z : 0 < w -> is_sint w (sint w z).
Proof.
  intros Hw. unfold is_sint, sint. pose proof (pow2_half w Hw).
  pose proof (Z.mod_pos_bound (z + 2 ^ (w - 1)) (2 ^ w) (pow2_pos w ltac:(lia))). lia.
Qed.

Lemma sint_id w z : 0 < w -> is_sint w z -> sint w z = z.
Proof.
  intros Hw Hz. unfold is_sint in Hz. unfold sint. pose proof (pow2_half w Hw).
  rewrite Z.mod_small; lia.
Qed.

Lemma sint_mod w z : 0 < w -> sint w (z mod 2 ^ w) = sint w z.
Proof.
  intros. unfold sint. f_equal. rewrite Z.add_mod_idemp_l; [done|].
  pose proof (pow2_pos w); lia.
Qed.

(** Reading back as signed what was stored as unsigned loses nothing. *)
Lemma sint_uint w z : 0 < w -> sint w (uint w z) = sint w z.
Proof. apply sint_mod. Qed.

Lemma sint_uint_id w z : 0 < w -> is_sint w z -> sint w (uint w z) = z.
Proof. intros. rewrite sint_uint by done. by apply sint_id. Qed.

(** Addition of counters is a homomorphism modulo the width. *)
Lemma sint_congr w a b : 0 < w -> a mod 2 ^ w = b mod 2 ^ w -> sint w a = sint w b.
Proof. intros Hw E. rewrite <- (sint_mod w a), <- (sint_mod w b) by done. by rewrite E. Qed.

Lemma sint_as_mod w a : 0 < w -> exists k, sint w a = a + k * 2 ^ w.
Proof.
  intros Hw. exists (- ((a + 2 ^ (w - 1)) / 2 ^ w)). unfold sint.
  pose proof (Z.div_mod (a + 2 ^ (w - 1)) (2 ^ w)) as D.
  pose proof (pow2_pos w ltac:(lia)). lia.
Qed.

Lemma sint_add_l w a b : 0 < w -> sint w (sint w a + b) = sint w (a + b).
Proof.
  intros Hw. destruct (sint_as_mod w a Hw) as [k ->].
  apply sint_congr; [done|].
  replace (a + k * 2 ^ w + b) with (a + b + k * 2 ^ w) by lia.
  apply Z.mod_add. pose proof (pow2_pos w); lia.
Qed.

#[export] Hint Resolve uint_range sint_range : gridkv.

(** Masking gives an index up to the mask. *)
Lemma land_mask x m : 0 <= x -> 0 <= m -> 0 <= Z.land x m <= m.
Proof.
  intros Hx Hm. split; [apply Z.land_nonneg; lia|].
  rewrite <- (Z2N.id x), <- (Z2N.id m), <- N2Z.inj_land by done.
  apply N2Z.inj_le, N.land_le_r.
Qed.

(** [atomic.Int64.Add] and friends. *)
Definition add64 (a b : Z) : Z := sint 64 (a + b).
Definition addu64 (a b : Z) : Z := uint 64 (a + b).

Lemma add64_sint a b : add64 (sint 64 a) b = sint 64 (a + b).
Proof. apply sint_add_l; lia. Qed.

(** * Bytes and little-endian fields *)

Definition Z_of_byte (b : byte) : Z := Z.of_N (Byte.to_N b).
Definition byte_of_Z (z : Z) : byte :=
  default x00 (Byte.of_N (Z.to_N (z mod 256))).

Lemma Z_of_byte_range b : 0 <= Z_of_byte b < 256.
Proof. unfold Z_of_byte. pose proof (Byte.to_N_bounded b). lia. Qed.

Lemma Z_of_byte_of_Z z : Z_of_byte (byte_of_Z z) = z mod 256.
Proof.
  unfold Z_of_byte, byte_of_Z. pose proof (Z.mod_pos_bound z 256 ltac:(lia)).
  destruct (Byte.of_N (Z.to_N (z mod 256))) as [b|] eqn:E; simpl.
  - apply Byte.to_of_N in E. rewrite E. lia.
  - pose proof (Byte.to_of_N_option_map (Z.to_N (z mod 256))) as F.
    rewrite E in F. destruct (N.leb_spec (Z.to_N (z mod 256)) 255); [done|lia].
Qed.

Lemma byte_of_Z_of_byte b : byte_of_Z (Z_of_byte b) = b.
Proof.
  unfold byte_of_Z. rewrite Z.mod_small by apply Z_of_byte_range.
  unfold Z_of_byte. by rewrite N2Z.id, Byte.of_to_N.
Qed.

#[export] Instance byte_eq_dec : EqDecision byte := Byte.byte_eq_dec.

(** [binary.LittleEndian.PutUintNN] and [UintNN]: [n] bytes, least
    significant first. *)
Fixpoint le_encode (n : nat) (z : Z) : list byte :=
  match n with
  | O => []
  | S n => byte_of_Z z :: le_encode n (z / 256)
  end.

Fixpoint le_decode (l : list byte) : Z :=
  match l with
  | [] => 0
  | b :: l => Z_of_byte b + 256 * le_decode l
  end.

Lemma length_le_encode n z : length (le_encode n z) = n.
Proof. revert z; induction n; intros; simpl; auto. Qed.

Lemma le_decode_range l : 0 <= le_decode l < 2 ^ (8 * Z.of_nat (length l)).
Proof.
  induction l as [|b l IH]; simpl length; [simpl; lia|]. cbn [le_decode].
  pose proof (Z_of_byte_range b).
  replace (8 * Z.of_nat (S (length l))) with (8 + 8 * Z.of_nat (length l)) by lia.
  rewrite Z.pow_add_r by lia. lia.
Qed.

Lemma le_decode_encode n z : le_decode (le_encode n z) = z mod 2 ^ (8 * Z.of_nat n).
Proof.
  revert z; induction n as [|n IH]; intros z; [by rewrite Z.mod_1_r|].
  cbn [le_encode le_decode]. rewrite IH, Z_of_byte_of_Z.
  replace (8 * Z.of_nat (S n)) with (8 + 8 * Z.of_nat n) by lia.
  rewrite Z.pow_add_r by lia.
  rewrite Z.rem_mul_r by (pose proof (pow2_pos (8 * Z.of_nat n)); lia). done.
Qed.

Lemma le_roundtrip_u n z w :
  w = 8 * Z.of_nat n -> is_uint w z -> le_decode (le_encode n z) = z.
Proof. intros -> Hz. rewrite le_decode_encode. by apply uint_id. Qed.

(** An [int64] written through [uint64] and read back through [int64]. *)
Lemma le_roundtrip_s n z w :
  w = 8 * Z.of_nat n -> 0 < w -> is_sint w z ->
  sint w (le_decode (le_encode n (uint w z))) = z.
Proof.
  intros -> Hw Hz. rewrite le_decode_encode, (sint_mod _ _ Hw).
  by apply sint_uint_id.
Qed.

(** * Byte strings *)

Abbreviation bytes := (list byte).

(** A Go [[]byte] that may be nil: [None] is the nil slice. *)
Abbreviation slice := (option bytes).
Definition slice_bytes (s : slice) : bytes := default [] s.
Definition slice_len (s : slice) : Z := Z.of_nat (length (slice_bytes s)).

(** A Go string is a sequence of bytes: [zerocopy.StringToBytes] and
    [zerocopy.BytesToString]. *)
Definition StringToBytes (s : string) : bytes := String.list_byte_of_string s.
Definition BytesToString (b : bytes) : string := String.string_of_list_byte b.

Lemma StringToBytesToString s : BytesToString (StringToBytes s) = s.
Proof. apply String.string_of_list_byte_of_string. Qed.
Lemma BytesToStringToBytes b : StringToBytes (BytesToString b) = b.
Proof. apply String.list_byte_of_string_of_list_byte. Qed.

Definition str_len (s : string) : Z := Z.of_nat (length (StringToBytes s)).

Lemma str_len_nonneg s : 0 <= str_len s.
Proof. unfold str_len; lia. Qed.

Lemma StringToBytes_nil s : StringToBytes s = [] -> s = EmptyString.
Proof. intros E. rewrite <- (StringToBytesToString s), E. done. Qed.

(** [zerocopy.FastCloneBytes]: nil stays nil, anything else is copied. *)
Definition FastCloneBytes (src : slice) : slice :=
  match src with
  | None => None
  | Some [] => Some []
  | Some b => Some b
  end.

Lemma FastCloneBytes_id s : FastCloneBytes s = s.
Proof. by destruct s as [[|??]|]. Qed.

(** * Time

    A [time.Time] is its number of nanoseconds since the Unix epoch; the zero
    [time.Time{}] is the first instant of year 1. *)

Definition zeroTime : Z := - 62135596800 * 10 ^ 9.
Definition IsZero (t : Z) : bool := t =? zeroTime.
Definition UnixNano (t : Z) : Z := sint 64 t.
Definition After (a b : Z) : bool := b <? a.
(** [Time.Sub] saturates at the bounds of [time.Duration]. *)
Definition Sub (a b : Z) : Z :=
  Z.max (- 2 ^ 63) (Z.min (2 ^ 63 - 1) (a - b)).

Definition Microsecond : Z := 1000.
Definition Millisecond : Z := 1000 * Microsecond.
Definition Second : Z := 1000 * Millisecond.
Definition Minute : Z := 60 * Second.
Definition Hour : Z := 60 * Minute.

Lemma zeroTime_not_int64 t : is_sint 64 t -> IsZero t = false.
Proof. intros [H _]. apply Z.eqb_neq. unfold zeroTime in *. simpl in H. lia. Qed.

(** * Reflexive transitive closure of a step relation *)

Section Star.
Context {A : Type} (R : A -> A -> Prop).

Inductive steps : A -> A -> Prop :=
| steps_refl a : steps a a
| steps_cons a b c : R a b -> steps b c -> steps a c.

Lemma steps_trans a b c : steps a b -> steps b c -> steps a c.
Proof. induction 1; eauto using steps. Qed.

Lemma steps_one a b : R a b -> steps a b.
Proof. eauto using steps. Qed.

(** The invariant rule: what every step preserves holds of every state
    reachable from a state that has it. *)
Lemma steps_invariant (P : A -> Prop) a b :
  (forall x y, P x -> R x y -> P y) -> P a -> steps a b -> P b.
Proof. intros HP Ha H. induction H; eauto. Qed.
End Star.
Arguments steps_refl {A R} _.
Arguments steps_cons {A R} _ _ _ _ _.

(** * xxh3

    github.com/zeebo/xxh3 is not part of the repository: the two halves of
    [xxh3.HashString128] are parameters; its documentation gives their type. *)

Class XXH3 := {
  xxh3_Hi : string -> Z;
  xxh3_Lo : string -> Z;
}.

Class XXH3Laws `{XXH3} := {
  xxh3_Hi_range s : is_uint 64 (xxh3_Hi s);
  xxh3_Lo_range s : is_uint 64 (xxh3_Lo s);
}.

(** A concrete 64-bit string hash, for the witnesses. *)
Module ToyHash.
Definition hash (seed : Z) (s : string) : Z :=
  fold_left (fun a b => uint 64 (a * 31 + Z_of_byte b)) (StringToBytes s) seed.

#[export] Instance xxh3 : XXH3 := {| xxh3_Hi := hash 7; xxh3_Lo := hash 3 |}.

Lemma hash_range seed s : is_uint 64 seed -> is_uint 64 (hash seed s).
Proof.
  unfold hash. generalize (StringToBytes s). intros l. revert seed.
  induction l; simpl; auto with gridkv. intros. apply IHl, uint_range. lia.
Qed.

#[export] Instance laws : XXH3Laws.
Proof. split; intros; apply hash_range; split; simpl; lia. Qed.
End ToyHash.
