(* ===== verification/Hlc.v ===== *)
(** The hybrid logical clock (src/internal/utils/hlc/hlc.go) and the int64
    version the writer derives from its time stamps (hlcToInt64 of
    src/internal/cluster/writer.go).

    [HLC] is the struct, [Now] and [Update] its two methods with the clock
    reading as an argument, [AppendInt] the decimal printer.  The theorems
    show that the clock is strictly monotone, that merging a remote stamp
    dominates it (so stamps respect causality across nodes), that a printed
    stamp is parsed back, and in which window the 64-bit version preserves the
    order of the stamps. *)

From Stdlib Require Import ZArith Lia.
From Stdlib Require Import Strings.String Strings.Byte.
From S2P Require Import Prelude.

Definition colon : byte := x3a.
Definition char0 : Z := 48.

(** * Decimal printing *)

(** The loop that fills [tmp] from its end; the fuel is the size of [tmp]. *)
Fixpoint append_digits (fuel : nat) (i : Z) (tmp : bytes) : bytes :=
  match fuel with
  | O => tmp
  | S fuel =>
      if 0 <? i
      then append_digits fuel (i / 10) (byte_of_Z (char0 + i mod 10) :: tmp)
      else tmp
  end.

Definition minInt64_text : bytes := StringToBytes "-9223372036854775808".

Definition AppendInt (buf : bytes) (i : Z) : bytes :=
  if i =? 0 then buf ++ [byte_of_Z char0]
  else if i <? 0 then
    if i =? - 2 ^ 63 then buf ++ minInt64_text
    else (buf ++ [x2d]) ++ append_digits 20 (- i) []
  else buf ++ append_digits 20 i [].

Definition AppendUint (buf : bytes) (u : Z) : bytes :=
  if u =? 0 then buf ++ [byte_of_Z char0]
  else buf ++ append_digits 20 u [].

(** * Parsing of "nodeID:timestamp:counter" *)

(** The scan for the next [c] at or after an index. *)
Fixpoint index_from (c : byte) (l : bytes) (i : Z) : Z :=
  match l with
  | [] => -1
  | b :: l => if bool_decide (b = c) then i else index_from c l (i + 1)
  end.

Definition is_digit (b : byte) : bool :=
  (48 <=? Z_of_byte b) && (Z_of_byte b <=? 57).

(** The timestamp loop: any other character aborts. *)
Fixpoint parse_ts (acc : Z) (l : bytes) : option Z :=
  match l with
  | [] => Some acc
  | c :: l =>
      if is_digit c then parse_ts (sint 64 (acc * 10 + (Z_of_byte c - 48))) l
      else None
  end.

(** The counter loop: any other character ends the number. *)
Fixpoint parse_ctr (acc : Z) (l : bytes) : Z :=
  match l with
  | [] => acc
  | c :: l =>
      if is_digit c then parse_ctr (uint 64 (acc * 10 + (Z_of_byte c - 48))) l
      else acc
  end.

(** Both parsers of the source: [None] where they return early. *)
Definition parse_hlc (s : string) : option (Z * Z) :=
  let l := StringToBytes s in
  let n := Z.of_nat (length l) in
  if n =? 0 then None else
  let idx1 := index_from colon l 0 in
  if (idx1 <? 0) || (n - 1 <=? idx1) then None else
  let idx2 := index_from colon (drop (Z.to_nat (idx1 + 1)) l) (idx1 + 1) in
  if (idx2 <? 0) || (n - 1 <=? idx2) then None else
  let tsStr := take (Z.to_nat (idx2 - (idx1 + 1))) (drop (Z.to_nat (idx1 + 1)) l) in
  match parse_ts 0 tsStr with
  | None => None
  | Some ts => Some (ts, parse_ctr 0 (drop (Z.to_nat (idx2 + 1)) l))
  end.

(** * The clock *)

Record HLC := mkHLC {
  lastTs : Z;
  counter : Z;
  nodeID : string;
  cachedTS : string;
  cacheValid : bool;
  lastCacheTS : Z;
  lastCacheCtr : Z;
}.

Definition NewHLC (id : string) : HLC := mkHLC 0 0 id "" false 0 0.

(** The stamp that [Now] formats. *)
Definition format_hlc (id : string) (ts ctr : Z) : string :=
  let buf := StringToBytes id in
  let buf := buf ++ [colon] in
  let buf := AppendInt buf ts in
  let buf := buf ++ [colon] in
  BytesToString (AppendInt buf (sint 64 ctr)).

Definition Now (h : HLC) (now : Z) : HLC * string :=
  let h1 :=
    if lastTs h <? now
    then mkHLC now 0 (nodeID h) (cachedTS h) false (lastCacheTS h) (lastCacheCtr h)
    else mkHLC (lastTs h) (addu64 (counter h) 1) (nodeID h) (cachedTS h) false
               (lastCacheTS h) (lastCacheCtr h) in
  if cacheValid h1 && (lastTs h1 =? lastCacheTS h1) && (counter h1 =? lastCacheCtr h1)
  then (h1, cachedTS h1)
  else
    let ts := format_hlc (nodeID h1) (lastTs h1) (counter h1) in
    (mkHLC (lastTs h1) (counter h1) (nodeID h1) ts true (lastTs h1) (counter h1), ts).

Definition Update (h : HLC) (remote : string) : HLC :=
  match parse_hlc remote with
  | None => h
  | Some (ts, ctr) =>
      if lastTs h <? ts
      then mkHLC ts ctr (nodeID h) (cachedTS h) false (lastCacheTS h) (lastCacheCtr h)
      else if (ts =? lastTs h) && (counter h <? ctr)
      then mkHLC (lastTs h) ctr (nodeID h) (cachedTS h) false (lastCacheTS h) (lastCacheCtr h)
      else h
  end.

(** * The 64-bit version of a stamp *)

Definition hlc_version (ts ctr : Z) : Z :=
  let tsTruncated := Z.land ts 0xFFFFFFFFFFFF in
  let ctr := if 65535 <? ctr then 65535 else ctr in
  Z.lor (sint 64 (Z.shiftl tsTruncated 16)) (Z.land ctr 0xFFFF).

Definition hlcToInt64 (hlcStr : string) (now : Z) : Z :=
  match parse_hlc hlcStr with
  | None => UnixNano now
  | Some (ts, ctr) => hlc_version ts ctr
  end.

(** The order of stamps: physical time, then counter. *)
Definition stamp_lt (a b : Z * Z) : Prop :=
  a.1 < b.1 \/ (a.1 = b.1 /\ a.2 < b.2).
Definition stamp_le (a b : Z * Z) : Prop := a = b \/ stamp_lt a b.
Definition stamp (h : HLC) : Z * Z := (lastTs h, counter h).

#[export] Instance stamp_lt_trans : Transitive stamp_lt.
Proof. intros [??] [??] [??]; unfold stamp_lt; simpl; lia. Qed.

Lemma stamp_le_lt_trans a b c : stamp_le a b -> stamp_lt b c -> stamp_lt a c.
Proof. intros [->|?] ?; [done|]. by etrans. Qed.

(** * Lemmas on the decimal format *)

Definition digit_value (acc : Z) (l : bytes) : Z :=
  fold_left (fun a c => a * 10 + (Z_of_byte c - 48)) l acc.

Lemma digit_of_Z i :
  let c := byte_of_Z (char0 + i mod 10) in
  is_digit c = true /\ Z_of_byte c - 48 = i mod 10.
Proof.
  cbv zeta. unfold is_digit, char0. rewrite Z_of_byte_of_Z.
  pose proof (Z.mod_pos_bound i 10 ltac:(lia)).
  rewrite (Z.mod_small (48 + i mod 10)) by lia.
  split; [apply andb_true_iff; split; apply Z.leb_le; lia | lia].
Qed.

Lemma append_digits_app fuel i tmp :
  append_digits fuel i tmp = append_digits fuel i [] ++ tmp.
Proof.
  revert i tmp. induction fuel as [|fuel IH]; intros i tmp; simpl; [done|].
  case_match; [|done]. rewrite IH, (IH _ [_]), <- app_assoc. done.
Qed.

Lemma append_digits_ok fuel i :
  0 <= i < 10 ^ Z.of_nat fuel ->
  Forall (fun c => is_digit c = true) (append_digits fuel i []) /\
  digit_value 0 (append_digits fuel i []) = i.
Proof.
  revert i. induction fuel as [|fuel IH]; intros i Hi.
  { simpl in *. split; [done|]. unfold digit_value; simpl; lia. }
  cbn [append_digits]. destruct (Z.ltb_spec 0 i).
  - rewrite append_digits_app.
    destruct (IH (i / 10)) as [HF HV].
    { split; [apply Z.div_pos; lia|]. apply Z.div_lt_upper_bound; [lia|].
      rewrite Nat2Z.inj_succ, Z.pow_succ_r in Hi by lia. lia. }
    destruct (digit_of_Z i) as [Hd Hv].
    split; [by apply Forall_app; auto|].
    unfold digit_value in *. rewrite fold_left_app, HV. cbn [fold_left]. rewrite Hv.
    pose proof (Z.div_mod i 10). lia.
  - split; [done|]. unfold digit_value; simpl; lia.
Qed.

Lemma AppendInt_digits i :
  0 <= i < 2 ^ 63 ->
  exists ds, (forall buf, AppendInt buf i = buf ++ ds) /\ ds <> [] /\
    Forall (fun c => is_digit c = true) ds /\ digit_value 0 ds = i.
Proof.
  intros Hi. destruct (Z.eqb_spec i 0) as [->|].
  { exists [byte_of_Z char0]. split; [done|]. split; [done|].
    split; [by repeat constructor|done]. }
  destruct (append_digits_ok 20 i) as [HF HV]; [lia|].
  exists (append_digits 20 i []). split.
  { intros buf. unfold AppendInt. destruct (Z.eqb_spec i 0); [lia|].
    destruct (Z.ltb_spec i 0); [lia|done]. }
  split; [|done]. intros E. rewrite E in HV. unfold digit_value in HV. simpl in HV. lia.
Qed.

Lemma parse_ts_digits l acc :
  Forall (fun c => is_digit c = true) l ->
  parse_ts (sint 64 acc) l = Some (sint 64 (digit_value acc l)).
Proof.
  intros H. revert acc. induction H as [|c l Hc Hl IH]; intros acc; simpl; [done|].
  rewrite Hc, <- IH. f_equal.
  destruct (sint_as_mod 64 acc) as [k ->]; [lia|].
  apply sint_congr; [lia|].
  replace ((acc + k * 2 ^ 64) * 10 + (Z_of_byte c - 48))
    with (acc * 10 + (Z_of_byte c - 48) + (k * 10) * 2 ^ 64) by lia.
  apply Z.mod_add. lia.
Qed.

Lemma parse_ctr_digits l acc :
  Forall (fun c => is_digit c = true) l ->
  parse_ctr (uint 64 acc) l = uint 64 (digit_value acc l).
Proof.
  intros H. revert acc. induction H as [|c l Hc Hl IH]; intros acc; simpl; [done|].
  rewrite Hc, <- IH. f_equal. unfold uint.
  rewrite (Z.add_mod (acc mod 2 ^ 64 * 10)), Z.mul_mod_idemp_l, <- Z.add_mod; lia.
Qed.

Lemma parse_digits_ok ds i :
  0 <= i < 2 ^ 63 -> Forall (fun c => is_digit c = true) ds -> digit_value 0 ds = i ->
  parse_ts 0 ds = Some i /\ parse_ctr 0 ds = i.
Proof.
  intros Hi HF HV. split.
  - change 0 with (sint 64 0) at 1. rewrite parse_ts_digits, HV by done.
    rewrite sint_id; [done|lia|unfold is_sint; lia].
  - change 0 with (uint 64 0) at 1. rewrite parse_ctr_digits, HV by done.
    apply uint_id. unfold is_uint; lia.
Qed.

Lemma digit_not_colon c : is_digit c = true -> c <> colon.
Proof. intros H ->. by vm_compute in H. Qed.

Lemma index_from_app c l1 l2 i :
  c ∉ l1 -> index_from c (l1 ++ [c] ++ l2) i = i + Z.of_nat (length l1).
Proof.
  revert i. induction l1 as [|b l1 IH]; intros i Hn; simpl.
  - rewrite bool_decide_eq_true_2 by done. lia.
  - apply not_elem_of_cons in Hn as [??]. rewrite bool_decide_eq_false_2 by congruence.
    rewrite IH by done. lia.
Qed.

(** A stamp whose node id has no colon is split at its two separators. *)
Lemma parse_hlc_fields id ds1 ds2 ts :
  colon ∉ id -> colon ∉ ds1 -> ds2 <> [] -> parse_ts 0 ds1 = Some ts ->
  parse_hlc (BytesToString (id ++ [colon] ++ ds1 ++ [colon] ++ ds2))
  = Some (ts, parse_ctr 0 ds2).
Proof.
  intros Hid H1 H2 Hts. unfold parse_hlc. rewrite BytesToStringToBytes. cbv zeta.
  set (l := id ++ [colon] ++ ds1 ++ [colon] ++ ds2).
  assert (Hlen : Z.of_nat (length l) =
    Z.of_nat (length id) + Z.of_nat (length ds1) + 2 + Z.of_nat (length ds2)).
  { unfold l. rewrite !length_app. simpl. lia. }
  assert (0 < Z.of_nat (length ds2)) by (destruct ds2; [done|simpl; lia]).
  assert (E1 : index_from colon l 0 = Z.of_nat (length id)).
  { unfold l. rewrite index_from_app by done. lia. }
  assert (D1 : drop (Z.to_nat (Z.of_nat (length id) + 1)) l = ds1 ++ [colon] ++ ds2).
  { unfold l. replace (Z.to_nat (Z.of_nat (length id) + 1)) with (length (id ++ [colon])).
    2:{ rewrite length_app; simpl; lia. }
    rewrite (assoc_L (++)). apply drop_app_length. }
  rewrite E1, D1, (index_from_app colon ds1) by done.
  assert (D2 : drop (Z.to_nat (Z.of_nat (length id) + 1 + Z.of_nat (length ds1) + 1)) l = ds2).
  { replace (Z.to_nat _) with (Z.to_nat (Z.of_nat (length id) + 1) + length (ds1 ++ [colon]))%nat.
    2:{ rewrite length_app; simpl; lia. }
    rewrite <- drop_drop, D1, (assoc_L (++)). apply drop_app_length. }
  rewrite D2.
  replace (Z.to_nat _) with (length ds1) by lia. rewrite take_app_length, Hts.
  arith_cases. done.
Qed.

Definition no_colon (id : string) : Prop := colon ∉ StringToBytes id.

#[export] Instance no_colon_dec id : Decision (no_colon id).
Proof. unfold no_colon. apply _. Defined.

Lemma parse_format id ts ctr :
  no_colon id -> 0 <= ts < 2 ^ 63 -> 0 <= ctr < 2 ^ 63 ->
  parse_hlc (format_hlc id ts ctr) = Some (ts, ctr).
Proof.
  intros Hid Hts Hctr. unfold format_hlc. cbv zeta.
  destruct (AppendInt_digits ts Hts) as (d1 & E1 & N1 & F1 & V1).
  rewrite (sint_id 64 ctr) by (unfold is_sint; lia).
  destruct (AppendInt_digits ctr Hctr) as (d2 & E2 & N2 & F2 & V2).
  rewrite E1, E2, <- !(assoc_L (++)).
  destruct (parse_digits_ok d1 ts) as [P1 _]; try done.
  destruct (parse_digits_ok d2 ctr) as [_ P2]; try done.
  rewrite (parse_hlc_fields _ d1 d2 ts); [by rewrite P2|done| |done|done].
  intros Hin. rewrite Forall_forall in F1. by apply F1, digit_not_colon in Hin.
Qed.

(** * Lemmas on the clock *)

(** [Now] without the cache: the cached stamp is never valid at that point. *)
Lemma Now_eq h now :
  Now h now =
  let (ts, ctr) := if lastTs h <? now then (now, 0) else (lastTs h, addu64 (counter h) 1) in
  let s := format_hlc (nodeID h) ts ctr in
  (mkHLC ts ctr (nodeID h) s true ts ctr, s).
Proof. unfold Now. by destruct (lastTs h <? now). Qed.

(** The clock values that the 64-bit formats can hold. *)
Definition clock_ok (h : HLC) : Prop :=
  0 <= lastTs h < 2 ^ 63 /\ 0 <= counter h < 2 ^ 63 - 1 /\ no_colon (nodeID h).

Lemma Now_stamp h now :
  counter h < 2 ^ 64 - 1 -> 0 <= counter h -> stamp_lt (stamp h) (stamp (Now h now).1).
Proof.
  intros H1 H2. rewrite Now_eq. unfold stamp_lt, stamp. destruct (Z.ltb_spec (lastTs h) now); simpl; [lia|].
  unfold addu64. rewrite uint_id; unfold is_uint; lia.
Qed.

Lemma Update_ge h s : stamp_le (stamp h) (stamp (Update h s)).
Proof.
  unfold Update, stamp_le, stamp_lt, stamp.
  destruct (parse_hlc s) as [[ts ctr]|]; [|by left].
  destruct (Z.ltb_spec (lastTs h) ts); simpl; [right; lia|].
  destruct (Z.eqb_spec ts (lastTs h)), (Z.ltb_spec (counter h) ctr); simpl;
    (by left) || (right; lia).
Qed.

Lemma Update_dominates h s ts ctr :
  parse_hlc s = Some (ts, ctr) -> stamp_le (ts, ctr) (stamp (Update h s)).
Proof.
  intros E. unfold Update, stamp_le, stamp_lt, stamp. rewrite E.
  destruct (Z.ltb_spec (lastTs h) ts); simpl; [by left|].
  destruct (Z.eqb_spec ts (lastTs h)), (Z.ltb_spec (counter h) ctr); simpl;
    [left; congruence| |right; lia|right; lia].
  destruct (Z.eqb_spec ctr (counter h)); [left; congruence|right; lia].
Qed.

Lemma Now_parse h now :
  clock_ok h -> 0 <= now < 2 ^ 63 ->
  parse_hlc (Now h now).2 = Some (stamp (Now h now).1).
Proof.
  intros (Hts & Hc & Hid) Hn. rewrite Now_eq.
  destruct (Z.ltb_spec (lastTs h) now); simpl; [apply parse_format; done || lia|].
  unfold addu64. rewrite uint_id by (unfold is_uint; lia).
  apply parse_format; done || lia.
Qed.

(** The version word is the truncated timestamp over the counter. *)
Lemma hlc_version_eq ts ctr :
  0 <= ctr ->
  hlc_version ts ctr = sint 64 ((ts mod 2 ^ 48) * 2 ^ 16) + Z.min ctr 65535.
Proof.
  intros Hc. unfold hlc_version.
  assert (L48 : forall x, Z.land x 0xFFFFFFFFFFFF = x mod 2 ^ 48)
    by (intros x; apply (Z.land_ones x 48); lia).
  assert (L16 : forall x, Z.land x 0xFFFF = x mod 2 ^ 16)
    by (intros x; apply (Z.land_ones x 16); lia).
  rewrite L48, L16, Z.shiftl_mul_pow2 by lia.
  replace (if 65535 <? ctr then 65535 else ctr) with (Z.min ctr 65535) by (arith_cases; lia).
  rewrite (Z.mod_small (Z.min ctr 65535)) by lia.
  assert (exists k, sint 64 (ts mod 2 ^ 48 * 2 ^ 16) = k * 2 ^ 16) as [k ->].
  { destruct (sint_as_mod 64 (ts mod 2 ^ 48 * 2 ^ 16)) as [k ->]; [lia|].
    exists (ts mod 2 ^ 48 + k * 2 ^ 48). lia. }
  rewrite <- Z.shiftl_mul_pow2 by lia.
  rewrite <- Z.lxor_lor, <- Z.add_nocarry_lxor; [done| |];
    (apply Z.bits_inj'; intros n Hn; rewrite Z.bits_0, Z.land_spec;
     destruct (Z.ltb_spec n 16);
     [ by rewrite Z.shiftl_spec_low by lia
     | rewrite (Z.bits_above_log2 (Z.min ctr 65535)), andb_false_r;
       [done|lia|];
       apply Z.le_lt_trans with (Z.log2 65535); [apply Z.log2_le_mono; lia|simpl; lia] ]).
Qed.

Lemma hlc_version_window ts ctr :
  0 <= ctr -> ts mod 2 ^ 48 < 2 ^ 47 ->
  hlc_version ts ctr = (ts mod 2 ^ 48) * 2 ^ 16 + Z.min ctr 65535.
Proof.
  intros Hc Ht. rewrite hlc_version_eq by done. f_equal.
  pose proof (Z.mod_pos_bound ts (2 ^ 48)). apply sint_id; unfold is_sint; lia.
Qed.

Lemma hlc_version_negative ts ctr :
  0 <= ctr -> 2 ^ 47 <= ts mod 2 ^ 48 ->
  hlc_version ts ctr = (ts mod 2 ^ 48 - 2 ^ 48) * 2 ^ 16 + Z.min ctr 65535.
Proof.
  intros Hc Ht. rewrite hlc_version_eq by done. f_equal.
  pose proof (Z.mod_pos_bound ts (2 ^ 48)). unfold sint.
  replace (ts mod 2 ^ 48 * 2 ^ 16 + 2 ^ (64 - 1))
    with ((ts mod 2 ^ 48 - 2 ^ 47) * 2 ^ 16 + 1 * 2 ^ 64) by lia.
  rewrite Z.mod_add, Z.mod_small; lia.
Qed.

Lemma parse_ctr_nonneg acc l : 0 <= acc -> 0 <= parse_ctr acc l.
Proof.
  revert acc. induction l as [|b l IH]; intros acc Ha; simpl; [done|]. case_match; [|done].
  apply IH. apply uint_range. lia.
Qed.

(** Versions are 64-bit integers. *)
Lemma hlcToInt64_range s now : is_sint 64 (hlcToInt64 s now).
Proof.
  unfold hlcToInt64. destruct (parse_hlc s) as [[ts ctr]|] eqn:E; [|by apply sint_range].
  assert (Hc : 0 <= ctr).
  { unfold parse_hlc in E. split_matches; by apply parse_ctr_nonneg. }
  pose proof (Z.mod_pos_bound ts (2 ^ 48) ltac:(lia)). unfold is_sint.
  destruct (Z.lt_ge_cases (ts mod 2 ^ 48) (2 ^ 47)).
  - rewrite hlc_version_window by done. lia.
  - rewrite hlc_version_negative by done. lia.
Qed.

(** * Theorems *)

(** C14. Causality across nodes, at the level of the printed stamps: when node
    [b] merges the stamp that node [a] issued and then issues its own, the
    stamp of [b] parses to a strictly larger (timestamp, counter) pair than
    the stamp of [a] and than the clock of [b] before the merge, whatever the
    two physical clocks read; both stamps parse back to the state of the clock
    that issued them.  The clocks are not negative, their counters are not at
    their maximum and node ids have no colon. *)
Theorem hlc_causality a b nowa nowb :
  clock_ok a -> 0 <= nowa < 2 ^ 63 -> 0 <= nowb < 2 ^ 63 ->
  let sa := (Now a nowa).2 in
  clock_ok (Update b sa) ->
  let sb := (Now (Update b sa) nowb).2 in
  let pa := stamp (Now a nowa).1 in
  let pb := stamp (Now (Update b sa) nowb).1 in
  parse_hlc sa = Some pa /\ parse_hlc sb = Some pb /\ stamp_lt pa pb /\ stamp_lt (stamp b) pb.
Proof.
  intros Ha Hna Hnb sa Hb sb pa pb.
  pose proof (Now_parse a nowa Ha Hna) as Pa. fold sa in Pa.
  split; [done|]. split; [by apply Now_parse|].
  assert (Hnow : stamp_lt (stamp (Update b sa)) pb) by (destruct Hb as (_ & Hc & _); apply Now_stamp; lia).
  split; [|by eapply stamp_le_lt_trans; [apply Update_ge|]].
  apply stamp_le_lt_trans with (stamp (Update b sa)).
  - unfold pa. rewrite (surjective_pairing (stamp (Now a nowa).1)) in Pa |- *.
    by apply Update_dominates.
  - exact Hnow.
Qed.

(** The clock never goes backwards: along any sequence of [Now] and
    [Update] calls the (timestamp, counter) pair grows, and each [Now] makes
    it strictly larger even when the physical clock stands still or runs
    backwards. *)
Theorem hlc_monotone h now s :
  0 <= counter h < 2 ^ 64 - 1 ->
  stamp_lt (stamp h) (stamp (Now h now).1) /\ stamp_le (stamp h) (stamp (Update h s)).
Proof. intros. split; [apply Now_stamp; lia|apply Update_ge]. Qed.

(** Within one window of 2^47 nanoseconds the int64 version of a stamp
    orders as the stamp does, for counters up to 65535. *)
Theorem hlc_version_monotone ts1 c1 ts2 c2 :
  ts1 / 2 ^ 47 = ts2 / 2 ^ 47 -> 0 <= c1 <= 65535 -> 0 <= c2 <= 65535 ->
  stamp_lt (ts1, c1) (ts2, c2) -> hlc_version ts1 c1 < hlc_version ts2 c2.
Proof.
  intros Hw H1 H2 Hlt. unfold stamp_lt in Hlt; simpl in Hlt.
  pose proof (Z.div_mod ts1 (2 ^ 47)). pose proof (Z.div_mod ts2 (2 ^ 47)).
  pose proof (Z.mod_pos_bound ts1 (2 ^ 47)). pose proof (Z.mod_pos_bound ts2 (2 ^ 47)).
  assert (Hm : forall ts, ts mod 2 ^ 48 = ts mod 2 ^ 47 + 2 ^ 47 * ((ts / 2 ^ 47) mod 2)).
  { intros ts. replace (2 ^ 48) with (2 ^ 47 * 2) by lia. rewrite Z.rem_mul_r; lia. }
  rewrite !hlc_version_eq, !Hm, Hw by lia.
  pose proof (Z.mod_pos_bound (ts2 / 2 ^ 47) 2).
  assert ((ts2 / 2 ^ 47) mod 2 = 0 \/ (ts2 / 2 ^ 47) mod 2 = 1) as [->| ->] by lia.
  - rewrite !sint_id by (unfold is_sint; lia). lia.
  - unfold sint.
    assert (E : forall x, 0 <= x < 2 ^ 47 ->
      ((x + 2 ^ 47 * 1) * 2 ^ 16 + 2 ^ (64 - 1)) mod 2 ^ 64 = x * 2 ^ 16).
    { intros x Hx. replace ((x + 2 ^ 47 * 1) * 2 ^ 16 + 2 ^ (64 - 1))
        with (x * 2 ^ 16 + 1 * 2 ^ 64) by lia.
      rewrite Z.mod_add, Z.mod_small; lia. }
    rewrite !E by lia. lia.
Qed.

(** Across the window boundary the version goes backwards: one nanosecond
    after the last instant of an even window, every version is negative and
    below every version of that window, whatever the counters. *)
Theorem hlc_version_wraps k c1 c2 :
  0 <= c1 -> 0 <= c2 ->
  let t1 := k * 2 ^ 48 + 2 ^ 47 - 1 in
  hlc_version (t1 + 1) c2 < 0 /\ hlc_version (t1 + 1) c2 < hlc_version t1 c1.
Proof.
  intros H1 H2 t1.
  assert (E1 : t1 mod 2 ^ 48 = 2 ^ 47 - 1).
  { unfold t1. replace (k * 2 ^ 48 + 2 ^ 47 - 1) with (2 ^ 47 - 1 + k * 2 ^ 48) by lia.
    rewrite Z.mod_add, Z.mod_small; lia. }
  assert (E2 : (t1 + 1) mod 2 ^ 48 = 2 ^ 47).
  { unfold t1. replace (k * 2 ^ 48 + 2 ^ 47 - 1 + 1) with (2 ^ 47 + k * 2 ^ 48) by lia.
    rewrite Z.mod_add, Z.mod_small; lia. }
  rewrite (hlc_version_negative (t1 + 1)), (hlc_version_window t1), E1, E2; lia.
Qed.

Lemma hlc_causality_witness :
  let b := Update (mkHLC 4 7 "b" "" false 0 0) (Now (NewHLC "a") 5).2 in
  parse_hlc (Now b 3).2 = Some (stamp (Now b 3).1) /\ stamp_lt (4, 7) (stamp (Now b 3).1) /\
  stamp_lt (5, 0) (stamp (Now b 3).1).
Proof.
  intros b.
  destruct (hlc_causality (NewHLC "a") (mkHLC 4 7 "b" "" false 0 0) 5 3) as (_ & Hp & Ha & Hb);
    [|done|done| |exact (conj Hp (conj Hb Ha))]; (split; [by vm_compute|split; [by vm_compute|]]);
    by apply (bool_decide_unpack _).
Defined.

Lemma hlc_monotone_witness :
  stamp_lt (7, 2) (stamp (Now (mkHLC 7 2 "n" "" false 0 0) 5).1) /\
  stamp_le (7, 2) (stamp (Update (mkHLC 7 2 "n" "" false 0 0) "m:9:1")).
Proof. apply (hlc_monotone (mkHLC 7 2 "n" "" false 0 0) 5 "m:9:1"). by vm_compute. Defined.

Lemma hlc_version_monotone_witness : hlc_version 1000 3 < hlc_version 1001 0.
Proof. apply (hlc_version_monotone 1000 3 1001 0); [done|lia|lia|by left]. Defined.

Lemma hlc_version_wraps_witness :
  hlc_version (2 ^ 47) 0 < 0 /\ hlc_version (2 ^ 47) 0 < hlc_version (2 ^ 47 - 1) 9.
Proof. apply (hlc_version_wraps 0 9 0); lia. Defined.
