(* ===== verification/StoredItem.v ===== *)
(** Versioned items (src/internal/mem_storage/stored_item.go): the struct, its
    conflict resolution, predicates and copies.  [ResolveConflict] is shown
    equal to a last-write-wins reference. *)

From Stdlib Require Import ZArith Lia.
From Stdlib Require Import Strings.String Strings.Byte.
From S2P Require Import Prelude.

Record StoredItem := mkItem {
  si_Version : Z;
  si_ExpireAt : Z;
  si_Value : slice;
  si_Key : string;
}.

#[export] Instance StoredItem_eq_dec : EqDecision StoredItem.
Proof. solve_decision. Defined.

(** A nil [*StoredItem] is [None]. *)

Definition IsExpired (item : StoredItem) (now : Z) : bool :=
  if IsZero (si_ExpireAt item) then false else After now (si_ExpireAt item).

Definition IsTombstone (item : StoredItem) : bool :=
  (slice_len (si_Value item) =? 0) && (0 <? si_Version item).

Definition closeTimeWindow : Z := 100 * Millisecond.
Definition mediumTimeWindow : Z := 500 * Millisecond.
Definition minVersionGap : Z := 1000.

Definition ResolveConflict (item : StoredItem) (other : option StoredItem) (now : Z) : bool :=
  match other with
  | None => false
  | Some other =>
      let iv := si_Version item in
      let ov := si_Version other in
      if (iv <? 0) && (0 <=? ov) then true
      else if (iv <? 0) || (ov <? 0) then iv <? ov
      else
        let itemTs := Z.shiftr iv 16 in
        let otherTs := Z.shiftr ov 16 in
        let currentTime := UnixNano now in
        let limit := sint 64 (currentTime + Hour) in
        if (limit <? itemTs) || (limit <? otherTs) then false
        else
          let timeDiff := if itemTs <? otherTs then sint 64 (otherTs - itemTs)
                          else sint 64 (itemTs - otherTs) in
          if (timeDiff <=? closeTimeWindow) && negb (ov =? iv) then iv <? ov
          else if (timeDiff <=? mediumTimeWindow) && negb (ov =? iv)
          then minVersionGap <? sint 64 (ov - iv)
          else if iv <? ov then true
          else if ov <? iv then false
          else
            let itemExpired := IsExpired item now in
            let otherExpired := IsExpired other now in
            if otherExpired && negb itemExpired then false
            else if negb otherExpired && itemExpired then true
            else false
  end.

Definition CompareVersion (item : StoredItem) (other : option StoredItem) : Z :=
  match other with
  | None => 1
  | Some other =>
      if si_Version item <? si_Version other then -1
      else if si_Version other <? si_Version item then 1
      else 0
  end.

Definition Copy (item : option StoredItem) : option StoredItem :=
  match item with
  | None => None
  | Some i => Some (mkItem (si_Version i) (si_ExpireAt i) (si_Value i) (si_Key i))
  end.

Definition DeepCopy (item : option StoredItem) : option StoredItem :=
  match item with
  | None => None
  | Some i =>
      let value := match si_Value i with
                   | None => None
                   | Some v => FastCloneBytes (Some v)
                   end in
      Some (mkItem (si_Version i) (si_ExpireAt i) value (si_Key i))
  end.

Definition ResetItem (item : option StoredItem) : option StoredItem :=
  match item with
  | None => None
  | Some _ => Some (mkItem 0 zeroTime None "")
  end.

(** [WithVersion] and [WithTTL] dereference the copy: nil panics. *)
Definition WithVersion (item : option StoredItem) (version : Z) : option StoredItem :=
  match DeepCopy item with
  | None => None
  | Some c => Some (mkItem version (si_ExpireAt c) (si_Value c) (si_Key c))
  end.

Definition WithTTL (item : option StoredItem) (ttl now : Z) : option StoredItem :=
  match DeepCopy item with
  | None => None
  | Some c =>
      let e := if 0 <? ttl then now + ttl else zeroTime in
      Some (mkItem (si_Version c) e (si_Value c) (si_Key c))
  end.

Definition ItemSize (item : option StoredItem) : Z :=
  match item with
  | None => 0
  | Some i => 64 + (24 + slice_len (si_Value i)) + (16 + str_len (si_Key i))
  end.

Definition IsValid (item : option StoredItem) : bool :=
  match item with
  | None => false
  | Some i => 0 <? si_Version i
  end.

Lemma DeepCopy_id item : DeepCopy item = item.
Proof. destruct item as [[v e [[|??]|] k]|]; done. Qed.

(** * Last write wins *)

(** The reference: the higher version wins, and between equal valid versions
    a live item replaces an expired one. *)
Definition lww (item other : StoredItem) (now : Z) : bool :=
  (si_Version item <? si_Version other) ||
  ((si_Version item =? si_Version other) && (0 <=? si_Version item) &&
   IsExpired item now && negb (IsExpired other now)).

(** The versions that are not from the future. *)
Definition not_future (now v : Z) : Prop := Z.shiftr v 16 <= sint 64 (UnixNano now + Hour).

#[export] Instance not_future_dec now v : Decision (not_future now v).
Proof. unfold not_future. apply _. Defined.

Lemma shiftr16_bounds v : 2 ^ 16 * Z.shiftr v 16 <= v < 2 ^ 16 * Z.shiftr v 16 + 2 ^ 16.
Proof.
  rewrite Z.shiftr_div_pow2 by lia.
  pose proof (Z.div_mod v (2 ^ 16)). pose proof (Z.mod_pos_bound v (2 ^ 16)). lia.
Qed.

(** C40. For items whose versions are int64 values not stamped in the future,
    the windowed conflict resolution of the source decides exactly as
    last-write-wins: its special cases for close and medium time differences
    never change the winner. *)
Theorem ResolveConflict_lww item other now :
  is_sint 64 (si_Version item) -> is_sint 64 (si_Version other) ->
  not_future now (si_Version item) -> not_future now (si_Version other) ->
  ResolveConflict item (Some other) now = lww item other now.
Proof.
  intros Hi Ho Fi Fo. unfold ResolveConflict, lww, not_future, is_sint in *. cbv zeta.
  set (iv := si_Version item) in *. set (ov := si_Version other) in *.
  pose proof (shiftr16_bounds iv). pose proof (shiftr16_bounds ov).
  clearbody iv ov. set (it := Z.shiftr iv 16) in *. set (ot := Z.shiftr ov 16) in *.
  clearbody it ot.
  destruct (Z.ltb_spec iv 0), (Z.ltb_spec ov 0); simpl; [clear Fi Fo; arith_cases; done..|].
  rewrite (proj2 (Z.ltb_ge _ _) Fi), (proj2 (Z.ltb_ge _ _) Fo). simpl. clear Fi Fo.
  unfold closeTimeWindow, mediumTimeWindow, minVersionGap, Millisecond, Microsecond.
  destruct (Z.lt_trichotomy iv ov) as [Hlt|[Heq|Hgt]].
  - rewrite (proj2 (Z.ltb_lt iv ov)), (proj2 (Z.eqb_neq ov iv)) by lia. simpl.
    rewrite !sint_id by (unfold is_sint; lia). arith_cases; done.
  - rewrite Heq, Z.eqb_refl, !Z.ltb_irrefl, !andb_false_r, (proj2 (Z.leb_le 0 ov)) by lia.
    destruct (IsExpired item now), (IsExpired other now); done.
  - rewrite (proj2 (Z.ltb_ge iv ov)), (proj2 (Z.ltb_lt ov iv)), (proj2 (Z.eqb_neq ov iv)),
      (proj2 (Z.eqb_neq iv ov)) by lia. simpl.
    rewrite !sint_id by (unfold is_sint; lia). arith_cases; done.
Qed.

Lemma ResolveConflict_lww_witness :
  ResolveConflict (mkItem 10 zeroTime None "k") (Some (mkItem 11 zeroTime (Some [x61]) "k")) 0
  = lww (mkItem 10 zeroTime None "k") (mkItem 11 zeroTime (Some [x61]) "k") 0.
Proof. apply ResolveConflict_lww; by vm_compute. Defined.
