(* ===== verification/Compress.v ===== *)
(** LZ4 compression of values (src/internal/utils/compress/compress.go and
    pool.go).  The block codec github.com/pierrec/lz4 is not part of the
    repository: it is the class [LZ4], and [LZ4Laws] states what its
    documentation promises.  Buffers of the pool are modelled by their length,
    which is what decides whether the codec succeeds. *)

From Stdlib Require Import ZArith Lia.
From Stdlib Require Import Strings.Byte.
From S2P Require Import Prelude.

Definition blen (b : bytes) : Z := Z.of_nat (length b).

(** [CompressBlock src n]: the block written to a destination of [n] bytes;
    [None] is an error and an empty block means incompressible.
    [UncompressBlock src n]: the data, or [None] when it does not fit. *)
Class LZ4 := {
  CompressBlockBound : Z -> Z;
  CompressBlock : bytes -> Z -> option bytes;
  UncompressBlock : bytes -> Z -> option bytes;
}.

Class LZ4Laws `{LZ4} := {
  uncompress_compress src n out n' :
    CompressBlock src n = Some out -> out <> [] -> blen src <= n' ->
    UncompressBlock out n' = Some src;
  uncompress_short src n out n' :
    CompressBlock src n = Some out -> out <> [] -> n' < blen src ->
    UncompressBlock out n' = None;
}.

Definition maxAlloc : Z := 8 * 1024 * 1024.
Definition maxEstimate : Z := 64 * 1024 * 1024.
(** The largest buffer the pools ever hold is the 4 MiB one of [NewPool]. *)
Definition maxPooled : Z := 4 * 1024 * 1024.

(** The length of the buffer [getFromTier] returns when the pool of the tier
    hands out a buffer of capacity [poolCap]. *)
Definition getFromTier (poolCap size : Z) : Z :=
  if poolCap <? size
  then (if maxAlloc <? size then maxAlloc else size)
  else size.

(** The lines after the declaration of [idx] in [getFromTier] and
    [putToTier]: the tier of a size. *)
Definition tierIndex (size : Z) : Z :=
  if 256 * 1024 <? size then (if 512 * 1024 <? size then 2 else 1) else 0.

(** The tier a buffer of this capacity goes back to; [None] when it is
    dropped. *)
Definition putToTier (bufCap : option Z) : option Z :=
  match bufCap with
  | None => None
  | Some capSize => if 2 * 1024 * 1024 <? capSize then None else Some (tierIndex capSize)
  end.

Section Codec.
Context `{LZ4}.

Definition GetCompress (poolCap size : Z) : Z :=
  getFromTier poolCap (CompressBlockBound size).
Definition GetDecompress (poolCap size : Z) : Z := getFromTier poolCap (size + 64).

(** [poolCap] is the capacity of the pooled buffer that is offered. *)
Definition Compress (data : slice) (threshold poolCap : Z) : slice * bool :=
  let d := slice_bytes data in
  if blen d <? threshold then (data, false)
  else
    let buf := GetCompress poolCap (blen d) in
    match CompressBlock d buf with
    | None => (data, false)
    | Some out =>
        if blen out =? 0 then (data, false)
        else if blen out <? blen d * 95 / 100 then (Some out, true)
        else (data, false)
    end.

(** [CompressTo]: the data, the length [n] of the block, and whether it was
    compressed; [dstCap] is the capacity of the destination. *)
Definition CompressTo (data : bytes) (dstCap threshold poolCap : Z) : bytes * Z * bool :=
  if blen data <? threshold then (data, 0, false)
  else
    let bound := CompressBlockBound (blen data) in
    let buf := if bound <=? dstCap then bound else GetCompress poolCap (blen data) in
    match CompressBlock data buf with
    | None => (data, 0, false)
    | Some out =>
        if blen out =? 0 then (data, 0, false)
        else if blen out <? blen data * 95 / 100 then (out, blen out, true)
        else (data, 0, false)
    end.

Definition normEstimate (data : bytes) (estimatedSize : Z) : Z :=
  let e := if estimatedSize <=? 0 then blen data * 2 else estimatedSize in
  let e := if e <? blen data * 2 then blen data * 2 else e in
  if maxEstimate <? e then maxEstimate else e.

Definition DecompressTo (data : bytes) (dstCap estimatedSize poolCap : Z) : option bytes :=
  let est := normEstimate data estimatedSize in
  let useDst := est <=? dstCap in
  let buf := if useDst then est else GetDecompress poolCap est in
  match UncompressBlock data buf with
  | Some out => Some out
  | None => UncompressBlock data (GetDecompress poolCap (est * 4))
  end.

(** [Decompress]: a buffer of its own first, the pool with four times the
    estimate only when it is too small. *)
Definition Decompress (data : bytes) (estimatedSize poolCap : Z) : option bytes :=
  match UncompressBlock data (normEstimate data estimatedSize) with
  | Some out => Some out
  | None => DecompressTo data 0 (estimatedSize * 4) poolCap
  end.

Lemma getFromTier_le poolCap size :
  poolCap <= maxPooled -> getFromTier poolCap size = Z.min size maxAlloc.
Proof. unfold getFromTier, maxPooled, maxAlloc. intros. arith_cases; lia. Qed.

Lemma normEstimate_ge data n : Z.min n maxEstimate <= normEstimate data n.
Proof.
  unfold normEstimate, blen, maxEstimate. destruct (Z.leb_spec n 0); arith_cases; lia.
Qed.

Lemma Compress_true data th cap v :
  Compress data th cap = (v, true) ->
  exists out n, v = Some out /\ out <> [] /\ CompressBlock (slice_bytes data) n = Some out /\
    blen out < blen (slice_bytes data).
Proof.
  unfold Compress. intros E. split_matches. to_prop.
  exists l, (GetCompress cap (blen (slice_bytes data))). split; [done|]. split.
  { by intros ->. }
  split; [done|]. pose proof (Z.div_mod (blen (slice_bytes data) * 95) 100).
  pose proof (Z.mod_pos_bound (blen (slice_bytes data) * 95) 100).
  unfold blen in *. lia.
Qed.

Lemma Compress_false data th cap v : Compress data th cap = (v, false) -> v = data.
Proof. unfold Compress. intros E. by split_matches. Qed.

Context `{!LZ4Laws}.

(** What was compressed is decompressed, as long as the original fits the
    largest buffer the pool allocates. *)
Lemma DecompressTo_Compress data th cap out est cap' :
  cap' <= maxPooled -> Compress data th cap = (Some out, true) ->
  blen (slice_bytes data) <= est -> blen (slice_bytes data) <= maxAlloc ->
  DecompressTo out 0 est cap' = Some (slice_bytes data).
Proof.
  intros Hc E Hest Hmax. apply Compress_true in E as (o & n & [= <-] & Hne & HC & _).
  unfold DecompressTo.
  rewrite (uncompress_compress (slice_bytes data) n out); try done.
  pose proof (normEstimate_ge out est). unfold maxEstimate, maxAlloc in *.
  destruct (Z.leb_spec (normEstimate out est) 0); [lia|].
  unfold GetDecompress. rewrite getFromTier_le by done. unfold maxAlloc. lia.
Qed.

(** [Decompress] is not bound by the size of pooled buffers: it gives back
    what was compressed up to an estimate of 64 MiB. *)
Lemma Decompress_Compress data th cap out est cap' :
  Compress data th cap = (Some out, true) -> blen (slice_bytes data) <= est -> blen (slice_bytes data) <= maxEstimate ->
  Decompress out est cap' = Some (slice_bytes data).
Proof.
  intros E Hest Hmax. apply Compress_true in E as (o & n & [= <-] & Hne & HC & _). unfold Decompress.
  rewrite (uncompress_compress (slice_bytes data) n out); try done. pose proof (normEstimate_ge out est). lia.
Qed.

Lemma CompressTo_true data dst th cap out n :
  CompressTo data dst th cap = (out, n, true) ->
  n = blen out /\ out <> [] /\ blen out < blen data /\
  exists m, CompressBlock data m = Some out.
Proof.
  unfold CompressTo. destruct (blen data <? th); [done|].
  set (buf := if CompressBlockBound (blen data) <=? dst then _ else _).
  destruct (CompressBlock data buf) as [o|] eqn:E; [|done].
  destruct (Z.eqb_spec (blen o) 0); [done|].
  destruct (Z.ltb_spec (blen o) (blen data * 95 / 100)); [|done]. intros [= -> <-].
  split; [done|]. split; [by intros ->|]. split; [|by exists buf].
  pose proof (Z.div_mod (blen data * 95) 100). pose proof (Z.mod_pos_bound (blen data * 95) 100).
  unfold blen in *. lia.
Qed.

(** What decompression with an estimate of four times the block gives back:
    the second attempt has room for sixteen times the block. *)
Lemma DecompressTo_block data m out cap :
  cap <= maxPooled -> CompressBlock data m = Some out -> out <> [] ->
  DecompressTo out 0 (blen out * 4) cap =
  if blen data <=? Z.min (blen out * 16 + 64) maxAlloc then Some data else None.
Proof.
  intros Hc HC Hne. assert (0 < blen out) by (unfold blen; destruct out; [done|simpl; lia]).
  unfold DecompressTo. set (est := normEstimate out (blen out * 4)).
  assert (He : est = Z.min (blen out * 4) maxEstimate).
  { unfold est, normEstimate, maxEstimate. destruct (Z.leb_spec (blen out * 4) 0); [lia|].
    destruct (Z.ltb_spec (blen out * 4) (blen out * 2)); [lia|]. arith_cases; lia. }
  destruct (Z.leb_spec est 0); [unfold maxEstimate in *; lia|].
  unfold GetDecompress. rewrite !getFromTier_le by done.
  destruct (Z.leb_spec (blen data) (Z.min (est + 64) maxAlloc)) as [Hle|Hgt].
  - rewrite (uncompress_compress data m out) by done.
    destruct (Z.leb_spec (blen data) (Z.min (blen out * 16 + 64) maxAlloc)); [done|lia].
  - rewrite (uncompress_short data m out) by done.
    assert (Hm : Z.min (est * 4 + 64) maxAlloc = Z.min (blen out * 16 + 64) maxAlloc).
    { unfold maxEstimate, maxAlloc in *. lia. }
    rewrite Hm. destruct (Z.leb_spec (blen data) (Z.min (blen out * 16 + 64) maxAlloc)).
    + by rewrite (uncompress_compress data m out).
    + by rewrite (uncompress_short data m out).
Qed.

(** A larger original never comes back: both buffers the pool hands out are
    capped below its size. *)
Lemma DecompressTo_too_large data th cap out est cap' :
  cap' <= maxPooled -> Compress data th cap = (Some out, true) ->
  maxAlloc < blen (slice_bytes data) ->
  DecompressTo out 0 est cap' = None.
Proof.
  intros Hc E Hmax. apply Compress_true in E as (o & n & [= <-] & Hne & HC & _).
  unfold DecompressTo, GetDecompress. rewrite !getFromTier_le by done.
  assert (0 < blen out) by (unfold blen; destruct out; [done|simpl; lia]).
  assert (0 < normEstimate out est).
  { unfold normEstimate, maxEstimate. destruct (Z.leb_spec est 0); arith_cases; lia. }
  destruct (Z.leb_spec (normEstimate out est) 0); [lia|].
  rewrite !(uncompress_short (slice_bytes data) n out) by (done || lia). done.
Qed.
End Codec.

(** * A concrete codec

    A run-length coder that has the documented behaviour, so the theorems
    that use [LZ4Laws] can be applied. *)

Module RunLength.
Definition compress (src : bytes) (n : Z) : option bytes :=
  match src with
  | [] => Some []
  | b :: _ =>
      if bool_decide (src = replicate (length src) b) && (blen src <? 2 ^ 32)
      then Some (b :: le_encode 4 (blen src)) else Some []
  end.

Definition uncompress (src : bytes) (n : Z) : option bytes :=
  match src with
  | [] => None
  | b :: l => if le_decode l <=? n then Some (replicate (Z.to_nat (le_decode l)) b) else None
  end.

#[export] Instance lz4 : LZ4 :=
  {| CompressBlockBound := fun n => n; CompressBlock := compress; UncompressBlock := uncompress |}.

Lemma compress_inv src n out :
  compress src n = Some out -> out <> [] ->
  exists b, out = b :: le_encode 4 (blen src) /\ src = replicate (length src) b /\
    le_decode (le_encode 4 (blen src)) = blen src.
Proof.
  unfold compress. destruct src as [|b src]; [congruence|].
  case_match; [|congruence]. to_prop. intros [= <-] _. exists b. split; [done|]. split; [done|].
  apply (le_roundtrip_u 4 _ 32); [done|]. unfold is_uint, blen in *. lia.
Qed.

#[export] Instance laws : LZ4Laws.
Proof.
  split; simpl; intros src n out n' HC Hne Hn;
    destruct (compress_inv src n out HC Hne) as (b & -> & Hs & Hd);
    unfold uncompress; rewrite Hd; arith_cases; [|done].
  f_equal. rewrite Hs at 2. f_equal. unfold blen. lia.
Qed.
End RunLength.
