(* ===== verification/Lru.v ===== *)
(** The per-shard LRU (shardLRU, touchLRU, removeFromLRU and the head of the
    eviction loop of src/internal/mem_storage/mem_storage.go).

    [container/list] is a list of elements with an identity; [keyMap] maps a
    key to its element.  The module [Recency] is the abstract specification, a
    duplicate-free list of keys, most recent first; the refinement lemmas show
    that the element list with its map implements it. *)

From Stdlib Require Import ZArith Lia.
From Stdlib Require Import Strings.String.
From S2P Require Import Prelude.

(** * container/list *)

Abbreviation element := N.
Abbreviation glist := (list (element * string)).

Definition list_Remove (l : glist) (e : element) : glist :=
  filter (fun x => x.1 <> e) l.

Definition list_find (l : glist) (e : element) : option (element * string) :=
  head (filter (fun x => x.1 = e) l).

Definition list_MoveToFront (l : glist) (e : element) : glist :=
  match list_find l e with
  | None => l
  | Some x => x :: list_Remove l e
  end.

Definition list_Back (l : glist) : option (element * string) := last l.

(** * shardLRU *)

Record shardLRU := mkLRU {
  lru_list : glist;
  lru_keyMap : gmap string element;
  lru_fresh : element;  (** the next element to be allocated *)
}.

Definition newLRU : shardLRU := mkLRU [] ∅ 0%N.

Definition touchLRU (lru : shardLRU) (key : string) : shardLRU :=
  match lru_keyMap lru !! key with
  | Some elem => mkLRU (list_MoveToFront (lru_list lru) elem) (lru_keyMap lru) (lru_fresh lru)
  | None =>
      let elem := lru_fresh lru in
      mkLRU ((elem, key) :: lru_list lru) (<[key := elem]> (lru_keyMap lru)) (N.succ elem)
  end.

Definition removeFromLRU (lru : shardLRU) (key : string) : shardLRU :=
  match lru_keyMap lru !! key with
  | Some elem => mkLRU (list_Remove (lru_list lru) elem) (delete key (lru_keyMap lru)) (lru_fresh lru)
  | None => lru
  end.

(** The oldest key, removed from both structures: the first lines of the
    eviction loop. *)
Definition popOldest (lru : shardLRU) : option (string * shardLRU) :=
  match list_Back (lru_list lru) with
  | None => None
  | Some (elem, key) =>
      Some (key, mkLRU (list_Remove (lru_list lru) elem) (delete key (lru_keyMap lru)) (lru_fresh lru))
  end.

(** * Specification *)

Module Recency.
Definition touch (k : string) (ks : list string) : list string :=
  k :: filter (fun x => x <> k) ks.
Definition remove (k : string) (ks : list string) : list string :=
  filter (fun x => x <> k) ks.
Definition pop (ks : list string) : option (string * list string) :=
  match last ks with
  | None => None
  | Some k => Some (k, remove k ks)
  end.
End Recency.

Definition lru_keys (lru : shardLRU) : list string := (lru_list lru).*2.

Record lru_wf (lru : shardLRU) : Prop := {
  wf_elems : NoDup (lru_list lru).*1;
  wf_keys : NoDup (lru_keys lru);
  wf_map k e : lru_keyMap lru !! k = Some e <-> (e, k) ∈ lru_list lru;
  wf_fresh e k : (e, k) ∈ lru_list lru -> (e < lru_fresh lru)%N;
}.

(** * Lemmas *)

Lemma NoDup_fst_unique (l : glist) e k k' :
  NoDup l.*1 -> (e, k) ∈ l -> (e, k') ∈ l -> k = k'.
Proof.
  induction l as [|[e0 k0] l IH]; simpl; [intros _ []%elem_of_nil|].
  intros [Hn Hd]%NoDup_cons H1 H2.
  apply elem_of_cons in H1. apply elem_of_cons in H2.
  destruct H1 as [[= -> ->]|H1], H2 as [E|H2]; simplify_eq; try done.
  - destruct Hn. apply list_elem_of_fmap. by exists (e0, k').
  - destruct Hn. apply list_elem_of_fmap. by exists (e0, k).
  - eauto.
Qed.

Lemma NoDup_snd_unique (l : glist) e e' k :
  NoDup l.*2 -> (e, k) ∈ l -> (e', k) ∈ l -> e = e'.
Proof.
  induction l as [|[e0 k0] l IH]; simpl; [intros _ []%elem_of_nil|].
  intros [Hn Hd]%NoDup_cons H1 H2.
  apply elem_of_cons in H1. apply elem_of_cons in H2.
  destruct H1 as [[= -> ->]|H1], H2 as [E|H2]; simplify_eq; try done.
  - destruct Hn. apply list_elem_of_fmap. by exists (e', k0).
  - destruct Hn. apply list_elem_of_fmap. by exists (e, k0).
  - eauto.
Qed.

Lemma filter_fmap_agree {A B} (f : A -> B) (P : A -> Prop) (Q : B -> Prop)
    `{forall x, Decision (P x), forall x, Decision (Q x)} (l : list A) :
  (forall x, x ∈ l -> P x <-> Q (f x)) -> f <$> filter P l = filter Q (f <$> l).
Proof.
  induction l as [|x l IH]; intros HPQ; [done|]. rewrite fmap_cons, !filter_cons.
  destruct (HPQ x) as [??]; [by left|]. assert (f <$> filter P l = filter Q (f <$> l)) as E.
  { apply IH. intros y Hy. apply HPQ. by right. }
  case_decide; case_decide; rewrite ?fmap_cons, ?E; first [done | exfalso; tauto].
Qed.

(** In a well-formed list, removing the element of a key removes the key. *)
Lemma list_Remove_keys (l : glist) e k :
  NoDup l.*1 -> NoDup l.*2 -> (e, k) ∈ l -> (list_Remove l e).*2 = Recency.remove k l.*2.
Proof.
  intros H1 H2 Hin. apply filter_fmap_agree. intros [e' k'] Hin'. simpl.
  split; intros Hne ->; apply Hne; eauto using NoDup_fst_unique, NoDup_snd_unique.
Qed.

Lemma list_find_Some (l : glist) e k :
  NoDup l.*1 -> (e, k) ∈ l -> list_find l e = Some (e, k).
Proof.
  intros Hd Hin. unfold list_find. destruct (head _) as [[e' k']|] eqn:E.
  - apply head_Some_elem_of, list_elem_of_filter in E as [E Hin']. simpl in E. subst.
    f_equal. f_equal. by apply (NoDup_fst_unique l e).
  - apply head_None in E. by destruct (filter_nil_not_elem_of _ _ (e, k) E).
Qed.

Lemma sublist_fmap_NoDup {A B} (f : A -> B) (P : A -> Prop) `{forall x, Decision (P x)} (l : list A) :
  NoDup (f <$> l) -> NoDup (f <$> filter P l).
Proof. intros Hd. eapply sublist_NoDup; [done|]. apply fmap_sublist, sublist_filter. Qed.

Lemma touch_NoDup k ks : NoDup ks -> NoDup (Recency.touch k ks).
Proof.
  intros. apply NoDup_cons. split; [|by apply NoDup_filter].
  by intros [? _]%list_elem_of_filter.
Qed.

Lemma remove_absent k ks : k ∉ ks -> Recency.remove k ks = ks.
Proof.
  unfold Recency.remove. induction ks as [|x l IH]; intros Hk; [done|].
  apply not_elem_of_cons in Hk as [??]. rewrite filter_cons_True by done. by rewrite IH.
Qed.

Lemma newLRU_wf : lru_wf newLRU.
Proof.
  split; simpl; [constructor|constructor|intros k e; rewrite lookup_empty; set_solver|set_solver].
Qed.

(** Dropping the element of a key keeps the structure well formed. *)
Lemma remove_wf lru e k :
  lru_wf lru -> (e, k) ∈ lru_list lru ->
  lru_wf (mkLRU (list_Remove (lru_list lru) e) (delete k (lru_keyMap lru)) (lru_fresh lru)).
Proof.
  intros [H1 H2 H3 H4] Hin. split; simpl.
  - by apply sublist_fmap_NoDup.
  - by apply sublist_fmap_NoDup.
  - intros k' e'. unfold list_Remove. rewrite list_elem_of_filter. simpl.
    rewrite lookup_delete_Some, H3. split; intros [Hne Hk]; split; try done; intros ->.
    + apply Hne. by apply (NoDup_fst_unique (lru_list lru) e).
    + apply Hne. by apply (NoDup_snd_unique (lru_list lru) e' e k').
  - intros e' k' [_ ?]%list_elem_of_filter. by apply (H4 e' k').
Qed.

Lemma touchLRU_spec lru k :
  lru_wf lru -> lru_wf (touchLRU lru k) /\ lru_keys (touchLRU lru k) = Recency.touch k (lru_keys lru).
Proof.
  intros Hwf. pose proof Hwf as [H1 H2 H3 H4]. unfold touchLRU.
  destruct (lru_keyMap lru !! k) as [e|] eqn:E.
  - apply H3 in E. unfold list_MoveToFront. rewrite (list_find_Some _ _ _ H1 E).
    pose proof (list_Remove_keys _ _ _ H1 H2 E) as EK. split.
    + destruct (remove_wf lru e k Hwf E) as [R1 R2 R3 R4]. unfold lru_keys in *. simpl in *.
      split; simpl.
      * apply NoDup_cons. split; [|done]. intros (x & Hx & Hin)%list_elem_of_fmap.
        apply list_elem_of_filter in Hin as [Hne _]. by destruct x.
      * unfold lru_keys. cbn [lru_list]. rewrite fmap_cons, EK. by apply touch_NoDup.
      * intros k' e'. rewrite H3, elem_of_cons. unfold list_Remove. rewrite list_elem_of_filter. simpl.
        split; [|by intros [[= -> ->]|[_ ?]]].
        intros Hin. destruct (decide (e' = e)) as [->|]; [|by right].
        left. f_equal. by apply (NoDup_fst_unique (lru_list lru) e).
      * intros e' k' [[= -> ->]|[_ ?]%list_elem_of_filter]%elem_of_cons; eauto.
    + unfold lru_keys in *. cbn [lru_list]. by rewrite fmap_cons, EK.
  - assert (Hk : k ∉ lru_keys lru).
    { intros ([e k'] & -> & Hin)%list_elem_of_fmap. apply H3 in Hin. simpl in *. congruence. }
    split.
    + split; simpl.
      * apply NoDup_cons. split; [|done]. intros ([e k'] & Heq & Hin)%list_elem_of_fmap.
        simpl in Heq. apply H4 in Hin. lia.
      * unfold lru_keys. simpl. by apply NoDup_cons.
      * intros k' e'. rewrite elem_of_cons, lookup_insert_Some, H3. split.
        -- intros [[-> <-]|[_ ?]]; [by left|by right].
        -- intros [[= -> ->]|Hin]; [by left|]. right. split; [|done]. intros ->.
           apply Hk, list_elem_of_fmap. by exists (e', k').
      * intros e' k' [[= -> ->]|Hin]%elem_of_cons; [lia|]. apply H4 in Hin. lia.
    + unfold Recency.touch. fold (Recency.remove k (lru_keys lru)). by rewrite remove_absent.
Qed.

Lemma removeFromLRU_spec lru k :
  lru_wf lru ->
  lru_wf (removeFromLRU lru k) /\ lru_keys (removeFromLRU lru k) = Recency.remove k (lru_keys lru).
Proof.
  intros Hwf. pose proof Hwf as [H1 H2 H3 H4]. unfold removeFromLRU.
  destruct (lru_keyMap lru !! k) as [e|] eqn:E.
  - apply H3 in E. split; [by apply remove_wf|]. by apply list_Remove_keys.
  - split; [done|]. symmetry. apply remove_absent.
    intros ([e k'] & -> & Hin)%list_elem_of_fmap. apply H3 in Hin. simpl in *. congruence.
Qed.

Lemma popOldest_spec lru :
  lru_wf lru ->
  match popOldest lru with
  | None => lru_keys lru = []
  | Some (k, lru') =>
      lru_wf lru' /\ last (lru_keys lru) = Some k /\ lru_keys lru' = Recency.remove k (lru_keys lru)
  end.
Proof.
  intros Hwf. pose proof Hwf as [H1 H2 H3 H4]. unfold popOldest, list_Back, lru_keys in *.
  destruct (last (lru_list lru)) as [[e k]|] eqn:E.
  - assert (Hin : (e, k) ∈ lru_list lru) by by apply last_Some_elem_of.
    split; [by apply remove_wf|]. rewrite fmap_last, E. split; [done|]. by apply list_Remove_keys.
  - apply last_None in E. by rewrite E.
Qed.

#[export] Hint Resolve newLRU_wf : gridkv.

(** The element list with its key map implements the recency list: on a
    well-formed LRU, touching a key moves it to the front, removing a key
    drops exactly it, and the eviction loop takes the least recently used
    key; every operation keeps the two structures consistent. *)
Theorem lru_refines_recency lru k :
  lru_wf lru ->
  (lru_wf (touchLRU lru k) /\ lru_keys (touchLRU lru k) = Recency.touch k (lru_keys lru)) /\
  (lru_wf (removeFromLRU lru k) /\
   lru_keys (removeFromLRU lru k) = Recency.remove k (lru_keys lru)) /\
  (option_map (fun p => (p.1, lru_keys p.2)) (popOldest lru) = Recency.pop (lru_keys lru) /\
   forall p, popOldest lru = Some p -> lru_wf p.2).
Proof.
  intros Hwf. split; [by apply touchLRU_spec|]. split; [by apply removeFromLRU_spec|].
  pose proof (popOldest_spec lru Hwf) as P. unfold Recency.pop.
  destruct (popOldest lru) as [[k' lru']|]; simpl.
  - destruct P as (Hw & -> & ->). split; [done|]. by intros p [= <-].
  - rewrite P. done.
Qed.

Lemma lru_refines_recency_witness :
  lru_keys (touchLRU (touchLRU (touchLRU newLRU "a") "b") "a") = ["a"; "b"]%string.
Proof.
  destruct (lru_refines_recency (touchLRU (touchLRU newLRU "a") "b") "a") as ((_ & ->) & _);
    [|done].
  do 2 apply touchLRU_spec. apply newLRU_wf.
Defined.
