(* ===== verification/SyncBuffer.v ===== *)
(** The per-shard ring buffer of pending replication operations
    (SyncOperation, addToSyncBuffer and the collection loop of GetSyncBuffer in
    src/internal/mem_storage/mem_storage.go).

    The abstract specification is a bounded queue that forgets its oldest
    entry when full ([BoundedQueue]); [pending] is the abstraction function. *)

From Stdlib Require Import ZArith Lia.
From Stdlib Require Import Strings.String.
From S2P Require Import Prelude StoredItem.

Definition OpSet : Z := 0.
Definition OpDelete : Z := 1.

Record SyncOperation := mkOp {
  so_Key : string;
  so_OpType : Z;
  so_Item : option StoredItem;
}.

#[export] Instance SyncOperation_eq_dec : EqDecision SyncOperation.
Proof. solve_decision. Defined.

Record syncRing := mkRing {
  syncBuffer : list (option SyncOperation);
  syncHead : Z;
  syncTail : Z;
  syncCapacity : Z;
  syncMask : Z;
}.

Definition newRing (capacity : Z) : syncRing :=
  mkRing (replicate (Z.to_nat capacity) None) 0 0 capacity (uint 64 (capacity - 1)).

Definition slot (mask i : Z) : nat := Z.to_nat (Z.land i mask).

(** [for i := tail; i < newTail; i++ { syncBuffer[i&mask].op = nil }] *)
Fixpoint clear_slots (buf : list (option SyncOperation)) (mask i : Z) (n : nat)
    : list (option SyncOperation) :=
  match n with
  | O => buf
  | S n => clear_slots (<[slot mask i := None]> buf) mask (i + 1) n
  end.

Definition pushRing (r : syncRing) (op : SyncOperation) : syncRing :=
  let head := syncHead r in
  let tail := syncTail r in
  let r1 :=
    if syncCapacity r <=? uint 64 (head - tail) then
      let newTail := uint 64 (head - syncCapacity r + 1) in
      mkRing (clear_slots (syncBuffer r) (syncMask r) tail (Z.to_nat (newTail - tail)))
             head newTail (syncCapacity r) (syncMask r)
    else r in
  mkRing (<[slot (syncMask r1) head := Some op]> (syncBuffer r1))
         (addu64 head 1) (syncTail r1) (syncCapacity r1) (syncMask r1).

(** The operation that is queued does not carry the value. *)
Definition addToSyncBuffer (r : syncRing) (key : string) (opType : Z)
    (item : option StoredItem) : syncRing :=
  let syncItem :=
    match item with
    | None => None
    | Some i => Some (mkItem (si_Version i) (si_ExpireAt i) None key)
    end in
  pushRing r (mkOp key opType syncItem).

(** The collection loop: [fill] is what the storage does to an operation
    before it is handed out, threading its own state. *)
Section Drain.
Context {S : Type} (fill : S -> SyncOperation -> S * SyncOperation).

Fixpoint drain_loop (buf : list (option SyncOperation)) (mask i : Z) (n : nat) (s : S)
    : list (option SyncOperation) * S * list SyncOperation :=
  match n with
  | O => (buf, s, [])
  | Datatypes.S n =>
      match buf !! slot mask i with
      | Some (Some op) =>
          let '(s, op) := fill s op in
          let '(buf, s, ops) := drain_loop (<[slot mask i := None]> buf) mask (i + 1) n s in
          (buf, s, op :: ops)
      | _ => drain_loop buf mask (i + 1) n s
      end
  end.

Definition drainRing (r : syncRing) (s : S) : syncRing * S * list SyncOperation :=
  if syncHead r =? syncTail r then (r, s, [])
  else
    let '(buf, s, ops) :=
      drain_loop (syncBuffer r) (syncMask r) (syncTail r)
                 (Z.to_nat (syncHead r - syncTail r)) s in
    (mkRing buf (syncHead r) (syncHead r) (syncCapacity r) (syncMask r), s, ops).
End Drain.

(** [Clear] drops what is pending. *)
Definition clearRing (r : syncRing) : syncRing :=
  mkRing (syncBuffer r) (syncHead r) (syncHead r) (syncCapacity r) (syncMask r).

(** * Specification *)

Module BoundedQueue.
Definition push {A} (cap : nat) (q : list A) (x : A) : list A :=
  if (length q <? cap)%nat then q ++ [x] else tail q ++ [x].
End BoundedQueue.

Fixpoint window (buf : list (option SyncOperation)) (mask i : Z) (n : nat) : list SyncOperation :=
  match n with
  | O => []
  | S n =>
      match buf !! slot mask i with
      | Some (Some op) => op :: window buf mask (i + 1) n
      | _ => window buf mask (i + 1) n
      end
  end.

Definition pending (r : syncRing) : list SyncOperation :=
  window (syncBuffer r) (syncMask r) (syncTail r) (Z.to_nat (syncHead r - syncTail r)).

Record ring_wf (r : syncRing) : Prop := {
  rw_cap : exists k, 0 <= k < 63 /\ syncCapacity r = 2 ^ k /\ syncMask r = 2 ^ k - 1;
  rw_len : length (syncBuffer r) = Z.to_nat (syncCapacity r);
  rw_tail : 0 <= syncTail r <= syncHead r;
  rw_head : syncHead r < 2 ^ 64;
  rw_size : syncHead r - syncTail r <= syncCapacity r;
  rw_full i : syncTail r <= i < syncHead r ->
    exists op, syncBuffer r !! slot (syncMask r) i = Some (Some op);
}.

(** * Lemmas *)

Lemma slot_mod k i : 0 <= k -> slot (2 ^ k - 1) i = Z.to_nat (i mod 2 ^ k).
Proof.
  intros. unfold slot. f_equal. rewrite <- Z.land_ones by done. f_equal.
  rewrite Z.ones_equiv. lia.
Qed.

Lemma slot_lt k i : 0 <= k -> (slot (2 ^ k - 1) i < Z.to_nat (2 ^ k))%nat.
Proof.
  intros. rewrite slot_mod by done. pose proof (pow2_pos k).
  pose proof (Z.mod_pos_bound i (2 ^ k)). lia.
Qed.

Lemma mod_shift_eq m i : 0 < m -> (i + m) mod m = i mod m.
Proof. intros. rewrite <- (Z.mod_add i 1 m) by lia. f_equal; lia. Qed.

(** Two positions less than a capacity apart use different slots. *)
Lemma slot_ne k i j : 0 <= k -> i < j -> j - i < 2 ^ k -> slot (2 ^ k - 1) i <> slot (2 ^ k - 1) j.
Proof.
  intros Hk Hij Hd E. rewrite !slot_mod in E by done. pose proof (pow2_pos k Hk) as Hp.
  pose proof (Z.mod_pos_bound i (2 ^ k) Hp). pose proof (Z.mod_pos_bound j (2 ^ k) Hp).
  assert (E' : i mod 2 ^ k = j mod 2 ^ k) by lia.
  assert ((j - i) mod 2 ^ k = 0).
  { rewrite Zminus_mod, E', Z.sub_diag. by rewrite Z.mod_0_l by lia. }
  rewrite Z.mod_small in *; lia.
Qed.

Lemma slot_wrap k i : 0 <= k -> slot (2 ^ k - 1) (i + 2 ^ k) = slot (2 ^ k - 1) i.
Proof. intros. rewrite !slot_mod, mod_shift_eq; [done|by apply pow2_pos|done..]. Qed.

Lemma window_insert_ne buf mask i n p x :
  (forall j, i <= j < i + Z.of_nat n -> slot mask j <> p) ->
  window (<[p := x]> buf) mask i n = window buf mask i n.
Proof.
  revert i. induction n as [|n IH]; intros i Hp; [done|]. cbn [window].
  rewrite list_lookup_insert_ne by (symmetry; apply Hp; lia).
  rewrite IH; [done|]. intros j Hj. apply Hp. lia.
Qed.

Lemma window_snoc buf mask i n op :
  buf !! slot mask (i + Z.of_nat n) = Some (Some op) ->
  window buf mask i (S n) = window buf mask i n ++ [op].
Proof.
  revert i. induction n as [|n IH]; intros i Hop.
  - cbn [window app]. rewrite Z.add_0_r in Hop. by rewrite Hop.
  - cbn [window] in IH |- *.
    assert (Hop' : buf !! slot mask (i + 1 + Z.of_nat n) = Some (Some op)).
    { rewrite <- Hop. f_equal. f_equal. lia. }
    specialize (IH (i + 1) Hop').
    destruct (buf !! slot mask i) as [[o|]|]; cbn [app]; by rewrite IH.
Qed.

Lemma window_length buf mask i n :
  (forall j, i <= j < i + Z.of_nat n -> exists op, buf !! slot mask j = Some (Some op)) ->
  length (window buf mask i n) = n.
Proof.
  revert i. induction n as [|n IH]; intros i Hf; [done|]. cbn [window].
  destruct (Hf i) as [op ->]; [lia|]. simpl. f_equal. apply IH. intros j Hj. apply Hf. lia.
Qed.

Lemma pending_length r : ring_wf r -> Z.of_nat (length (pending r)) = syncHead r - syncTail r.
Proof.
  intros [_ _ Ht _ _ Hf]. unfold pending. rewrite window_length; [lia|].
  intros j Hj. apply Hf. lia.
Qed.

Lemma newRing_wf k : 0 <= k < 63 -> ring_wf (newRing (2 ^ k)) /\ pending (newRing (2 ^ k)) = [].
Proof.
  intros Hk. split; [|done]. pose proof (pow2_pos k).
  assert (2 ^ k < 2 ^ 63) by (apply Z.pow_lt_mono_r; lia).
  split; simpl; try lia.
  - exists k. rewrite uint_id by (unfold is_uint; lia). split; [done|]. split; lia.
  - by rewrite length_replicate.
Qed.

(** The wrapping subtraction and increments of the source, on a well-formed
    ring that has not yet counted to 2^64. *)
Lemma push_cases r op :
  ring_wf r -> syncHead r + 1 < 2 ^ 64 ->
  let full := syncCapacity r <=? syncHead r - syncTail r in
  pushRing r op =
  mkRing (<[slot (syncMask r) (syncHead r) := Some op]>
            (if full then <[slot (syncMask r) (syncTail r) := None]> (syncBuffer r) else syncBuffer r))
         (syncHead r + 1) (if full then syncTail r + 1 else syncTail r)
         (syncCapacity r) (syncMask r).
Proof.
  intros [(k & Hk & Hc & Hm) _ Ht Hh Hs _] Hb. cbv zeta. unfold pushRing. cbv zeta.
  pose proof (pow2_pos k) as Hp. assert (2 ^ k < 2 ^ 63) by (apply Z.pow_lt_mono_r; lia).
  rewrite (uint_id 64 (syncHead r - syncTail r)) by (unfold is_uint; lia).
  unfold addu64. rewrite (uint_id 64 (syncHead r + 1)) by (unfold is_uint; lia).
  destruct (Z.leb_spec (syncCapacity r) (syncHead r - syncTail r)) as [Hf|Hf]; simpl; [|done].
  rewrite (uint_id 64) by (unfold is_uint; lia).
  assert (syncHead r - syncCapacity r + 1 = syncTail r + 1) as -> by lia.
  replace (Z.to_nat (syncTail r + 1 - syncTail r)) with 1%nat by lia. done.
Qed.

(** When the ring is full, the oldest entry occupies the slot that the new
    one is written to. *)
Lemma push_full_slot r :
  ring_wf r -> syncCapacity r <= syncHead r - syncTail r ->
  slot (syncMask r) (syncHead r) = slot (syncMask r) (syncTail r).
Proof.
  intros [(k & Hk & Hc & Hm) _ Ht Hh Hs _] Hf. rewrite Hm.
  replace (syncHead r) with (syncTail r + 2 ^ k) by lia. apply slot_wrap; lia.
Qed.

(** Writing the head slot of a ring whose window starts at [t]. *)
Lemma write_head r t op :
  ring_wf r -> syncHead r + 1 < 2 ^ 64 ->
  syncTail r <= t <= syncHead r -> syncHead r - t < syncCapacity r ->
  let r' := mkRing (<[slot (syncMask r) (syncHead r) := Some op]> (syncBuffer r))
                   (syncHead r + 1) t (syncCapacity r) (syncMask r) in
  ring_wf r' /\
  pending r' = window (syncBuffer r) (syncMask r) t (Z.to_nat (syncHead r - t)) ++ [op].
Proof.
  intros [(k & Hk & Hc & Hm) Hl Ht Hh Hs Hf] Hb Htt Hd. cbv zeta.
  assert (Hlt : (slot (syncMask r) (syncHead r) < length (syncBuffer r))%nat).
  { rewrite Hl, Hm, Hc. apply slot_lt; lia. }
  assert (Hne : forall i, t <= i < syncHead r ->
            slot (syncMask r) i <> slot (syncMask r) (syncHead r)).
  { intros i Hi. rewrite Hm. apply slot_ne; lia. }
  assert (Hop : <[slot (syncMask r) (syncHead r) := Some op]> (syncBuffer r)
                  !! slot (syncMask r) (syncHead r) = Some (Some op))
    by by apply list_lookup_insert_eq.
  split.
  - split; simpl; [by exists k|by rewrite length_insert|lia|lia|lia|].
    intros i Hi. destruct (Z.eqb_spec i (syncHead r)) as [->|]; [by eexists|].
    rewrite list_lookup_insert_ne by (apply not_eq_sym, Hne; lia). apply Hf. lia.
  - unfold pending. simpl.
    replace (Z.to_nat (syncHead r + 1 - t)) with (S (Z.to_nat (syncHead r - t))) by lia.
    rewrite (window_snoc _ _ _ _ op).
    2:{ rewrite <- Hop. f_equal. f_equal. lia. }
    f_equal. apply window_insert_ne. intros j Hj. apply Hne. lia.
Qed.

Lemma pending_tail r :
  ring_wf r -> syncTail r < syncHead r ->
  tail (pending r) =
  window (syncBuffer r) (syncMask r) (syncTail r + 1) (Z.to_nat (syncHead r - (syncTail r + 1))).
Proof.
  intros [_ _ _ _ _ Hf] Hlt. unfold pending.
  replace (Z.to_nat (syncHead r - syncTail r))
    with (S (Z.to_nat (syncHead r - (syncTail r + 1)))) by lia.
  cbn [window]. destruct (Hf (syncTail r)) as [o ->]; [lia|]. done.
Qed.

Lemma push_spec r op :
  ring_wf r -> syncHead r + 1 < 2 ^ 64 ->
  ring_wf (pushRing r op) /\
  pending (pushRing r op) = BoundedQueue.push (Z.to_nat (syncCapacity r)) (pending r) op.
Proof.
  intros Hwf Hb. pose proof (pending_length r Hwf) as Hpl.
  pose proof Hwf as [(k & Hk & Hc & _) _ Ht _ Hs _]. pose proof (pow2_pos k).
  rewrite push_cases by done. unfold BoundedQueue.push.
  destruct (Z.leb_spec (syncCapacity r) (syncHead r - syncTail r)) as [Hfull|Hroom],
    (Nat.ltb_spec (length (pending r)) (Z.to_nat (syncCapacity r))); try lia.
  - rewrite <- (push_full_slot r Hwf Hfull), list_insert_insert_eq, pending_tail by (done || lia).
    apply write_head; done || lia.
  - apply write_head; done || lia.
Qed.

(** What the storage's [fill] makes of a queue of operations. *)
Fixpoint fill_all {S} (fill : S -> SyncOperation -> S * SyncOperation) (s : S)
    (ops : list SyncOperation) : list SyncOperation :=
  match ops with
  | [] => []
  | op :: ops => let '(s, op) := fill s op in op :: fill_all fill s ops
  end.

Lemma drain_loop_spec {S} (fill : S -> SyncOperation -> S * SyncOperation) buf mask i n s k :
  mask = 2 ^ k - 1 -> 0 <= k -> Z.of_nat n <= 2 ^ k ->
  let '(buf', _, ops) := drain_loop fill buf mask i n s in
  length buf' = length buf /\
  ops = fill_all fill s (window buf mask i n).
Proof.
  intros Hm Hk. revert buf i s. induction n as [|n IH]; intros buf i s Hn; [done|].
  cbn [drain_loop window]. destruct (buf !! slot mask i) as [[op|]|] eqn:E.
  - destruct (fill s op) as [s' op'] eqn:F.
    specialize (IH (<[slot mask i := None]> buf) (i + 1) s' ltac:(lia)).
    destruct (drain_loop fill _ mask (i + 1) n s') as [[buf' s''] ops].
    destruct IH as [IH1 IH2]. split; [by rewrite IH1, length_insert|].
    cbn [fill_all]. rewrite IH2, F. f_equal. rewrite window_insert_ne; [done|].
    intros j Hj. rewrite Hm. apply not_eq_sym, slot_ne; lia.
  - apply IH. lia.
  - apply IH. lia.
Qed.

Lemma drain_spec {S} (fill : S -> SyncOperation -> S * SyncOperation) r s :
  ring_wf r ->
  let '(r', _, ops) := drainRing fill r s in
  ring_wf r' /\ pending r' = [] /\ ops = fill_all fill s (pending r).
Proof.
  intros Hwf. pose proof Hwf as [(k & Hk & Hc & Hm) Hl Ht Hh Hs Hf]. unfold drainRing.
  destruct (Z.eqb_spec (syncHead r) (syncTail r)) as [E|E].
  { unfold pending. rewrite E, Z.sub_diag. done. }
  pose proof (drain_loop_spec fill (syncBuffer r) (syncMask r) (syncTail r)
    (Z.to_nat (syncHead r - syncTail r)) s k Hm ltac:(lia) ltac:(lia)) as HD.
  destruct (drain_loop fill _ _ _ _ s) as [[buf s'] ops]. destruct HD as [HD1 HD2].
  split; [|split].
  - split; simpl; [by exists k|by rewrite HD1|lia|lia|rewrite Hc; pose proof (pow2_pos k); lia|].
    intros i Hi. lia.
  - unfold pending. simpl. by rewrite Z.sub_diag.
  - done.
Qed.

Lemma clearRing_spec r : ring_wf r -> ring_wf (clearRing r) /\ pending (clearRing r) = [].
Proof.
  intros [(k & Hk & Hc & Hm) Hl Ht Hh Hs Hf]. split.
  - split; simpl; [by exists k|done|lia|done|rewrite Hc; pose proof (pow2_pos k); lia|]. intros; lia.
  - unfold pending. simpl. by rewrite Z.sub_diag.
Qed.

(** The ring buffer with its wrapping head and tail implements the
    bounded queue: queuing an operation appends it, dropping the oldest one
    exactly when the ring is full, and collecting returns everything pending,
    oldest first, and leaves the ring empty; both keep it well formed. *)
Theorem ring_refines_queue {S} (fill : S -> SyncOperation -> S * SyncOperation) r key t item s :
  ring_wf r -> syncHead r + 1 < 2 ^ 64 ->
  let op := mkOp key t (option_map (fun i => mkItem (si_Version i) (si_ExpireAt i) None key) item) in
  (ring_wf (addToSyncBuffer r key t item) /\
   pending (addToSyncBuffer r key t item) =
     BoundedQueue.push (Z.to_nat (syncCapacity r)) (pending r) op) /\
  let '(r', _, ops) := drainRing fill r s in
  ring_wf r' /\ pending r' = [] /\ ops = fill_all fill s (pending r).
Proof.
  intros Hwf Hb. split; [|by apply drain_spec].
  unfold addToSyncBuffer. destruct item; by apply push_spec.
Qed.

Lemma ring_refines_queue_witness :
  let r := addToSyncBuffer (addToSyncBuffer (newRing (2 ^ 1)) "a" OpSet None) "b" OpSet None in
  pending (addToSyncBuffer r "c" OpDelete None) =
  [mkOp "b" OpSet None; mkOp "c" OpDelete None].
Proof.
  intros r.
  assert (Hr : ring_wf r).
  { do 2 (apply (push_spec (_ : syncRing)); [|done]). apply newRing_wf. lia. }
  destruct (ring_refines_queue (S := unit) (fun s op => (s, op)) r "c" OpDelete None tt Hr)
    as ((_ & ->) & _); done.
Defined.
