(* ===== verification/Pow2.v ===== *)
(** Rounding up to a power of two (nextPowerOf2 of
    src/internal/mem_storage/mem_storage.go), which sizes the shards and the
    replication rings. *)

From Stdlib Require Import ZArith Lia.
From S2P Require Import Prelude.

Definition smear (n k : Z) : Z := Z.lor n (Z.shiftr n k).

Definition nextPowerOf2 (n : Z) : Z :=
  if n =? 0 then 1
  else
    let n := uint 64 (n - 1) in
    let n := smear n 1 in
    let n := smear n 2 in
    let n := smear n 4 in
    let n := smear n 8 in
    let n := smear n 16 in
    let n := smear n 32 in
    uint 64 (n + 1).

(** The top [w] bits of [m], counted from its highest one, are set. *)
Definition top_set (L w m : Z) : Prop :=
  0 <= m < 2 ^ (L + 1) /\ forall i, 0 <= i -> L - w < i <= L -> Z.testbit m i = true.

Lemma testbit_above m L i : 0 <= m < 2 ^ (L + 1) -> 0 <= L -> L < i -> Z.testbit m i = false.
Proof.
  intros Hm HL Hi. destruct (decide (m = 0)) as [->|]; [apply Z.bits_0|].
  apply Z.bits_above_log2; [lia|]. apply Z.log2_lt_pow2; [lia|].
  eapply Z.lt_le_trans; [apply Hm|]. apply Z.pow_le_mono_r; lia.
Qed.

Lemma below_pow2 m n :
  0 <= m -> 0 <= n -> (forall i, n <= i -> Z.testbit m i = false) -> m < 2 ^ n.
Proof.
  intros Hm Hn Hb. destruct (decide (m = 0)) as [->|]; [by apply pow2_pos|].
  apply Z.log2_lt_pow2; [lia|]. destruct (Z.lt_ge_cases (Z.log2 m) n); [done|].
  pose proof (Hb (Z.log2 m) ltac:(done)). pose proof (Z.bit_log2 m ltac:(lia)). congruence.
Qed.

Lemma smear_top_set L w m : 0 <= L -> 0 < w -> top_set L w m -> top_set L (2 * w) (smear m w).
Proof.
  intros HL Hw [Hm Ht]. unfold smear. split.
  - split; [apply Z.lor_nonneg; split; [lia|apply Z.shiftr_nonneg; lia]|].
    apply below_pow2; [apply Z.lor_nonneg; split; [lia|apply Z.shiftr_nonneg; lia]|lia|].
    intros i Hi. rewrite Z.lor_spec, Z.shiftr_spec by lia.
    rewrite !(testbit_above m L) by lia. done.
  - intros i Hi Hr. rewrite Z.lor_spec, Z.shiftr_spec by lia.
    destruct (Z.lt_ge_cases (L - w) i).
    + by rewrite Ht by lia.
    + rewrite (Ht (i + w)) by lia. apply orb_true_r.
Qed.

Lemma top_set_full L w m : 0 <= L -> L < w -> top_set L w m -> m = 2 ^ (L + 1) - 1.
Proof.
  intros HL Hw [Hm Ht]. rewrite Z.sub_1_r, <- Z.ones_equiv. apply Z.bits_inj'. intros i Hi.
  destruct (Z.le_gt_cases i L).
  - rewrite Ht, Z.ones_spec_low by lia. done.
  - rewrite (testbit_above m L), Z.ones_spec_high by lia. done.
Qed.

Lemma smear_all L m :
  0 <= L -> L <= 63 -> 0 < m -> Z.log2 m = L ->
  smear (smear (smear (smear (smear (smear m 1) 2) 4) 8) 16) 32 = 2 ^ (L + 1) - 1.
Proof.
  intros HL HL63 Hm <-. pose proof (Z.log2_spec m Hm) as HL'. rewrite <- Z.add_1_r in HL'.
  assert (H1 : top_set (Z.log2 m) 1 m).
  { split; [lia|]. intros i Hi Hr. replace i with (Z.log2 m) by lia. by apply Z.bit_log2. }
  do 6 (apply smear_top_set in H1; [|lia..]). simpl Z.mul in H1.
  by apply top_set_full in H1; [|lia..].
Qed.

Lemma nextPowerOf2_pow2 n :
  0 < n <= 2 ^ 63 ->
  exists k, 0 <= k <= 63 /\ nextPowerOf2 n = 2 ^ k /\ n <= 2 ^ k /\
    forall j, 0 <= j -> n <= 2 ^ j -> k <= j.
Proof.
  intros Hn. unfold nextPowerOf2. rewrite (proj2 (Z.eqb_neq n 0)) by lia.
  rewrite (uint_id 64 (n - 1)) by (unfold is_uint; lia). cbv zeta.
  destruct (decide (n = 1)) as [->|Hne].
  { exists 0. repeat split; try (vm_compute; congruence); intros; lia. }
  set (m := n - 1). set (L := Z.log2 m). assert (Hm : 0 < m) by (subst m; lia).
  pose proof (Z.log2_nonneg m : 0 <= L) as HL0. pose proof (Z.log2_spec m Hm) as HL. fold L in HL.
  rewrite <- Z.add_1_r in HL.
  assert (HL62 : L <= 62).
  { assert (L < 63); [|lia]. apply Z.log2_lt_pow2; subst m; lia. }
  rewrite (smear_all L m), Z.sub_add by (done || lia).
  assert (Hp : 2 ^ (L + 1) <= 2 ^ 63) by (apply Z.pow_le_mono_r; lia).
  exists (L + 1). repeat split; [lia..| | |].
  - apply uint_id. pose proof (pow2_pos (L + 1)). unfold is_uint. lia.
  - subst m. lia.
  - intros j Hj Hnj. assert (2 ^ L < 2 ^ j) as HLj by (subst m; lia).
    apply Z.pow_lt_mono_r_iff in HLj; lia.
Qed.

(** [nextPowerOf2] on every uint64: 1 for 0, the least power of two that
    is at least its argument up to 2^63, and 0 above, where it wraps.  Shard
    counts and ring capacities are powers of two, so masking selects an
    existing shard or slot. *)
Theorem nextPowerOf2_least n :
  is_uint 64 n ->
  if n =? 0 then nextPowerOf2 n = 1
  else if n <=? 2 ^ 63 then
    exists k, 0 <= k <= 63 /\ nextPowerOf2 n = 2 ^ k /\ n <= 2 ^ k /\
      forall j, 0 <= j -> n <= 2 ^ j -> k <= j
  else nextPowerOf2 n = 0.
Proof.
  intros Hn. unfold is_uint in Hn. destruct (Z.eqb_spec n 0) as [->|Hne]; [done|].
  destruct (Z.leb_spec n (2 ^ 63)); [apply nextPowerOf2_pow2; lia|].
  unfold nextPowerOf2. rewrite (proj2 (Z.eqb_neq n 0)) by lia. cbv zeta.
  rewrite (uint_id 64 (n - 1)) by (unfold is_uint; lia).
  rewrite (smear_all 63); [done|lia..|].
  apply Z.log2_unique; simpl; lia.
Qed.

Lemma nextPowerOf2_least_witness :
  exists k, 0 <= k <= 63 /\ nextPowerOf2 300 = 2 ^ k /\ 300 <= 2 ^ k /\
    forall j, 0 <= j -> 300 <= 2 ^ j -> k <= j.
Proof. apply (nextPowerOf2_least 300). by split. Defined.

