(* ===== verification/MemStorage.v ===== *)
(** The sharded in-memory store (src/internal/mem_storage/mem_storage.go):
    configuration, shards, every operation that reads or changes the store.

    [MemStorage] is the struct; an operation takes the store, its arguments
    and, where the source calls time.Now, the clock, and returns the new store
    with its result.  The calls on one key run without interference here; the
    compare-and-swap loops under interleaving are the subject of StoreConc.
    A range over a sync.Map visits the keys in the order of [map_to_list]. *)

From Stdlib Require Import ZArith Lia.
From Stdlib Require Import Strings.String.
From S2P Require Import Prelude StoredItem Compress Lru SyncBuffer Pow2.

Inductive storageErr :=
  | ErrNotFound | ErrExpired | ErrVersionMismatch | ErrMemoryLimit | ErrEmptyKey
  | errNilItem | errRetry | errDecompress.

#[export] Instance storageErr_eq_dec : EqDecision storageErr.
Proof. solve_decision. Defined.

(** * Data *)

Record compressedItem := mkCItem {
  ci_Version : Z;
  ci_ExpireAt : Z;
  ci_Value : slice;
  ci_Compressed : bool;
  ci_OrigSize : Z;
}.

#[export] Instance compressedItem_eq_dec : EqDecision compressedItem.
Proof. solve_decision. Defined.

(** The four usage counters that a shard and the whole store keep. *)
Record usage := mkUsage {
  u_keys : Z;        (** keyCount, totalKeys *)
  u_bytes : Z;       (** byteCount, totalBytes *)
  u_compressed : Z;  (** compressedSize, compressedBytes *)
  u_original : Z;    (** originalSize, originalBytes *)
}.

Definition zeroUsage : usage := mkUsage 0 0 0 0.

Definition usage_add (u : usage) (dk db dc d_o : Z) : usage :=
  mkUsage (add64 (u_keys u) dk) (add64 (u_bytes u) db)
          (add64 (u_compressed u) dc) (add64 (u_original u) d_o).

Record storageShard := mkShard {
  sh_data : gmap string compressedItem;
  sh_lru : shardLRU;
  sh_ring : syncRing;
  sh_usage : usage;
}.

(** The fields that never change after [New]. *)
Record storageSettings := mkSettings {
  shardCount : Z;
  shardMask : Z;
  maxMemoryMB : Z;
  compressionEnabled : bool;
  compressionThresh : Z;
  evictThreshold : Z;
  evictTarget : Z;
  evictBatchSize : Z;
  asyncEviction : bool;
}.

Record accessStats := mkAccess {
  getCount : Z; setCount : Z; hitCount : Z; missCount : Z; evictCount : Z;
}.

Record MemStorage := mkStore {
  cfg : storageSettings;
  shards : list storageShard;
  total : usage;
  access : accessStats;
  evictShardIdx : Z;
}.

Definition shard_data (f : gmap string compressedItem -> gmap string compressedItem)
    (sh : storageShard) := mkShard (f (sh_data sh)) (sh_lru sh) (sh_ring sh) (sh_usage sh).
Definition shard_lru (f : shardLRU -> shardLRU) (sh : storageShard) :=
  mkShard (sh_data sh) (f (sh_lru sh)) (sh_ring sh) (sh_usage sh).
Definition shard_ring (f : syncRing -> syncRing) (sh : storageShard) :=
  mkShard (sh_data sh) (sh_lru sh) (f (sh_ring sh)) (sh_usage sh).
Definition shard_usage (f : usage -> usage) (sh : storageShard) :=
  mkShard (sh_data sh) (sh_lru sh) (sh_ring sh) (f (sh_usage sh)).

Definition on_shard (i : nat) (f : storageShard -> storageShard) (s : MemStorage) : MemStorage :=
  mkStore (cfg s) (alter f i (shards s)) (total s) (access s) (evictShardIdx s).
Definition on_total (f : usage -> usage) (s : MemStorage) : MemStorage :=
  mkStore (cfg s) (shards s) (f (total s)) (access s) (evictShardIdx s).
Definition on_access (f : accessStats -> accessStats) (s : MemStorage) : MemStorage :=
  mkStore (cfg s) (shards s) (total s) (f (access s)) (evictShardIdx s).

Definition count_get (a : accessStats) := mkAccess (add64 (getCount a) 1) (setCount a) (hitCount a) (missCount a) (evictCount a).
Definition count_set (a : accessStats) := mkAccess (getCount a) (add64 (setCount a) 1) (hitCount a) (missCount a) (evictCount a).
Definition count_hit (a : accessStats) := mkAccess (getCount a) (setCount a) (add64 (hitCount a) 1) (missCount a) (evictCount a).
Definition count_miss (a : accessStats) := mkAccess (getCount a) (setCount a) (hitCount a) (add64 (missCount a) 1) (evictCount a).
Definition count_evict (a : accessStats) := mkAccess (getCount a) (setCount a) (hitCount a) (missCount a) (add64 (evictCount a) 1).

(** * Construction *)

Record Config := mkConfig {
  cf_MaxMemoryMB : Z;
  cf_ShardCount : Z;
  cf_CompressionEnabled : bool;
  cf_CompressionThreshold : Z;
  cf_EvictThreshold : Z;
  cf_EvictTarget : Z;
  cf_EvictBatchSize : Z;
  cf_AsyncEviction : bool;
}.

Definition DefaultConfig : Config := mkConfig 512 0 true 64 85 70 10 true.

Definition emptyShard (syncCap : Z) : storageShard :=
  mkShard ∅ newLRU (newRing syncCap) zeroUsage.

Definition autoShardCount (gomaxprocs : Z) : Z :=
  let n := gomaxprocs * 8 in
  let n := if n <? 256 then 256 else n in
  if 4096 <? n then 4096 else n.

Definition clampBatch (n : Z) : Z :=
  let n := if n =? 0 then 10 else n in
  let n := if n <? 1 then 1 else n in
  if 100 <? n then 100 else n.

Definition New (config : Config) (gomaxprocs : Z) : MemStorage :=
  let shardCount := if cf_ShardCount config =? 0 then autoShardCount gomaxprocs
                    else cf_ShardCount config in
  let shardCount := sint 64 (nextPowerOf2 (uint 64 shardCount)) in
  let compressionThresh := if cf_CompressionThreshold config =? 0 then 64
                           else cf_CompressionThreshold config in
  let evictThreshold := if cf_EvictThreshold config =? 0 then 85 else cf_EvictThreshold config in
  let evictTarget := if cf_EvictTarget config =? 0 then 70 else cf_EvictTarget config in
  let evictBatchSize := clampBatch (cf_EvictBatchSize config) in
  let asyncEviction := if cf_AsyncEviction config then true else true in
  let maxMemoryMB := if cf_MaxMemoryMB config <=? 0 then 512 else cf_MaxMemoryMB config in
  mkStore
    (mkSettings shardCount (uint 64 (shardCount - 1)) maxMemoryMB
       (cf_CompressionEnabled config) compressionThresh evictThreshold evictTarget
       evictBatchSize asyncEviction)
    (replicate (Z.to_nat shardCount) (emptyShard (nextPowerOf2 8192)))
    zeroUsage (mkAccess 0 0 0 0 0) 0.

(** * Sizes and compression *)

Definition calculateItemSize (key : string) (value : slice) : Z :=
  str_len key + slice_len value + 16 + 24 + 72 + 64.

Section Ops.
Context `{XXH3, LZ4} (poolCap : Z).

Definition compress (s : MemStorage) (data : slice) : slice * bool :=
  Compress data (compressionThresh (cfg s)) poolCap.

Definition decompressValue (ci : compressedItem) : storageErr + slice :=
  if negb (ci_Compressed ci) then inr None
  else
    let n := slice_len (ci_Value ci) in
    let est := ci_OrigSize ci in
    let est := if est <=? 0 then n * 2 else est in
    let est := if est <? n * 2 then n * 2 else est in
    match DecompressTo (slice_bytes (ci_Value ci)) 0 est poolCap with
    | None => inl errDecompress
    | Some out => inr (Some out)
    end.

Definition shardIndex (s : MemStorage) (key : string) : nat :=
  Z.to_nat (Z.land (xxh3_Lo key) (shardMask (cfg s))).

(** The shard at an index; every store made by [New] has it. *)
Definition shardAt (s : MemStorage) (i : nat) : storageShard :=
  default (emptyShard 0) (shards s !! i).

Definition getShard (s : MemStorage) (key : string) : storageShard :=
  shardAt s (shardIndex s key).

Definition prepareCompressedItem (s : MemStorage) (key : string) (item : StoredItem)
    : compressedItem * Z :=
  let origSize := slice_len (si_Value item) in
  let '(value, isCompressed) :=
    if compressionEnabled (cfg s) && (compressionThresh (cfg s) <=? origSize)
    then compress s (si_Value item)
    else (si_Value item, false) in
  let itemSize := calculateItemSize key value in
  (mkCItem (si_Version item) (si_ExpireAt item) value isCompressed origSize, itemSize).

(** * LRU and counters of a shard *)

Definition storeTouchLRU (i : nat) (key : string) : MemStorage -> MemStorage :=
  on_shard i (shard_lru (fun l => touchLRU l key)).
Definition storeRemoveFromLRU (i : nat) (key : string) : MemStorage -> MemStorage :=
  on_shard i (shard_lru (fun l => removeFromLRU l key)).
Definition storeAddToSyncBuffer (i : nat) (key : string) (t : Z) (item : option StoredItem)
    : MemStorage -> MemStorage :=
  on_shard i (shard_ring (fun r => addToSyncBuffer r key t item)).

(** The same change of usage on a shard and on the totals. *)
Definition addUsage (i : nat) (dk db dc d_o : Z) (s : MemStorage) : MemStorage :=
  on_total (fun u => usage_add u dk db dc d_o)
    (on_shard i (shard_usage (fun u => usage_add u dk db dc d_o)) s).

(** What every removal of a stored item subtracts. *)
Definition dropUsage (i : nat) (key : string) (ci : compressedItem) : MemStorage -> MemStorage :=
  addUsage i (-1) (- calculateItemSize key (ci_Value ci))
           (- slice_len (ci_Value ci)) (- ci_OrigSize ci).

Definition updateStatsForNewKey (i : nat) (ci : compressedItem) (itemSize : Z) (s : MemStorage)
    : MemStorage :=
  on_access count_set (addUsage i 1 itemSize (slice_len (ci_Value ci)) (ci_OrigSize ci) s).

Definition updateStatsForExistingKey (i : nat) (old new : compressedItem) (newItemSize : Z)
    (s : MemStorage) : MemStorage :=
  let oldSize := calculateItemSize "" (ci_Value old) in
  on_access count_set
    (addUsage i 0 (newItemSize - oldSize)
       (slice_len (ci_Value new) - slice_len (ci_Value old))
       (ci_OrigSize new - ci_OrigSize old) s).

(** * Eviction *)

Fixpoint evict_loop (fuel : nat) (i : nat) (batchSize evicted : Z) (s : MemStorage)
    : MemStorage * Z :=
  match fuel with
  | O => (s, evicted)
  | S fuel =>
      if evicted <? batchSize then
        match popOldest (sh_lru (shardAt s i)) with
        | None => (s, evicted)
        | Some (key, lru) =>
            let s := on_shard i (shard_lru (fun _ => lru)) s in
            match sh_data (shardAt s i) !! key with
            | None => evict_loop fuel i batchSize evicted s
            | Some ci =>
                let s := on_shard i (shard_data (delete key)) s in
                let s := dropUsage i key ci s in
                let s := on_access count_evict s in
                evict_loop fuel i batchSize (evicted + 1) s
            end
        end
      else (s, evicted)
  end.

Definition evictBatchLRU (s : MemStorage) (batchSize : Z) : MemStorage * Z :=
  let batchSize := if batchSize <=? 0 then 1 else batchSize in
  let batchSize := if 100 <? batchSize then 100 else batchSize in
  let next := addu64 (evictShardIdx s) 1 in
  let i := Z.to_nat (Z.land next (shardMask (cfg s))) in
  let s := mkStore (cfg s) (shards s) (total s) (access s) next in
  evict_loop (S (length (lru_list (sh_lru (shardAt s i))))) i batchSize 0 s.

(** The loops of [checkAndEvict] and [runAsyncEviction]: they end when the
    usage is low enough, when a batch evicts nothing, or after [limit]
    evictions, so [limit] iterations are enough. *)
Fixpoint evict_until (fuel : nat) (limit evicted extra target : Z) (s : MemStorage) : MemStorage :=
  match fuel with
  | O => s
  | S fuel =>
      if (target <? add64 (u_bytes (total s)) extra) && (evicted <? limit) then
        let '(s, n) := evictBatchLRU s (evictBatchSize (cfg s)) in
        if n =? 0 then s else evict_until fuel limit (evicted + n) extra target s
      else s
  end.

Definition maxBytes (s : MemStorage) : Z := sint 64 (maxMemoryMB (cfg s) * 1024 * 1024).
Definition percent (s : MemStorage) (p : Z) : Z := Z.quot (sint 64 (maxBytes s * p)) 100.

Definition checkAndEvict (s : MemStorage) (itemSize : Z) : MemStorage * option storageErr :=
  let current := u_bytes (total s) in
  if add64 current itemSize <=? percent s (evictThreshold (cfg s)) then (s, None)
  else if asyncEviction (cfg s) then
    if maxBytes s <? add64 current itemSize then
      let '(s, evicted) := evictBatchLRU s 5 in
      if evicted =? 0 then (s, Some ErrMemoryLimit) else (s, None)
    else (s, None)
  else
    let s := evict_until 200 200 0 itemSize (percent s (evictTarget (cfg s))) s in
    if maxBytes s <? add64 (u_bytes (total s)) itemSize then (s, Some ErrMemoryLimit) else (s, None).

Definition runAsyncEviction (s : MemStorage) : MemStorage :=
  if maxMemoryMB (cfg s) <=? 0 then s
  else if u_bytes (total s) <=? percent s (evictThreshold (cfg s)) then s
  else
    let maxEvictions := evictBatchSize (cfg s) * 10 in
    evict_until (Z.to_nat maxEvictions) maxEvictions 0 0 (percent s (evictTarget (cfg s))) s.

(** * Set *)

Definition tryStoreNewKey (i : nat) (key : string) (ci : compressedItem) (itemSize : Z)
    (item : StoredItem) (s : MemStorage) : MemStorage * option storageErr :=
  match sh_data (shardAt s i) !! key with
  | Some _ => (s, Some errRetry)
  | None =>
      let s := on_shard i (shard_data (<[key := ci]>)) s in
      let s := updateStatsForNewKey i ci itemSize s in
      let s := storeTouchLRU i key s in
      (storeAddToSyncBuffer i key OpSet (Some item) s, None)
  end.

Definition tryUpdateExistingKey (i : nat) (key : string) (existing ci : compressedItem)
    (itemSize : Z) (item : StoredItem) (s : MemStorage) : MemStorage * option storageErr :=
  if ci_Version ci <=? ci_Version existing then (on_access count_set s, None)
  else
    match sh_data (shardAt s i) !! key with
    | None => (s, Some errRetry)
    | Some current =>
        if negb (ci_Version current =? ci_Version existing) then (s, Some errRetry)
        else if bool_decide (current = existing) then
          let s := on_shard i (shard_data (<[key := ci]>)) s in
          let s := updateStatsForExistingKey i existing ci itemSize s in
          let s := storeTouchLRU i key s in
          (storeAddToSyncBuffer i key OpSet (Some item) s, None)
        else (s, Some errRetry)
    end.

(** The retry loop; without interference one round is enough. *)
Fixpoint storeItemWithConflictResolution (fuel : nat) (i : nat) (key : string)
    (ci : compressedItem) (itemSize : Z) (item : StoredItem) (s : MemStorage)
    : option MemStorage :=
  match fuel with
  | O => None
  | S fuel =>
      let '(s, err) :=
        match sh_data (shardAt s i) !! key with
        | None => tryStoreNewKey i key ci itemSize item s
        | Some existing => tryUpdateExistingKey i key existing ci itemSize item s
        end in
      match err with
      | None => Some s
      | Some _ => storeItemWithConflictResolution fuel i key ci itemSize item s
      end
  end.

Definition StoreSet (s : MemStorage) (key : string) (item : option StoredItem)
    : MemStorage * option storageErr :=
  if bool_decide (key = ""%string) then (s, Some ErrEmptyKey)
  else match item with
  | None => (s, Some errNilItem)
  | Some item =>
      let i := shardIndex s key in
      let '(ci, itemSize) := prepareCompressedItem s key item in
      let '(s, err) :=
        if 0 <? maxMemoryMB (cfg s) then checkAndEvict s itemSize else (s, None) in
      match err with
      | Some e => (s, Some e)
      | None =>
          match storeItemWithConflictResolution 1 i key ci itemSize item s with
          | Some s => (s, None)
          | None => (s, Some errRetry)
          end
      end
  end.

(** * Get *)

(** The lazy removal of an expired key on the read paths. *)
Definition expireKey (i : nat) (key : string) (s : MemStorage) : MemStorage :=
  let s := on_access count_miss s in
  let s := on_shard i (shard_data (delete key)) s in
  let s := addUsage i (-1) 0 0 0 s in
  storeRemoveFromLRU i key s.

Definition getWith (clone : slice -> slice) (s : MemStorage) (key : string) (now : Z)
    : MemStorage * (storageErr + StoredItem) :=
  if bool_decide (key = ""%string) then (s, inl ErrEmptyKey)
  else
    let s := on_access count_get s in
    let i := shardIndex s key in
    match sh_data (shardAt s i) !! key with
    | None => (on_access count_miss s, inl ErrNotFound)
    | Some ci =>
        if negb (IsZero (ci_ExpireAt ci)) && (UnixNano (ci_ExpireAt ci) <? UnixNano now)
        then (expireKey i key s, inl ErrExpired)
        else
          let s := on_access count_hit s in
          let s := storeTouchLRU i key s in
          if ci_Compressed ci then
            match decompressValue ci with
            | inl e => (s, inl e)
            | inr v => (s, inr (mkItem (ci_Version ci) (ci_ExpireAt ci) v ""))
            end
          else (s, inr (mkItem (ci_Version ci) (ci_ExpireAt ci) (clone (ci_Value ci)) ""))
    end.

Definition StoreGet : MemStorage -> string -> Z -> MemStorage * (storageErr + StoredItem) :=
  getWith FastCloneBytes.
Definition GetNoCopy : MemStorage -> string -> Z -> MemStorage * (storageErr + StoredItem) :=
  getWith (fun v => v).

(** * Delete *)

Definition StoreDelete (s : MemStorage) (key : string) (version : Z)
    : MemStorage * option storageErr :=
  if bool_decide (key = ""%string) then (s, Some ErrEmptyKey)
  else
    let i := shardIndex s key in
    match sh_data (shardAt s i) !! key with
    | None => (s, None)
    | Some ci =>
        if (0 <? version) && (version <? ci_Version ci) then (s, Some ErrVersionMismatch)
        else
          let s := on_shard i (shard_data (delete key)) s in
          let s := dropUsage i key ci s in
          let s := storeRemoveFromLRU i key s in
          (storeAddToSyncBuffer i key OpDelete None s, None)
    end.

(** * Expiration, enumeration, clearing *)

Definition itemExpired (now : Z) (ci : compressedItem) : bool :=
  negb (IsZero (ci_ExpireAt ci)) && After now (ci_ExpireAt ci).

Definition cleanKey (i : nat) (s : MemStorage) (key : string) : MemStorage :=
  match sh_data (shardAt s i) !! key with
  | None => s
  | Some ci =>
      let s := on_shard i (shard_data (delete key)) s in
      let s := dropUsage i key ci s in
      storeRemoveFromLRU i key s
  end.

Definition cleanShard (now : Z) (s : MemStorage) (i : nat) : MemStorage :=
  let expiredKeys := (filter (fun kv => itemExpired now kv.2 = true)
                        (map_to_list (sh_data (shardAt s i)))).*1 in
  fold_left (cleanKey i) expiredKeys s.

Definition cleanExpired (s : MemStorage) (now : Z) : MemStorage :=
  fold_left (cleanShard now) (seq 0 (length (shards s))) s.

Definition keysOfShard (now : Z) (sk : MemStorage * list string) (i : nat)
    : MemStorage * list string :=
  let '(s, keys) := sk in
  let kvs := map_to_list (sh_data (shardAt s i)) in
  let live := filter (fun kv => itemExpired now kv.2 = false) kvs in
  let s := on_shard i (shard_data (filter (fun kv => itemExpired now kv.2 = false))) s in
  (s, keys ++ live.*1).

Definition Keys (s : MemStorage) (now : Z) : MemStorage * list string :=
  fold_left (keysOfShard now) (seq 0 (length (shards s))) (s, []).

Definition clearShard (sh : storageShard) : storageShard :=
  mkShard ∅ (mkLRU [] ∅ (lru_fresh (sh_lru sh))) (clearRing (sh_ring sh)) zeroUsage.

Definition Clear (s : MemStorage) : MemStorage :=
  mkStore (cfg s) (clearShard <$> shards s) zeroUsage (access s) (evictShardIdx s).

(** * Replication operations *)

(** The value of a queued write is read back from the store. *)
Definition fillOp (now : Z) (s : MemStorage) (op : SyncOperation) : MemStorage * SyncOperation :=
  match so_Item op with
  | Some item =>
      if bool_decide (si_Value item = None) && (so_OpType op =? OpSet) then
        let '(s, res) := GetNoCopy s (so_Key op) now in
        match res with
        | inr stored =>
            if 0 <? slice_len (si_Value stored)
            then (s, mkOp (so_Key op) (so_OpType op)
                       (Some (mkItem (si_Version item) (si_ExpireAt item)
                                (si_Value stored) (si_Key item))))
            else (s, op)
        | inl _ => (s, op)
        end
      else (s, op)
  | None => (s, op)
  end.

Definition drainShard (now : Z) (so : MemStorage * list SyncOperation) (i : nat)
    : MemStorage * list SyncOperation :=
  let '(s, ops) := so in
  let '(r, s, new) := drainRing (fillOp now) (sh_ring (shardAt s i)) s in
  (on_shard i (shard_ring (fun _ => r)) s, ops ++ new).

Definition GetSyncBuffer (s : MemStorage) (now : Z) : MemStorage * list SyncOperation :=
  fold_left (drainShard now) (seq 0 (length (shards s))) (s, []).

(** * Batches *)

(** Grouping by shard, a group per index in order of first appearance. *)
Fixpoint addToBatch {A} (batches : list (nat * list A)) (i : nat) (x : A) : list (nat * list A) :=
  match batches with
  | [] => [(i, [x])]
  | (j, xs) :: rest =>
      if bool_decide (i = j) then (j, xs ++ [x]) :: rest
      else (j, xs) :: addToBatch rest i x
  end.

Definition groupByShard {A} (f : A -> string) (s : MemStorage) (xs : list A)
    : list (nat * list A) :=
  fold_left (fun bs x => addToBatch bs (shardIndex s (f x)) x) xs [].

Definition batchGetKey (clone : slice -> slice) (now : Z) (i : nat)
    (sr : MemStorage * gmap string StoredItem) (key : string)
    : MemStorage * gmap string StoredItem :=
  let '(s, result) := sr in
  let s := on_access count_get s in
  match sh_data (shardAt s i) !! key with
  | None => (on_access count_miss s, result)
  | Some ci =>
      if itemExpired now ci then (expireKey i key s, result)
      else
        let s := on_access count_hit s in
        let s := storeTouchLRU i key s in
        if ci_Compressed ci then
          match decompressValue ci with
          | inr (Some v) => (s, <[key := mkItem (ci_Version ci) (ci_ExpireAt ci) (Some v) ""]> result)
          | _ => (s, result)
          end
        else (s, <[key := mkItem (ci_Version ci) (ci_ExpireAt ci) (clone (ci_Value ci)) ""]> result)
  end.

Definition batchGetWith (clone : slice -> slice) (s : MemStorage) (keys : list string) (now : Z)
    : MemStorage * gmap string StoredItem :=
  let batches := groupByShard (fun k => k) s (filter (fun k => k <> ""%string) keys) in
  fold_left (fun sr b => fold_left (batchGetKey clone now b.1) b.2 sr) batches (s, ∅).

Definition BatchGet : MemStorage -> list string -> Z -> MemStorage * gmap string StoredItem :=
  batchGetWith FastCloneBytes.
Definition BatchGetNoCopy : MemStorage -> list string -> Z -> MemStorage * gmap string StoredItem :=
  batchGetWith (fun v => v).

Definition BatchSet (s : MemStorage) (items : gmap string (option StoredItem))
    : MemStorage * option storageErr :=
  let valid := omap (fun kv => match kv.2 with
                               | Some it => if bool_decide (kv.1 = ""%string) then None
                                            else Some (kv.1, it)
                               | None => None
                               end) (map_to_list items) in
  let batches := groupByShard fst s valid in
  let totalSize := fold_left (fun a kv => sint 64 (a + calculateItemSize kv.1 (si_Value kv.2))) valid 0 in
  if bool_decide (items = ∅) then (s, None)
  else
    let '(s, err) := if 0 <? maxMemoryMB (cfg s) then checkAndEvict s totalSize else (s, None) in
    match err with
    | Some e => (s, Some e)
    | None =>
        (fold_left (fun s b => fold_left (fun s kv => (StoreSet s kv.1 (Some kv.2)).1) b.2 s)
           batches s, None)
    end.
End Ops.
