(* ===== verification/MemStorageFacts.v ===== *)
(** Properties of the sharded store: the invariant that ties shards, LRU and
    key counters together and its preservation by every operation, the
    functional behaviour of reads, writes, deletes and eviction, and the byte
    accounting. *)

From Stdlib Require Import ZArith Lia.
From Stdlib Require Import Strings.String.
From S2P Require Import Prelude StoredItem Compress Lru SyncBuffer MemStorage.

(** * Shards of a store *)

Lemma shardAt_on_shard s i j f :
  shardAt (on_shard i f s) j =
  if decide (i = j /\ (i < length (shards s))%nat) then f (shardAt s j) else shardAt s j.
Proof.
  unfold shardAt, on_shard. simpl. destruct (decide (i = j)) as [->|Hne].
  - rewrite list_lookup_alter_eq. destruct (shards s !! j) as [sh|] eqn:E; simpl.
    + rewrite decide_True; [done|]. split; [done|]. by apply lookup_lt_Some in E.
    + rewrite decide_False; [done|]. intros [_ Hlt]. apply lookup_ge_None in E. lia.
  - rewrite list_lookup_alter_ne by done. rewrite decide_False by naive_solver. done.
Qed.

Lemma shardAt_on_shard_eq s i f :
  (i < length (shards s))%nat -> shardAt (on_shard i f s) i = f (shardAt s i).
Proof. intros. rewrite shardAt_on_shard, decide_True; done. Qed.

Lemma shardAt_on_shard_ne s i j f : i <> j -> shardAt (on_shard i f s) j = shardAt s j.
Proof. intros. rewrite shardAt_on_shard, decide_False; naive_solver. Qed.

Lemma list_alter_alter {A} (f g : A -> A) i (l : list A) :
  alter f i (alter g i l) = alter (f ∘ g) i l.
Proof.
  apply list_eq. intros j. destruct (decide (i = j)) as [->|Hne].
  - rewrite !list_lookup_alter_eq. by destruct (l !! j).
  - by rewrite !list_lookup_alter_ne.
Qed.

Lemma on_shard_compose s i f g : on_shard i f (on_shard i g s) = on_shard i (f ∘ g) s.
Proof. unfold on_shard. simpl. by rewrite list_alter_alter. Qed.

Lemma length_on_shard s i f : length (shards (on_shard i f s)) = length (shards s).
Proof. apply length_alter. Qed.

(** Number of keys, as the counters should have it. *)
Definition keys_in (l : list storageShard) : Z :=
  foldr (fun sh a => Z.of_nat (size (sh_data sh)) + a) 0 l.

Lemma keys_in_alter l i f sh :
  l !! i = Some sh ->
  keys_in (alter f i l) =
  keys_in l + Z.of_nat (size (sh_data (f sh))) - Z.of_nat (size (sh_data sh)).
Proof.
  revert i. induction l as [|x l IH]; intros [|i] E; simplify_eq/=.
  - unfold keys_in. simpl. lia.
  - specialize (IH i E). unfold keys_in in *. cbn [foldr]. simpl in IH |- *. lia.
Qed.

Lemma shards_shardAt s i :
  (i < length (shards s))%nat -> shards s !! i = Some (shardAt s i).
Proof. intros Hlt. unfold shardAt. by destruct (lookup_lt_is_Some_2 _ _ Hlt) as [sh ->]. Qed.

(** How far the key counters of the shards and of the store are ahead of the
    keys stored. *)
Record drift := mkDrift { df_shard : nat -> Z; df_total : Z }.
Definition noDrift : drift := mkDrift (fun _ => 0) 0.

Section Facts.
Context `{XXH3, LZ4} (poolCap : Z) {dr : drift}.

(** * The invariant *)

Record shard_ok (mask : Z) (i : nat) (sh : storageShard) : Prop := {
  ok_lru : lru_wf (sh_lru sh);
  ok_sub k : is_Some (sh_data sh !! k) -> k ∈ lru_keys (sh_lru sh);
  ok_place k : is_Some (sh_data sh !! k) -> Z.to_nat (Z.land (xxh3_Lo k) mask) = i;
  ok_keys : u_keys (sh_usage sh) = sint 64 (Z.of_nat (size (sh_data sh)) + df_shard dr i);
}.

Record store_drift (s : MemStorage) : Prop := {
  sw_mask : exists k, 0 <= k <= 62 /\ shardMask (cfg s) = 2 ^ k - 1 /\
                      length (shards s) = Z.to_nat (2 ^ k);
  sw_shards i sh : shards s !! i = Some sh -> shard_ok (shardMask (cfg s)) i sh;
  sw_total : u_keys (total s) = sint 64 (keys_in (shards s) + df_total dr);
}.

(** An index computed by masking is an index of a shard. *)
Lemma masked_index_lt s x :
  store_drift s -> (Z.to_nat (Z.land x (shardMask (cfg s))) < length (shards s))%nat.
Proof.
  intros [(k & Hk & -> & ->) _ _]. apply (slot_lt k x). lia.
Qed.

Lemma shardIndex_lt s key : store_drift s -> (shardIndex s key < length (shards s))%nat.
Proof. apply masked_index_lt. Qed.

Lemma shardAt_ok s i :
  store_drift s -> (i < length (shards s))%nat -> shard_ok (shardMask (cfg s)) i (shardAt s i).
Proof. intros [_ Hs _] Hlt. by apply Hs, shards_shardAt. Qed.

Lemma wf_access s f : store_drift s -> store_drift (on_access f s).
Proof. by intros [? ? ?]; split. Qed.

(** The rule for an operation that rewrites one shard and adds the change
    of its size to the total. *)
Lemma wf_update s i F t dk :
  store_drift s -> (i < length (shards s))%nat ->
  shard_ok (shardMask (cfg s)) i (F (shardAt s i)) ->
  Z.of_nat (size (sh_data (F (shardAt s i)))) = Z.of_nat (size (sh_data (shardAt s i))) + dk ->
  u_keys (t (total s)) = add64 (u_keys (total s)) dk ->
  store_drift (on_total t (on_shard i F s)).
Proof.
  intros [Hm Hs Ht] Hlt HF Hsz Htot. split; simpl.
  - destruct Hm as (k & ? & ? & ?). exists k. by rewrite length_alter.
  - intros j sh. destruct (decide (i = j)) as [->|Hne].
    + rewrite list_lookup_alter_eq, shards_shardAt by done. by intros [= <-].
    + rewrite list_lookup_alter_ne by done. apply Hs.
  - rewrite Htot, (keys_in_alter _ _ _ (shardAt s i)), Hsz, Ht by by apply shards_shardAt.
    rewrite add64_sint. f_equal. lia.
Qed.

Lemma wf_shard_only s i F :
  store_drift s -> (i < length (shards s))%nat ->
  shard_ok (shardMask (cfg s)) i (F (shardAt s i)) ->
  size (sh_data (F (shardAt s i))) = size (sh_data (shardAt s i)) ->
  store_drift (on_shard i F s).
Proof.
  intros Hwf Hlt HF Hsz. change (store_drift (on_total (fun u => u) (on_shard i F s))).
  apply (wf_update s i F _ 0); try done; [lia|].
  pose proof (sw_total s Hwf) as ->. by rewrite add64_sint, Z.add_0_r.
Qed.

(** * Rewriting a shard *)

Lemma touch_mem k k' lru : lru_wf lru -> k' ∈ lru_keys (touchLRU lru k) <-> k' = k \/ k' ∈ lru_keys lru.
Proof.
  intros Hw. destruct (touchLRU_spec lru k Hw) as [_ ->]. unfold Recency.touch.
  rewrite elem_of_cons, list_elem_of_filter. destruct (decide (k' = k)); naive_solver.
Qed.

Lemma remove_mem k k' lru :
  lru_wf lru -> k' ∈ lru_keys (removeFromLRU lru k) <-> k' <> k /\ k' ∈ lru_keys lru.
Proof.
  intros Hw. destruct (removeFromLRU_spec lru k Hw) as [_ ->].
  unfold Recency.remove. by rewrite list_elem_of_filter.
Qed.

Lemma ok_ring mask i sh f : shard_ok mask i sh -> shard_ok mask i (shard_ring f sh).
Proof. by intros [? ? ? ?]; split. Qed.

Lemma ok_touch mask i sh k :
  shard_ok mask i sh -> shard_ok mask i (shard_lru (fun l => touchLRU l k) sh).
Proof.
  intros [? ? ? ?]. split; simpl; try done.
  - by apply touchLRU_spec.
  - intros. apply touch_mem; auto.
Qed.

(** Insertion of a key with its counters and its LRU entry. *)
Lemma ok_insert mask i sh k ci u :
  shard_ok mask i sh -> Z.to_nat (Z.land (xxh3_Lo k) mask) = i ->
  u_keys (u (sh_usage sh)) =
    add64 (u_keys (sh_usage sh)) (if sh_data sh !! k is Some _ then 0 else 1) ->
  shard_ok mask i (shard_lru (fun l => touchLRU l k)
                    (shard_usage u (shard_data (<[k := ci]>) sh))).
Proof.
  intros [H1 H2 H3 H4] Hp Hu. split; simpl.
  - by apply touchLRU_spec.
  - intros k'. rewrite touch_mem by done. destruct (decide (k' = k)) as [->|]; [by left|].
    rewrite lookup_insert_ne by done. auto.
  - intros k'. destruct (decide (k' = k)) as [->|]; [done|].
    rewrite lookup_insert_ne by done. apply H3.
  - rewrite Hu, H4, add64_sint, map_size_insert. f_equal.
    destruct (sh_data sh !! k); simpl; lia.
Qed.

(** Removal of a present key with its counters and its LRU entry. *)
Lemma ok_remove mask i sh k ci u lru' :
  shard_ok mask i sh -> sh_data sh !! k = Some ci ->
  lru_wf lru' -> (forall k', k' <> k -> k' ∈ lru_keys (sh_lru sh) -> k' ∈ lru_keys lru') ->
  u_keys (u (sh_usage sh)) = add64 (u_keys (sh_usage sh)) (-1) ->
  shard_ok mask i (shard_lru (fun _ => lru') (shard_usage u (shard_data (delete k) sh))).
Proof.
  intros [H1 H2 H3 H4] Hk Hl Hsub Hu. split; simpl; [done| | |].
  - intros k'. destruct (decide (k' = k)) as [->|].
    { rewrite lookup_delete_eq. by intros [? [=]]. }
    rewrite lookup_delete_ne by done. auto.
  - intros k'. destruct (decide (k' = k)) as [->|].
    { rewrite lookup_delete_eq. by intros [? [=]]. }
    rewrite lookup_delete_ne by done. apply H3.
  - rewrite Hu, H4, add64_sint, map_size_delete, Hk. f_equal.
    assert (size (sh_data sh) <> 0%nat); [|lia].
    intros E. apply map_size_empty_inv in E. rewrite E in Hk. by rewrite lookup_empty in Hk.
Qed.

Lemma size_delete_Z (m : gmap string compressedItem) k ci :
  m !! k = Some ci -> Z.of_nat (size (delete k m)) = Z.of_nat (size m) + -1.
Proof.
  intros Hk. rewrite map_size_delete, Hk.
  assert (size m <> 0%nat); [|lia].
  intros E. apply map_size_empty_inv in E. rewrite E in Hk. by rewrite lookup_empty in Hk.
Qed.

Lemma size_insert_Z (m : gmap string compressedItem) k ci :
  Z.of_nat (size (<[k := ci]> m)) = Z.of_nat (size m) + if m !! k is Some _ then 0 else 1.
Proof. rewrite map_size_insert. destruct (m !! k); simpl; lia. Qed.

(** * Preservation *)

Lemma on_shard_norm i G a t F s :
  on_shard i G (on_access a (on_total t (on_shard i F s))) =
  on_access a (on_total t (on_shard i (G ∘ F) s)).
Proof. unfold on_shard, on_access, on_total. simpl. by rewrite list_alter_alter. Qed.

Lemma on_shard_total i G t F s :
  on_shard i G (on_total t (on_shard i F s)) = on_total t (on_shard i (G ∘ F) s).
Proof. unfold on_shard, on_total. simpl. by rewrite list_alter_alter. Qed.

Lemma wf_ring s i f : store_drift s -> (i < length (shards s))%nat -> store_drift (on_shard i (shard_ring f) s).
Proof. intros Hw Hi. apply wf_shard_only; [done..| |done]. by apply ok_ring, shardAt_ok. Qed.

Lemma wf_touch s i key : store_drift s -> (i < length (shards s))%nat -> store_drift (storeTouchLRU i key s).
Proof. intros Hw Hi. apply wf_shard_only; [done..| |done]. by apply ok_touch, shardAt_ok. Qed.

(** A stored key: inserted or replaced, its counters, LRU and queue entry. *)
Lemma wf_insert s i key ci t item dk db dc d_o :
  store_drift s -> i = shardIndex s key ->
  dk = (if sh_data (shardAt s i) !! key is Some _ then 0 else 1) ->
  store_drift (storeAddToSyncBuffer i key t item (storeTouchLRU i key
    (on_access count_set (addUsage i dk db dc d_o (on_shard i (shard_data (<[key := ci]>)) s))))).
Proof.
  intros Hw -> ->. set (i := shardIndex s key). assert (Hi := shardIndex_lt s key Hw).
  unfold storeAddToSyncBuffer, storeTouchLRU, addUsage.
  rewrite !on_shard_compose, !on_shard_norm, ?on_shard_compose. apply wf_access.
  pose proof (shardAt_ok s i Hw Hi) as Hok.
  eapply wf_update; [done|done| | |].
  - cbv [compose]. apply ok_ring, ok_insert; done.
  - simpl. apply size_insert_Z.
  - done.
Qed.

(** A removed key: its counters and LRU entry. *)
Lemma wf_drop s i key ci db dc d_o lru' :
  store_drift s -> (i < length (shards s))%nat -> sh_data (shardAt s i) !! key = Some ci ->
  lru_wf lru' ->
  (forall k', k' <> key -> k' ∈ lru_keys (sh_lru (shardAt s i)) -> k' ∈ lru_keys lru') ->
  store_drift (on_shard i (shard_lru (fun _ => lru'))
    (addUsage i (-1) db dc d_o (on_shard i (shard_data (delete key)) s))).
Proof.
  intros Hw Hi Hk Hl Hsub. unfold addUsage. rewrite on_shard_compose, on_shard_total.
  pose proof (shardAt_ok s i Hw Hi) as Hok.
  eapply wf_update; [done|done| | |].
  - cbv [compose]. by eapply ok_remove.
  - simpl. by eapply size_delete_Z.
  - done.
Qed.

Lemma removeFromLRU_const s i key g :
  (i < length (shards s))%nat ->
  (forall sh, sh_lru (g sh) = sh_lru sh) ->
  storeRemoveFromLRU i key (on_shard i g s) =
  on_shard i (shard_lru (fun _ => removeFromLRU (sh_lru (shardAt s i)) key)) (on_shard i g s).
Proof.
  intros Hi Hg. unfold storeRemoveFromLRU. rewrite !on_shard_compose.
  unfold on_shard. f_equal. apply list_eq. intros j. destruct (decide (i = j)) as [<-|].
  - rewrite !list_lookup_alter_eq, shards_shardAt by done. simpl. unfold shard_lru.
    by rewrite Hg.
  - by rewrite !list_lookup_alter_ne.
Qed.

Lemma wf_remove s i key ci db dc d_o :
  store_drift s -> (i < length (shards s))%nat -> sh_data (shardAt s i) !! key = Some ci ->
  store_drift (storeRemoveFromLRU i key
    (addUsage i (-1) db dc d_o (on_shard i (shard_data (delete key)) s))).
Proof.
  intros Hw Hi Hk. unfold addUsage. rewrite on_shard_compose.
  change (storeRemoveFromLRU i key (on_total ?t ?x)) with (on_total t (storeRemoveFromLRU i key x)).
  rewrite removeFromLRU_const by done. rewrite <- on_shard_compose.
  pose proof (shardAt_ok s i Hw Hi) as Hok.
  destruct (removeFromLRU_spec (sh_lru (shardAt s i)) key (ok_lru _ _ _ Hok)) as [Hl HK].
  eapply (wf_drop s i key ci db dc d_o _ Hw Hi Hk Hl).
  intros k' Hne Hin. apply remove_mem; [apply Hok|done].
Qed.

(** ** Eviction *)

Lemma length_evict_loop fuel i b e s :
  length (shards (evict_loop fuel i b e s).1) = length (shards s) /\
  cfg (evict_loop fuel i b e s).1 = cfg s.
Proof.
  revert e s. induction fuel as [|fuel IH]; intros e s; [done|]. cbn [evict_loop].
  case_match; [|done]. destruct (popOldest _) as [[key lru]|]; [|done].
  case_match; match goal with |- context [evict_loop fuel i b ?e' ?s'] => destruct (IH e' s') as [-> ->] end;
    unfold dropUsage, addUsage; simpl; by rewrite !length_alter.
Qed.

Lemma wf_evict_loop fuel i b e s :
  store_drift s -> (i < length (shards s))%nat -> store_drift (evict_loop fuel i b e s).1.
Proof.
  revert e s. induction fuel as [|fuel IH]; intros e s Hw Hi; [done|]. cbn [evict_loop].
  case_match; [|done]. pose proof (shardAt_ok s i Hw Hi) as Hok.
  pose proof (popOldest_spec (sh_lru (shardAt s i)) (ok_lru _ _ _ Hok)) as HP.
  destruct (popOldest _) as [[key lru]|]; [|done]. destruct HP as (Hl & _ & HK).
  rewrite shardAt_on_shard_eq by done. simpl.
  assert (Hsub : forall k', k' <> key -> k' ∈ lru_keys (sh_lru (shardAt s i)) -> k' ∈ lru_keys lru).
  { intros k' Hne Hin. rewrite HK. by apply list_elem_of_filter. }
  destruct (sh_data (shardAt s i) !! key) as [ci|] eqn:E.
  - apply IH; [|unfold dropUsage, addUsage; simpl; by rewrite !length_alter].
    apply wf_access.
    pose proof (wf_drop s i key ci (- calculateItemSize key (ci_Value ci))
      (- slice_len (ci_Value ci)) (- ci_OrigSize ci) lru Hw Hi E Hl Hsub) as Hd.
    unfold dropUsage, addUsage in *. rewrite !on_shard_compose, !on_shard_total in *. done.
  - apply IH; [|by rewrite length_on_shard].
    apply wf_shard_only; [done|done| |done]. destruct Hok as [K1 K2 K3 K4].
    split; simpl; try done. intros k' Hk'. apply Hsub; [|by apply K2].
    intros ->. rewrite E in Hk'. by destruct Hk'.
Qed.

Lemma wf_evictBatchLRU s b : store_drift s -> store_drift (evictBatchLRU s b).1.
Proof.
  intros Hw. unfold evictBatchLRU. cbv zeta. apply wf_evict_loop.
  - by destruct Hw.
  - exact (masked_index_lt s _ Hw).
Qed.

Lemma cfg_evictBatchLRU s b : cfg (evictBatchLRU s b).1 = cfg s.
Proof. unfold evictBatchLRU. cbv zeta. by rewrite (proj2 (length_evict_loop _ _ _ _ _)). Qed.

Lemma evict_loop_ge fuel i b e s : e <= (evict_loop fuel i b e s).2.
Proof.
  revert e s. induction fuel as [|fuel IH]; intros e s; cbn [evict_loop]; [done|].
  repeat case_match; try done. etrans; [|apply IH]. lia.
Qed.

(** The eviction loops never run out of fuel: more changes nothing. *)
Lemma evict_until_fuel fuel k limit e extra target s :
  limit - e <= Z.of_nat fuel ->
  evict_until (fuel + k) limit e extra target s = evict_until fuel limit e extra target s.
Proof.
  revert e s. induction fuel as [|fuel IH]; intros e s Hl; cbn [evict_until Nat.add].
  - destruct k; [done|]. cbn [evict_until]. rewrite (proj2 (Z.ltb_ge e limit)), andb_false_r by lia. done.
  - case_match; [|done]. unfold evictBatchLRU.
    match goal with |- context [evict_loop ?f ?i ?b 0 ?s0] =>
      pose proof (evict_loop_ge f i b 0 s0) as K; destruct (evict_loop f i b 0 s0) as [s1 n] end.
    cbn [snd] in K. destruct (Z.eqb_spec n 0); [done|]. apply IH. lia.
Qed.

Lemma wf_evict_until fuel limit e x t s : store_drift s -> store_drift (evict_until fuel limit e x t s).
Proof.
  revert e s. induction fuel as [|fuel IH]; intros e s Hw; [done|]. cbn [evict_until].
  case_match; [|done]. pose proof (wf_evictBatchLRU s (evictBatchSize (cfg s)) Hw) as He.
  destruct (evictBatchLRU s _) as [s' n]. case_match; auto.
Qed.

Lemma wf_checkAndEvict s n : store_drift s -> store_drift (checkAndEvict s n).1.
Proof.
  intros Hw. unfold checkAndEvict. case_match; [done|]. case_match.
  - case_match; [|done]. pose proof (wf_evictBatchLRU s 5 Hw) as He.
    destruct (evictBatchLRU s 5). by case_match.
  - case_match; by apply wf_evict_until.
Qed.

Lemma cfg_evict_until fuel limit e x t s : cfg (evict_until fuel limit e x t s) = cfg s.
Proof.
  revert e s. induction fuel as [|fuel IH]; intros e s; [done|]. cbn [evict_until].
  case_match; [|done]. pose proof (cfg_evictBatchLRU s (evictBatchSize (cfg s))) as He.
  destruct (evictBatchLRU s _) as [s' n]. case_match; [done|]. by rewrite IH.
Qed.

Lemma cfg_checkAndEvict s n : cfg (checkAndEvict s n).1 = cfg s.
Proof.
  unfold checkAndEvict. case_match; [done|]. case_match.
  - case_match; [|done]. pose proof (cfg_evictBatchLRU s 5).
    destruct (evictBatchLRU s 5). by case_match.
  - case_match; apply cfg_evict_until.
Qed.

(** ** Writes *)

(** Without interference the retry loop ends in its first round, and it
    keeps the higher version. *)
Lemma store_round s i key ci n item :
  exists s', storeItemWithConflictResolution 1 i key ci n item s = Some s' /\
  s' = match sh_data (shardAt s i) !! key with
       | None =>
           storeAddToSyncBuffer i key OpSet (Some item) (storeTouchLRU i key
             (updateStatsForNewKey i ci n (on_shard i (shard_data (<[key := ci]>)) s)))
       | Some old =>
           if ci_Version ci <=? ci_Version old then on_access count_set s
           else storeAddToSyncBuffer i key OpSet (Some item) (storeTouchLRU i key
             (updateStatsForExistingKey i old ci n (on_shard i (shard_data (<[key := ci]>)) s)))
       end.
Proof.
  cbn [storeItemWithConflictResolution]. unfold tryStoreNewKey, tryUpdateExistingKey.
  destruct (sh_data (shardAt s i) !! key) as [old|] eqn:E; [|by eexists].
  destruct (ci_Version ci <=? ci_Version old); [by eexists|].
  rewrite Z.eqb_refl, bool_decide_eq_true_2 by done. by eexists.
Qed.

Lemma wf_store_round s key ci n item s' :
  store_drift s ->
  storeItemWithConflictResolution 1 (shardIndex s key) key ci n item s = Some s' -> store_drift s'.
Proof.
  intros Hw E. destruct (store_round s (shardIndex s key) key ci n item) as (s0 & E0 & ->).
  simplify_eq. destruct (sh_data _ !! key) eqn:Hk.
  - case_match; [by apply wf_access|]. apply wf_insert; [done..|by rewrite Hk].
  - apply wf_insert; [done..|by rewrite Hk].
Qed.

(** The memory check before a write. *)
Definition reserve (s : MemStorage) (n : Z) : MemStorage * option storageErr :=
  if 0 <? maxMemoryMB (cfg s) then checkAndEvict s n else (s, None).

Lemma wf_reserve s n : store_drift s -> store_drift (reserve s n).1 /\ cfg (reserve s n).1 = cfg s.
Proof.
  intros Hw. unfold reserve. case_match; [|done].
  split; [by apply wf_checkAndEvict|apply cfg_checkAndEvict].
Qed.

Lemma shardIndex_cfg s s' key : cfg s = cfg s' -> shardIndex s key = shardIndex s' key.
Proof. unfold shardIndex. by intros ->. Qed.

Lemma wf_StoreSet s key item : store_drift s -> store_drift (StoreSet poolCap s key item).1.
Proof.
  intros Hw. unfold StoreSet. case_match; [done|]. destruct item as [item|]; [|done].
  destruct (prepareCompressedItem poolCap s key item) as [ci n].
  pose proof (wf_reserve s n Hw) as [Hw1 Hc]. unfold reserve in Hw1, Hc.
  destruct (if 0 <? maxMemoryMB (cfg s) then checkAndEvict s n else (s, None)) as [s1 err].
  cbn [fst] in Hw1, Hc.
  destruct err; [done|].
  rewrite (shardIndex_cfg s s1) by done.
  destruct (storeItemWithConflictResolution _ _ _ _ _ _ _) eqn:E; [|done].
  by eapply wf_store_round.
Qed.

Lemma wf_StoreDelete s key v : store_drift s -> store_drift (StoreDelete s key v).1.
Proof.
  intros Hw. unfold StoreDelete. case_match; [done|].
  destruct (sh_data _ !! key) as [ci|] eqn:E; [|done]. case_match; [done|].
  apply wf_ring.
  - eapply wf_remove; [done|by apply shardIndex_lt|done].
  - unfold storeRemoveFromLRU, dropUsage, addUsage. simpl. rewrite !length_alter.
    by apply shardIndex_lt.
Qed.

(** ** Reads *)

Lemma wf_expireKey s i key ci :
  store_drift s -> (i < length (shards s))%nat -> sh_data (shardAt s i) !! key = Some ci ->
  store_drift (expireKey i key s).
Proof.
  intros Hw Hi E. unfold expireKey. eapply wf_remove; [by apply wf_access|done|done].
Qed.

Lemma wf_getWith clone s key now : store_drift s -> store_drift (getWith poolCap clone s key now).1.
Proof.
  intros Hw. unfold getWith. case_match; [done|].
  assert (Hi := shardIndex_lt s key Hw).
  destruct (sh_data _ !! key) as [ci|] eqn:E; [|by repeat apply wf_access].
  case_match.
  { eapply wf_expireKey; [by apply wf_access|done|done]. }
  repeat case_match; by apply wf_touch; [repeat apply wf_access|].
Qed.

Lemma cfg_getWith clone s key now : cfg (getWith poolCap clone s key now).1 = cfg s.
Proof. unfold getWith. by repeat case_match. Qed.

Lemma length_getWith clone s key now :
  length (shards (getWith poolCap clone s key now).1) = length (shards s).
Proof.
  unfold getWith. repeat case_match; try done;
    unfold expireKey, storeTouchLRU, storeRemoveFromLRU, addUsage; simpl; by rewrite !length_alter.
Qed.

(** ** Loops over shards and keys *)

Lemma fold_left_inv {A B} (P : A -> Prop) (f : A -> B -> A) (l : list B) a :
  P a -> (forall a b, P a -> b ∈ l -> P (f a b)) -> P (fold_left f l a).
Proof.
  revert a. induction l as [|b l IH]; intros a Ha Hf; [done|]. simpl. apply IH.
  - apply Hf; [done|by left].
  - intros. apply Hf; [done|by right].
Qed.

(** What the loops keep: the invariant, the settings and the number of
    shards. *)
Definition wf_like (s0 s : MemStorage) : Prop :=
  store_drift s /\ cfg s = cfg s0 /\ length (shards s) = length (shards s0).

Lemma wf_like_refl s : store_drift s -> wf_like s s.
Proof. done. Qed.

Lemma wf_cleanKey s0 s i key :
  wf_like s0 s -> (i < length (shards s0))%nat -> wf_like s0 (cleanKey i s key).
Proof.
  intros (Hw & Hc & Hl) Hi. unfold cleanKey.
  destruct (sh_data _ !! key) as [ci|] eqn:E; [|done]. split; [|split; [done|]].
  - eapply wf_remove; [done|by rewrite Hl|done].
  - unfold storeRemoveFromLRU, dropUsage, addUsage. simpl. by rewrite !length_alter.
Qed.

Lemma wf_cleanExpired s now : store_drift s -> wf_like s (cleanExpired s now).
Proof.
  intros Hw. unfold cleanExpired. apply fold_left_inv; [by apply wf_like_refl|].
  intros s1 i H1 Hi%elem_of_seq. unfold cleanShard. apply fold_left_inv; [done|].
  intros s2 k H2 _. apply wf_cleanKey; [done|lia].
Qed.

Lemma wf_fillOp now s0 s op : wf_like s0 s -> wf_like s0 (fillOp poolCap now s op).1.
Proof.
  intros (Hw & Hc & Hl). unfold fillOp. destruct (so_Item op) as [item|]; [|done].
  case_match; [|done]. unfold GetNoCopy.
  pose proof (wf_getWith (fun v => v) s (so_Key op) now Hw) as G1.
  pose proof (cfg_getWith (fun v => v) s (so_Key op) now) as G2.
  pose proof (length_getWith (fun v => v) s (so_Key op) now) as G3.
  destruct (getWith _ _ s (so_Key op) now) as [s' [e|it]]; simpl in *.
  - split; [done|]. by rewrite G2, G3.
  - case_match; (split; [done|]; simpl; by rewrite G2, G3).
Qed.

Lemma wf_drain_loop now s0 buf mask i n s :
  wf_like s0 s -> wf_like s0 (drain_loop (fillOp poolCap now) buf mask i n s).1.2.
Proof.
  revert buf i s. induction n as [|n IH]; intros buf i s Hw; [done|]. cbn [drain_loop].
  destruct (buf !! slot mask i) as [[op|]|]; [|by apply IH|by apply IH].
  pose proof (wf_fillOp now s0 s op Hw) as Hf. destruct (fillOp _ now s op) as [s' op'].
  specialize (IH (<[slot mask i := None]> buf) (i + 1) s' Hf).
  by destruct (drain_loop _ _ mask (i + 1) n s') as [[b s''] o].
Qed.

Lemma wf_GetSyncBuffer s now : store_drift s -> wf_like s (GetSyncBuffer poolCap s now).1.
Proof.
  intros Hw. unfold GetSyncBuffer. apply (fold_left_inv (fun so => wf_like s so.1)).
  { by apply wf_like_refl. }
  intros [s1 ops] i Hs Hi%elem_of_seq. unfold drainShard, drainRing. cbn [fst] in Hs.
  assert (Hgo : forall s2 r, wf_like s s2 ->
            wf_like s (on_shard i (shard_ring (fun _ : syncRing => r)) s2)).
  { intros s2 r (Hw2 & Hc & Hl). split; [apply wf_ring; [done|lia]|]. split; [done|].
    by rewrite length_on_shard. }
  destruct (_ =? _); [by apply Hgo|].
  pose proof (wf_drain_loop now s (syncBuffer (sh_ring (shardAt s1 i)))
    (syncMask (sh_ring (shardAt s1 i))) (syncTail (sh_ring (shardAt s1 i)))
    (Z.to_nat (syncHead (sh_ring (shardAt s1 i)) - syncTail (sh_ring (shardAt s1 i)))) s1 Hs) as Hd.
  destruct (drain_loop _ _ _ _ _ s1) as [[b s2] o]. by apply Hgo.
Qed.

Lemma wf_batchGetKey clone now s0 i sr key :
  wf_like s0 sr.1 -> (i < length (shards s0))%nat ->
  wf_like s0 (batchGetKey poolCap clone now i sr key).1.
Proof.
  destruct sr as [s result]. intros (Hw & Hc & Hl) Hi. unfold batchGetKey. cbn [fst] in *.
  destruct (sh_data _ !! key) as [ci|] eqn:E; [|by split; [repeat apply wf_access|]].
  case_match.
  { split; [|split; [done|]].
    - eapply wf_expireKey; [by apply wf_access|by simpl; rewrite Hl|done].
    - unfold expireKey, storeRemoveFromLRU, addUsage. simpl. by rewrite !length_alter. }
  repeat case_match; (split; [apply wf_touch; [by repeat apply wf_access|by simpl; rewrite Hl]|]);
    (split; [done|]); unfold storeTouchLRU; simpl; by rewrite length_alter.
Qed.

Lemma addToBatch_idx {A} (bs : list (nat * list A)) i x j :
  j ∈ (addToBatch bs i x).*1 -> j = i \/ j ∈ bs.*1.
Proof.
  induction bs as [|[k xs] bs IH]; simpl.
  - intros [->|[]%elem_of_nil]%elem_of_cons. by left.
  - case_match; simpl; [by right|]. intros [->|Hj]%elem_of_cons; [right; by left|].
    destruct (IH Hj); [by left|right; by right].
Qed.

Lemma groupByShard_idx {A} (f : A -> string) s xs j :
  store_drift s -> j ∈ (groupByShard f s xs).*1 -> (j < length (shards s))%nat.
Proof.
  intros Hw. unfold groupByShard.
  apply (fold_left_inv (fun bs => j ∈ bs.*1 -> (j < length (shards s))%nat)).
  - by intros ?%elem_of_nil.
  - intros bs x IH _ [->|]%addToBatch_idx; [by apply shardIndex_lt|auto].
Qed.

Lemma wf_batchGetWith clone s keys now :
  store_drift s -> wf_like s (batchGetWith poolCap clone s keys now).1.
Proof.
  intros Hw. unfold batchGetWith. apply (fold_left_inv (fun sr => wf_like s sr.1)).
  { by apply wf_like_refl. }
  intros sr b Hs Hb. apply (fold_left_inv (fun sr => wf_like s sr.1)); [done|].
  intros. apply wf_batchGetKey; [done|].
  eapply groupByShard_idx; [done|]. apply list_elem_of_fmap. eauto.
Qed.

Lemma wf_BatchSet s items : store_drift s -> store_drift (BatchSet poolCap s items).1.
Proof.
  intros Hw. unfold BatchSet. case_match; [done|].
  match goal with |- context [checkAndEvict s ?n] =>
    pose proof (wf_reserve s n Hw) as [Hc _]; unfold reserve in Hc;
    destruct (if 0 <? maxMemoryMB (cfg s) then checkAndEvict s n else (s, None)) as [s1 [e1|]]
  end; [done|].
  assert (Hgo : forall s2 bs, store_drift s2 -> store_drift
    (fold_left (fun s b => fold_left (fun s kv => (StoreSet poolCap s kv.1 (Some kv.2)).1) b.2 s)
      (bs : list (nat * list (string * StoredItem))) s2)).
  { intros s2 bs H2. apply fold_left_inv; [done|]. intros. apply fold_left_inv; [done|].
    intros. by apply wf_StoreSet. }
  by apply Hgo.
Qed.

Lemma wf_runAsyncEviction s : store_drift s -> store_drift (runAsyncEviction s).
Proof.
  intros Hw. unfold runAsyncEviction. do 2 (case_match; [done|]). by apply wf_evict_until.
Qed.
End Facts.

(** The counters are exact. *)
Abbreviation store_wf := (@store_drift _ noDrift).

(** [Clear] sets the counters right. *)
Lemma wf_Clear `{XXH3} dr s : @store_drift _ dr s -> store_wf (Clear s).
Proof.
  intros [(k & Hk & Hm & Hl) _ _]. split; simpl.
  - exists k. by rewrite length_fmap.
  - intros i sh (sh0 & -> & _)%list_lookup_fmap_Some. split; simpl; try done.
    + split; simpl; [constructor|constructor|intros; rewrite lookup_empty; set_solver|set_solver].
    + intros k'. rewrite lookup_empty. by intros [? [=]].
    + intros k'. rewrite lookup_empty. by intros [? [=]].
  - clear. induction (shards s) as [|sh l IH]; [done|]. unfold keys_in in *. simpl.
    rewrite map_size_empty. done.
Qed.
