(* ===== verification/MemStorageProps.v ===== *)
(** What the store promises, proved from the lemmas of MemStorageFacts: the
    reachable states, the contents each operation leaves, round trips through
    compression, eviction order, byte accounting. *)

From Stdlib Require Import ZArith Lia.
From Stdlib Require Import Strings.String Strings.Byte.
From S2P Require Import Prelude StoredItem Compress Lru SyncBuffer Pow2 MemStorage MemStorageFacts.

(** * Reachable states *)

Lemma keys_in_replicate n sh : sh_data sh = ∅ -> keys_in (replicate n sh) = 0.
Proof.
  intros E. induction n as [|n IH]; [done|]. unfold keys_in in *. simpl. rewrite E, IH.
  by rewrite map_size_empty.
Qed.

Section Reach.
Context `{XXH3, LZ4} (poolCap : Z).

Lemma wf_New c g : 0 <= cf_ShardCount c <= 2 ^ 62 -> store_wf (New c g).
Proof.
  intros Hc. set (n := if cf_ShardCount c =? 0 then autoShardCount g else cf_ShardCount c).
  assert (Hn : 0 < n <= 2 ^ 62).
  { subst n. unfold autoShardCount. arith_cases; lia. }
  destruct (nextPowerOf2_pow2 n ltac:(lia)) as (k & Hk & E & _ & Hmin).
  specialize (Hmin 62 ltac:(lia) ltac:(lia)).
  assert (Hs : sint 64 (nextPowerOf2 (uint 64 n)) = 2 ^ k).
  { rewrite (uint_id 64 n), E by (unfold is_uint; lia). apply sint_id; [lia|].
    pose proof (pow2_pos k). pose proof (Z.pow_le_mono_r 2 k 62). unfold is_sint. simpl Z.sub. lia. }
  pose proof (pow2_pos k ltac:(lia)). pose proof (Z.pow_le_mono_r 2 k 62 ltac:(lia) ltac:(lia)).
  unfold New. fold n. rewrite Hs. split; simpl cfg; simpl shards; simpl total.
  - exists k. rewrite length_replicate. simpl shardMask.
    rewrite uint_id by (unfold is_uint; lia). split; [lia|done].
  - intros i sh [-> _]%lookup_replicate. split; simpl.
    + apply newLRU_wf.
    + intros k'. rewrite lookup_empty. by intros [? [=]].
    + intros k'. rewrite lookup_empty. by intros [? [=]].
    + by rewrite map_size_empty.
  - by rewrite keys_in_replicate.
Qed.

(** The operations that any number of clients and background loops perform,
    with how far the counters are ahead: [Keys] removes expired keys and leaves
    the counters, [Clear] sets them to zero. *)
Definition removedKeys (s s' : MemStorage) (dr : drift) : drift :=
  mkDrift (fun i => df_shard dr i + (Z.of_nat (size (sh_data (shardAt s i))) - Z.of_nat (size (sh_data (shardAt s' i)))))
    (df_total dr + (keys_in (shards s) - keys_in (shards s'))).

Inductive store_step : MemStorage * drift -> MemStorage * drift -> Prop :=
| st_set s dr key item : store_step (s, dr) ((StoreSet poolCap s key item).1, dr)
| st_get s dr key now : store_step (s, dr) ((StoreGet poolCap s key now).1, dr)
| st_getnc s dr key now : store_step (s, dr) ((GetNoCopy poolCap s key now).1, dr)
| st_delete s dr key v : store_step (s, dr) ((StoreDelete s key v).1, dr)
| st_clean s dr now : store_step (s, dr) (cleanExpired s now, dr)
| st_evict s dr : store_step (s, dr) (runAsyncEviction s, dr)
| st_sync s dr now : store_step (s, dr) ((GetSyncBuffer poolCap s now).1, dr)
| st_bget s dr keys now : store_step (s, dr) ((BatchGet poolCap s keys now).1, dr)
| st_bgetnc s dr keys now : store_step (s, dr) ((BatchGetNoCopy poolCap s keys now).1, dr)
| st_bset s dr items : store_step (s, dr) ((BatchSet poolCap s items).1, dr)
| st_keys s dr now : store_step (s, dr) ((Keys s now).1, removedKeys s (Keys s now).1 dr)
| st_clear s dr : store_step (s, dr) (Clear s, noDrift).

(** One shard of [Keys]: the data shrinks, nothing else changes. *)
Lemma drift_keysOfShard dr s now ks i :
  @store_drift _ dr s -> (i < length (shards s))%nat ->
  let s' := (keysOfShard now (s, ks) i).1 in
  @store_drift _ (removedKeys s s' dr) s' /\ length (shards s') = length (shards s).
Proof.
  intros [Hm Hs Ht] Hi s'. unfold keysOfShard in s'. cbn [fst] in s'.
  set (f := shard_data (filter (fun kv : string * compressedItem => itemExpired now kv.2 = false))) in s'.
  assert (Hother : forall j, j <> i -> shardAt s' j = shardAt s j).
  { intros j Hj. unfold shardAt, s'. cbn [on_shard shards]. by rewrite list_lookup_alter_ne. }
  split; [|apply length_on_shard]. split; cbn [s' on_shard cfg shards total].
  - destruct Hm as (k & ? & ? & ?). exists k. by rewrite length_alter.
  - intros j sh Hj. unfold s' in Hj. cbn [on_shard shards] in Hj. rewrite list_lookup_alter in Hj.
    assert (Hsh : shardAt s' j = sh).
    { unfold shardAt, s'. cbn [on_shard shards]. rewrite list_lookup_alter. by rewrite Hj. }
    case_decide as E; [subst j|].
    + rewrite shards_shardAt in Hj by done. injection Hj as <-.
      destruct (Hs i _ (shards_shardAt s i Hi)) as [K1 K2 K3 K4]. split; cbn [f shard_data sh_lru sh_data sh_usage].
      * done.
      * intros k [ci Hk]. apply map_lookup_filter_Some in Hk as [Hk _]. apply K2. by eexists.
      * intros k [ci Hk]. apply map_lookup_filter_Some in Hk as [Hk _]. apply K3. by eexists.
      * rewrite K4. cbn [removedKeys df_shard]. f_equal. rewrite Hsh. cbn [f shard_data sh_data]. lia.
    + destruct (Hs j sh Hj) as [K1 K2 K3 K4]. split; try done. rewrite K4. cbn [removedKeys df_shard]. f_equal.
      rewrite (Hother j) by done. lia.
  - rewrite Ht. cbn [removedKeys df_total]. f_equal. unfold s'. cbn [on_shard shards]. lia.
Qed.

Lemma removedKeys_trans s1 s2 s3 dr : forall i,
  df_shard (removedKeys s2 s3 (removedKeys s1 s2 dr)) i = df_shard (removedKeys s1 s3 dr) i /\
  df_total (removedKeys s2 s3 (removedKeys s1 s2 dr)) = df_total (removedKeys s1 s3 dr).
Proof. intros i. cbn [removedKeys df_shard df_total]. lia. Qed.

Lemma drift_ext dr dr' s :
  (forall i, df_shard dr i = df_shard dr' i) -> df_total dr = df_total dr' -> @store_drift _ dr s -> @store_drift _ dr' s.
Proof.
  intros Hi Ht [K1 K2 K3]. split; [done| |by rewrite <- Ht]. intros i sh Hsh. destruct (K2 i sh Hsh). split; try done.
  by rewrite <- Hi.
Qed.

Lemma drift_Keys dr s now : @store_drift _ dr s -> @store_drift _ (removedKeys s (Keys s now).1 dr) (Keys s now).1.
Proof.
  intros Hw. unfold Keys.
  refine (proj1 (fold_left_inv (fun sk => @store_drift _ (removedKeys s sk.1 dr) sk.1 /\
    length (shards sk.1) = length (shards s)) _ _ (s, []) _ _)).
  - split; [|done]. eapply drift_ext; [..|exact Hw]; [intros i|]; cbn [removedKeys df_shard df_total fst]; lia.
  - intros [s1 ks] i [H1 Hl] Hi%elem_of_seq. cbn [fst] in *.
    destruct (drift_keysOfShard (removedKeys s s1 dr) s1 now ks i H1) as [H2 Hl2]; [lia|].
    split; [|by rewrite Hl2]. eapply drift_ext; [intros j; apply (removedKeys_trans s s1 _ dr j)|apply (removedKeys_trans s s1 _ dr 0)|exact H2].
Qed.

Lemma wf_step x y : @store_drift _ x.2 x.1 -> store_step x y -> @store_drift _ y.2 y.1.
Proof.
  intros Hw Hs. destruct Hs; cbn [fst snd] in *;
    [by apply wf_StoreSet|by apply wf_getWith|by apply wf_getWith|by apply wf_StoreDelete
    |by apply wf_cleanExpired|by apply wf_runAsyncEviction|by apply wf_GetSyncBuffer
    |by apply wf_batchGetWith|by apply wf_batchGetWith|by apply wf_BatchSet|by apply drift_Keys|by eapply wf_Clear].
Qed.
End Reach.

(** C16. The store invariant: in every state reachable from [New] by any
    sequence of operations there are 2^k shards, every stored key sits in the
    shard its hash selects and in that shard's LRU list (so it can be
    evicted), the LRU lists are well formed, and the key counters of the
    shards and of the store equal the number of keys stored plus the number of
    expired keys that calls of [Keys] have removed since the start or the last
    [Clear]; so they are exact as long as [Keys] finds nothing expired. *)
Theorem store_invariant `{XXH3, LZ4} poolCap c g s dr :
  0 <= cf_ShardCount c <= 2 ^ 62 ->
  steps (store_step poolCap) (New c g, noDrift) (s, dr) -> @store_drift _ dr s.
Proof.
  intros Hc Hs. apply (steps_invariant (store_step poolCap) (fun x => @store_drift _ x.2 x.1) (New c g, noDrift) (s, dr)); [|by apply wf_New|done].
  intros x y. apply wf_step.
Qed.

#[local] Existing Instance ToyHash.xxh3.
#[local] Existing Instance RunLength.lz4.
#[local] Existing Instance RunLength.laws.

(** [Keys] removes an expired key: the counter of the store is one ahead. *)
Lemma store_invariant_witness :
  let c := mkConfig 1 2 true 64 85 70 10 true in
  let s := (StoreSet 0 (New c 4) "a" (Some (mkItem 1 5 (Some [x61]) "a"))).1 in
  let s' := (Keys s 9).1 in
  let dr := removedKeys s s' noDrift in
  @store_drift _ dr s' /\ df_total dr = 1 /\ u_keys (total s') = 1.
Proof.
  intros c s s' dr. split; [|vm_compute; split; reflexivity]. eapply (store_invariant 0 c 4).
  - simpl; lia.
  - eapply steps_cons; [apply (st_set 0 _ noDrift "a")|]. eapply steps_one. apply st_keys.
Defined.

(** * Contents *)

(** Stores with the same settings and the same stored items: LRU order,
    counters and pending replication operations are ignored. *)
Definition same_data (s s' : MemStorage) : Prop :=
  cfg s = cfg s' /\ length (shards s) = length (shards s') /\
  forall j, sh_data (shardAt s j) = sh_data (shardAt s' j).

Infix "≈" := same_data (at level 70).

#[export] Instance same_data_equiv : Equivalence same_data.
Proof.
  split.
  - by intros s.
  - intros s s' (? & ? & ?). by repeat split.
  - intros s1 s2 s3 (E1 & E2 & E3) (F1 & F2 & F3). split; [congruence|]. split; [congruence|].
    intros. by rewrite E3.
Qed.

#[export] Instance shard_data_proper i f : Proper (same_data ==> same_data) (on_shard i (shard_data f)).
Proof.
  intros s s' (Hc & Hl & Hd). split; [done|]. rewrite !length_on_shard. split; [done|].
  intros j. rewrite !shardAt_on_shard, Hl. case_decide; simpl; by rewrite Hd.
Qed.

Lemma keep_data i f s : (forall sh, sh_data (f sh) = sh_data sh) -> on_shard i f s ≈ s.
Proof.
  intros Hf. split; [done|]. split; [apply length_on_shard|].
  intros j. rewrite shardAt_on_shard. case_decide; by rewrite ?Hf.
Qed.

Lemma touch_data i k s : storeTouchLRU i k s ≈ s.
Proof. by apply keep_data. Qed.
Lemma unlru_data i k s : storeRemoveFromLRU i k s ≈ s.
Proof. by apply keep_data. Qed.
Lemma queue_data i k t it s : storeAddToSyncBuffer i k t it s ≈ s.
Proof. by apply keep_data. Qed.
Lemma access_data f s : on_access f s ≈ s.
Proof. done. Qed.
Lemma usage_data i dk db dc d_o s : addUsage i dk db dc d_o s ≈ s.
Proof.
  unfold addUsage. transitivity (on_shard i (shard_usage (fun u => usage_add u dk db dc d_o)) s).
  - done.
  - by apply keep_data.
Qed.
Lemma drop_data i k ci s : dropUsage i k ci s ≈ s.
Proof. apply usage_data. Qed.

(** Strips every change that leaves the data alone. *)
Ltac strip_data :=
  unfold updateStatsForNewKey, updateStatsForExistingKey;
  repeat first [rewrite touch_data | rewrite unlru_data | rewrite queue_data | rewrite drop_data
               | rewrite usage_data | rewrite access_data].

Section Contents.
Context `{XXH3, LZ4} (poolCap : Z).

Definition contents (s : MemStorage) (k : string) : option compressedItem :=
  sh_data (getShard s k) !! k.

#[export] Instance contents_proper : Proper (same_data ==> (=) ==> (=)) contents.
Proof.
  intros s s' (Hc & _ & Hd) k _ <-. unfold contents, getShard.
  by rewrite (shardIndex_cfg s s') by done; rewrite Hd.
Qed.

Lemma contents_insert s k ci k' :
  store_wf s ->
  contents (on_shard (shardIndex s k) (shard_data (<[k := ci]>)) s) k' =
  if decide (k' = k) then Some ci else contents s k'.
Proof.
  intros Hw. unfold contents, getShard, shardIndex at 2. simpl. fold (shardIndex s k').
  destruct (decide (k' = k)) as [->|Hne].
  - rewrite shardAt_on_shard_eq by by eapply shardIndex_lt. simpl. apply lookup_insert_eq.
  - destruct (decide (shardIndex s k = shardIndex s k')) as [->|].
    + rewrite shardAt_on_shard_eq by by eapply shardIndex_lt. simpl. by apply lookup_insert_ne.
    + by rewrite shardAt_on_shard_ne.
Qed.

(** A key is stored in the shard of its hash only. *)
Lemma contents_delete s i k k' ci :
  store_wf s -> (i < length (shards s))%nat -> sh_data (shardAt s i) !! k = Some ci ->
  contents (on_shard i (shard_data (delete k)) s) k' =
  if decide (k' = k) then None else contents s k'.
Proof.
  intros Hw Hi Hk. pose proof (ok_place _ _ _ (shardAt_ok s i Hw Hi) k ltac:(eauto)) as Hp.
  fold (shardIndex s k) in Hp. subst i. unfold contents, getShard, shardIndex at 2. simpl.
  fold (shardIndex s k').
  destruct (decide (k' = k)) as [->|Hne].
  - rewrite shardAt_on_shard_eq by done. simpl. apply lookup_delete_eq.
  - destruct (decide (shardIndex s k = shardIndex s k')) as [->|].
    + rewrite shardAt_on_shard_eq by by eapply shardIndex_lt. simpl. by apply lookup_delete_ne.
    + by rewrite shardAt_on_shard_ne.
Qed.

(** Eviction only removes. *)
Definition shrinks (s s' : MemStorage) : Prop :=
  forall k, contents s' k = contents s k \/ contents s' k = None.

Lemma shrinks_trans s1 s2 s3 : shrinks s1 s2 -> shrinks s2 s3 -> shrinks s1 s3.
Proof. intros A B k. destruct (B k) as [->|]; [apply A|by right]. Qed.

Lemma shrinks_data s s' : s' ≈ s -> shrinks s s'.
Proof. intros E k. left. by rewrite E. Qed.

Lemma shrinks_evict_loop fuel i b e s :
  store_wf s -> (i < length (shards s))%nat -> shrinks s (evict_loop fuel i b e s).1.
Proof.
  revert e s. induction fuel as [|fuel IH]; intros e s Hw Hi; [by intros k; left|].
  pose proof (wf_evict_loop 1 i b e s Hw Hi) as Hone. cbn [evict_loop] in *.
  case_match; [|by intros k; left]. destruct (popOldest _) as [[key lru]|]; [|by intros k; left].
  assert (E : on_shard i (shard_lru (fun _ => lru)) s ≈ s) by by apply keep_data.
  rewrite (proj2 (proj2 E)) in *. destruct (sh_data (shardAt s i) !! key) as [ci|] eqn:Hk.
  - eapply shrinks_trans; [|apply IH; [done|]].
    + intros k. strip_data. rewrite E. rewrite (contents_delete _ _ _ _ ci) by done.
      case_decide; auto.
    + unfold dropUsage, addUsage. simpl. by rewrite !length_alter.
  - eapply shrinks_trans; [by apply shrinks_data|apply IH; [done|by rewrite length_on_shard]].
Qed.

Lemma shrinks_evictBatchLRU s b : store_wf s -> shrinks s (evictBatchLRU s b).1.
Proof.
  intros Hw. unfold evictBatchLRU. cbv zeta.
  match goal with |- shrinks _ (evict_loop ?f ?i ?b ?e ?s').1 =>
    apply (shrinks_evict_loop f i b e s') end.
  - by destruct Hw.
  - exact (masked_index_lt s _ Hw).
Qed.

Lemma shrinks_evict_until fuel limit e x t s :
  store_wf s -> shrinks s (evict_until fuel limit e x t s).
Proof.
  revert e s. induction fuel as [|fuel IH]; intros e s Hw; [by intros k; left|]. cbn [evict_until].
  case_match; [|by intros k; left].
  pose proof (wf_evictBatchLRU s (evictBatchSize (cfg s)) Hw) as He.
  pose proof (shrinks_evictBatchLRU s (evictBatchSize (cfg s)) Hw) as Hs.
  destruct (evictBatchLRU s _) as [s' n]. case_match; [done|].
  eapply shrinks_trans; [done|by apply IH].
Qed.

Lemma shrinks_reserve s n : store_wf s -> shrinks s (reserve s n).1.
Proof.
  intros Hw. unfold reserve, checkAndEvict.
  repeat (case_match; try by intros k; left).
  - pose proof (shrinks_evictBatchLRU s 5 Hw) as Hs. by destruct (evictBatchLRU s 5); simplify_eq.
  - pose proof (shrinks_evictBatchLRU s 5 Hw) as Hs. by destruct (evictBatchLRU s 5); simplify_eq.
  - by apply shrinks_evict_until.
  - by apply shrinks_evict_until.
Qed.
End Contents.

(** * Set, Get, Delete *)

(** The specification of a write: the higher version stays. *)
Module VersionedMap.
Definition put (m : string -> option compressedItem) (key : string) (ci : compressedItem)
    (k : string) : option compressedItem :=
  if decide (k = key) then
    match m key with
    | Some old => if ci_Version ci <=? ci_Version old then Some old else Some ci
    | None => Some ci
    end
  else m k.
End VersionedMap.

Section SetGet.
Context `{XXH3, LZ4} (poolCap : Z).

Lemma contents_store_round s key ci n item s' :
  store_wf s -> storeItemWithConflictResolution 1 (shardIndex s key) key ci n item s = Some s' ->
  forall k, contents s' k = VersionedMap.put (contents s) key ci k.
Proof.
  intros Hw E k. destruct (store_round s (shardIndex s key) key ci n item) as (s0 & E0 & ->).
  simplify_eq. unfold VersionedMap.put.
  change (sh_data (shardAt s (shardIndex s key)) !! key) with (contents s key).
  destruct (contents s key) as [old|] eqn:Hk.
  - destruct (ci_Version ci <=? ci_Version old).
    + strip_data. case_decide; [by subst|done].
    + strip_data. rewrite contents_insert by done. by case_decide.
  - strip_data. rewrite contents_insert by done. by case_decide.
Qed.

(** The memory check is skipped while usage stays under the threshold. *)
Definition fits (s : MemStorage) (n : Z) : Prop :=
  add64 (u_bytes (total s)) n <= percent s (evictThreshold (cfg s)).

Lemma reserve_fits s n : fits s n -> reserve s n = (s, None).
Proof.
  unfold fits, reserve, checkAndEvict. intros Hf. case_match; [|done].
  by rewrite (proj2 (Z.leb_le _ _) Hf).
Qed.

Lemma reserve_error s n e : (reserve s n).2 = Some e -> e = ErrMemoryLimit.
Proof.
  unfold reserve, checkAndEvict. destruct (evictBatchLRU s 5) as [s1 m].
  generalize (evict_until 200 200 0 n (percent s (evictTarget (cfg s))) s). intros s2.
  cbv zeta. repeat case_match; by intros [= <-].
Qed.

Lemma StoreSet_eq s key item :
  store_wf s -> key <> ""%string ->
  StoreSet poolCap s key (Some item) =
  let '(ci, n) := prepareCompressedItem poolCap s key item in
  let '(s1, err) := reserve s n in
  match err with
  | Some e => (s1, Some e)
  | None => (default s1 (storeItemWithConflictResolution 1 (shardIndex s1 key) key ci n item s1), None)
  end.
Proof.
  intros Hw Hk. unfold StoreSet. rewrite bool_decide_eq_false_2 by done.
  destruct (prepareCompressedItem poolCap s key item) as [ci n]. fold (reserve s n).
  pose proof (wf_reserve s n Hw) as [_ Hc]. destruct (reserve s n) as [s1 [e|]]; [done|].
  rewrite (shardIndex_cfg s1 s) by done.
  by destruct (store_round s1 (shardIndex s key) key ci n item) as (s2 & -> & _).
Qed.
End SetGet.

(** [Set] as an update of the contents, after an eviction. *)
Lemma StoreSet_contents `{XXH3, LZ4} poolCap s key item :
  store_wf s -> key <> ""%string ->
  let r := StoreSet poolCap s key (Some item) in
  let ci := prepareCompressedItem poolCap s key item in
  exists s1, shrinks s s1 /\ (fits s ci.2 -> r.2 = None /\ forall k, contents s1 k = contents s k) /\
    match r.2 with
    | None => forall k, contents r.1 k = VersionedMap.put (contents s1) key ci.1 k
    | Some e => e = ErrMemoryLimit /\ forall k, contents r.1 k = contents s1 k
    end.
Proof.
  intros Hw Hk. cbv zeta. rewrite StoreSet_eq by done.
  destruct (prepareCompressedItem poolCap s key item) as [ci n]. cbn [fst snd].
  pose proof (shrinks_reserve s n Hw) as Hs. pose proof (reserve_fits s n) as Hf.
  pose proof (reserve_error s n) as Hr. pose proof (wf_reserve s n Hw) as [Hw1 _].
  destruct (reserve s n) as [s1 err].
  assert (Hfit : fits s n -> err = None /\ forall k, contents s1 k = contents s k).
  { intros F. specialize (Hf F). by simplify_eq. }
  destruct err as [e|]; [by exists s1; split; [|split; [|split; [apply Hr|]]]|].
  destruct (store_round s1 (shardIndex s1 key) key ci n item) as (s2 & E & _). rewrite E.
  exists s1. split; [done|]. split; [done|]. cbn [fst snd default]. by eapply contents_store_round.
Qed.

(** C1. [Set] refines a versioned map.  It either returns the memory-limit
    error or succeeds (the retry loop ends); before the write it may evict
    keys, and nothing is evicted while usage stays under the threshold; a
    success leaves exactly the map in which the key holds the higher of its
    two versions (an equal version does not overwrite) and every other key is
    as the eviction left it; an error stores nothing. *)
Theorem StoreSet_refines_map `{XXH3, LZ4} poolCap s key item :
  store_wf s -> key <> ""%string ->
  let '(s', err) := StoreSet poolCap s key (Some item) in
  let '(ci, n) := prepareCompressedItem poolCap s key item in
  exists s1, shrinks s s1 /\ (fits s n -> err = None /\ forall k, contents s1 k = contents s k) /\
    match err with
    | None => forall k, contents s' k = VersionedMap.put (contents s1) key ci k
    | Some e => e = ErrMemoryLimit /\ forall k, contents s' k = contents s1 k
    end.
Proof.
  intros Hw Hk. pose proof (StoreSet_contents poolCap s key item Hw Hk) as K. cbv zeta in K.
  destruct (StoreSet poolCap s key (Some item)) as [s' err].
  by destruct (prepareCompressedItem poolCap s key item).
Qed.

Definition demoStore : MemStorage := New (mkConfig 1 2 true 64 85 70 10 true) 4.
Definition demoItem : StoredItem := mkItem 7 zeroTime (Some (replicate 100 x61)) "a".

Lemma demoStore_wf : store_wf demoStore.
Proof. apply wf_New. simpl. lia. Qed.

Lemma StoreSet_refines_map_witness :
  exists s1, shrinks demoStore s1 /\
    contents (StoreSet 0 demoStore "a" (Some demoItem)).1 "a" =
    VersionedMap.put (contents s1) "a" (prepareCompressedItem 0 demoStore "a" demoItem).1 "a".
Proof.
  pose proof (StoreSet_refines_map 0 demoStore "a" demoItem demoStore_wf ltac:(discriminate)) as K.
  assert (F : fits demoStore (prepareCompressedItem 0 demoStore "a" demoItem).2)
    by (vm_compute; discriminate).
  destruct (StoreSet 0 demoStore "a" (Some demoItem)) as [s' err].
  destruct (prepareCompressedItem 0 demoStore "a" demoItem) as [ci n].
  destruct K as (s1 & K1 & K2 & K3). exists s1. split; [done|].
  destruct (K2 F) as [-> _]. apply K3.
Defined.

Section RoundTrip.
Context `{XXH3, LZ4, !LZ4Laws} (poolCap : Z).

(** The read paths' test. *)
Definition expired_at (now e : Z) : bool := negb (IsZero e) && (UnixNano e <? UnixNano now).

(** What a stored item decodes to. *)
Definition ci_decode (ci : compressedItem) : storageErr + slice :=
  if ci_Compressed ci then decompressValue poolCap ci else inr (ci_Value ci).

Lemma getWith_present clone s key now ci :
  key <> ""%string -> (forall v, clone v = v) -> contents s key = Some ci ->
  expired_at now (ci_ExpireAt ci) = false ->
  (getWith poolCap clone s key now).2 =
  match ci_decode ci with
  | inl e => inl e
  | inr v => inr (mkItem (ci_Version ci) (ci_ExpireAt ci) v "")
  end.
Proof.
  intros Hk Hcl Hc He. unfold getWith, ci_decode. rewrite bool_decide_eq_false_2 by done.
  change (sh_data (shardAt (on_access count_get s) (shardIndex (on_access count_get s) key)) !! key)
    with (contents s key). rewrite Hc. unfold expired_at in He. rewrite He.
  destruct (ci_Compressed ci); [by destruct (decompressValue poolCap ci)|]. simpl. by rewrite Hcl.
Qed.

Lemma prepared_meta s key item ci n :
  prepareCompressedItem poolCap s key item = (ci, n) ->
  ci_Version ci = si_Version item /\ ci_ExpireAt ci = si_ExpireAt item /\
  n = calculateItemSize key (ci_Value ci) /\ ci_OrigSize ci = slice_len (si_Value item).
Proof.
  unfold prepareCompressedItem. destruct (if _ && _ then compress poolCap s _ else _) as [v b].
  by intros [= <- <-].
Qed.

Lemma prepared_cfg s s' key item :
  cfg s = cfg s' -> prepareCompressedItem poolCap s key item = prepareCompressedItem poolCap s' key item.
Proof. intros E. unfold prepareCompressedItem, compress. by rewrite E. Qed.

(** Storing and reading a value gives it back, compressed or not. *)
Lemma ci_decode_prepared s key item ci n :
  poolCap <= maxPooled -> slice_len (si_Value item) <= maxAlloc ->
  prepareCompressedItem poolCap s key item = (ci, n) -> ci_decode ci = inr (si_Value item).
Proof.
  intros Hp Hl. unfold prepareCompressedItem, ci_decode.
  destruct (compressionEnabled (cfg s) && _); [|by intros [= <- <-]].
  unfold compress. destruct (Compress (si_Value item) _ poolCap) as [v [|]] eqn:E; intros [= <- <-].
  - simpl. pose proof (Compress_true _ _ _ _ E) as (out & m & -> & Hne & HC & Hlt).
    unfold decompressValue. cbn [ci_Compressed ci_Value ci_OrigSize negb slice_bytes default].
    erewrite (DecompressTo_Compress (si_Value item)); [|done|exact E| |done].
    + destruct (si_Value item) as [v|]; [done|]. unfold blen in Hlt. simpl in Hlt. lia.
    + fold (slice_len (si_Value item)). unfold slice_len, blen in *.
      rewrite (proj2 (Z.leb_gt _ 0)) by lia. arith_cases; lia.
  - simpl. by apply Compress_false in E as ->.
Qed.
End RoundTrip.

(** C17. Set then Get: a value of at most 8 MiB written under a key that is
    absent or holds an older version is read back unchanged, with its version
    and expiration, whether or not it was compressed, as long as [Set]
    succeeded and the item has not expired. *)
Theorem set_get `{XXH3, LZ4, !LZ4Laws} poolCap s s' key item now :
  store_wf s -> key <> ""%string -> poolCap <= maxPooled ->
  slice_len (si_Value item) <= maxAlloc ->
  (forall old, contents s key = Some old -> ci_Version old < si_Version item) ->
  expired_at now (si_ExpireAt item) = false ->
  StoreSet poolCap s key (Some item) = (s', None) ->
  (StoreGet poolCap s' key now).2 =
    inr (mkItem (si_Version item) (si_ExpireAt item) (si_Value item) "").
Proof.
  intros Hw Hk Hp Hl Hold He. rewrite StoreSet_eq by done.
  destruct (prepareCompressedItem poolCap s key item) as [ci n] eqn:E.
  pose proof (prepared_meta poolCap s key item ci n E) as (HV & HE & _ & _).
  pose proof (shrinks_reserve s n Hw key) as Hs. pose proof (wf_reserve s n Hw) as [Hw1 _].
  destruct (reserve s n) as [s1 [e|]]; [done|]. cbn [fst] in *.
  destruct (store_round s1 (shardIndex s1 key) key ci n item) as (s2 & E2 & _). rewrite E2.
  intros [= <-]. assert (Hc : contents s2 key = Some ci).
  { rewrite (contents_store_round _ _ _ _ _ _ Hw1 E2). unfold VersionedMap.put.
    rewrite decide_True by done. destruct (contents s1 key) as [old|] eqn:Ho; [|done].
    destruct Hs as [Hs|]; [|done]. symmetry in Hs. apply Hold in Hs.
    by rewrite (proj2 (Z.leb_gt _ _)) by lia. }
  unfold StoreGet. erewrite getWith_present; [|done|apply FastCloneBytes_id|exact Hc|by rewrite HE].
  erewrite ci_decode_prepared by done. by rewrite HV, HE.
Qed.

Lemma set_get_witness :
  (StoreGet 0 (StoreSet 0 demoStore "a" (Some demoItem)).1 "a" 5).2 =
  inr (mkItem 7 zeroTime (Some (replicate 100 x61)) "").
Proof.
  apply (set_get 0 demoStore _ "a" demoItem 5); [apply demoStore_wf|done|by vm_compute..| |done|].
  - by vm_compute.
  - assert (F : (StoreSet 0 demoStore "a" (Some demoItem)).2 = None) by by vm_compute.
    by destruct (StoreSet 0 demoStore "a" (Some demoItem)); simplify_eq/=.
Defined.

(** * Byte accounting *)

Definition bytes_of (m : gmap string compressedItem) : Z :=
  map_fold (fun k ci a => calculateItemSize k (ci_Value ci) + a) 0 m.

Definition stored_bytes (l : list storageShard) : Z :=
  foldr (fun sh a => bytes_of (sh_data sh) + a) 0 l.

Lemma bytes_of_insert m k ci :
  m !! k = None -> bytes_of (<[k := ci]> m) = bytes_of m + calculateItemSize k (ci_Value ci).
Proof.
  intros Hk. unfold bytes_of. rewrite map_fold_insert_L; [lia| |done].
  intros. lia.
Qed.

Lemma bytes_of_delete m k ci :
  m !! k = Some ci -> bytes_of (delete k m) = bytes_of m - calculateItemSize k (ci_Value ci).
Proof.
  intros Hk. rewrite <- (insert_delete_id m k ci Hk) at 2.
  rewrite bytes_of_insert by apply lookup_delete_eq. lia.
Qed.

Lemma bytes_of_update m k ci ci' :
  m !! k = Some ci -> bytes_of (<[k := ci']> m) =
  bytes_of m + calculateItemSize k (ci_Value ci') - calculateItemSize k (ci_Value ci).
Proof.
  intros Hk. rewrite <- insert_delete_eq, bytes_of_insert by apply lookup_delete_eq.
  rewrite (bytes_of_delete m k ci) by done. lia.
Qed.

Lemma stored_bytes_alter l i f sh :
  l !! i = Some sh ->
  stored_bytes (alter f i l) = stored_bytes l + bytes_of (sh_data (f sh)) - bytes_of (sh_data sh).
Proof.
  revert i. induction l as [|x l IH]; intros [|i] E; simplify_eq/=.
  - unfold stored_bytes. simpl. lia.
  - specialize (IH i E). unfold stored_bytes in *. cbn [foldr]. simpl in IH |- *. lia.
Qed.

(** [totalBytes] is the size of what is stored plus [d], modulo 2^64. *)
Definition accounts (s : MemStorage) (d : Z) : Prop :=
  u_bytes (total s) = sint 64 (stored_bytes (shards s) + d).

Lemma accounts_update s i F t d db delta d' :
  accounts s d -> (i < length (shards s))%nat ->
  bytes_of (sh_data (F (shardAt s i))) = bytes_of (sh_data (shardAt s i)) + delta ->
  u_bytes (t (total s)) = add64 (u_bytes (total s)) db ->
  d' = d + db - delta ->
  accounts (on_total t (on_shard i F s)) d'.
Proof.
  unfold accounts. intros Ha Hi HF Ht ->. simpl.
  rewrite Ht, Ha, add64_sint, (stored_bytes_alter _ _ _ (shardAt s i)) by by apply shards_shardAt.
  rewrite HF. f_equal. lia.
Qed.

Lemma accounts_keep s i F d :
  accounts s d -> (forall sh, sh_data (F sh) = sh_data sh) -> accounts (on_shard i F s) d.
Proof.
  unfold accounts. intros Ha HF. simpl. rewrite Ha. f_equal. f_equal.
  destruct (decide (i < length (shards s))%nat) as [Hi|].
  - rewrite (stored_bytes_alter _ _ _ (shardAt s i)) by by apply shards_shardAt. rewrite HF. lia.
  - rewrite (list_alter_ext F id _ (shards s)), list_alter_id; [done|done| |done].
    intros sh Hsh%lookup_lt_Some. lia.
Qed.

Section Accounting.
Context `{XXH3, LZ4} (poolCap : Z).

Lemma accounts_access s f d : accounts s d -> accounts (on_access f s) d.
Proof. done. Qed.

(** A change of the data with a change of the counters: what the drift is. *)
Lemma accounts_data s i f d dk db dc d_o delta d' :
  accounts s d -> (i < length (shards s))%nat ->
  bytes_of (f (sh_data (shardAt s i))) = bytes_of (sh_data (shardAt s i)) + delta ->
  d' = d + db - delta ->
  accounts (addUsage i dk db dc d_o (on_shard i (shard_data f) s)) d'.
Proof.
  intros Ha Hi Hf ->. unfold addUsage. rewrite on_shard_compose.
  eapply (accounts_update s i _ _ d db delta); [done|done|exact Hf|done|done].
Qed.

Lemma accounts_drop s i key ci d :
  accounts s d -> (i < length (shards s))%nat -> sh_data (shardAt s i) !! key = Some ci ->
  accounts (dropUsage i key ci (on_shard i (shard_data (delete key)) s)) d.
Proof.
  intros Ha Hi Hk. unfold dropUsage. eapply accounts_data; [done|done| |].
  - rewrite (bytes_of_delete _ _ ci) by done.
    instantiate (1 := - calculateItemSize key (ci_Value ci)). lia.
  - lia.
Qed.

Lemma accounts_evict_loop fuel i b e s d :
  accounts s d -> (i < length (shards s))%nat -> accounts (evict_loop fuel i b e s).1 d.
Proof.
  revert e s. induction fuel as [|fuel IH]; intros e s Ha Hi; [done|]. cbn [evict_loop].
  case_match; [|done]. destruct (popOldest _) as [[key lru]|]; [|done].
  assert (Ha1 : accounts (on_shard i (shard_lru (fun _ => lru)) s) d) by by apply accounts_keep.
  assert (Hi1 : (i < length (shards (on_shard i (shard_lru (fun _ => lru)) s)))%nat)
    by by rewrite length_on_shard.
  destruct (sh_data (shardAt _ i) !! key) as [ci|] eqn:E; [|by apply IH].
  apply IH; [apply accounts_access, accounts_drop; done|].
  unfold dropUsage, addUsage. simpl. by rewrite !length_alter.
Qed.

Lemma accounts_store_round s key ci n item s' d :
  store_wf s -> accounts s d -> n = calculateItemSize key (ci_Value ci) ->
  storeItemWithConflictResolution 1 (shardIndex s key) key ci n item s = Some s' ->
  accounts s' (match contents s key with
               | Some old => if ci_Version ci <=? ci_Version old then d else d + str_len key
               | None => d
               end).
Proof.
  intros Hw Ha Hn E. destruct (store_round s (shardIndex s key) key ci n item) as (s0 & E0 & ->).
  simplify_eq. pose proof (shardIndex_lt s key Hw) as Hi.
  change (sh_data (shardAt s (shardIndex s key)) !! key) with (contents s key).
  destruct (contents s key) as [old|] eqn:Hk; unfold contents, getShard in Hk.
  - destruct (ci_Version ci <=? ci_Version old); [by apply accounts_access|].
    do 2 (apply accounts_keep; [|done]). apply accounts_access.
    eapply accounts_data; [done|done|rewrite (bytes_of_update _ _ old) by done; symmetry; apply Z.add_sub_assoc|].
    unfold calculateItemSize. change (str_len "") with 0. lia.
  - do 2 (apply accounts_keep; [|done]). apply accounts_access.
    eapply accounts_data; [done|done|by rewrite bytes_of_insert by done|]. lia.
Qed.
End Accounting.

(** What [totalBytes] measures.  With [d] the difference between the
    counter and the size of the stored items: a [Set] of a new key, a
    [Delete] and an eviction keep it; a [Set] that replaces an older version
    adds the length of the key (the old size is computed for an empty key);
    a read that finds the key expired adds the item's whole size (only the
    key counter is decremented).  The counter is exact until a key is updated
    or expires on read, and only ever grows away from the truth. *)
Theorem byte_accounting `{XXH3, LZ4} poolCap s key item now v b d :
  store_wf s -> accounts s d -> key <> ""%string ->
  let '(ci, n) := prepareCompressedItem poolCap s key item in
  (fits s n ->
   accounts (StoreSet poolCap s key (Some item)).1
     (match contents s key with
      | Some old => if ci_Version ci <=? ci_Version old then d else d + str_len key
      | None => d
      end)) /\
  accounts (StoreDelete s key v).1 d /\
  accounts (evictBatchLRU s b).1 d /\
  accounts (StoreGet poolCap s key now).1
    (match contents s key with
     | Some old => if expired_at now (ci_ExpireAt old) then d + calculateItemSize key (ci_Value old) else d
     | None => d
     end).
Proof.
  intros Hw Ha Hk. destruct (prepareCompressedItem poolCap s key item) as [ci n] eqn:E.
  pose proof (prepared_meta poolCap s key item ci n E) as (_ & _ & Hn & _).
  pose proof (shardIndex_lt s key Hw) as Hi.
  split; [|split; [|split]].
  - intros F. rewrite StoreSet_eq, E by done. rewrite (reserve_fits s n F).
    destruct (store_round s (shardIndex s key) key ci n item) as (s2 & E2 & _). rewrite E2.
    by eapply accounts_store_round.
  - unfold StoreDelete. rewrite bool_decide_eq_false_2 by done.
    destruct (sh_data _ !! key) as [old|] eqn:Ho; [|done]. case_match; [done|].
    do 2 (apply accounts_keep; [|done]). by apply accounts_drop.
  - unfold evictBatchLRU. cbv zeta. apply accounts_evict_loop; [done|exact (masked_index_lt s _ Hw)].
  - unfold StoreGet, getWith. rewrite bool_decide_eq_false_2 by done.
    change (sh_data (shardAt (on_access count_get s) (shardIndex (on_access count_get s) key)) !! key)
      with (contents s key).
    destruct (contents s key) as [old|] eqn:Ho; [|done]. unfold contents, getShard in Ho.
    unfold expired_at. case_match.
    + apply accounts_keep; [|done]. eapply accounts_data; [done|done| |].
      * simpl. rewrite (bytes_of_delete _ _ old) by done.
        instantiate (1 := - calculateItemSize key (ci_Value old)). lia.
      * lia.
    + repeat case_match; by apply accounts_keep.
Qed.

Lemma byte_accounting_witness :
  accounts (StoreSet 0 (StoreSet 0 demoStore "a" (Some demoItem)).1 "a"
              (Some (mkItem 8 zeroTime (Some [x61]) "a"))).1 1.
Proof.
  assert (W : store_wf (StoreSet 0 demoStore "a" (Some demoItem)).1)
    by apply wf_StoreSet, demoStore_wf.
  assert (A : accounts (StoreSet 0 demoStore "a" (Some demoItem)).1 0) by by vm_compute.
  pose proof (byte_accounting 0 _ "a" (mkItem 8 zeroTime (Some [x61]) "a") 0 0 0 0 W A
    ltac:(discriminate)) as K.
  assert (E : prepareCompressedItem 0 (StoreSet 0 demoStore "a" (Some demoItem)).1 "a"
      (mkItem 8 zeroTime (Some [x61]) "a") = (mkCItem 8 zeroTime (Some [x61]) false 1, 178))
    by (vm_compute; reflexivity).
  rewrite E in K. destruct K as [K _]. refine (K _). vm_compute. discriminate.
Defined.

(** * Eviction order *)

Lemma popOldest_last lru key lru' :
  lru_wf lru -> popOldest lru = Some (key, lru') ->
  lru_wf lru' /\ lru_keys lru = lru_keys lru' ++ [key] /\ key ∉ lru_keys lru'.
Proof.
  intros Hw E. pose proof (popOldest_spec lru Hw) as P. rewrite E in P.
  destruct P as (Hw' & Hl & HK). split; [done|].
  apply last_Some in Hl as [l Hl]. pose proof (wf_keys _ Hw) as Hnd. rewrite Hl in *.
  apply NoDup_app in Hnd as (_ & Hnd & _). unfold Recency.remove in HK.
  assert (Hkl : key ∉ l) by (intros Hin; by apply (Hnd key Hin), list_elem_of_singleton).
  rewrite filter_app, filter_cons_False, filter_nil, app_nil_r in HK by naive_solver.
  rewrite HK. fold (Recency.remove key l). by rewrite remove_absent.
Qed.

(** How many of the keys [ks] are stored. *)
Fixpoint present (m : gmap string compressedItem) (ks : list string) : Z :=
  match ks with
  | [] => 0
  | k :: ks => (if m !! k is Some _ then 1 else 0) + present m ks
  end.

Lemma present_app m ks ks' : present m (ks ++ ks') = present m ks + present m ks'.
Proof. induction ks as [|k ks IH]; [done|]. cbn [present app]. lia. Qed.

Lemma present_delete m k ks : k ∉ ks -> present (delete k m) ks = present m ks.
Proof.
  induction ks as [|k' ks IH]; [done|]. intros [Hne Hk]%not_elem_of_cons. cbn [present].
  by rewrite IH, lookup_delete_ne by done.
Qed.

(** What one run of the eviction loop on shard [i] does, from [e] evictions
    up to the batch [b]. *)
Definition evicts_oldest (i : nat) (b e : Z) (s s' : MemStorage) (n : Z) : Prop :=
  exists victims,
    lru_keys (sh_lru (shardAt s i)) = lru_keys (sh_lru (shardAt s' i)) ++ victims /\
    (forall k, sh_data (shardAt s' i) !! k =
       if decide (k ∈ victims) then None else sh_data (shardAt s i) !! k) /\
    (forall j, j <> i -> shardAt s' j = shardAt s j) /\
    n = e + present (sh_data (shardAt s i)) victims /\
    n <= b /\ (n = b \/ lru_keys (sh_lru (shardAt s' i)) = []).

Lemma evicts_none i b e s :
  e <= b -> e = b \/ lru_keys (sh_lru (shardAt s i)) = [] -> evicts_oldest i b e s s e.
Proof.
  intros Hle Hb. exists []. rewrite app_nil_r. split; [done|]. split; [done|]. split; [done|].
  cbn [present]. split; [lia|]. done.
Qed.

(** One more victim before a run. *)
Lemma evicts_more i b e e1 s s1 s' n key lru :
  lru_keys (sh_lru (shardAt s i)) = lru_keys lru ++ [key] -> key ∉ lru_keys lru ->
  sh_lru (shardAt s1 i) = lru ->
  sh_data (shardAt s1 i) = delete key (sh_data (shardAt s i)) ->
  (forall j, j <> i -> shardAt s1 j = shardAt s j) ->
  e1 = e + (if sh_data (shardAt s i) !! key is Some _ then 1 else 0) ->
  evicts_oldest i b e1 s1 s' n -> evicts_oldest i b e s s' n.
Proof.
  intros HK Hn Hl Hd Hj -> (vs & V1 & V2 & V3 & V4 & V5). exists (vs ++ [key]).
  rewrite Hl in V1. assert (Hv : key ∉ vs).
  { intros Hin. apply Hn. rewrite V1. apply elem_of_app. by right. }
  split; [by rewrite app_assoc, <- V1|]. split; [|split; [|split]].
  - intros k. rewrite V2, Hd. destruct (decide (k = key)) as [->|Hne].
    + rewrite lookup_delete_eq, decide_False, decide_True; [done|set_solver|done].
    + rewrite lookup_delete_ne by done. repeat case_decide; set_solver.
  - intros j Hne. by rewrite V3, Hj.
  - rewrite V4, Hd, present_delete, present_app by done. cbn [present]. lia.
  - done.
Qed.

(** The shards of a store after counters were updated. *)
Ltac norm_shard :=
  unfold dropUsage, addUsage; rewrite !on_shard_compose;
  repeat match goal with
  | |- context [shardAt (on_access ?a ?x)] => change (shardAt (on_access a x)) with (shardAt x)
  | |- context [shardAt (on_total ?a ?x)] => change (shardAt (on_total a x)) with (shardAt x)
  end.

Section EvictOrder.
Context `{XXH3, LZ4}.

Lemma evict_loop_oldest fuel i b e s :
  store_wf s -> (i < length (shards s))%nat -> e <= b ->
  (length (lru_keys (sh_lru (shardAt s i))) < fuel)%nat ->
  evicts_oldest i b e s (evict_loop fuel i b e s).1 (evict_loop fuel i b e s).2.
Proof.
  revert e s. induction fuel as [|fuel IH]; intros e s Hw Hi He Hf; [lia|].
  pose proof (wf_evict_loop 1 i b e s Hw Hi) as Hone. cbn [evict_loop] in *.
  destruct (Z.ltb_spec e b); [|apply (evicts_none i b e s); [lia|left; lia]].
  destruct (popOldest (sh_lru (shardAt s i))) as [[key lru]|] eqn:E.
  2:{ apply (evicts_none i b e s); [lia|]. right.
      pose proof (popOldest_spec _ (ok_lru _ _ _ (shardAt_ok s i Hw Hi))) as P. by rewrite E in P. }
  destruct (popOldest_last _ _ _ (ok_lru _ _ _ (shardAt_ok s i Hw Hi)) E) as (Hl & HK & Hn).
  rewrite HK, length_app in Hf. simpl in Hf.
  rewrite shardAt_on_shard_eq in * by done. cbn [shard_lru sh_data] in *.
  destruct (sh_data (shardAt s i) !! key) as [ci|] eqn:Hk.
  - eapply (evicts_more i b e (e + 1) s); [exact HK|done| | | |by rewrite Hk|apply IH].
    + norm_shard. rewrite shardAt_on_shard_eq by done. done.
    + norm_shard. rewrite shardAt_on_shard_eq by done. done.
    + intros j Hne. norm_shard. by rewrite shardAt_on_shard_ne.
    + done.
    + unfold dropUsage, addUsage. simpl. by rewrite !length_alter.
    + lia.
    + norm_shard. rewrite shardAt_on_shard_eq by done. simpl. lia.
  - eapply (evicts_more i b e e s); [exact HK|done| | | |rewrite Hk; lia|apply IH].
    + by rewrite shardAt_on_shard_eq.
    + rewrite shardAt_on_shard_eq by done. symmetry. by apply delete_id.
    + intros j Hne. by rewrite shardAt_on_shard_ne.
    + done.
    + by rewrite length_on_shard.
    + lia.
    + rewrite shardAt_on_shard_eq by done. simpl. lia.
Qed.
End EvictOrder.

(** A batch eviction works on the shard after the last one used, takes a
    suffix of its LRU list (the least recently used keys, oldest first),
    removes exactly those keys and touches no other shard; it evicts at most
    the batch size, between 1 and 100, and stops early only when the shard's
    list is empty (so the loop terminates within the fuel). *)
Theorem evictBatchLRU_oldest `{XXH3, LZ4} s b :
  store_wf s ->
  evicts_oldest (Z.to_nat (Z.land (addu64 (evictShardIdx s) 1) (shardMask (cfg s))))
    (Z.min 100 (Z.max 1 b)) 0 s (evictBatchLRU s b).1 (evictBatchLRU s b).2.
Proof.
  intros Hw. set (i := Z.to_nat _). unfold evictBatchLRU. cbv zeta. fold i.
  set (b' := if 100 <? _ then _ else _).
  replace (Z.min 100 (Z.max 1 b)) with b'
    by (subst b'; destruct (Z.leb_spec b 0); arith_cases; lia).
  set (s0 := mkStore _ _ _ _ _). assert (Hi : (i < length (shards s))%nat) by exact (masked_index_lt s _ Hw).
  destruct (evict_loop_oldest (S (length (lru_list (sh_lru (shardAt s0 i))))) i b' 0 s0)
    as (vs & V); [by destruct Hw|done|subst b'; destruct (Z.leb_spec b 0); arith_cases; lia| |].
  - unfold lru_keys. rewrite length_fmap. lia.
  - by exists vs.
Qed.

Definition demoStore1 : MemStorage := (StoreSet 0 demoStore "a" (Some demoItem)).1.

Lemma demoStore1_wf : store_wf demoStore1.
Proof. apply wf_StoreSet, demoStore_wf. Qed.

Lemma evictBatchLRU_oldest_witness :
  evicts_oldest 1 2 0 demoStore1 (evictBatchLRU demoStore1 2).1 (evictBatchLRU demoStore1 2).2.
Proof.
  pose proof (evictBatchLRU_oldest demoStore1 2 demoStore1_wf) as K.
  assert (E : Z.to_nat (Z.land (addu64 (evictShardIdx demoStore1) 1) (shardMask (cfg demoStore1))) = 1%nat)
    by (vm_compute; reflexivity).
  rewrite E in K. exact K.
Defined.

(** * Delete, and values that cannot be read back *)

(** [Delete] on every branch: the empty key is refused; deleting an
    absent key succeeds and changes nothing; a positive version older than
    the stored one is refused and changes nothing; otherwise exactly that key
    disappears and the deletion is queued for replication. *)
Theorem StoreDelete_spec `{XXH3, LZ4} s key v :
  store_wf s ->
  let '(s', err) := StoreDelete s key v in
  if decide (key = ""%string) then s' = s /\ err = Some ErrEmptyKey
  else match contents s key with
  | None => s' = s /\ err = None
  | Some ci =>
      if (0 <? v) && (v <? ci_Version ci) then s' = s /\ err = Some ErrVersionMismatch
      else err = None /\
        (forall k, contents s' k = if decide (k = key) then None else contents s k) /\
        sh_ring (getShard s' key) = addToSyncBuffer (sh_ring (getShard s key)) key OpDelete None
  end.
Proof.
  intros Hw. unfold StoreDelete.
  change (sh_data (shardAt s (shardIndex s key)) !! key) with (contents s key).
  destruct (decide (key = ""%string)) as [->|Hne]; [done|].
  rewrite bool_decide_eq_false_2 by done.
  destruct (contents s key) as [ci|] eqn:Hk; [|done]. unfold contents, getShard in Hk.
  destruct (_ && _); [done|]. pose proof (shardIndex_lt s key Hw) as Hi.
  split; [done|]. split.
  - intros k. strip_data. by apply (contents_delete s _ key k ci).
  - unfold getShard, storeAddToSyncBuffer, storeRemoveFromLRU.
    rewrite (shardIndex_cfg (on_shard _ _ _) s) by done.
    unfold dropUsage, addUsage. rewrite !on_shard_compose, on_shard_total, ?on_shard_compose.
    change (shardAt (on_total ?t ?x)) with (shardAt x). by rewrite shardAt_on_shard_eq.
Qed.

Lemma StoreDelete_spec_witness :
  (StoreDelete demoStore1 "a" 9).2 = None /\ contents (StoreDelete demoStore1 "a" 9).1 "a" = None.
Proof.
  pose proof (StoreDelete_spec demoStore1 "a" 9 demoStore1_wf) as K.
  destruct (StoreDelete demoStore1 "a" 9) as [s' err].
  destruct (decide ("a"%string = ""%string)); [discriminate|].
  assert (E : option_map ci_Version (contents demoStore1 "a") = Some 7) by (vm_compute; reflexivity).
  destruct (contents demoStore1 "a") as [ci|]; [|done]. injection E as E. rewrite E in K.
  destruct K as (K1 & K2 & _). split; [exact K1|]. apply (K2 "a"%string).
Defined.

(** A value larger than 8 MiB that the codec compressed can never be
    read back: the decompression buffers are capped at 8 MiB, so [Get] fails
    with the decompression error although [Set] reported success. *)
Theorem large_compressed_unreadable `{XXH3, LZ4, !LZ4Laws} poolCap s key item ci n now :
  key <> ""%string -> poolCap <= maxPooled -> maxAlloc < slice_len (si_Value item) ->
  prepareCompressedItem poolCap s key item = (ci, n) -> ci_Compressed ci = true ->
  contents s key = Some ci -> expired_at now (ci_ExpireAt ci) = false ->
  (StoreGet poolCap s key now).2 = inl errDecompress.
Proof.
  intros Hk Hp Hl Hprep Hc Hs He. unfold StoreGet.
  rewrite (getWith_present _ _ _ _ _ ci) by (done || apply FastCloneBytes_id).
  unfold ci_decode. rewrite Hc. unfold prepareCompressedItem, compress in Hprep.
  destruct (compressionEnabled (cfg s) && _); [|by simplify_eq/=].
  destruct (Compress (si_Value item) _ poolCap) as [v b] eqn:E. simplify_eq/=.
  pose proof (Compress_true _ _ _ _ E) as (out & m & -> & _).
  unfold decompressValue. cbn [ci_Compressed ci_Value ci_OrigSize negb slice_bytes default].
  by erewrite (DecompressTo_too_large (si_Value item)).
Qed.

(** A long run of one byte is compressed by the concrete codec. *)
Lemma runlength_prepared N :
  (1000 <= N)%nat -> Z.of_nat N < 2 ^ 32 ->
  exists out, out <> [] /\ forall ver e,
  prepareCompressedItem 0 demoStore "a" (mkItem ver e (Some (replicate N x61)) "a") =
    (mkCItem ver e (Some out) true (Z.of_nat N), calculateItemSize "a" (Some out)).
Proof.
  intros HN HN2. exists (x61 :: le_encode 4 (Z.of_nat N)). split; [done|]. intros ver e.
  assert (HC : Compress (Some (replicate N x61)) 64 0 = (Some (x61 :: le_encode 4 (Z.of_nat N)), true)).
  { unfold Compress, blen. change (slice_bytes (Some ?x)) with x. rewrite length_replicate.
    rewrite (proj2 (Z.ltb_ge (Z.of_nat N) 64)) by lia. unfold CompressBlock, RunLength.lz4.
    unfold RunLength.compress, blen. destruct N as [|N']; [lia|]. cbn [replicate].
    change (x61 :: replicate N' x61) with (replicate (S N') x61). rewrite length_replicate.
    rewrite bool_decide_eq_true_2, (proj2 (Z.ltb_lt (Z.of_nat (S N')) (2 ^ 32))) by done.
    cbn [andb]. change (length (x61 :: le_encode 4 (Z.of_nat (S N')))) with 5%nat.
    change (Z.of_nat 5 =? 0) with false. cbv iota.
    pose proof (Z.div_le_mono 95000 (Z.of_nat (S N') * 95) 100 ltac:(lia) ltac:(lia)) as Hd.
    change (95000 / 100) with 950 in Hd.
    rewrite (proj2 (Z.ltb_lt _ _)); [done|]. lia. }
  unfold prepareCompressedItem, compress, slice_len.
  cbn [si_Value si_Version si_ExpireAt]. change (slice_bytes (Some ?x)) with x.
  rewrite length_replicate.
  change (compressionEnabled (cfg demoStore)) with true.
  change (compressionThresh (cfg demoStore)) with 64.
  rewrite (proj2 (Z.leb_le 64 (Z.of_nat N))) by lia. cbn [andb]. by rewrite HC.
Qed.

Lemma large_compressed_unreadable_witness :
  exists s item, slice_len (si_Value item) = maxAlloc + 1 /\
    (StoreGet 0 s "a" 0).2 = inl errDecompress.
Proof.
  destruct (runlength_prepared (Z.to_nat (maxAlloc + 1))) as (out & Hne & HP);
    [unfold maxAlloc; lia|unfold maxAlloc; lia|].
  specialize (HP 1 zeroTime).
  set (ci := mkCItem _ _ _ _ _) in HP. set (n := calculateItemSize _ _) in HP.
  set (item := mkItem 1 zeroTime _ "a"%string) in HP.
  assert (HL : slice_len (si_Value item) = maxAlloc + 1).
  { unfold slice_len, item. cbn [si_Value]. change (slice_bytes (Some ?x)) with x.
    rewrite length_replicate.
    unfold maxAlloc. lia. }
  exists (on_shard (shardIndex demoStore "a") (shard_data (<["a"%string := ci]>)) demoStore), item.
  split; [exact HL|].
  apply (large_compressed_unreadable 0 _ "a"%string item ci n 0).
  - discriminate.
  - unfold maxPooled. lia.
  - rewrite HL. lia.
  - rewrite (prepared_cfg 0 _ demoStore) by reflexivity. exact HP.
  - reflexivity.
  - rewrite contents_insert by apply demoStore_wf. by rewrite decide_True.
  - reflexivity.
Defined.
