(* ===== verification/StoreConc.v ===== *)
(** One key of the store under concurrent [Set]s, [Delete]s and reads
    (src/internal/mem_storage/mem_storage.go): every atomic access to the
    sync.Map is a step of its own, so the compare-and-swap retry loop, the
    compare-and-delete and the unconditional delete of an expired key run
    interleaved in any order.

    The stored value of a key is a pointer; [heap] gives the item each pointer
    refers to.  A thread is its program point.  MemStorage has the same
    operations without interference. *)

From Stdlib Require Import ZArith Lia.
From Stdlib Require Import Strings.String.
From stdpp Require Import relations.
From S2P Require Import Prelude StoredItem MemStorage.

(** The cell of the sync.Map and the key counter of the shard. *)
Record slot := mkSlot { cell : option nat; keyCount : Z }.

(** Program points, each named after the access it is about to make. *)
Inductive pc :=
  | SetLoad (p : nat)              (** Load, storeItemWithConflictResolution *)
  | SetLoadOrStore (p : nat)       (** LoadOrStore, tryStoreNewKey *)
  | SetReload (p existing : nat)   (** second Load, tryUpdateExistingKey *)
  | SetCas (p existing : nat)      (** CompareAndSwap *)
  | DelLoad (version : Z)          (** Load, Delete *)
  | DelCas (version : Z) (value : nat) (** CompareAndDelete *)
  | GetLoad                        (** Load, Get *)
  | GetDelete                      (** Delete of an expired key, Get *)
  | Count (d : Z)                  (** keyCount.Add *)
  | Done.

#[export] Instance pc_eq_dec : EqDecision pc.
Proof. solve_decision. Defined.

(** The expiration test of [Get]. *)
Definition readExpired (now : Z) (ci : compressedItem) : bool :=
  negb (IsZero (ci_ExpireAt ci)) && (UnixNano (ci_ExpireAt ci) <? UnixNano now).

Section Conc.
Context (heap : nat -> compressedItem) (now : Z).

Definition version (p : nat) : Z := ci_Version (heap p).

Definition setLoad (s : slot) (p : nat) : pc :=
  match cell s with
  | None => SetLoadOrStore p
  | Some e => if version p <=? version e then Done else SetReload p e
  end.

Definition setReload (s : slot) (p e : nat) : pc :=
  match cell s with
  | None => SetLoad p
  | Some c => if negb (version c =? version e) then SetLoad p else SetCas p e
  end.

Definition delLoad (s : slot) (v : Z) : pc :=
  match cell s with
  | None => Done
  | Some e => if (0 <? v) && (v <? version e) then Done else DelCas v e
  end.

Definition getLoad (s : slot) : pc :=
  match cell s with
  | None => Done
  | Some e => if readExpired now (heap e) then GetDelete else Done
  end.

Definition thread_step (s : slot) (q : pc) : option (slot * pc) :=
  match q with
  | SetLoad p => Some (s, setLoad s p)
  | SetLoadOrStore p =>
      match cell s with
      | None => Some (mkSlot (Some p) (keyCount s), Count 1)
      | Some _ => Some (s, SetLoad p)
      end
  | SetReload p e => Some (s, setReload s p e)
  | SetCas p e =>
      if decide (cell s = Some e) then Some (mkSlot (Some p) (keyCount s), Count 0)
      else Some (s, SetLoad p)
  | DelLoad v => Some (s, delLoad s v)
  | DelCas v e =>
      if decide (cell s = Some e) then Some (mkSlot None (keyCount s), Count (-1))
      else Some (s, Done)
  | GetLoad => Some (s, getLoad s)
  | GetDelete => Some (mkSlot None (keyCount s), Count (-1))
  | Count d => Some (mkSlot (cell s) (keyCount s + d), Done)
  | Done => None
  end.

(** Any thread may take the next step. *)
Inductive conc_step : slot * list pc -> slot * list pc -> Prop :=
| conc_thread s qs i q s' q' :
    qs !! i = Some q -> thread_step s q = Some (s', q') ->
    conc_step (s, qs) (s', <[i := q']> qs).

(** A schedule, for concrete runs. *)
Fixpoint run (sched : list nat) (st : slot * list pc) : slot * list pc :=
  match sched with
  | [] => st
  | i :: sched =>
      match st.2 !! i with
      | Some q =>
          match thread_step st.1 q with
          | Some (s', q') => run sched (s', <[i := q']> st.2)
          | None => run sched st
          end
      | None => run sched st
      end
  end.

Lemma run_steps sched st : steps conc_step st (run sched st).
Proof.
  revert st. induction sched as [|i sched IH]; intros [s qs]; [constructor|]. simpl.
  destruct (qs !! i) as [q|] eqn:E; [|apply IH].
  destruct (thread_step s q) as [[s' q']|] eqn:T; [|apply IH].
  eapply steps_cons; [by econstructor|apply IH].
Qed.

(** * Versions *)

(** The cell holds a version of at least [T]. *)
Definition at_least (T : Z) (s : slot) : Prop := exists c, cell s = Some c /\ T <= version c.

(** What a thread may still do, when deletes are below [T]. *)
Definition thread_ok (T : Z) (q : pc) : Prop :=
  match q with
  | SetReload p e | SetCas p e => version e < version p
  | DelLoad v => 0 < v < T
  | DelCas v e => version e < T
  | GetLoad | GetDelete => False
  | _ => True
  end.

Lemma thread_ok_step T s q s' q' :
  thread_ok T q -> thread_step s q = Some (s', q') -> thread_ok T q'.
Proof.
  intros Hq E. destruct q; simpl in *; unfold setLoad, setReload, delLoad in *;
    simplify_eq/=; split_matches; to_prop; try done; lia.
Qed.

Lemma at_least_step T s q s' q' :
  thread_ok T q -> at_least T s -> thread_step s q = Some (s', q') -> at_least T s'.
Proof.
  intros Hq (c & Hc & HT) E. destruct q; simplify_eq/=; try (by exists c); split_matches;
    try (by exists c).
  - exists p. split; [done|lia].
  - lia.
Qed.

(** A writer of [p] that has written or given up leaves a version of at
    least [version p]. *)
Definition writer_ok (T : Z) (s : slot) (q0 q : pc) : Prop :=
  match q0 with
  | SetLoad p =>
      match q with
      | SetLoad p' | SetLoadOrStore p' | SetReload p' _ | SetCas p' _ => p' = p
      | Count _ | Done => T <= version p -> at_least T s
      | _ => False
      end
  | _ => True
  end.

Lemma writer_ok_mono T s s' q0 q :
  (at_least T s -> at_least T s') -> writer_ok T s q0 q -> writer_ok T s' q0 q.
Proof. destruct q0, q; simpl; auto. Qed.

Lemma writer_ok_step T s q0 q s' q' :
  thread_ok T q -> writer_ok T s q0 q -> thread_step s q = Some (s', q') -> writer_ok T s' q0 q'.
Proof.
  intros Hq Hw E. destruct q0; [|done..].
  destruct q; simplify_eq/=; unfold setLoad, setReload in *; try done;
    split_matches; to_prop; try done; intros; eexists; (split; [done|lia]).
Qed.

Definition conc_inv (T : Z) (qs0 : list pc) (st : slot * list pc) : Prop :=
  Forall2 (fun q0 q => thread_ok T q /\ writer_ok T st.1 q0 q) qs0 st.2.

Lemma conc_inv_step T qs0 st st' :
  conc_inv T qs0 st -> conc_step st st' ->
  conc_inv T qs0 st' /\ (at_least T st.1 -> at_least T st'.1).
Proof.
  intros Hi Hs. destruct Hs as [s qs i q s' q' Hq E]. unfold conc_inv in *. simpl in *.
  destruct (Forall2_lookup_r _ _ _ _ _ Hi Hq) as (q0 & Hq0 & Ht & Hw).
  assert (Hmono : at_least T s -> at_least T s') by (intros; by eapply at_least_step).
  split; [|done].
  rewrite <- (list_insert_id qs0 i q0) by done. apply Forall2_insert.
  - eapply Forall2_impl; [exact Hi|]. intros x y [Hx Hy]. split; [done|].
    by eapply writer_ok_mono.
  - split; [by eapply thread_ok_step|by eapply writer_ok_step].
Qed.

Lemma conc_inv_steps T qs0 st st' :
  conc_inv T qs0 st -> steps conc_step st st' ->
  conc_inv T qs0 st' /\ (at_least T st.1 -> at_least T st'.1).
Proof.
  intros Hi Hs. revert Hi. induction Hs as [|a b c Hab Hbc IH]; intros Hi; [done|].
  destruct (conc_inv_step T qs0 a b Hi Hab) as [Hb Hm]. destruct (IH Hb) as [Hc Hm']. auto.
Qed.

(** A thread that has not started. *)
Definition initial (q : pc) : Prop :=
  match q with SetLoad _ | DelLoad _ | GetLoad => True | _ => False end.

Lemma conc_inv_init T s qs :
  Forall initial qs -> Forall (thread_ok T) qs -> conc_inv T qs (s, qs).
Proof.
  intros Hi Ht. unfold conc_inv. simpl. induction qs as [|q qs IH]; [constructor|].
  apply Forall_cons in Hi as [Hq Hi]. apply Forall_cons in Ht as [Ht1 Ht2].
  constructor; [|auto]. split; [done|]. by destruct q.
Qed.

(** * The key counter *)

Definition pending_count (q : pc) : Z := match q with Count d => d | _ => 0 end.
Definition pending_sum (qs : list pc) : Z := foldr (fun q a => pending_count q + a) 0 qs.
Definition presence (s : slot) : Z := if cell s is Some _ then 1 else 0.

Lemma pending_sum_insert qs i q q' :
  qs !! i = Some q ->
  pending_sum (<[i := q']> qs) = pending_sum qs - pending_count q + pending_count q'.
Proof.
  revert i. induction qs as [|x qs IH]; intros [|i] E; simplify_eq/=.
  - unfold pending_sum. simpl. lia.
  - specialize (IH i E). unfold pending_sum in *. simpl in IH |- *. lia.
Qed.

Definition no_reader (q : pc) : Prop := match q with GetLoad | GetDelete => False | _ => True end.

Lemma no_reader_step s q s' q' :
  no_reader q -> thread_step s q = Some (s', q') ->
  no_reader q' /\
  keyCount s' + pending_count q' - presence s' = keyCount s + pending_count q - presence s.
Proof.
  intros Hq E. destruct q; simplify_eq/=; unfold setLoad, setReload, delLoad, presence in *;
    split_matches; (split; [done|lia]).
Qed.

Definition count_inv (st : slot * list pc) : Prop :=
  Forall no_reader st.2 /\ keyCount st.1 + pending_sum st.2 = presence st.1.

Lemma count_inv_step st st' : count_inv st -> conc_step st st' -> count_inv st'.
Proof.
  intros Hi Hs. destruct Hs as [s qs i q s' q' Hq E]. destruct Hi as [Hn Hc].
  unfold count_inv. simpl in *.
  pose proof (Forall_lookup_1 _ _ _ _ Hn Hq) as Hq1.
  destruct (no_reader_step s q s' q' Hq1 E) as [Hq2 Hd].
  split; [by apply Forall_insert|]. rewrite (pending_sum_insert qs i q q' Hq). lia.
Qed.

Lemma pending_sum_done qs : Forall (eq Done) qs -> pending_sum qs = 0.
Proof.
  induction 1 as [|q qs <- _ IH]; [done|]. unfold pending_sum in *. simpl. lia.
Qed.

Lemma pending_sum_initial qs : Forall initial qs -> pending_sum qs = 0.
Proof.
  induction 1 as [|q qs Hq _ IH]; [done|]. unfold pending_sum in *. simpl.
  destruct q; simpl in *; done || lia.
Qed.

(** * Termination *)

(** Steps a thread needs if the cell does not change, more when it will
    have to retry. *)
Definition cost (s : slot) (q : pc) : nat :=
  match q with
  | SetLoad _ => 4
  | SetLoadOrStore _ => if decide (cell s = None) then 2 else 5
  | SetReload _ e => if decide (cell s = Some e) then 3 else 6
  | SetCas _ e => if decide (cell s = Some e) then 2 else 5
  | DelLoad _ | GetLoad => 3
  | DelCas _ _ | GetDelete => 2
  | Count _ => 1
  | Done => 0
  end.

(** A thread that may still write the cell. *)
Definition live (q : pc) : nat := match q with Count _ | Done => 0 | _ => 1 end.

Definition cost_sum (s : slot) (qs : list pc) : nat := sum_list (cost s <$> qs).
Definition live_sum (qs : list pc) : nat := sum_list (live <$> qs).

Definition measure (st : slot * list pc) : nat :=
  live_sum st.2 * S (6 * length st.2) + cost_sum st.1 st.2.

Lemma sum_insert (f : pc -> nat) qs i q q' :
  qs !! i = Some q ->
  (sum_list (f <$> <[i := q']> qs) + f q = sum_list (f <$> qs) + f q')%nat.
Proof.
  revert i. induction qs as [|x qs IH]; intros [|i] E; simplify_eq/=; [lia|].
  specialize (IH i E). lia.
Qed.

Lemma cost_sum_le s qs : (cost_sum s qs <= 6 * length qs)%nat.
Proof.
  induction qs as [|q qs IH]; [done|].
  change (cost s q + cost_sum s qs <= 6 * S (length qs))%nat.
  assert (cost s q <= 6)%nat; [|lia]. destruct q; simpl; repeat case_decide; lia.
Qed.

(** A step leaves the cell and costs its thread, or it writes and its
    thread never writes again. *)
Lemma thread_progress s q s' q' :
  thread_step s q = Some (s', q') ->
  (cell s' = cell s /\ (cost s' q' < cost s q)%nat /\ (live q' <= live q)%nat) \/
  (live q = 1%nat /\ live q' = 0%nat).
Proof.
  intros E. destruct q; simplify_eq/=; try (right; done);
    unfold setLoad, setReload, delLoad, getLoad in *.
  - left. split; [done|]. repeat case_match; simpl; repeat case_decide; try done; lia.
  - destruct (cell s) eqn:Ec; simplify_eq/=; [|by right]. left. split; [done|].
    repeat case_decide; done || lia.
  - left. split; [done|]. destruct (cell s') as [c|] eqn:Ec; [|simpl; repeat case_decide; done || lia].
    destruct (Z.eqb_spec (version c) (version existing)) as [Ev|Ev]; cbn [negb cost live];
      rewrite ?Ec; repeat case_decide; simplify_eq; lia.
  - case_decide; simplify_eq/=; [by right|]. left. split; [done|lia].
  - left. split; [done|]. repeat case_match; simpl; lia.
  - case_decide; simplify_eq/=; [by right|]. left. split; [done|lia].
  - left. split; [done|]. repeat case_match; simpl; lia.
  - left. split; [done|lia].
Qed.

Lemma cost_cell s s' q : cell s' = cell s -> cost s' q = cost s q.
Proof. intros E. unfold cost. by rewrite E. Qed.

Lemma measure_step st st' : conc_step st st' -> (measure st' < measure st)%nat.
Proof.
  intros [s qs i q s' q' Hq E]. unfold measure. simpl. rewrite length_insert.
  pose proof (sum_insert live qs i q q' Hq) as HL. fold (live_sum qs) in HL.
  change (sum_list (live <$> <[i := q']> qs)) with (live_sum (<[i := q']> qs)) in HL.
  destruct (thread_progress s q s' q' E) as [(Hc & Hlt & Hl)|[Hl1 Hl2]].
  - pose proof (sum_insert (cost s') qs i q q' Hq) as HC. unfold cost_sum.
    rewrite (list_fmap_ext (cost s') (cost s) qs) in HC
      by (intros; by apply cost_cell).
    rewrite (cost_cell s s' q Hc) in HC.
    assert (live_sum (<[i := q']> qs) <= live_sum qs)%nat by lia. nia.
  - pose proof (cost_sum_le s' (<[i := q']> qs)) as HC. rewrite length_insert in HC.
    rewrite Hl1, Hl2 in HL. nia.
Qed.
End Conc.

(** * Properties *)

(** C2. Highest version wins under any interleaving: when the concurrent
    [Set]s and [Delete]s of a key have all finished, and every delete carries
    a version below [T], the key holds a version of at least [T] if it did at
    the start or if any of the [Set]s wrote one.  With [T] the largest
    version this says the largest version survives, whatever the schedule. *)
Theorem conc_highest_version heap now T s qs s' qs' :
  Forall initial qs -> Forall (thread_ok heap T) qs ->
  steps (conc_step heap now) (s, qs) (s', qs') -> Forall (eq Done) qs' ->
  at_least heap T s \/ (exists p, SetLoad p ∈ qs /\ T <= version heap p) ->
  at_least heap T s'.
Proof.
  intros Hi Ht Hs Hd Hw. pose proof (conc_inv_init heap T s qs Hi Ht) as HI.
  destruct (conc_inv_steps heap now T qs _ _ HI Hs) as [HI' Hm].
  destruct Hw as [Hw|(p & Hp & HT)]; [auto|].
  apply list_elem_of_lookup in Hp as [i Hp].
  destruct (Forall2_lookup_l _ _ _ _ _ HI' Hp) as (q & Hq & _ & Hok).
  pose proof (Forall_lookup_1 _ _ _ _ Hd Hq) as <-. by apply Hok.
Qed.

Definition demoHeap (p : nat) : compressedItem :=
  mkCItem (Z.of_nat p) (if decide (p = 0%nat) then 5 else zeroTime) None false 0.

(** Three threads, interleaved until all have returned. *)
Definition demoThreads : list pc := [SetLoad 2; SetLoad 1; DelLoad 1].
Definition demoSchedule : list nat := [0; 1; 1; 1; 1; 0; 0; 0; 0; 0; 0; 2]%nat.

Lemma demo_run :
  steps (conc_step demoHeap 9) (mkSlot (Some 0%nat) 1, demoThreads)
    (mkSlot (Some 2%nat) 1, [Done; Done; Done]).
Proof. exact (run_steps demoHeap 9 demoSchedule (mkSlot (Some 0%nat) 1, demoThreads)). Qed.

Lemma conc_highest_version_witness : at_least demoHeap 2 (mkSlot (Some 2%nat) 1).
Proof.
  apply (conc_highest_version demoHeap 9 2 (mkSlot (Some 0%nat) 1) demoThreads _ [Done; Done; Done]).
  - by repeat constructor.
  - repeat constructor; done.
  - apply demo_run.
  - by repeat constructor.
  - right. exists 2%nat. split; [by left|done].
Defined.

(** The key counter is exact again once every concurrent [Set] and
    [Delete] has finished, although it is updated after the map in a step of
    its own. *)
Theorem conc_keycount heap now s qs s' qs' :
  Forall initial qs -> Forall no_reader qs -> keyCount s = presence s ->
  steps (conc_step heap now) (s, qs) (s', qs') -> Forall (eq Done) qs' ->
  keyCount s' = presence s'.
Proof.
  intros Hi Hn Hk Hs Hd.
  assert (HI : count_inv (s, qs)) by (split; [done|simpl; rewrite pending_sum_initial by done; lia]).
  pose proof (steps_invariant _ _ _ _ (fun x y => count_inv_step heap now x y) HI Hs) as [_ HC].
  simpl in HC. rewrite pending_sum_done in HC by done. lia.
Qed.

Lemma conc_keycount_witness : keyCount (mkSlot (Some 2%nat) 1) = presence (mkSlot (Some 2%nat) 1).
Proof.
  apply (conc_keycount demoHeap 9 (mkSlot (Some 0%nat) 1) demoThreads _ [Done; Done; Done]);
    [by repeat constructor|by repeat constructor|done|apply demo_run|by repeat constructor].
Defined.

(** C39. The retry loops terminate: no run of concurrent operations on a key,
    under any schedule, is longer than [measure] of its start, and as long as
    some operation has not returned a step is possible.  A retry happens only
    when another operation has written. *)
Theorem conc_terminates heap now st st' n :
  nsteps (conc_step heap now) n st st' ->
  (n + measure st' <= measure st)%nat /\
  (Forall (eq Done) st'.2 \/ exists st'', conc_step heap now st' st'').
Proof.
  intros Hn. split.
  - induction Hn as [|n x y z Hxy _ IH]; [lia|]. apply measure_step in Hxy. lia.
  - clear Hn. destruct st' as [s qs]. simpl.
    destruct (decide (Forall (eq Done) qs)) as [|Hnd]; [by left|right].
    apply not_Forall_Exists, Exists_exists in Hnd as (q & Hq & Hne); [|apply _].
    apply list_elem_of_lookup in Hq as [i Hi].
    assert (exists r, thread_step heap now s q = Some r) as [[s' q'] E].
    { destruct q; simpl; repeat case_match; eauto. done. }
    eexists. by econstructor.
Qed.

Lemma conc_terminates_witness :
  (3 + measure (mkSlot (Some 1%nat) 1, [Done]) <= measure (mkSlot None 0, [SetLoad 1]))%nat.
Proof.
  apply (conc_terminates demoHeap 0 (mkSlot None 0, [SetLoad 1]) (mkSlot (Some 1%nat) 1, [Done]) 3).
  do 3 (eapply nsteps_l; [eapply (conc_thread _ _ _ _ 0%nat); reflexivity|]). apply nsteps_O.
Defined.

(** The removal of an expired key by a read is not conditional on the
    value it saw: there is a run in which a read finds the old item expired,
    a [Set] then stores a newer live version and returns, and the read
    deletes that new version; and a run in which two reads of one expired key
    both decrement the counter, leaving it at -1. *)
Theorem expired_read_race :
  exists now heap,
    readExpired now (heap 0%nat) = true /\ readExpired now (heap 1%nat) = false /\
    version heap 0 < version heap 1 /\
    steps (conc_step heap now) (mkSlot (Some 0%nat) 1, [GetLoad; SetLoad 1])
      (mkSlot None 0, [Done; Done]) /\
    steps (conc_step heap now) (mkSlot (Some 0%nat) 1, [GetLoad; GetLoad])
      (mkSlot None (-1), [Done; Done]).
Proof.
  exists 9, demoHeap. split; [done|]. split; [done|]. split; [done|]. split.
  - apply (run_steps demoHeap 9 [0; 1; 1; 1; 1; 0; 0]%nat
      (mkSlot (Some 0%nat) 1, [GetLoad; SetLoad 1])).
  - apply (run_steps demoHeap 9 [0; 1; 0; 1; 0; 1]%nat
      (mkSlot (Some 0%nat) 1, [GetLoad; GetLoad])).
Qed.
