(* ===== verification/Codec.v ===== *)
(** The wire formats of the cluster (src/internal/cluster/codec.go and the
    message types of types.go and member.go): replication batches and SWIM
    member messages.

    A decoder reads fields at an offset of the received bytes, with the
    source's length checks; a nil result is [None].  Buffers come from pools
    and are copied out, so an encoder is the bytes it appends. *)

From Stdlib Require Import ZArith Lia.
From Stdlib Require Import Strings.String Strings.Byte.
From S2P Require Import Prelude StoredItem SyncBuffer.

(** * Reading at an offset *)

(** [binary.LittleEndian.UintNN(data[off:])] and [data[off:off+n]]. *)
Definition field (n : nat) (data : bytes) (off : nat) : Z := le_decode (take n (drop off data)).
Definition sub (data : bytes) (off n : nat) : bytes := take n (drop off data).

(** The bytes of [data] from [off] on are [rest]. *)
Definition at_off (data : bytes) (off : nat) (rest : bytes) : Prop :=
  (off <= length data)%nat /\ drop off data = rest.

Lemma at_start data : at_off data 0 data.
Proof. split; [lia|done]. Qed.

Lemma at_len data off rest : at_off data off rest -> length data = (off + length rest)%nat.
Proof. intros [Hl <-]. rewrite length_drop. lia. Qed.

Lemma at_sub data off l rest :
  at_off data off (l ++ rest) -> sub data off (length l) = l /\ at_off data (off + length l) rest.
Proof.
  intros Ha. pose proof (at_len _ _ _ Ha) as Hn. destruct Ha as [Hl E].
  rewrite length_app in Hn. unfold sub. rewrite E, take_app_length. split; [done|].
  split; [lia|]. by rewrite <- drop_drop, E, drop_app_length.
Qed.

Lemma at_field data off n z rest :
  at_off data off (le_encode n z ++ rest) ->
  field n data off = z mod 2 ^ (8 * Z.of_nat n) /\ at_off data (off + n) rest.
Proof.
  intros Ha. destruct (at_sub _ _ _ _ Ha) as [E Hn]. rewrite length_le_encode in E, Hn.
  split; [|done]. unfold field. unfold sub in E. by rewrite E, le_decode_encode.
Qed.

(** * Replication batches: SyncOpsCodec *)

Definition op_keyLen (key : string) : bytes :=
  let n := str_len key in [byte_of_Z (Z.land n 255); byte_of_Z (Z.shiftr n 8)].

(** [op.Item] is not nil here. *)
Definition encodeOpStreaming (op : SyncOperation) (item : StoredItem) : bytes :=
  let valueLen := match si_Value item with None => 0 | Some v => Z.of_nat (length v) end in
  let expireAt := if negb (IsZero (si_ExpireAt item)) then UnixNano (si_ExpireAt item) else 0 in
  let opType := if so_OpType op =? OpDelete then x01 else x00 in
  op_keyLen (so_Key op) ++ StringToBytes (so_Key op) ++
  le_encode 8 (uint 64 (si_Version item)) ++
  [opType] ++
  le_encode 8 (uint 64 expireAt) ++
  le_encode 4 (uint 32 valueLen) ++
  (if 0 <? valueLen then slice_bytes (si_Value item) else []).

Fixpoint serialize_ops (ops : list SyncOperation) : bytes :=
  match ops with
  | [] => []
  | op :: ops =>
      match so_Item op with
      | None => serialize_ops ops
      | Some item =>
          let body := encodeOpStreaming op item in
          le_encode 4 (uint 32 (Z.of_nat (length body))) ++ body ++ serialize_ops ops
      end
  end.

Definition Serialize (ops : list SyncOperation) : slice :=
  match ops with
  | [] => None
  | _ => Some (le_encode 4 (uint 32 (Z.of_nat (length ops))) ++ serialize_ops ops)
  end.

Definition decodeOp (data : bytes) : option SyncOperation :=
  let len := length data in
  if (len <? 2)%nat then None else
  let keyLen := Z.to_nat (field 2 data 0) in
  let offset := 2%nat in
  if (len <? offset + keyLen)%nat then None else
  let key := BytesToString (sub data offset keyLen) in
  let offset := (offset + keyLen)%nat in
  if (len <? offset + 8)%nat then None else
  let version := sint 64 (field 8 data offset) in
  let offset := (offset + 8)%nat in
  if (len <=? offset)%nat then None else
  let opType := field 1 data offset in
  let offset := (offset + 1)%nat in
  if (len <? offset + 8)%nat then None else
  let expireAt := sint 64 (field 8 data offset) in
  let offset := (offset + 8)%nat in
  if (len <? offset + 4)%nat then None else
  let valueLen := field 4 data offset in
  let offset := (offset + 4)%nat in
  let expireTime := if 0 <? expireAt then expireAt else zeroTime in
  let done value := Some (mkOp key opType (Some (mkItem version expireTime value key))) in
  if 0 <? valueLen then
    if Z.of_nat len <? Z.of_nat offset + valueLen then None
    else done (FastCloneBytes (Some (sub data offset (Z.to_nat valueLen))))
  else done None.

(** The loop over [count] operations: every round reads at least four bytes,
    so [length data] rounds are enough.  A nil operation is appended, the
    error being nil too. *)
Fixpoint deserialize_loop (fuel : nat) (data : bytes) (i count : Z) (offset : nat)
    : list (option SyncOperation) :=
  match fuel with
  | O => []
  | S fuel =>
      if i <? count then
        if (length data <? offset + 4)%nat then []
        else
          let opLen := field 4 data offset in
          let offset := (offset + 4)%nat in
          if Z.of_nat (length data) <? Z.of_nat offset + opLen then []
          else
            let n := Z.to_nat opLen in
            decodeOp (sub data offset n) :: deserialize_loop fuel data (i + 1) count (offset + n)
      else []
  end.

Definition Deserialize (data : slice) : list (option SyncOperation) :=
  let d := slice_bytes data in
  if (length d <? 4)%nat then []
  else deserialize_loop (length d) d 0 (field 4 d 0) 4.

(** What survives the wire: operations with an item, their key repeated in
    the item, an empty value as nil. *)
Definition wire_item (op : SyncOperation) (item : StoredItem) : SyncOperation :=
  mkOp (so_Key op) (so_OpType op)
    (Some (mkItem (si_Version item) (si_ExpireAt item)
             (match si_Value item with Some [] => None | v => v end) (so_Key op))).

Definition wire_op (op : SyncOperation) : option SyncOperation :=
  match so_Item op with
  | None => None
  | Some item => Some (wire_item op item)
  end.

(** The operations the format can carry. *)
Definition op_fits (op : SyncOperation) : Prop :=
  match so_Item op with
  | None => True
  | Some item =>
      str_len (so_Key op) < 2 ^ 16 /\ is_sint 64 (si_Version item) /\
      (so_OpType op = OpSet \/ so_OpType op = OpDelete) /\
      (si_ExpireAt item = zeroTime \/ 0 < si_ExpireAt item < 2 ^ 63) /\
      slice_len (si_Value item) < 2 ^ 31
  end.

Lemma op_keyLen_le key :
  str_len key < 2 ^ 16 -> op_keyLen key = le_encode 2 (str_len key).
Proof.
  intros Hk. pose proof (str_len_nonneg key). unfold op_keyLen. cbv zeta. cbn [le_encode].
  rewrite Z.shiftr_div_pow2 by lia. change (2 ^ 8) with 256. f_equal.
  unfold byte_of_Z. change 255 with (Z.ones 8). rewrite Z.land_ones by lia.
  change (2 ^ 8) with 256. by rewrite Z.mod_mod by lia.
Qed.

Lemma mod_field n z w : w = 8 * Z.of_nat n -> uint w z mod 2 ^ (8 * Z.of_nat n) = uint w z.
Proof. intros ->. apply Z.mod_mod. pose proof (pow2_pos (8 * Z.of_nat n)). lia. Qed.

(** Advances over the next field: [H] becomes what follows it and [E] what
    the field reads as. *)
Ltac read_field H E :=
  let E' := fresh in
  apply at_field in H as [E' H]; rename E' into E;
  pose proof (at_len _ _ _ H).
Ltac read_sub H E :=
  let E' := fresh in
  apply at_sub in H as [E' H]; rename E' into E;
  pose proof (at_len _ _ _ H).

(** Discharges the length checks that the context decides. *)
Ltac len_checks :=
  repeat match goal with
  | |- context [(?a <? ?b)%nat] => rewrite (proj2 (Nat.ltb_ge a b)) by lia
  | |- context [(?a <=? ?b)%nat] => rewrite (proj2 (Nat.leb_gt a b)) by lia
  end.

(** The expiration of an item, as a zero or a positive int64. *)
Lemma expire_wire e :
  e = zeroTime \/ 0 < e < 2 ^ 63 ->
  let x := sint 64 (uint 64 (if negb (IsZero e) then UnixNano e else 0)) in
  (if 0 <? x then x else zeroTime) = e.
Proof.
  intros He. cbv zeta. rewrite sint_uint by lia. unfold UnixNano. destruct He as [-> | He]; [done|].
  unfold IsZero. rewrite (proj2 (Z.eqb_neq _ zeroTime)) by (unfold zeroTime; lia). simpl negb.
  rewrite !(sint_id 64 e) by (unfold is_sint; simpl Z.sub; lia). arith_cases; lia.
Qed.

Lemma decodeOp_encode op item :
  so_Item op = Some item -> op_fits op ->
  decodeOp (encodeOpStreaming op item) = Some (wire_item op item).
Proof.
  unfold op_fits. intros Hi Hf. rewrite Hi in Hf. destruct Hf as (Hk & Hv & Ht & He & Hl).
  pose proof (str_len_nonneg (so_Key op)) as Hk0.
  assert (Ha : at_off (encodeOpStreaming op item) 0 (encodeOpStreaming op item)) by apply at_start.
  revert Ha. generalize (encodeOpStreaming op item) at 1 3. intros data Ha.
  unfold encodeOpStreaming in Ha. cbv zeta in Ha. rewrite op_keyLen_le in Ha by done.
  set (exp := if negb _ then _ else 0) in Ha.
  replace ([if so_OpType op =? OpDelete then x01 else x00]) with (le_encode 1 (so_OpType op)) in Ha
    by (destruct Ht as [-> | ->]; done).
  set (vlen := match si_Value item with None => 0 | Some v => _ end) in Ha.
  assert (Hvl : vlen = slice_len (si_Value item)) by (subst vlen; by destruct (si_Value item)).
  read_field Ha E1. read_sub Ha E2. read_field Ha E3. read_field Ha E4. read_field Ha E5. read_field Ha E6.
  rewrite (mod_field 8) in E3, E5 by done. rewrite (mod_field 4) in E6 by done.
  rewrite Z.mod_small in E1 by (simpl; lia).
  rewrite Z.mod_small in E4 by (destruct Ht as [-> | ->]; unfold OpSet, OpDelete; simpl; lia).
  rewrite uint_id in E6 by (unfold is_uint, slice_len in *; lia).
  assert (EX : (if 0 <? sint 64 (uint 64 exp) then sint 64 (uint 64 exp) else zeroTime) = si_ExpireAt item).
  { by apply expire_wire. }
  unfold decodeOp. rewrite E1. unfold str_len in *. rewrite Nat2Z.id in *.
  len_checks. cbn [Nat.add] in *.
  rewrite E2, E3, E4, E5, E6, EX, StringToBytesToString, sint_uint_id by (done || lia).
  unfold wire_item. destruct (Z.ltb_spec 0 vlen) as [Hpos|Hzero].
  - rewrite <- (app_nil_r (slice_bytes _)) in Ha. read_sub Ha E7.
    rewrite Hvl in *. unfold slice_len in *. rewrite Nat2Z.id, E7, FastCloneBytes_id.
    rewrite (proj2 (Z.ltb_ge _ _)) by lia. destruct (si_Value item) as [[|b v]|]; done.
  - rewrite Hvl in Hzero. unfold slice_len in Hzero.
    destruct (si_Value item) as [[|b v]|]; simpl in Hzero; done || lia.
Qed.

Lemma encodeOp_length op item :
  op_fits op -> so_Item op = Some item ->
  Z.of_nat (length (encodeOpStreaming op item)) < 2 ^ 32.
Proof.
  unfold op_fits. intros Hf Hi. rewrite Hi in Hf. destruct Hf as (Hk & _ & _ & _ & Hl).
  unfold encodeOpStreaming. rewrite !length_app, !length_le_encode. unfold str_len, slice_len in *.
  destruct (0 <? _); simpl length; lia.
Qed.

Lemma deserialize_loop_ops fuel data i count off ops :
  Forall op_fits ops -> at_off data off (serialize_ops ops) ->
  (length (serialize_ops ops) < fuel)%nat -> i + Z.of_nat (length ops) <= count ->
  deserialize_loop fuel data i count off = Some <$> omap wire_op ops.
Proof.
  intros Hf. revert fuel i off. induction ops as [|op ops IH]; intros fuel i off Ha Hfuel Hc.
  - destruct fuel; [simpl in *; lia|]. cbn [deserialize_loop serialize_ops] in *.
    apply at_len in Ha. rewrite (proj2 (Nat.ltb_lt _ _)) by (simpl in Ha; lia). by case_match.
  - apply Forall_cons in Hf as [Hop Hf]. cbn [serialize_ops omap list_omap] in *.
    unfold wire_op at 1. destruct (so_Item op) as [item|] eqn:Hi.
    2:{ apply IH; [done|done|done|simpl length in Hc; lia]. }
    pose proof (encodeOp_length op item Hop Hi) as Hlen.
    destruct fuel as [|fuel]; [lia|]. rewrite !length_app, length_le_encode in Hfuel.
    read_field Ha E1. rewrite (mod_field 4), uint_id in E1 by (done || (unfold is_uint; lia)).
    read_sub Ha E2. simpl length in Hc. rewrite length_app in H.
    cbn [deserialize_loop]. rewrite (proj2 (Z.ltb_lt _ _)) by lia. len_checks.
    rewrite E1, Nat2Z.id, (proj2 (Z.ltb_ge _ _)) by lia.
    rewrite E2, (decodeOp_encode op item) by done. simpl. f_equal.
    apply IH; [done|done|lia|lia].
Qed.

(** A count followed by the operations is read back. *)
Lemma Deserialize_ops n ops data :
  Forall op_fits ops -> Z.of_nat n < 2 ^ 32 -> (length ops <= n)%nat ->
  data = le_encode 4 (uint 32 (Z.of_nat n)) ++ serialize_ops ops ->
  Deserialize (Some data) = Some <$> omap wire_op ops.
Proof.
  intros Hf Hn Hle ED. unfold Deserialize. change (slice_bytes (Some data)) with data.
  assert (Ha : at_off data 0 (le_encode 4 (uint 32 (Z.of_nat n)) ++ serialize_ops ops))
    by (rewrite <- ED; apply at_start).
  pose proof (at_len _ _ _ Ha) as HL. rewrite length_app, length_le_encode in HL.
  read_field Ha E1. rewrite (mod_field 4), uint_id in E1 by (done || (unfold is_uint; lia)).
  len_checks. rewrite E1. apply deserialize_loop_ops; [done|done|lia|lia].
Qed.

Lemma Deserialize_wire ops :
  Forall op_fits ops -> Z.of_nat (length ops) < 2 ^ 32 ->
  Deserialize (Some (slice_bytes (Serialize ops))) = Some <$> omap wire_op ops.
Proof.
  intros Hf Hn. destruct ops as [|op ops]; [done|].
  by apply (Deserialize_ops (length (op :: ops))).
Qed.

(** C11. Replication batches round trip: deserialising what [Serialize]
    produced gives back the operations in order, each with its key, type,
    version, expiration and value; operations without an item (the deletes
    the store queues) are lost, and an empty value becomes nil.  It holds for
    keys under 64 KiB, values under 2 GiB and expirations after 1970. *)
Theorem syncops_roundtrip ops :
  Forall op_fits ops -> Z.of_nat (length ops) < 2 ^ 32 ->
  Deserialize (Serialize ops) = Some <$> omap wire_op ops.
Proof.
  intros Hf Hn. destruct ops as [|op ops]; [done|].
  by apply (Deserialize_ops (length (op :: ops))).
Qed.

Lemma syncops_roundtrip_witness :
  Deserialize (Serialize [mkOp "k" OpSet (Some (mkItem (-5) zeroTime (Some [x61]) "")); mkOp "d" OpDelete None]) =
  [Some (mkOp "k" OpSet (Some (mkItem (-5) zeroTime (Some [x61]) "k")))].
Proof.
  apply syncops_roundtrip; [|done].
  repeat constructor; try done; try (vm_compute; congruence); by left.
Defined.

(** * Member messages: MemberMsgCodec *)

Definition NodeStateUnknown : Z := 0.
Definition NodeStateAlive : Z := 1.
Definition NodeStateSuspect : Z := 2.
Definition NodeStateDead : Z := 3.

Record NodeInfo := mkNode {
  ni_NodeID : string;
  ni_Address : string;
  ni_State : Z;
  ni_Incarnation : Z;
  ni_LastActive : Z;
  ni_SuspectSince : Z;
}.

#[export] Instance NodeInfo_eq_dec : EqDecision NodeInfo.
Proof. solve_decision. Defined.

Inductive memberMsg :=
  | pingMsg (From To : string) (Incarnation : Z)
  | connectMsg (NodeID Address : string) (Incarnation : Z)
  | leaveMsg (NodeID : string) (Incarnation : Z)
  | ackMsg (From To : string) (Incarnation : Z)
  | indirectProbeMsg (From Target : string) (Incarnation : Z)
  | indirectAckMsg (From To Target : string) (Incarnation : Z)
  | clusterSyncMsg (From : string) (Members : list NodeInfo).

Definition encodeStringTo (s : string) : bytes :=
  le_encode 2 (uint 16 (str_len s)) ++ StringToBytes s.

(** The string and the offset after it; offset 0 is failure. *)
Definition decodeString (data : bytes) (offset : nat) : string * nat :=
  if (length data <? offset + 2)%nat then (""%string, 0%nat) else
  let strLen := Z.to_nat (field 2 data offset) in
  let offset := (offset + 2)%nat in
  if (length data <? offset + strLen)%nat then (""%string, 0%nat) else
  if (strLen =? 0)%nat then (""%string, offset) else
  if (length data <? strLen)%nat || (65535 <? Z.of_nat strLen) then (""%string, 0%nat) else
  let result := BytesToString (sub data offset strLen) in
  if negb (str_len result =? Z.of_nat strLen) then (""%string, 0%nat)
  else (result, (offset + strLen)%nat).

Definition encodeInt64 (z : Z) : bytes := le_encode 8 (uint 64 z).
Definition decodeInt64 (data : bytes) (offset : nat) : Z := sint 64 (field 8 data offset).

(** Ping, ack and indirect probe share one layout. *)
Definition encodePingMsg (from to : string) (inc : Z) : bytes :=
  encodeStringTo from ++ encodeStringTo to ++ encodeInt64 inc.
Definition encodeAckMsg (from to : string) (inc : Z) : bytes :=
  encodeStringTo from ++ encodeStringTo to ++ encodeInt64 inc.
Definition encodeIndirectProbeMsg (from target : string) (inc : Z) : bytes :=
  encodeStringTo from ++ encodeStringTo target ++ encodeInt64 inc.
Definition encodeConnectMsg (nodeID address : string) (inc : Z) : bytes :=
  encodeStringTo nodeID ++ encodeStringTo address ++ encodeInt64 inc.
Definition encodeLeaveMsg (nodeID : string) (inc : Z) : bytes :=
  encodeStringTo nodeID ++ encodeInt64 inc.

Definition encodeNodeInfo (info : NodeInfo) : bytes :=
  encodeStringTo (ni_NodeID info) ++ encodeStringTo (ni_Address info) ++
  le_encode 4 (uint 32 (ni_State info)) ++ encodeInt64 (ni_Incarnation info) ++
  encodeInt64 (UnixNano (ni_LastActive info)).

Definition encodeClusterSyncMsg (from : string) (members : list NodeInfo) : bytes :=
  encodeStringTo from ++ le_encode 4 (uint 32 (Z.of_nat (length members))) ++
  mjoin (encodeNodeInfo <$> members).

Definition decodePingMsg (data : bytes) : option memberMsg :=
  if (length data <? 2)%nat then None else
  let '(from, offset) := decodeString data 0 in
  if (offset =? 0)%nat then None else
  let '(to, offset) := decodeString data offset in
  if (offset =? 0)%nat || (length data <? offset + 8)%nat then None
  else Some (pingMsg from to (decodeInt64 data offset)).

Definition decodeAckMsg (data : bytes) : option memberMsg :=
  if (length data <? 2)%nat then None else
  let '(from, offset) := decodeString data 0 in
  if (offset =? 0)%nat then None else
  let '(to, offset) := decodeString data offset in
  if (offset =? 0)%nat || (length data <? offset + 8)%nat then None
  else Some (ackMsg from to (decodeInt64 data offset)).

Definition decodeIndirectProbeMsg (data : bytes) : option memberMsg :=
  if (length data <? 2)%nat then None else
  let '(from, offset) := decodeString data 0 in
  if (offset =? 0)%nat then None else
  let '(target, offset) := decodeString data offset in
  if (offset =? 0)%nat || (length data <? offset + 8)%nat then None
  else Some (indirectProbeMsg from target (decodeInt64 data offset)).

(** [len(addr) < 3 || addr[0] == 0] *)
Definition badAddress (addr : string) : bool :=
  (str_len addr <? 3) || (if StringToBytes addr is x00 :: _ then true else false).

Definition decodeConnectMsg (data : bytes) : option memberMsg :=
  if (length data <? 2)%nat then None else
  let '(nodeID, offset) := decodeString data 0 in
  if (offset =? 0)%nat then None else
  if str_len nodeID =? 0 then None else
  if negb (Z.of_nat offset =? 2 + str_len nodeID) then None else
  let '(address, offset) := decodeString data offset in
  if (offset =? 0)%nat then None else
  if badAddress address then None else
  if (length data <? offset + 8)%nat then None
  else Some (connectMsg nodeID address (decodeInt64 data offset)).

Definition decodeLeaveMsg (data : bytes) : option memberMsg :=
  if (length data <? 2)%nat then None else
  let '(nodeID, offset) := decodeString data 0 in
  if (offset =? 0)%nat || (length data <? offset + 8)%nat then None
  else Some (leaveMsg nodeID (decodeInt64 data offset)).

(** A nil info leaves its offset to the caller, who does not use it. *)
Definition decodeNodeInfo (data : bytes) (offset : nat) : option (NodeInfo * nat) :=
  if (length data <? offset + 2)%nat then None else
  let '(nodeID, offset) := decodeString data offset in
  if (offset =? 0)%nat then None else
  let '(address, offset) := decodeString data offset in
  if (offset =? 0)%nat then None else
  if (length data <? offset + 4)%nat then None else
  let state := sint 32 (field 4 data offset) in
  let offset := (offset + 4)%nat in
  if (length data <? offset + 8)%nat then None else
  let inc := decodeInt64 data offset in
  let offset := (offset + 8)%nat in
  if (length data <? offset + 8)%nat then None else
  let unixNano := decodeInt64 data offset in
  Some (mkNode nodeID address state inc unixNano zeroTime, (offset + 8)%nat).

Fixpoint decodeMembers (n : nat) (data : bytes) (offset : nat) : option (list NodeInfo) :=
  match n with
  | O => Some []
  | S n =>
      match decodeNodeInfo data offset with
      | None => None
      | Some (info, offset) =>
          if bool_decide (ni_Address info = ""%string) || badAddress (ni_Address info) then None
          else
            match decodeMembers n data offset with
            | None => None
            | Some l => Some (info :: l)
            end
      end
  end.

Definition decodeClusterSyncMsg (data : bytes) : option memberMsg :=
  if (length data <? 2)%nat then None else
  let '(from, offset) := decodeString data 0 in
  if (offset =? 0)%nat then None else
  if (length data <? offset + 4)%nat then None else
  let memberCount := field 4 data offset in
  let offset := (offset + 4)%nat in
  if (memberCount <? 0) || (1000 <? memberCount) then None else
  match decodeMembers (Z.to_nat memberCount) data offset with
  | None => None
  | Some members => Some (clusterSyncMsg from members)
  end.

(** An unencodable message gives nil bytes. *)
Definition EncodeMemberMsg (msg : memberMsg) : slice :=
  match msg with
  | pingMsg from to inc => Some (encodePingMsg from to inc)
  | ackMsg from to inc => Some (encodeAckMsg from to inc)
  | connectMsg id addr inc => Some (encodeConnectMsg id addr inc)
  | leaveMsg id inc => Some (encodeLeaveMsg id inc)
  | indirectProbeMsg from target inc => Some (encodeIndirectProbeMsg from target inc)
  | clusterSyncMsg from members => Some (encodeClusterSyncMsg from members)
  | indirectAckMsg _ _ _ _ => None
  end.

Definition pingTo (m : option memberMsg) : string :=
  match m with
  | Some (pingMsg _ to _) | Some (ackMsg _ to _) => to
  | _ => ""%string
  end.

Definition looksLikeClusterSync (data : bytes) : bool :=
  (10 <=? length data)%nat &&
  (let newOffset := (decodeString data 0).2 in
   (0 <? newOffset)%nat && (newOffset + 4 <=? length data)%nat &&
   (field 4 data newOffset <=? 1000)).

Definition DecodeMemberMsg (data : slice) (msgType : Z) : option memberMsg :=
  let data := slice_bytes data in
  if (length data =? 0)%nat then None else
  if msgType =? 1 then
    if negb (bool_decide (pingTo (decodePingMsg data) = ""%string)) then decodePingMsg data
    else if negb (bool_decide (pingTo (decodeAckMsg data) = ""%string)) then decodeAckMsg data
    else decodeIndirectProbeMsg data
  else if msgType =? 2 then
    if looksLikeClusterSync data then decodeClusterSyncMsg data
    else
      match decodeConnectMsg data with
      | Some (connectMsg id addr inc) =>
          if negb (bool_decide (id = ""%string)) && negb (bool_decide (addr = ""%string)) then
            if badAddress addr then None else Some (connectMsg id addr inc)
          else decodeClusterSyncMsg data
      | _ => decodeClusterSyncMsg data
      end
  else if msgType =? 3 then decodeLeaveMsg data
  else None.

(** * Round trips of member messages *)

Definition str_fits (s : string) : Prop := str_len s < 2 ^ 16.

Lemma decodeString_encode data off s rest :
  str_fits s -> at_off data off (encodeStringTo s ++ rest) ->
  exists off', decodeString data off = (s, off') /\ at_off data off' rest /\
    off' = (off + 2 + length (StringToBytes s))%nat.
Proof.
  intros Hs Ha. unfold str_fits, str_len, encodeStringTo in *. rewrite <- app_assoc in Ha.
  exists (off + 2 + length (StringToBytes s))%nat.
  read_field Ha E1. rewrite (mod_field 2), uint_id in E1 by (done || (unfold is_uint, str_len; lia)).
  rewrite length_app in H. read_sub Ha E2. split; [|done].
  unfold decodeString. len_checks. rewrite E1. unfold str_len. rewrite Nat2Z.id. len_checks.
  destruct (Nat.eqb_spec (length (StringToBytes s)) 0) as [E0|E0].
  - apply nil_length_inv in E0. rewrite E0, (StringToBytes_nil s E0). simpl. by rewrite Nat.add_0_r.
  - rewrite (proj2 (Z.ltb_ge 65535 _)) by lia. cbn [orb].
    by rewrite E2, StringToBytesToString, Z.eqb_refl.
Qed.

(** Advances over an encoded string. *)
Ltac read_string H E :=
  let o := fresh "o" in let Eo := fresh "Eo" in
  apply decodeString_encode in H as (o & E & H & Eo); [|done]; rewrite E;
  pose proof (at_len _ _ _ H);
  rewrite ?(proj2 (Nat.eqb_neq o 0)) by lia; cbn [orb].

Lemma decodeInt64_at data off z rest :
  is_sint 64 z -> at_off data off (encodeInt64 z ++ rest) ->
  decodeInt64 data off = z /\ at_off data (off + 8) rest.
Proof.
  intros Hz Ha. unfold encodeInt64 in Ha. apply at_field in Ha as [E Ha]. split; [|done].
  unfold decodeInt64. rewrite E, (mod_field 8), sint_uint_id by (done || lia). done.
Qed.

Ltac read_int64 H E :=
  apply decodeInt64_at in H as [E H]; [|done]; pose proof (at_len _ _ _ H).

(** The common shape of two strings and an incarnation. *)
Definition two_strings (data : bytes) (a b : string) (inc : Z) : Prop :=
  str_fits a /\ str_fits b /\ is_sint 64 inc /\
  at_off data 0 (encodeStringTo a ++ encodeStringTo b ++ encodeInt64 inc).

Lemma encodeStringTo_length s : length (encodeStringTo s) = (2 + length (StringToBytes s))%nat.
Proof. unfold encodeStringTo. by rewrite length_app, length_le_encode. Qed.

Lemma two_strings_length data a b inc : two_strings data a b inc -> (12 <= length data)%nat.
Proof.
  intros (_ & _ & _ & Ha). apply at_len in Ha. rewrite !length_app, !encodeStringTo_length in Ha.
  unfold encodeInt64 in Ha. rewrite length_le_encode in Ha. lia.
Qed.

Lemma decodePing_two data a b inc :
  two_strings data a b inc -> decodePingMsg data = Some (pingMsg a b inc).
Proof.
  intros T. pose proof (two_strings_length _ _ _ _ T). destruct T as (Fa & Fb & Fi & Ha).
  unfold decodePingMsg. len_checks. read_string Ha E1. read_string Ha E2.
  rewrite <- (app_nil_r (encodeInt64 inc)) in Ha. read_int64 Ha E3. len_checks. by rewrite E3.
Qed.

Lemma decodeConnect_two data a b inc :
  two_strings data a b inc -> a <> ""%string -> badAddress b = false ->
  decodeConnectMsg data = Some (connectMsg a b inc).
Proof.
  intros T Hne Hb. pose proof (two_strings_length _ _ _ _ T). destruct T as (Fa & Fb & Fi & Ha).
  unfold decodeConnectMsg. len_checks. read_string Ha E1.
  assert (Hpos : str_len a <> 0).
  { unfold str_len. intros E. apply Hne, StringToBytes_nil, nil_length_inv. lia. }
  rewrite (proj2 (Z.eqb_neq _ 0) Hpos).
  rewrite (proj2 (Z.eqb_eq (Z.of_nat o) (2 + str_len a))) by (unfold str_len; lia). cbn [negb].
  read_string Ha E2. rewrite Hb.
  rewrite <- (app_nil_r (encodeInt64 inc)) in Ha. read_int64 Ha E3. len_checks. by rewrite E3.
Qed.

Lemma decodeLeave_encode data id inc :
  str_fits id -> is_sint 64 inc -> at_off data 0 (encodeLeaveMsg id inc) ->
  decodeLeaveMsg data = Some (leaveMsg id inc).
Proof.
  intros Fi Hi Ha. unfold encodeLeaveMsg in Ha. pose proof (at_len _ _ _ Ha) as HL.
  rewrite length_app, encodeStringTo_length in HL. unfold encodeInt64 in HL.
  rewrite length_le_encode in HL. unfold decodeLeaveMsg. len_checks. read_string Ha E1.
  rewrite <- (app_nil_r (encodeInt64 inc)) in Ha. read_int64 Ha E3. len_checks. by rewrite E3.
Qed.

(** ** Cluster sync *)

Definition node_fits (n : NodeInfo) : Prop :=
  str_fits (ni_NodeID n) /\ str_fits (ni_Address n) /\ badAddress (ni_Address n) = false /\
  is_sint 32 (ni_State n) /\ is_sint 64 (ni_Incarnation n) /\ is_sint 64 (ni_LastActive n).

(** The suspicion time stays local. *)
Definition wire_node (n : NodeInfo) : NodeInfo :=
  mkNode (ni_NodeID n) (ni_Address n) (ni_State n) (ni_Incarnation n) (ni_LastActive n) zeroTime.

Lemma encodeNodeInfo_length n : (8 <= length (encodeNodeInfo n))%nat.
Proof. unfold encodeNodeInfo. rewrite !length_app, !encodeStringTo_length, length_le_encode. lia. Qed.

Lemma decodeNodeInfo_encode data off n rest :
  node_fits n -> at_off data off (encodeNodeInfo n ++ rest) ->
  exists off', decodeNodeInfo data off = Some (wire_node n, off') /\ at_off data off' rest.
Proof.
  intros (F1 & F2 & _ & F4 & F5 & F6) Ha. unfold encodeNodeInfo in Ha. rewrite <- !app_assoc in Ha.
  pose proof (at_len _ _ _ Ha) as HL. rewrite length_app, encodeStringTo_length in HL.
  unfold UnixNano in Ha. rewrite sint_id in Ha by (done || lia).
  unfold decodeNodeInfo. len_checks. read_string Ha E1. read_string Ha E2.
  read_field Ha E3. rewrite (mod_field 4) in E3 by done.
  read_int64 Ha E4. read_int64 Ha E5. len_checks. rewrite E3, E4, E5, sint_uint_id by (done || lia).
  eexists. split; [reflexivity|done].
Qed.

Lemma decodeMembers_encode data off l rest :
  Forall node_fits l -> at_off data off (mjoin (encodeNodeInfo <$> l) ++ rest) ->
  decodeMembers (length l) data off = Some (wire_node <$> l).
Proof.
  intros Hl. revert off. induction Hl as [|n l Hn _ IH]; intros off Ha; [done|].
  simpl in Ha. rewrite <- app_assoc in Ha.
  destruct (decodeNodeInfo_encode _ _ _ _ Hn Ha) as (off' & E & Ha').
  cbn [length decodeMembers]. rewrite E. cbn [wire_node ni_Address].
  destruct Hn as (_ & _ & Hb & _). rewrite Hb.
  rewrite bool_decide_eq_false_2 by (intros E'; rewrite E' in Hb; by vm_compute in Hb).
  cbn [orb]. by rewrite (IH off' Ha').
Qed.

Lemma decodeClusterSync_encode data from l :
  str_fits from -> Forall node_fits l -> (length l <= 1000)%nat ->
  at_off data 0 (encodeClusterSyncMsg from l) ->
  decodeClusterSyncMsg data = Some (clusterSyncMsg from (wire_node <$> l)).
Proof.
  intros Ff Hl Hn Ha. unfold encodeClusterSyncMsg in Ha. pose proof (at_len _ _ _ Ha) as HL.
  rewrite !length_app, encodeStringTo_length, length_le_encode in HL.
  unfold decodeClusterSyncMsg. len_checks. read_string Ha E1. read_field Ha E2. len_checks.
  rewrite (mod_field 4), uint_id in E2 by (done || (unfold is_uint; lia)).
  rewrite E2, (proj2 (Z.ltb_ge _ 0)), (proj2 (Z.ltb_ge 1000 _)) by lia. cbn [orb].
  rewrite Nat2Z.id. rewrite <- (app_nil_r (mjoin _)) in Ha.
  by rewrite (decodeMembers_encode _ _ _ _ Hl Ha).
Qed.

(** The count of a cluster sync is what distinguishes it. *)
Lemma looksLike_at data from n rest :
  str_fits from -> at_off data 0 (encodeStringTo from ++ le_encode 4 (uint 32 (Z.of_nat n)) ++ rest) ->
  (n <= 1000)%nat -> looksLikeClusterSync data = (10 <=? length data)%nat.
Proof.
  intros Ff Ha Hn. unfold looksLikeClusterSync. read_string Ha E1. cbn [snd].
  read_field Ha E2. rewrite (mod_field 4), uint_id in E2 by (done || (unfold is_uint; lia)).
  rewrite E2, (proj2 (Z.leb_le _ 1000)), (proj2 (Nat.ltb_lt 0 _)), (proj2 (Nat.leb_le (o + 4) _)) by lia.
  by rewrite andb_true_r.
Qed.

(** An address that starts with a printable byte reads as a count above
    1000. *)
Lemma looksLike_connect data a b rest :
  str_fits a -> str_fits b -> badAddress b = false ->
  at_off data 0 (encodeStringTo a ++ encodeStringTo b ++ rest) ->
  looksLikeClusterSync data = false.
Proof.
  intros Fa Fb Hb Ha. unfold looksLikeClusterSync. read_string Ha E1. cbn [snd].
  unfold badAddress in Hb. apply orb_false_iff in Hb as [Hb1 Hb2]. to_prop. unfold str_len in Hb1.
  destruct (StringToBytes b) as [|b0 [|b1 tl]] eqn:Eb; [simpl in Hb1; lia..|].
  assert (Hf : 1000 < field 4 data o).
  { destruct Ha as [_ Ha]. unfold field. rewrite Ha. unfold encodeStringTo. rewrite Eb.
    cbn [le_encode app take le_decode]. rewrite take_0. cbn [le_decode].
    pose proof (Z_of_byte_range (byte_of_Z (uint 16 (str_len b)))).
    pose proof (Z_of_byte_range (byte_of_Z (uint 16 (str_len b) / 256))).
    pose proof (Z_of_byte_range b1).
    assert (1 <= Z_of_byte b0); [|lia]. pose proof (Z_of_byte_range b0).
    destruct (decide (Z_of_byte b0 = 0)) as [E0|]; [|lia].
    pose proof (byte_of_Z_of_byte b0) as E. rewrite E0 in E. change (byte_of_Z 0) with x00 in E.
    by subst b0. }
  rewrite (proj2 (Z.leb_gt _ 1000)) by lia. by rewrite !andb_false_r.
Qed.

(** A short cluster sync has no members and is no connect message. *)
Lemma short_clusterSync data from :
  str_fits from -> at_off data 0 (encodeClusterSyncMsg from []) -> decodeConnectMsg data = None.
Proof.
  intros Ff Ha. unfold encodeClusterSyncMsg in Ha. unfold decodeConnectMsg.
  case_match; [done|]. read_string Ha E1. case_match; [done|]. case_match; [done|].
  assert (E2 : decodeString data o = (""%string, (o + 2)%nat)).
  { assert (F : field 2 data o = 0) by (destruct Ha as [_ Ha]; unfold field; by rewrite Ha).
    unfold decodeString. rewrite F. change (Z.to_nat 0) with 0%nat.
    rewrite length_app, length_le_encode in *. rewrite Nat.add_0_r. len_checks. done. }
  rewrite E2. case_match; [done|]. done.
Qed.

(** ** The property *)

Definition wireType (m : memberMsg) : Z :=
  match m with
  | pingMsg _ _ _ | ackMsg _ _ _ | indirectProbeMsg _ _ _ | indirectAckMsg _ _ _ _ => 1
  | connectMsg _ _ _ | clusterSyncMsg _ _ => 2
  | leaveMsg _ _ => 3
  end.

Definition msg_fits (m : memberMsg) : Prop :=
  match m with
  | pingMsg from to inc | ackMsg from to inc | indirectProbeMsg from to inc =>
      str_fits from /\ str_fits to /\ is_sint 64 inc /\ to <> ""%string
  | connectMsg id addr inc =>
      str_fits id /\ str_fits addr /\ is_sint 64 inc /\ id <> ""%string /\ badAddress addr = false
  | leaveMsg id inc => str_fits id /\ is_sint 64 inc
  | clusterSyncMsg from members =>
      str_fits from /\ Forall node_fits members /\ (length members <= 1000)%nat
  | indirectAckMsg _ _ _ _ => False
  end.

(** What the receiver sees. *)
Definition wire_msg (m : memberMsg) : memberMsg :=
  match m with
  | ackMsg from to inc | indirectProbeMsg from to inc => pingMsg from to inc
  | clusterSyncMsg from members => clusterSyncMsg from (wire_node <$> members)
  | m => m
  end.

Lemma decode_type1 data a b inc :
  two_strings data a b inc -> b <> ""%string ->
  DecodeMemberMsg (Some data) 1 = Some (pingMsg a b inc).
Proof.
  intros T Hb. pose proof (two_strings_length _ _ _ _ T). unfold DecodeMemberMsg.
  change (slice_bytes (Some data)) with data. rewrite (proj2 (Nat.eqb_neq (length data) 0)) by lia.
  simpl Z.eqb. cbv iota. rewrite (decodePing_two _ _ _ _ T). cbn [pingTo].
  by rewrite bool_decide_eq_false_2.
Qed.

Lemma decode_type3 id inc :
  str_fits id -> is_sint 64 inc ->
  DecodeMemberMsg (Some (encodeLeaveMsg id inc)) 3 = Some (leaveMsg id inc).
Proof.
  intros F1 F2. unfold DecodeMemberMsg. change (slice_bytes (Some ?x)) with x.
  assert (Ha : at_off (encodeLeaveMsg id inc) 0 (encodeLeaveMsg id inc)) by apply at_start.
  pose proof (at_len _ _ _ Ha) as HL. unfold encodeLeaveMsg in HL at 2.
  rewrite length_app, encodeStringTo_length in HL.
  rewrite (proj2 (Nat.eqb_neq _ 0)) by lia. simpl Z.eqb. cbv iota. by apply decodeLeave_encode.
Qed.

(** Member messages round trip through the wire and its one-byte type:
    pings, connects, leaves and cluster syncs of up to 1000 members are
    decoded as what was sent (a connect is never mistaken for a cluster sync
    or the reverse, though they share a type).  Acks and indirect probes are
    not: they share the layout and the type of a ping and are always received
    as pings. *)
Theorem membermsg_roundtrip m :
  msg_fits m -> DecodeMemberMsg (EncodeMemberMsg m) (wireType m) = Some (wire_msg m).
Proof.
  destruct m as [from to inc|id addr inc|id inc|from to inc|from to inc| |from l]; cbn [msg_fits];
    [intros (? & ? & ? & ?)|intros (F1 & F2 & F3 & F4 & F5)|intros (F1 & F2)
    |intros (? & ? & ? & ?)|intros (? & ? & ? & ?)|done|intros (F1 & F2 & F3)];
    cbn [EncodeMemberMsg wireType wire_msg];
    try (apply decode_type1; [repeat (split; [done|]); apply at_start|done]).
  - set (data := encodeConnectMsg id addr inc).
    assert (T : two_strings data id addr inc) by (repeat (split; [done|]); apply at_start).
    pose proof (two_strings_length _ _ _ _ T). unfold DecodeMemberMsg.
    change (slice_bytes (Some data)) with data. rewrite (proj2 (Nat.eqb_neq (length data) 0)) by lia.
    simpl Z.eqb. cbv iota. rewrite (looksLike_connect data id addr (encodeInt64 inc)) by (done || apply at_start).
    rewrite (decodeConnect_two data id addr inc) by done. rewrite F5.
    rewrite !bool_decide_eq_false_2; [done|by intros -> |done].
  - by apply decode_type3.
  - unfold DecodeMemberMsg. change (slice_bytes (Some ?x)) with x.
    set (data := encodeClusterSyncMsg from l). assert (Ha : at_off data 0 (encodeClusterSyncMsg from l)) by apply at_start.
    pose proof (at_len _ _ _ Ha) as HL. unfold encodeClusterSyncMsg in HL.
    rewrite !length_app, encodeStringTo_length, length_le_encode in HL.
    rewrite (proj2 (Nat.eqb_neq (length data) 0)) by lia. simpl Z.eqb. cbv iota.
    rewrite (looksLike_at data from (length l) _ F1 Ha F3).
    destruct (Nat.leb_spec 10 (length data)); [by apply decodeClusterSync_encode|].
    destruct l as [|n l].
    2:{ change (mjoin (encodeNodeInfo <$> n :: l))
          with (encodeNodeInfo n ++ mjoin (encodeNodeInfo <$> l)) in HL.
        rewrite length_app in HL. pose proof (encodeNodeInfo_length n). lia. }
    rewrite (short_clusterSync data from F1 Ha). by apply decodeClusterSync_encode.
Qed.

Lemma membermsg_roundtrip_witness :
  DecodeMemberMsg (EncodeMemberMsg (ackMsg "a" "b" 3)) 1 = Some (pingMsg "a" "b" 3) /\
  DecodeMemberMsg (EncodeMemberMsg (connectMsg "n1" "h:1" 0)) 2 = Some (connectMsg "n1" "h:1" 0).
Proof.
  split.
  - apply (membermsg_roundtrip (ackMsg "a" "b" 3)). by repeat split.
  - apply (membermsg_roundtrip (connectMsg "n1" "h:1" 0)). by repeat split.
Defined.
