(* ===== verification/HashRing.v ===== *)
(** The consistent hash ring (src/internal/cluster/hashring.go): construction
    with virtual nodes, lookup of one owner and of [n] replicas.

    A lookup is shown to return the virtual node at the least clockwise
    distance from the key's hash, whatever order sort.Slice leaves equal
    hashes in. *)

From Stdlib Require Import ZArith Lia Sorting.Sorted.
From Stdlib Require Import Strings.String Strings.Byte.
From S2P Require Import Prelude.

Record ringNode := mkRN { rn_hash : Z; rn_nodeID : string }.

#[export] Instance ringNode_eq_dec : EqDecision ringNode.
Proof. solve_decision. Defined.

Record hashRing := mkRing {
  hr_version : Z;
  hr_virtualNodes : nat;
  hr_nodes : list ringNode;
}.

(** ** sort.Slice and sort.Search *)

Definition hash_le (a b : ringNode) : Prop := rn_hash a <= rn_hash b.

#[export] Instance hash_le_dec : RelDecision hash_le.
Proof. intros a b. apply Z.le_dec. Defined.

(** sort.Slice is not stable: it returns some sorted permutation. *)
Class SortSlice := sortSlice : list ringNode -> list ringNode.
Class SortSliceLaws `{SortSlice} := {
  sortSlice_perm l : sortSlice l ≡ₚ l;
  sortSlice_sorted l : StronglySorted hash_le (sortSlice l);
}.

(** [h := int(uint(i+j) >> 1)]; the interval halves, so [j - i] rounds are
    enough. *)
Fixpoint search_loop (fuel : nat) (f : nat -> bool) (i j : nat) : nat :=
  match fuel with
  | O => i
  | S fuel =>
      if (i <? j)%nat then
        let h := ((i + j) / 2)%nat in
        if f h then search_loop fuel f i h else search_loop fuel f (S h) j
      else i
  end.
Definition sort_Search (n : nat) (f : nat -> bool) : nat := search_loop n f 0 n.

(** ** [string(rune(i))]: the UTF-8 encoding of a code point *)

Definition stringOfRune (i : Z) : bytes :=
  let i := if (i <? 0) || (0x10FFFF <? i) || ((0xD800 <=? i) && (i <=? 0xDFFF)) then 0xFFFD else i in
  let tail k := byte_of_Z (Z.lor 0x80 (Z.land (Z.shiftr i k) 0x3F)) in
  if i <? 0x80 then [byte_of_Z i]
  else if i <? 0x800 then [byte_of_Z (Z.lor 0xC0 (Z.shiftr i 6)); tail 0]
  else if i <? 0x10000 then [byte_of_Z (Z.lor 0xE0 (Z.shiftr i 12)); tail 6; tail 0]
  else [byte_of_Z (Z.lor 0xF0 (Z.shiftr i 18)); tail 12; tail 6; tail 0].

Section Ring.
Context `{XXH3, SortSlice}.

Definition newHashRing (virtualNodes : Z) : hashRing :=
  let virtualNodes := if virtualNodes <=? 0 then 128 else virtualNodes in
  mkRing 0 (Z.to_nat virtualNodes) [].

Definition Version (r : hashRing) : Z := hr_version r.

Definition vnodeKey (nodeID : string) (i : nat) : string :=
  BytesToString (StringToBytes nodeID ++ StringToBytes ":" ++ stringOfRune (Z.of_nat i)).

Definition vnode (nodeID : string) (i : nat) : ringNode :=
  mkRN (xxh3_Hi (vnodeKey nodeID i)) nodeID.

Definition vnodes (virtualNodes : nat) (nodeIDs : list string) : list ringNode :=
  mjoin ((fun nodeID => vnode nodeID <$> seq 0 virtualNodes) <$> nodeIDs).

Definition Update (r : hashRing) (version : Z) (nodeIDs : list string) : hashRing * bool :=
  if version <=? hr_version r then (r, false)
  else
    match nodeIDs with
    | [] => (mkRing version (hr_virtualNodes r) [], true)
    | _ => (mkRing version (hr_virtualNodes r) (sortSlice (vnodes (hr_virtualNodes r) nodeIDs)), true)
    end.

(** -1 is [None]. *)
Definition findNode (nodes : list ringNode) (hash : Z) : option nat :=
  match nodes with
  | [] => None
  | _ =>
      let idx := sort_Search (length nodes)
        (fun i => match nodes !! i with Some rn => hash <=? rn_hash rn | None => false end) in
      Some (if (length nodes <=? idx)%nat then 0%nat else idx)
  end.

Definition Get (r : hashRing) (key : string) : string :=
  match findNode (hr_nodes r) (xxh3_Hi key) with
  | None => ""%string
  | Some idx => match hr_nodes r !! idx with Some rn => rn_nodeID rn | None => ""%string end
  end.

(** The loop over [i]; [todo] is [len(data.nodes) - i]. *)
Fixpoint getN_loop (todo : nat) (nodes : list ringNode) (idx i : nat) (n : Z)
    (seen : gset string) (result : list string) : list string :=
  match todo with
  | O => result
  | S todo =>
      if Z.of_nat (length result) <? n then
        let pos := ((idx + i) mod length nodes)%nat in
        match nodes !! pos with
        | None => result
        | Some rn =>
            let nodeID := rn_nodeID rn in
            if decide (nodeID ∈ seen) then getN_loop todo nodes idx (S i) n seen result
            else getN_loop todo nodes idx (S i) n ({[nodeID]} ∪ seen) (result ++ [nodeID])
        end
      else result
  end.

Definition GetN (r : hashRing) (key : string) (n : Z) : list string :=
  if n <=? 0 then []
  else
    match findNode (hr_nodes r) (xxh3_Hi key) with
    | None => []
    | Some idx => getN_loop (length (hr_nodes r)) (hr_nodes r) idx 0 n ∅ []
    end.

(** * Binary search *)

Lemma search_loop_spec fuel f i j :
  (j - i <= fuel)%nat -> (i <= j)%nat ->
  (forall a b, (a <= b)%nat -> (b < j)%nat -> f a = true -> f b = true) ->
  let r := search_loop fuel f i j in
  (i <= r <= j)%nat /\ (forall a, (i <= a < r)%nat -> f a = false) /\
  (forall a, (r <= a < j)%nat -> f a = true).
Proof.
  revert i j. induction fuel as [|fuel IH]; intros i j Hf Hij Hm; cbv zeta; cbn [search_loop].
  { split; [lia|]. split; intros; lia. }
  destruct (Nat.ltb_spec i j) as [Hlt|]; [|split; [lia|]; split; intros; lia].
  set (h := ((i + j) / 2)%nat). assert (Hh : (i <= h < j)%nat).
  { subst h. split; [apply Nat.div_le_lower_bound; lia|apply Nat.div_lt_upper_bound; lia]. }
  destruct (f h) eqn:E.
  - destruct (IH i h) as (R1 & R2 & R3); [lia|lia| |].
    { intros a b ? ?. apply Hm; lia. }
    split; [lia|]. split; [done|]. intros a Ha. destruct (Nat.lt_ge_cases a h); [apply R3; lia|].
    apply (Hm h a); lia || done.
  - destruct (IH (S h) j) as (R1 & R2 & R3); [lia|lia|done|].
    split; [lia|]. split; [|done]. intros a Ha. destruct (Nat.lt_ge_cases h a); [apply R2; lia|].
    destruct (f a) eqn:Ea; [|done]. rewrite (Hm a h) in E; [done|lia|lia|done].
Qed.

Lemma sorted_lookup l a b x y :
  StronglySorted hash_le l -> (a <= b)%nat -> l !! a = Some x -> l !! b = Some y ->
  rn_hash x <= rn_hash y.
Proof.
  intros Hs. revert a b. induction Hs as [|z l _ IH Hz]; intros [|a] [|b] Hab Ha Hb;
    simplify_eq/=; try lia.
  - rewrite Forall_forall in Hz. apply Hz. by eapply list_elem_of_lookup_2.
  - eapply (IH a b); [lia|done|done].
Qed.

(** The index found is that of the first hash not below the key's, or 0. *)
Lemma findNode_spec nodes hash :
  StronglySorted hash_le nodes -> nodes <> [] ->
  exists idx rn, findNode nodes hash = Some idx /\ nodes !! idx = Some rn /\
    ((hash <= rn_hash rn /\ forall a x, (a < idx)%nat -> nodes !! a = Some x -> rn_hash x < hash) \/
     (idx = 0%nat /\ forall x, x ∈ nodes -> rn_hash x < hash)).
Proof.
  intros Hs Hne. unfold findNode. destruct nodes as [|n0 nodes0]; [done|].
  set (nodes := n0 :: nodes0) in *. set (f := fun i => match nodes !! i with Some _ => _ | None => _ end).
  destruct (search_loop_spec (length nodes) f 0 (length nodes)) as (R1 & R2 & R3); [lia|lia| |].
  { intros a b Hab Hb Hfa. unfold f in *. destruct (nodes !! a) as [x|] eqn:Ea; [|done].
    destruct (lookup_lt_is_Some_2 nodes b Hb) as [y Ey]. rewrite Ey.
    pose proof (sorted_lookup nodes a b x y Hs Hab Ea Ey). to_prop. apply Z.leb_le. lia. }
  change (search_loop (length nodes) f 0 (length nodes)) with (sort_Search (length nodes) f) in *.
  set (r := sort_Search (length nodes) f) in *.
  assert (Hbelow : forall a x, (a < r)%nat -> nodes !! a = Some x -> rn_hash x < hash).
  { intros a x Ha Ex. specialize (R2 a ltac:(lia)). unfold f in R2. rewrite Ex in R2. by to_prop. }
  destruct (Nat.leb_spec (length nodes) r).
  - exists 0%nat, n0. split; [done|]. split; [done|]. right. split; [done|].
    intros x [a Ex]%list_elem_of_lookup. apply (Hbelow a x); [|done].
    apply lookup_lt_Some in Ex. lia.
  - destruct (lookup_lt_is_Some_2 nodes r) as [rn Ern]; [lia|]. exists r, rn.
    split; [done|]. split; [done|]. left. split; [|done].
    specialize (R3 r ltac:(lia)). unfold f in R3. rewrite Ern in R3. by to_prop.
Qed.

(** * Clockwise distance *)

Definition clockwise (from to : Z) : Z := uint 64 (to - from).

Lemma clockwise_ge from to :
  is_uint 64 from -> is_uint 64 to ->
  clockwise from to = if from <=? to then to - from else to - from + 2 ^ 64.
Proof.
  unfold is_uint, clockwise, uint. intros Hf Ht. destruct (Z.leb_spec from to).
  - apply Z.mod_small. lia.
  - symmetry. apply Zmod_unique with (-1); lia.
Qed.

Lemma clockwise_inj from a b :
  is_uint 64 from -> is_uint 64 a -> is_uint 64 b -> clockwise from a = clockwise from b -> a = b.
Proof. intros Hf Ha Hb. rewrite !clockwise_ge by done. unfold is_uint in *. arith_cases; lia. Qed.

Definition nearest (hash : Z) (l : list ringNode) (rn : ringNode) : Prop :=
  rn ∈ l /\ forall x, x ∈ l -> clockwise hash (rn_hash rn) <= clockwise hash (rn_hash x).

Lemma findNode_nearest nodes hash :
  StronglySorted hash_le nodes -> nodes <> [] -> is_uint 64 hash ->
  (forall x, x ∈ nodes -> is_uint 64 (rn_hash x)) ->
  exists idx rn, findNode nodes hash = Some idx /\ nodes !! idx = Some rn /\ nearest hash nodes rn.
Proof.
  intros Hs Hne Hh Hu. destruct (findNode_spec nodes hash Hs Hne) as (idx & rn & E & Ern & Hcase).
  exists idx, rn. split; [done|]. split; [done|].
  assert (Hin : rn ∈ nodes) by by eapply list_elem_of_lookup_2.
  split; [done|]. intros x Hx. pose proof (Hu rn Hin). pose proof (Hu x Hx).
  apply list_elem_of_lookup in Hx as [a Ex]. rewrite !clockwise_ge by done. unfold is_uint in *.
  destruct Hcase as [[Hle Hbelow]|[-> Hall]].
  - destruct (Nat.lt_ge_cases a idx) as [Hlt|Hge].
    + pose proof (Hbelow a x Hlt Ex). arith_cases; lia.
    + pose proof (sorted_lookup nodes idx a rn x Hs Hge Ern Ex). arith_cases; lia.
  - pose proof (Hall rn Hin). pose proof (Hall x ltac:(by eapply list_elem_of_lookup_2)).
    pose proof (sorted_lookup nodes 0 a rn x Hs ltac:(lia) Ern Ex). arith_cases; lia.
Qed.

Context `{!XXH3Laws, !SortSliceLaws}.

Lemma vnodes_elem vn ids rn :
  rn ∈ vnodes vn ids <-> exists id i, id ∈ ids /\ (i < vn)%nat /\ rn = vnode id i.
Proof.
  unfold vnodes. rewrite list_elem_of_join. split.
  - intros (l & Hrn & (id & -> & Hid)%list_elem_of_fmap).
    apply list_elem_of_fmap in Hrn as (i & -> & Hi). apply elem_of_seq in Hi.
    exists id, i. split; [done|]. split; [lia|done].
  - intros (id & i & Hid & Hi & ->). exists (vnode id <$> seq 0 vn). split.
    + apply list_elem_of_fmap. exists i. split; [done|]. apply elem_of_seq. lia.
    + apply list_elem_of_fmap. eauto.
Qed.

Lemma vnodes_hash vn ids rn : rn ∈ vnodes vn ids -> is_uint 64 (rn_hash rn).
Proof. intros (id & i & _ & _ & ->)%vnodes_elem. apply xxh3_Hi_range. Qed.

Lemma vnodes_owner vn ids rn : rn ∈ vnodes vn ids -> rn_nodeID rn ∈ ids.
Proof. by intros (id & i & ? & _ & ->)%vnodes_elem. Qed.

Lemma Update_nodes r v ids :
  hr_version r < v -> hr_nodes (Update r v ids).1 ≡ₚ vnodes (hr_virtualNodes r) ids /\
  StronglySorted hash_le (hr_nodes (Update r v ids).1).
Proof.
  intros Hv. unfold Update. rewrite (proj2 (Z.leb_gt _ _)) by lia.
  destruct ids as [|id ids]; [split; [done|constructor]|]. simpl.
  split; [apply sortSlice_perm|apply sortSlice_sorted].
Qed.

Lemma Get_nearest r v ids key :
  hr_version r < v -> vnodes (hr_virtualNodes r) ids <> [] ->
  exists rn, Get (Update r v ids).1 key = rn_nodeID rn /\
    nearest (xxh3_Hi key) (vnodes (hr_virtualNodes r) ids) rn.
Proof.
  intros Hv Hne. destruct (Update_nodes r v ids Hv) as [Hp Hs].
  set (nodes := hr_nodes (Update r v ids).1) in *.
  destruct (findNode_nearest nodes (xxh3_Hi key)) as (idx & rn & E & Ern & Hin & Hmin).
  - done.
  - intros E. rewrite E in Hp. by apply Permutation_nil_l in Hp.
  - apply xxh3_Hi_range.
  - intros x Hx. rewrite Hp in Hx. by eapply vnodes_hash.
  - exists rn. unfold Get. fold nodes. rewrite E, Ern. split; [done|].
    split; [by rewrite <- Hp|]. intros x Hx. apply Hmin. by rewrite Hp.
Qed.

(** * First occurrences *)

Fixpoint nub (seen : gset string) (l : list string) : list string :=
  match l with
  | [] => []
  | x :: l => if decide (x ∈ seen) then nub seen l else x :: nub ({[x]} ∪ seen) l
  end.

Lemma nub_elem seen l x : x ∈ nub seen l <-> x ∈ l /\ x ∉ seen.
Proof using Type. clear.
  revert seen. induction l as [|y l IH]; intros seen; cbn [nub]; [set_solver|].
  case_decide; rewrite ?elem_of_cons, IH; [set_solver|].
  destruct (decide (x = y)) as [->|]; set_solver.
Qed.

Lemma nub_NoDup seen l : NoDup (nub seen l).
Proof using Type. clear.
  revert seen. induction l as [|y l IH]; intros seen; cbn [nub]; [constructor|].
  case_decide; [done|]. constructor; [|done]. rewrite nub_elem. set_solver.
Qed.

(** The nodes clockwise from position [idx]. *)
Definition rotate (idx : nat) (nodes : list ringNode) : list string :=
  rn_nodeID <$> drop idx nodes ++ take idx nodes.

Lemma rotate_lookup idx nodes i rn :
  (idx < length nodes)%nat -> (i < length nodes)%nat ->
  nodes !! ((idx + i) mod length nodes)%nat = Some rn ->
  rotate idx nodes !! i = Some (rn_nodeID rn).
Proof using Type. clear.
  intros Hidx Hi E. unfold rotate. rewrite list_lookup_fmap.
  destruct (Nat.lt_ge_cases i (length nodes - idx)) as [Hlt|Hge].
  - rewrite lookup_app_l, lookup_drop by (rewrite length_drop; lia).
    rewrite Nat.mod_small in E by lia. by rewrite E.
  - rewrite lookup_app_r, length_drop by (rewrite length_drop; lia).
    replace ((idx + i) mod length nodes)%nat with (i - (length nodes - idx))%nat in E.
    2:{ apply (Nat.mod_unique _ _ 1); lia. }
    rewrite lookup_take_lt, E by lia. done.
Qed.

Lemma getN_loop_nub todo nodes idx i n seen result :
  (idx < length nodes)%nat -> (i + todo = length nodes)%nat ->
  Z.of_nat (length result) <= n ->
  getN_loop todo nodes idx i n seen result =
  result ++ take (Z.to_nat n - length result) (nub seen (drop i (rotate idx nodes))).
Proof using Type. clear.
  intros Hidx. revert i seen result. induction todo as [|todo IH]; intros i seen result Hi Hn.
  - cbn [getN_loop]. rewrite drop_ge; [cbn [nub]; by rewrite take_nil, app_nil_r|].
    unfold rotate. rewrite length_fmap, length_app, length_drop, length_take. lia.
  - cbn [getN_loop]. destruct (Z.ltb_spec (Z.of_nat (length result)) n).
    2:{ replace (Z.to_nat n - length result)%nat with 0%nat by lia. by rewrite take_0, app_nil_r. }
    assert (Hpos : ((idx + i) mod length nodes < length nodes)%nat) by (apply Nat.mod_upper_bound; lia).
    destruct (lookup_lt_is_Some_2 nodes _ Hpos) as [rn Ern]. rewrite Ern.
    rewrite (drop_S _ (rn_nodeID rn) i) by (apply rotate_lookup; [lia|lia|done]). cbn [nub].
    case_decide; [apply IH; lia|]. rewrite IH by (rewrite ?length_app; simpl; lia).
    rewrite <- app_assoc. f_equal.
    replace (Z.to_nat n - length result)%nat with (S (Z.to_nat n - length (result ++ [rn_nodeID rn])))%nat
      by (rewrite length_app; simpl; lia). done.
Qed.

(** Replica sets have no repetition, whatever the ring. *)
Lemma GetN_NoDup r key n : NoDup (GetN r key n).
Proof using Type. clear.
  unfold GetN, findNode. destruct (Z.leb_spec n 0); [constructor|].
  destruct (hr_nodes r) as [|n0 l0]; [constructor|]. set (nodes := n0 :: l0).
  set (idx := sort_Search _ _).
  rewrite getN_loop_nub; [|destruct (Nat.leb_spec (length nodes) idx); [subst nodes; simpl|]; lia|simpl; lia..].
  cbn [app]. eapply sublist_NoDup; [apply (nub_NoDup ∅)|]. apply sublist_take.
Qed.
End Ring.

(** * A concrete sort, for the witnesses *)

Module MergeSort.
#[export] Instance sort : SortSlice := merge_sort hash_le.

#[export] Instance laws : SortSliceLaws.
Proof.
  assert (Total hash_le) by (intros a b; unfold hash_le; lia).
  assert (Transitive hash_le) by (intros a b c; unfold hash_le; lia).
  split; intros l; unfold sortSlice, sort.
  - apply merge_sort_Permutation.
  - by apply StronglySorted_merge_sort.
Qed.
End MergeSort.

#[local] Existing Instance ToyHash.xxh3.
#[local] Existing Instance ToyHash.laws.
#[local] Existing Instance MergeSort.sort.
#[local] Existing Instance MergeSort.laws.

(** * Properties *)

(** Placement: after an update with a newer version, the owner of a key
    is the node of the virtual node nearest clockwise to the key's hash among
    all virtual nodes of all members: binary search with wrap-around computes
    the successor on the 64-bit ring. *)
Theorem ring_successor `{XXH3, SortSlice, !XXH3Laws, !SortSliceLaws} r v ids key :
  hr_version r < v -> (0 < hr_virtualNodes r)%nat -> ids <> [] ->
  exists rn, Get (Update r v ids).1 key = rn_nodeID rn /\ rn_nodeID rn ∈ ids /\
    nearest (xxh3_Hi key) (vnodes (hr_virtualNodes r) ids) rn.
Proof.
  intros Hv Hvn Hne. destruct (Get_nearest r v ids key Hv) as (rn & E & Hn).
  - destruct ids as [|id ids]; [done|]. intros E. apply (not_elem_of_nil (vnode id 0)). rewrite <- E.
    apply vnodes_elem. exists id, 0%nat. split; [by left|done].
  - exists rn. split; [done|]. split; [|done]. destruct Hn as [Hn _]. by eapply vnodes_owner.
Qed.

Lemma ring_successor_witness :
  exists rn, Get (Update (newHashRing 4) 1 ["n1"; "n2"]).1 "key" = rn_nodeID rn /\
    rn_nodeID rn ∈ ["n1"; "n2"]%string /\
    nearest (xxh3_Hi "key") (vnodes 4 ["n1"; "n2"]) rn.
Proof. apply ring_successor; [done|simpl; lia|done]. Defined.

(** C31. Minimal disruption: when a node joins (read backwards: leaves), a
    key either keeps its owner or moves to that node; no key moves between
    the other nodes.  It needs the virtual nodes' hashes to be distinct. *)
Theorem ring_minimal_disruption `{XXH3, SortSlice, !XXH3Laws, !SortSliceLaws} r v1 v2 ids n key :
  hr_version r < v1 -> hr_version r < v2 -> (0 < hr_virtualNodes r)%nat -> ids <> [] ->
  NoDup (rn_hash <$> vnodes (hr_virtualNodes r) (ids ++ [n])) ->
  Get (Update r v2 (ids ++ [n])).1 key = n \/
  Get (Update r v2 (ids ++ [n])).1 key = Get (Update r v1 ids).1 key.
Proof.
  intros Hv1 Hv2 Hvn Hne Hnd.
  assert (Hnon : forall l, l <> [] -> vnodes (hr_virtualNodes r) l <> []).
  { intros [|id l] ?; [done|]. intros E. apply (not_elem_of_nil (vnode id 0)). rewrite <- E.
    apply vnodes_elem. exists id, 0%nat. split; [by left|done]. }
  destruct (Get_nearest r v2 (ids ++ [n]) key Hv2) as (rn2 & -> & Hin2 & Hmin2).
  { apply Hnon. by destruct ids. }
  destruct (Get_nearest r v1 ids key Hv1 (Hnon ids Hne)) as (rn1 & -> & Hin1 & Hmin1).
  pose proof (vnodes_hash _ _ _ Hin1) as Hu1. pose proof (vnodes_hash _ _ _ Hin2) as Hu2.
  assert (Hin1' : rn1 ∈ vnodes (hr_virtualNodes r) (ids ++ [n])).
  { apply vnodes_elem in Hin1 as (id & i & Hid & Hi & ->). apply vnodes_elem.
    exists id, i. split; [apply elem_of_app; by left|done]. }
  pose proof Hin2 as (id & i & [Hid|Hid%list_elem_of_singleton]%elem_of_app & Hi & Ern)%vnodes_elem.
  - right. assert (Hin2' : rn2 ∈ vnodes (hr_virtualNodes r) ids) by (apply vnodes_elem; eauto).
    assert (Eh : rn_hash rn1 = rn_hash rn2).
    { eapply (clockwise_inj (xxh3_Hi key)); [apply xxh3_Hi_range|done|done|].
      pose proof (Hmin1 rn2 Hin2'). pose proof (Hmin2 rn1 Hin1'). lia. }
    apply list_elem_of_lookup in Hin1' as [a Ea]. apply list_elem_of_lookup in Hin2 as [b Eb].
    assert (a = b); [|congruence].
    eapply (NoDup_lookup _ a b (rn_hash rn1)); [exact Hnd| |]; rewrite list_lookup_fmap; [rewrite Ea|rewrite Eb]; simpl; congruence.
  - left. by subst.
Qed.

Lemma ring_minimal_disruption_witness :
  Get (Update (newHashRing 4) 1 (["n1"; "n2"] ++ ["n3"])).1 "key" = "n3"%string \/
  Get (Update (newHashRing 4) 1 (["n1"; "n2"] ++ ["n3"])).1 "key" =
  Get (Update (newHashRing 4) 1 ["n1"; "n2"]).1 "key".
Proof.
  apply ring_minimal_disruption; [done|done|simpl; lia|done|].
  apply (bool_decide_unpack _). vm_compute. exact I.
Defined.

(** The replicas of a key on an updated ring. *)
Lemma GetN_update `{XXH3, SortSlice, !XXH3Laws, !SortSliceLaws} r v ids key n :
  hr_version r < v -> (0 < hr_virtualNodes r)%nat -> ids <> [] -> 0 < n ->
  let r' := (Update r v ids).1 in
  let replicas := GetN r' key n in
  NoDup replicas /\ (forall id, id ∈ replicas -> id ∈ ids) /\
  length replicas = Nat.min (Z.to_nat n) (size (list_to_set ids : gset string)) /\
  head replicas = Some (Get r' key).
Proof.
  intros Hv Hvn Hne Hn. destruct (Update_nodes r v ids Hv) as [Hp Hs]. cbv zeta.
  unfold GetN, Get. rewrite (proj2 (Z.leb_gt n 0)) by lia.
  set (nodes := hr_nodes (Update r v ids).1) in *.
  assert (Hnodes : nodes <> []).
  { destruct ids as [|id ids]; [done|]. intros E. apply (not_elem_of_nil (vnode id 0)).
    rewrite <- E, Hp. apply vnodes_elem. exists id, 0%nat. split; [by left|done]. }
  destruct (findNode_spec nodes (xxh3_Hi key) Hs Hnodes) as (idx & rn & E & Ern & _).
  rewrite E, Ern. pose proof (lookup_lt_Some _ _ _ Ern) as Hidx.
  rewrite getN_loop_nub by (simpl; lia). cbn [app length]. rewrite Nat.sub_0_r, drop_0.
  set (l := nub ∅ (rotate idx nodes)).
  assert (Hrot : forall id, id ∈ rotate idx nodes <-> id ∈ ids).
  { intros id. unfold rotate. rewrite list_elem_of_fmap.
    assert (Hperm : drop idx nodes ++ take idx nodes ≡ₚ vnodes (hr_virtualNodes r) ids)
      by (by rewrite Permutation_app_comm, take_drop).
    setoid_rewrite Hperm. split.
    - intros (x & -> & Hx). by eapply vnodes_owner.
    - intros Hid. exists (vnode id 0). split; [done|]. apply vnodes_elem. eauto. }
  assert (Hl : list_to_set l = (list_to_set ids : gset string)).
  { apply set_eq. intros id. rewrite !elem_of_list_to_set. unfold l. rewrite nub_elem, Hrot. set_solver. }
  split; [|split; [|split]].
  - eapply sublist_NoDup; [apply nub_NoDup|apply sublist_take].
  - intros id Hid. apply Hrot. apply (nub_elem ∅ _ id). fold l.
    rewrite <- (take_drop (Z.to_nat n) l). apply elem_of_app. by left.
  - rewrite length_take, <- Hl, size_list_to_set by apply nub_NoDup. done.
  - destruct (Z.to_nat n) eqn:En; [lia|]. unfold l, rotate. rewrite (drop_S nodes rn idx) by done. done.
Qed.

(** C10. Replica selection: [GetN] returns min(n, number of members) distinct
    members, in clockwise order of their first virtual node from the key, the
    first being the owner that [Get] returns. *)
Theorem getN_replicas `{XXH3, SortSlice, !XXH3Laws, !SortSliceLaws} r v ids key n :
  hr_version r < v -> (0 < hr_virtualNodes r)%nat -> ids <> [] -> 0 < n ->
  let r' := (Update r v ids).1 in
  let replicas := GetN r' key n in
  NoDup replicas /\ (forall id, id ∈ replicas -> id ∈ ids) /\
  length replicas = Nat.min (Z.to_nat n) (size (list_to_set ids : gset string)) /\
  head replicas = Some (Get r' key).
Proof. apply GetN_update. Qed.

Lemma getN_replicas_witness :
  length (GetN (Update (newHashRing 4) 1 ["n1"; "n2"]).1 "key" 3) = 2%nat.
Proof.
  destruct (getN_replicas (newHashRing 4) 1 ["n1"; "n2"] "key" 3) as (_ & _ & E & _);
    [done|simpl; lia|done|done|]. rewrite E. by vm_compute.
Defined.
