(* ===== verification/Member.v ===== *)
(** SWIM membership (src/internal/cluster/member.go): the member table, the
    message handlers, the ping cycle and the suspicion timers.

    An operation runs on the manager's state and returns the new state with
    what it did to the outside, in order: messages handed to sendFunc, calls
    of onMembershipChange (with the table the callback sees) and timers given
    to the scheduler.  Whether a send succeeds is up to [sendOK]. *)

From Stdlib Require Import ZArith Lia.
From Stdlib Require Import Strings.String Strings.Byte.
From S2P Require Import Prelude Codec.

(** * State *)

Record memberMgr := mkMgr {
  mm_nodeID : string;
  mm_address : string;
  mm_incarnation : Z;
  mm_members : gmap string NodeInfo;
  mm_pingInterval : Z;
  mm_failureTimeout : Z;
  mm_suspectTimeout : Z;
  mm_sendFunc : bool;            (** sendFunc != nil *)
  mm_onMembershipChange : bool;  (** onMembershipChange != nil *)
  mm_indirectProbes : gmap string string;
}.

Inductive effect :=
  | ESend (address : string) (msg : memberMsg)
  | EChange (members : gmap string NodeInfo)
  | ESchedule (delay : Z) (nodeID : string)
  | EPanic.

(** Operations, their sequence and the empty one. *)
Definition act := memberMgr -> memberMgr * list effect.
Definition skip : act := fun m => (m, []).
Definition andThen (a b : act) : act := fun m =>
  let '(m1, e1) := a m in let '(m2, e2) := b m1 in (m2, e1 ++ e2).

Declare Scope member_scope.
Delimit Scope member_scope with member.
Infix ">>" := andThen (at level 61, left associativity) : member_scope.
#[local] Open Scope member_scope.

Definition setMembers (ms : gmap string NodeInfo) (m : memberMgr) : memberMgr :=
  mkMgr (mm_nodeID m) (mm_address m) (mm_incarnation m) ms (mm_pingInterval m)
    (mm_failureTimeout m) (mm_suspectTimeout m) (mm_sendFunc m) (mm_onMembershipChange m)
    (mm_indirectProbes m).
Definition setIncarnation (inc : Z) (m : memberMgr) : memberMgr :=
  mkMgr (mm_nodeID m) (mm_address m) inc (mm_members m) (mm_pingInterval m)
    (mm_failureTimeout m) (mm_suspectTimeout m) (mm_sendFunc m) (mm_onMembershipChange m)
    (mm_indirectProbes m).
Definition setProbes (ps : gmap string string) (m : memberMgr) : memberMgr :=
  mkMgr (mm_nodeID m) (mm_address m) (mm_incarnation m) (mm_members m) (mm_pingInterval m)
    (mm_failureTimeout m) (mm_suspectTimeout m) (mm_sendFunc m) (mm_onMembershipChange m) ps.

Definition store (id : string) (info : NodeInfo) : act := fun m =>
  (setMembers (<[id := info]> (mm_members m)) m, []).
Definition notify : act := fun m =>
  (m, if mm_onMembershipChange m then [EChange (mm_members m)] else []).
Definition send (address : string) (msg : memberMsg) : act := fun m =>
  (m, if mm_sendFunc m then [ESend address msg] else []).

(** * Construction *)

Record memberConfig := mkMemberConfig {
  mc_NodeID : string;
  mc_Address : string;
  mc_PingInterval : Z;
  mc_FailureTimeout : Z;
  mc_SuspectTimeout : Z;
  mc_SendFunc : bool;
  mc_OnMembershipChange : bool;
}.

Definition newMemberMgr (cfg : memberConfig) (now : Z) : memberMgr :=
  let ping := if mc_PingInterval cfg <=? 0 then 250 * Millisecond else mc_PingInterval cfg in
  let fail := if mc_FailureTimeout cfg <=? 0 then 12 * Second else mc_FailureTimeout cfg in
  let susp := if mc_SuspectTimeout cfg <=? 0 then 8 * Second else mc_SuspectTimeout cfg in
  let self := mkNode (mc_NodeID cfg) (mc_Address cfg) NodeStateAlive 0 now zeroTime in
  mkMgr (mc_NodeID cfg) (mc_Address cfg) 0 {[mc_NodeID cfg := self]} ping fail susp
    (mc_SendFunc cfg) (mc_OnMembershipChange cfg) ∅.

Definition MemberStart (now : Z) : act := fun m => (setIncarnation (UnixNano now) m, []).

(** * Node records *)

Definition Members (m : memberMgr) : list NodeInfo := (map_to_list (mm_members m)).*2.

Definition MemberState (m : memberMgr) (nodeID : string) : Z :=
  match mm_members m !! nodeID with
  | None => NodeStateUnknown
  | Some info => ni_State info
  end.

Definition markDead (nodeID : string) : act := fun m =>
  match mm_members m !! nodeID with
  | None => skip m
  | Some info =>
      if ni_State info =? NodeStateDead then skip m
      else
        let newInfo := mkNode (ni_NodeID info) (ni_Address info) NodeStateDead
                         (ni_Incarnation info) (ni_LastActive info) zeroTime in
        (store nodeID newInfo >> notify) m
  end.

Definition markSuspect (nodeID : string) : act := fun m =>
  match mm_members m !! nodeID with
  | None => skip m
  | Some info =>
      if ni_State info =? NodeStateSuspect then skip m
      else
        let newInfo := mkNode (ni_NodeID info) (ni_Address info) NodeStateSuspect
                         (ni_Incarnation info) (ni_LastActive info) zeroTime in
        (store nodeID newInfo >> notify >>
         (fun m => (m, [ESchedule (mm_suspectTimeout m) nodeID]))) m
  end.

(** The function given to the scheduler by [markSuspect], when it runs. *)
Definition suspectExpired (nodeID : string) (now : Z) : act := fun m =>
  match mm_members m !! nodeID with
  | None => skip m
  | Some info =>
      if (ni_State info =? NodeStateSuspect) && (mm_suspectTimeout m <? Sub now (ni_LastActive info))
      then markDead nodeID m else skip m
  end.

Definition updateLastActive (nodeID : string) (now : Z) : act := fun m =>
  if bool_decide (nodeID = ""%string) then skip m
  else match mm_members m !! nodeID with
  | None => skip m
  | Some info =>
      if negb (ni_State info =? NodeStateAlive) then skip m
      else if Sub now (ni_LastActive info) <? Second then skip m
      else store nodeID (mkNode (ni_NodeID info) (ni_Address info) (ni_State info)
                           (ni_Incarnation info) now (ni_SuspectSince info)) m
  end.

Definition updateNode (nodeID address : string) (incarnation state now : Z) : act := fun m =>
  if bool_decide (address = ""%string) then skip m
  else
    let newInfo := mkNode nodeID address state incarnation now zeroTime in
    match mm_members m !! nodeID with
    | None => (store nodeID newInfo >> notify) m
    | Some info =>
        if incarnation <? ni_Incarnation info then skip m
        else if (ni_State info =? state) && bool_decide (ni_Address info = address) &&
                (ni_Incarnation info =? incarnation) then
          if Second <? Sub now (ni_LastActive info) then store nodeID newInfo m else skip m
        else (store nodeID newInfo >> notify) m
    end.

(** The address under which a node can be reached, if it is known. *)
Definition knownAddress (m : memberMgr) (id : string) : option string :=
  match mm_members m !! id with
  | Some info => if bool_decide (ni_Address info = ""%string) then None else Some (ni_Address info)
  | None => None
  end.

(** * Handlers *)

Section Handlers.
Context (sendOK : string -> memberMsg -> bool).

Definition handlePing (from to : string) (inc now : Z) : act := fun m =>
  match knownAddress m from with
  | None => skip m
  | Some address =>
      (updateNode from address inc NodeStateAlive now >>
       send address (ackMsg (mm_nodeID m) from (mm_incarnation m))) m
  end.

(** The end of [handleAck]: the ack of a probed target goes back to the node
    that asked for the probe. *)
Definition forwardAck (from : string) (inc : Z) : act := fun m =>
  match mm_indirectProbes m !! from with
  | None => skip m
  | Some originalSender =>
      let m := setProbes (delete from (mm_indirectProbes m)) m in
      match knownAddress m originalSender with
      | None => skip m
      | Some address => send address (indirectAckMsg (mm_nodeID m) originalSender from inc) m
      end
  end.

Definition handleAck (from to : string) (inc now : Z) : act := fun m =>
  ((match knownAddress m from with
    | None => skip
    | Some address => updateNode from address inc NodeStateAlive now
    end) >> forwardAck from inc) m.

Definition handleConnect (nodeID address : string) (inc now : Z) : act := fun m =>
  if bool_decide (address = ""%string) || (str_len address <? 3) then skip m
  else
    (updateNode nodeID address inc NodeStateAlive now >>
     (fun m => send address (clusterSyncMsg (mm_nodeID m) (Members m)) m)) m.

Definition handleLeave (nodeID : string) (inc now : Z) : act :=
  updateNode nodeID "" inc NodeStateDead now.

Definition handleIndirectProbe (from target : string) (inc : Z) : act := fun m =>
  if mm_sendFunc m then
    match knownAddress m target with
    | None => skip m
    | Some address =>
        send address (pingMsg (mm_nodeID m) target inc)
          (setProbes (<[target := from]> (mm_indirectProbes m)) m)
    end
  else skip m.

Definition handleIndirectAck (from to target : string) (inc now : Z) : act := fun m =>
  if mm_sendFunc m then
    ((match knownAddress m target with
      | None => skip
      | Some address => updateNode target address inc NodeStateAlive now
      end) >>
     (fun m =>
        match knownAddress m to with
        | None => skip m
        | Some address => send address (ackMsg target to inc) m
        end)) m
  else skip m.

Fixpoint handleClusterSync (members : list NodeInfo) (now : Z) : act :=
  match members with
  | [] => skip
  | member :: members =>
      (fun m =>
         if bool_decide (ni_NodeID member = mm_nodeID m) ||
            bool_decide (ni_Address member = ""%string) || badAddress (ni_Address member)
         then skip m
         else updateNode (ni_NodeID member) (ni_Address member) (ni_Incarnation member)
                (ni_State member) now m) >>
      handleClusterSync members now
  end.

Definition HandleMessage (msg : memberMsg) (now : Z) : act :=
  match msg with
  | pingMsg from to inc => handlePing from to inc now
  | ackMsg from to inc => handleAck from to inc now
  | connectMsg id addr inc => handleConnect id addr inc now
  | leaveMsg id inc => handleLeave id inc now
  | indirectProbeMsg from target inc => handleIndirectProbe from target inc
  | indirectAckMsg from to target inc => handleIndirectAck from to target inc now
  | clusterSyncMsg _ members => handleClusterSync members now
  end.

(** * The ping cycle *)

(** [for _, c := range s]: the runes of a string, invalid bytes as U+FFFD. *)
Fixpoint runes (fuel : nat) (l : bytes) : list Z :=
  match fuel with
  | O => []
  | S fuel =>
      match l with
      | [] => []
      | b0 :: l0 =>
          let c0 := Z_of_byte b0 in
          let cont lo hi b := (lo <=? Z_of_byte b) && (Z_of_byte b <=? hi) in
          let low6 b := Z.land (Z_of_byte b) 0x3F in
          let bad := 0xFFFD :: runes fuel l0 in
          if c0 <? 0x80 then c0 :: runes fuel l0
          else if (0xC2 <=? c0) && (c0 <=? 0xDF) then
            match l0 with
            | b1 :: l1 =>
                if cont 0x80 0xBF b1
                then Z.lor (Z.shiftl (Z.land c0 0x1F) 6) (low6 b1) :: runes fuel l1 else bad
            | _ => bad
            end
          else if (0xE0 <=? c0) && (c0 <=? 0xEF) then
            let lo := if c0 =? 0xE0 then 0xA0 else 0x80 in
            let hi := if c0 =? 0xED then 0x9F else 0xBF in
            match l0 with
            | b1 :: b2 :: l2 =>
                if cont lo hi b1 && cont 0x80 0xBF b2
                then Z.lor (Z.shiftl (Z.land c0 0x0F) 12)
                       (Z.lor (Z.shiftl (low6 b1) 6) (low6 b2)) :: runes fuel l2 else bad
            | _ => bad
            end
          else if (0xF0 <=? c0) && (c0 <=? 0xF4) then
            let lo := if c0 =? 0xF0 then 0x90 else 0x80 in
            let hi := if c0 =? 0xF4 then 0x8F else 0xBF in
            match l0 with
            | b1 :: b2 :: b3 :: l3 =>
                if cont lo hi b1 && cont 0x80 0xBF b2 && cont 0x80 0xBF b3
                then Z.lor (Z.shiftl (Z.land c0 0x07) 18)
                       (Z.lor (Z.shiftl (low6 b1) 12)
                          (Z.lor (Z.shiftl (low6 b2) 6) (low6 b3))) :: runes fuel l3 else bad
            | _ => bad
            end
          else bad
      end
  end.

Definition range_string (s : string) : list Z :=
  runes (length (StringToBytes s)) (StringToBytes s).

Definition proxyHash (targetID : string) : Z :=
  let hash := fold_left (fun hash c => sint 64 (hash * 31 + c)) (range_string targetID) 0 in
  if hash <? 0 then sint 64 (- hash) else hash.

Definition aliveMembers (m : memberMgr) (targetID : string) : list string :=
  (filter (fun kv => kv.1 <> mm_nodeID m /\ kv.1 <> targetID /\ ni_State kv.2 = NodeStateAlive)
     (map_to_list (mm_members m))).*1.

(** The remainder of the least int64 is negative: that index panics. *)
Definition tryIndirectProbe (targetID : string) : act := fun m =>
  let alive := aliveMembers m targetID in
  match alive with
  | [] => skip m
  | _ =>
      let i := Z.rem (proxyHash targetID) (Z.of_nat (length alive)) in
      if i <? 0 then (m, [EPanic])
      else
        match alive !! Z.to_nat i with
        | None => skip m
        | Some proxyID =>
            match knownAddress m proxyID with
            | None => skip m
            | Some address =>
                send address (indirectProbeMsg (mm_nodeID m) targetID (mm_incarnation m)) m
            end
        end
  end.

Definition pingNode (now : Z) (nodeID : string) : act := fun m =>
  match mm_members m !! nodeID with
  | None => skip m
  | Some info =>
      if bool_decide (nodeID = mm_nodeID m) then skip m
      else if ni_State info =? NodeStateDead then skip m
      else if mm_failureTimeout m <? Sub now (ni_LastActive info) then
        if ni_State info =? NodeStateSuspect then markDead nodeID m else markSuspect nodeID m
      else if ni_State info =? NodeStateSuspect then tryIndirectProbe nodeID m
      else if mm_sendFunc m then
        let msg := pingMsg (mm_nodeID m) nodeID (mm_incarnation m) in
        (send (ni_Address info) msg >>
         (if sendOK (ni_Address info) msg then updateLastActive nodeID now else skip)) m
      else skip m
  end.

(** The range visits every key once and only changes the record it is at. *)
Definition doPing (now : Z) : act := fun m =>
  fold_right (fun id (a : act) => pingNode now id >> a) skip (map_to_list (mm_members m)).*1 m.

(** * Joining and leaving *)

Fixpoint joinLoop (seed : list string) (m : memberMgr) (successCount : nat) (failed : bool)
    : list effect * nat * bool :=
  match seed with
  | [] => ([], successCount, failed)
  | addr :: seed =>
      if bool_decide (mm_address m = ""%string) || (str_len (mm_address m) <? 3)
      then joinLoop seed m successCount failed
      else
        let msg := connectMsg (mm_nodeID m) (mm_address m) (mm_incarnation m) in
        let '(es, n, f) :=
          if sendOK addr msg then joinLoop seed m (S successCount) failed
          else joinLoop seed m successCount true in
        (ESend addr msg :: es, n, f)
  end.

(** The messages sent and whether Join returns an error. *)
Definition Join (seed : list string) (m : memberMgr) : list effect * bool :=
  match seed with
  | [] => ([], false)
  | _ =>
      if negb (mm_sendFunc m) then ([], true)
      else
        let '(es, successCount, failed) := joinLoop seed m 0 false in
        (es, (successCount =? 0)%nat && failed)
  end.

Definition bumpIncarnation : act := fun m =>
  (setIncarnation (add64 (mm_incarnation m) 1) m, []).

Definition sendLeave : act := fun m =>
  (m, omap (fun info =>
         if bool_decide (ni_NodeID info <> mm_nodeID m) && (ni_State info =? NodeStateAlive) &&
            mm_sendFunc m
         then Some (ESend (ni_Address info) (leaveMsg (mm_nodeID m) (mm_incarnation m)))
         else None) (Members m)).

Definition Leave : act := fun m => (bumpIncarnation >> markDead (mm_nodeID m) >> sendLeave) m.
End Handlers.

(** * What every operation keeps *)

(** Records are filed under their own id, every peer has an address, and the
    node itself is in its table. *)
Record mgr_ok (m : memberMgr) : Prop := {
  mo_id id info : mm_members m !! id = Some info -> ni_NodeID info = id;
  mo_addr id info : mm_members m !! id = Some info -> id <> mm_nodeID m -> ni_Address info <> ""%string;
  mo_self : is_Some (mm_members m !! mm_nodeID m);
}.

(** No record disappears and no incarnation goes back; the settings stay. *)
Record mgr_le (m m' : memberMgr) : Prop := {
  ml_node : mm_nodeID m' = mm_nodeID m;
  ml_send : mm_sendFunc m' = mm_sendFunc m;
  ml_change : mm_onMembershipChange m' = mm_onMembershipChange m;
  ml_fail : mm_failureTimeout m' = mm_failureTimeout m;
  ml_inc id info : mm_members m !! id = Some info ->
    exists info', mm_members m' !! id = Some info' /\ ni_Incarnation info <= ni_Incarnation info';
}.

#[export] Instance mgr_le_preorder : PreOrder mgr_le.
Proof.
  split.
  - intros m. split; try done. intros id info E. exists info. split; [done|lia].
  - intros m1 m2 m3 [A1 A2 A3 A4 A5] [B1 B2 B3 B4 B5]. split; try congruence.
    intros id info E. destruct (A5 id info E) as (i2 & E2 & L2).
    destruct (B5 id i2 E2) as (i3 & E3 & L3). exists i3. split; [done|lia].
Qed.

(** What a membership callback sees of a table: everything but the times. *)
Definition node_view (i : NodeInfo) : string * string * Z * Z :=
  (ni_NodeID i, ni_Address i, ni_State i, ni_Incarnation i).
Definition view (ms : gmap string NodeInfo) : gmap string (string * string * Z * Z) :=
  node_view <$> ms.

(** The view last announced, [v] being the one before. *)
Definition announced (v : gmap string (string * string * Z * Z)) (es : list effect) :=
  fold_left (fun v e => if e is EChange ms then view ms else v) es v.

Lemma announced_app v es es' : announced v (es ++ es') = announced (announced v es) es'.
Proof. apply fold_left_app. Qed.

Record good_at (m : memberMgr) (a : act) : Prop := {
  ga_ok : mgr_ok m -> mgr_ok (a m).1;
  ga_le : mgr_ok m -> mgr_le m (a m).1;
  ga_view : mm_onMembershipChange m = true ->
    announced (view (mm_members m)) (a m).2 = view (mm_members (a m).1);
}.

Lemma good_skip m : good_at m skip.
Proof. split; [done|intros _; reflexivity|done]. Qed.

Lemma good_seq m a b :
  good_at m a -> good_at (a m).1 b -> mgr_ok m -> good_at m (a >> b).
Proof.
  intros [A1 A2 A3] [B1 B2 B3] Hok. specialize (A1 Hok). specialize (A2 Hok).
  assert (E : (a >> b) m = ((b (a m).1).1, (a m).2 ++ (b (a m).1).2)).
  { unfold andThen. destruct (a m) as [m1 e1]. simpl. by destruct (b m1). }
  specialize (B2 A1). split; rewrite E; simpl.
  - auto.
  - intros _. by transitivity (a m).1.
  - intros Hc. rewrite announced_app, A3 by done. apply B3. by rewrite (ml_change _ _ A2).
Qed.

(** An act that is good wherever the invariant holds. *)
Definition good (a : act) : Prop := forall m, mgr_ok m -> good_at m a.

Lemma good_then a b : good a -> good b -> good (a >> b).
Proof. intros Ha Hb m Hok. apply good_seq; [auto| |done]. apply Hb, Ha; auto. Qed.

(** Acts that leave the table alone and announce nothing. *)
Lemma good_quiet m m' es :
  mm_members m' = mm_members m -> mm_nodeID m' = mm_nodeID m -> mm_sendFunc m' = mm_sendFunc m ->
  mm_onMembershipChange m' = mm_onMembershipChange m -> mm_failureTimeout m' = mm_failureTimeout m ->
  (forall v, announced v es = v) -> forall a : act, a m = (m', es) -> good_at m a.
Proof.
  intros Em En Es Ec Ef Hes a Ea. split; rewrite Ea; simpl.
  - intros [O1 O2 O3]. split; rewrite ?Em, ?En; done.
  - intros _. split; try done. intros id info E. exists info. rewrite Em. split; [done|lia].
  - intros _. by rewrite Hes, Em.
Qed.

Lemma good_send address msg : good (send address msg).
Proof. intros m _. eapply good_quiet; try done. intros v. by destruct (mm_sendFunc m). Qed.

(** Storing a record that does not go back. *)
Definition fresh_record (m : memberMgr) (id : string) (info : NodeInfo) : Prop :=
  ni_NodeID info = id /\ (id <> mm_nodeID m -> ni_Address info <> ""%string) /\
  forall old, mm_members m !! id = Some old -> ni_Incarnation old <= ni_Incarnation info.

Lemma store_ok m id info : fresh_record m id info -> mgr_ok m ->
  mgr_ok (setMembers (<[id := info]> (mm_members m)) m) /\
  mgr_le m (setMembers (<[id := info]> (mm_members m)) m).
Proof.
  intros (F1 & F2 & F3) [O1 O2 O3]. split.
  - split; simpl.
    + intros k i. destruct (decide (id = k)) as [->|].
      * rewrite lookup_insert_eq. by intros [= <-].
      * rewrite lookup_insert_ne by done. auto.
    + intros k i. destruct (decide (id = k)) as [->|].
      * rewrite lookup_insert_eq. by intros [= <-].
      * rewrite lookup_insert_ne by done. eauto.
    + destruct (decide (id = mm_nodeID m)) as [->|].
      * rewrite lookup_insert_eq. by eexists.
      * by rewrite lookup_insert_ne.
  - split; try done. simpl. intros k i E. destruct (decide (id = k)) as [->|].
    + rewrite lookup_insert_eq. eauto.
    + rewrite lookup_insert_ne by done. exists i. split; [done|lia].
Qed.

Lemma good_put m id info : fresh_record m id info -> good_at m (store id info >> notify).
Proof.
  intros F. unfold andThen, store, notify. split; simpl.
  - intros Hok. by apply store_ok.
  - intros Hok. by apply store_ok.
  - by intros ->.
Qed.

(** A record that differs in its times only. *)
Lemma good_touch m id info old :
  mm_members m !! id = Some old -> node_view info = node_view old -> good_at m (store id info).
Proof.
  intros E V. unfold node_view in V. injection V as V1 V2 V3 V4.
  assert (F : mgr_ok m -> fresh_record m id info).
  { intros [O1 O2 O3]. split; [rewrite V1; by apply O1|]. split.
    - intros Hne. rewrite V2. by eapply O2.
    - intros o Eo. rewrite E in Eo. injection Eo as <-. lia. }
  unfold store. split; simpl.
  - intros Hok. by apply store_ok; [apply F|].
  - intros Hok. by apply store_ok; [apply F|].
  - intros _. unfold view. rewrite fmap_insert. symmetry. apply insert_id.
    rewrite lookup_fmap, E. simpl. unfold node_view. congruence.
Qed.

#[export] Hint Resolve good_skip good_send good_then : gridkv.

(** ** Every operation is good *)

(** Replaces the act at a state by one it equals there. *)
Lemma good_at_eq m (a b : act) : a m = b m -> good_at m b -> good_at m a.
Proof. intros E [G1 G2 G3]. split; rewrite E; done. Qed.

Lemma good_markDead nodeID : good (markDead nodeID).
Proof.
  intros m Hok. destruct (mm_members m !! nodeID) as [info|] eqn:E.
  2:{ apply (good_at_eq m _ skip); [unfold markDead; by rewrite E|apply good_skip]. }
  destruct (ni_State info =? NodeStateDead) eqn:Es.
  { apply (good_at_eq m _ skip); [unfold markDead; by rewrite E, Es|apply good_skip]. }
  eapply good_at_eq; [unfold markDead; rewrite E, Es; reflexivity|]. apply good_put.
  split; [exact (mo_id m Hok _ _ E)|]. split; [exact (mo_addr m Hok _ _ E)|].
  intros old Eo. rewrite E in Eo. injection Eo as <-. simpl. lia.
Qed.

Lemma good_markSuspect nodeID : good (markSuspect nodeID).
Proof.
  intros m Hok. destruct (mm_members m !! nodeID) as [info|] eqn:E.
  2:{ apply (good_at_eq m _ skip); [unfold markSuspect; by rewrite E|apply good_skip]. }
  destruct (ni_State info =? NodeStateSuspect) eqn:Es.
  { apply (good_at_eq m _ skip); [unfold markSuspect; by rewrite E, Es|apply good_skip]. }
  eapply good_at_eq; [unfold markSuspect; rewrite E, Es; reflexivity|].
  apply good_seq; [apply good_put| |done].
  - split; [exact (mo_id m Hok _ _ E)|]. split; [exact (mo_addr m Hok _ _ E)|].
    intros old Eo. rewrite E in Eo. injection Eo as <-. simpl. lia.
  - eapply good_quiet; try done. by intros v.
Qed.

Lemma good_suspectExpired nodeID now : good (suspectExpired nodeID now).
Proof.
  intros m Hok. destruct (mm_members m !! nodeID) as [info|] eqn:E.
  2:{ apply (good_at_eq m _ skip); [unfold suspectExpired; by rewrite E|apply good_skip]. }
  destruct ((ni_State info =? NodeStateSuspect) && (mm_suspectTimeout m <? Sub now (ni_LastActive info))) eqn:Eb.
  - apply (good_at_eq m _ (markDead nodeID)); [unfold suspectExpired; by rewrite E, Eb|by apply good_markDead].
  - apply (good_at_eq m _ skip); [unfold suspectExpired; by rewrite E, Eb|apply good_skip].
Qed.

Lemma good_updateLastActive nodeID now : good (updateLastActive nodeID now).
Proof.
  intros m Hok. destruct (bool_decide (nodeID = ""%string)) eqn:E0.
  { apply (good_at_eq m _ skip); [unfold updateLastActive; by rewrite E0|apply good_skip]. }
  destruct (mm_members m !! nodeID) as [info|] eqn:E.
  2:{ apply (good_at_eq m _ skip); [unfold updateLastActive; by rewrite E0, E|apply good_skip]. }
  destruct (negb (ni_State info =? NodeStateAlive)) eqn:E1.
  { apply (good_at_eq m _ skip); [unfold updateLastActive; by rewrite E0, E, E1|apply good_skip]. }
  destruct (Sub now (ni_LastActive info) <? Second) eqn:E2.
  { apply (good_at_eq m _ skip); [unfold updateLastActive; by rewrite E0, E, E1, E2|apply good_skip]. }
  eapply good_at_eq; [unfold updateLastActive; rewrite E0, E, E1, E2; reflexivity|].
  by eapply good_touch.
Qed.

Lemma good_updateNode nodeID address inc state now : good (updateNode nodeID address inc state now).
Proof.
  intros m Hok. destruct (bool_decide (address = ""%string)) eqn:E0.
  { apply (good_at_eq m _ skip); [unfold updateNode; by rewrite E0|apply good_skip]. }
  destruct (mm_members m !! nodeID) as [info|] eqn:E.
  2:{ eapply good_at_eq; [unfold updateNode; rewrite E0, E; reflexivity|]. to_prop. apply good_put.
      split; [done|]. split; [done|]. intros old Eo. congruence. }
  destruct (inc <? ni_Incarnation info) eqn:E1.
  { apply (good_at_eq m _ skip); [unfold updateNode; by rewrite E0, E, E1|apply good_skip]. }
  destruct ((ni_State info =? state) && bool_decide (ni_Address info = address) &&
            (ni_Incarnation info =? inc)) eqn:E2.
  - destruct (Second <? Sub now (ni_LastActive info)) eqn:E3.
    + eapply good_at_eq; [unfold updateNode; rewrite E0, E, E1, E2, E3; reflexivity|].
      eapply good_touch; [done|].
      to_prop. unfold node_view. simpl. rewrite (mo_id _ Hok _ _ E). congruence.
    + apply (good_at_eq m _ skip); [unfold updateNode; by rewrite E0, E, E1, E2, E3|apply good_skip].
  - eapply good_at_eq; [unfold updateNode; rewrite E0, E, E1, E2; reflexivity|]. to_prop. apply good_put.
    split; [done|]. split; [done|]. intros old Eo. rewrite E in Eo. injection Eo as <-. simpl. lia.
Qed.

#[export] Hint Resolve good_markDead good_markSuspect good_suspectExpired good_updateLastActive
  good_updateNode : gridkv.

(** An act that first reads its state. *)
Lemma good_read (g : memberMgr -> act) (a : act) :
  (forall m, a m = g m m) -> (forall m0, good (g m0)) -> good a.
Proof. intros Ha Hg m Hok. apply (good_at_eq m _ (g m)); [done|by apply Hg]. Qed.

Lemma good_none : good skip.
Proof. intros m _. apply good_skip. Qed.

#[export] Hint Resolve good_none : gridkv.

Section Good.
Context (sendOK : string -> memberMsg -> bool).

Lemma good_handlePing from to inc now : good (handlePing from to inc now).
Proof.
  apply (good_read (fun m0 => match knownAddress m0 from with None => skip
    | Some address => updateNode from address inc NodeStateAlive now >>
        send address (ackMsg (mm_nodeID m0) from (mm_incarnation m0)) end)).
  { intros m. unfold handlePing. by destruct (knownAddress m from). }
  intros m0. destruct (knownAddress m0 from); auto with gridkv.
Qed.

Lemma good_forward from inc : good (forwardAck from inc).
Proof.
  intros m Hok. destruct (mm_indirectProbes m !! from) as [o|] eqn:E.
  2:{ apply (good_at_eq m _ skip); [unfold forwardAck; by rewrite E|apply good_skip]. }
  set (m1 := setProbes (delete from (mm_indirectProbes m)) m).
  destruct (knownAddress m1 o) as [addr|] eqn:Ea.
  - apply (good_quiet m m1 (send addr (indirectAckMsg (mm_nodeID m1) o from inc) m1).2); try done.
    + intros v. unfold send. simpl. by destruct (mm_sendFunc m).
    + unfold forwardAck. rewrite E. fold m1. cbv zeta. by rewrite Ea.
  - apply (good_quiet m m1 []); try done. unfold forwardAck. rewrite E. fold m1. cbv zeta. by rewrite Ea.
Qed.

Lemma good_handleAck from to inc now : good (handleAck from to inc now).
Proof.
  apply (good_read (fun m0 => (match knownAddress m0 from with None => skip
    | Some address => updateNode from address inc NodeStateAlive now end) >> forwardAck from inc)); [reflexivity|].
  intros m0. apply good_then; [|apply good_forward].
  destruct (knownAddress m0 from); auto with gridkv.
Qed.

Lemma good_handleConnect id address inc now : good (handleConnect id address inc now).
Proof.
  apply (good_read (fun _ => if bool_decide (address = ""%string) || (str_len address <? 3) then skip
    else updateNode id address inc NodeStateAlive now >>
      (fun m => send address (clusterSyncMsg (mm_nodeID m) (Members m)) m))).
  { intros m. unfold handleConnect. by destruct (_ || _). }
  intros m0. destruct (_ || _); auto with gridkv. apply good_then; [auto with gridkv|].
  apply (good_read (fun m => send address (clusterSyncMsg (mm_nodeID m) (Members m)))); [done|].
  auto with gridkv.
Qed.

Lemma good_handleIndirectProbe from target inc : good (handleIndirectProbe from target inc).
Proof.
  intros m Hok. destruct (mm_sendFunc m) eqn:Es.
  2:{ apply (good_at_eq m _ skip); [unfold handleIndirectProbe; by rewrite Es|apply good_skip]. }
  destruct (knownAddress m target) as [addr|] eqn:Ea.
  2:{ apply (good_at_eq m _ skip); [unfold handleIndirectProbe; by rewrite Es, Ea|apply good_skip]. }
  eapply (good_quiet m (setProbes (<[target := from]> (mm_indirectProbes m)) m)
    [ESend addr (pingMsg (mm_nodeID m) target inc)]); try done.
  unfold handleIndirectProbe, send. rewrite Es, Ea. simpl. by rewrite Es.
Qed.

Lemma good_handleIndirectAck from to target inc now : good (handleIndirectAck from to target inc now).
Proof.
  apply (good_read (fun m0 => if mm_sendFunc m0 then
    (match knownAddress m0 target with None => skip
     | Some address => updateNode target address inc NodeStateAlive now end) >>
    (fun m => match knownAddress m to with None => skip m
              | Some address => send address (ackMsg target to inc) m end) else skip)).
  { intros m. unfold handleIndirectAck. by destruct (mm_sendFunc m). }
  intros m0. destruct (mm_sendFunc m0); auto with gridkv. apply good_then.
  - destruct (knownAddress m0 target); auto with gridkv.
  - apply (good_read (fun m => match knownAddress m to with None => skip
      | Some address => send address (ackMsg target to inc) end)).
    { intros m. by destruct (knownAddress m to). }
    intros m1. destruct (knownAddress m1 to); auto with gridkv.
Qed.

Lemma good_handleClusterSync members now : good (handleClusterSync members now).
Proof.
  induction members as [|n members IH]; cbn [handleClusterSync]; [auto with gridkv|].
  apply good_then; [|done].
  apply (good_read (fun m => if bool_decide (ni_NodeID n = mm_nodeID m) ||
    bool_decide (ni_Address n = ""%string) || badAddress (ni_Address n) then skip
    else updateNode (ni_NodeID n) (ni_Address n) (ni_Incarnation n) (ni_State n) now)).
  { intros m. by destruct (_ || _). }
  intros m0. destruct (_ || _); auto with gridkv.
Qed.

Lemma good_HandleMessage msg now : good (HandleMessage msg now).
Proof.
  destruct msg; [apply good_handlePing|apply good_handleConnect|apply good_updateNode
    |apply good_handleAck|apply good_handleIndirectProbe|apply good_handleIndirectAck
    |apply good_handleClusterSync].
Qed.

Lemma good_tryIndirectProbe id : good (tryIndirectProbe id).
Proof.
  intros m Hok. unfold tryIndirectProbe.
  assert (Hq : exists es, tryIndirectProbe id m = (m, es) /\ forall v, announced v es = v).
  { unfold tryIndirectProbe. destruct (aliveMembers m id); [by exists []|].
    case_match; [by eexists|]. case_match; [|by exists []].
    case_match; [|by exists []]. eexists. split; [reflexivity|]. intros v. by destruct (mm_sendFunc m). }
  destruct Hq as (es & E & He). by eapply (good_quiet m m es).
Qed.

Lemma good_pingNode now id : good (pingNode sendOK now id).
Proof.
  intros m Hok. set (msg := pingMsg (mm_nodeID m) id (mm_incarnation m)).
  assert (Hcase : pingNode sendOK now id m = skip m \/ pingNode sendOK now id m = markDead id m \/
    pingNode sendOK now id m = markSuspect id m \/ pingNode sendOK now id m = tryIndirectProbe id m \/
    exists a, pingNode sendOK now id m = (send a msg >> updateLastActive id now) m \/
              pingNode sendOK now id m = (send a msg >> skip) m).
  { unfold pingNode. destruct (mm_members m !! id) as [info|]; [|by left].
    destruct (bool_decide _); [by left|]. destruct (ni_State info =? NodeStateDead); [by left|].
    destruct (mm_failureTimeout m <? _); [destruct (ni_State info =? NodeStateSuspect); tauto|].
    destruct (ni_State info =? NodeStateSuspect); [tauto|]. destruct (mm_sendFunc m); [|by left].
    do 4 right. exists (ni_Address info). fold msg.
    destruct (sendOK (ni_Address info) msg); auto. }
  destruct Hcase as [E|[E|[E|[E|(a & [E|E])]]]]; (eapply good_at_eq; [exact E|]).
  - apply good_skip.
  - by apply good_markDead.
  - by apply good_markSuspect.
  - by apply good_tryIndirectProbe.
  - apply good_then; auto with gridkv.
  - apply good_then; auto with gridkv.
Qed.

Lemma good_fold ids now : good (fold_right (fun id a => pingNode sendOK now id >> a) skip ids).
Proof. induction ids; simpl; [auto with gridkv|]. apply good_then; [apply good_pingNode|done]. Qed.

Lemma good_doPing now : good (doPing sendOK now).
Proof.
  apply (good_read (fun m => fold_right (fun id a => pingNode sendOK now id >> a) skip
    (map_to_list (mm_members m)).*1)); [done|].
  intros m0. apply good_fold.
Qed.

Lemma good_Leave : good Leave.
Proof.
  apply (good_read (fun m0 => bumpIncarnation >> markDead (mm_nodeID m0) >> sendLeave)); [reflexivity|].
  intros m0. apply good_then; [apply good_then; [|auto with gridkv]|].
  - intros m _. by apply (good_quiet m (setIncarnation (add64 (mm_incarnation m) 1) m) []).
  - intros m _. apply (good_quiet m m (sendLeave m).2); try done. intros v. unfold sendLeave. simpl.
    generalize (Members m). intros l. revert v. induction l as [|n l IH]; intros v; [done|].
    simpl. destruct (_ && _ && _); [|done]. simpl. apply IH.
Qed.

Lemma good_MemberStart now : good (MemberStart now).
Proof. intros m _. by apply (good_quiet m (setIncarnation (UnixNano now) m) []). Qed.
End Good.

(** * Reachable states *)

Section Reach.
Context (sendOK : string -> memberMsg -> bool).

Inductive member_step (m : memberMgr) : memberMgr -> Prop :=
| ms_message msg now : member_step m (HandleMessage msg now m).1
| ms_ping now : member_step m (doPing sendOK now m).1
| ms_expire id now : member_step m (suspectExpired id now m).1
| ms_leave : member_step m (Leave m).1
| ms_start now : member_step m (MemberStart now m).1.

Lemma member_step_good m m' : member_step m m' -> mgr_ok m -> mgr_ok m' /\ mgr_le m m'.
Proof.
  intros Hs Hok.
  destruct Hs as [msg now|now|id now| |now];
    [destruct (good_HandleMessage msg now m Hok)|destruct (good_doPing sendOK now m Hok)
    |destruct (good_suspectExpired id now m Hok)|destruct (good_Leave m Hok)
    |destruct (good_MemberStart now m Hok)]; auto.
Qed.

Lemma newMemberMgr_ok cfg now : mgr_ok (newMemberMgr cfg now).
Proof.
  split; simpl.
  - intros id info [<- <-]%lookup_singleton_Some. done.
  - intros id info [<- <-]%lookup_singleton_Some. done.
  - rewrite lookup_singleton_eq. by eexists.
Qed.

(** ** One node's record under a ping cycle *)

Lemma markDead_other id k m : k <> id -> mm_members (markDead id m).1 !! k = mm_members m !! k.
Proof.
  intros Hne. unfold markDead. repeat case_match; try done. simpl. by rewrite lookup_insert_ne.
Qed.

Lemma markSuspect_other id k m : k <> id -> mm_members (markSuspect id m).1 !! k = mm_members m !! k.
Proof.
  intros Hne. unfold markSuspect. repeat case_match; try done. simpl. by rewrite lookup_insert_ne.
Qed.

Lemma updateLastActive_other id now k m :
  k <> id -> mm_members (updateLastActive id now m).1 !! k = mm_members m !! k.
Proof.
  intros Hne. unfold updateLastActive. repeat case_match; try done. simpl. by rewrite lookup_insert_ne.
Qed.

Lemma probe_members id m : mm_members (tryIndirectProbe id m).1 = mm_members m.
Proof. unfold tryIndirectProbe. by repeat case_match. Qed.

Lemma pingNode_other now id k m :
  k <> id -> mm_members (pingNode sendOK now id m).1 !! k = mm_members m !! k.
Proof.
  intros Hne. unfold pingNode. destruct (mm_members m !! id) as [info|]; [|done].
  destruct (bool_decide _); [done|]. destruct (ni_State info =? NodeStateDead); [done|].
  destruct (mm_failureTimeout m <? _).
  { case_match; [by apply markDead_other|by apply markSuspect_other]. }
  case_match; [by rewrite probe_members|]. destruct (mm_sendFunc m); [|done].
  unfold andThen, send. destruct (sendOK _ _); [|done].
  pose proof (updateLastActive_other id now k m Hne) as E. by destruct (updateLastActive id now m).
Qed.

(** The record of a node that has been silent too long. *)
Definition demoted (info : NodeInfo) : NodeInfo :=
  mkNode (ni_NodeID info) (ni_Address info)
    (if ni_State info =? NodeStateSuspect then NodeStateDead else NodeStateSuspect)
    (ni_Incarnation info) (ni_LastActive info) zeroTime.

Definition silent (m : memberMgr) (id : string) (info : NodeInfo) (now : Z) : Prop :=
  mm_members m !! id = Some info /\ id <> mm_nodeID m /\ ni_State info <> NodeStateDead /\
  mm_failureTimeout m < Sub now (ni_LastActive info).

Lemma pingNode_silent now id m info :
  silent m id info now -> mm_members (pingNode sendOK now id m).1 !! id = Some (demoted info).
Proof.
  intros (E & Hself & Hd & Hto). unfold pingNode. rewrite E.
  rewrite bool_decide_eq_false_2, (proj2 (Z.eqb_neq _ _) Hd), (proj2 (Z.ltb_lt _ _) Hto) by done.
  unfold demoted. destruct (ni_State info =? NodeStateSuspect) eqn:Es.
  - unfold markDead. rewrite E, (proj2 (Z.eqb_neq _ _) Hd). simpl. apply lookup_insert_eq.
  - unfold markSuspect. rewrite E, Es. simpl. apply lookup_insert_eq.
Qed.

Lemma andThen_fst (a b : act) m : ((a >> b)%member m).1 = (b (a m).1).1.
Proof. unfold andThen. destruct (a m) as [m1 e1]. simpl. by destruct (b m1). Qed.

Lemma fold_ping_other now ids k m :
  k ∉ ids -> mm_members (fold_right (fun id (a : act) => pingNode sendOK now id >> a)%member skip ids m).1 !! k
             = mm_members m !! k.
Proof.
  revert m. induction ids as [|id ids IH]; intros m Hk; [done|]. apply not_elem_of_cons in Hk as [Hne Hk].
  cbn [fold_right]. rewrite andThen_fst, IH by done. by apply pingNode_other.
Qed.

Lemma fold_ping_silent now ids id info m :
  mgr_ok m -> NoDup ids -> id ∈ ids -> silent m id info now ->
  mm_members (fold_right (fun id (a : act) => pingNode sendOK now id >> a)%member skip ids m).1 !! id
  = Some (demoted info).
Proof.
  intros Hok Hnd. revert m Hok. induction Hnd as [|x ids Hx Hnd IH]; intros m Hok Hin Hs.
  { by apply elem_of_nil in Hin. }
  cbn [fold_right]. rewrite andThen_fst. destruct (decide (id = x)) as [->|Hne].
  - rewrite fold_ping_other by done. by apply pingNode_silent.
  - apply elem_of_cons in Hin as [|Hin]; [done|].
    destruct (good_pingNode sendOK now x m Hok) as [G1 G2 _].
    specialize (G1 Hok). specialize (G2 Hok). apply IH; [done|done|].
    destruct Hs as (E & Hself & Hd & Hto). split; [by rewrite pingNode_other|].
    split; [by rewrite (ml_node _ _ G2)|]. split; [done|]. by rewrite (ml_fail _ _ G2).
Qed.

Lemma doPing_silent now id info m :
  mgr_ok m -> silent m id info now -> mm_members (doPing sendOK now m).1 !! id = Some (demoted info).
Proof.
  intros Hok Hs. unfold doPing. apply fold_ping_silent; [done|apply NoDup_fst_map_to_list| |done].
  destruct Hs as (E & _). apply list_elem_of_fmap. exists (id, info). split; [done|].
  by apply elem_of_map_to_list.
Qed.

Lemma Sub_mono a b c : a <= b -> Sub a c <= Sub b c.
Proof. unfold Sub. lia. Qed.
End Reach.

(** * Properties *)

(** C13. The membership invariant: in every state that messages, ping cycles,
    timers, restarts and departures, one after the other, lead to, records are filed under their own
    id, every peer has a usable address and the node itself is in its table;
    and from any such state on, however much more of this happens, no record is
    ever removed, of a dead peer neither, and no node's incarnation ever goes
    back. *)
Theorem member_invariant sendOK cfg now m m' :
  steps (member_step sendOK) (newMemberMgr cfg now) m -> steps (member_step sendOK) m m' ->
  mgr_ok m /\ mgr_ok m' /\ mgr_le m m'.
Proof.
  intros Hm Hm'. assert (Hok : mgr_ok m).
  { eapply (steps_invariant (member_step sendOK) mgr_ok); [|apply newMemberMgr_ok|exact Hm].
    intros x y Hx Hs. by apply (member_step_good sendOK x y). }
  split; [done|].
  apply (steps_invariant (member_step sendOK) (fun x => mgr_ok x /\ mgr_le m x) m m'); [|by split|done].
  intros x y [Hx Hle] Hs. destruct (member_step_good sendOK x y Hs Hx) as [Hy Hxy].
  split; [done|]. by transitivity x.
Qed.

Definition demoMgr : memberMgr :=
  newMemberMgr (mkMemberConfig "n1" "h:1" 0 0 0 true true) 0.

(** A peer that joined with incarnation 4 and then sends a message of its
    incarnation 2 is still recorded with 4 or more. *)
Lemma member_invariant_witness :
  let m := (HandleMessage (connectMsg "n2" "h:2" 4) 10 demoMgr).1 in
  let m' := (HandleMessage (connectMsg "n2" "h:2" 2) 20 m).1 in
  exists info, mm_members m' !! "n2"%string = Some info /\ 4 <= ni_Incarnation info.
Proof.
  intros m m'.
  destruct (member_invariant (fun _ _ => true) (mkMemberConfig "n1" "h:1" 0 0 0 true true) 0 m m'
    (steps_one _ _ _ (ms_message _ demoMgr _ 10)) (steps_one _ _ _ (ms_message _ m _ 20))) as (_ & _ & Hle).
  apply (ml_inc _ _ Hle "n2"%string (mkNode "n2" "h:2" NodeStateAlive 4 10 zeroTime)). vm_compute. reflexivity.
Defined.

(** The callback never misses a change: for every operation, the table
    the last call of onMembershipChange saw agrees with the table afterwards
    on every node's address, state and incarnation, and when there was no
    call none of these changed.  So a ring rebuilt in the callback matches
    the members. *)
Theorem membership_announced sendOK m msg id now :
  mgr_ok m -> mm_onMembershipChange m = true ->
  (announced (view (mm_members m)) (HandleMessage msg now m).2 = view (mm_members (HandleMessage msg now m).1)) /\
  (announced (view (mm_members m)) (doPing sendOK now m).2 = view (mm_members (doPing sendOK now m).1)) /\
  (announced (view (mm_members m)) (suspectExpired id now m).2 = view (mm_members (suspectExpired id now m).1)) /\
  (announced (view (mm_members m)) (Leave m).2 = view (mm_members (Leave m).1)).
Proof.
  intros Hok Hc.
  split; [by apply good_HandleMessage|]. split; [by apply good_doPing|].
  split; [by apply good_suspectExpired|by apply good_Leave].
Qed.

Lemma membership_announced_witness :
  announced (view (mm_members demoMgr)) (HandleMessage (connectMsg "n2" "h:2" 4) 10 demoMgr).2 =
  view (mm_members (HandleMessage (connectMsg "n2" "h:2" 4) 10 demoMgr).1).
Proof.
  apply (membership_announced (fun _ _ => true) demoMgr (connectMsg "n2" "h:2" 4) "n2" 10);
    [apply newMemberMgr_ok|done].
Defined.

(** C32. Failure detection takes two ping cycles: a live peer that has been
    silent for longer than the failure timeout is suspected by the next
    cycle and declared dead by the one after, with its address and
    incarnation kept, if nothing is heard from it. *)
Theorem failure_detection sendOK m id info t1 t2 :
  mgr_ok m -> mm_members m !! id = Some info -> id <> mm_nodeID m ->
  ni_State info = NodeStateAlive -> mm_failureTimeout m < Sub t1 (ni_LastActive info) -> t1 <= t2 ->
  let m1 := (doPing sendOK t1 m).1 in
  let m2 := (doPing sendOK t2 m1).1 in
  MemberState m1 id = NodeStateSuspect /\ MemberState m2 id = NodeStateDead /\
  option_map ni_Incarnation (mm_members m2 !! id) = Some (ni_Incarnation info).
Proof.
  intros Hok E Hself Hs Hto Ht. cbv zeta.
  assert (S1 : silent m id info t1) by (split; [done|]; split; [done|]; split; [by rewrite Hs|done]).
  pose proof (doPing_silent sendOK t1 id info m Hok S1) as E1.
  destruct (good_doPing sendOK t1 m Hok) as [G1 G2 _]. specialize (G1 Hok). specialize (G2 Hok).
  assert (Es : ni_State (demoted info) = NodeStateSuspect) by (unfold demoted; by rewrite Hs).
  assert (S2 : silent (doPing sendOK t1 m).1 id (demoted info) t2).
  { split; [done|]. split; [by rewrite (ml_node _ _ G2)|]. split; [by rewrite Es|].
    rewrite (ml_fail _ _ G2). simpl. pose proof (Sub_mono t1 t2 (ni_LastActive info) Ht). lia. }
  pose proof (doPing_silent sendOK t2 id _ _ G1 S2) as E2.
  unfold MemberState. rewrite E1, E2, Es. split; [done|]. split; [|done].
  unfold demoted at 1. cbn [ni_State]. by rewrite Es.
Qed.

Definition demoMgr2 : memberMgr := (HandleMessage (connectMsg "n2" "h:2" 4) 10 demoMgr).1.

Lemma demoMgr2_ok : mgr_ok demoMgr2.
Proof. apply good_HandleMessage; apply newMemberMgr_ok. Qed.

Lemma failure_detection_witness :
  let m1 := (doPing (fun _ _ => false) (20 * Second) demoMgr2).1 in
  MemberState m1 "n2" = NodeStateSuspect.
Proof.
  destruct (failure_detection (fun _ _ => false) demoMgr2 "n2" (mkNode "n2" "h:2" 1 4 10 zeroTime)
    (20 * Second) (21 * Second)) as (K & _); [apply demoMgr2_ok|done..|exact K].
Defined.

(** Suspicion is refuted by the suspect itself: a ping from a suspected
    node with an incarnation not older than the recorded one makes it alive
    again, is acknowledged, and disarms the pending suspicion timer. *)
Theorem suspicion_refuted m id to inc info now later :
  mm_members m !! id = Some info -> ni_State info = NodeStateSuspect ->
  ni_Address info <> ""%string -> ni_Incarnation info <= inc -> mm_sendFunc m = true ->
  let '(m', es) := HandleMessage (pingMsg id to inc) now m in
  MemberState m' id = NodeStateAlive /\
  ESend (ni_Address info) (ackMsg (mm_nodeID m) id (mm_incarnation m)) ∈ es /\
  suspectExpired id later m' = (m', []).
Proof.
  intros E Hs Ha Hi Hsend. cbn [HandleMessage]. unfold handlePing, knownAddress.
  rewrite E, bool_decide_eq_false_2 by done. unfold andThen, updateNode.
  rewrite bool_decide_eq_false_2, E, (proj2 (Z.ltb_ge _ _) Hi), Hs by done. simpl.
  unfold MemberState. simpl. rewrite lookup_insert_eq. split; [done|]. split.
  - rewrite Hsend. apply elem_of_app. right. by left.
  - unfold suspectExpired. simpl. by rewrite lookup_insert_eq.
Qed.

Lemma suspicion_refuted_witness :
  let m := (doPing (fun _ _ => false) (20 * Second) demoMgr2).1 in
  MemberState (HandleMessage (pingMsg "n2" "n1" 4) (21 * Second) m).1 "n2" = NodeStateAlive.
Proof.
  pose proof (suspicion_refuted (doPing (fun _ _ => false) (20 * Second) demoMgr2).1 "n2" "n1" 4
    (mkNode "n2" "h:2" 2 4 10 zeroTime) (21 * Second) 0 eq_refl eq_refl ltac:(discriminate)
    ltac:(simpl; lia) eq_refl) as K.
  cbv zeta. destruct (HandleMessage _ _ _) as [m' es]. apply K.
Defined.
