(* ===== verification/Cluster.v ===== *)
(** The wiring of a node (src/internal/cluster/cluster.go): how member
    messages travel between managers, how membership changes rebuild the hash
    ring, and the remote read protocol. *)

From Stdlib Require Import ZArith Lia.
From Stdlib Require Import Strings.String Strings.Byte.
From stdpp Require Import relations.
From S2P Require Import Prelude StoredItem Codec HashRing Member.

(** * Message types (src/internal/network/message.go) *)

Definition MessageTypeUnknown : Z := 0.
Definition MessageTypePing : Z := 10.
Definition MessageTypeConnect : Z := 11.
Definition MessageTypeLeave : Z := 12.

Definition getMessageType (msg : memberMsg) : Z :=
  match msg with
  | pingMsg _ _ _ | ackMsg _ _ _ | indirectProbeMsg _ _ _ => MessageTypePing
  | connectMsg _ _ _ | clusterSyncMsg _ _ => MessageTypeConnect
  | leaveMsg _ _ => MessageTypeLeave
  | indirectAckMsg _ _ _ _ => MessageTypeUnknown
  end.

(** The member messages; gossip data is passed through raw elsewhere. *)
Definition decodeMemberMsg (data : slice) (msgType : Z) : option memberMsg :=
  if slice_len data =? 0 then None
  else if msgType =? MessageTypePing then DecodeMemberMsg data 1
  else if msgType =? MessageTypeConnect then DecodeMemberMsg data 2
  else if msgType =? MessageTypeLeave then DecodeMemberMsg data 3
  else None.

(** The handlers that [setupNetworkHandlers] registers for member messages;
    no handler is registered for an unknown type. *)
Definition onMemberMessage (msgType : Z) (data : slice) (now : Z) : act := fun m =>
  if (msgType =? MessageTypeConnect) && (slice_len data <? 2) then (m, [])
  else match decodeMemberMsg data msgType with
  | None => (m, [])
  | Some msg => HandleMessage msg now m
  end.

(** What the sendFunc of one node and the handler of the receiving node do
    together, when the network delivers. *)
Definition deliver (msg : memberMsg) (now : Z) : act :=
  onMemberMessage (getMessageType msg) (EncodeMemberMsg msg) now.

Lemma ping_len data a b inc : two_strings data a b inc -> (slice_len (Some data) =? 0) = false.
Proof.
  intros T. apply two_strings_length in T. unfold slice_len.
  change (slice_bytes (Some data)) with data. apply Z.eqb_neq. lia.
Qed.

(** Acks are delivered as pings. *)
Lemma deliver_ack from to inc now m :
  str_fits from -> str_fits to -> is_sint 64 inc -> to <> ""%string ->
  deliver (ackMsg from to inc) now m = HandleMessage (pingMsg from to inc) now m.
Proof.
  intros F1 F2 F3 Hne. unfold deliver, onMemberMessage, decodeMemberMsg.
  cbn [getMessageType EncodeMemberMsg]. change (MessageTypePing =? MessageTypeConnect) with false.
  cbn [andb]. assert (T : two_strings (encodeAckMsg from to inc) from to inc)
    by (repeat (split; [done|]); apply at_start).
  rewrite (ping_len _ _ _ _ T), Z.eqb_refl, (decode_type1 _ from to inc) by done. done.
Qed.

(** * The ring callback *)

Definition aliveIDs (ms : gmap string NodeInfo) : list string :=
  ni_NodeID <$> filter (fun i => ni_State i = NodeStateAlive) (map_to_list ms).*2.

Section RingCallback.
Context `{XXH3, SortSlice}.

(** [updateRing], the callback, at time [now]. *)
Definition updateRing (ms : gmap string NodeInfo) (now : Z) (r : hashRing) : hashRing :=
  let nodeIDs := aliveIDs ms in
  match nodeIDs with
  | [] => r
  | _ => (Update r (UnixNano now) nodeIDs).1
  end.

(** The callbacks among the effects of an operation, the k-th call at the
    k-th reading of the clock. *)
Fixpoint runCallbacks (es : list effect) (clock : list Z) (r : hashRing) : hashRing :=
  match es, clock with
  | EChange ms :: es, now :: clock => runCallbacks es clock (updateRing ms now r)
  | EChange _ :: _, [] => r
  | _ :: es, clock => runCallbacks es clock r
  | [], _ => r
  end.

Definition changes (es : list effect) : list (gmap string NodeInfo) :=
  omap (fun e => if e is EChange ms then Some ms else None) es.

(** The ring holds the virtual nodes of exactly the live members. *)
Definition ring_of (vn : nat) (ms : gmap string NodeInfo) (r : hashRing) : Prop :=
  hr_virtualNodes r = vn /\ hr_nodes r ≡ₚ vnodes vn (aliveIDs ms).

(** Clock readings that increase, all above the version. *)
Fixpoint increasing (v : Z) (clock : list Z) : Prop :=
  match clock with
  | [] => True
  | t :: clock => v < UnixNano t /\ increasing (UnixNano t) clock
  end.

Context `{!XXH3Laws, !SortSliceLaws}.

Lemma updateRing_of vn ms now r :
  hr_virtualNodes r = vn -> hr_version r < UnixNano now -> aliveIDs ms <> [] ->
  ring_of vn ms (updateRing ms now r) /\ hr_version (updateRing ms now r) = UnixNano now.
Proof.
  intros Hvn Hv Hne. unfold updateRing, ring_of.
  destruct (Update_nodes r (UnixNano now) (aliveIDs ms) Hv) as [Hp _].
  destruct (aliveIDs ms) as [|id ids] eqn:E; [done|].
  rewrite <- Hvn. split; [split; [|done]|]; unfold Update; rewrite (proj2 (Z.leb_gt _ _)) by lia; done.
Qed.
End RingCallback.

Lemma aliveIDs_view ms ms' : view ms = view ms' -> aliveIDs ms ≡ₚ aliveIDs ms'.
Proof.
  intros Hv. assert (Hgen : forall m : gmap string NodeInfo,
    aliveIDs m ≡ₚ (fun v : string * string * Z * Z => v.1.1.1) <$>
      filter (fun v => v.1.2 = NodeStateAlive) (map_to_list (view m)).*2).
  { intros m. unfold view. rewrite map_to_list_fmap. unfold aliveIDs.
    rewrite <- list_fmap_compose.
    generalize (map_to_list m). intros l. induction l as [|[k i] l IH]; [done|].
    cbn [fmap list_fmap fst snd prod_map compose filter list_filter]. unfold compose in *.
    cbn [prod_map snd]. unfold node_view at 1. cbn [fst snd].
    destruct (decide (ni_State i = NodeStateAlive)); cbn [fmap list_fmap]; [by f_equiv|done]. }
  by rewrite (Hgen ms), (Hgen ms'), Hv.
Qed.

(** The table last announced. *)
Fixpoint lastTable (ms : gmap string NodeInfo) (es : list effect) : gmap string NodeInfo :=
  match es with
  | [] => ms
  | EChange ms' :: es => lastTable ms' es
  | _ :: es => lastTable ms es
  end.

Lemma announced_last ms es : announced (view ms) es = view (lastTable ms es).
Proof.
  revert ms. induction es as [|e es IH]; intros ms; [done|]. unfold announced in *.
  destruct e; simpl; apply IH.
Qed.

Lemma increasing_weaken v v' clock : v <= v' -> increasing v' clock -> increasing v clock.
Proof. destruct clock as [|t clock]; [done|]. intros Hv [Ht Hi]. split; [lia|done]. Qed.

(** The ring is that of a table with a live member. *)
Definition ring_current `{XXH3} (vn : nat) (ms : gmap string NodeInfo) (r : hashRing) : Prop :=
  hr_virtualNodes r = vn /\ (aliveIDs ms <> [] -> ring_of vn ms r).

Lemma updateRing_current `{XXH3, SortSlice, !XXH3Laws, !SortSliceLaws} vn ms now r :
  hr_virtualNodes r = vn -> hr_version r < UnixNano now ->
  ring_current vn ms (updateRing ms now r) /\ hr_version (updateRing ms now r) <= UnixNano now.
Proof.
  intros Hvn Hv. destruct (decide (aliveIDs ms = [])) as [E|E].
  - unfold updateRing. rewrite E. split; [by split|lia].
  - destruct (updateRing_of vn ms now r Hvn Hv E) as [Hr ->]. split; [|lia]. split; [apply Hr|done].
Qed.

Lemma runCallbacks_current `{XXH3, SortSlice, !XXH3Laws, !SortSliceLaws} vn ms es clock r :
  ring_current vn ms r -> increasing (hr_version r) clock -> length clock = length (changes es) ->
  ring_current vn (lastTable ms es) (runCallbacks es clock r).
Proof.
  revert ms clock r. induction es as [|e es IH]; intros ms clock r Hr Hi Hl; [by destruct clock|].
  destruct e as [addr msg|ms'|d id|]; [by apply IH| |by apply IH|by apply IH].
  destruct clock as [|t clock]; [done|]. destruct Hi as [Hv Hi]. injection Hl as Hl.
  destruct (updateRing_current vn ms' t r (proj1 Hr) Hv) as [Hr' Hv'].
  cbn [lastTable runCallbacks]. apply IH; [done|by eapply increasing_weaken|done].
Qed.

(** * A member manager with its ring *)

(** The operations of the member manager. *)
Inductive memberOp :=
  | OnMessage (msg : memberMsg) (now : Z)
  | OnPing (now : Z)
  | OnExpire (id : string) (now : Z)
  | OnStart (now : Z)
  | OnLeave.

Definition memberAct (sendOK : string -> memberMsg -> bool) (op : memberOp) : act :=
  match op with
  | OnMessage msg now => HandleMessage msg now
  | OnPing now => doPing sendOK now
  | OnExpire id now => suspectExpired id now
  | OnStart now => MemberStart now
  | OnLeave => Leave
  end.

Lemma good_memberAct sendOK op : good (memberAct sendOK op).
Proof.
  destruct op; [apply good_HandleMessage|apply good_doPing|apply good_suspectExpired|apply good_MemberStart|apply good_Leave].
Qed.

(** An operation with its callbacks, at times of an increasing clock, and the
    update of the ring at the end of [Join] and at the beginning of [Stop]. *)
Inductive ring_step `{XXH3, SortSlice} (sendOK : string -> memberMsg -> bool) :
    memberMgr * hashRing -> memberMgr * hashRing -> Prop :=
  | rs_member op m r clock :
      let a := memberAct sendOK op m in
      increasing (hr_version r) clock -> length clock = length (changes a.2) ->
      ring_step sendOK (m, r) (a.1, runCallbacks a.2 clock r)
  | rs_refresh m r now :
      hr_version r < UnixNano now -> ring_step sendOK (m, r) (m, updateRing (mm_members m) now r).

Record ring_inv `{XXH3} (vn : nat) (mr : memberMgr * hashRing) : Prop := {
  ri_ok : mgr_ok mr.1;
  ri_callback : mm_onMembershipChange mr.1 = true;
  ri_ring : ring_current vn (mm_members mr.1) mr.2;
}.

Lemma ring_step_inv `{XXH3, SortSlice, !XXH3Laws, !SortSliceLaws} sendOK vn x y :
  ring_inv vn x -> ring_step sendOK x y -> ring_inv vn y.
Proof.
  intros [Hok Hc Hr] Hs. destruct Hs as [op m r clock a Hi Hl|m r now Hv]; cbn [fst snd] in *.
  - destruct (good_memberAct sendOK op m Hok) as [G1 G2 G3].
    fold a in G1, G2, G3. destruct a as [m' es]. cbn [fst snd] in *.
    specialize (G3 Hc). rewrite announced_last in G3.
    destruct (runCallbacks_current vn (mm_members m) es clock r Hr Hi Hl) as [R1 R2].
    split; cbn [fst snd]; [by apply G1|by rewrite (ml_change _ _ (G2 Hok))|]. split; [done|].
    pose proof (aliveIDs_view _ _ G3) as Hp. intros Hne.
    destruct R2 as [_ R2]; [intros E; apply Hne; rewrite E in Hp; apply Permutation_nil; by symmetry|].
    split; [done|]. rewrite R2. unfold vnodes. by rewrite Hp.
  - split; cbn [fst snd]; [done|done|]. exact (proj1 (updateRing_current vn (mm_members m) now r (proj1 Hr) Hv)).
Qed.

(** * Deliveries *)

(** A member message in flight from [x] to [y]. *)
Definition flight : Type := memberMgr * memberMgr * memberMsg.

(** It is delivered, and one of the messages the receiver sends to the
    address of [x] is now in flight back. *)
Inductive exchange (now : Z) : flight -> flight -> Prop :=
| exchange_reply x y msg y' es reply :
    deliver msg now y = (y', es) -> ESend (mm_address x) reply ∈ es ->
    exchange now (x, y, msg) (y', x, reply).

(** [x] can reach [y]: it has a record of [y] under [y]'s own address. *)
Record knows (x y : memberMgr) : Prop := {
  kn_addr : knownAddress x (mm_nodeID y) = Some (mm_address y);
  kn_send : mm_sendFunc x = true;
  kn_fits : str_fits (mm_nodeID x) /\ mm_nodeID x <> ""%string /\ is_sint 64 (mm_incarnation x);
}.

Lemma updateNode_known id addr inc now m :
  knownAddress m id = Some addr ->
  knownAddress (updateNode id addr inc NodeStateAlive now m).1 id = Some addr.
Proof.
  unfold knownAddress. intros E. destruct (mm_members m !! id) as [info|] eqn:El; [|done].
  destruct (bool_decide (ni_Address info = ""%string)) eqn:Eb; [done|]. injection E as <-.
  assert (Hi : exists i, mm_members (updateNode id (ni_Address info) inc NodeStateAlive now m).1 !! id = Some i /\
    ni_Address i = ni_Address info).
  { unfold updateNode. rewrite Eb, El.
    repeat case_match; simpl; rewrite ?lookup_insert_eq; eexists; (split; [done|done]). }
  destruct Hi as (i & -> & ->). by rewrite Eb.
Qed.

Lemma updateNode_same id addr inc st now m :
  mm_nodeID (updateNode id addr inc st now m).1 = mm_nodeID m /\
  mm_address (updateNode id addr inc st now m).1 = mm_address m /\
  mm_sendFunc (updateNode id addr inc st now m).1 = mm_sendFunc m /\
  mm_incarnation (updateNode id addr inc st now m).1 = mm_incarnation m.
Proof. unfold updateNode. by repeat case_match. Qed.

(** Handling an ack that arrives as a ping answers with another ack. *)
Lemma ack_answered x y inc now :
  knows x y -> knows y x -> is_sint 64 inc ->
  exists y', exchange now (x, y, ackMsg (mm_nodeID x) (mm_nodeID y) inc)
               (y', x, ackMsg (mm_nodeID y) (mm_nodeID x) (mm_incarnation y)) /\
    knows x y' /\ knows y' x /\ mm_nodeID y' = mm_nodeID y /\ mm_incarnation y' = mm_incarnation y.
Proof.
  intros [Kxa Kxs (Kx1 & Kx2 & Kx3)] [Kya Kys (Ky1 & Ky2 & Ky3)] Hinc.
  pose proof (deliver_ack (mm_nodeID x) (mm_nodeID y) inc now y Kx1 Ky1 Hinc Ky2) as D.
  cbn [HandleMessage] in D. unfold handlePing in D. rewrite Kya in D.
  set (u := updateNode (mm_nodeID x) (mm_address x) inc NodeStateAlive now) in D.
  destruct (updateNode_same (mm_nodeID x) (mm_address x) inc NodeStateAlive now y) as (U1 & U2 & U3 & U4).
  pose proof (updateNode_known (mm_nodeID x) (mm_address x) inc now y Kya) as U5.
  fold u in U1, U2, U3, U4, U5. unfold andThen, send in D. destruct (u y) as [y' e1]. simpl in *.
  rewrite U3, Kys in D.
  exists y'. split; [|split; [|split; [|done]]].
  - econstructor; [exact D|]. apply elem_of_app. right. by left.
  - split; [by rewrite U1, U2|done|done].
  - split; [done|by rewrite U3|]. by rewrite U1, U4.
Qed.

(** * The remote read protocol *)

(** The handler of a read request: an item that is absent, a tombstone or
    empty gives an empty response. *)
Definition readResponse (item : option StoredItem) : slice :=
  match item with
  | None => None
  | Some item =>
      if IsTombstone item || (slice_len (si_Value item) =? 0) then None
      else
        let valueLen := slice_len (si_Value item) in
        let expireAt := if negb (IsZero (si_ExpireAt item)) then UnixNano (si_ExpireAt item) else 0 in
        Some (op_keyLen (si_Key item) ++ StringToBytes (si_Key item) ++
              le_encode 8 (uint 64 (si_Version item)) ++ [x00] ++
              le_encode 8 (uint 64 expireAt) ++ le_encode 4 (uint 32 valueLen) ++
              slice_bytes (si_Value item))
  end.

(** What [createGetFunc] makes of the response to a request for [key]: no
    item, an item, or an error. *)
Definition decodeReadResponse (key : string) (resp : slice) (now : Z)
    : unit + option StoredItem :=
  let data := slice_bytes resp in
  let len := length data in
  if (len =? 0)%nat then inr None
  else if (len <? 2)%nat then inl tt
  else
    let keyLen := Z.to_nat (field 2 data 0) in
    let offset := 2%nat in
    if (len <? offset + keyLen + 8 + 1 + 8 + 4)%nat
    then inr (Some (mkItem (UnixNano now) zeroTime (Some data) key))
    else
      let offset := (offset + keyLen)%nat in
      let version := sint 64 (field 8 data offset) in
      let offset := (offset + 8 + 1)%nat in
      let expireAt := sint 64 (field 8 data offset) in
      let offset := (offset + 8)%nat in
      let valueLen := Z.to_nat (field 4 data offset) in
      let offset := (offset + 4)%nat in
      if (len <? offset + valueLen)%nat then inl tt
      else
        let value := if (0 <? valueLen)%nat then FastCloneBytes (Some (sub data offset valueLen)) else None in
        let expireTime := if 0 <? expireAt then expireAt else zeroTime in
        inr (Some (mkItem version expireTime value key)).

(** * Properties *)

(** Leave messages have no effect: whatever a departing node sends,
    delivered to any peer, leaves that peer's state unchanged and triggers
    nothing, because the handler applies it with an empty address.  The
    departed node stays alive in the peers' tables and rings until the
    failure detector finds it silent. *)
Theorem leave_ignored l addr msg r now :
  str_fits (mm_nodeID l) -> is_sint 64 (mm_incarnation l) ->
  ESend addr msg ∈ (Leave l).2 -> deliver msg now r = (r, []).
Proof.
  intros Hid Hinc Hin.
  assert (E : exists inc, msg = leaveMsg (mm_nodeID l) inc /\ is_sint 64 inc).
  { unfold Leave, andThen, bumpIncarnation in Hin.
    set (l1 := setIncarnation (add64 (mm_incarnation l) 1) l) in Hin.
    destruct (markDead (mm_nodeID l) l1) as [l2 e2] eqn:ED.
    assert (EL : mm_nodeID l2 = mm_nodeID l /\ mm_incarnation l2 = mm_incarnation l1 /\
                 forall x, x ∈ e2 -> exists ms, x = EChange ms).
    { revert ED. unfold markDead, skip, andThen, store, notify. repeat case_match; intros; simplify_eq/=;
        (split; [done|]); (split; [done|]); intros x Hx; rewrite ?elem_of_nil, ?list_elem_of_singleton in Hx;
        try done; eauto. }
    destruct EL as (EL1 & EL2 & EL3). cbn [sendLeave snd app] in Hin.
    apply elem_of_app in Hin as [Hin|Hin]; [by apply EL3 in Hin as [ms [=]]|].
    apply list_elem_of_omap in Hin as (info & _ & Hi). case_match; simplify_eq.
    exists (mm_incarnation l2). rewrite EL1. split; [done|]. rewrite EL2.
    unfold l1. simpl. apply sint_range. lia. }
  destruct E as (inc & -> & Hi). unfold deliver, onMemberMessage, decodeMemberMsg.
  cbn [getMessageType EncodeMemberMsg]. simpl Z.eqb. cbn [andb]. rewrite decode_type3 by done.
  reflexivity.
Qed.

Lemma leave_ignored_witness :
  exists msg, ESend "h:2" msg ∈ (Leave demoMgr2).2 /\ deliver msg 99 demoMgr = (demoMgr, []).
Proof.
  assert (Hin : ESend "h:2" (leaveMsg "n1" 1) ∈ (Leave demoMgr2).2).
  { apply list_elem_of_lookup. exists 1%nat. reflexivity. }
  exists (leaveMsg "n1" 1). split; [exact Hin|].
  apply (leave_ignored demoMgr2 "h:2" (leaveMsg "n1" 1) demoMgr 99); [done|by split|exact Hin].
Defined.

(** Acks are never consumed: between two nodes that know each other, one
    delivered ack is answered by an ack, which is answered by an ack, without
    end, since the wire format delivers every ack as a ping.  For every [n]
    there is an exchange of [n] messages started by a single ack that still
    has a message in flight. *)
Theorem ack_storm now x y inc n :
  knows x y -> knows y x -> is_sint 64 inc ->
  exists f, nsteps (exchange now) n (x, y, ackMsg (mm_nodeID x) (mm_nodeID y) inc) f.
Proof.
  revert x y inc. induction n as [|n IH]; intros x y inc Hxy Hyx Hinc; [eexists; constructor|].
  destruct (ack_answered x y inc now Hxy Hyx Hinc) as (y' & Hs & K1 & K2 & E1 & E2).
  destruct (IH y' x (mm_incarnation y) K2 K1) as [f Hf]; [apply Hyx|].
  rewrite E1 in Hf. exists f. by econstructor.
Qed.

Definition peerOf (self peer : string) (selfAddr peerAddr : string) : memberMgr :=
  (HandleMessage (connectMsg peer peerAddr 0) 10
    (newMemberMgr (mkMemberConfig self selfAddr 0 0 0 true true) 0)).1.

Lemma ack_storm_witness :
  exists f, nsteps (exchange 11) 1000
    (peerOf "n1" "n2" "h:1" "h:2", peerOf "n2" "n1" "h:2" "h:1", ackMsg "n1" "n2" 0) f.
Proof.
  apply (ack_storm 11 (peerOf "n1" "n2" "h:1" "h:2") (peerOf "n2" "n1" "h:2" "h:1") 0 1000);
    [split; [reflexivity|reflexivity|by repeat split]|split; [reflexivity|reflexivity|by repeat split]
    |by split].
Defined.

(** C33. The ring follows the membership: from the start of a cluster on,
    through any sequence of messages, ping cycles, suspicion timers, restarts,
    departures, joins and stops, one after the other and each with its
    callbacks, the ring holds the
    virtual nodes of exactly the live members whenever there is one.  The clock
    that the ring takes its versions from increases from update to update. *)
Theorem ring_follows_members `{XXH3, SortSlice, !XXH3Laws, !SortSliceLaws} sendOK cfg t0 t1 r0 m r :
  mc_OnMembershipChange cfg = true -> hr_version r0 < UnixNano t1 ->
  let m0 := newMemberMgr cfg t0 in
  steps (ring_step sendOK) (m0, updateRing (mm_members m0) t1 r0) (m, r) ->
  aliveIDs (mm_members m) <> [] ->
  ring_of (hr_virtualNodes r0) (mm_members m) r.
Proof.
  intros Hc Hv m0 Hs. assert (Hi : ring_inv (hr_virtualNodes r0) (m, r)).
  { eapply (steps_invariant _ (ring_inv (hr_virtualNodes r0))); [apply ring_step_inv| |exact Hs].
    split; [apply newMemberMgr_ok|done|]. exact (proj1 (updateRing_current _ (mm_members m0) t1 r0 eq_refl Hv)). }
  apply Hi.
Qed.

#[local] Existing Instance ToyHash.xxh3.
#[local] Existing Instance ToyHash.laws.
#[local] Existing Instance MergeSort.sort.
#[local] Existing Instance MergeSort.laws.

(** n2 joins n1 and n1 leaves: the ring of n1 is that of n2 alone. *)
Lemma ring_follows_members_witness :
  let m1 := demoMgr2 in
  let r1 := runCallbacks (HandleMessage (connectMsg "n2" "h:2" 4) 10 demoMgr).2 [20]
              (updateRing (mm_members demoMgr) 5 (newHashRing 2)) in
  let m2 := (Leave m1).1 in
  let r2 := runCallbacks (Leave m1).2 [30] r1 in
  ring_of 2 (mm_members m2) r2 /\ aliveIDs (mm_members m2) = ["n2"%string].
Proof.
  intros m1 r1 m2 r2. split; [|vm_compute; reflexivity].
  apply (ring_follows_members (fun _ _ => true) (mkMemberConfig "n1" "h:1" 0 0 0 true true) 0 5 (newHashRing 2) m2 r2).
  - reflexivity.
  - vm_compute. reflexivity.
  - eapply steps_cons; [apply (rs_member (fun _ _ => true) (OnMessage (connectMsg "n2" "h:2" 4) 10) demoMgr _ [20])|].
    + split; [vm_compute; reflexivity|done].
    + reflexivity.
    + eapply steps_cons; [apply (rs_member (fun _ _ => true) OnLeave demoMgr2 r1 [30])|apply steps_refl].
      * split; [vm_compute; reflexivity|done].
      * reflexivity.
  - vm_compute. discriminate.
Defined.

(** Remote reads carry the item: what [createGetFunc] decodes from the
    read handler's response is the stored version, expiration and value under
    the requested key, for a live non-empty value; absent keys, tombstones
    and empty values come back as no item, never as an error. *)
Theorem read_response_roundtrip key item now :
  (forall i, item = Some i -> str_len (si_Key i) < 2 ^ 16 /\ is_sint 64 (si_Version i) /\
     (si_ExpireAt i = zeroTime \/ 0 < si_ExpireAt i < 2 ^ 63) /\ slice_len (si_Value i) < 2 ^ 31) ->
  decodeReadResponse key (readResponse item) now =
  inr match item with
      | Some i => if slice_len (si_Value i) =? 0 then None
                  else Some (mkItem (si_Version i) (si_ExpireAt i) (si_Value i) key)
      | None => None
      end.
Proof.
  destruct item as [i|]; [|done]. intros Hf. destruct (Hf i eq_refl) as (Hk & Hv & He & Hl).
  unfold readResponse, IsTombstone. destruct (Z.eqb_spec (slice_len (si_Value i)) 0) as [|Hne].
  { rewrite orb_true_r. done. }
  cbn [andb orb]. set (exp := if negb _ then _ else 0). rewrite op_keyLen_le by done.
  change [x00] with (le_encode 1 0).
  remember (le_encode 2 (str_len (si_Key i)) ++ _) as data eqn:ED.
  assert (Ha : at_off data 0 data) by apply at_start. rewrite ED in Ha at 2. clear ED.
  pose proof (str_len_nonneg (si_Key i)) as Hk0.
  pose proof (at_len _ _ _ Ha) as HL. rewrite length_app, length_le_encode in HL.
  read_field Ha E1. rewrite Z.mod_small in E1 by (simpl; lia). read_sub Ha E2.
  read_field Ha E3. read_field Ha E4. read_field Ha E5. read_field Ha E6.
  rewrite (mod_field 8) in E3, E5 by done. rewrite (mod_field 4) in E6 by done.
  rewrite uint_id in E6 by (unfold is_uint, slice_len in *; lia).
  rewrite <- (app_nil_r (slice_bytes _)) in Ha. read_sub Ha E7. unfold str_len in *.
  unfold decodeReadResponse. change (slice_bytes (Some data)) with data.
  rewrite (proj2 (Nat.eqb_neq (length data) 0)) by lia. rewrite E1, Nat2Z.id.
  len_checks. cbn [Nat.add] in *. unfold slice_len in *. rewrite E3, E5, E6, Nat2Z.id, E7.
  len_checks. rewrite (proj2 (Nat.ltb_lt 0 _)), FastCloneBytes_id, sint_uint_id by (done || lia).
  do 2 f_equal. f_equal.
  - by apply expire_wire.
  - by destruct (si_Value i).
Qed.

Lemma read_response_roundtrip_witness :
  decodeReadResponse "k" (readResponse (Some (mkItem 9 zeroTime (Some [x61]) ""))) 0 =
  inr (Some (mkItem 9 zeroTime (Some [x61]) "k")).
Proof.
  apply (read_response_roundtrip "k" (Some (mkItem 9 zeroTime (Some [x61]) "")) 0).
  intros i [= <-]. split; [done|]. split; [by split|]. split; [by left|done].
Defined.
