(* ===== verification/Gossip.v ===== *)
(** Replication by gossip (src/internal/cluster/gossip.go): choice of targets,
    push and pull messages, and the application of received operations to the
    store.

    The functions that need the network return the messages they hand to the
    send functions; the executor runs what it is given.  Replicas that receive
    the same operations are shown to converge. *)

From Stdlib Require Import ZArith Lia.
From Stdlib Require Import Strings.String Strings.Byte.
From S2P Require Import Prelude StoredItem Compress Lru SyncBuffer MemStorage MemStorageFacts.
From S2P Require Import MemStorageProps Codec HashRing Member.

Record gossip := mkGossip {
  g_nodeID : string;
  g_ring : hashRing;
  g_replicaCount : Z;
}.

Definition newGossip (nodeID : string) (ring : hashRing) (replicaCount : Z) : gossip :=
  mkGossip nodeID ring (if replicaCount <=? 0 then 3 else replicaCount).

(** * Targets of a gossip round *)

(** The number of bits of [n]: [for n > 0 { fanOut++; n >>= 1 }]. *)
Fixpoint bitLen (fuel : nat) (n : Z) : Z :=
  match fuel with
  | O => 0
  | S fuel => if 0 <? n then 1 + bitLen fuel (Z.shiftr n 1) else 0
  end.

Definition fanOut (n : nat) : nat :=
  if (1 <? n)%nat then Nat.min (Z.to_nat (bitLen 64 (Z.of_nat n))) n else 1%nat.

Definition swap {A} (i j : nat) (l : list A) : list A :=
  match l !! i, l !! j with
  | Some x, Some y => <[i := y]> (<[j := x]> l)
  | _, _ => l
  end.

(** [for i := len-1; i > 0; i-- { j := (i*7) % (i+1); swap }] *)
Fixpoint shuffle {A} (i : nat) (l : list A) : list A :=
  match i with
  | O => l
  | S i' => shuffle i' (swap i ((i * 7) mod (i + 1)) l)
  end.

(** The nodes [doGossip] pulls from, and their addresses. *)
Definition gossipTargets (nodeID : string) (members : list NodeInfo) : list string :=
  let alive := ni_NodeID <$> filter (fun m => ni_NodeID m <> nodeID /\ ni_State m = NodeStateAlive) members in
  match alive with
  | [] => []
  | _ =>
      let selected := take (fanOut (length alive)) alive in
      shuffle (length selected - 1) selected
  end.

Definition addressOf (members : list NodeInfo) (id : string) : option string :=
  match find (fun m => bool_decide (ni_NodeID m = id)) members with
  | Some m => if bool_decide (ni_Address m = ""%string) then None else Some (ni_Address m)
  | None => None
  end.

(** * Messages *)

Definition pushPrefix : bytes := StringToBytes "PUSH:".
Definition pushMessage (data : slice) : bytes := pushPrefix ++ slice_bytes data.
Definition pullMessage (nodeID : string) (data : slice) : bytes :=
  StringToBytes "PULL:" ++ StringToBytes nodeID ++ StringToBytes ":" ++ slice_bytes data.

(** The targets of [Push] that are alive members each get the batch.  The
    messages are those whose sending is submitted to the executor; one that
    the executor refuses is not sent again. *)
Definition Push (members : list NodeInfo) (ops : list SyncOperation) (targets : list string)
    : list (string * bytes) :=
  match ops, targets with
  | [], _ | _, [] => []
  | _, _ =>
      let data := Serialize ops in
      (fun target => (target, pushMessage data)) <$>
        filter (fun target => existsb (fun m =>
          bool_decide (ni_Address m = target) && (ni_State m =? NodeStateAlive)) members = true) targets
  end.

Section Apply.
Context `{XXH3, LZ4, SortSlice} (poolCap : Z).

(** [Pull]: the pending operations of the store are drained and sent. *)
Definition Pull (g : gossip) (s : MemStorage) (target : string) (now : Z)
    : MemStorage * list (string * bytes) :=
  let '(s, localOps) := GetSyncBuffer poolCap s now in
  match localOps with
  | [] => (s, [])
  | _ => (s, [(target, pullMessage (g_nodeID g) (Serialize localOps))])
  end.

Definition isReplica (g : gossip) (key : string) : bool :=
  bool_decide (g_nodeID g ∈ GetN (g_ring g) key (g_replicaCount g)).

(** One round of the loop of [applyOps]: the store and the error of [Set]. *)
Definition applyOp (g : gossip) (now : Z) (s : MemStorage) (op : option SyncOperation)
    : MemStorage * option storageErr :=
  match op with
  | None => (s, None)
  | Some op =>
      match so_Item op with
      | None => (s, None)
      | Some item =>
          if negb (isReplica g (so_Key op)) then (s, None)
          else
            let '(s, existing) := GetNoCopy poolCap s (so_Key op) now in
            match existing with
            | inr e => if si_Version item <=? si_Version e then (s, None)
                       else StoreSet poolCap s (so_Key op) (Some item)
            | inl _ => StoreSet poolCap s (so_Key op) (Some item)
            end
      end
  end.

Fixpoint applyOps (g : gossip) (now : Z) (s : MemStorage) (ops : list (option SyncOperation))
    : MemStorage * option storageErr :=
  match ops with
  | [] => (s, None)
  | op :: ops =>
      let '(s, err) := applyOp g now s op in
      match err with
      | Some e => (s, Some e)
      | None => applyOps g now s ops
      end
  end.

(** The bytes up to the first colon and what follows it. *)
Fixpoint splitColon (l : bytes) : bytes * option bytes :=
  match l with
  | [] => ([], None)
  | b :: l =>
      if bool_decide (b = x3a) then ([], Some l)
      else let '(a, r) := splitColon l in (b :: a, r)
  end.

(** [HandleMessage]: the store, the messages sent and the error returned. *)
Definition HandleGossip (g : gossip) (members : list NodeInfo) (s : MemStorage) (data : bytes) (now : Z)
    : MemStorage * list (string * bytes) * option storageErr :=
  if (length data <? 5)%nat then (s, [], None)
  else
    let payload := drop 5 data in
    if bool_decide (take 5 data = pushPrefix) then
      let '(s, err) := applyOps g now s (Deserialize (Some payload)) in (s, [], err)
    else if bool_decide (take 5 data = StringToBytes "PULL:") then
      let '(idBytes, rest) := splitColon payload in
      let s := match rest with
               | Some ops => (applyOps g now s (Deserialize (Some ops))).1
               | None => s
               end in
      let '(s, localOps) := GetSyncBuffer poolCap s now in
      match localOps with
      | [] => (s, [], None)
      | _ =>
          match addressOf members (BytesToString idBytes) with
          | None => (s, [], None)
          | Some addr => (s, [(addr, pushMessage (Serialize localOps))], None)
          end
      end
    else (s, [], None).
End Apply.

(** * Convergence *)

Section Converge.
Context `{XXH3, LZ4, SortSlice} (poolCap : Z).

(** The item an operation stores. *)
Definition op_stored (s : MemStorage) (op : SyncOperation) : option compressedItem :=
  match so_Item op with
  | None => None
  | Some item => Some (prepareCompressedItem poolCap s (so_Key op) item).1
  end.

(** Neither memory pressure nor expiration interferes with an operation. *)
Definition op_clean (now : Z) (s : MemStorage) (op : SyncOperation) : Prop :=
  so_Key op <> ""%string /\
  (forall ci, contents s (so_Key op) = Some ci -> expired_at now (ci_ExpireAt ci) = false) /\
  match so_Item op with
  | None => True
  | Some item => fits s (prepareCompressedItem poolCap s (so_Key op) item).2
  end.

Fixpoint run_clean (g : gossip) (now : Z) (s : MemStorage) (ops : list SyncOperation) : Prop :=
  match ops with
  | [] => True
  | op :: ops => op_clean now s op /\ run_clean g now (applyOp poolCap g now s (Some op)).1 ops
  end.

(** The same as a test, for concrete runs. *)
Definition op_cleanb (now : Z) (s : MemStorage) (op : SyncOperation) : bool :=
  negb (bool_decide (so_Key op = ""%string)) &&
  (match contents s (so_Key op) with Some ci => negb (expired_at now (ci_ExpireAt ci)) | None => true end) &&
  match so_Item op with
  | None => true
  | Some item => add64 (u_bytes (total s)) (prepareCompressedItem poolCap s (so_Key op) item).2
                   <=? percent s (evictThreshold (cfg s))
  end.

Fixpoint run_cleanb (g : gossip) (now : Z) (s : MemStorage) (ops : list SyncOperation) : bool :=
  match ops with
  | [] => true
  | op :: ops => op_cleanb now s op && run_cleanb g now (applyOp poolCap g now s (Some op)).1 ops
  end.

Lemma run_cleanb_ok g now s ops : run_cleanb g now s ops = true -> run_clean g now s ops.
Proof.
  revert s. induction ops as [|op ops IH]; intros s Hr; [done|].
  apply andb_true_iff in Hr as [Ho Hr]. split; [|by apply IH].
  unfold op_cleanb in Ho. to_prop. split; [done|]. split.
  - intros ci E. rewrite E in *. by to_prop.
  - destruct (so_Item op); [|done]. by to_prop.
Qed.

Lemma getWith_data clone s key now :
  (forall ci, contents s key = Some ci -> expired_at now (ci_ExpireAt ci) = false) ->
  (getWith poolCap clone s key now).1 ≈ s /\ total (getWith poolCap clone s key now).1 = total s.
Proof.
  intros He. unfold getWith. case_match; [done|].
  change (sh_data (shardAt (on_access count_get s) (shardIndex (on_access count_get s) key)) !! key)
    with (contents s key). destruct (contents s key) as [ci|] eqn:E; [|done].
  specialize (He ci eq_refl). unfold expired_at in He. rewrite He.
  repeat case_match; (split; [|done]); cbn [fst]; strip_data; done.
Qed.

Lemma prepared_version s key item : ci_Version (prepareCompressedItem poolCap s key item).1 = si_Version item.
Proof.
  destruct (prepareCompressedItem poolCap s key item) as [ci n] eqn:E.
  apply prepared_meta in E as (E & _). exact E.
Qed.

Lemma getWith_absent clone s key now :
  key <> ""%string -> contents s key = None -> (getWith poolCap clone s key now).2 = inl ErrNotFound.
Proof.
  intros Hk E. unfold getWith. rewrite bool_decide_eq_false_2 by done.
  change (sh_data (shardAt (on_access count_get s) (shardIndex (on_access count_get s) key)) !! key)
    with (contents s key). by rewrite E.
Qed.

(** What applying an operation does to the contents. *)
Definition applied (g : gossip) (op : SyncOperation) (s s' : MemStorage) : Prop :=
  cfg s' = cfg s /\
  forall k, contents s' k =
    match op_stored s op with
    | Some ci => if isReplica g (so_Key op) then VersionedMap.put (contents s) (so_Key op) ci k
                 else contents s k
    | None => contents s k
    end.

Lemma applyOp_contents g now s op :
  store_wf s -> op_clean now s op ->
  let '(s', err) := applyOp poolCap g now s (Some op) in
  store_wf s' /\ err = None /\ applied g op s s'.
Proof.
  intros Hw (Hk & He & Hf). unfold applyOp, applied, op_stored. destruct (so_Item op) as [item|]; [|done].
  destruct (isReplica g (so_Key op)); [|done]. cbn [negb].
  set (key := so_Key op) in *. unfold GetNoCopy.
  destruct (getWith_data (fun v => v) s key now He) as [Hd Ht].
  pose proof (wf_getWith poolCap (fun v => v) s key now Hw) as Hw1.
  pose proof (cfg_getWith poolCap (fun v => v) s key now) as Hc1.
  pose proof (getWith_present poolCap (fun v => v) s key now) as Hp.
  pose proof (getWith_absent (fun v => v) s key now Hk) as Hab.
  destruct (getWith poolCap (fun v => v) s key now) as [s1 res]. cbn [fst snd] in *.
  assert (Hset : let '(s', err) := StoreSet poolCap s1 key (Some item) in
    store_wf s' /\ err = None /\ cfg s' = cfg s /\
    forall k, contents s' k =
      VersionedMap.put (contents s) key (prepareCompressedItem poolCap s key item).1 k).
  { rewrite StoreSet_eq by done. rewrite (prepared_cfg poolCap s1 s) by done.
    destruct (prepareCompressedItem poolCap s key item) as [ci n]. cbn [snd fst] in *.
    rewrite (reserve_fits s1 n) by (unfold fits, percent, maxBytes in *; by rewrite Ht, Hc1).
    destruct (store_round s1 (shardIndex s1 key) key ci n item) as (s2 & E2 & Es2). rewrite E2.
    split; [by eapply wf_store_round|]. split; [done|]. split.
    { rewrite <- Hc1, Es2. repeat case_match; done. }
    intros k. cbn [default].
    rewrite (contents_store_round _ _ _ _ _ _ Hw1 E2). unfold VersionedMap.put.
    case_decide; by rewrite Hd. }
  destruct res as [e|e]; [done|].
  destruct (Z.leb_spec (si_Version item) (si_Version e)) as [Hle|]; [|done].
  split; [done|]. split; [done|]. split; [done|]. intros k. rewrite Hd.
  unfold VersionedMap.put. case_decide as Hkk; [subst k|done].
  destruct (contents s key) as [old|] eqn:Ho.
  - specialize (Hp old Hk ltac:(done) eq_refl (He old eq_refl)).
    rewrite prepared_version. destruct (ci_decode poolCap old); [done|]. injection Hp as ->.
    simpl in Hle. by rewrite (proj2 (Z.leb_le _ _)).
  - by specialize (Hab eq_refl).
Qed.

(** The candidates for a key: what it held and what the operations store. *)
Definition candidate (s : MemStorage) (ops : list SyncOperation) (k : string) (ci : compressedItem) : Prop :=
  contents s k = Some ci \/ exists op, op ∈ ops /\ so_Key op = k /\ op_stored s op = Some ci.

Lemma op_stored_cfg s s' op : cfg s = cfg s' -> op_stored s op = op_stored s' op.
Proof.
  intros E. unfold op_stored. destruct (so_Item op); [|done].
  by rewrite (prepared_cfg poolCap s s').
Qed.

(** An operation adds no candidate that was not there, *)
Lemma candidate_back g op ops s s1 k c :
  applied g op s s1 -> candidate s1 ops k c -> candidate s (op :: ops) k c.
Proof.
  intros [Hcfg Hcont] [Hk1|(o & Ho & Hk & Hs)].
  - rewrite Hcont in Hk1. destruct (op_stored s op) as [oc|] eqn:Eo; [|by left].
    destruct (isReplica g (so_Key op)); [|by left]. unfold VersionedMap.put in Hk1.
    destruct (decide (k = so_Key op)) as [->|]; [|by left].
    destruct (contents s (so_Key op)) as [old|] eqn:Eold.
    + destruct (_ <=? _); simplify_eq; [by left|]. right. exists op. split; [by left|done].
    + simplify_eq. right. exists op. split; [by left|done].
  - right. exists o. split; [by right|]. split; [done|]. by rewrite (op_stored_cfg s s1).
Qed.

(** and every candidate stays or is dominated. *)
Lemma candidate_dom g op ops s s1 k c :
  applied g op s s1 -> isReplica g k = true -> candidate s (op :: ops) k c ->
  exists c', candidate s1 ops k c' /\ ci_Version c <= ci_Version c'.
Proof.
  intros [Hcfg Hcont] Hrep. specialize (Hcont k).
  intros [Hk|(o & [->|Ho]%elem_of_cons & Hk & Hs)].
  - rewrite Hk in Hcont. destruct (op_stored s op) as [oc|] eqn:Eo; [|exists c; split; [by left|lia]].
    destruct (isReplica g (so_Key op)); [|exists c; split; [by left|lia]].
    unfold VersionedMap.put in Hcont. destruct (decide (k = so_Key op)) as [<-|].
    2:{ exists c. split; [left; congruence|lia]. }
    rewrite Hk in Hcont. destruct (Z.leb_spec (ci_Version oc) (ci_Version c)).
    + exists c. split; [by left|lia].
    + exists oc. split; [by left|lia].
  - rewrite Hs in Hcont. rewrite <- Hk in Hrep. rewrite Hrep in Hcont.
    unfold VersionedMap.put in Hcont. rewrite decide_True in Hcont by done.
    destruct (contents s (so_Key op)) as [old|]; [|exists c; split; [by left|lia]].
    destruct (Z.leb_spec (ci_Version c) (ci_Version old)).
    + exists old. split; [by left|lia].
    + exists c. split; [by left|lia].
  - exists c. split; [|lia]. right. exists o. split; [done|]. split; [done|].
    by rewrite <- (op_stored_cfg s s1).
Qed.

(** What a replica holds after a batch: a candidate with the greatest
    version. *)
Definition holds_greatest (s s' : MemStorage) (ops : list SyncOperation) (k : string) : Prop :=
  match contents s' k with
  | None => forall ci, ~ candidate s ops k ci
  | Some ci => candidate s ops k ci /\ forall c, candidate s ops k c -> ci_Version c <= ci_Version ci
  end.

Lemma applyOps_greatest g now s ops k :
  store_wf s -> run_clean g now s ops -> isReplica g k = true ->
  (applyOps poolCap g now s (Some <$> ops)).2 = None /\
  holds_greatest s (applyOps poolCap g now s (Some <$> ops)).1 ops k.
Proof.
  unfold holds_greatest. revert s. induction ops as [|op ops IH]; intros s Hw Hr Hrep.
  - split; [done|]. cbn [fmap list_fmap applyOps fst].
    destruct (contents s k) as [ci|] eqn:E.
    + split; [by left|]. intros c [Hc|(op & []%elem_of_nil & _)]. assert (c = ci) by congruence. subst. lia.
    + intros ci [Hc|(op & []%elem_of_nil & _)]. congruence.
  - destruct Hr as [Hc Hr]. pose proof (applyOp_contents g now s op Hw Hc) as Ha.
    cbn [fmap list_fmap applyOps]. destruct (applyOp poolCap g now s (Some op)) as [s1 err].
    destruct Ha as (Hw1 & -> & Happ). cbn [fst] in Hr.
    destruct (IH s1 Hw1 Hr Hrep) as [IH1 IH2]. split; [done|].
    destruct (contents (applyOps poolCap g now s1 (Some <$> ops)).1 k) as [ci|].
    + destruct IH2 as [I1 I2]. split; [by eapply candidate_back|]. intros c Hc'.
      destruct (candidate_dom g op ops s s1 k c Happ Hrep Hc') as (c' & Hc1 & Hle).
      specialize (I2 c' Hc1). lia.
    + intros c Hc'. destruct (candidate_dom g op ops s s1 k c Happ Hrep Hc') as (c' & Hc1 & _).
      by apply (IH2 c').
Qed.
End Converge.

(** * Properties *)

(** C3. Convergence: two replicas of a key that held the same item for it
    and have applied batches with the same operations on it, in whatever
    order and multiplicity, hold the same item for it, provided a version
    identifies an item; and no batch fails.  It assumes that memory pressure
    and expiration did not interfere. *)
Theorem gossip_convergence `{XXH3, LZ4, SortSlice} poolCap g1 g2 now1 now2 s1 s2 ops1 ops2 k :
  store_wf s1 -> store_wf s2 -> cfg s1 = cfg s2 -> contents s1 k = contents s2 k ->
  run_clean poolCap g1 now1 s1 ops1 -> run_clean poolCap g2 now2 s2 ops2 ->
  isReplica g1 k = true -> isReplica g2 k = true ->
  (forall op, so_Key op = k -> op ∈ ops1 <-> op ∈ ops2) ->
  (forall c c', candidate poolCap s1 ops1 k c -> candidate poolCap s1 ops1 k c' ->
     ci_Version c = ci_Version c' -> c = c') ->
  let r1 := applyOps poolCap g1 now1 s1 (Some <$> ops1) in
  let r2 := applyOps poolCap g2 now2 s2 (Some <$> ops2) in
  contents r1.1 k = contents r2.1 k /\ r1.2 = None /\ r2.2 = None.
Proof.
  intros Hw1 Hw2 Hcfg Hinit Hr1 Hr2 Hi1 Hi2 Hops Huniq. cbv zeta.
  destruct (applyOps_greatest poolCap g1 now1 s1 ops1 k Hw1 Hr1 Hi1) as [-> G1].
  destruct (applyOps_greatest poolCap g2 now2 s2 ops2 k Hw2 Hr2 Hi2) as [-> G2].
  split; [|done]. unfold holds_greatest in *.
  assert (Hcand : forall c, candidate poolCap s1 ops1 k c <-> candidate poolCap s2 ops2 k c).
  { intros c. unfold candidate. rewrite Hinit. f_equiv.
    split; intros (op & Ho & Hk & Hs); exists op; (split; [by apply Hops|]); (split; [done|]);
      [by rewrite <- (op_stored_cfg poolCap s1 s2)|by rewrite (op_stored_cfg poolCap s1 s2)]. }
  destruct (contents (applyOps poolCap g1 _ _ _).1 k) as [c1|],
    (contents (applyOps poolCap g2 _ _ _).1 k) as [c2|].
  - destruct G1 as [A1 B1], G2 as [A2 B2]. f_equal. apply Huniq; [done|by apply Hcand|].
    specialize (B1 c2 (proj2 (Hcand c2) A2)). specialize (B2 c1 (proj1 (Hcand c1) A1)). lia.
  - destruct G1 as [A1 _]. exfalso. by apply (G2 c1), Hcand.
  - destruct G2 as [A2 _]. exfalso. by apply (G1 c2), Hcand.
  - done.
Qed.

#[local] Existing Instance ToyHash.xxh3.
#[local] Existing Instance RunLength.lz4.
#[local] Existing Instance MergeSort.sort.

Definition demoRing : hashRing := (Update (newHashRing 2) 5 ["n1"%string; "n2"%string]).1.
Definition demoOp (v : Z) (b : byte) : SyncOperation :=
  mkOp "a" OpSet (Some (mkItem v zeroTime (Some [b]) "a")).

Lemma gossip_convergence_witness :
  let ops1 := [demoOp 1 x61; demoOp 2 x62] in
  let ops2 := [demoOp 2 x62; demoOp 1 x61] in
  contents (applyOps 0 (newGossip "n1" demoRing 2) 0 demoStore (Some <$> ops1)).1 "a" =
  contents (applyOps 0 (newGossip "n2" demoRing 2) 0 demoStore (Some <$> ops2)).1 "a".
Proof.
  assert (Hnone : forall k, contents demoStore k = None).
  { intros k. unfold contents, getShard, shardAt.
    destruct (shards demoStore !! shardIndex demoStore k) as [sh|] eqn:E; [|done].
    apply lookup_replicate in E as [-> _]. done. }
  cbv zeta. eapply (gossip_convergence 0 (newGossip "n1" demoRing 2) (newGossip "n2" demoRing 2) 0 0
    demoStore demoStore [demoOp 1 x61; demoOp 2 x62] [demoOp 2 x62; demoOp 1 x61] "a").
  - apply demoStore_wf.
  - apply demoStore_wf.
  - reflexivity.
  - reflexivity.
  - apply run_cleanb_ok. vm_compute. reflexivity.
  - apply run_cleanb_ok. vm_compute. reflexivity.
  - vm_compute. reflexivity.
  - vm_compute. reflexivity.
  - intros op _. set_solver.
  - intros c c' [Hc|(o & Ho & _ & Hs)] [Hc'|(o' & Ho' & _ & Hs')]; [rewrite Hnone in *; done..|].
    rewrite !elem_of_cons, elem_of_nil in Ho, Ho'.
    destruct Ho as [->|[->|[]]], Ho' as [->|[->|[]]]; vm_compute in Hs, Hs';
      injection Hs as <-; injection Hs' as <-; intros Hv; first [reflexivity | discriminate Hv].
Defined.

(** ** Messages *)

Lemma splitColon_app a b : x3a ∉ a -> splitColon (a ++ x3a :: b) = (a, Some b).
Proof.
  induction a as [|c a IH]; [done|]. intros [Hne Hn]%not_elem_of_cons. simpl.
  rewrite bool_decide_eq_false_2, IH by done. done.
Qed.

(** A push applies its operations. *)
Lemma HandleGossip_push `{XXH3, LZ4, SortSlice} poolCap g members s ops now :
  Forall op_fits ops -> Z.of_nat (length ops) < 2 ^ 32 ->
  let applied := applyOps poolCap g now s (Some <$> omap wire_op ops) in
  HandleGossip poolCap g members s (pushMessage (Serialize ops)) now = (applied.1, [], applied.2).
Proof.
  intros Hf Hn. cbv zeta. rewrite <- (Deserialize_wire ops Hf Hn).
  unfold HandleGossip, pushMessage. set (payload := slice_bytes (Serialize ops)). simpl length.
  change (drop 5 (pushPrefix ++ payload)) with payload.
  change (take 5 (pushPrefix ++ payload)) with pushPrefix.
  rewrite bool_decide_eq_true_2 by done. by destruct (applyOps poolCap g now s _).
Qed.

(** A pull applies its operations too, and the answer has those that wait in
    the store of the receiver. *)
Lemma HandleGossip_pull `{XXH3, LZ4, SortSlice} poolCap g members s ops from now :
  Forall op_fits ops -> Z.of_nat (length ops) < 2 ^ 32 -> x3a ∉ StringToBytes from ->
  let drained := GetSyncBuffer poolCap (applyOps poolCap g now s (Some <$> omap wire_op ops)).1 now in
  HandleGossip poolCap g members s (pullMessage from (Serialize ops)) now =
    (drained.1,
     match drained.2, addressOf members from with
     | [], _ | _, None => []
     | localOps, Some addr => [(addr, pushMessage (Serialize localOps))]
     end, None).
Proof.
  intros Hf Hn Hc. cbv zeta. rewrite <- (Deserialize_wire ops Hf Hn).
  unfold HandleGossip, pullMessage. set (payload := slice_bytes (Serialize ops)). simpl length.
  set (tl := StringToBytes from ++ StringToBytes ":" ++ payload).
  change (drop 5 (StringToBytes "PULL:" ++ tl)) with tl.
  change (take 5 (StringToBytes "PULL:" ++ tl)) with (StringToBytes "PULL:").
  rewrite bool_decide_eq_false_2 by discriminate. rewrite bool_decide_eq_true_2 by done.
  cbn [Nat.ltb Nat.leb]. unfold tl. rewrite (splitColon_app _ payload) by done.
  rewrite StringToBytesToString. destruct (GetSyncBuffer poolCap _ now) as [s' localOps]. cbn [fst snd].
  destruct localOps; [done|]. by destruct (addressOf members from).
Qed.

(** Gossip messages deliver their operations: handling a push message
    made from a batch applies exactly the batch's operations and returns
    their error; handling a pull message (of a node whose id has no colon)
    applies them and answers the sender with the receiver's own pending
    operations, which are thereby drained. *)
Theorem gossip_delivery `{XXH3, LZ4, SortSlice} poolCap g members s ops from addr now :
  Forall op_fits ops -> Z.of_nat (length ops) < 2 ^ 32 ->
  x3a ∉ StringToBytes from -> addressOf members from = Some addr ->
  let applied := applyOps poolCap g now s (Some <$> omap wire_op ops) in
  let '(s', localOps) := GetSyncBuffer poolCap applied.1 now in
  HandleGossip poolCap g members s (pushMessage (Serialize ops)) now = (applied.1, [], applied.2) /\
  HandleGossip poolCap g members s (pullMessage from (Serialize ops)) now =
    (s', match localOps with [] => [] | _ => [(addr, pushMessage (Serialize localOps))] end, None).
Proof.
  intros Hf Hn Hc Ha. cbv zeta. pose proof (HandleGossip_pull poolCap g members s ops from now Hf Hn Hc) as Hpull.
  cbv zeta in Hpull. rewrite Ha in Hpull. destruct (GetSyncBuffer poolCap _ now) as [s' localOps].
  split; [by apply HandleGossip_push|]. rewrite Hpull. by destruct localOps.
Qed.

Lemma gossip_delivery_witness :
  let g := newGossip "n1" demoRing 2 in
  let applied := applyOps 0 g 0 demoStore [Some (demoOp 1 x61)] in
  HandleGossip 0 g [mkNode "n2" "h:2" 1 0 0 0] demoStore (pushMessage (Serialize [demoOp 1 x61])) 0 =
  (applied.1, [], applied.2).
Proof.
  pose proof (gossip_delivery 0 (newGossip "n1" demoRing 2) [mkNode "n2" "h:2" 1 0 0 0] demoStore
    [demoOp 1 x61] "n2" "h:2" 0) as K.
  cbv zeta in K |- *. destruct (GetSyncBuffer 0 _ 0) as [s' localOps].
  destruct K as [K _].
  - apply Forall_cons. split; [|done]. repeat split; try done; by left.
  - done.
  - apply (bool_decide_unpack _). vm_compute. exact I.
  - reflexivity.
  - exact K.
Defined.
