(* ===== verification/Writer.v ===== *)
(** The write path (src/internal/cluster/writer.go): versions, the local write,
    the queue of operations for the other replicas, and the batches that send
    it by gossip.

    The executor is shared with the rest of the node and may refuse a task:
    [accepts n] says whether the writer's [n]-th submission finds room in its
    queue.  Accepted tasks wait in [w_tasks] until the executor runs them.
    Clock readings are arguments.  The read cache is the set of its keys. *)

From Stdlib Require Import ZArith Lia.
From Stdlib Require Import Strings.String Strings.Byte.
From S2P Require Import Prelude Hlc StoredItem Compress SyncBuffer MemStorage MemStorageFacts.
From S2P Require Import MemStorageProps Codec HashRing Member Gossip.

Inductive task := flushTask | retryTask.

#[export] Instance task_eq_dec : EqDecision task.
Proof. solve_decision. Defined.

Inductive writeErr :=
  | errNoReplicas
  | errStoreFailed (e : storageErr).

Record writer := mkWriter {
  w_nodeID : string;
  w_hlc : HLC;
  w_store : MemStorage;
  w_ring : hashRing;
  w_cache : option (gset string);    (** the cached keys; None: no cache *)
  w_batchThreshold : Z;
  w_batchCount : Z;
  w_timer : bool;                    (** flushTimer is armed *)
  w_replicaCount : Z;
  w_flushPending : bool;
  w_lastVersions : gmap string Z;
  w_pendingOps : list SyncOperation;
  w_tasks : list task;               (** accepted by the executor, not run *)
  w_submitted : nat;                 (** number of calls of executor.Do *)
}.

Definition newWriter (nodeID : string) (hlc : HLC) (store : MemStorage) (ring : hashRing)
    (cache : option (gset string)) (batchThreshold replicaCount : Z) : writer :=
  mkWriter nodeID hlc store ring cache
    (if batchThreshold <=? 0 then 200 else batchThreshold) 0 true
    (if replicaCount <=? 0 then 3 else replicaCount) false ∅ [] [] 0.

Definition set_hlc (h : HLC) (w : writer) : writer :=
  mkWriter (w_nodeID w) h (w_store w) (w_ring w) (w_cache w) (w_batchThreshold w) (w_batchCount w)
    (w_timer w) (w_replicaCount w) (w_flushPending w) (w_lastVersions w) (w_pendingOps w)
    (w_tasks w) (w_submitted w).
Definition set_store (s : MemStorage) (w : writer) : writer :=
  mkWriter (w_nodeID w) (w_hlc w) s (w_ring w) (w_cache w) (w_batchThreshold w) (w_batchCount w)
    (w_timer w) (w_replicaCount w) (w_flushPending w) (w_lastVersions w) (w_pendingOps w)
    (w_tasks w) (w_submitted w).
Definition set_batchCount (n : Z) (w : writer) : writer :=
  mkWriter (w_nodeID w) (w_hlc w) (w_store w) (w_ring w) (w_cache w) (w_batchThreshold w) n
    (w_timer w) (w_replicaCount w) (w_flushPending w) (w_lastVersions w) (w_pendingOps w)
    (w_tasks w) (w_submitted w).
Definition set_timer (b : bool) (w : writer) : writer :=
  mkWriter (w_nodeID w) (w_hlc w) (w_store w) (w_ring w) (w_cache w) (w_batchThreshold w)
    (w_batchCount w) b (w_replicaCount w) (w_flushPending w) (w_lastVersions w) (w_pendingOps w)
    (w_tasks w) (w_submitted w).
Definition set_flushPending (b : bool) (w : writer) : writer :=
  mkWriter (w_nodeID w) (w_hlc w) (w_store w) (w_ring w) (w_cache w) (w_batchThreshold w)
    (w_batchCount w) (w_timer w) (w_replicaCount w) b (w_lastVersions w) (w_pendingOps w)
    (w_tasks w) (w_submitted w).
Definition set_lastVersions (m : gmap string Z) (w : writer) : writer :=
  mkWriter (w_nodeID w) (w_hlc w) (w_store w) (w_ring w) (w_cache w) (w_batchThreshold w)
    (w_batchCount w) (w_timer w) (w_replicaCount w) (w_flushPending w) m (w_pendingOps w)
    (w_tasks w) (w_submitted w).
Definition set_pendingOps (ops : list SyncOperation) (w : writer) : writer :=
  mkWriter (w_nodeID w) (w_hlc w) (w_store w) (w_ring w) (w_cache w) (w_batchThreshold w)
    (w_batchCount w) (w_timer w) (w_replicaCount w) (w_flushPending w) (w_lastVersions w) ops
    (w_tasks w) (w_submitted w).
Definition set_tasks (ts : list task) (w : writer) : writer :=
  mkWriter (w_nodeID w) (w_hlc w) (w_store w) (w_ring w) (w_cache w) (w_batchThreshold w)
    (w_batchCount w) (w_timer w) (w_replicaCount w) (w_flushPending w) (w_lastVersions w)
    (w_pendingOps w) ts (w_submitted w).
Definition uncache (key : string) (w : writer) : writer :=
  mkWriter (w_nodeID w) (w_hlc w) (w_store w) (w_ring w)
    ((fun c => c ∖ {[key]}) <$> w_cache w) (w_batchThreshold w)
    (w_batchCount w) (w_timer w) (w_replicaCount w) (w_flushPending w) (w_lastVersions w)
    (w_pendingOps w) (w_tasks w) (w_submitted w).

Definition isLocalReplica (w : writer) (targets : list string) : bool :=
  bool_decide (w_nodeID w ∈ targets).

(** * Triggering a batch *)

Section Batch.
Context (accepts : nat -> bool).

(** [executor.Do]: whether the task was accepted. *)
Definition Do (t : task) (w : writer) : writer * bool :=
  let ok := accepts (w_submitted w) in
  (mkWriter (w_nodeID w) (w_hlc w) (w_store w) (w_ring w) (w_cache w) (w_batchThreshold w)
     (w_batchCount w) (w_timer w) (w_replicaCount w) (w_flushPending w) (w_lastVersions w)
     (w_pendingOps w) (if ok then w_tasks w ++ [t] else w_tasks w) (S (w_submitted w)), ok).

(** A refused flush is submitted again as a delayed retry, whose own refusal
    is ignored. *)
Definition flushAsync (w : writer) : writer :=
  let '(w, ok) := Do flushTask w in
  if ok then w else (Do retryTask w).1.

(** [flushPending.CompareAndSwap(false, true)], then [flushAsync]. *)
Definition startFlush (w : writer) : writer := flushAsync (set_flushPending true w).

Definition ensureTimerRunning (w : writer) : writer := set_timer true w.

Definition triggerBatch (w : writer) : writer :=
  let count := add64 (w_batchCount w) 1 in
  let w := set_batchCount count w in
  if w_batchThreshold w <=? count then
    if w_flushPending w then w else startFlush w
  else if (sint 64 (w_batchThreshold w * 10) <? Z.of_nat (length (w_pendingOps w)))
          && negb (w_flushPending w)
  then startFlush w
  else ensureTimerRunning w.

(** The delayed retry of [flushAsync]. *)
Definition runRetry (w : writer) : writer :=
  if w_flushPending w then triggerBatch (set_flushPending false w) else w.

(** [flushTimer] fires. *)
Definition timerFired (w : writer) : writer :=
  let w := set_timer false w in
  if w_flushPending w then set_timer true w else startFlush w.

(** * Writes *)

Context `{XXH3, LZ4} (poolCap : Z).

Definition queueOps (targets : list string) (op : SyncOperation) (w : writer) : writer :=
  set_pendingOps (fold_left (fun ops target =>
    if bool_decide (target = w_nodeID w) then ops else ops ++ [op]) targets (w_pendingOps w)) w.

Definition storeOrQueue (key : string) (item : StoredItem) (opType : Z) (w : writer)
    : writer * option writeErr :=
  let targets := GetN (w_ring w) key (w_replicaCount w) in
  match targets with
  | [] => (w, Some errNoReplicas)
  | _ =>
      let '(s, err) := StoreSet poolCap (w_store w) key (Some item) in
      let w := set_store s w in
      match err with
      | Some e => (w, Some (errStoreFailed e))
      | None =>
          let w := queueOps targets (mkOp key opType (DeepCopy (Some item))) w in
          (uncache key (triggerBatch w), None)
      end
  end.

(** [hlcToInt64(w.hlc.Now())]; [now'] is the clock in the fallback. *)
Definition stampVersion (now now' : Z) (w : writer) : writer * Z :=
  let '(h, hlcStr) := Now (w_hlc w) now in
  (set_hlc h w, hlcToInt64 hlcStr now').

Definition maxVersions : Z := 10000.

(** [order] is the order in which a range over the map visits its keys. *)
Definition trimVersions (order : gmap string Z -> list string) (m : gmap string Z) : gmap string Z :=
  let n := Z.of_nat (size m) in
  if maxVersions <? n then
    let toRemove := n - maxVersions + maxVersions / 5 in
    fold_left (fun m k => delete k m) (take (Z.to_nat toRemove) (order m)) m
  else m.

(** The version a [Set] of [key] gets, given the stamp's version. *)
Definition nextVersion (w : writer) (key : string) (version : Z) : Z :=
  match w_lastVersions w !! key with
  | Some lastVersion => if version <=? lastVersion then add64 lastVersion 1 else version
  | None => version
  end.

Definition WriterSet (order : gmap string Z -> list string) (key : string) (item : StoredItem)
    (now now' : Z) (w : writer) : writer * option writeErr :=
  let '(w, version) := stampVersion now now' w in
  let version := nextVersion w key version in
  let w := set_lastVersions (trimVersions order (<[key := version]> (w_lastVersions w))) w in
  let newItem := mkItem version (si_ExpireAt item) (si_Value item) key in
  let '(w, err) := storeOrQueue key newItem OpSet w in
  match err with
  | Some e => (w, Some e)
  | None => (triggerBatch w, None)
  end.

Definition WriterDelete (key : string) (version now now' : Z) (w : writer)
    : writer * option writeErr :=
  let '(w, newVersion) := stampVersion now now' w in
  let newVersion := if newVersion <=? version then add64 version 1 else newVersion in
  let newVersion := if newVersion <=? 0 then 1 else newVersion in
  let tombstone := mkItem newVersion zeroTime None key in
  let '(w, err) := storeOrQueue key tombstone OpDelete w in
  match err with
  | Some e => (w, Some e)
  | None => (triggerBatch w, None)
  end.

(** [getTargets]: replica sets are looked up once per key. *)
Definition getTargets (w : writer) (cache : gmap string (list string)) (key : string)
    : gmap string (list string) * list string :=
  match cache !! key with
  | Some targets => (cache, targets)
  | None =>
      let targets := GetN (w_ring w) key (w_replicaCount w) in
      (<[key := targets]> cache, targets)
  end.

Definition batchSetItem (version : Z) (cw : gmap string (list string) * writer)
    (kv : string * StoredItem) : gmap string (list string) * writer :=
  let '(cache, w) := cw in
  let '(key, item) := kv in
  let newItem := mkItem version (si_ExpireAt item) (si_Value item) key in
  let '(cache, targets) := getTargets w cache key in
  match targets with
  | [] => (cache, w)
  | _ =>
      if isLocalReplica w targets then
        (cache, uncache key (set_store (StoreSet poolCap (w_store w) key (Some newItem)).1 w))
      else
        (cache, set_pendingOps (w_pendingOps w ++ [mkOp key OpSet (DeepCopy (Some newItem))]) w)
  end.

(** [items] lists the map in the order the range visits it. *)
Definition WriterBatchSet (items : list (string * StoredItem)) (now now' : Z) (w : writer) : writer :=
  match items with
  | [] => w
  | _ =>
      let '(w, version) := stampVersion now now' w in
      triggerBatch (fold_left (batchSetItem version) items (∅, w)).2
  end.

(** * The flush *)

Definition maxPendingOps (w : writer) : Z := sint 64 (w_batchThreshold w * 200).

(** The pending operations that are kept: the most recent ones. *)
Definition keptPending (w : writer) : list SyncOperation :=
  let n := Z.of_nat (length (w_pendingOps w)) in
  if maxPendingOps w <? n then drop (Z.to_nat (n - maxPendingOps w)) (w_pendingOps w)
  else w_pendingOps w.

Definition addToTargets (nodeID : string) (targets : list string) (op : SyncOperation)
    (m : gmap string (list SyncOperation)) : gmap string (list SyncOperation) :=
  fold_left (fun m target =>
    if bool_decide (target = nodeID) then m
    else <[target := default [] (m !! target) ++ [op]]> m) targets m.

Definition distributeOp (w : writer)
    (cm : gmap string (list string) * gmap string (list SyncOperation)) (op : SyncOperation)
    : gmap string (list string) * gmap string (list SyncOperation) :=
  let '(keyTargetsCache, targetOpsMap) := cm in
  if bool_decide (so_Key op = ""%string) then cm
  else
    let '(keyTargetsCache, targets) :=
      match keyTargetsCache !! so_Key op with
      | Some targets => (keyTargetsCache, targets)
      | None =>
          let targets := GetN (w_ring w) (so_Key op) (w_replicaCount w) in
          (match targets with [] => keyTargetsCache
                            | _ => <[so_Key op := targets]> keyTargetsCache end, targets)
      end in
    match targets with
    | [] => (keyTargetsCache, targetOpsMap)
    | _ => (keyTargetsCache, addToTargets (w_nodeID w) targets op targetOpsMap)
    end.

Definition distribute (w : writer) (ops : list SyncOperation) : gmap string (list SyncOperation) :=
  (fold_left (distributeOp w) ops (∅, ∅)).2.

Definition nodeIDToAddr (members : list NodeInfo) : gmap string string :=
  fold_left (fun m i => <[ni_NodeID i := ni_Address i]> m) members ∅.

(** The pushes of a flush: a batch for each target with an address. *)
Definition pushTarget (members : list NodeInfo) (to : string * list SyncOperation)
    : list (string * bytes) :=
  let targetAddr := default ""%string (nodeIDToAddr members !! to.1) in
  match to.2 with
  | [] => []
  | _ => if bool_decide (targetAddr = ""%string) then [] else Push members to.2 [targetAddr]
  end.

(** [flushInternal], with the messages handed to the gossip layer. *)
Definition flushInternal (members : list NodeInfo) (now : Z) (w : writer)
    : writer * list (string * bytes) :=
  let '(s, ops) := GetSyncBuffer poolCap (w_store w) now in
  let pendingOps := keptPending w in
  let w := set_pendingOps [] (set_store s w) in
  let ops := ops ++ pendingOps in
  let w := set_batchCount 0 w in
  match ops with
  | [] => (w, [])
  | _ => (w, mjoin (pushTarget members <$> map_to_list (distribute w ops)))
  end.

Definition flush (members : list NodeInfo) (now : Z) (w : writer) : writer * list (string * bytes) :=
  let '(w, msgs) := flushInternal members now w in (set_timer true w, msgs).

(** The executor runs its next task of the writer. *)
Definition runTask (members : list NodeInfo) (now : Z) (w : writer) : writer * list (string * bytes) :=
  match w_tasks w with
  | [] => (w, [])
  | flushTask :: ts =>
      let '(w, msgs) := flush members now (set_tasks ts w) in (set_flushPending false w, msgs)
  | retryTask :: ts => (runRetry (set_tasks ts w), [])
  end.

(** [Stop]: the loop flushes once more; the timer is stopped. *)
Definition StopWriter (members : list NodeInfo) (now : Z) (w : writer) : writer * list (string * bytes) :=
  flushInternal members now (set_timer false w).
End Batch.

(** * Runs *)

(** What can happen to a writer; [onEnv] is the rest of the node changing the
    clock, the store, the ring or the cache it shares with the writer. *)
Inductive event :=
  | onSet (key : string) (item : StoredItem) (now now' : Z)
  | onDelete (key : string) (version now now' : Z)
  | onBatchSet (items : list (string * StoredItem)) (now now' : Z)
  | onTask (members : list NodeInfo) (now : Z)
  | onTimer
  | onEnv (h : HLC) (s : MemStorage) (r : hashRing) (c : option (gset string)).

Definition environment (h : HLC) (s : MemStorage) (r : hashRing) (c : option (gset string))
    (w : writer) : writer :=
  mkWriter (w_nodeID w) h s r c (w_batchThreshold w) (w_batchCount w)
    (w_timer w) (w_replicaCount w) (w_flushPending w) (w_lastVersions w) (w_pendingOps w)
    (w_tasks w) (w_submitted w).

Section Run.
Context (accepts : nat -> bool) (order : gmap string Z -> list string).
Context `{XXH3, LZ4} (poolCap : Z).

(** The state after an event and the messages it sends. *)
Definition fire (e : event) (w : writer) : writer * list (string * bytes) :=
  match e with
  | onSet key item now now' => ((WriterSet accepts poolCap order key item now now' w).1, [])
  | onDelete key version now now' => ((WriterDelete accepts poolCap key version now now' w).1, [])
  | onBatchSet items now now' => (WriterBatchSet accepts poolCap items now now' w, [])
  | onTask members now => runTask accepts poolCap members now w
  | onTimer => (if w_timer w then timerFired accepts w else w, [])
  | onEnv h s r c => (environment h s r c w, [])
  end.

Fixpoint run (es : list event) (w : writer) : writer * list (string * bytes) :=
  match es with
  | [] => (w, [])
  | e :: es =>
      let '(w, msgs) := fire e w in
      let '(w, more) := run es w in (w, msgs ++ more)
  end.

(** The key and version of the write an event makes with [Set]. *)
Definition issued (e : event) (w : writer) : list (string * Z) :=
  match e with
  | onSet key item now now' =>
      let '(w, version) := stampVersion now now' w in [(key, nextVersion w key version)]
  | _ => []
  end.

Fixpoint all_issued (es : list event) (w : writer) : list (string * Z) :=
  match es with
  | [] => []
  | e :: es => issued e w ++ all_issued es (fire e w).1
  end.

(** ** What the operations leave alone *)

(** The part of the state that starting a flush leaves alone. *)
Definition frame (w : writer) :=
  (w_nodeID w, w_hlc w, w_store w, w_ring w, w_cache w, w_replicaCount w, w_lastVersions w,
   w_pendingOps w).

Lemma startFlush_frame w : frame (startFlush accepts w) = frame w.
Proof. unfold startFlush, flushAsync, Do. by case_match. Qed.

Lemma triggerBatch_frame w : frame (triggerBatch accepts w) = frame w.
Proof. unfold triggerBatch. repeat case_match; try done; by rewrite startFlush_frame. Qed.

Lemma startFlush_versions w : w_lastVersions (startFlush accepts w) = w_lastVersions w.
Proof. by pose proof (startFlush_frame w) as [=]. Qed.

Lemma triggerBatch_versions w : w_lastVersions (triggerBatch accepts w) = w_lastVersions w.
Proof. by pose proof (triggerBatch_frame w) as [=]. Qed.

Lemma triggerBatch_pending w : w_pendingOps (triggerBatch accepts w) = w_pendingOps w.
Proof. by pose proof (triggerBatch_frame w) as [=]. Qed.

Lemma storeOrQueue_versions key item o w :
  w_lastVersions (storeOrQueue accepts poolCap key item o w).1 = w_lastVersions w.
Proof.
  unfold storeOrQueue. repeat case_match; try done. simpl. by rewrite triggerBatch_versions.
Qed.

Lemma WriterSet_versions key item now now' w :
  let '(w1, version) := stampVersion now now' w in
  w_lastVersions (WriterSet accepts poolCap order key item now now' w).1 =
  trimVersions order (<[key := nextVersion w1 key version]> (w_lastVersions w)).
Proof.
  unfold WriterSet. destruct (stampVersion now now' w) as [w1 v] eqn:E.
  assert (w_lastVersions w1 = w_lastVersions w) as <-
    by (unfold stampVersion in E; case_match; by simplify_eq).
  pose proof (storeOrQueue_versions key
    (mkItem (nextVersion w1 key v) (si_ExpireAt item) (si_Value item) key) OpSet
    (set_lastVersions (trimVersions order (<[key := nextVersion w1 key v]> (w_lastVersions w1))) w1)) as K.
  destruct (storeOrQueue _ _ _ _ _ _) as [w2 [e|]]; simpl in *; [done|].
  by rewrite triggerBatch_versions.
Qed.

Lemma batchSet_versions v items cw :
  w_lastVersions (fold_left (batchSetItem poolCap v) items cw).2 = w_lastVersions cw.2.
Proof.
  revert cw. induction items as [|[k i] items IH]; intros [c w]; simpl; [done|].
  rewrite IH. repeat case_match; by simplify_eq.
Qed.

Lemma flushInternal_versions members now w :
  w_lastVersions (flushInternal poolCap members now w).1 = w_lastVersions w.
Proof. unfold flushInternal. by repeat case_match. Qed.

Lemma fire_versions e w : issued e w = [] -> w_lastVersions (fire e w).1 = w_lastVersions w.
Proof.
  destruct e; simpl; intros Hi.
  - by destruct (stampVersion _ _ _).
  - unfold WriterDelete, stampVersion. destruct (Now _ _) as [h str].
    match goal with |- context [storeOrQueue accepts poolCap ?k ?i ?o ?w'] =>
      pose proof (storeOrQueue_versions k i o w') as K;
      destruct (storeOrQueue accepts poolCap k i o w') as [w2 [e|]] end; simpl in *; [done|].
    by rewrite triggerBatch_versions.
  - unfold WriterBatchSet, stampVersion. destruct items; [done|]. destruct (Now _ _) as [h str].
    by rewrite triggerBatch_versions, batchSet_versions.
  - unfold runTask. destruct (w_tasks w) as [|[] ts]; [done| |].
    + unfold flush. pose proof (flushInternal_versions members now (set_tasks ts w)) as K.
      by destruct (flushInternal _ _ _ _).
    + unfold runRetry. simpl. case_match; [by rewrite triggerBatch_versions|done].
  - case_match; [|done]. unfold timerFired. case_match; [done|by rewrite startFlush_versions].
  - done.
Qed.
(** ** Versions *)

Definition later (a b : string * Z) : Prop := a.1 = b.1 -> a.2 < b.2.

(** The recorded versions are versions that can still be exceeded. *)
Definition versions_ok (w : writer) : Prop :=
  forall k l, w_lastVersions w !! k = Some l -> is_sint 64 l /\ l < 2 ^ 63 - 1.

Lemma nextVersion_spec w key v :
  versions_ok w -> is_sint 64 v ->
  is_sint 64 (nextVersion w key v) /\ v <= nextVersion w key v /\
  forall l, w_lastVersions w !! key = Some l -> l < nextVersion w key v.
Proof.
  unfold nextVersion. intros Hw Hv. destruct (w_lastVersions w !! key) as [l0|] eqn:E.
  - destruct (Hw key l0 E) as [H1 H2].
    assert (Ha : add64 l0 1 = l0 + 1) by (apply sint_id; unfold is_sint in *; lia).
    rewrite Ha. unfold is_sint in *. destruct (Z.leb_spec v l0);
      (split; [lia|]); (split; [lia|]); intros l [= <-]; lia.
  - split; [done|]. split; [lia|done].
Qed.

Lemma all_issued_sorted es w :
  versions_ok w ->
  Z.of_nat (size (w_lastVersions w)) + Z.of_nat (length (all_issued es w)) <= maxVersions ->
  Forall (fun iv => iv.2 < 2 ^ 63 - 1) (all_issued es w) ->
  StronglySorted later (all_issued es w) /\
  Forall (fun iv => forall l, w_lastVersions w !! iv.1 = Some l -> l < iv.2) (all_issued es w).
Proof.
  revert w. induction es as [|e es IH]; intros w Hok Hn Hf; [by split; constructor|].
  cbn [all_issued] in *. destruct (issued e w) as [|iv0 rest] eqn:Ei.
  - cbn [app] in *. pose proof (fire_versions e w Ei) as E.
    destruct (IH (fire e w).1) as [I1 I2]; [|by rewrite E|done|].
    + intros k l. rewrite E. apply Hok.
    + split; [done|]. rewrite E in I2. done.
  - destruct e; simpl in Ei; try done. rewrite length_app in Hn.
    pose proof (WriterSet_versions key item now now' w) as E.
    destruct (stampVersion now now' w) as [w1 v] eqn:Es.
    injection Ei as <- <-. cbn [app length] in *.
    apply Forall_cons in Hf as [Hf1 Hf2]. cbn [snd] in Hf1.
    assert (Hl : w_lastVersions w1 = w_lastVersions w /\ is_sint 64 v).
    { unfold stampVersion in Es. case_match. simplify_eq. split; [done|apply hlcToInt64_range]. }
    destruct Hl as [Hl Hv].
    assert (Hok1 : versions_ok w1) by (intros k l; rewrite Hl; apply Hok).
    destruct (nextVersion_spec w1 key v Hok1 Hv) as (N1 & N2 & N3).
    set (nv := nextVersion w1 key v) in *.
    assert (Hsz : Z.of_nat (size (<[key := nv]> (w_lastVersions w))) <=
                  Z.of_nat (size (w_lastVersions w)) + 1).
    { rewrite map_size_insert. case_match; simpl; lia. }
    assert (E' : w_lastVersions (fire (onSet key item now now') w).1 = <[key := nv]> (w_lastVersions w)).
    { cbn [fire fst]. rewrite E. unfold trimVersions. rewrite (proj2 (Z.ltb_ge _ _)); [done|lia]. }
    destruct (IH (fire (onSet key item now now') w).1) as [I1 I2]; [|rewrite E'; lia|done|].
    { intros k l. rewrite E'. intros [[<- <-]|[_ Hk]]%lookup_insert_Some; [by split|by apply (Hok k)]. }
    rewrite E' in I2. split.
    + constructor; [done|]. eapply Forall_impl; [exact I2|]. intros [k x] Hx Hkk. simpl in *. subst k.
      apply Hx. apply lookup_insert_eq.
    + constructor; [by intros l; cbn [fst snd]; rewrite <- Hl; apply N3|].
      eapply Forall_impl; [exact I2|]. intros [k x] Hx l Hkl. simpl in *.
      destruct (decide (k = key)) as [->|Hne].
      * rewrite <- Hl in Hkl. specialize (N3 l Hkl). specialize (Hx nv (lookup_insert_eq _ _ _)). lia.
      * apply Hx. by rewrite lookup_insert_ne.
Qed.
(** ** A write *)

Definition remote (w : writer) (targets : list string) : list string :=
  filter (fun t => t <> w_nodeID w) targets.

Lemma queueOps_pending targets op w :
  w_pendingOps (queueOps targets op w) =
  w_pendingOps w ++ replicate (length (remote w targets)) op.
Proof.
  unfold queueOps, remote. cbn [w_pendingOps set_pendingOps]. generalize (w_pendingOps w).
  induction targets as [|t targets IH]; intros ops; cbn [fold_left].
  - by rewrite app_nil_r.
  - rewrite IH. destruct (decide (t = w_nodeID w)) as [->|Hne].
    + by rewrite bool_decide_eq_true_2, filter_cons_False by (done || tauto).
    + rewrite bool_decide_eq_false_2, filter_cons_True by done. cbn [length replicate].
      by rewrite <- app_assoc.
Qed.

(** What a local write that is queued for replication has done. *)
Record written (w : writer) (key : string) (item : StoredItem) (opType : Z) (w' : writer) : Prop := {
  wr_store : exists s1, shrinks (w_store w) s1 /\
    (fits (w_store w) (prepareCompressedItem poolCap (w_store w) key item).2 ->
       forall k, contents s1 k = contents (w_store w) k) /\
    forall k, contents (w_store w') k =
      VersionedMap.put (contents s1) key (prepareCompressedItem poolCap (w_store w) key item).1 k;
  wr_queue : w_pendingOps w' = w_pendingOps w ++
    replicate (length (remote w (GetN (w_ring w) key (w_replicaCount w)))) (mkOp key opType (Some item));
  wr_cache : forall c, w_cache w' = Some c -> key ∉ c;
}.

(** The same after a failure: nothing is queued. *)
Definition not_written (w : writer) (key : string) (item : StoredItem) (w' : writer) (e : writeErr) : Prop :=
  w_pendingOps w' = w_pendingOps w /\
  match e with
  | errNoReplicas => GetN (w_ring w) key (w_replicaCount w) = [] /\ w_store w' = w_store w
  | errStoreFailed e =>
      e = ErrMemoryLimit /\ shrinks (w_store w) (w_store w') /\
      ~ fits (w_store w) (prepareCompressedItem poolCap (w_store w) key item).2
  end.

Definition write_result (w : writer) (key : string) (item : StoredItem) (opType : Z)
    (r : writer * option writeErr) : Prop :=
  match r.2 with
  | None => written w key item opType r.1
  | Some e => not_written w key item r.1 e
  end.

Lemma storeOrQueue_spec key item o w :
  store_wf (w_store w) -> key <> ""%string ->
  write_result w key item o (storeOrQueue accepts poolCap key item o w).
Proof.
  intros Hw Hk. unfold storeOrQueue, write_result.
  destruct (GetN (w_ring w) key (w_replicaCount w)) as [|t0 ts] eqn:Et; [done|].
  destruct (StoreSet_contents poolCap (w_store w) key item Hw Hk) as (s1 & Hs & Hf & Hr).
  destruct (StoreSet poolCap (w_store w) key (Some item)) as [s err]. cbn [fst snd] in *.
  destruct err as [e|]; cbn [fst snd].
  - destruct Hr as [-> Hr]. split; [done|]. split; [done|]. split; [|by intros [? _]%Hf].
    intros k. cbn [w_store set_store]. rewrite Hr. apply Hs.
  - set (w1 := queueOps _ _ _). pose proof (triggerBatch_frame w1) as [= _ _ Hst _ Hca _ _ Hp].
    split.
    + exists s1. split; [done|]. split; [by intros [_ ?]%Hf|]. cbn [w_store uncache]. by rewrite Hst.
    + trans (w_pendingOps w1); [exact Hp|]. unfold w1. by rewrite queueOps_pending, Et, DeepCopy_id.
    + intros c. cbn [w_cache uncache]. intros (c0 & _ & ->)%fmap_Some. set_solver.
Qed.

Lemma write_result_frame w key item o w1 w2 :
  frame w1 = frame w2 -> written w key item o w1 -> written w key item o w2.
Proof.
  intros [= _ _ Hs _ Hc _ _ Hp] [W1 W2 W3]. split; [by rewrite <- Hs|by rewrite <- Hp|by rewrite <- Hc].
Qed.
(** ** Scheduling *)

(** The part of the state that scheduling depends on. *)
Definition sched (w : writer) := (w_flushPending w, w_tasks w, w_timer w).

(** A property of scheduling that [triggerBatch] keeps is kept by writes. *)
Section Sched.
Context (P : writer -> Prop).
Hypothesis P_sched : forall w w', sched w = sched w' -> P w -> P w'.
Hypothesis P_trigger : forall w, P w -> P (triggerBatch accepts w).

Lemma storeOrQueue_keeps key item o w :
  P w -> P (storeOrQueue accepts poolCap key item o w).1.
Proof.
  intros Hp. unfold storeOrQueue. destruct (GetN _ _ _) as [|t0 ts]; [done|]. destruct (StoreSet _ _ _ _) as [s [e|]].
  - by apply (P_sched w).
  - cbn [fst]. eapply P_sched; [|apply P_trigger; apply (P_sched w); [|done]]; done.
Qed.

Lemma stored_then_trigger key item o w :
  P w -> P (let '(w, err) := storeOrQueue accepts poolCap key item o w in
            match err with Some e => (w, Some e) | None => (triggerBatch accepts w, None) end).1.
Proof.
  intros Hp. pose proof (storeOrQueue_keeps key item o w Hp) as K.
  destruct (storeOrQueue _ _ _ _ _ _) as [w1 [e|]]; [done|]. by apply P_trigger.
Qed.

Lemma batchSet_keeps v items cw : P cw.2 -> P (fold_left (batchSetItem poolCap v) items cw).2.
Proof.
  revert cw. induction items as [|[k i] items IH]; intros [c w] Hp; cbn [fold_left]; [done|].
  apply IH. unfold batchSetItem. destruct (getTargets w c k) as [c' [|t0 ts]]; [done|].
  case_match; by apply (P_sched w).
Qed.

Lemma writes_keep w :
  P w ->
  (forall key item now now', P (fire (onSet key item now now') w).1) /\
  (forall key version now now', P (fire (onDelete key version now now') w).1) /\
  (forall items now now', P (fire (onBatchSet items now now') w).1) /\
  (forall h s r c, P (fire (onEnv h s r c) w).1).
Proof.
  intros Hp. split; [|split; [|split]].
  - intros key item now now'. cbn [fire fst]. unfold WriterSet, stampVersion. destruct (Now _ _) as [h str].
    apply stored_then_trigger. by apply (P_sched w).
  - intros key v now now'. cbn [fire fst]. unfold WriterDelete, stampVersion. destruct (Now _ _) as [h str].
    apply stored_then_trigger. by apply (P_sched w).
  - intros items now now'. cbn [fire fst]. unfold WriterBatchSet, stampVersion. destruct items; [done|].
    destruct (Now _ _) as [h str]. apply P_trigger, batchSet_keeps. by apply (P_sched w).
  - intros h s r c. by apply (P_sched w).
Qed.
End Sched.

(** Either the timer will start a flush, or one task is in charge of it. *)
Definition live (w : writer) : Prop :=
  (w_flushPending w = false /\ w_tasks w = [] /\ w_timer w = true) \/
  (w_flushPending w = true /\ exists t, w_tasks w = [t]).

(** A flush was started and no task is left to do it. *)
Definition wedged (w : writer) : Prop := w_flushPending w = true /\ w_tasks w = [].

Lemma live_sched w w' : sched w = sched w' -> live w -> live w'.
Proof. unfold live. by intros [= -> -> ->]. Qed.

Lemma wedged_sched w w' : sched w = sched w' -> wedged w -> wedged w'.
Proof. unfold wedged. by intros [= -> -> _]. Qed.

Lemma wedged_trigger w : wedged w -> wedged (triggerBatch accepts w).
Proof.
  intros [H1 H2]. unfold triggerBatch. cbn [set_batchCount w_flushPending w_batchThreshold].
  rewrite H1, andb_false_r. by repeat case_match.
Qed.

(** The executor never refuses two submissions in a row. *)
Definition admits : Prop := forall n, accepts n = true \/ accepts (S n) = true.

Lemma startFlush_live w : admits -> w_tasks w = [] -> live (startFlush accepts w).
Proof.
  intros Ha Ht. unfold live, startFlush, flushAsync, Do. simpl. rewrite Ht.
  destruct (accepts (w_submitted w)) eqn:E; simpl; right; [by eauto|].
  destruct (Ha (w_submitted w)) as [Ha0|Ha1]; [congruence|]. simpl. rewrite ?E, Ha1. simpl. rewrite ?Ht. eauto.
Qed.

Lemma triggerBatch_fresh w :
  admits -> w_flushPending w = false -> w_tasks w = [] -> live (triggerBatch accepts w).
Proof.
  intros Ha Hf Ht. unfold triggerBatch. cbn [set_batchCount w_flushPending w_batchThreshold].
  rewrite Hf. repeat case_match; try by apply startFlush_live. by left.
Qed.

Lemma triggerBatch_live w : admits -> live w -> live (triggerBatch accepts w).
Proof.
  intros Ha [(Hf & Ht & _)|(Hf & t & Ht)]; [by apply triggerBatch_fresh|].
  unfold triggerBatch. cbn [set_batchCount w_flushPending w_batchThreshold].
  rewrite Hf, andb_false_r. right. repeat case_match; eauto.
Qed.

Lemma flushInternal_sched members now w : sched (flushInternal poolCap members now w).1 = sched w.
Proof. unfold flushInternal. by repeat case_match. Qed.

Lemma fire_live e w : admits -> live w -> live (fire e w).1.
Proof.
  intros Ha Hl.
  destruct (writes_keep live live_sched (fun w => triggerBatch_live w Ha) w Hl) as (W1 & W2 & W3 & W4).
  destruct e; auto; cbn [fire fst].
  - unfold runTask. destruct Hl as [(Hf & Ht & Htm)|(Hf & t & Ht)]; rewrite Ht; [by left|]. destruct t.
    + unfold flush. pose proof (flushInternal_sched members now (set_tasks [] w)) as K.
      destruct (flushInternal _ _ _ _) as [w1 msgs]. injection K as K1 K2 K3. left. by rewrite <- K2.
    + cbn [fst]. unfold runRetry. cbn [set_tasks w_flushPending]. rewrite Hf. by apply triggerBatch_fresh.
  - destruct (w_timer w) eqn:Etm; [|done]. unfold timerFired. cbn [set_timer w_flushPending].
    destruct Hl as [(Hf & Ht & _)|(Hf & t & Ht)]; rewrite Hf;
      [by apply startFlush_live|right; split; [done|by exists t]].
Qed.

Lemma run_live es w : admits -> live w -> live (run es w).1.
Proof.
  intros Ha. revert w. induction es as [|e es IH]; intros w Hl; [done|]. cbn [run].
  pose proof (fire_live e w Ha Hl) as K. destruct (fire e w) as [w1 msgs]. specialize (IH w1 K).
  by destruct (run es w1).
Qed.
(** ** Emptying the queue *)

Lemma flushInternal_empty members now w : w_pendingOps (flushInternal poolCap members now w).1 = [].
Proof. unfold flushInternal. by repeat case_match. Qed.

Lemma run_flushTask members now ts w :
  w_tasks w = flushTask :: ts -> w_pendingOps (fire (onTask members now) w).1 = [].
Proof.
  intros Ht. cbn [fire]. unfold runTask, flush. rewrite Ht.
  pose proof (flushInternal_empty members now (set_tasks ts w)) as K.
  by destruct (flushInternal _ _ _ _).
Qed.

Lemma fire_keeps_pending e w :
  (match e with onTask _ _ | onTimer | onEnv _ _ _ _ => True | _ => False end) ->
  w_pendingOps (fire e w).1 = w_pendingOps w \/ w_pendingOps (fire e w).1 = [].
Proof.
  destruct e; try done; intros _; cbn [fire fst].
  - unfold runTask. destruct (w_tasks w) as [|[] ts] eqn:Ht; [by left| |].
    + right. pose proof (run_flushTask members now ts w Ht) as K. cbn [fire] in K.
      unfold runTask in K. by rewrite Ht in K.
    + left. unfold runRetry. case_match; [|done].
      cbn [fst]. by rewrite triggerBatch_pending.
  - left. case_match; [|done]. unfold timerFired. case_match; [done|].
    by pose proof (startFlush_frame (set_timer false w)) as [=].
  - by left.
Qed.

(** Once the executor accepts, starting a flush queues it. *)
Definition open_from (n : nat) : Prop := forall m, (n <= m)%nat -> accepts m = true.

Lemma startFlush_open w :
  open_from (w_submitted w) -> w_tasks w = [] -> w_tasks (startFlush accepts w) = [flushTask].
Proof.
  intros Ho Ht. unfold startFlush, flushAsync, Do. simpl. rewrite Ho by lia. simpl. by rewrite Ht.
Qed.

(** A retry starts a flush or leaves the timer armed. *)
Lemma triggerBatch_open w :
  open_from (w_submitted w) -> w_flushPending w = false -> w_tasks w = [] ->
  let w' := triggerBatch accepts w in
  w_tasks w' = [flushTask] \/
  (w_tasks w' = [] /\ w_flushPending w' = false /\ w_timer w' = true /\ w_submitted w' = w_submitted w).
Proof.
  intros Ho Hf Ht. cbv zeta. unfold triggerBatch. cbn [set_batchCount w_flushPending w_batchThreshold].
  rewrite Hf. repeat case_match; try (left; by apply startFlush_open). by right.
Qed.

Lemma timer_open w :
  open_from (w_submitted w) ->
  w_tasks w = [flushTask] \/ (w_tasks w = [] /\ w_flushPending w = false /\ w_timer w = true) ->
  w_flushPending w = true \/ w_tasks w = [] ->
  w_tasks (fire onTimer w).1 = [flushTask].
Proof.
  intros Ho Hc Hf. cbn [fire fst]. destruct Hc as [Ht|(Ht & Hf' & ->)].
  - destruct Hf as [Hf|Hf]; [|congruence]. case_match; [|done]. unfold timerFired. simpl. by rewrite Hf.
  - unfold timerFired. simpl. rewrite Hf'. by apply startFlush_open.
Qed.

(** The schedule of a flush: the waiting task if any, the timer, the task. *)
Definition drive (m1 : list NodeInfo) (t1 : Z) (m2 : list NodeInfo) (t2 : Z) : list event :=
  [onTask m1 t1; onTimer; onTask m2 t2].

Lemma run_cons e es w : (run (e :: es) w).1 = (run es (fire e w).1).1.
Proof. simpl. destruct (fire e w) as [w1 msgs]. simpl. by destruct (run es w1). Qed.

Lemma drive_empties m1 t1 m2 t2 w :
  live w -> open_from (w_submitted w) -> w_pendingOps (run (drive m1 t1 m2 t2) w).1 = [].
Proof.
  intros Hl Ho. unfold drive. rewrite !run_cons. cbn [run fst].
  assert (Hkeep : w_pendingOps (fire (onTask m1 t1) w).1 = [] ->
    w_pendingOps (fire (onTask m2 t2) (fire onTimer (fire (onTask m1 t1) w).1).1).1 = []).
  { intros E. destruct (fire_keeps_pending onTimer (fire (onTask m1 t1) w).1 I) as [E1|E1];
      destruct (fire_keeps_pending (onTask m2 t2) (fire onTimer (fire (onTask m1 t1) w).1).1 I) as [E2|E2];
      congruence. }
  destruct Hl as [(Hf & Ht & Htm)|(Hf & [] & Ht)].
  - assert (E : fire (onTask m1 t1) w = (w, [])) by (cbn [fire]; unfold runTask; by rewrite Ht).
    rewrite E. cbn [fst]. eapply run_flushTask. apply timer_open; [done|by right|by right].
  - apply Hkeep. by eapply run_flushTask.
  - set (w0 := set_flushPending false (set_tasks [] w)).
    assert (E : (fire (onTask m1 t1) w).1 = triggerBatch accepts w0).
    { cbn [fire]. unfold runTask. rewrite Ht. cbn [fst]. unfold runRetry. simpl. by rewrite Hf. }
    rewrite E. destruct (triggerBatch_open w0 Ho eq_refl eq_refl) as [Hq|(Hq1 & Hq2 & Hq3 & Hq4)].
    + destruct (w_timer (triggerBatch accepts w0)) eqn:Etm.
      * eapply run_flushTask. cbn [fire fst]. rewrite Etm. unfold timerFired. simpl.
        destruct (w_flushPending (triggerBatch accepts w0)) eqn:Ef; [by simpl|].
        exfalso. revert Hq Ef. clear. unfold triggerBatch, startFlush, flushAsync, Do.
        simpl. repeat case_match; simpl; intros; congruence.
      * eapply run_flushTask. cbn [fire fst]. by rewrite Etm.
    + eapply run_flushTask. apply timer_open; [by rewrite Hq4|by right|by right].
Qed.

(** ** A wedged writer *)

Lemma batchSet_prefix v items cw :
  w_pendingOps cw.2 `prefix_of` w_pendingOps (fold_left (batchSetItem poolCap v) items cw).2.
Proof.
  revert cw. induction items as [|[k i] items IH]; intros [c w]; cbn [fold_left]; [done|].
  etrans; [|apply IH]. unfold batchSetItem. destruct (getTargets w c k) as [c' [|t0 ts]]; [done|].
  case_match; [done|]. by apply prefix_app_r.
Qed.

Lemma storeOrQueue_prefix key item o w :
  w_pendingOps w `prefix_of` w_pendingOps (let '(w, err) := storeOrQueue accepts poolCap key item o w in
     match err with Some e => (w, Some e) | None => (triggerBatch accepts w, None) end).1.
Proof.
  unfold storeOrQueue. destruct (GetN _ _ _) as [|t0 ts]; [done|].
  destruct (StoreSet _ _ _ _) as [s [e|]]; [done|]. cbn [fst].
  rewrite triggerBatch_pending. cbn [w_pendingOps uncache].
  rewrite triggerBatch_pending, queueOps_pending. by apply prefix_app_r.
Qed.

Lemma wedged_fire e w :
  wedged w -> wedged (fire e w).1 /\ (fire e w).2 = [] /\
  w_pendingOps w `prefix_of` w_pendingOps (fire e w).1.
Proof.
  intros Hw. destruct (writes_keep wedged wedged_sched wedged_trigger w Hw) as (W1 & W2 & W3 & W4).
  destruct e; (split; [auto; cbn [fire fst]|]).
  - split; [done|]. cbn [fire fst]. unfold WriterSet, stampVersion. destruct (Now _ _) as [h str].
    by etrans; [|apply storeOrQueue_prefix].
  - split; [done|]. cbn [fire fst]. unfold WriterDelete, stampVersion. destruct (Now _ _) as [h str].
    by etrans; [|apply storeOrQueue_prefix].
  - split; [done|]. cbn [fire fst]. unfold WriterBatchSet, stampVersion. destruct items; [done|].
    destruct (Now _ _) as [h str].
    rewrite triggerBatch_pending. by etrans; [|apply batchSet_prefix].
  - unfold runTask. by rewrite (proj2 Hw).
  - cbn [fire]. unfold runTask. by rewrite (proj2 Hw).
  - case_match; [|done]. unfold timerFired. destruct Hw as [Hf Ht]. simpl. by rewrite Hf.
  - split; [done|]. cbn [fire fst]. case_match; [|done]. unfold timerFired. destruct Hw as [Hf Ht]. simpl.
    by rewrite Hf.
  - done.
Qed.
End Run.

(** * What a flush sends *)

Section Flush.
Context `{XXH3, LZ4} (poolCap : Z).

(** The operations of a batch that concern replica [t], in order. *)
Definition share (w : writer) (t : string) (ops : list SyncOperation) : list SyncOperation :=
  filter (fun op => so_Key op <> ""%string /\ t ∈ GetN (w_ring w) (so_Key op) (w_replicaCount w)) ops.

Definition append_to (ops : list SyncOperation) (old : option (list SyncOperation))
    : option (list SyncOperation) :=
  match ops with [] => old | _ => Some (default [] old ++ ops) end.

Lemma addToTargets_lookup nodeID targets op m t :
  NoDup targets ->
  addToTargets nodeID targets op m !! t =
  if decide (t ∈ targets /\ t <> nodeID) then Some (default [] (m !! t) ++ [op]) else m !! t.
Proof.
  unfold addToTargets. intros Hnd. revert m. induction Hnd as [|x targets Hx _ IH]; intros m; cbn [fold_left].
  - rewrite decide_False; [done|set_solver].
  - rewrite IH. destruct (decide (x = nodeID)) as [->|Hne].
    + rewrite bool_decide_eq_true_2 by done. repeat case_decide; set_solver.
    + rewrite bool_decide_eq_false_2 by done. destruct (decide (t = x)) as [->|Htx].
      * rewrite lookup_insert_eq. rewrite decide_False by tauto. rewrite decide_True; [done|set_solver].
      * rewrite lookup_insert_ne by done. repeat case_decide; set_solver.
Qed.

Definition targets_ok (w : writer) (cache : gmap string (list string)) : Prop :=
  forall k l, cache !! k = Some l -> l = GetN (w_ring w) k (w_replicaCount w).

Lemma distributeOp_spec w cache m op :
  targets_ok w cache ->
  let '(cache', m') := distributeOp w (cache, m) op in
  targets_ok w cache' /\
  forall t, m' !! t = if decide (t = w_nodeID w) then m !! t else append_to (share w t [op]) (m !! t).
Proof.
  intros Hc. unfold distributeOp, share. set (targets := GetN (w_ring w) (so_Key op) (w_replicaCount w)).
  destruct (decide (so_Key op = ""%string)) as [Hk|Hk].
  { rewrite bool_decide_eq_true_2 by done. split; [done|]. intros t. case_decide; [done|].
    rewrite filter_cons_False; [done|tauto]. }
  rewrite bool_decide_eq_false_2 by done.
  assert (Hg : forall cache', targets_ok w cache' ->
    let '(cache2, m') := match targets with
      | [] => (cache', m)
      | _ => (cache', addToTargets (w_nodeID w) targets op m)
      end in
    targets_ok w cache2 /\ forall t, m' !! t = if decide (t = w_nodeID w) then m !! t else
      append_to (filter (fun op => so_Key op <> ""%string /\
        t ∈ GetN (w_ring w) (so_Key op) (w_replicaCount w)) [op]) (m !! t)).
  { intros cache' Hc'.
    assert (Hadd : forall t, addToTargets (w_nodeID w) targets op m !! t =
      if decide (t = w_nodeID w) then m !! t else
      append_to (filter (fun op => so_Key op <> ""%string /\
        t ∈ GetN (w_ring w) (so_Key op) (w_replicaCount w)) [op]) (m !! t)).
    { intros t. rewrite addToTargets_lookup by apply GetN_NoDup. fold targets.
      destruct (decide (t = w_nodeID w)); [by rewrite decide_False by tauto|].
      destruct (decide (t ∈ targets)).
      - rewrite decide_True by done. by rewrite filter_cons_True by done.
      - rewrite decide_False by tauto. rewrite filter_cons_False; [done|tauto]. }
    destruct targets; (split; [done|]); [|exact Hadd]. intros t. by rewrite <- Hadd. }
  destruct (cache !! so_Key op) as [l|] eqn:E.
  - rewrite (Hc _ _ E). fold targets. apply Hg, Hc.
  - fold targets. specialize (Hg (match targets with [] => cache | _ => <[so_Key op := targets]> cache end)).
    apply Hg. destruct targets as [|t0 ts] eqn:Et; [done|]. rewrite <- Et.
    intros k l [[<- <-]|[_ Hl]]%lookup_insert_Some; [done|by apply Hc].
Qed.

Lemma append_to_app l1 l2 o : append_to l2 (append_to l1 o) = append_to (l1 ++ l2) o.
Proof.
  destruct l1 as [|x l1]; [done|]. destruct l2 as [|y l2]; simpl; [by rewrite app_nil_r|].
  by rewrite <- app_assoc.
Qed.

(** Every remote replica gets its share, and the node itself nothing. *)
Lemma distribute_lookup w ops t :
  distribute w ops !! t =
  if decide (t = w_nodeID w) then None else append_to (share w t ops) None.
Proof.
  unfold distribute. assert (K : forall cm, targets_ok w cm.1 ->
    (fold_left (distributeOp w) ops cm).2 !! t =
    if decide (t = w_nodeID w) then cm.2 !! t else append_to (share w t ops) (cm.2 !! t)).
  { induction ops as [|op ops IH]; intros [cache m] Hc; cbn [fold_left]; [by case_decide|].
    pose proof (distributeOp_spec w cache m op Hc) as Hd.
    destruct (distributeOp w (cache, m) op) as [cache' m']. destruct Hd as [Hc' Hm].
    rewrite (IH (cache', m') Hc'). simpl. rewrite Hm. case_decide; [done|].
    rewrite append_to_app. unfold share. by rewrite <- filter_app. }
  rewrite K; [done|]. intros k l. cbn [fst]. by rewrite lookup_empty.
Qed.

Definition alive_at (members : list NodeInfo) (addr : string) : Prop :=
  exists m, m ∈ members /\ ni_Address m = addr /\ ni_State m = NodeStateAlive.

Lemma Push_one members op ops addr x :
  x ∈ Push members (op :: ops) [addr] <->
  alive_at members addr /\ x = (addr, pushMessage (Serialize (op :: ops))).
Proof.
  unfold Push. rewrite list_elem_of_fmap. setoid_rewrite list_elem_of_filter.
  setoid_rewrite list_elem_of_singleton. setoid_rewrite existsb_exists. unfold alive_at.
  split.
  - intros (y & -> & (m & Hm & Hx) & ->). apply list_elem_of_In in Hm. to_prop. split; [|done]. by exists m.
  - intros [(m & Hm & Ha & Hs) ->]. exists addr. split; [done|]. split; [|done]. exists m.
    apply list_elem_of_In in Hm. split; [done|].
    by rewrite bool_decide_eq_true_2, Hs.
Qed.
End Flush.

(** * Properties *)

#[local] Existing Instance ToyHash.xxh3.
#[local] Existing Instance RunLength.lz4.
#[local] Existing Instance MergeSort.sort.

(** A writer on node n1 of a two-node cluster, with batches of [threshold]. *)
Definition demoWriter (threshold : Z) : writer :=
  newWriter "n1" (NewHLC "n1") demoStore demoRing (Some {["a"%string]}) threshold 2.
Definition demoMembers : list NodeInfo := [mkNode "n1" "h:1" 1 0 0 0; mkNode "n2" "h:2" 1 0 0 0].
Definition anyOrder (m : gmap string Z) : list string := (map_to_list m).*1.
Definition demoValue : StoredItem := mkItem 0 zeroTime (Some [x62]) "".

(** C23. Versions of successive writes: whatever the clock, the store, the
    ring, the executor and the other operations of the writer do in between,
    the versions that [Set] gives to one key from the start of a writer are
    strictly increasing, as long as at most 10000 writes are made (the bound
    of the version table) and no version is the largest 64-bit integer. *)
Theorem writer_versions `{XXH3, LZ4} accepts order poolCap es nodeID hlc store ring cache threshold n :
  let w := newWriter nodeID hlc store ring cache threshold n in
  let versions := all_issued accepts order poolCap es w in
  Z.of_nat (length versions) <= maxVersions -> Forall (fun iv => iv.2 < 2 ^ 63 - 1) versions ->
  StronglySorted later versions.
Proof.
  intros w versions Hn Hf. apply all_issued_sorted; [|done|done].
  intros k l. done.
Qed.

Lemma writer_versions_witness :
  StronglySorted later (all_issued (fun _ => true) anyOrder 0
    [onSet "a" demoValue 5 5; onSet "b" demoValue 4 4; onSet "a" demoValue 3 3] (demoWriter 10)).
Proof.
  refine (writer_versions (fun _ => true) anyOrder 0 _ "n1" (NewHLC "n1") demoStore demoRing
    (Some {["a"%string]}) 10 2 _ _).
  - vm_compute. discriminate.
  - apply (bool_decide_unpack _). vm_compute. exact I.
Defined.

(** The messages of a flush. *)
Lemma flush_sent `{XXH3, LZ4} poolCap members now w addr data :
  let ops := (GetSyncBuffer poolCap (w_store w) now).2 ++ keptPending w in
  (addr, data) ∈ (flush poolCap members now w).2 <->
   exists t, t <> w_nodeID w /\ share w t ops <> [] /\ nodeIDToAddr members !! t = Some addr /\
     addr <> ""%string /\ alive_at members addr /\ data = pushMessage (Serialize (share w t ops)).
Proof.
  unfold flush, flushInternal. destruct (GetSyncBuffer poolCap (w_store w) now) as [s drained].
  cbn [snd]. set (w0 := set_batchCount 0 _).
  assert (Hshare : forall t l, share w0 t l = share w t l) by done.
  destruct (drained ++ keptPending w) as [|op ops] eqn:Eops.
  { split; [by intros ?%elem_of_nil|]. intros (t & _ & Hs & _). by destruct Hs. }
  rewrite <- Eops in *. clear Eops. set (all := drained ++ keptPending w).
  cbn [snd]. rewrite list_elem_of_join. setoid_rewrite list_elem_of_fmap. split.
  - intros (l & Hin & ([t l'] & -> & Hl)). apply elem_of_map_to_list in Hl.
    rewrite distribute_lookup in Hl. case_decide as Hne; [done|]. unfold append_to in Hl.
    rewrite Hshare in Hl. destruct (share w t all) as [|o os] eqn:Es; [done|].
    injection Hl as <-. unfold pushTarget in Hin. cbn [fst snd] in Hin.
    destruct (nodeIDToAddr members !! t) as [a|] eqn:Ea; simpl in Hin.
    2:{ by apply elem_of_nil in Hin. }
    case_bool_decide; [by apply elem_of_nil in Hin|]. apply Push_one in Hin as [Hal [= -> ->]].
    exists t. rewrite Es. done.
  - intros (t & Hne & Hs & Ha & Hae & Hal & ->).
    exists (pushTarget members (t, share w t all)). split.
    + unfold pushTarget. cbn [fst snd]. rewrite Ha. destruct (share w t all) eqn:Es; [done|].
      simpl. rewrite bool_decide_eq_false_2 by done. by apply Push_one.
    + exists (t, share w t all). split; [done|]. apply elem_of_map_to_list.
      rewrite distribute_lookup, decide_False by done. rewrite Hshare.
      by destruct (share w t all).
Qed.

(** The last [n] elements of a list. *)
Definition latest {A} (n : Z) (l : list A) : list A := drop (length l - Z.to_nat n) l.

(** What a flush keeps of its queue is the newest 200 operations per unit of
    the threshold. *)
Lemma keptPending_latest w :
  0 <= 200 * w_batchThreshold w < 2 ^ 63 -> keptPending w = latest (200 * w_batchThreshold w) (w_pendingOps w).
Proof.
  intros Hb. unfold keptPending, latest, maxPendingOps.
  rewrite sint_id by (unfold is_sint; lia). set (n := length (w_pendingOps w)).
  destruct (Z.ltb_spec (w_batchThreshold w * 200) (Z.of_nat n)).
  - f_equal. lia.
  - replace (n - Z.to_nat (200 * w_batchThreshold w))%nat with 0%nat by lia. done.
Qed.


(** The write of node n1 is sent to the other replica. *)
Definition queuedWriter : writer := (run (fun _ => true) anyOrder 0 [onSet "a" demoValue 5 5] (demoWriter 10)).1.


(** A write: [Set] of a non-empty key gets a version at least the clock's
    and above the last one recorded for the key; it fails without queueing
    anything when there is no replica or memory cannot be freed (never while
    usage is under the threshold), and otherwise the store, after evictions
    if any, holds the higher of the old and the new version, one operation
    with the item is queued for each replica other than the node, and the
    read cache no longer holds the key. *)
Theorem writer_set `{XXH3, LZ4} accepts order poolCap key item now now' w :
  store_wf (w_store w) -> key <> ""%string -> versions_ok w ->
  let stamp := (stampVersion now now' w).2 in
  exists version, stamp <= version /\
    (forall l, w_lastVersions w !! key = Some l -> l < version) /\
    (w_lastVersions w !! key = None -> version = stamp) /\
    write_result poolCap w key (mkItem version (si_ExpireAt item) (si_Value item) key) OpSet
      (WriterSet accepts poolCap order key item now now' w).
Proof.
  intros Hw Hk Hv. cbv zeta. unfold WriterSet, stampVersion. destruct (Now (w_hlc w) now) as [h str].
  cbn [snd]. set (v := hlcToInt64 str now'). set (w1 := set_hlc h w).
  destruct (nextVersion_spec w1 key v Hv (hlcToInt64_range str now')) as (_ & N2 & N3).
  exists (nextVersion w1 key v). split; [done|]. split; [done|]. split.
  { intros E. unfold nextVersion. change (w_lastVersions w1) with (w_lastVersions w). by rewrite E. }
  set (w2 := set_lastVersions _ w1). set (it := mkItem _ _ _ key).
  pose proof (storeOrQueue_spec accepts poolCap key it OpSet w2 Hw Hk) as K.
  destruct (storeOrQueue accepts poolCap key it OpSet w2) as [w3 [e|]]; [exact K|].
  unfold write_result in *. cbn [fst snd] in *. eapply write_result_frame.
  - symmetry. apply triggerBatch_frame.
  - destruct K as [K1 K2 K3]. by split.
Qed.

Lemma writer_set_witness :
  exists version, write_result 0 (demoWriter 10) "a" (mkItem version zeroTime (Some [x62]) "a") OpSet
    (WriterSet (fun _ => true) 0 anyOrder "a" demoValue 5 5 (demoWriter 10)).
Proof.
  destruct (writer_set (fun _ => true) anyOrder 0 "a" demoValue 5 5 (demoWriter 10)) as (v & _ & _ & _ & K).
  - apply demoStore_wf.
  - discriminate.
  - by intros k l.
  - exists v. exact K.
Defined.

(** C22. Progress: if the executor never refuses two submissions in a row,
    then after any history of a writer either the timer is armed and no flush
    is under way, or exactly one task is in charge of the flush; and once the
    executor accepts everything, running the waiting task, the timer and the
    task it starts empties the queue. *)
Theorem writer_progress `{XXH3, LZ4} accepts order poolCap es m1 t1 m2 t2
    nodeID hlc store ring cache threshold n :
  admits accepts ->
  let w := (run accepts order poolCap es (newWriter nodeID hlc store ring cache threshold n)).1 in
  live w /\
  (open_from accepts (w_submitted w) ->
   w_pendingOps (run accepts order poolCap (drive m1 t1 m2 t2) w).1 = []).
Proof.
  intros Ha w. assert (Hl : live w) by (apply run_live; [done|by left]).
  split; [done|]. intros Ho. by apply drive_empties.
Qed.

Lemma writer_progress_witness :
  let w := (run (fun _ => true) anyOrder 0 [onSet "a" demoValue 5 5] (demoWriter 10)).1 in
  w_pendingOps w <> [] /\
  w_pendingOps (run (fun _ => true) anyOrder 0 (drive demoMembers 6 demoMembers 7) w).1 = [].
Proof.
  split; [vm_compute; discriminate|].
  apply writer_progress; [|by intros m _]. intros n. by left.
Defined.

(** A full executor queue stops replication for good: when the executor
    refuses a flush and then the retry, the writer is left with a flush
    pending that no task performs, and from then on, whatever is written and
    however often the timer fires, it sends no message and no operation
    leaves its queue. *)
Theorem writer_wedged `{XXH3, LZ4} accepts order poolCap w :
  w_tasks w = [] ->
  (accepts (w_submitted w) = false -> accepts (S (w_submitted w)) = false ->
   wedged (startFlush accepts w)) /\
  (wedged w -> forall es,
   let '(w', msgs) := run accepts order poolCap es w in
   msgs = [] /\ wedged w' /\ w_pendingOps w `prefix_of` w_pendingOps w').
Proof.
  intros Ht. split.
  - intros H1 H2. unfold wedged, startFlush, flushAsync, Do. simpl. rewrite H1. simpl. by rewrite H2.
  - intros Hw es. revert w Ht Hw. induction es as [|e es IH]; intros w Ht Hw; [done|]. cbn [run].
    destruct (wedged_fire accepts order poolCap e w Hw) as (W1 & W2 & W3).
    destruct (fire accepts order poolCap e w) as [w1 msgs]. cbn [fst snd] in *. subst msgs.
    specialize (IH w1 (proj2 W1) W1). destruct (run accepts order poolCap es w1) as [w' more].
    destruct IH as (-> & I1 & I2). split; [done|]. split; [done|]. by etrans.
Qed.

(** A full queue at the first write: the second event is a timer tick. *)
Lemma writer_wedged_witness :
  let refuse := fun n => (2 <=? n)%nat in
  let w := (run refuse anyOrder 0 [onSet "a" demoValue 5 5] (demoWriter 1)).1 in
  w_pendingOps w <> [] /\
  (run refuse anyOrder 0 [onTimer; onTask demoMembers 6; onSet "b" demoValue 7 7] w).2 = [].
Proof.
  intros refuse w. split; [vm_compute; discriminate|].
  pose proof (writer_wedged refuse anyOrder 0 w ltac:(vm_compute; reflexivity)) as [_ K].
  specialize (K ltac:(split; vm_compute; reflexivity)
    [onTimer; onTask demoMembers 6; onSet "b" demoValue 7 7]).
  destruct (run refuse anyOrder 0 _ w) as [w' msgs]. apply K.
Defined.
