(* ===== verification/Lifecycle.v ===== *)
(** Ordered start and shutdown of components
    (src/internal/utils/lifecycle/lifecycle.go).

    A component is its name; what [Start] and [Close] of a component return is
    up to the arguments [startErr] and [closeErr].  The depth-first search of
    [resolveOrder] has fuel: one more than the number of components, which the
    set of names on the stack can never exhaust. *)

From Stdlib Require Import ZArith Lia.
From Stdlib Require Import Strings.String.
From stdpp Require Import relations.
From S2P Require Import Prelude.

Inductive lifecycleErr :=
  | ErrComponentNotFound (name dep : string)
  | ErrCircularDependency (name : string)
  | ErrStartTimeout
  | errAlreadyStarted
  | errComponent (name : string) (e : string)  (** an error of the component *)
  | errFuel.

Record LifecycleManager := mkLM {
  lm_components : list string;
  lm_dependencies : gmap string (list string);
  lm_started : bool;
}.

Definition newLifecycle : LifecycleManager := mkLM [] ∅ false.

Definition Register (name : string) (deps : list string) (lm : LifecycleManager) : LifecycleManager :=
  mkLM (lm_components lm ++ [name])
    (match deps with
     | [] => lm_dependencies lm
     | _ => <[name := deps]> (lm_dependencies lm)
     end) (lm_started lm).

Definition findComponent (lm : LifecycleManager) (name : string) : option string :=
  find (fun c => bool_decide (c = name)) (lm_components lm).

Definition dependencies (lm : LifecycleManager) (name : string) : list string :=
  default [] (lm_dependencies lm !! name).

(** The variables that the recursive [visit] shares. *)
Record search := mkSearch {
  visited : gset string;
  temp : gset string;
  result : list string;
}.

Section Order.
Context (lm : LifecycleManager).

(** The loop over the dependencies of [name]. *)
Fixpoint visitDeps (visit : string -> search -> lifecycleErr + search) (name : string)
    (deps : list string) (st : search) : lifecycleErr + search :=
  match deps with
  | [] => inr st
  | dep :: deps =>
      match findComponent lm dep with
      | None => inl (ErrComponentNotFound name dep)
      | Some _ =>
          match visit dep st with
          | inl e => inl e
          | inr st => visitDeps visit name deps st
          end
      end
  end.

Fixpoint visit (fuel : nat) (name : string) (st : search) : lifecycleErr + search :=
  match fuel with
  | O => inl errFuel
  | S fuel =>
      if decide (name ∈ temp st) then inl (ErrCircularDependency name)
      else if decide (name ∈ visited st) then inr st
      else
        match visitDeps (visit fuel) name (dependencies lm name)
                (mkSearch (visited st) ({[name]} ∪ temp st) (result st)) with
        | inl e => inl e
        | inr st => inr (mkSearch ({[name]} ∪ visited st) (temp st ∖ {[name]}) (result st ++ [name]))
        end
  end.

Fixpoint visitAll (fuel : nat) (components : list string) (st : search) : lifecycleErr + search :=
  match components with
  | [] => inr st
  | comp :: components =>
      match visit fuel comp st with
      | inl e => inl e
      | inr st => visitAll fuel components st
      end
  end.

Definition resolveOrder : lifecycleErr + list string :=
  match visitAll (S (length (lm_components lm))) (lm_components lm) (mkSearch ∅ ∅ []) with
  | inl e => inl e
  | inr st => inr (result st)
  end.

(** The components are started by goroutines that may run in any order:
    [schedule] permutes the order of the spawned calls; [timedOut] is whether
    the context ends before they are done.  The result has the calls made. *)
Definition StartWithTimeout (startErr : string -> option string)
    (schedule : list string -> list string) (timedOut : bool)
    : LifecycleManager * list string * option lifecycleErr :=
  if lm_started lm then (lm, [], Some errAlreadyStarted)
  else
    match resolveOrder with
    | inl e => (lm, [], Some e)
    | inr order =>
        let calls := schedule (omap (findComponent lm) order) in
        let firstErr := head (omap (fun c => errComponent c <$> startErr c) calls) in
        if timedOut then (lm, calls, Some ErrStartTimeout)
        else match firstErr with
        | Some e => (lm, calls, Some e)
        | None => (mkLM (lm_components lm) (lm_dependencies lm) true, calls, None)
        end
    end.

(** [Close]: the calls in order and the first error. *)
Definition CloseWithTimeout (closeErr : string -> option string)
    : list string * option lifecycleErr :=
  if negb (lm_started lm) then ([], None)
  else
    match resolveOrder with
    | inl e => ([], Some e)
    | inr order =>
        let calls := omap (findComponent lm) (reverse order) in
        (calls, head (omap (fun c => errComponent c <$> closeErr c) calls))
    end.

(** * The dependency graph *)

Definition depends (a b : string) : Prop := b ∈ dependencies lm a.

Definition names : gset string := list_to_set (lm_components lm).

(** Every element comes after what it depends on. *)
Definition ordered (l : list string) : Prop :=
  forall pre n post, l = pre ++ n :: post -> forall d, depends n d -> d ∈ pre.

Lemma findComponent_names n : match findComponent lm n with
                              | Some c => c = n /\ n ∈ names
                              | None => n ∉ names
                              end.
Proof.
  unfold findComponent, names. induction (lm_components lm) as [|c l IH]; simpl; [set_solver|].
  case_bool_decide as Hc; [set_solver|]. destruct (find _ l) as [c'|]; set_solver.
Qed.

Record search_ok (st : search) : Prop := {
  sk_visited : forall n, n ∈ visited st <-> n ∈ result st;
  sk_disjoint : temp st ## visited st;
  sk_temp : temp st ⊆ names;
  sk_result : forall n, n ∈ result st -> n ∈ names;
  sk_NoDup : NoDup (result st);
  sk_ordered : ordered (result st);
}.

Lemma ordered_snoc l n : ordered l -> (forall d, depends n d -> d ∈ l) -> ordered (l ++ [n]).
Proof.
  intros Hl Hn pre m post E d Hd.
  destruct (decide (post = [])) as [->|Hne].
  - apply app_inj_tail in E as [-> ->]. by apply Hn.
  - destruct (exists_last Hne) as (post' & x & ->).
    rewrite app_comm_cons, app_assoc in E. apply app_inj_tail in E as [E _].
    by eapply Hl.
Qed.

Lemma size_names : (size names <= length (lm_components lm))%nat.
Proof.
  unfold names. induction (lm_components lm) as [|c l IH]; simpl; [done|].
  rewrite size_union_alt, size_singleton. pose proof (subseteq_size (list_to_set l ∖ {[c]}) (list_to_set l : gset string) ltac:(set_solver)).
  lia.
Qed.

(** The outcome of a part of the search from [st]: on success the stack is as
    before, what was found stays, and [goal] is found too. *)
Definition outcome (st : search) (goal : list string) (r : lifecycleErr + search) : Prop :=
  match r with
  | inr st' => search_ok st' /\ temp st' = temp st /\ result st `prefix_of` result st' /\
               (forall n, n ∈ goal -> n ∈ visited st')
  | inl (ErrCircularDependency n) => tc depends n n
  | inl (ErrComponentNotFound n d) => depends n d /\ d ∉ names
  | inl _ => False
  end.

(** The stack leads to [n]. *)
Definition leads (st : search) (n : string) : Prop := forall t, t ∈ temp st -> tc depends t n.

Lemma visited_prefix st st' :
  search_ok st -> search_ok st' -> result st `prefix_of` result st' ->
  forall n, n ∈ visited st -> n ∈ visited st'.
Proof.
  intros H1 H2 [l E] n. rewrite (sk_visited _ H1), (sk_visited _ H2), E. set_solver.
Qed.

Lemma visitDeps_spec f name deps st :
  (forall d st0, temp st0 = temp st -> depends name d -> d ∈ names -> search_ok st0 -> outcome st0 [d] (f d st0)) ->
  (forall d, d ∈ deps -> depends name d) ->
  search_ok st ->
  outcome st deps (visitDeps f name deps st).
Proof.
  revert st. induction deps as [|d deps IH]; intros st Hf Hd Hok; simpl.
  - split; [done|]. split; [done|]. split; [done|]. intros n []%elem_of_nil.
  - pose proof (findComponent_names d) as Hc. destruct (findComponent lm d) as [c|].
    2:{ split; [|done]. apply Hd. by left. }
    destruct Hc as [_ Hc]. specialize (Hf d st eq_refl (Hd d ltac:(by left)) Hc Hok) as Hd0.
    destruct (f d st) as [e|st1]; [by destruct e|].
    destruct Hd0 as (Hok1 & Ht1 & Hp1 & Hg1).
    specialize (IH st1). unfold outcome in *. destruct (visitDeps f name deps st1) as [e|st2].
    + apply IH; [|set_solver|done]. intros d0 st0 E. apply Hf. congruence.
    + destruct IH as (Hok2 & Ht2 & Hp2 & Hg2); [|set_solver|done|].
      { intros d0 st0 E. apply Hf. congruence. }
      split; [done|]. split; [congruence|]. split; [by etrans|].
      intros n [->|Hn]%elem_of_cons; [|by apply Hg2].
      eapply visited_prefix; [exact Hok1|done|done|]. apply Hg1. set_solver.
Qed.

Lemma visit_spec fuel name st :
  (size (names ∖ temp st) < fuel)%nat -> name ∈ names -> search_ok st -> leads st name ->
  outcome st [name] (visit fuel name st).
Proof.
  revert name st. induction fuel as [|fuel IH]; intros name st Hs Hn Hok Hl; [lia|]. simpl.
  case_decide as Ht; [by apply Hl|]. case_decide as Hv.
  { split; [done|]. split; [done|]. split; [done|]. set_solver. }
  set (st1 := mkSearch (visited st) ({[name]} ∪ temp st) (result st)).
  assert (Hok1 : search_ok st1).
  { destruct Hok. split; simpl; try done; set_solver. }
  assert (Hout : outcome st1 (dependencies lm name) (visitDeps (visit fuel) name (dependencies lm name) st1)).
  { apply visitDeps_spec; [|done|done]. intros d st0 Et Hd Hdn Hok0. apply IH; [|done|done|].
    - rewrite Et. cbn [temp st1]. eapply Nat.lt_le_trans; [|apply Nat.lt_succ_r, Hs].
      apply subset_size. split; [set_solver|]. intros Hsub.
      assert (name ∈ names ∖ ({[name]} ∪ temp st)) by (apply Hsub; set_solver). set_solver.
    - intros t. rewrite Et. cbn [temp st1]. intros [->%elem_of_singleton|Hin]%elem_of_union.
      + by apply tc_once.
      + eapply tc_r; [by apply Hl|done]. }
  destruct (visitDeps _ _ _ st1) as [e|st2]; [done|]. destruct Hout as (Hok2 & Ht2 & Hp2 & Hg2).
  cbn [temp result st1] in Ht2, Hp2. pose proof Hok2 as [V1 V2 V3 V4 V5 V6]. split.
  - split; cbn [visited temp result].
    + set_solver.
    + set_solver.
    + set_solver.
    + set_solver.
    + apply NoDup_app. split; [done|]. split; [|apply NoDup_singleton].
      intros x Hx ->%list_elem_of_singleton. apply V1 in Hx. set_solver.
    + apply ordered_snoc; [done|]. intros d Hd. by apply V1, Hg2.
  - cbn [visited temp result]. split; [set_solver|]. split; [by apply prefix_app_r|]. set_solver.
Qed.

Lemma visitAll_spec fuel components st :
  (size names < fuel)%nat -> temp st = ∅ -> (forall c, c ∈ components -> c ∈ names) -> search_ok st ->
  outcome st components (visitAll fuel components st).
Proof.
  intros Hs. revert st. induction components as [|c cs IH]; intros st Ht Hc Hok; simpl.
  - split; [done|]. split; [done|]. split; [done|]. intros n []%elem_of_nil.
  - assert (Hout : outcome st [c] (visit fuel c st)).
    { apply visit_spec; [|set_solver|done|intros t; rewrite Ht; set_solver].
      eapply Nat.le_lt_trans; [|exact Hs]. apply subseteq_size. set_solver. }
    destruct (visit fuel c st) as [e|st1]; [by destruct e|]. destruct Hout as (Hok1 & Ht1 & Hp1 & Hg1).
    specialize (IH st1 ltac:(congruence) ltac:(set_solver) Hok1). unfold outcome in *.
    destruct (visitAll fuel cs st1) as [e|st2]; [done|]. destruct IH as (Hok2 & Ht2 & Hp2 & Hg2).
    split; [done|]. split; [congruence|]. split; [by etrans|].
    intros n [->|Hn]%elem_of_cons; [|by apply Hg2].
    eapply visited_prefix; [exact Hok1|done|done|]. apply Hg1. set_solver.
Qed.
End Order.

Lemma ordered_earlier lm l i a b :
  ordered lm l -> l !! i = Some a -> depends lm a b -> exists j, (j < i)%nat /\ l !! j = Some b.
Proof.
  intros Ho Hi Hd. specialize (Ho (take i l) a (drop (S i) l)).
  rewrite take_drop_middle in Ho by done. specialize (Ho eq_refl b Hd).
  apply list_elem_of_lookup_1 in Ho as [j Hj]. apply lookup_take_Some in Hj as [Hj Hlt]. by exists j.
Qed.

(** What is ordered has no cycle. *)
Lemma ordered_acyclic lm l n : ordered lm l -> NoDup l -> n ∈ l -> ~ tc (depends lm) n n.
Proof.
  intros Ho Hnd Hn Hc.
  assert (K : forall a b, tc (depends lm) a b -> forall i, l !! i = Some a ->
    exists j, (j < i)%nat /\ l !! j = Some b).
  { intros a b Ht. induction Ht as [a b Hab|a b c Hab _ IH]; intros i Hi.
    - by eapply ordered_earlier.
    - destruct (ordered_earlier lm l i a b Ho Hi Hab) as (j & Hj & Eb).
      destruct (IH j Eb) as (j' & Hj' & Ec). exists j'. split; [lia|done]. }
  apply list_elem_of_lookup_1 in Hn as [i Hi]. destruct (K n n Hc i Hi) as (j & Hj & Ej).
  pose proof (NoDup_lookup l i j n Hnd Hi Ej). lia.
Qed.

Lemma omap_find lm (l : list string) : (forall n, n ∈ l -> n ∈ lm_components lm) -> omap (findComponent lm) l = l.
Proof.
  induction l as [|n l IH]; intros Hl; [done|]. cbn [omap list_omap].
  pose proof (findComponent_names lm n) as K. unfold names in K.
  destruct (findComponent lm n) as [c|]; [|set_solver]. destruct K as [-> _]. f_equal. set_solver.
Qed.

Lemma no_errors (f : string -> option string) (l : list string) :
  omap (fun c => errComponent c <$> f c) l = [] <-> forall n, n ∈ l -> f n = None.
Proof.
  induction l as [|c l IH]; [by split; [intros _ n []%elem_of_nil|]|]. cbn [omap list_omap].
  destruct (f c) as [e|] eqn:Ec; simpl.
  - split; [done|]. intros Hn. specialize (Hn c ltac:(by left)). congruence.
  - rewrite IH. split; [|set_solver]. intros Hn n [->|]%elem_of_cons; auto.
Qed.

(** * Properties *)

(** The dependency order: the search ends; it returns an order exactly of
    the registered components, each once and after everything it depends on,
    in which case none of them depends on itself through others; or it
    reports a component that does, or a dependency that is not registered.
    [Close] of a started manager calls every component once, each before what
    it depends on, and returns the first error of the calls; [Start] calls
    the same components, in no particular order. *)
Theorem lifecycle_order lm startErr closeErr schedule :
  (forall l, schedule l ≡ₚ l) ->
  match resolveOrder lm with
  | inr order =>
      NoDup order /\ (forall n, n ∈ order <-> n ∈ lm_components lm) /\ ordered lm order /\
      (forall n, n ∈ order -> ~ tc (depends lm) n n) /\
      (lm_started lm = true ->
       CloseWithTimeout lm closeErr =
       (reverse order, head (omap (fun c => errComponent c <$> closeErr c) (reverse order)))) /\
      (lm_started lm = false ->
       let '(lm', calls, err) := StartWithTimeout lm startErr schedule false in
       calls ≡ₚ order /\ (lm_started lm' = true <-> forall n, n ∈ order -> startErr n = None))
  | inl (ErrCircularDependency n) => tc (depends lm) n n
  | inl (ErrComponentNotFound n d) => depends lm n d /\ d ∉ lm_components lm
  | inl _ => False
  end.
Proof.
  intros Hsch.
  assert (Hout : outcome lm (mkSearch ∅ ∅ []) (lm_components lm)
    (visitAll lm (S (length (lm_components lm))) (lm_components lm) (mkSearch ∅ ∅ []))).
  { apply visitAll_spec; [|done|unfold names; set_solver|].
    - pose proof (size_names lm). lia.
    - split; simpl; try set_solver; [constructor|]. intros [] ? ? ?; discriminate. }
  pose proof (eq_refl (resolveOrder lm)) as E. unfold resolveOrder at 1 in E.
  destruct (visitAll _ _ _ _) as [e|st]; rewrite <- E.
  { destruct e; try done. destruct Hout as [? Hd]. split; [done|]. unfold names in Hd. set_solver. }
  destruct Hout as ([V1 V2 V3 V4 V5 V6] & _ & _ & Hg). set (order := result st) in *.
  assert (Hin : forall n, n ∈ order <-> n ∈ lm_components lm).
  { intros n. split; [intros Hn%V4; unfold names in Hn; set_solver|]. intros Hn. apply V1. by apply Hg. }
  split; [done|]. split; [done|]. split; [done|]. split; [intros n; by apply ordered_acyclic|]. split.
  - intros Hs. unfold CloseWithTimeout. rewrite Hs, <- E. simpl.
    rewrite omap_find; [done|]. intros n. rewrite elem_of_reverse. apply Hin.
  - intros Hs. unfold StartWithTimeout. rewrite Hs, <- E.
    rewrite (omap_find lm order) by (intros n; apply Hin).
    pose proof (no_errors startErr (schedule order)) as Herr.
    assert (Hsch' : forall n, n ∈ schedule order <-> n ∈ order) by (intros n; by rewrite Hsch).
    setoid_rewrite Hsch' in Herr. destruct (omap _ (schedule order)) as [|e errs]; simpl.
    + split; [apply Hsch|]. split; [by intros _; apply Herr|done].
    + split; [apply Hsch|]. rewrite Hs. split; [done|]. intros Hn%Herr. done.
Qed.

Definition demoManager : LifecycleManager :=
  Register "writer" ["store"; "ring"]%string (Register "ring" ["store"%string] (Register "store" [] newLifecycle)).

Lemma lifecycle_order_witness :
  resolveOrder demoManager = inr ["store"; "ring"; "writer"]%string /\
  ordered demoManager ["store"; "ring"; "writer"]%string.
Proof.
  assert (E : resolveOrder demoManager = inr ["store"; "ring"; "writer"]%string)
    by (vm_compute; reflexivity).
  pose proof (lifecycle_order demoManager (fun _ => None) (fun _ => None) (fun l => l) ltac:(done)) as K.
  rewrite E in K. split; [exact E|]. apply K.
Defined.
