(* ===== verification/TinyLfu.v ===== *)
(** * The admission sketch of the read cache

    internal/utils/cache/tinylfu.go: a count-min sketch with saturating
    counters and its aging, and the access recorder [TinyLFU] on top of it.
    The locks make each operation one step.  The theorem gives the exact value
    of an estimate after any sequence of increments and agings. *)

From S2P Require Import Prelude.

(** * Hashing *)

(** hash/fnv: [New64a], [Write] and [Sum64]. *)
Definition fnv64a (s : string) : Z :=
  fold_left (fun h b => uint 64 (Z.lxor h (Z_of_byte b) * 1099511628211))
    (StringToBytes s) 14695981039346656037.

Definition hash64 (h : Z) : Z :=
  let h := Z.lxor h (Z.shiftr h 33) in
  let h := uint 64 (h * 0xff51afd7ed558ccd) in
  let h := Z.lxor h (Z.shiftr h 33) in
  let h := uint 64 (h * 0xc4ceb9fe1a85ec53) in
  Z.lxor h (Z.shiftr h 33).

(** * The sketch *)

Record CountMinSketch := {
  width : Z;                   (* uint32 *)
  depth : Z;                   (* uint32 *)
  counts : list (list Z);      (* [][]uint64 *)
  seed : Z;                    (* uint32 *)
}.

Definition NewCountMinSketch (width depth : Z) : CountMinSketch :=
  {| width := width; depth := depth;
     counts := replicate (Z.to_nat depth) (replicate (Z.to_nat width) 0);
     seed := 0x12345678 |}.

(** The column of a key in row [i]; the sums wrap around. *)
Definition column (cms : CountMinSketch) (key : string) (i : Z) : Z :=
  let h1 := fnv64a key in
  let h2 := hash64 h1 in
  uint 64 (h1 + i * h2 + cms.(seed) * i) mod cms.(width).

(** [cms.counts[i][j]]; the indices the code uses are in range
    ([column_in_range]). *)
Definition count_at (cms : CountMinSketch) (i j : Z) : Z :=
  default 0 (cms.(counts) !! Z.to_nat i ≫= (.!! Z.to_nat j)).

(** The rows [for i := uint32(0); i < cms.depth; i++] visits. *)
Definition rows (cms : CountMinSketch) : list Z := seqZ 0 cms.(depth).

Definition Estimate (cms : CountMinSketch) (key : string) : Z :=
  fold_left (fun minCount i =>
    let count := count_at cms i (column cms key i) in
    if (i =? 0) || (count <? minCount) then count else minCount)
    (rows cms) 0.

Definition set_counts (f : list (list Z) -> list (list Z)) (cms : CountMinSketch) :=
  {| width := cms.(width); depth := cms.(depth);
     counts := f cms.(counts); seed := cms.(seed) |}.

(** One turn of the loop of [Increment]. *)
Definition bump (cms : CountMinSketch) (key : string) (i : Z) : CountMinSketch :=
  let j := column cms key i in
  if count_at cms i j <? 0xFFFFFFFFFFFFFFFF
  then set_counts (alter (alter Z.succ (Z.to_nat j)) (Z.to_nat i)) cms
  else cms.

Definition Increment (cms : CountMinSketch) (key : string) : CountMinSketch :=
  fold_left (fun cms i => bump cms key i) (rows cms) cms.

Definition Reset (cms : CountMinSketch) : CountMinSketch :=
  set_counts (map (map (fun c => Z.shiftr c 1))) cms.

(** * The recorder *)

Record TinyLFU := {
  tf_filter : CountMinSketch;
  hits : Z;      (* atomic.Uint64 *)
  misses : Z;    (* atomic.Uint64 *)
}.

Definition NewTinyLFU : TinyLFU :=
  {| tf_filter := NewCountMinSketch 512 4; hits := 0; misses := 0 |}.

Definition RecordAccess (tf : TinyLFU) (key : string) (hit : bool) : TinyLFU :=
  if hit
  then {| tf_filter := Increment tf.(tf_filter) key;
          hits := addu64 tf.(hits) 1; misses := tf.(misses) |}
  else {| tf_filter := tf.(tf_filter); hits := tf.(hits); misses := addu64 tf.(misses) 1 |}.

Definition TinyReset (tf : TinyLFU) : TinyLFU :=
  {| tf_filter := Reset tf.(tf_filter); hits := tf.(hits); misses := tf.(misses) |}.

Definition TinyEstimate (tf : TinyLFU) (key : string) : Z := Estimate tf.(tf_filter) key.

(** [HitRate] as the fraction that the source divides in floating point. *)
Definition HitRate (tf : TinyLFU) : Z * Z :=
  let total := addu64 tf.(hits) tf.(misses) in
  if total =? 0 then (0, 1) else (tf.(hits), total).

(** * The shape of the counters *)

Record sketch_ok (cms : CountMinSketch) : Prop := {
  ok_width : 0 < cms.(width);
  ok_rows : length cms.(counts) = Z.to_nat cms.(depth);
  ok_cols r : r ∈ cms.(counts) -> length r = Z.to_nat cms.(width);
}.

Lemma NewCountMinSketch_ok w d : 0 < w -> sketch_ok (NewCountMinSketch w d).
Proof.
  intros. split; simpl; [done|by rewrite length_replicate|].
  intros r [-> _]%elem_of_replicate. by rewrite length_replicate.
Qed.

Lemma column_range cms key i :
  0 < cms.(width) -> 0 <= column cms key i < cms.(width).
Proof. intros. by apply Z.mod_pos_bound. Qed.

(** Every index the code computes is in range. *)
Lemma column_in_range cms key i :
  sketch_ok cms -> 0 <= i < cms.(depth) ->
  is_Some (cms.(counts) !! Z.to_nat i ≫= (.!! Z.to_nat (column cms key i))).
Proof.
  intros Hok Hi. pose proof (column_range cms key i (ok_width _ Hok)).
  destruct (lookup_lt_is_Some_2 cms.(counts) (Z.to_nat i)) as [r Hr].
  { rewrite (ok_rows _ Hok). lia. }
  rewrite Hr. simpl. apply lookup_lt_is_Some_2.
  rewrite (ok_cols _ Hok r) by (by eapply list_elem_of_lookup_2). lia.
Qed.

Lemma set_counts_ok f cms :
  (forall c, length (f c) = length c) ->
  (forall c r, r ∈ f c -> exists r', r' ∈ c /\ length r = length r') ->
  sketch_ok cms -> sketch_ok (set_counts f cms).
Proof.
  intros Hf Hr [Hw Hd Hc]. split; simpl; [done|by rewrite Hf|].
  intros r (r' & Hin & ->)%Hr. auto.
Qed.

Lemma bump_ok cms key i : sketch_ok cms -> sketch_ok (bump cms key i).
Proof.
  unfold bump. case_match; [|done]. apply set_counts_ok.
  - intros c. apply length_alter.
  - intros c r (n & Hn)%list_elem_of_lookup.
    destruct (decide (Z.to_nat i = n)) as [<-|Hne].
    + rewrite list_lookup_alter_eq in Hn. apply fmap_Some in Hn as (r' & Hr & ->).
      exists r'. split; [by eapply list_elem_of_lookup_2|apply length_alter].
    + rewrite list_lookup_alter_ne in Hn by done.
      exists r. split; [by eapply list_elem_of_lookup_2|done].
Qed.

Lemma Reset_ok cms : sketch_ok cms -> sketch_ok (Reset cms).
Proof.
  apply set_counts_ok.
  - intros c. apply length_map.
  - intros c r (r' & -> & Hr)%list_elem_of_fmap. exists r'. split; [done|apply length_map].
Qed.

(** * What a counter holds *)

(** A saturating increment. *)
Definition saturate (c : Z) : Z := if c <? 0xFFFFFFFFFFFFFFFF then Z.succ c else c.

Lemma saturate_mono a b : a <= b -> saturate a <= saturate b.
Proof. intros. unfold saturate. arith_cases. Qed.

Lemma bump_params cms key i :
  (bump cms key i).(width) = cms.(width) /\ (bump cms key i).(depth) = cms.(depth) /\
  (forall k r, column (bump cms key i) k r = column cms k r).
Proof. unfold bump. case_match; done. Qed.

Lemma count_at_bump cms key i i' j :
  sketch_ok cms -> 0 <= i < cms.(depth) -> 0 <= i' -> 0 <= j ->
  count_at (bump cms key i) i' j =
  if decide (i' = i /\ j = column cms key i) then saturate (count_at cms i' j)
  else count_at cms i' j.
Proof.
  intros Hok Hi Hi' Hj. unfold bump.
  pose proof (column_range cms key i (ok_width _ Hok)) as Hc.
  destruct (column_in_range cms key i Hok Hi) as [c Hcell].
  case_decide as Hd.
  - destruct Hd as [-> ->]. unfold saturate. case_match eqn:E; [|done].
    unfold count_at, set_counts in *. simpl. rewrite list_lookup_alter_eq.
    destruct (counts cms !! Z.to_nat i) as [r|]; simpl in *; [|done].
    rewrite list_lookup_alter_eq, Hcell. done.
  - case_match; [|done]. unfold count_at, set_counts. simpl.
    destruct (decide (i' = i)) as [->|Hne].
    + rewrite list_lookup_alter_eq.
      destruct (counts cms !! Z.to_nat i) as [r|]; simpl; [|done].
      rewrite list_lookup_alter_ne; [done|]. intros ?. apply Hd. split; lia.
    + rewrite list_lookup_alter_ne; [done|lia].
Qed.

(** The loop of [Increment] over any set of rows. *)
Lemma bump_rows l cms key :
  NoDup l -> (forall i, i ∈ l -> 0 <= i < cms.(depth)) -> sketch_ok cms ->
  let cms' := fold_left (fun cms i => bump cms key i) l cms in
  sketch_ok cms' /\ cms'.(width) = cms.(width) /\ cms'.(depth) = cms.(depth) /\
  (forall k r, column cms' k r = column cms k r) /\
  forall i j, 0 <= i -> 0 <= j ->
  count_at cms' i j =
  if decide (i ∈ l /\ j = column cms key i) then saturate (count_at cms i j)
  else count_at cms i j.
Proof.
  revert cms. induction l as [|x l IH]; intros cms Hnd Hl Hok; cbn zeta; cbn [fold_left].
  { do 4 (split; [done|]). intros. rewrite decide_False; [done|set_solver]. }
  apply NoDup_cons in Hnd as [Hx Hnd].
  destruct (bump_params cms key x) as (Hw & Hd & Hc).
  destruct (IH (bump cms key x)) as (Hok' & Hw' & Hd' & Hc' & Hcnt);
    [done|intros; rewrite Hd; apply Hl; set_solver|by apply bump_ok|].
  rewrite Hw', Hd', Hw, Hd. do 3 (split; [done|]).
  split; [intros; by rewrite Hc'|].
  intros i j Hi Hj. rewrite Hcnt, count_at_bump, Hc by (done || apply Hl; set_solver).
  destruct (decide (i = x)) as [->|Hne].
  - rewrite decide_False by naive_solver.
    apply decide_ext. set_solver.
  - rewrite (decide_False (P := i = x /\ _)) by naive_solver.
    apply decide_ext. set_solver.
Qed.

Lemma Increment_counts cms key :
  sketch_ok cms ->
  let cms' := Increment cms key in
  sketch_ok cms' /\ cms'.(width) = cms.(width) /\ cms'.(depth) = cms.(depth) /\
  (forall k r, column cms' k r = column cms k r) /\
  forall i j, 0 <= i < cms.(depth) -> 0 <= j ->
  count_at cms' i j =
  if j =? column cms key i then saturate (count_at cms i j) else count_at cms i j.
Proof.
  intros Hok. unfold Increment, rows.
  destruct (bump_rows (seqZ 0 cms.(depth)) cms key) as (? & ? & ? & ? & Hcnt);
    [apply NoDup_seqZ|intros i ?%elem_of_seqZ; lia|done|].
  do 4 (split; [done|]). intros i j Hi Hj. rewrite Hcnt by lia.
  destruct (Z.eqb_spec j (column cms key i)) as [->|].
  - rewrite decide_True; [done|]. rewrite elem_of_seqZ. split; [lia|done].
  - rewrite decide_False; [done|naive_solver].
Qed.

Lemma Reset_counts cms i j : count_at (Reset cms) i j = count_at cms i j / 2.
Proof.
  unfold count_at, Reset. simpl. rewrite list_lookup_fmap.
  destruct (counts cms !! Z.to_nat i) as [r|]; simpl; [|done].
  rewrite list_lookup_fmap. destruct (r !! Z.to_nat j); simpl; [|done].
  by rewrite Z.shiftr_div_pow2.
Qed.

(** * Estimates are minima *)

Lemma fold_min (f : Z -> Z) l acc :
  let r := fold_left (fun m i => if (i =? 0) || (f i <? m) then f i else m) l acc in
  (forall i, i ∈ l -> 0 < i) ->
  r <= acc /\ (forall i, i ∈ l -> r <= f i) /\ (r = acc \/ exists i, i ∈ l /\ r = f i).
Proof.
  revert acc. induction l as [|x l IH]; intros acc r Hl; [set_solver by lia|].
  subst r. simpl. assert (0 < x) by (apply Hl; set_solver).
  destruct (IH (if (x =? 0) || (f x <? acc) then f x else acc)) as (H1 & H2 & H3);
    [set_solver|].
  replace (x =? 0) with false in * by (symmetry; apply Z.eqb_neq; lia). simpl in *.
  destruct (Z.ltb_spec (f x) acc).
  - split; [lia|]. split.
    + intros i [->|Hi]%elem_of_cons; [done|auto].
    + right. destruct H3 as [H3|(i & Hi & H3)]; [exists x|exists i]; set_solver.
  - split; [done|]. split.
    + intros i [->|Hi]%elem_of_cons; [lia|auto].
    + destruct H3 as [H3|(i & Hi & H3)]; [by left|right; exists i; set_solver].
Qed.

Lemma Estimate_min cms key :
  0 < cms.(depth) ->
  (forall i, 0 <= i < cms.(depth) ->
     Estimate cms key <= count_at cms i (column cms key i)) /\
  exists i, 0 <= i < cms.(depth) /\
     Estimate cms key = count_at cms i (column cms key i).
Proof.
  intros Hd. unfold Estimate, rows. rewrite seqZ_cons by lia. simpl.
  set (f := fun i => count_at cms i (column cms key i)).
  change (count_at cms 0 (column cms key 0)) with (f 0).
  destruct (fold_min f (seqZ 1 (Z.pred (depth cms))) (f 0)) as (H1 & H2 & H3).
  { intros i ?%elem_of_seqZ. lia. }
  unfold f in *. split.
  - intros i Hi. destruct (decide (i = 0)) as [->|]; [done|].
    apply H2, elem_of_seqZ. lia.
  - destruct H3 as [H3|(i & ?%elem_of_seqZ & H3)]; [exists 0|exists i]; split; done || lia.
Qed.

(** * Histories *)

Inductive sketch_op := OpIncrement (key : string) | OpReset.

Definition sketch_step (cms : CountMinSketch) (o : sketch_op) : CountMinSketch :=
  match o with OpIncrement k => Increment cms k | OpReset => Reset cms end.

(** The number of increments of the keys that [f] selects, saturated, and
    halved at each aging. *)
Definition aged (f : string -> bool) (ops : list sketch_op) : Z :=
  fold_left (fun c o =>
    match o with
    | OpIncrement k => if f k then saturate c else c
    | OpReset => c / 2
    end) ops 0.

Lemma aged_snoc f ops o :
  aged f (ops ++ [o]) =
  match o with
  | OpIncrement k => if f k then saturate (aged f ops) else aged f ops
  | OpReset => aged f ops / 2
  end.
Proof. unfold aged. by rewrite fold_left_app. Qed.

Lemma saturate_incr c : c <= saturate c.
Proof. unfold saturate. arith_cases. Qed.

Lemma aged_mono (f g : string -> bool) ops :
  (forall k, f k = true -> g k = true) -> aged f ops <= aged g ops.
Proof.
  intros Hfg. induction ops as [|o ops IH] using rev_ind; [done|].
  rewrite !aged_snoc. destruct o as [k|].
  - destruct (f k) eqn:E; [rewrite (Hfg k E); by apply saturate_mono|].
    destruct (g k); [|done]. pose proof (saturate_incr (aged g ops)). lia.
  - apply Z.div_le_mono; lia.
Qed.

(** Keys that share the column of [key] in row [i]. *)
Definition collides (cms : CountMinSketch) (key : string) (i : Z) (k : string) : bool :=
  column cms key i =? column cms k i.

(** Every counter is the aged number of increments that hit it. *)
Lemma sketch_counts w d ops :
  0 < w ->
  let new := NewCountMinSketch w d in
  let cms := fold_left sketch_step ops new in
  sketch_ok cms /\ cms.(depth) = d /\ (forall k r, column cms k r = column new k r) /\
  forall i j, 0 <= i < d -> 0 <= j < w ->
  count_at cms i j = aged (fun k => j =? column new k i) ops.
Proof.
  intros Hw new. induction ops as [|o ops IH] using rev_ind; simpl.
  { split; [by apply NewCountMinSketch_ok|]. do 2 (split; [done|]). intros i j Hi Hj.
    unfold count_at. simpl. rewrite lookup_replicate_2 by lia. simpl.
    by rewrite lookup_replicate_2 by lia. }
  rewrite fold_left_app. simpl. destruct IH as (Hok & Hd & Hc & Hcnt).
  destruct o as [k|]; simpl.
  - destruct (Increment_counts _ k Hok) as (? & _ & Hd' & Hc' & Hcnt').
    split; [done|]. split; [congruence|]. split; [intros; by rewrite Hc'|].
    intros i j Hi Hj. rewrite Hcnt', Hc, Hcnt, aged_snoc by lia. done.
  - split; [by apply Reset_ok|]. do 2 (split; [done|]). intros i j Hi Hj.
    by rewrite Reset_counts, Hcnt, aged_snoc by done.
Qed.

(** After any sequence of increments and agings of a new sketch, the
    estimate of a key is the least of its counters, each of which is exactly
    the aged number of increments of the keys that share its column.  So an
    estimate never falls below the aged number of accesses of the key, and it
    is that number when some row has no other key in its column. *)
Theorem sketch_estimate w d ops key :
  0 < w -> 0 < d ->
  let new := NewCountMinSketch w d in
  let est := Estimate (fold_left sketch_step ops new) key in
  (forall i, 0 <= i < d -> est <= aged (collides new key i) ops) /\
  (exists i, 0 <= i < d /\ est = aged (collides new key i) ops) /\
  aged (String.eqb key) ops <= est /\
  (forall i, 0 <= i < d ->
     (forall k, OpIncrement k ∈ ops -> k <> key -> collides new key i k = false) ->
     est = aged (String.eqb key) ops).
Proof.
  intros Hw Hd new est.
  destruct (sketch_counts w d ops Hw) as (_ & Hdep & Hc & Hcnt).
  fold new in Hdep, Hc, Hcnt. set (cms := fold_left sketch_step ops new) in *.
  assert (Hcell : forall i, 0 <= i < d ->
    count_at cms i (column cms key i) = aged (collides new key i) ops).
  { intros i Hi. rewrite Hc, Hcnt; [done|done|]. by apply column_range. }
  destruct (Estimate_min cms key) as [Hmin (i0 & Hi0 & Heq)]; [lia|].
  rewrite Hdep in Hmin, Hi0.
  assert (Hlow : aged (String.eqb key) ops <= est).
  { unfold est. rewrite Heq, Hcell by done. apply aged_mono.
    intros k <-%String.eqb_eq. apply Z.eqb_refl. }
  split; [intros i Hi; rewrite <- Hcell by done; by apply Hmin|].
  split; [exists i0; split; [done|by rewrite <- Hcell]|].
  split; [done|]. intros i Hi Hno. apply Z.le_antisymm; [|done].
  transitivity (aged (collides new key i) ops).
  { rewrite <- Hcell by done. by apply Hmin. }
  clear -Hno. revert Hno. induction ops as [|o ops IH] using rev_ind; intros Hno; [done|].
  rewrite !aged_snoc.
  assert (IH' : aged (collides new key i) ops <= aged (String.eqb key) ops)
    by (apply IH; set_solver).
  destruct o as [k|]; [|apply Z.div_le_mono; lia].
  destruct (String.eqb_spec key k) as [->|Hne].
  - unfold collides at 1. rewrite Z.eqb_refl. by apply saturate_mono.
  - rewrite Hno by set_solver. done.
Qed.

Lemma sketch_estimate_witness :
  let ops := [OpIncrement "hot"; OpIncrement "cold"; OpIncrement "hot"; OpReset;
              OpIncrement "hot"] in
  aged (String.eqb "hot") ops = 2 /\
  aged (String.eqb "hot") ops
    <= Estimate (fold_left sketch_step ops (NewCountMinSketch 512 4)) "hot".
Proof.
  split; [reflexivity|].
  apply (sketch_estimate 512 4 _ "hot" eq_refl eq_refl).
Defined.
