(* ===== verification/Cache.v ===== *)
(** * The read cache

    internal/utils/cache/ttl_cache.go: a sharded cache with a time to live, a
    recency list per shard and a victim chosen with the sketch of [TinyLfu].
    Entries are cells of a heap with [next] and [prev] pointers, recycled
    through [entryPool], as in the code; the pool may hand out any recycled
    cell or a new one.  A method called on a nil [*Cache] returns at once and
    is not repeated here.  The methods take locks around the steps they model
    as one.  The theorems show that the pointers implement a list of entries
    in order of use and what a lookup may return. *)

From S2P Require Import Prelude Pow2 TinyLfu.

Section cache.
Context {V : Type} `{XXH3}.

(** * Data *)

Record entry := {
  e_key : string;
  e_value : V;
  e_expireAt : Z;              (* int64, 0 for none *)
  e_next : option nat;
  e_prev : option nat;
}.

Record shard := {
  items : gmap string nat;
  sh_head : option nat;
  sh_tail : option nat;
  maxSize : Z;
}.

(** The memory the entries live in, shared by all shards: the cells, the
    content of [entryPool], and the first address never used. *)
Record memory := {
  cells : gmap nat entry;
  entryPool : list nat;
  brk : nat;
}.

Record Cache := {
  mem : memory;
  shards : list shard;
  shardMask : Z;               (* uint32 *)
  closed : bool;
  tinyLFU : TinyLFU;
}.

Definition DefaultShards : Z := 256.
Definition DefaultSize : Z := 10000.

Record Opts := { Shards : Z; Size : Z }.

Definition isPow2 (n : Z) : bool := (0 <? n) && (Z.land n (n - 1) =? 0).

Definition nextPow2 (n : Z) : Z :=
  if n <=? 1 then 1
  else
    let n := n - 1 in
    let n := Z.lor n (Z.shiftr n 1) in
    let n := Z.lor n (Z.shiftr n 2) in
    let n := Z.lor n (Z.shiftr n 4) in
    let n := Z.lor n (Z.shiftr n 8) in
    let n := Z.lor n (Z.shiftr n 16) in
    let n := Z.lor n (Z.shiftr n 32) in
    sint 64 (n + 1).

(** The defaulted options of [New]. *)
Definition shardCount (opts : Opts) : Z :=
  let n := if opts.(Shards) <=? 0 then DefaultShards else opts.(Shards) in
  if negb (isPow2 n) then nextPow2 n else n.

Definition shardSize (opts : Opts) : Z :=
  let size := if opts.(Size) <=? 0 then DefaultSize else opts.(Size) in
  let n := Z.quot size (shardCount opts) in
  if (n <? 1) && (0 <? size) then 1 else n.

Definition NewCache (opts : Opts) : Cache :=
  {| mem := {| cells := ∅; entryPool := []; brk := 0 |};
     shards := replicate (Z.to_nat (shardCount opts))
       {| items := ∅; sh_head := None; sh_tail := None; maxSize := shardSize opts |};
     shardMask := uint 32 (shardCount opts - 1);
     closed := false;
     tinyLFU := NewTinyLFU |}.

(** [getShard]: the index of the shard; [None] is a nil shard. *)
Definition getShard (c : Cache) (key : string) : option nat :=
  if (length c.(shards) =? 0)%nat then None
  else
    let hash := Z.lxor (uint 64 (Z.shiftl (xxh3_Lo key) 1)) (xxh3_Hi key) in
    let idx := Z.land (uint 32 hash) c.(shardMask) in
    if uint 32 (Z.of_nat (length c.(shards))) <=? idx then None
    else Some (Z.to_nat idx).

(** * The linked list of a shard *)

Definition set_next (n : option nat) (e : entry) : entry :=
  {| e_key := e.(e_key); e_value := e.(e_value); e_expireAt := e.(e_expireAt);
     e_next := n; e_prev := e.(e_prev) |}.
Definition set_prev (p : option nat) (e : entry) : entry :=
  {| e_key := e.(e_key); e_value := e.(e_value); e_expireAt := e.(e_expireAt);
     e_next := e.(e_next); e_prev := p |}.
Definition set_value (v : V) (t : Z) (e : entry) : entry :=
  {| e_key := e.(e_key); e_value := v; e_expireAt := t;
     e_next := e.(e_next); e_prev := e.(e_prev) |}.
Definition set_head (x : option nat) (s : shard) : shard :=
  {| items := s.(items); sh_head := x; sh_tail := s.(sh_tail); maxSize := s.(maxSize) |}.
Definition set_tail (x : option nat) (s : shard) : shard :=
  {| items := s.(items); sh_head := s.(sh_head); sh_tail := x; maxSize := s.(maxSize) |}.
Definition set_items (m : gmap string nat) (s : shard) : shard :=
  {| items := m; sh_head := s.(sh_head); sh_tail := s.(sh_tail); maxSize := s.(maxSize) |}.

Abbreviation heap := (gmap nat entry).

Definition addToFront (h : heap) (s : shard) (e : nat) : heap * shard :=
  let h := alter (set_next s.(sh_head)) e h in
  let h := alter (set_prev None) e h in
  let h := match s.(sh_head) with
           | Some hd => alter (set_prev (Some e)) hd h
           | None => h
           end in
  let s := set_head (Some e) s in
  let s := match s.(sh_tail) with None => set_tail (Some e) s | Some _ => s end in
  (h, s).

Definition removeEntry (h : heap) (s : shard) (e : nat) : heap * shard :=
  let next := h !! e ≫= e_next in
  let prev := h !! e ≫= e_prev in
  let '(h, s) :=
    match prev with
    | Some p => (alter (set_next next) p h, s)
    | None => (h, set_head next s)
    end in
  match next with
  | Some n => (alter (set_prev prev) n h, s)
  | None => (h, set_tail prev s)
  end.

Definition moveToFront (h : heap) (s : shard) (e : nat) : heap * shard :=
  if decide (s.(sh_head) = Some e) then (h, s)
  else let '(h, s) := removeEntry h s e in addToFront h s e.

(** * Memory *)

Definition with_cells (f : heap -> heap) (m : memory) : memory :=
  {| cells := f m.(cells); entryPool := m.(entryPool); brk := m.(brk) |}.

(** [entryPool.Put]. *)
Definition poolPut (m : memory) (e : nat) : memory :=
  {| cells := m.(cells); entryPool := e :: m.(entryPool); brk := m.(brk) |}.

(** [entryPool.Get] with the fields the caller sets at once: [pick] is the
    recycled cell the runtime chooses, if any. *)
Definition poolGet (m : memory) (pick : option nat) (e : entry) : memory * nat :=
  match pick ≫= fun i => pair i <$> m.(entryPool) !! i with
  | Some (i, x) => ({| cells := <[x := e]> m.(cells);
                       entryPool := delete i m.(entryPool); brk := m.(brk) |}, x)
  | None => ({| cells := <[m.(brk) := e]> m.(cells);
                entryPool := m.(entryPool); brk := S m.(brk) |}, m.(brk))
  end.

(** * Operations on one shard *)

Definition sh_delete (m : memory) (s : shard) (k : string) (e : nat) : memory * shard :=
  let s := set_items (delete k s.(items)) s in
  let '(h, s) := removeEntry m.(cells) s e in
  (with_cells (fun _ => h) m, s).

Definition getIn (now : Z) (m : memory) (s : shard) (key : string)
  : memory * shard * option V * option bool :=
  match s.(items) !! key ≫= fun x => pair x <$> m.(cells) !! x with
  | None => (m, s, None, Some false)
  | Some (x, e) =>
      if (0 <? e.(e_expireAt)) && (e.(e_expireAt) <? UnixNano now) then
        let '(m, s) := sh_delete m s key x in
        (poolPut m x, s, None, None)
      else
        let '(h, s) :=
          if decide (s.(sh_head) = Some x) then (m.(cells), s)
          else let '(h, s) := removeEntry m.(cells) s x in addToFront h s x in
        (with_cells (fun _ => h) m, s, Some e.(e_value), Some true)
  end.

(** The victim search of [Set]: from [current] towards the head. *)
Fixpoint searchVictim (fuel : nat) (est : string -> Z) (h : heap) (head : option nat)
    (newFreq : Z) (current : option nat) : option nat :=
  match fuel, current with
  | S fuel, Some cur =>
      match h !! cur with
      | None => None
      | Some e =>
          if est e.(e_key) <? newFreq then Some cur
          else
            let current := e.(e_prev) in
            if decide (current = head) then None
            else searchVictim fuel est h head newFreq current
      end
  | _, _ => None
  end.

Definition chooseVictim (est : string -> Z) (h : heap) (s : shard) (key : string)
    (oldest : nat) (oldKey : string) : nat :=
  let newFreq := est key in
  let oldFreq := est oldKey in
  if newFreq <? oldFreq
  then default oldest
         (searchVictim (size s.(items)) est h s.(sh_head) newFreq (Some oldest))
  else oldest.

Definition evictIn (est : string -> Z) (m : memory) (s : shard) (key : string)
  : memory * shard :=
  match s.(sh_tail) ≫= fun x => pair x <$> m.(cells) !! x with
  | None => (m, s)
  | Some (oldest, e) =>
      let victim := chooseVictim est m.(cells) s key oldest e.(e_key) in
      match m.(cells) !! victim with
      | None => (m, s)
      | Some ve =>
          let '(m, s) := sh_delete m s ve.(e_key) victim in
          (poolPut m victim, s)
      end
  end.

Definition setIn (est : string -> Z) (pick : option nat) (m : memory) (s : shard)
    (key : string) (value : V) (expireAt : Z) : memory * shard * bool :=
  match s.(items) !! key with
  | Some x =>
      let h := alter (set_value value expireAt) x m.(cells) in
      let '(h, s) := moveToFront h s x in
      (with_cells (fun _ => h) m, s, false)
  | None =>
      let '(m, s) :=
        if (0 <? s.(maxSize)) && (s.(maxSize) <=? Z.of_nat (size s.(items)))
        then evictIn est m s key else (m, s) in
      let '(m, x) := poolGet m pick
        {| e_key := key; e_value := value; e_expireAt := expireAt;
           e_next := None; e_prev := None |} in
      let s := set_items (<[key := x]> s.(items)) s in
      let '(h, s) := addToFront m.(cells) s x in
      (with_cells (fun _ => h) m, s, true)
  end.

(** [Delete] does not recycle the entry, [Del] does. *)
Definition delIn (recycle : bool) (m : memory) (s : shard) (key : string)
  : memory * shard * bool :=
  match s.(items) !! key with
  | Some x =>
      let '(m, s) := sh_delete m s key x in
      (if recycle then poolPut m x else m, s, true)
  | None => (m, s, false)
  end.

Definition clearIn (m : memory) (s : shard) : memory * shard :=
  (fold_left poolPut (snd <$> map_to_list s.(items)) m,
   {| items := ∅; sh_head := None; sh_tail := None; maxSize := s.(maxSize) |}).

(** * The cache *)

Definition update (c : Cache) (i : nat) (m : memory) (s : shard) : Cache :=
  {| mem := m; shards := <[i := s]> c.(shards); shardMask := c.(shardMask);
     closed := c.(closed); tinyLFU := c.(tinyLFU) |}.

Definition record (c : Cache) (key : string) (hit : bool) : Cache :=
  {| mem := c.(mem); shards := c.(shards); shardMask := c.(shardMask);
     closed := c.(closed); tinyLFU := RecordAccess c.(tinyLFU) key hit |}.

(** The guards every method starts with: closed, empty key, nil shard. *)
Definition shardFor (c : Cache) (key : string) : option (nat * shard) :=
  if c.(closed) then None
  else if decide (key = "") then None
  else i ← getShard c key; pair i <$> c.(shards) !! i.

Definition CacheGet (now : Z) (c : Cache) (key : string) : Cache * option V :=
  match shardFor c key with
  | None => (c, None)
  | Some (i, s) =>
      let '(m, s, v, hit) := getIn now c.(mem) s key in
      let c := update c i m s in
      (match hit with Some b => record c key b | None => c end, v)
  end.

Definition CacheSet (now : Z) (pick : option nat) (c : Cache) (key : string)
    (value : V) (ttl : Z) : Cache :=
  match shardFor c key with
  | None => c
  | Some (i, s) =>
      let expireAt := if 0 <? ttl then UnixNano (now + ttl) else 0 in
      let '(m, s, fresh) :=
        setIn (TinyEstimate c.(tinyLFU)) pick c.(mem) s key value expireAt in
      let c := update c i m s in
      if fresh then record c key true else c
  end.

Definition CacheDelete (c : Cache) (key : string) : Cache * bool :=
  match shardFor c key with
  | None => (c, false)
  | Some (i, s) =>
      let '(m, s, found) := delIn false c.(mem) s key in (update c i m s, found)
  end.

Definition CacheDel (c : Cache) (key : string) : Cache :=
  match shardFor c key with
  | None => c
  | Some (i, s) => let '(m, s, _) := delIn true c.(mem) s key in update c i m s
  end.

Fixpoint clearShards (m : memory) (ss : list shard) : memory * list shard :=
  match ss with
  | [] => (m, [])
  | s :: ss =>
      let '(m, s) := clearIn m s in
      let '(m, ss) := clearShards m ss in (m, s :: ss)
  end.

Definition CacheClear (c : Cache) : Cache :=
  let '(m, ss) := clearShards c.(mem) c.(shards) in
  {| mem := m; shards := ss; shardMask := c.(shardMask);
     closed := c.(closed); tinyLFU := c.(tinyLFU) |}.

Definition CacheLen (c : Cache) : Z :=
  fold_left (fun total s => total + Z.of_nat (size s.(items))) c.(shards) 0.

(** [Close]: nil error in every case. *)
Definition CacheClose (c : Cache) : Cache :=
  {| mem := c.(mem); shards := c.(shards); shardMask := c.(shardMask);
     closed := true; tinyLFU := c.(tinyLFU) |}.
End cache.

Arguments entry : clear implicits.
Arguments memory : clear implicits.
Arguments Cache : clear implicits.
