(* ===== verification/CacheProps.v ===== *)
(** * The read cache refines a list in order of use

    The doubly linked list of a shard of [Cache] represents the list of its
    cells; together with the key map it implements a list of items, most
    recently used first, on which the operations of the cache are short
    functions.  The section [lists] is about one shard and the memory it
    shares with the others, the rest about the whole cache. *)

From S2P Require Import Prelude Pow2 TinyLfu Cache.

Section lists.
Context {V : Type}.
Implicit Types (h : gmap nat (entry V)) (l : list nat) (m : memory V) (s : shard).

(** * Linked segments *)

Definition hd_or l (n : option nat) : option nat :=
  match l with [] => n | x :: _ => Some x end.

Fixpoint last_or (p : option nat) l : option nat :=
  match l with [] => p | x :: l => last_or (Some x) l end.

(** [l] is a segment whose first cell points back to [p] and whose last cell
    points forward to [n]. *)
Fixpoint dll h (p : option nat) l (n : option nat) : Prop :=
  match l with
  | [] => True
  | x :: l =>
      (exists e, h !! x = Some e /\ e.(e_prev) = p /\ e.(e_next) = hd_or l n) /\
      dll h (Some x) l n
  end.

Lemma hd_or_app l1 l2 n : hd_or (l1 ++ l2) n = hd_or l1 (hd_or l2 n).
Proof. by destruct l1. Qed.

Lemma last_or_app p l1 l2 : last_or p (l1 ++ l2) = last_or (last_or p l1) l2.
Proof. revert p. induction l1; simpl; auto. Qed.

Lemma last_or_last l : last_or None l = last l.
Proof.
  induction l as [|x l _] using rev_ind; [done|]. by rewrite last_or_app, last_snoc.
Qed.

Lemma dll_app h p l1 l2 n :
  dll h p (l1 ++ l2) n <-> dll h p l1 (hd_or l2 n) /\ dll h (last_or p l1) l2 n.
Proof.
  revert p. induction l1 as [|x l1 IH]; intros p; simpl; [tauto|].
  rewrite IH, hd_or_app. tauto.
Qed.

Lemma dll_frame h h' p l n :
  (forall x, x ∈ l -> h' !! x = h !! x) -> dll h p l n -> dll h' p l n.
Proof.
  revert p. induction l as [|x l IH]; intros p Hf; simpl; [done|].
  rewrite (Hf x) by set_solver. intros [? ?]. split; [done|]. apply IH; set_solver.
Qed.

(** Changing the pointers at the two ends of a segment. *)
Definition relink_next h (p : option nat) (n : option nat) :=
  match p with Some y => alter (set_next n) y h | None => h end.
Definition relink_prev h (n : option nat) (p : option nat) :=
  match n with Some y => alter (set_prev p) y h | None => h end.

Lemma dll_relink_next h l n n' :
  NoDup l -> dll h None l n -> dll (relink_next h (last_or None l) n') None l n'.
Proof.
  intros Hnd Hl. destruct l as [|y l _] using rev_ind; [done|].
  apply NoDup_app in Hnd as (_ & Hy & _).
  rewrite last_or_app. simpl. apply dll_app in Hl as [Hl [(e & He & Hp & _) _]].
  apply dll_app. split.
  - eapply dll_frame; [|exact Hl]. intros z Hz. rewrite lookup_alter_ne; [done|].
    intros ->. apply (Hy z Hz). set_solver.
  - simpl. split; [|done]. exists (set_next n' e). by rewrite lookup_alter_eq, He.
Qed.

Lemma dll_relink_prev h l p p' :
  NoDup l -> dll h p l None -> dll (relink_prev h (hd_or l None) p') p' l None.
Proof.
  intros Hnd Hl. destruct l as [|y l]; [done|]. simpl in *.
  apply NoDup_cons in Hnd as [Hy _]. destruct Hl as [(e & He & _ & Hn) Hl]. split.
  - exists (set_prev p' e). by rewrite lookup_alter_eq, He.
  - eapply dll_frame; [|exact Hl]. intros z Hz. apply lookup_alter_ne.
    intros ->. done.
Qed.

(** * What pointer updates keep *)

Definition data (e : entry V) : string * V * Z := (e.(e_key), e.(e_value), e.(e_expireAt)).
Definition data_at h (x : nat) : option (string * V * Z) := data <$> h !! x.

(** [h'] differs from [h] in the pointers of cells of [l] only. *)
Definition rewired l h h' : Prop :=
  (forall x, data_at h' x = data_at h x) /\ (forall x, x ∉ l -> h' !! x = h !! x).

Lemma rewired_refl l h : rewired l h h.
Proof. done. Qed.

Lemma rewired_trans l h1 h2 h3 : rewired l h1 h2 -> rewired l h2 h3 -> rewired l h1 h3.
Proof.
  intros [H1 H1'] [H2 H2']. split; intros; [by rewrite H2, H1|by rewrite H2', H1'].
Qed.

Lemma rewired_mono l l' h h' : l ⊆ l' -> rewired l h h' -> rewired l' h h'.
Proof. intros Hl [H1 H2]. split; [done|]. intros x Hx. apply H2. set_solver. Qed.

Lemma rewired_alter l h f x :
  (forall e, data (f e) = data e) -> x ∈ l -> rewired l h (alter f x h).
Proof.
  intros Hf Hx. split.
  - intros y. unfold data_at. destruct (decide (x = y)) as [<-|].
    + rewrite lookup_alter_eq. destruct (h !! x); simpl; [by rewrite Hf|done].
    + by rewrite lookup_alter_ne.
  - intros y Hy. apply lookup_alter_ne. set_solver.
Qed.

Lemma last_or_elem p l y : last_or p l = Some y -> Some y = p \/ y ∈ l.
Proof.
  revert p. induction l as [|x l IH]; intros p; simpl; [by left|].
  intros [[= ->]|]%IH; set_solver.
Qed.

Lemma rewired_relink_next h l n : rewired l h (relink_next h (last_or None l) n).
Proof.
  destruct (last_or None l) as [y|] eqn:E; simpl; [|done].
  apply rewired_alter; [done|]. by apply last_or_elem in E as [|].
Qed.

Lemma rewired_relink_prev h l p : rewired l h (relink_prev h (hd_or l None) p).
Proof. destruct l; simpl; [done|]. apply rewired_alter; [done|set_solver]. Qed.

(** * Removing and adding a cell *)

Definition links h s l : Prop :=
  dll h None l None /\ s.(sh_head) = hd_or l None /\ s.(sh_tail) = last_or None l.

Lemma links_cell h s l1 x l2 :
  links h s (l1 ++ x :: l2) ->
  exists e, h !! x = Some e /\ e.(e_prev) = last_or None l1 /\ e.(e_next) = hd_or l2 None.
Proof. intros [Hd _]. apply dll_app in Hd as [_ [He _]]. done. Qed.

Lemma removeEntry_spec h s l1 x l2 h' s' :
  NoDup (l1 ++ x :: l2) -> links h s (l1 ++ x :: l2) -> removeEntry h s x = (h', s') ->
  links h' s' (l1 ++ l2) /\ rewired (l1 ++ l2) h h' /\
  s'.(items) = s.(items) /\ s'.(maxSize) = s.(maxSize).
Proof.
  intros Hnd Hl. destruct (links_cell _ _ _ _ _ Hl) as (e & He & Hp & Hn).
  destruct Hl as (Hd & Hh & Ht). apply dll_app in Hd as [Hd1 [_ Hd2]].
  apply NoDup_app in Hnd as (Hnd1 & H12 & [Hx Hnd2]%NoDup_cons).
  unfold removeEntry. rewrite He. simpl. rewrite Hp, Hn. intros Heq.
  assert (Hh' : h' = relink_prev (relink_next h (last_or None l1) (hd_or l2 None))
                       (hd_or l2 None) (last_or None l1)).
  { destruct (last_or None l1), (hd_or l2 None); simpl in *; congruence. }
  assert (Hs' : s'.(sh_head) = hd_or (l1 ++ l2) None /\
                s'.(sh_tail) = last_or None (l1 ++ l2) /\
                s'.(items) = s.(items) /\ s'.(maxSize) = s.(maxSize)).
  { rewrite hd_or_app in Hh |- *. rewrite last_or_app in Ht |- *. clear Hh'.
    destruct l1 as [|y l1 _] using rev_ind; [|rewrite last_or_app in *; simpl in *];
      destruct l2 as [|z l2]; simpl in *; simplify_eq/=;
      rewrite ?hd_or_app in *; auto;
      destruct l1; simpl in *; auto. }
  destruct Hs' as (H1 & H2 & H3 & H4). subst h'.
  set (hn := relink_next h (last_or None l1) (hd_or l2 None)) in *.
  assert (Hr1 : rewired l1 h hn) by apply rewired_relink_next.
  assert (Hr2 : rewired l2 hn (relink_prev hn (hd_or l2 None) (last_or None l1)))
    by apply rewired_relink_prev.
  split_and!; try done.
  - split; [|done]. apply dll_app. split.
    + eapply dll_frame; [|by eapply dll_relink_next]. intros y Hy. apply (proj2 Hr2).
      intros ?. apply (H12 y Hy). set_solver.
    + apply (dll_relink_prev _ _ (Some x)); [done|].
      eapply dll_frame; [|done]. intros y Hy. apply (proj2 Hr1).
      intros ?. apply (H12 y); set_solver.
  - eapply rewired_trans; eapply rewired_mono; [|exact Hr1| |exact Hr2]; set_solver.
Qed.

Lemma addToFront_spec h s l x h' s' :
  x ∉ l -> NoDup l -> is_Some (h !! x) -> links h s l -> addToFront h s x = (h', s') ->
  links h' s' (x :: l) /\ rewired (x :: l) h h' /\
  s'.(items) = s.(items) /\ s'.(maxSize) = s.(maxSize).
Proof.
  intros Hx Hnd [e He] (Hd & Hh & Ht). unfold addToFront. rewrite Hh.
  set (h1 := alter (set_prev None) x (alter (set_next (hd_or l None)) x h)).
  assert (Hr1 : rewired [x] h h1).
  { eapply rewired_trans; apply rewired_alter; set_solver. }
  assert (Hd1 : dll h1 None l None).
  { eapply dll_frame; [|done]. intros y Hy. apply (proj2 Hr1). set_solver. }
  intros Heq. assert (h' = relink_prev h1 (hd_or l None) (Some x)) as ->.
  { destruct l; simpl in *; congruence. }
  assert (Hr2 : rewired l h1 (relink_prev h1 (hd_or l None) (Some x)))
    by apply rewired_relink_prev.
  assert (Hs' : s'.(sh_head) = Some x /\ s'.(sh_tail) = last_or (Some x) l /\
                s'.(items) = s.(items) /\ s'.(maxSize) = s.(maxSize)).
  { apply (f_equal snd) in Heq. simpl in Heq. subst s'. rewrite Ht.
    destruct l as [|y l]; simpl; [done|].
    destruct (last_or (Some y) l) eqn:E; simpl in *; [split_and!; congruence|].
    clear -E. exfalso. revert y E. induction l; simpl; [done|eauto]. }
  destruct Hs' as (H1 & H2 & H3 & H4). split_and!; try done.
  - split; [|done]. simpl. split.
    + exists (set_prev None (set_next (hd_or l None) e)). split; [|done].
      transitivity (h1 !! x); [by apply (proj2 Hr2)|].
      unfold h1. by rewrite lookup_alter_eq, lookup_alter_eq, He.
    + by apply (dll_relink_prev _ _ None).
  - eapply rewired_trans; eapply rewired_mono; [|exact Hr1| |exact Hr2]; set_solver.
Qed.

(** * The key map and the memory *)

Definition index h s l : Prop :=
  forall k x, s.(items) !! k = Some x <->
    x ∈ l /\ exists v t, data_at h x = Some (k, v, t).

(** The cells of the shard, of the pool and of the rest of the cache [F] are
    distinct and allocated. *)
Definition owned m l (F : list nat) : Prop :=
  NoDup (l ++ m.(entryPool) ++ F) /\
  forall x, x ∈ l ++ m.(entryPool) ++ F -> (x < m.(brk))%nat.

Definition shard_rep m s l F : Prop :=
  links m.(cells) s l /\ index m.(cells) s l /\ owned m l F.

Abbreviation item := (string * V * Z)%type.

(** The items of the cells [l]. *)
Definition contents h l : list item := omap (data_at h) l.

Lemma contents_app h l1 l2 : contents h (l1 ++ l2) = contents h l1 ++ contents h l2.
Proof. apply omap_app. Qed.

Lemma contents_cons h x l :
  contents h (x :: l) =
  match data_at h x with Some d => d :: contents h l | None => contents h l end.
Proof. done. Qed.

Lemma contents_ext h h' l :
  (forall x, x ∈ l -> data_at h' x = data_at h x) -> contents h' l = contents h l.
Proof.
  induction l as [|x l IH]; intros Hl; [done|]. rewrite !contents_cons.
  rewrite (Hl x) by set_solver. rewrite IH by set_solver. done.
Qed.

Lemma rewired_contents l0 h h' l : rewired l0 h h' -> contents h' l = contents h l.
Proof. intros [Hd _]. by apply contents_ext. Qed.

Lemma index_rewired l0 h h' s s' l :
  rewired l0 h h' -> s'.(items) = s.(items) -> index h s l -> index h' s' l.
Proof. intros [Hd _] Hs Hi k x. rewrite Hs, Hd. apply Hi. Qed.

Lemma dll_data h p l n x : dll h p l n -> x ∈ l -> is_Some (data_at h x).
Proof.
  revert p. induction l as [|y l IH]; intros p; simpl; [set_solver|].
  intros [(e & He & _) Hl] [->|Hx]%elem_of_cons; [|eauto].
  unfold data_at. rewrite He. by eexists.
Qed.

Lemma links_data h s l x : links h s l -> x ∈ l -> exists k v t, data_at h x = Some (k, v, t).
Proof. intros [Hd _] Hx. destruct (dll_data _ _ _ _ _ Hd Hx) as [[[k v] t] ?]. eauto. Qed.

Lemma index_perm h s l :
  NoDup l -> links h s l -> index h s l -> snd <$> map_to_list s.(items) ≡ₚ l.
Proof.
  intros Hnd Hl Hi. apply NoDup_Permutation; [|done|].
  - apply NoDup_fmap_2_strong; [|apply NoDup_map_to_list].
    intros [k x] [k' y] H1%elem_of_map_to_list H2%elem_of_map_to_list. simpl. intros ->.
    apply Hi in H1 as (_ & v & t & E1), H2 as (_ & v' & t' & E2). congruence.
  - intros x. rewrite list_elem_of_fmap. split.
    + intros ([k y] & -> & [? _]%elem_of_map_to_list%Hi). done.
    + intros Hx. destruct (links_data _ _ _ _ Hl Hx) as (k & v & t & E).
      exists (k, x). split; [done|]. apply elem_of_map_to_list, Hi. eauto.
Qed.

Lemma index_size h s l :
  NoDup l -> links h s l -> index h s l -> size s.(items) = length l.
Proof.
  intros Hnd Hl Hi. rewrite <- (index_perm h s l Hnd Hl Hi).
  by rewrite length_fmap, length_map_to_list.
Qed.

Lemma length_contents h s l : links h s l -> length (contents h l) = length l.
Proof.
  intros [Hd _]. revert Hd. generalize (@None nat) at 1. induction l as [|x l IH]; [done|].
  intros p [(e & He & _) Hl]. rewrite contents_cons. unfold data_at. rewrite He. simpl.
  f_equal. by eapply IH.
Qed.

(** * The abstract shard: items, most recently used first *)

Definition find_item (k : string) (v : list item) : option item :=
  head (base.filter (fun p : item => p.1.1 = k) v).
Definition without (k : string) (v : list item) : list item :=
  base.filter (fun p : item => p.1.1 <> k) v.

Lemma keys_distinct h s l1 x l2 k d y :
  NoDup (l1 ++ x :: l2) -> index h s (l1 ++ x :: l2) ->
  data_at h x = Some (k, d.1, d.2) -> y ∈ l1 ++ l2 ->
  forall d', data_at h y = Some d' -> d'.1.1 <> k.
Proof.
  intros Hnd Hi Hx Hy [[k' v'] t'] Hd' Hk. simpl in Hk. subst k'.
  assert (E1 : s.(items) !! k = Some x) by (apply Hi; split; [set_solver|eauto]).
  assert (E2 : s.(items) !! k = Some y) by (apply Hi; split; [set_solver|eauto]).
  rewrite E1 in E2. injection E2 as <-.
  apply NoDup_app in Hnd as (_ & Hd1 & [Hd2 _]%NoDup_cons).
  apply elem_of_app in Hy as [Hy|Hy]; [|done]. apply (Hd1 x Hy). set_solver.
Qed.

Lemma filter_contents (P : item -> Prop) `{!forall x, Decision (P x)} h l :
  (forall y d, y ∈ l -> data_at h y = Some d -> P d) ->
  base.filter P (contents h l) = contents h l.
Proof.
  intros HP. induction l as [|x l IH]; [done|]. rewrite contents_cons.
  assert (IH' : base.filter P (contents h l) = contents h l) by (apply IH; set_solver).
  destruct (data_at h x) eqn:E; [|done].
  rewrite filter_cons_True by (eapply HP; [|done]; set_solver). by rewrite IH'.
Qed.

Lemma filter_contents_none (P : item -> Prop) `{!forall x, Decision (P x)} h l :
  (forall y d, y ∈ l -> data_at h y = Some d -> ~ P d) ->
  base.filter P (contents h l) = [].
Proof.
  intros HP. induction l as [|x l IH]; [done|]. rewrite contents_cons.
  assert (IH' : base.filter P (contents h l) = []) by (apply IH; set_solver).
  destruct (data_at h x) eqn:E; [|done].
  by rewrite filter_cons_False by (eapply HP; [|done]; set_solver).
Qed.

(** An item that is there, and one that is not. *)
Lemma find_present h s l1 x l2 k v t :
  NoDup (l1 ++ x :: l2) -> index h s (l1 ++ x :: l2) -> data_at h x = Some (k, v, t) ->
  find_item k (contents h (l1 ++ x :: l2)) = Some (k, v, t) /\
  without k (contents h (l1 ++ x :: l2)) = contents h (l1 ++ l2).
Proof.
  intros Hnd Hi Hx.
  assert (Hk : forall y d, y ∈ l1 ++ l2 -> data_at h y = Some d -> d.1.1 <> k).
  { intros y d Hy. by apply (keys_distinct h s l1 x l2 k (v, t)). }
  unfold find_item, without. rewrite !contents_app, contents_cons, Hx, !filter_app.
  rewrite filter_cons_True, filter_cons_False by (simpl; tauto).
  rewrite !(filter_contents_none (fun p => p.1.1 = k)) by (intros; eapply Hk; set_solver).
  rewrite !filter_contents by (intros; eapply Hk; set_solver). done.
Qed.

Lemma find_absent h s l k :
  links h s l -> index h s l -> s.(items) !! k = None ->
  find_item k (contents h l) = None /\ without k (contents h l) = contents h l.
Proof.
  intros Hl Hi Hk.
  assert (Hn : forall y d, y ∈ l -> data_at h y = Some d -> d.1.1 <> k).
  { intros y [[k' v] t] Hy Hd E. simpl in E. subst k'.
    assert (s.(items) !! k = Some y) by (apply Hi; eauto). congruence. }
  unfold find_item, without.
  rewrite filter_contents_none by (intros; eapply Hn; eauto). rewrite filter_contents by auto.
  done.
Qed.

(** * Memory steps *)

Lemma owned_put m x l F : owned m (x :: l) F -> owned (poolPut m x) l F.
Proof.
  intros [Hnd Hb]. assert (Hp : x :: l ++ entryPool m ++ F ≡ₚ l ++ (x :: entryPool m) ++ F)
    by (rewrite <- app_comm_cons; apply Permutation_middle).
  split; simpl; [by rewrite <- Hp|]. intros y Hy. apply Hb. simpl. by rewrite Hp.
Qed.

Lemma owned_drop m x l F : owned m (x :: l) F -> owned m l F.
Proof.
  intros [Hnd Hb]. apply NoDup_cons in Hnd as [_ ?]. split; [done|].
  intros. apply Hb. set_solver.
Qed.

Lemma owned_perm m l l' F : l ≡ₚ l' -> owned m l F -> owned m l' F.
Proof. intros Hp [H1 H2]. split; [by rewrite <- Hp|]. intros x. rewrite <- Hp. auto. Qed.

Lemma owned_cells m f l F : owned m l F -> owned (with_cells f m) l F.
Proof. done. Qed.

Lemma poolGet_owned m pick e l F m' x :
  owned m l F -> poolGet m pick e = (m', x) ->
  owned m' (x :: l) F /\ m'.(cells) = <[x := e]> m.(cells).
Proof.
  unfold poolGet. intros [Hnd Hb].
  destruct (pick ≫= _) as [[i y]|] eqn:E; intros [= <- <-]; (split; [|done]).
  - apply bind_Some in E as (i' & _ & (y' & Hy & [= -> ->])%fmap_Some).
    assert (Hp : l ++ entryPool m ++ F ≡ₚ (y' :: l) ++ delete i' (entryPool m) ++ F).
    { rewrite (delete_Permutation _ _ _ Hy) at 1. simpl.
      symmetry. apply Permutation_middle. }
    split; simpl; [by rewrite <- Hp|]. intros z Hz. apply Hb. by rewrite Hp.
  - split; simpl.
    + apply NoDup_cons. split; [|done]. intros Hin%Hb. lia.
    + intros z [->|Hz]%elem_of_cons; [lia|]. apply Hb in Hz. lia.
Qed.

Lemma owned_nodup m l F : owned m l F -> NoDup l.
Proof. intros [Hnd _]. by apply NoDup_app in Hnd as [? _]. Qed.

Lemma owned_frame m l F x : owned m l F -> x ∈ F -> x ∉ l.
Proof. intros [Hnd _] Hx Hl. apply NoDup_app in Hnd as (_ & H & _). apply (H x); set_solver. Qed.

(** * Each operation on a shard, as an operation on its list of items *)

(** [m'] and [s'] represent [v'], and the rest [F] of the memory is as in [m]. *)
Definition goes_to m s F m' s' (v' : list item) : Prop :=
  exists l', shard_rep m' s' l' F /\ contents m'.(cells) l' = v' /\
    s'.(maxSize) = s.(maxSize) /\ forall y, y ∈ F -> m'.(cells) !! y = m.(cells) !! y.

Lemma sh_delete_spec m s l1 x l2 F k v t m' s' :
  shard_rep m s (l1 ++ x :: l2) F -> data_at m.(cells) x = Some (k, v, t) ->
  sh_delete m s k x = (m', s') ->
  links m'.(cells) s' (l1 ++ l2) /\ index m'.(cells) s' (l1 ++ l2) /\
  owned m' (x :: l1 ++ l2) F /\ s'.(maxSize) = s.(maxSize) /\
  (forall y, y ∈ F -> m'.(cells) !! y = m.(cells) !! y) /\
  contents m'.(cells) (l1 ++ l2) = without k (contents m.(cells) (l1 ++ x :: l2)).
Proof.
  intros (Hl & Hi & Ho) Hx. pose proof (owned_nodup _ _ _ Ho) as Hnd.
  unfold sh_delete. destruct (removeEntry _ _ x) as [h'' s''] eqn:E. intros [= <- <-].
  apply (removeEntry_spec _ _ l1 x l2) in E as (Hl' & Hr & His & Hmx); [|done|done].
  split_and!; try done.
  - intros k' y. simpl in His. rewrite His. simpl. destruct Hr as [Hd _].
    cbn [cells with_cells]. rewrite Hd, lookup_delete_Some, (Hi k' y). split.
    + intros (Hne & Hy & v' & t' & Hd'). split; [|eauto].
      apply elem_of_app in Hy as [Hy|[->|Hy]%elem_of_cons]; [set_solver|congruence|set_solver].
    + intros (Hy & v' & t' & Hd'). split; [|split; [set_solver|eauto]].
      intros <-. by apply (keys_distinct _ s l1 x l2 k (v, t) y Hnd Hi Hx Hy _ Hd').
  - apply owned_cells. eapply owned_perm; [|done]. symmetry. apply Permutation_middle.
  - intros y Hy. apply Hr. pose proof (owned_frame _ _ _ y Ho Hy). set_solver.
  - simpl. rewrite (rewired_contents _ _ _ _ Hr).
    symmetry. by eapply find_present.
Qed.

Lemma add_spec m s l F x k v t h' s' :
  links m.(cells) s l -> owned m (x :: l) F ->
  data_at m.(cells) x = Some (k, v, t) ->
  (forall k' y, y <> x -> s.(items) !! k' = Some y <->
     y ∈ l /\ exists v t, data_at m.(cells) y = Some (k', v, t)) ->
  s.(items) !! k = Some x -> (forall k', s.(items) !! k' = Some x -> k' = k) ->
  addToFront m.(cells) s x = (h', s') ->
  shard_rep (with_cells (fun _ => h') m) s' (x :: l) F /\
  contents h' (x :: l) = (k, v, t) :: contents m.(cells) l /\
  s'.(maxSize) = s.(maxSize) /\ forall y, y ∈ F -> h' !! y = m.(cells) !! y.
Proof.
  intros Hl Ho Hx Hi Hk Hk' E. pose proof (owned_nodup _ _ _ Ho) as [Hxl Hnd]%NoDup_cons.
  apply (addToFront_spec _ _ l) in E as (Hl' & Hr & His & Hmx); try done.
  2:{ unfold data_at in Hx. destruct (m.(cells) !! x); [by eexists|done]. }
  split_and!; try done.
  - split; [done|]. split; [|done]. intros k' y. simpl. rewrite His. destruct Hr as [Hd _].
    rewrite Hd. destruct (decide (y = x)) as [->|Hne].
    + split; [intros ->%Hk'; split; [set_solver|eauto]|].
      intros (_ & v' & t' & Hd'). congruence.
    + rewrite (Hi k' y Hne). set_solver.
  - rewrite (rewired_contents _ _ _ _ Hr), contents_cons, Hx. done.
  - intros y Hy. apply Hr. by apply (owned_frame _ _ _ y Ho).
Qed.

Lemma lookup_split m s l F k x :
  shard_rep m s l F -> s.(items) !! k = Some x ->
  exists l1 l2 v t, l = l1 ++ x :: l2 /\ data_at m.(cells) x = Some (k, v, t).
Proof.
  intros (_ & Hi & _) (Hx & v & t & Hd)%Hi.
  apply list_elem_of_split in Hx as (l1 & l2 & ->). eauto 7.
Qed.

(** Moving a cell to the front: the code does nothing when it is there. *)
Lemma front_spec m s l1 x l2 F k v t h' s' :
  shard_rep m s (l1 ++ x :: l2) F -> data_at m.(cells) x = Some (k, v, t) ->
  moveToFront m.(cells) s x = (h', s') ->
  goes_to m s F (with_cells (fun _ => h') m) s'
    ((k, v, t) :: without k (contents m.(cells) (l1 ++ x :: l2))).
Proof.
  intros (Hl & Hi & Ho) Hx. pose proof (owned_nodup _ _ _ Ho) as Hnd.
  destruct (find_present _ _ _ _ _ _ _ _ Hnd Hi Hx) as [_ ->].
  unfold moveToFront. case_decide as Hhd.
  - intros [= <- <-]. exists (l1 ++ x :: l2). split; [by destruct m|]. split_and!; try done.
    destruct Hl as (_ & Hh & _). destruct l1 as [|y l1].
    { cbn [app cells with_cells]. by rewrite contents_cons, Hx. }
    simpl in Hh. rewrite Hh in Hhd. injection Hhd as ->.
    apply NoDup_cons in Hnd as [Hn _]. destruct Hn. set_solver.
  - destruct (removeEntry _ _ x) as [h1 s1] eqn:E1.
    apply (removeEntry_spec _ _ l1 x l2) in E1 as (Hl1 & Hr & His & Hmx); [|done|done].
    intros E2.
    apply (add_spec (with_cells (fun _ => h1) m) _ (l1 ++ l2) F x k v t) in E2
      as (? & Hc & Hmx2 & HF); try done.
    + eexists. split; [done|]. split; [simpl in *; rewrite Hc; f_equal|].
      { by apply (rewired_contents (l1 ++ l2)). }
      split; [congruence|]. intros y Hy. simpl. rewrite HF by done. apply Hr.
      pose proof (owned_frame _ _ _ y Ho Hy). set_solver.
    + apply owned_cells. eapply owned_perm; [|done]. symmetry. apply Permutation_middle.
    + simpl. destruct Hr as [Hd _]. by rewrite Hd.
    + intros k' y Hne. rewrite His, (Hi k' y). simpl. destruct Hr as [Hd _]. rewrite Hd.
      set_solver.
    + rewrite His. apply Hi. split; [set_solver|eauto].
    + intros k'. rewrite His, (Hi k' x). intros (_ & v' & t' & Hd'). congruence.
Qed.

Definition expired (now t : Z) : bool := (0 <? t) && (t <? UnixNano now).

Definition spec_get (now : Z) (v : list item) (k : string)
  : list item * option V * option bool :=
  match find_item k v with
  | None => (v, None, Some false)
  | Some (_, x, t) =>
      if expired now t then (without k v, None, None)
      else ((k, x, t) :: without k v, Some x, Some true)
  end.

Lemma getIn_spec now m s l F k m' s' r hit :
  shard_rep m s l F -> getIn now m s k = (m', s', r, hit) ->
  exists v', spec_get now (contents m.(cells) l) k = (v', r, hit) /\ goes_to m s F m' s' v'.
Proof.
  intros Hrep. unfold getIn, spec_get.
  destruct (s.(items) !! k) as [x|] eqn:Hk; simpl.
  - destruct (lookup_split _ _ _ _ _ _ Hrep Hk) as (l1 & l2 & v & t & -> & Hx).
    pose proof Hrep as (Hl & Hi & Ho). pose proof (owned_nodup _ _ _ Ho) as Hnd.
    destruct (find_present _ _ _ _ _ _ _ _ Hnd Hi Hx) as [-> Hwo].
    unfold data_at in Hx. destruct (m.(cells) !! x) as [e|] eqn:He; [|done].
    simpl in Hx. injection Hx as Hek Hev Het. cbn [fmap option_fmap option_map].
    rewrite Het, Hev. unfold expired. case_match.
    + destruct (sh_delete m s k x) as [m1 s1] eqn:E. intros [= <- <- <- <-].
      apply (sh_delete_spec _ _ l1 x l2 F k v t) in E as (? & ? & ? & ? & ? & Hc);
        [|done|unfold data_at; rewrite He; simpl; by subst].
      eexists. split; [done|]. exists (l1 ++ l2). split; [split; [done|]|done].
      split; [done|]. by apply owned_put.
    + change (if decide (s.(sh_head) = Some x) then _ else _)
        with (moveToFront m.(cells) s x).
      destruct (moveToFront m.(cells) s x) as [h1 s1] eqn:E. intros [= <- <- <- <-].
      eexists. split; [done|]. apply front_spec; [done| |done].
      unfold data_at. rewrite He. simpl. by subst.
  - destruct Hrep as (Hl & Hi & Ho).
    destruct (find_absent _ _ _ _ Hl Hi Hk) as [-> _]. intros [= <- <- <- <-].
    eexists. split; [done|]. exists l. done.
Qed.

Definition spec_del (v : list item) (k : string) : list item * bool :=
  match find_item k v with None => (v, false) | Some _ => (without k v, true) end.

Lemma delIn_spec b m s l F k m' s' r :
  shard_rep m s l F -> delIn b m s k = (m', s', r) ->
  exists v', spec_del (contents m.(cells) l) k = (v', r) /\ goes_to m s F m' s' v'.
Proof.
  intros Hrep. unfold delIn, spec_del.
  destruct (s.(items) !! k) as [x|] eqn:Hk; simpl.
  - destruct (lookup_split _ _ _ _ _ _ Hrep Hk) as (l1 & l2 & v & t & -> & Hx).
    pose proof Hrep as (Hl & Hi & Ho). pose proof (owned_nodup _ _ _ Ho) as Hnd.
    destruct (find_present _ _ _ _ _ _ _ _ Hnd Hi Hx) as [-> Hwo].
    destruct (sh_delete m s k x) as [m1 s1] eqn:E. intros [= <- <- <-].
    apply (sh_delete_spec _ _ l1 x l2 F k v t) in E as (? & ? & ? & ? & ? & Hc); [|done..].
    eexists. split; [done|]. exists (l1 ++ l2). split.
    + split_and!; [by destruct b..|]. destruct b; [by apply owned_put|by eapply owned_drop].
    + by destruct b.
  - destruct Hrep as (Hl & Hi & Ho).
    destruct (find_absent _ _ _ _ Hl Hi Hk) as [-> _]. intros [= <- <- <-].
    eexists. split; [done|]. exists l. done.
Qed.

Lemma clearIn_spec m s l F m' s' :
  shard_rep m s l F -> clearIn m s = (m', s') ->
  m'.(cells) = m.(cells) /\ links m.(cells) s' [] /\ index m.(cells) s' [] /\
  s'.(maxSize) = s.(maxSize) /\ owned m' [] F.
Proof.
  intros (Hl & Hi & Ho). unfold clearIn. intros [= <- <-].
  assert (Hc : forall xs m0, (fold_left poolPut xs m0).(cells) = m0.(cells)).
  { induction xs as [|y xs IH]; intros m0; simpl; [done|]. by rewrite IH. }
  assert (Hp : forall xs m0, owned m0 (xs ++ []) F -> owned (fold_left poolPut xs m0) [] F).
  { induction xs as [|y xs IH]; intros m0 H0; simpl; [done|]. by apply IH, owned_put. }
  split; [apply Hc|]. split; [done|]. split.
  { intros k x. simpl. rewrite lookup_empty. set_solver. }
  split; [done|]. apply Hp. rewrite app_nil_r. eapply owned_perm; [|done]. symmetry.
  apply (index_perm m.(cells)); [by eapply owned_nodup|done|done].
Qed.

(** * Choosing a victim *)

Definition colder (est : string -> Z) (nf : Z) (v : list item) : option item :=
  head (base.filter (fun p : item => est p.1.1 < nf) v).

(** The oldest item, unless it is more frequent than the new key: then the
    oldest item, the first one apart, that is less frequent than the new key,
    if there is one. *)
Definition spec_victim (est : string -> Z) (k : string) (v : list item) : option string :=
  match last v with
  | None => None
  | Some o =>
      if est k <? est o.1.1
      then Some (default o (colder est (est k) (reverse (tail v)))).1.1
      else Some o.1.1
  end.

Lemma contents_nonempty h p l n : dll h p l n -> l <> [] -> contents h l <> [].
Proof.
  destruct l as [|x l]; [done|]. intros [(e & He & _) _] _.
  rewrite contents_cons. unfold data_at. by rewrite He.
Qed.

Lemma tail_app {A} (l1 l2 : list A) : l1 <> [] -> tail (l1 ++ l2) = tail l1 ++ l2.
Proof. by destruct l1. Qed.

Lemma search_spec est h nf l1 : forall x l2 fuel,
  dll h None (l1 ++ x :: l2) None -> NoDup (l1 ++ x :: l2) -> l1 <> [] ->
  (length l1 < fuel)%nat ->
  let r := searchVictim fuel est h (hd_or (l1 ++ x :: l2) None) nf (Some x) in
  match colder est nf (reverse (tail (contents h (l1 ++ [x])))) with
  | Some d => exists y, r = Some y /\ y ∈ l1 ++ [x] /\ data_at h y = Some d
  | None => r = None
  end.
Proof.
  induction l1 as [|z l1 IH] using rev_ind; intros x l2 fuel Hd Hnd Hne Hf r; [done|].
  pose proof Hd as [Hd1 [(e & He & Hp & _) _]]%dll_app.
  assert (Hx : data_at h x = Some (data e)) by (unfold data_at; by rewrite He).
  assert (Hc : contents h ((l1 ++ [z]) ++ [x]) = contents h (l1 ++ [z]) ++ [data e]).
  { by rewrite contents_app, contents_cons, Hx. }
  rewrite Hc, tail_app by (by eapply contents_nonempty). clear Hc.
  rewrite reverse_snoc. subst r. destruct fuel as [|fuel]; [lia|].
  cbn [searchVictim]. rewrite He. unfold colder. destruct (Z.ltb_spec (est (e_key e)) nf).
  - rewrite filter_cons_True by done. simpl. exists x. set_solver.
  - rewrite filter_cons_False by (simpl; lia). rewrite Hp, last_or_app. simpl last_or.
    destruct l1 as [|a l1].
    + simpl in Hd1. destruct Hd1 as [(ez & Hez & _) _]. cbn [app].
      rewrite contents_cons, decide_True by done. unfold data_at. by rewrite Hez.
    + rewrite decide_False.
      2:{ simpl. intros [= ->]. simpl in Hnd. apply NoDup_cons in Hnd as [Hn _].
          destruct Hn. set_solver. }
      rewrite <- app_assoc in Hd, Hnd |- *. rewrite length_app in Hf. simpl length in Hf.
      specialize (IH z (x :: l2) fuel Hd Hnd ltac:(done) ltac:(simpl; lia)).
      cbn zeta in IH. unfold colder in IH. case_match; [|done].
      destruct IH as (y & ? & ? & ?). exists y. set_solver.
Qed.

Lemma victim_found h est k l0 o d fuel :
  dll h None (l0 ++ [o]) None -> NoDup (l0 ++ [o]) -> data_at h o = Some d ->
  est k < est d.1.1 -> (length l0 < fuel)%nat ->
  let r := searchVictim fuel est h (hd_or (l0 ++ [o]) None) (est k) (Some o) in
  match colder est (est k) (reverse (tail (contents h (l0 ++ [o])))) with
  | Some d => exists y, r = Some y /\ y ∈ l0 ++ [o] /\ data_at h y = Some d
  | None => r = None
  end.
Proof.
  intros Hd Hnd Ho Hlt Hf. destruct (decide (l0 = [])) as [->|Hne].
  - cbn [app]. rewrite contents_cons, Ho. simpl.
    unfold data_at in Ho. destruct fuel as [|fuel]; [lia|]. simpl.
    destruct (h !! o) as [e|] eqn:He; simpl in Ho; [|done]. injection Ho as <-.
    simpl in Hlt. destruct (Z.ltb_spec (est (e_key e)) (est k)); [lia|].
    destruct Hd as [(e' & He' & Hp & _) _]. assert (e' = e) as -> by congruence.
    rewrite Hp, decide_False by done. by destruct fuel.
  - by apply (search_spec est h (est k) l0 o []).
Qed.

Definition spec_evict (est : string -> Z) (k : string) (v : list item) : list item :=
  match spec_victim est k v with Some k' => without k' v | None => v end.

Lemma chooseVictim_spec est m s l F k o e :
  shard_rep m s l F -> s.(sh_tail) = Some o -> m.(cells) !! o = Some e ->
  exists l1 x l2 v t k', chooseVictim est m.(cells) s k o e.(e_key) = x /\
    l = l1 ++ x :: l2 /\ data_at m.(cells) x = Some (k', v, t) /\
    spec_victim est k (contents m.(cells) l) = Some k'.
Proof.
  intros Hrep Ht He. pose proof Hrep as ((Hd & Hh & Ht') & Hi & Ho).
  pose proof (owned_nodup _ _ _ Ho) as Hnd.
  assert (exists l0, l = l0 ++ [o]) as [l0 ->].
  { rewrite Ht' in Ht. destruct l as [|y l0 _] using rev_ind; [done|].
    rewrite last_or_app in Ht. injection Ht as ->. eauto. }
  assert (Hx : data_at m.(cells) o = Some (data e)) by (unfold data_at; by rewrite He).
  unfold spec_victim, chooseVictim.
  rewrite contents_app, contents_cons, Hx. change (contents (cells m) []) with (@nil item).
  rewrite last_snoc. cbn [data fst].
  destruct (Z.ltb_spec (est k) (est (e_key e))) as [Hlt|Hge].
  2:{ exists l0, o, [], (e_value e), (e_expireAt e), (e_key e). done. }
  pose proof (victim_found m.(cells) est k l0 o (data e) (size s.(items)) Hd Hnd Hx Hlt) as Hv.
  rewrite contents_app, contents_cons, Hx in Hv.
  change (contents (cells m) []) with (@nil item) in Hv.
  assert (Hfuel : (length l0 < size s.(items))%nat).
  { rewrite (index_size m.(cells) s (l0 ++ [o])) by done. rewrite length_app. simpl. lia. }
  specialize (Hv Hfuel). rewrite <- Hh in Hv. cbn zeta in Hv.
  destruct (colder _ _ _) as [[[k' v] t]|].
  - destruct Hv as (y & -> & Hy & Hdy).
    apply list_elem_of_split in Hy as (l1 & l2 & ->).
    exists l1, y, l2, v, t, k'. done.
  - rewrite Hv. exists l0, o, [], (e_value e), (e_expireAt e), (e_key e). done.
Qed.

Lemma evictIn_spec est m s l F k m' s' :
  shard_rep m s l F -> evictIn est m s k = (m', s') ->
  goes_to m s F m' s' (spec_evict est k (contents m.(cells) l)).
Proof.
  intros Hrep. unfold evictIn, spec_evict.
  destruct (s.(sh_tail)) as [o|] eqn:Ht; simpl.
  - pose proof Hrep as ((Hd & Hh & Ht') & _).
    assert (Hol : o ∈ l).
    { rewrite Ht' in Ht. by apply last_or_elem in Ht as [|]. }
    destruct (dll_data _ _ _ _ _ Hd Hol) as [d Hdo]. unfold data_at in Hdo.
    destruct (m.(cells) !! o) as [e|] eqn:He; [|done]. simpl.
    destruct (chooseVictim_spec est _ _ _ _ k _ _ Hrep Ht He)
      as (l1 & x & l2 & v & t & k' & Hch & Hll & Hx & ->).
    rewrite Hch. destruct (m.(cells) !! x) as [ve|] eqn:Hve;
      [|by unfold data_at in Hx; rewrite Hve in Hx].
    assert (ve.(e_key) = k') as ->
      by (unfold data_at in Hx; rewrite Hve in Hx; simpl in Hx; unfold data in Hx; congruence).
    subst l. destruct (sh_delete m s k' x) as [m1 s1] eqn:E. intros [= <- <-].
    apply (sh_delete_spec _ _ l1 x l2 F k' v t) in E as (? & ? & ? & ? & ? & Hc); [|done..].
    exists (l1 ++ l2). split; [split; [done|]|done]. split; [done|]. by apply owned_put.
  - pose proof Hrep as ((_ & _ & Ht') & _). intros [= <- <-].
    rewrite Ht', last_or_last in Ht. apply last_None in Ht as ->.
    exists []. done.
Qed.

Definition spec_set (est : string -> Z) (max : Z) (v : list item) (k : string) (x : V) (t : Z)
  : list item * bool :=
  match find_item k v with
  | Some _ => ((k, x, t) :: without k v, false)
  | None =>
      ((k, x, t) :: (if (0 <? max) && (max <=? Z.of_nat (length v))
                     then spec_evict est k v else v), true)
  end.

Lemma spec_evict_subset est k v : spec_evict est k v ⊆ v.
Proof.
  unfold spec_evict, without. case_match; [|done]. intros p [_ Hp]%list_elem_of_filter. done.
Qed.

Lemma find_item_None k v : find_item k v = None <-> forall p, p ∈ v -> p.1.1 <> k.
Proof.
  unfold find_item. split.
  - intros E p Hp Hk. destruct (base.filter _ v) eqn:Ef; [|done].
    exact (filter_nil_not_elem_of _ _ _ Ef Hk Hp).
  - intros Hv. destruct (base.filter _ v) as [|p f] eqn:Ef; [done|].
    assert (Hp : p ∈ base.filter (fun p : item => p.1.1 = k) v) by (rewrite Ef; set_solver).
    apply list_elem_of_filter in Hp as [Hk Hp]. by apply Hv in Hp.
Qed.

Lemma index_absent h s l k :
  index h s l -> (forall p, p ∈ contents h l -> p.1.1 <> k) -> s.(items) !! k = None.
Proof.
  intros Hi Hc. destruct (s.(items) !! k) as [x|] eqn:E; [|done].
  apply Hi in E as (Hx & v & t & Hd). exfalso. apply (Hc (k, v, t)); [|done].
  apply list_elem_of_omap. eauto.
Qed.

Lemma insert_new_spec m s l F k v t pick m1 x h' s' :
  shard_rep m s l F -> s.(items) !! k = None ->
  poolGet m pick {| e_key := k; e_value := v; e_expireAt := t;
                    e_next := None; e_prev := None |} = (m1, x) ->
  addToFront m1.(cells) (set_items (<[k := x]> s.(items)) s) x = (h', s') ->
  goes_to m s F (with_cells (fun _ => h') m1) s' ((k, v, t) :: contents m.(cells) l).
Proof.
  intros (Hl & Hi & Ho) Hk Hg.
  apply (poolGet_owned _ _ _ l F) in Hg as [Ho1 Hcells]; [|done].
  pose proof (owned_nodup _ _ _ Ho1) as [Hxl _]%NoDup_cons.
  assert (Hsame : forall y, y ∈ l -> m1.(cells) !! y = m.(cells) !! y).
  { intros y Hy. rewrite Hcells, lookup_insert_ne; [done|]. intros ->. done. }
  assert (Hxd : data_at m1.(cells) x = Some (k, v, t)).
  { unfold data_at. by rewrite Hcells, lookup_insert_eq. }
  intros E. apply (add_spec _ _ l F x k v t) in E as (Hr & Hc & Hmx & HF); try done.
  - exists (x :: l). split; [done|]. split; [|split; [done|]].
    + simpl in *. rewrite Hc. f_equal. apply contents_ext.
      intros y Hy. unfold data_at. by rewrite Hsame.
    + intros y Hy. simpl. rewrite HF by done. rewrite Hcells, lookup_insert_ne; [done|].
      intros ->. apply (owned_frame _ _ _ y Ho1 Hy). set_solver.
  - destruct Hl as [Hd Hht]. split; [|done]. by eapply dll_frame.
  - intros k' y Hne. simpl. destruct (decide (k' = k)) as [->|Hk'].
    + rewrite lookup_insert_eq. split; [by intros [= ->]|].
      intros (Hy & v' & t' & Hd'). exfalso.
      assert (s.(items) !! k = Some y); [|congruence].
      apply Hi. split; [done|]. unfold data_at in *. rewrite Hsame in Hd' by done. eauto.
    + rewrite lookup_insert_ne by done. rewrite (Hi k' y).
      unfold data_at. split; intros [Hy Hd']; (split; [done|]);
        rewrite Hsame in * by done; done.
  - simpl. by rewrite lookup_insert_eq.
  - intros k'. simpl. destruct (decide (k' = k)) as [->|Hk']; [done|].
    rewrite lookup_insert_ne by done. intros [Hx _]%Hi. done.
Qed.

(** Overwriting the value of a cell keeps the shape. *)
Lemma set_value_rep m s l1 x l2 F k v0 t0 v t :
  shard_rep m s (l1 ++ x :: l2) F -> data_at m.(cells) x = Some (k, v0, t0) ->
  let m' := with_cells (alter (set_value v t) x) m in
  shard_rep m' s (l1 ++ x :: l2) F /\ data_at m'.(cells) x = Some (k, v, t) /\
  (forall y, y <> x -> m'.(cells) !! y = m.(cells) !! y).
Proof.
  intros ((Hd & Hht) & Hi & Ho) Hx m'. unfold data_at in Hx.
  destruct (m.(cells) !! x) as [e|] eqn:He; [|done]. simpl in Hx. injection Hx as Hk Hv Ht.
  assert (Hx' : m'.(cells) !! x = Some (set_value v t e)).
  { simpl. by rewrite lookup_alter_eq, He. }
  assert (Hne : forall y, y <> x -> m'.(cells) !! y = m.(cells) !! y).
  { intros y Hy. simpl. by rewrite lookup_alter_ne. }
  assert (Hx'' : data_at m'.(cells) x = Some (k, v, t)).
  { unfold data_at. rewrite Hx'. simpl. unfold data. simpl. by rewrite Hk. }
  split; [|done]. split; [split; [|done]|split; [|done]].
  - revert Hd. generalize (l1 ++ x :: l2). generalize (@None nat) at 1 3.
    intros p l. revert p. induction l as [|y l IH]; intros p; simpl; [done|].
    intros [(e' & He' & Hp & Hn) Hl]. split; [|by apply IH].
    destruct (decide (y = x)) as [->|Hy].
    + exists (set_value v t e). rewrite lookup_alter_eq, He. split; [done|].
      assert (e' = e) as -> by congruence. done.
    + exists e'. by rewrite lookup_alter_ne.
  - intros k' y. destruct (decide (y = x)) as [->|Hy].
    + rewrite Hx'', (Hi k' x). unfold data_at. rewrite He. simpl. unfold data. rewrite Hk.
      split; intros [Hin (? & ? & E)]; split; naive_solver.
    + unfold data_at. rewrite Hne by done. apply Hi.
Qed.

Lemma set_existing_spec m s l1 x l2 F k v0 t0 v t h' s' :
  shard_rep m s (l1 ++ x :: l2) F -> data_at m.(cells) x = Some (k, v0, t0) ->
  moveToFront (alter (set_value v t) x m.(cells)) s x = (h', s') ->
  goes_to m s F (with_cells (fun _ => h') m) s'
    ((k, v, t) :: without k (contents m.(cells) (l1 ++ x :: l2))).
Proof.
  intros Hrep Hx E. pose proof Hrep as (Hl & Hi & Ho).
  pose proof (owned_nodup _ _ _ Ho) as Hnd.
  destruct (set_value_rep _ _ _ _ _ _ _ _ _ v t Hrep Hx) as (Hrep' & Hx' & Hne).
  pose proof Hrep' as (_ & Hi' & _).
  apply (front_spec (with_cells (alter (set_value v t) x) m) _ l1 x l2 F k v t) in E; [|done..].
  destruct (find_present _ _ _ _ _ _ _ _ Hnd Hi Hx) as [_ ->].
  destruct (find_present _ _ _ _ _ _ _ _ Hnd Hi' Hx') as [_ Hwo]. rewrite Hwo in E.
  rewrite (contents_ext m.(cells)) in E.
  2:{ intros y Hy. unfold data_at. rewrite Hne; [done|]. intros ->.
      apply NoDup_app in Hnd as (_ & Hd1 & [Hd2 _]%NoDup_cons).
      apply elem_of_app in Hy as [Hy|Hy]; [|done]. apply (Hd1 x Hy). set_solver. }
  destruct E as (l' & ? & ? & ? & HF). exists l'. split; [done|]. split_and!; try done.
  intros y Hy. rewrite HF by done. apply Hne. intros ->.
  apply (owned_frame _ _ _ x Ho Hy). set_solver.
Qed.

Lemma setIn_spec est pick m s l F k v t m' s' r :
  shard_rep m s l F -> setIn est pick m s k v t = (m', s', r) ->
  exists v', spec_set est s.(maxSize) (contents m.(cells) l) k v t = (v', r) /\
    goes_to m s F m' s' v'.
Proof.
  intros Hrep. pose proof Hrep as (Hl & Hi & Ho). pose proof (owned_nodup _ _ _ Ho) as Hnd.
  unfold setIn, spec_set. destruct (s.(items) !! k) as [x|] eqn:Hk.
  - destruct (lookup_split _ _ _ _ _ _ Hrep Hk) as (l1 & l2 & v0 & t0 & -> & Hx).
    destruct (find_present _ _ _ _ _ _ _ _ Hnd Hi Hx) as [-> Hwo].
    destruct (moveToFront _ s x) as [h1 s1] eqn:E. intros [= <- <- <-].
    eexists. split; [done|]. by eapply set_existing_spec.
  - destruct (find_absent _ _ _ _ Hl Hi Hk) as [Hnone _]. rewrite Hnone.
    rewrite (index_size _ _ _ Hnd Hl Hi), (length_contents _ _ _ Hl).
    set (full := (0 <? maxSize s) && _).
    assert (Hev : forall m1 s1,
      (if full then evictIn est m s k else (m, s)) = (m1, s1) ->
      goes_to m s F m1 s1 (if full then spec_evict est k (contents m.(cells) l)
                           else contents m.(cells) l)).
    { intros m1 s1 E. destruct full; [by apply evictIn_spec|].
      injection E as <- <-. by exists l. }
    destruct (if full then evictIn est m s k else (m, s)) as [m1 s1].
    destruct (Hev m1 s1 eq_refl) as (l1 & Hrep1 & Hc1 & Hmx1 & HF1).
    destruct (poolGet _ _ _) as [m2 x] eqn:Eg.
    destruct (addToFront _ _ x) as [h3 s3] eqn:Ea. intros [= <- <- <-].
    eexists. split; [done|].
    eapply (insert_new_spec m1 s1 l1 F k v t) in Ea as (l3 & ? & Hc3 & ? & HF3); [|done| |done].
    + exists l3. split; [done|]. rewrite Hc3, Hc1. split; [done|]. split; [congruence|].
      intros y Hy. rewrite HF3, HF1 by done. done.
    + apply (index_absent m1.(cells) s1 l1); [apply Hrep1|]. rewrite Hc1.
      intros p Hp. eapply find_item_None; [exact Hnone|].
      destruct full; [by apply (spec_evict_subset est k)|done].
Qed.
End lists.

Section whole.
Context {V : Type} `{XXH3}.
Abbreviation item := (string * V * Z)%type.
Implicit Types (c : Cache V).

(** * All shards together *)

Definition shard_ok (h : gmap nat (entry V)) (max : Z) (s : shard) (l : list nat) : Prop :=
  links h s l /\ index h s l /\ s.(maxSize) = max.

Definition cache_rep (max : Z) c (vs : list (list item)) : Prop :=
  exists ls, owned c.(mem) [] (concat ls) /\
    Forall2 (shard_ok c.(mem).(cells) max) c.(shards) ls /\
    vs = contents c.(mem).(cells) <$> ls.

Lemma concat_split (ls : list (list nat)) i l :
  ls !! i = Some l -> concat ls ≡ₚ l ++ concat (delete i ls).
Proof.
  intros Hl. rewrite delete_take_drop, concat_app.
  rewrite <- (take_drop_middle ls i l Hl) at 1. rewrite concat_app. simpl.
  rewrite !(Permutation_app_comm (concat (take i ls))). by rewrite app_assoc.
Qed.

Lemma delete_insert_same {A} (ls : list A) i l : delete i (<[i := l]> ls) = delete i ls.
Proof. rewrite !delete_take_drop, take_insert_ge, drop_insert_lt by lia. done. Qed.

Lemma owned_split (m : memory V) ls i l :
  ls !! i = Some l -> owned m [] (concat ls) <-> owned m l (concat (delete i ls)).
Proof.
  intros Hl.
  assert (Hp : l ++ entryPool m ++ concat (delete i ls) ≡ₚ entryPool m ++ concat ls).
  { rewrite (concat_split ls i l Hl). rewrite !(app_assoc _ l), !(app_assoc l).
    by rewrite (Permutation_app_comm l). }
  unfold owned. simpl. rewrite Hp. by setoid_rewrite Hp.
Qed.

Lemma cache_rep_shard max c vs i s :
  cache_rep max c vs -> c.(shards) !! i = Some s ->
  exists ls l, owned c.(mem) [] (concat ls) /\
    Forall2 (shard_ok c.(mem).(cells) max) c.(shards) ls /\
    vs = contents c.(mem).(cells) <$> ls /\ ls !! i = Some l /\
    shard_rep c.(mem) s l (concat (delete i ls)) /\ s.(maxSize) = max.
Proof.
  intros (ls & Ho & Hf & ->) Hs.
  destruct (Forall2_lookup_l _ _ _ _ _ Hf Hs) as (l & Hl & Hk & Hi & Hm).
  exists ls, l. split_and!; try done. split; [done|]. split; [done|].
  by apply (owned_split _ _ _ _ Hl).
Qed.

(** An operation on one shard updates one list of items. *)
Lemma cache_rep_update max c ls i s l m' s' v' :
  Forall2 (shard_ok c.(mem).(cells) max) c.(shards) ls ->
  c.(shards) !! i = Some s -> ls !! i = Some l -> s.(maxSize) = max ->
  goes_to c.(mem) s (concat (delete i ls)) m' s' v' ->
  cache_rep max (update c i m' s') (<[i := v']> (contents c.(mem).(cells) <$> ls)).
Proof.
  intros Hf Hs Hl Hmax (l' & (Hk' & Hi' & Ho') & Hc & Hm & HF).
  assert (Hin : (i < length ls)%nat) by (by eapply lookup_lt_Some).
  assert (Hsame : forall j lj, j <> i -> ls !! j = Some lj ->
            forall y, y ∈ lj -> m'.(cells) !! y = c.(mem).(cells) !! y).
  { intros j lj Hj Hlj y Hy. apply HF. apply list_elem_of_In, in_concat.
    exists lj. rewrite <- !list_elem_of_In. split; [|done]. apply list_elem_of_lookup.
    destruct (decide (j < i)%nat).
    - exists j. by rewrite list_lookup_delete_lt.
    - exists (j - 1)%nat. rewrite list_lookup_delete_ge by lia. by replace (S (j - 1)) with j by lia. }
  exists (<[i := l']> ls). split_and!.
  - eapply (owned_split _ _ i l'); [by apply list_lookup_insert_eq|].
    by rewrite delete_insert_same.
  - apply Forall2_same_length_lookup. simpl. split.
    { rewrite !length_insert. by eapply Forall2_length. }
    intros j sj lj Hsj Hlj. destruct (decide (j = i)) as [->|Hne].
    + assert (Hin' : (i < length c.(shards))%nat) by (by eapply lookup_lt_Some).
      rewrite list_lookup_insert_eq in Hsj by done.
      rewrite list_lookup_insert_eq in Hlj by done. simplify_eq.
      split; [done|]. split; [done|congruence].
    + rewrite list_lookup_insert_ne in Hsj by done.
      rewrite list_lookup_insert_ne in Hlj by done.
      destruct (Forall2_lookup_lr _ _ _ _ _ _ Hf Hsj Hlj) as ([Hd Hht] & Hidx & Hmx).
      split; [split; [|done]|split; [|done]].
      * eapply dll_frame; [|done]. eauto.
      * intros k x. rewrite (Hidx k x).
        split; intros (Hx & v & t & Hdt); (split; [done|]); exists v, t;
          unfold data_at in *; rewrite (Hsame j lj) in * by done; done.
  - simpl. apply list_eq. intros j. destruct (decide (j = i)) as [->|Hne].
    + rewrite list_lookup_insert_eq by (by rewrite length_fmap).
      rewrite list_lookup_fmap, list_lookup_insert_eq by done. simpl. by rewrite Hc.
    + rewrite list_lookup_insert_ne by done. rewrite !list_lookup_fmap.
      rewrite list_lookup_insert_ne by done.
      destruct (ls !! j) as [lj|] eqn:Hlj; [|done]. simpl. f_equal. symmetry.
      apply contents_ext. intros y Hy. unfold data_at. by rewrite (Hsame j lj).
Qed.

Lemma clearShards_spec max ss : forall (m : memory V) ls m' ss',
  Forall2 (shard_ok m.(cells) max) ss ls -> owned m [] (concat ls) ->
  clearShards m ss = (m', ss') ->
  m'.(cells) = m.(cells) /\ owned m' [] [] /\
  Forall2 (shard_ok m.(cells) max) ss' (replicate (length ss) []).
Proof.
  induction ss as [|s ss IH]; intros m ls m' ss' Hf Ho; cbn [clearShards].
  { intros [= <- <-]. apply Forall2_nil_inv_l in Hf as ->. done. }
  apply Forall2_cons_inv_l in Hf as (l & ls' & (Hl & Hi & Hm) & Hf & ->).
  destruct (clearIn m s) as [m1 s1] eqn:E1.
  destruct (clearShards m1 ss) as [m2 ss2] eqn:E2. intros [= <- <-].
  apply (clearIn_spec _ _ l (concat ls')) in E1 as (Hc1 & ? & ? & ? & Ho1).
  2:{ split; [done|]. split; [done|]. by apply (owned_split m (l :: ls') 0 l). }
  apply (IH m1 ls') in E2 as (Hc2 & Ho2 & Hf2); [|by rewrite Hc1|done].
  rewrite Hc2, Hc1 in *. split; [done|]. split; [done|]. constructor; [|done].
  split; [done|]. split; [done|congruence].
Qed.

(** * The abstract cache and its operations *)

Inductive cache_op :=
| OGet (now : Z) (key : string)
| OSet (now : Z) (pick : option nat) (key : string) (value : V) (ttl : Z)
| ODelete (key : string)
| ODel (key : string)
| OClear
| OLen
| OClose.

Inductive cache_res := RNone | RValue (v : option V) | RBool (b : bool) | RInt (n : Z).

Definition cache_do c (o : cache_op) : Cache V * cache_res :=
  match o with
  | OGet now key => let '(c, v) := CacheGet now c key in (c, RValue v)
  | OSet now pick key value ttl => (CacheSet now pick c key value ttl, RNone)
  | ODelete key => let '(c, b) := CacheDelete c key in (c, RBool b)
  | ODel key => (CacheDel c key, RNone)
  | OClear => (CacheClear c, RNone)
  | OLen => (c, RInt (CacheLen c))
  | OClose => (CacheClose c, RNone)
  end.

(** Lists of items, most recently used first; [slot] is the shard of a key. *)
Record rcache := {
  views : list (list item);
  cap : Z;
  slot : string -> option nat;
  rclosed : bool;
  lfu : TinyLFU;
}.

Definition set_views (vs : list (list item)) (r : rcache) : rcache :=
  {| views := vs; cap := r.(cap); slot := r.(slot); rclosed := r.(rclosed); lfu := r.(lfu) |}.
Definition set_lfu (f : TinyLFU -> TinyLFU) (r : rcache) : rcache :=
  {| views := r.(views); cap := r.(cap); slot := r.(slot); rclosed := r.(rclosed);
     lfu := f r.(lfu) |}.

Definition view_of (r : rcache) (key : string) : option (nat * list item) :=
  if r.(rclosed) then None
  else if decide (key = "") then None
  else i ← r.(slot) key; pair i <$> r.(views) !! i.

Definition spec_do (r : rcache) (o : cache_op) : rcache * cache_res :=
  match o with
  | OGet now key =>
      match view_of r key with
      | None => (r, RValue None)
      | Some (i, v) =>
          let '(v', x, hit) := spec_get now v key in
          let r := set_views (<[i := v']> r.(views)) r in
          (match hit with
           | Some b => set_lfu (fun t => RecordAccess t key b) r
           | None => r
           end, RValue x)
      end
  | OSet now _ key value ttl =>
      match view_of r key with
      | None => (r, RNone)
      | Some (i, v) =>
          let t := if 0 <? ttl then UnixNano (now + ttl) else 0 in
          let '(v', fresh) := spec_set (TinyEstimate r.(lfu)) r.(cap) v key value t in
          let r := set_views (<[i := v']> r.(views)) r in
          (if fresh then set_lfu (fun t => RecordAccess t key true) r else r, RNone)
      end
  | ODelete key =>
      match view_of r key with
      | None => (r, RBool false)
      | Some (i, v) =>
          let '(v', b) := spec_del v key in (set_views (<[i := v']> r.(views)) r, RBool b)
      end
  | ODel key =>
      match view_of r key with
      | None => (r, RNone)
      | Some (i, v) =>
          let '(v', _) := spec_del v key in (set_views (<[i := v']> r.(views)) r, RNone)
      end
  | OClear => (set_views (replicate (length r.(views)) []) r, RNone)
  | OLen => (r, RInt (Z.of_nat (sum_list_with length r.(views))))
  | OClose =>
      ({| views := r.(views); cap := r.(cap); slot := r.(slot); rclosed := true;
          lfu := r.(lfu) |}, RNone)
  end.

Definition sim c (r : rcache) : Prop :=
  cache_rep r.(cap) c r.(views) /\ c.(closed) = r.(rclosed) /\ c.(tinyLFU) = r.(lfu) /\
  forall key, getShard c key = r.(slot) key.

Lemma sim_lookup c r i s :
  sim c r -> c.(shards) !! i = Some s ->
  exists l F, shard_rep c.(mem) s l F /\ s.(maxSize) = r.(cap) /\
    r.(views) !! i = Some (contents c.(mem).(cells) l) /\
    forall m' s' v', goes_to c.(mem) s F m' s' v' ->
      sim (update c i m' s') (set_views (<[i := v']> r.(views)) r).
Proof.
  intros (Hrep & Hcl & Hlfu & Hslot) Hs.
  destruct (cache_rep_shard _ _ _ _ _ Hrep Hs) as (ls & l & Ho & Hf & Hv & Hl & Hsr & Hm).
  exists l, (concat (delete i ls)). split_and!; try done.
  - by rewrite Hv, list_lookup_fmap, Hl.
  - intros m' s' v' Hg. split; [|split_and!; try done].
    + simpl. rewrite Hv. by eapply cache_rep_update.
    + intros key. transitivity (getShard c key); [|apply Hslot].
      unfold getShard. simpl. by rewrite length_insert.
Qed.

Lemma sim_on c r key :
  sim c r ->
  match shardFor c key with
  | None => view_of r key = None
  | Some (i, s) =>
      exists l F, view_of r key = Some (i, contents c.(mem).(cells) l) /\
        shard_rep c.(mem) s l F /\ s.(maxSize) = r.(cap) /\
        forall m' s' v', goes_to c.(mem) s F m' s' v' ->
          sim (update c i m' s') (set_views (<[i := v']> r.(views)) r)
  end.
Proof.
  intros Hsim. pose proof Hsim as ((ls & _ & Hf & Hv) & Hcl & _ & Hslot).
  unfold shardFor, view_of. rewrite Hcl, Hslot. destruct (rclosed r); [done|].
  destruct (decide (key = "")); [done|].
  destruct (r.(slot) key) as [i|]; [|done]. simpl.
  destruct (c.(shards) !! i) as [s|] eqn:Hs; simpl.
  - destruct (sim_lookup _ _ _ _ Hsim Hs) as (l & F & ? & ? & Hvi & ?).
    exists l, F. by rewrite Hvi.
  - rewrite Hv, list_lookup_fmap.
    assert (ls !! i = None) as ->; [|done].
    apply lookup_ge_None. rewrite <- (Forall2_length _ _ _ Hf). by apply lookup_ge_None.
Qed.

Lemma sim_record c r key b :
  sim c r -> sim (record c key b) (set_lfu (fun t => RecordAccess t key b) r).
Proof. intros (? & ? & Hl & ?). split_and!; try done. simpl. by rewrite Hl. Qed.

Lemma sim_len c r :
  sim c r -> CacheLen c = Z.of_nat (sum_list_with length r.(views)).
Proof.
  intros ((ls & Ho & Hf & Hv) & _). rewrite Hv. unfold CacheLen.
  assert (Hnd : NoDup (concat ls)).
  { destruct Ho as [Ho _]. simpl in Ho. by apply NoDup_app in Ho as (_ & _ & ?). }
  clear Hv Ho. transitivity (0 + Z.of_nat (sum_list_with length
    (contents c.(mem).(cells) <$> ls))); [|done].
  generalize 0. revert ls Hf Hnd. induction c.(shards) as [|s ss IH]; intros ls Hf Hnd z.
  { apply Forall2_nil_inv_l in Hf as ->. simpl. lia. }
  apply Forall2_cons_inv_l in Hf as (l & ls' & (Hl & Hi & Hm) & Hf & ->).
  simpl in Hnd. apply NoDup_app in Hnd as (Hndl & _ & Hnd).
  cbn [fold_left fmap list_fmap sum_list_with foldr].
  rewrite (IH ls' Hf Hnd), (index_size _ _ _ Hndl Hl Hi), <- (length_contents _ _ _ Hl).
  unfold sum_list_with. simpl. lia.
Qed.

Lemma sim_step c r o :
  sim c r -> (cache_do c o).2 = (spec_do r o).2 /\ sim (cache_do c o).1 (spec_do r o).1.
Proof.
  intros Hsim. destruct o as [now key|now pick key v ttl|key|key| | |]; simpl.
  - unfold CacheGet. pose proof (sim_on c r key Hsim) as Hvw.
    destruct (shardFor c key) as [[i s]|]; [|by rewrite Hvw].
    destruct Hvw as (l & F & -> & Hrep & Hcap & Hup).
    destruct (getIn now (mem c) s key) as [[[m' s'] x] hit] eqn:E.
    destruct (getIn_spec _ _ _ _ _ _ _ _ _ _ Hrep E) as (v' & -> & Hg).
    apply Hup in Hg. destruct hit; simpl; [|done]. split; [done|]. by apply sim_record.
  - unfold CacheSet. pose proof (sim_on c r key Hsim) as Hvw.
    destruct (shardFor c key) as [[i s]|]; [|by rewrite Hvw].
    destruct Hvw as (l & F & -> & Hrep & Hcap & Hup).
    set (t := if 0 <? ttl then _ else 0).
    destruct (setIn (TinyEstimate (tinyLFU c)) pick (mem c) s key v t) as [[m' s'] b] eqn:E.
    destruct (setIn_spec _ _ _ _ _ _ _ _ _ _ _ _ Hrep E) as (v' & Hsp & Hg).
    pose proof Hsim as (_ & _ & Hlfu & _). rewrite Hlfu, Hcap in Hsp. rewrite Hsp.
    apply Hup in Hg. destruct b; simpl; [|done]. split; [done|]. by apply sim_record.
  - unfold CacheDelete. pose proof (sim_on c r key Hsim) as Hvw.
    destruct (shardFor c key) as [[i s]|]; [|by rewrite Hvw].
    destruct Hvw as (l & F & -> & Hrep & Hcap & Hup).
    destruct (delIn false (mem c) s key) as [[m' s'] b] eqn:E.
    destruct (delIn_spec _ _ _ _ _ _ _ _ _ Hrep E) as (v' & -> & Hg). by apply Hup in Hg.
  - unfold CacheDel. pose proof (sim_on c r key Hsim) as Hvw.
    destruct (shardFor c key) as [[i s]|]; [|by rewrite Hvw].
    destruct Hvw as (l & F & -> & Hrep & Hcap & Hup).
    destruct (delIn true (mem c) s key) as [[m' s'] b] eqn:E.
    destruct (delIn_spec _ _ _ _ _ _ _ _ _ Hrep E) as (v' & -> & Hg). by apply Hup in Hg.
  - split; [done|]. unfold CacheClear.
    destruct (clearShards (mem c) (shards c)) as [m' ss'] eqn:E.
    destruct Hsim as ((ls & Ho & Hf & Hv) & ? & ? & Hslot).
    destruct (clearShards_spec _ _ _ _ _ _ Hf Ho E) as (Hc & Ho' & Hf').
    assert (Hlen : length ss' = length (shards c)).
    { rewrite (Forall2_length _ _ _ Hf'). by rewrite length_replicate. }
    split; [|split_and!; try done].
    + exists (replicate (length (shards c)) []). simpl. split_and!.
      * assert (concat (replicate (length (shards c)) []) = @nil nat) as ->; [|done].
        clear. induction (length (shards c)); simpl; auto.
      * by rewrite Hc.
      * rewrite Hv, length_fmap, <- (Forall2_length _ _ _ Hf). by rewrite fmap_replicate.
    + intros key. transitivity (getShard c key); [|apply Hslot].
      unfold getShard. simpl. by rewrite Hlen.
  - split; [|done]. by rewrite (sim_len c r).
  - split; [done|]. destruct Hsim as (? & ? & ? & ?). done.
Qed.

(** * Runs *)

Fixpoint run {S O R} (step : S -> O -> S * R) (s : S) (ops : list O) : S * list R :=
  match ops with
  | [] => (s, [])
  | o :: ops =>
      let '(s, r) := step s o in
      let '(s, rs) := run step s ops in (s, r :: rs)
  end.

Lemma run_invariant {S O R} (step : S -> O -> S * R) (P : S -> Prop) s ops :
  (forall s o, P s -> P (step s o).1) -> P s -> P (run step s ops).1.
Proof.
  intros HP. revert s. induction ops as [|o ops IH]; intros s Hs; [done|]. cbn [run].
  specialize (HP s o Hs). destruct (step s o) as [s1 r1]. specialize (IH s1 HP).
  destruct (run step s1 ops). done.
Qed.

Lemma sim_run ops : forall c r,
  sim c r ->
  (run cache_do c ops).2 = (run spec_do r ops).2 /\
  sim (run cache_do c ops).1 (run spec_do r ops).1.
Proof.
  induction ops as [|o ops IH]; intros c r Hsim; [done|]. cbn [run].
  destruct (sim_step c r o Hsim) as [Hr Hs].
  destruct (cache_do c o) as [c1 r1], (spec_do r o) as [r2 s2]. simpl in Hr, Hs. subst s2.
  destruct (IH c1 r2 Hs) as [Hr' Hs'].
  destruct (run cache_do c1 ops), (run spec_do r2 ops). simpl in *. by subst.
Qed.

Definition spec_new (opts : Opts) : rcache :=
  {| views := replicate (Z.to_nat (shardCount opts)) []; cap := shardSize opts;
     slot := getShard (NewCache (V := V) opts); rclosed := false; lfu := NewTinyLFU |}.

Lemma sim_new opts : sim (NewCache opts) (spec_new opts).
Proof.
  split; [|done]. exists (replicate (Z.to_nat (shardCount opts)) []). split_and!.
  - assert (forall n, concat (replicate n []) = @nil nat) as ->.
    { induction n; simpl; auto. }
    split; [constructor|]. set_solver.
  - simpl. apply Forall2_replicate. split; [done|]. split; [|done].
    intros k x. simpl. rewrite lookup_empty. set_solver.
  - simpl. by rewrite fmap_replicate.
Qed.

(** * Capacity *)

Lemma length_without k (v : list item) : (length (without k v) <= length v)%nat.
Proof. apply length_filter. Qed.

Lemma length_without_lt k p (v : list item) :
  p ∈ v -> p.1.1 = k -> (length (without k v) < length v)%nat.
Proof.
  intros Hp Hk. induction v as [|q v IH]; [set_solver|]. unfold without in *.
  pose proof (length_without k v). unfold without in *.
  apply elem_of_cons in Hp as [->|Hp].
  - rewrite filter_cons_False by tauto. simpl. lia.
  - specialize (IH Hp). destruct (decide (q.1.1 = k)).
    + rewrite filter_cons_False by tauto. simpl. lia.
    + rewrite filter_cons_True by done. simpl. lia.
Qed.

Lemma find_item_Some k (v : list item) p : find_item k v = Some p -> p ∈ v /\ p.1.1 = k.
Proof.
  unfold find_item. intros Hh. destruct (base.filter _ v) eqn:E; [done|].
  injection Hh as ->. assert (Hp : p ∈ base.filter (fun p : item => p.1.1 = k) v)
    by (rewrite E; set_solver). apply list_elem_of_filter in Hp. tauto.
Qed.

Lemma tail_subset {A} (l : list A) : tail l ⊆ l.
Proof. destruct l; set_solver. Qed.

Lemma spec_victim_in est k (v : list item) :
  v <> [] -> exists p, p ∈ v /\ spec_victim est k v = Some p.1.1.
Proof.
  intros Hv. unfold spec_victim. destruct (last v) as [o|] eqn:E.
  2:{ by apply last_None in E. }
  assert (Ho : o ∈ v) by (apply last_Some in E as [l' ->]; set_solver).
  case_match; [|by exists o]. unfold colder.
  destruct (base.filter _ (reverse (tail v))) as [|q f] eqn:Ef; [by exists o|].
  exists q. split; [|done]. apply tail_subset. apply elem_of_reverse.
  assert (Hq : q ∈ base.filter (fun p : item => est p.1.1 < est k) (reverse (tail v)))
    by (rewrite Ef; set_solver). apply list_elem_of_filter in Hq. tauto.
Qed.

Lemma spec_set_cap est max (v : list item) k x t :
  1 <= max -> Z.of_nat (length v) <= max ->
  Z.of_nat (length (spec_set est max v k x t).1) <= max.
Proof.
  intros Hm Hv. unfold spec_set. destruct (find_item k v) as [p|] eqn:E.
  - apply find_item_Some in E as [Hp Hk]. pose proof (length_without_lt k p v Hp Hk).
    cbn [fst length]. lia.
  - cbn [fst length]. destruct (Z.ltb_spec 0 max); [|lia]. simpl.
    destruct (Z.leb_spec max (Z.of_nat (length v))); [|lia].
    destruct (spec_victim_in est k v) as (p & Hp & Hs); [intros ->; simpl in *; lia|].
    unfold spec_evict. rewrite Hs. pose proof (length_without_lt _ p v Hp eq_refl). lia.
Qed.

Definition within_cap (r : rcache) : Prop :=
  1 <= r.(cap) /\ Forall (fun v => Z.of_nat (length v) <= r.(cap)) r.(views).

Lemma view_of_lookup (r : rcache) key i v :
  view_of r key = Some (i, v) ->
  r.(views) !! i = Some v /\ r.(slot) key = Some i /\ key <> "" /\ r.(rclosed) = false.
Proof.
  unfold view_of. destruct (rclosed r); [done|]. destruct (decide (key = "")); [done|].
  destruct (slot r key) as [j|]; [|done]. simpl.
  destruct (views r !! j) eqn:E; [|done]. simpl. by intros [= <- <-].
Qed.

Lemma within_cap_step r o : within_cap r -> within_cap (spec_do r o).1.
Proof.
  intros [Hc Hf].
  assert (Hput : forall i v v', r.(views) !! i = Some v ->
    (Z.of_nat (length v) <= r.(cap) -> Z.of_nat (length v') <= r.(cap)) ->
    within_cap (set_views (<[i := v']> r.(views)) r)).
  { intros i v v' Hi Hv'. split; [done|]. simpl. apply Forall_insert; [done|].
    apply Hv'. by eapply Forall_lookup_1 in Hf. }
  assert (Hput' : forall i v v', r.(views) !! i = Some v ->
    (length v' <= length v)%nat -> within_cap (set_views (<[i := v']> r.(views)) r)).
  { intros. eapply Hput; [done|]. lia. }
  destruct o as [now key|now pick key x ttl|key|key| | |]; simpl;
    try (destruct (view_of r key) as [[i v]|] eqn:E; [|done];
         apply view_of_lookup in E as (E & _)).
  - unfold spec_get. destruct (find_item key v) as [[[k x] t]|] eqn:Ef.
    + apply find_item_Some in Ef as [Hp Hk]. pose proof (length_without_lt key _ v Hp Hk).
      destruct (expired now t); simpl; [eapply Hput'; [done|lia]|].
      apply (Hput' i v); [done|]. simpl. lia.
    + simpl. by apply (Hput' i v).
  - pose proof (spec_set_cap (TinyEstimate (lfu r)) (cap r) v key x
      (if 0 <? ttl then UnixNano (now + ttl) else 0) Hc) as Hset.
    destruct (spec_set _ _ v key x _) as [v' b]. simpl in Hset.
    apply (Hput i v) in Hset; [|done]. by destruct b.
  - unfold spec_del. destruct (find_item key v); cbn [fst]; apply (Hput' i v _ E);
      [apply length_without|done].
  - unfold spec_del. destruct (find_item key v); cbn [fst]; apply (Hput' i v _ E);
      [apply length_without|done].
  - split; [done|]. simpl. apply Forall_replicate. simpl. lia.
  - done.
  - done.
Qed.

Lemma within_cap_new opts : within_cap (spec_new opts).
Proof.
  assert (1 <= shardSize opts).
  { unfold shardSize. set (size := if Size opts <=? 0 then DefaultSize else Size opts).
    assert (0 < size) by (unfold size, DefaultSize; destruct (Z.leb_spec (Size opts) 0); lia).
    destruct (Z.ltb_spec (Z.quot size (shardCount opts)) 1); simpl; [|lia].
    destruct (Z.ltb_spec 0 size); lia. }
  split; [done|]. simpl. apply Forall_replicate. simpl. lia.
Qed.

Lemma sum_within r :
  within_cap r -> Z.of_nat (sum_list_with length r.(views)) <= r.(cap) * Z.of_nat (length r.(views)).
Proof.
  intros [Hc Hf]. induction Hf as [|v vs Hv _ IH]; [simpl; lia|].
  unfold sum_list_with in *. simpl in *. lia.
Qed.

(** * What a lookup may return *)

(** The last value set for each key and not removed since, with its expiry. *)
Definition latest_step (g : gmap string (V * Z)) (o : cache_op) : gmap string (V * Z) :=
  match o with
  | OSet now _ key value ttl =>
      <[key := (value, if 0 <? ttl then UnixNano (now + ttl) else 0)]> g
  | ODelete key | ODel key => delete key g
  | OClear => ∅
  | OGet _ _ | OLen | OClose => g
  end.
Definition latest (ops : list cache_op) : gmap string (V * Z) :=
  fold_left latest_step ops ∅.

(** Every item is in the shard of its key and carries the latest value. *)
Definition current (g : gmap string (V * Z)) (vs : list (list item))
    (slot : string -> option nat) : Prop :=
  forall i v p, vs !! i = Some v -> p ∈ v ->
    p.1.1 <> "" /\ slot p.1.1 = Some i /\ g !! p.1.1 = Some (p.1.2, p.2).

Lemma current_insert g vs slot i v v' :
  current g vs slot -> vs !! i = Some v -> v' ⊆ v -> current g (<[i := v']> vs) slot.
Proof.
  intros Hc Hi Hsub j w p Hj Hp. destruct (decide (j = i)) as [->|Hne].
  - rewrite list_lookup_insert_eq in Hj by (by eapply lookup_lt_Some).
    injection Hj as <-. eapply Hc; eauto.
  - rewrite list_lookup_insert_ne in Hj by done. eapply Hc; eauto.
Qed.

Lemma current_other g g' vs slot key :
  (forall k, k <> key -> g' !! k = g !! k) ->
  (forall i v p, vs !! i = Some v -> p ∈ v -> p.1.1 <> key) ->
  current g vs slot -> current g' vs slot.
Proof.
  intros Hg Hno Hc i v p Hi Hp. destruct (Hc i v p Hi Hp) as (? & ? & ?).
  split_and!; [done|done|]. rewrite Hg; eauto.
Qed.

(** Replacing the items of a key in its shard by at most one new item. *)
Lemma current_replace g g' vs slot i v key (new : list item) (rest : list item) :
  current g vs slot -> vs !! i = Some v -> slot key = Some i -> key <> "" ->
  (forall k, k <> key -> g' !! k = g !! k) ->
  (forall p, p ∈ new -> p.1.1 = key /\ g' !! key = Some (p.1.2, p.2)) ->
  rest ⊆ v -> (forall p, p ∈ rest -> p.1.1 <> key) ->
  current g' (<[i := new ++ rest]> vs) slot.
Proof.
  intros Hc Hi Hs Hne Hg Hnew Hsub Hrest j w p Hj Hp. destruct (decide (j = i)) as [->|Hji].
  - rewrite list_lookup_insert_eq in Hj by (by eapply lookup_lt_Some).
    injection Hj as <-. apply elem_of_app in Hp as [Hp|Hp].
    + destruct (Hnew p Hp) as [-> ?]. done.
    + destruct (Hc i v p Hi) as (? & ? & ?); [by apply Hsub|].
      split_and!; [done|done|]. rewrite Hg; auto.
  - rewrite list_lookup_insert_ne in Hj by done.
    destruct (Hc j w p Hj Hp) as (? & Hsl & ?). split_and!; [done|done|].
    rewrite Hg; [done|]. intros E. rewrite E in Hsl. congruence.
Qed.

Lemma without_subset k (v : list item) : without k v ⊆ v.
Proof. intros p [_ Hp]%list_elem_of_filter. done. Qed.

Lemma without_ne k (v : list item) p : p ∈ without k v -> p.1.1 <> k.
Proof. by intros [Hp _]%list_elem_of_filter. Qed.

Definition fresh_inv (g : gmap string (V * Z)) (r : rcache) : Prop :=
  r.(rclosed) = true \/ current g r.(views) r.(slot).

Lemma view_of_None r key i v p :
  view_of r key = None -> r.(rclosed) = false -> r.(views) !! i = Some v -> p ∈ v ->
  p.1.1 <> "" -> r.(slot) p.1.1 = Some i -> p.1.1 <> key.
Proof.
  unfold view_of. intros Hvw Hcl Hi Hp Hne Hs Hk. rewrite Hcl, <- Hk in Hvw.
  rewrite decide_False in Hvw by done. rewrite Hs in Hvw. simpl in Hvw. by rewrite Hi in Hvw.
Qed.

Lemma current_del g vs slot i v key :
  current g vs slot -> vs !! i = Some v -> slot key = Some i -> key <> "" ->
  current (delete key g) (<[i := (spec_del v key).1]> vs) slot.
Proof.
  intros Hc Hi Hs Hne.
  assert (Hrep : forall rest, rest ⊆ v -> (forall p, p ∈ rest -> p.1.1 <> key) ->
    current (delete key g) (<[i := rest]> vs) slot).
  { intros rest Hsub Hr. apply (current_replace g _ vs slot i v key []); try done.
    - intros. by rewrite lookup_delete_ne.
    - set_solver. }
  unfold spec_del. destruct (find_item key v) eqn:Ef; apply Hrep.
  - apply without_subset.
  - apply without_ne.
  - done.
  - by apply find_item_None.
Qed.

Lemma fresh_step g r o : fresh_inv g r -> fresh_inv (latest_step g o) (spec_do r o).1.
Proof.
  intros Hinv. destruct (r.(rclosed)) eqn:Hcl.
  { left. destruct o; simpl; unfold view_of; rewrite ?Hcl; done. }
  destruct Hinv as [?|Hc]; [congruence|].
  assert (Hnone : forall key g', view_of r key = None ->
    (forall k, k <> key -> g' !! k = g !! k) -> fresh_inv g' r).
  { intros key g' Hvw Hg. right. eapply current_other; [exact Hg| |exact Hc].
    intros i v p Hi Hp. destruct (Hc i v p Hi Hp) as (? & ? & _). by eapply view_of_None. }
  destruct o as [now key|now pick key x ttl|key|key| | |]; simpl;
    try (destruct (view_of r key) as [[i v]|] eqn:E;
         [apply view_of_lookup in E as (Hi & Hs & Hne & _)|
          eapply (Hnone key); [done|]; intros;
          rewrite ?lookup_insert_ne, ?lookup_delete_ne by done; done]).
  - right. unfold spec_get. destruct (find_item key v) as [[[k x] t]|] eqn:Ef.
    + pose proof Ef as [Hp Hk]%find_item_Some. simpl in Hk. subst k.
      destruct (expired now t); simpl; [by eapply current_insert; eauto using without_subset|].
      apply (current_replace g g (views r) (slot r) i v key [(key, x, t)]);
        auto using without_subset; [|by intros ? ?%without_ne].
      intros p ->%list_elem_of_singleton. split; [done|].
      by destruct (Hc i v _ Hi Hp) as (_ & _ & ?).
    + simpl. eapply current_insert; eauto.
  - right. set (t := if 0 <? ttl then _ else 0).
    assert (Hcur : current (<[key := (x, t)]> g)
      (<[i := (spec_set (TinyEstimate (lfu r)) (cap r) v key x t).1]> (views r)) (slot r)).
    { unfold spec_set. destruct (find_item key v) as [p0|] eqn:Ef; cbn [fst].
      - apply (current_replace g _ (views r) (slot r) i v key [(key, x, t)]);
          auto using without_subset.
        + intros. by rewrite lookup_insert_ne.
        + intros p ->%list_elem_of_singleton. by rewrite lookup_insert_eq.
        + by intros ? ?%without_ne.
      - apply (current_replace g _ (views r) (slot r) i v key [(key, x, t)]); auto.
        + intros. by rewrite lookup_insert_ne.
        + intros p ->%list_elem_of_singleton. by rewrite lookup_insert_eq.
        + case_match; [apply spec_evict_subset|done].
        + intros p Hp. eapply find_item_None; [done|].
          revert p Hp. case_match; [apply spec_evict_subset|done]. }
    destruct (spec_set _ _ v key x t) as [v' b]. by destruct b.
  - right. pose proof (current_del g (views r) (slot r) i v key Hc Hi Hs Hne) as Hd.
    by destruct (spec_del v key).
  - right. pose proof (current_del g (views r) (slot r) i v key Hc Hi Hs Hne) as Hd.
    by destruct (spec_del v key).
  - right. intros i v p Hi Hp. simpl in Hi. apply lookup_replicate in Hi as [-> _]. set_solver.
  - by right.
  - by left.
Qed.

Lemma fresh_run ops opts : fresh_inv (latest ops) (run spec_do (spec_new opts) ops).1.
Proof.
  assert (Hrun : forall ops g r, fresh_inv g r ->
            fresh_inv (fold_left latest_step ops g) (run spec_do r ops).1).
  { clear. induction ops as [|o ops IH]; intros g r Hinv; [done|]. cbn [run fold_left].
    apply (fresh_step _ _ o) in Hinv. destruct (spec_do r o) as [r1 x]. simpl in Hinv.
    specialize (IH _ _ Hinv). by destruct (run spec_do r1 ops). }
  apply Hrun. right. intros i v p Hi Hp. simpl in Hi.
  apply lookup_replicate in Hi as [-> _]. set_solver.
Qed.

(** A hit returns an item of the abstract cache, hence the latest one. *)
Lemma sim_lookup_fresh c r g now key v :
  sim c r -> fresh_inv g r -> (CacheGet now c key).2 = Some v ->
  exists t, g !! key = Some (v, t) /\ expired now t = false.
Proof.
  intros Hsim Hfresh Hget. destruct (sim_step c r (OGet now key) Hsim) as [Hres _].
  simpl in Hres. destruct (CacheGet now c key) as [c' x]. simpl in *. subst x.
  destruct (view_of r key) as [[i w]|] eqn:E; [|done].
  apply view_of_lookup in E as (Hi & Hs & Hne & Hcl).
  destruct Hfresh as [?|Hc]; [congruence|]. unfold spec_get in Hres.
  destruct (find_item key w) as [[[k x] t]|] eqn:Ef; [|done].
  apply find_item_Some in Ef as [Hp Hk]. simpl in Hk. subst k.
  destruct (expired now t) eqn:Ex; [done|]. injection Hres as [= ->].
  exists t. split; [|done]. by apply (Hc i w _ Hi Hp).
Qed.

(** * Which shard a key has *)

Lemma nextPow2_pow2 n : 1 < n <= 2 ^ 62 ->
  exists k, 0 <= k <= 62 /\ nextPow2 n = 2 ^ k /\ n <= 2 ^ k < 2 * n.
Proof.
  intros Hn. unfold nextPow2. destruct (Z.leb_spec n 1); [lia|]. cbv zeta.
  set (L := Z.log2 (n - 1)). pose proof (Z.log2_nonneg (n - 1)) as HL0.
  pose proof (Z.log2_spec (n - 1) ltac:(lia)) as HL. rewrite <- Z.add_1_r in HL. fold L in HL, HL0.
  assert (HL62 : L < 62) by (apply Z.log2_lt_pow2; lia).
  pose proof (smear_all L (n - 1) HL0 ltac:(lia) ltac:(lia) eq_refl) as Hs.
  unfold smear in Hs. rewrite Hs, Z.sub_add.
  assert (Hp : 2 ^ (L + 1) <= 2 ^ 62) by (apply Z.pow_le_mono_r; lia).
  exists (L + 1). split; [lia|].
  split; [|rewrite Z.pow_add_r in HL |- * by lia; lia]. apply sint_id; [lia|].
  pose proof (pow2_pos (L + 1)). unfold is_sint. lia.
Qed.

Lemma shardCount_range opts :
  opts.(Shards) <= 2 ^ 31 -> 1 <= shardCount opts < 2 ^ 32.
Proof.
  intros Hs. unfold shardCount.
  set (n := if Shards opts <=? 0 then DefaultShards else Shards opts).
  assert (Hn : 1 <= n <= 2 ^ 31).
  { unfold n, DefaultShards. destruct (Z.leb_spec (Shards opts) 0); lia. }
  destruct (isPow2 n) eqn:E; simpl; [lia|].
  assert (n <> 1) by (intros E1; rewrite E1 in E; done).
  destruct (nextPow2_pow2 n) as (k & Hk & -> & Hle); [lia|]. lia.
Qed.

Lemma getShard_total opts key :
  opts.(Shards) <= 2 ^ 31 ->
  exists i, getShard (NewCache (V := V) opts) key = Some i /\
    (i < Z.to_nat (shardCount opts))%nat.
Proof.
  intros Hs. pose proof (shardCount_range opts Hs) as Hn. unfold getShard. simpl.
  rewrite length_replicate, Z2Nat.id by lia.
  destruct (Nat.eqb_spec (Z.to_nat (shardCount opts)) 0); [lia|].
  rewrite !(uint_id 32 (shardCount opts)), (uint_id 32 (shardCount opts - 1))
    by (unfold is_uint; lia).
  set (x := uint 32 _). assert (0 <= x) by (apply uint_range; lia).
  pose proof (land_mask x (shardCount opts - 1)).
  destruct (Z.leb_spec (shardCount opts) (Z.land x (shardCount opts - 1))); [lia|].
  eexists. split; [done|]. lia.
Qed.

(** The parts of the abstract cache that no operation changes. *)
Lemma spec_static r o :
  (spec_do r o).1.(slot) = r.(slot) /\
  length (spec_do r o).1.(views) = length r.(views).
Proof.
  destruct o as [now key|now pick key x ttl|key|key| | |]; simpl;
    try (destruct (view_of r key) as [[i v]|]; [|done]).
  - destruct (spec_get now v key) as [[v' x] [b|]]; simpl; by rewrite length_insert.
  - destruct (spec_set _ _ v key x _) as [v' [|]]; simpl; by rewrite length_insert.
  - destruct (spec_del v key). simpl. by rewrite length_insert.
  - destruct (spec_del v key). simpl. by rewrite length_insert.
  - by rewrite length_replicate.
  - done.
  - done.
Qed.

Lemma open_stays ops : forall r,
  r.(rclosed) = false -> OClose ∉ ops -> (run spec_do r ops).1.(rclosed) = false.
Proof.
  induction ops as [|o ops IH]; intros r Hr Ho; [done|]. cbn [run].
  assert (H1 : (spec_do r o).1.(rclosed) = false).
  { destruct o as [now key|now pick key x ttl|key|key| | |]; simpl;
      try (destruct (view_of r key) as [[i v]|]; [|done]); try done.
    - by destruct (spec_get now v key) as [[v' x] [b|]].
    - by destruct (spec_set _ _ v key x _) as [v' [|]].
    - by destruct (spec_del v key).
    - by destruct (spec_del v key).
    - set_solver. }
  destruct (spec_do r o) as [r1 x]. simpl in H1.
  specialize (IH r1 H1 ltac:(set_solver)). by destruct (run spec_do r1 ops).
Qed.

Lemma spec_set_get r now pick key v ttl now' i w :
  view_of r key = Some (i, w) ->
  expired now' (if 0 <? ttl then UnixNano (now + ttl) else 0) = false ->
  (spec_do (spec_do r (OSet now pick key v ttl)).1 (OGet now' key)).2 = RValue (Some v).
Proof.
  intros Hvw Hex. cbn [spec_do]. rewrite Hvw.
  pose proof Hvw as (Hi & Hs & Hne & Hcl)%view_of_lookup.
  set (t := if 0 <? ttl then _ else 0) in *.
  assert (exists rest b, spec_set (TinyEstimate (lfu r)) (cap r) w key v t
                         = ((key, v, t) :: rest, b)) as (rest & b & ->).
  { unfold spec_set. destruct (find_item key w); eauto. }
  set (r' := if b then _ else _).
  assert (view_of r' key = Some (i, (key, v, t) :: rest)) as Hvw'.
  { unfold view_of, r'. destruct b; simpl; rewrite Hcl, decide_False by done; rewrite Hs; simpl;
      by rewrite list_lookup_insert_eq by (by eapply lookup_lt_Some). }
  cbn [fst]. rewrite Hvw'. unfold spec_get, find_item.
  rewrite filter_cons_True by done. cbn [head]. by rewrite Hex.
Qed.

(** C12. The cache, with its cells, pointers, recycled entries, key maps and
    eviction loop, returns on every sequence of operations exactly what lists
    of items in order of use return: a hit moves the item to the front, an
    expired item is removed when it is read, and a new key that does not fit
    evicts the oldest item or, when that one is more frequent than the new
    key, the oldest less frequent one.  The number of items never exceeds the
    number of shards times the size of a shard. *)
Theorem cache_refines opts (ops : list cache_op) :
  (run cache_do (NewCache opts) ops).2 = (run spec_do (spec_new opts) ops).2 /\
  CacheLen (run cache_do (NewCache opts) ops).1
    <= shardSize opts * Z.max 0 (shardCount opts).
Proof.
  destruct (sim_run ops _ _ (sim_new opts)) as [Hres Hsim]. split; [done|].
  rewrite (sim_len _ _ Hsim).
  assert (Hcap : within_cap (run spec_do (spec_new opts) ops).1).
  { apply run_invariant; [intros; by apply within_cap_step|apply within_cap_new]. }
  apply sum_within in Hcap.
  set (P := fun r : rcache => r.(cap) = shardSize opts /\
              length r.(views) = Z.to_nat (shardCount opts)).
  assert (HP : P (run spec_do (spec_new opts) ops).1).
  { apply run_invariant.
    - intros r o [H1 H2]. split; [|by rewrite (proj2 (spec_static r o))].
      rewrite <- H1. clear. destruct o as [now key|now pick key x ttl|key|key| | |]; simpl;
        try (destruct (view_of r key) as [[i v]|]; [|done]); try done.
      + by destruct (spec_get now v key) as [[v' x] [b|]].
      + by destruct (spec_set _ _ v key x _) as [v' [|]].
      + by destruct (spec_del v key).
      + by destruct (spec_del v key).
    - split; [done|]. simpl. by rewrite length_replicate. }
  destruct HP as [Hc Hlen]. rewrite Hc, Hlen in Hcap.
  replace (Z.max 0 (shardCount opts)) with (Z.of_nat (Z.to_nat (shardCount opts))) by lia.
  done.
Qed.

(** What a lookup of the cache may return, after any operations: only the
    value of the last [Set] of the key, with no [Del], [Delete] or [Clear]
    since, and only while it has not expired.  And a lookup right after a
    [Set], on a cache that was not closed, finds the value it stored, if that
    has not expired yet. *)
Theorem cache_fresh opts (ops : list cache_op) :
  let c := (run cache_do (NewCache opts) ops).1 in
  (forall now key v, (CacheGet now c key).2 = Some v ->
     exists t, latest ops !! key = Some (v, t) /\ expired now t = false) /\
  (forall now pick key v ttl now',
     opts.(Shards) <= 2 ^ 31 -> key <> "" -> OClose ∉ ops ->
     expired now' (if 0 <? ttl then UnixNano (now + ttl) else 0) = false ->
     (CacheGet now' (CacheSet now pick c key v ttl) key).2 = Some v).
Proof.
  intros c. destruct (sim_run ops _ _ (sim_new opts)) as [_ Hsim]. fold c in Hsim.
  pose proof (fresh_run ops opts) as Hfresh.
  set (r := (run spec_do (spec_new opts) ops).1) in *. split.
  - intros now key v. by apply (sim_lookup_fresh c r).
  - intros now pick key v ttl now' Hopts Hne Hno Hex.
    set (t := if 0 <? ttl then _ else 0) in *.
    destruct (sim_step c r (OSet now pick key v ttl) Hsim) as [_ Hsim2].
    destruct (sim_step _ _ (OGet now' key) Hsim2) as [Hres _].
    set (P := fun r : rcache => r.(slot) = getShard (NewCache (V := V) opts) /\
                length r.(views) = Z.to_nat (shardCount opts)).
    assert (HP : P r).
    { apply run_invariant.
      - intros r0 o [H1 H2]. destruct (spec_static r0 o) as [Hs1 Hs2]. split; congruence.
      - split; [done|]. simpl. by rewrite length_replicate. }
    destruct HP as [Hslot Hlen].
    assert (Hcl : r.(rclosed) = false) by (by apply open_stays).
    destruct (getShard_total opts key Hopts) as (i & Hi & Hlt).
    destruct (lookup_lt_is_Some_2 r.(views) i) as [w Hw]; [lia|].
    rewrite (spec_set_get r now pick key v ttl now' i w) in Hres; [| |done].
    + cbn [cache_do fst] in Hres. destruct (CacheGet now' _ key) as [c' x].
      simpl in *. congruence.
    + unfold view_of. rewrite Hcl, decide_False by done. rewrite Hslot, Hi. simpl.
      by rewrite Hw.
Qed.
End whole.

#[local] Existing Instance ToyHash.xxh3.

(** A cache of one shard with room for two items: the third key evicts the
    second, because the first was read in between; an expired value is not
    returned. *)
Lemma cache_fresh_witness :
  let ops := [OSet 10 None "a" 1 0; OSet 11 None "b" 2 5; OGet 12 "a"; OSet 13 None "c" 3 0] in
  let c := (run cache_do (NewCache {| Shards := 1; Size := 2 |}) ops).1 in
  (run cache_do (NewCache {| Shards := 1; Size := 2 |}) (ops ++ [OGet 14 "b"; OGet 15 "a"])).2
    = [RNone; RNone; RValue (Some 1); RNone; RValue None; RValue (Some 1)] /\
  (exists t, latest ops !! "a" = Some (1, t) /\ expired 15 t = false) /\
  (CacheGet 21 (CacheSet 20 None c "d" 4 2) "d").2 = Some 4.
Proof.
  destruct (cache_fresh {| Shards := 1; Size := 2 |}
    [OSet 10 None "a" 1 0; OSet 11 None "b" 2 5; OGet 12 "a"; OSet 13 None "c" 3 0])
    as [H1 H2].
  split; [vm_compute; reflexivity|]. split.
  - apply (H1 15 "a" 1). vm_compute. reflexivity.
  - apply (H2 20 None "d" 4 2 21); [done|done| |reflexivity].
    rewrite !not_elem_of_cons. split_and!; try done. apply not_elem_of_nil.
Defined.
