(* ===== verification/Reader.v ===== *)
(** * The read path

    internal/cluster/reader.go: [Get] through cache, local store and replicas,
    [BatchGet], the parallel reads [GetSpeculative] and [GetWithConsistency],
    read repair and its rate limiter.  What a replica answers, the order in
    which parallel answers arrive, whether the executor accepts a task and
    when a context is cancelled are arguments; a read that waits for answers
    that cannot come is [Waiting]. *)

From Stdlib Require Import Strings.Byte.
From S2P Require Import Prelude StoredItem Compress MemStorage Codec HashRing Member.
From S2P Require Import TinyLfu Cache CacheProps.

(** Errors a read function returns: those of the store, or of the network. *)
Inductive readErr := errStore (e : storageErr) | errNetwork.

#[export] Instance readErr_eq_dec : EqDecision readErr.
Proof. solve_decision. Defined.

(** What happens to one remote read of [Get]: an answer, the deadline, or an
    answer that came after the deadline and was discarded. *)
Inductive reply :=
| Answer (item : option StoredItem) (err : option readErr)
| TimedOut
| Discarded.

(** The result of reading one replica: an item and an error, either nil. *)
Definition answer : Type := option StoredItem * option readErr.

(** * The rate limiter of read repair *)

Record rateLimiter := { rl_rate : Z; rl_tokens : Z; rl_last : Z }.

Definition newRateLimiter (ratePerSec now : Z) : rateLimiter :=
  {| rl_rate := ratePerSec; rl_tokens := ratePerSec; rl_last := UnixNano now |}.

Definition Allow (now : Z) (rl : rateLimiter) : rateLimiter * bool :=
  let now := UnixNano now in
  let elapsed := sint 64 (now - rl.(rl_last)) in
  let t := sint 64 (rl.(rl_tokens) + Z.quot (sint 64 (elapsed * rl.(rl_rate))) Second) in
  let t := if rl.(rl_rate) <? t then rl.(rl_rate) else t in
  if 1 <=? t then ({| rl_rate := rl.(rl_rate); rl_tokens := t - 1; rl_last := now |}, true)
  else ({| rl_rate := rl.(rl_rate); rl_tokens := t; rl_last := now |}, false).

(** * Read repair *)

Record readRepair := { rr_writer : bool; rr_limiter : rateLimiter }.

Definition newReadRepair (writer : bool) (rateLimitPerSec now : Z) : readRepair :=
  let n := if rateLimitPerSec <=? 0 then 100 else rateLimitPerSec in
  {| rr_writer := writer; rr_limiter := newRateLimiter n now |}.

(** The write a repair submits, [writer.Set(key, maxVersion)], if any. *)
Definition Repair (accepts : bool) (now : Z) (key : string) (versions : list StoredItem)
    (rr : readRepair) : readRepair * option (string * StoredItem) :=
  match versions with
  | [] => (rr, None)
  | v0 :: rest =>
      let maxVersion := fold_left (fun m item =>
        if 0 <? CompareVersion item (Some m) then item else m) rest v0 in
      let '(rl, ok) := Allow now rr.(rr_limiter) in
      let rr := {| rr_writer := rr.(rr_writer); rr_limiter := rl |} in
      if negb ok then (rr, None)
      else if rr.(rr_writer) && accepts then (rr, Some (key, maxVersion))
      else (rr, None)
  end.

(** * The reader *)

Record reader := mkReader {
  rd_nodeID : string;
  rd_store : MemStorage;
  rd_ring : hashRing;
  rd_member : option memberMgr;
  rd_cache : option (Cache StoredItem);
  rd_repair : option readRepair;
  rd_cacheTTL : Z;
  rd_replicaCount : Z;
}.

Definition newReader (nodeID : string) (store : MemStorage) (ring : hashRing)
    (member : option memberMgr) (cache : option (Cache StoredItem))
    (repair : option readRepair) (cacheTTL replicaCount : Z) : reader :=
  mkReader nodeID store ring member cache repair
    (if cacheTTL <=? 0 then 15 * Millisecond else cacheTTL)
    (if replicaCount <=? 0 then 3 else replicaCount).

Definition rd_set_store (s : MemStorage) (r : reader) : reader :=
  mkReader r.(rd_nodeID) s r.(rd_ring) r.(rd_member) r.(rd_cache) r.(rd_repair)
    r.(rd_cacheTTL) r.(rd_replicaCount).
Definition rd_set_cache (c : option (Cache StoredItem)) (r : reader) : reader :=
  mkReader r.(rd_nodeID) r.(rd_store) r.(rd_ring) r.(rd_member) c r.(rd_repair)
    r.(rd_cacheTTL) r.(rd_replicaCount).
Definition rd_set_repair (rr : option readRepair) (r : reader) : reader :=
  mkReader r.(rd_nodeID) r.(rd_store) r.(rd_ring) r.(rd_member) r.(rd_cache) rr
    r.(rd_cacheTTL) r.(rd_replicaCount).

Section reads.
Context `{XXH3, LZ4} (poolCap : Z).

(** [r.cache.Get] when there is a cache. *)
Definition cacheLookup (now : Z) (r : reader) (key : string) : reader * option StoredItem :=
  match r.(rd_cache) with
  | None => (r, None)
  | Some c => let '(c, v) := CacheGet now c key in (rd_set_cache (Some c) r, v)
  end.

(** [r.cache.Set(key, item, r.cacheTTL)] when there is a cache. *)
Definition cacheFill (now : Z) (pick : option nat) (r : reader) (key : string)
    (item : StoredItem) : reader :=
  match r.(rd_cache) with
  | None => r
  | Some c => rd_set_cache (Some (CacheSet now pick c key item r.(rd_cacheTTL))) r
  end.

(** The replicas [Get] asks: not this node, and alive when membership is known. *)
Definition askable (r : reader) (target : string) : bool :=
  negb (bool_decide (target = r.(rd_nodeID))) &&
  match r.(rd_member) with
  | Some m => MemberState m target =? NodeStateAlive
  | None => true
  end.

Definition getTargetsAlive (r : reader) (targets : list string) : list string :=
  filter (fun target => askable r target = true) targets.

(** A usable answer: no error, not a tombstone, not empty. *)
Definition usable (item : option StoredItem) (err : option readErr) : option StoredItem :=
  match err, item with
  | None, Some i =>
      if negb (IsTombstone i) && negb (slice_len (si_Value i) =? 0) then Some i else None
  | _, _ => None
  end.

(** The loop over the replicas; [item] and [err] keep the last values written
    to them, [responded] and [neterr] are the flags of the code. *)
Fixpoint askReplicas (remote : string -> reply) (targets : list string)
    (item : option StoredItem) (err : option readErr) (responded neterr : bool)
    : option StoredItem * bool * bool :=
  match targets with
  | [] => (None, responded, neterr)
  | t :: targets =>
      let judge item err :=
        match usable item err with
        | Some i => (Some i, responded, neterr)
        | None =>
            let answered :=
              match err with
              | None | Some (errStore ErrNotFound) | Some (errStore ErrExpired) => true
              | Some _ => false
              end in
            askReplicas remote targets item err (responded || answered)
              (neterr || negb answered)
        end in
      match remote t with
      | Answer item err => judge item err
      | Discarded => judge item err
      | TimedOut => askReplicas remote targets item err responded true
      end
  end.

(** The remote part of [Get], after the local read failed with [e]. *)
Definition readRemote (now3 : Z) (pick : option nat) (remote : option (string -> reply))
    (r : reader) (key : string) (e : storageErr) : reader * option StoredItem :=
  let targets := GetN r.(rd_ring) key r.(rd_replicaCount) in
  if (length targets =? 0)%nat then (r, None)
  else
    match getTargetsAlive r targets, remote with
    | [], _ | _, None => (r, None)
    | alive, Some remote =>
        let '(found, responded, neterr) :=
          askReplicas remote alive None (Some (errStore e)) false false in
        match found with
        | None => if responded || negb neterr then (r, None) else (r, None)
        | Some item => (cacheFill now3 pick r key item, DeepCopy (Some item))
        end
    end.

(** [now1], [now2], [now3]: the clock at the cache lookup, at the local read
    and at the insertion into the cache.  [remote] is [r.getFunc], nil when
    it is [None]. *)
Definition ReaderGet (now1 now2 now3 : Z) (pick : option nat)
    (remote : option (string -> reply)) (r : reader) (key : string)
    : reader * (storageErr + option StoredItem) :=
  let '(r, cached) := cacheLookup now1 r key in
  match cached with
  | Some item => (r, inr (DeepCopy (Some item)))
  | None =>
      let '(s, res) := StoreGet poolCap r.(rd_store) key now2 in
      let r := rd_set_store s r in
      match res with
      | inr item => (r, inr (Some item))
      | inl e =>
          if bool_decide (e = ErrNotFound) || bool_decide (e = ErrExpired)
          then let '(r, item) := readRemote now3 pick remote r key e in (r, inr item)
          else (r, inl e)
      end
  end.

(** [BatchGet]: the tasks run one after the other here; [accepts] is the number
    of tasks the executor takes before it refuses one, after which the loop
    stops. *)
Fixpoint batchGetLoop (accepts : nat) (get : reader -> string -> reader * (storageErr + option StoredItem))
    (r : reader) (keys : list string) (result : gmap string StoredItem)
    : reader * gmap string StoredItem :=
  match accepts, keys with
  | S accepts, key :: keys =>
      let '(r, res) := get r key in
      let result := match res with inr (Some item) => <[key := item]> result | _ => result end in
      batchGetLoop accepts get r keys result
  | _, _ => (r, result)
  end.

Definition ReaderBatchGet (accepts : nat) (now1 now2 now3 : Z) (pick : option nat)
    (remote : option (string -> reply)) (r : reader) (keys : list string)
    : reader * gmap string StoredItem :=
  batchGetLoop accepts (ReaderGet now1 now2 now3 pick remote) r keys ∅.

(** * Parallel reads *)

Inductive outcome := Returned (item : option StoredItem) | Failed (e : storageErr)
  | Waiting | Panicked.

Definition aliveOrSelf (r : reader) (m : memberMgr) (targets : list string) : list string :=
  filter (fun target => MemberState m target = NodeStateAlive \/ target = r.(rd_nodeID)) targets.

(** The task for one replica: the local store or [getFunc]; a nil [getFunc]
    leaves both results nil. *)
Definition readReplica (now : Z) (remote : option (string -> answer))
    (s : MemStorage) (self target key : string)
    : MemStorage * answer :=
  if decide (target = self) then
    let '(s, res) := StoreGet poolCap s key now in
    (s, match res with inr i => (Some i, None) | inl e => (None, Some (errStore e)) end)
  else (s, match remote with Some f => f target | None => (None, None) end).

Fixpoint readReplicas (now : Z) (remote : option (string -> answer))
    (s : MemStorage) (self key : string) (targets : list string)
    : MemStorage * list answer :=
  match targets with
  | [] => (s, [])
  | t :: targets =>
      let '(s, a) := readReplica now remote s self t key in
      let '(s, l) := readReplicas now remote s self key targets in (s, a :: l)
  end.

(** The collection loop: the best item so far, and all usable ones. *)
Definition collect (acc : option StoredItem * list StoredItem)
    (res : answer) : option StoredItem * list StoredItem :=
  let '(best, items) := acc in
  match usable res.1 res.2 with
  | Some i =>
      (match best with
       | None => Some i
       | Some b => if 0 <? CompareVersion i (Some b) then Some i else best
       end, items ++ [i])
  | None => acc
  end.

(** The repair of the items of one read, when their versions differ. *)
Definition maybeRepair (accepts : bool) (now : Z) (r : reader) (key : string)
    (items : list StoredItem) : reader * option (string * StoredItem) :=
  match r.(rd_repair) with
  | Some rr =>
      if (1 <? length items)%nat && (1 <? size (list_to_set (C := gset Z) (si_Version <$> items)))%nat
      then let '(rr, w) := Repair accepts now key items rr in
           (rd_set_repair (Some rr) r, w)
      else (r, None)
  | None => (r, None)
  end.

(** [accepted]: how many tasks the executor takes; [arrival] permutes the
    answers of the tasks it took; [cancelled]: after how many answers the
    context is cancelled, if ever. *)
Definition ReaderGetSpeculative (now nowRepair : Z) (acceptRepair : bool) (accepted : nat)
    (arrival : list answer -> list answer) (cancelled : option nat)
    (remote : option (string -> answer))
    (r : reader) (key : string) (n : Z) : reader * outcome * option (string * StoredItem) :=
  if decide (key = ""%string) then
    let '(s, res) := StoreGet poolCap r.(rd_store) key now in
    (rd_set_store s r, match res with inl e => Failed e | inr _ => Returned None end, None)
  else
    let n := if n <=? 0 then 3 else n in
    let targets := GetN r.(rd_ring) key n in
    if (length targets =? 0)%nat then (r, Returned None, None)
    else
      match r.(rd_member) with
      | None => (r, Panicked, None)
      | Some m =>
          let alive := aliveOrSelf r m targets in
          if (length alive =? 0)%nat then (r, Returned None, None)
          else
            let '(s, answers) :=
              readReplicas now remote r.(rd_store) r.(rd_nodeID) key (take accepted alive) in
            let r := rd_set_store s r in
            let wanted := match cancelled with
                          | Some k => Nat.min k (length alive)
                          | None => length alive
                          end in
            if (length answers <? wanted)%nat then (r, Waiting, None)
            else
              let '(best, items) := fold_left collect (take wanted (arrival answers)) (None, []) in
              let '(r, w) := maybeRepair acceptRepair nowRepair r key items in
              (r, Returned (DeepCopy best), w)
      end.

Inductive ConsistencyLevel := LevelOne | LevelQuorum | LevelAll | LevelOther.

(** The loop of [GetWithConsistency]: at most [bound] answers, until [required]
    usable ones have come; without an answer it waits for the context. *)
Fixpoint collectUntil (bound required : nat) (cancelled : bool)
    (answers : list answer) (items : list StoredItem)
    : option (list StoredItem) :=
  match bound with
  | O => Some items
  | S bound =>
      if (length items <? required)%nat then
        match answers with
        | [] => if cancelled then Some items else None
        | res :: answers =>
            collectUntil bound required cancelled answers
              (items ++ option_list (usable res.1 res.2))
        end
      else Some items
  end.

Definition highest (items : list StoredItem) : option StoredItem :=
  fold_left (fun best i =>
    match best with
    | None => Some i
    | Some b => if 0 <? CompareVersion i (Some b) then Some i else best
    end) items None.

(** [aliveTargets] is the slice the code takes from the pool before it appends
    to the pooled one: it stays empty, and both the number of responses
    required at level All and the bound of the loop are its length. *)
Definition ReaderGetWithConsistency (now now3 nowRepair : Z) (pick : option nat)
    (acceptRepair : bool) (accepted : nat) (arrival : list answer -> list answer)
    (cancelled : bool)
    (remote : option (string -> answer))
    (r : reader) (key : string) (level : ConsistencyLevel)
    : reader * outcome * option (string * StoredItem) :=
  if decide (key = ""%string) then
    let '(s, res) := StoreGet poolCap r.(rd_store) key now in
    (rd_set_store s r, match res with inl e => Failed e | inr _ => Returned None end, None)
  else
    let '(r, cached) :=
      match level with LevelOne => cacheLookup now r key | _ => (r, None) end in
    match cached with
    | Some item => (r, Returned (DeepCopy (Some item)), None)
    | None =>
        let targets := GetN r.(rd_ring) key r.(rd_replicaCount) in
        if (length targets =? 0)%nat then (r, Returned None, None)
        else
          match r.(rd_member) with
          | None => (r, Panicked, None)
          | Some m =>
              let aliveTargets : list string := [] in
              let alive := aliveOrSelf r m targets in
              if (length alive =? 0)%nat then (r, Returned None, None)
              else
                let required :=
                  match level with
                  | LevelOne => 1%nat
                  | LevelQuorum => (length alive / 2 + 1)%nat
                  | LevelAll => length aliveTargets
                  | LevelOther => 1%nat
                  end in
                let required := if (length alive <? required)%nat then length alive else required in
                let '(s, answers) :=
                  readReplicas now remote r.(rd_store) r.(rd_nodeID) key (take accepted alive) in
                let r := rd_set_store s r in
                match collectUntil (length aliveTargets) required cancelled (arrival answers) [] with
                | None => (r, Waiting, None)
                | Some items =>
                    if (length items <? required)%nat then (r, Returned None, None)
                    else
                      let '(r, w) := maybeRepair acceptRepair nowRepair r key [] in
                      match highest items with
                      | None => (r, Returned None, w)
                      | Some b =>
                          let r := match level with
                                   | LevelOne => cacheFill now3 pick r key b
                                   | _ => r
                                   end in
                          (r, Returned (DeepCopy (Some b)), w)
                      end
                end
          end
    end.
End reads.

(** * The rate limiter *)

Fixpoint allowAll (ts : list Z) (rl : rateLimiter) : rateLimiter * nat :=
  match ts with
  | [] => (rl, 0%nat)
  | t :: ts =>
      let '(rl, ok) := Allow t rl in
      let '(rl, n) := allowAll ts rl in (rl, (if ok then S n else n))
  end.

(** The times [ts] follow [from] at distances that satisfy [P]. *)
Fixpoint spaced (P : Z -> Prop) (from : Z) (ts : list Z) : Prop :=
  match ts with [] => True | t :: ts => P (t - from) /\ spaced P t ts end.

Record limiter_ok (rl : rateLimiter) : Prop := {
  lim_rate : 0 < rl.(rl_rate) < 2 ^ 62;
  lim_tokens : 0 <= rl.(rl_tokens) <= rl.(rl_rate);
}.

(** Calls between which the products of the code do not overflow. *)
Definition callable (rl : rateLimiter) (ts : list Z) : Prop :=
  Forall (is_sint 64) ts /\
  spaced (fun d => 0 <= d /\ d * rl.(rl_rate) < 2 ^ 62) rl.(rl_last) ts.

Lemma Allow_spec rl t :
  limiter_ok rl -> is_sint 64 t -> 0 <= t - rl.(rl_last) ->
  (t - rl.(rl_last)) * rl.(rl_rate) < 2 ^ 62 ->
  let added := ((t - rl.(rl_last)) * rl.(rl_rate)) / Second in
  let avail := Z.min rl.(rl_rate) (rl.(rl_tokens) + added) in
  Allow t rl = if 1 <=? avail
    then ({| rl_rate := rl.(rl_rate); rl_tokens := avail - 1; rl_last := t |}, true)
    else ({| rl_rate := rl.(rl_rate); rl_tokens := avail; rl_last := t |}, false).
Proof.
  intros [Hr Ht] Hi Hd Hm added avail. unfold Allow, UnixNano.
  rewrite (sint_id 64 t) by (lia || done).
  assert (Hd' : t - rl.(rl_last) < 2 ^ 62) by nia.
  assert (0 <= (t - rl.(rl_last)) * rl.(rl_rate)) by nia.
  rewrite (sint_id 64 (t - rl_last rl)) by (unfold is_sint; lia).
  rewrite (sint_id 64 ((t - rl_last rl) * rl_rate rl)) by (unfold is_sint; lia).
  rewrite Z.quot_div_nonneg by (unfold Second, Millisecond, Microsecond; lia).
  fold added.
  assert (0 <= added) by (apply Z.div_pos; [lia|unfold Second, Millisecond, Microsecond; lia]).
  assert (added <= (t - rl.(rl_last)) * rl.(rl_rate)).
  { apply Z.div_le_upper_bound; unfold Second, Millisecond, Microsecond; lia. }
  rewrite (sint_id 64 (rl_tokens rl + added)) by (unfold is_sint; lia).
  unfold avail. destruct (Z.ltb_spec (rl_rate rl) (rl_tokens rl + added)).
  - rewrite !Z.min_l by lia. done.
  - rewrite !Z.min_r by lia. done.
Qed.

Lemma Allow_ok rl t :
  limiter_ok rl -> is_sint 64 t -> 0 <= t - rl.(rl_last) ->
  (t - rl.(rl_last)) * rl.(rl_rate) < 2 ^ 62 ->
  let '(rl', ok) := Allow t rl in
  limiter_ok rl' /\ rl'.(rl_rate) = rl.(rl_rate) /\ rl'.(rl_last) = t /\
  (rl'.(rl_tokens) + (if ok then 1 else 0)) * Second
    <= rl.(rl_tokens) * Second + (t - rl.(rl_last)) * rl.(rl_rate) /\
  ((t - rl.(rl_last)) * rl.(rl_rate) < Second ->
     if ok then rl'.(rl_tokens) = rl.(rl_tokens) - 1 else rl.(rl_tokens) = 0 /\ rl'.(rl_tokens) = 0).
Proof.
  intros Hok Hi Hd Hm. rewrite Allow_spec by done. destruct Hok as [Hr Ht].
  assert (HS : 0 < Second) by (unfold Second, Millisecond, Microsecond; lia).
  set (x := (t - rl_last rl) * rl_rate rl) in *. assert (Hx : 0 <= x) by nia.
  assert (Hadd : 0 <= x / Second) by (apply Z.div_pos; lia).
  pose proof (Z.mul_div_le x Second HS) as Hle.
  assert (Hsmall : x < Second -> x / Second = 0) by (intros; apply Z.div_small; lia).
  destruct (Z.leb_spec 1 (Z.min (rl_rate rl) (rl_tokens rl + x / Second)));
    cbn [rl_rate rl_tokens rl_last]; (split; [split; simpl; lia|]); (split; [done|]); (split; [done|]);
    (split; [nia|]); intros Hs%Hsmall; lia.
Qed.

(** The rate limiter of read repair, called at non-decreasing times: the
    number of repairs it allows is at most the tokens it has plus the rate
    times the time elapsed, and its tokens stay between 0 and the rate.  But
    since it rounds the tokens of each interval down and forgets the rest,
    calls that are closer together than one over the rate earn nothing: they
    are allowed only while the initial tokens last, however long they go on. *)
Theorem limiter_rate rl ts :
  limiter_ok rl -> callable rl ts ->
  let '(rl', n) := allowAll ts rl in
  limiter_ok rl' /\
  (Z.of_nat n + rl'.(rl_tokens)) * Second
    <= rl.(rl_tokens) * Second + (List.last ts rl.(rl_last) - rl.(rl_last)) * rl.(rl_rate) /\
  (spaced (fun d => d * rl.(rl_rate) < Second) rl.(rl_last) ts ->
     Z.of_nat n = Z.min rl.(rl_tokens) (Z.of_nat (length ts))).
Proof.
  revert rl. induction ts as [|t ts IH]; intros rl Hok [Hi Hsp].
  { simpl. split; [done|]. split; [nia|]. destruct Hok. lia. }
  apply Forall_cons in Hi as [Hi His]. destruct Hsp as [[Hd Hm] Hsp].
  pose proof (Allow_ok rl t Hok Hi Hd Hm) as Hstep. cbn [allowAll].
  destruct (Allow t rl) as [rl1 ok]. destruct Hstep as (Hok1 & Hr1 & Hl1 & Hsum & Hsmall).
  specialize (IH rl1 Hok1). rewrite <- Hr1, <- Hl1 in Hsp.
  specialize (IH (conj His Hsp)). destruct (allowAll ts rl1) as [rl2 n].
  destruct IH as (Hok2 & Hsum2 & Hlim). split; [done|].
  assert (Hlast : List.last (t :: ts) (rl_last rl) = List.last ts (rl_last rl1)).
  { rewrite Hl1. clear. destruct ts as [|u ts]; [done|]. cbn [List.last].
    revert u. induction ts as [|w ts IH]; intros u; [done|]. apply IH. }
  rewrite Hlast. rewrite Hr1, Hl1 in *. split; [destruct ok; lia|].
  intros [Hs1 Hs2]. specialize (Hlim Hs2). specialize (Hsmall Hs1).
  destruct Hok as [_ Ht], Hok1 as [_ Ht1]. cbn [length]. destruct ok; lia.
Qed.

(** One call every 9 ms at a rate of 100 per second, for 180 calls: 100
    are allowed and then none. *)
Lemma limiter_rate_witness :
  let ts := (fun i => i * 9 * Millisecond) <$> seqZ 1 180 in
  (allowAll ts (newRateLimiter 100 0)).2 = 100%nat /\
  Z.of_nat (allowAll ts (newRateLimiter 100 0)).2 = Z.min 100 180.
Proof.
  intros ts.
  assert (Hc : callable (newRateLimiter 100 0) ts).
  { split.
    - apply Forall_fmap, Forall_seqZ. intros m Hm. simpl.
      unfold is_sint, Millisecond, Microsecond. lia.
    - unfold ts. cbn -[Z.mul Z.sub Z.pow]. repeat split; vm_compute; congruence. }
  pose proof (limiter_rate (newRateLimiter 100 0) ts) as Hl.
  destruct (allowAll ts (newRateLimiter 100 0)) as [rl' n] eqn:E.
  assert (Hn : n = 100%nat).
  { change n with (rl', n).2. rewrite <- E. vm_compute. reflexivity. }
  split; [done|]. destruct Hl as (_ & _ & Hl); [split; simpl; lia|done|].
  apply Hl. unfold ts. cbn -[Z.mul Z.sub Z.pow]. repeat split; vm_compute; congruence.
Defined.

(** * [Get] *)

Section get.
Context `{XXH3, LZ4} (poolCap : Z).

(** The answer of the first replica, in the order of the ring, that has one. *)
Definition first_usable (remote : string -> reply) (targets : list string) : option StoredItem :=
  head (omap (fun t => match remote t with
                       | Answer item err => usable item err
                       | TimedOut | Discarded => None
                       end) targets).

Lemma askReplicas_first remote targets : forall item err a b,
  usable item err = None ->
  (askReplicas remote targets item err a b).1.1 = first_usable remote targets.
Proof.
  unfold first_usable. induction targets as [|t targets IH]; intros item err a b Hu; [done|].
  cbn [askReplicas omap list_omap]. destruct (remote t) as [it er| |]; simpl.
  - destruct (usable it er) eqn:E; [done|]. by apply IH.
  - by apply IH.
  - rewrite Hu. by apply IH.
Qed.

(** The replicas that are asked for [key]. *)
Definition asked (r : reader) (key : string) : list string :=
  getTargetsAlive r (GetN r.(rd_ring) key r.(rd_replicaCount)).

(** A read of [key] that the cache and the local store do not serve and a
    replica does. *)
Definition served_by_replica (now1 now2 : Z) (remote : option (string -> reply)) (r : reader)
    (key : string) (item : StoredItem) : Prop :=
  (cacheLookup now1 r key).2 = None /\
  ((StoreGet poolCap r.(rd_store) key now2).2 = inl ErrNotFound \/
   (StoreGet poolCap r.(rd_store) key now2).2 = inl ErrExpired) /\
  exists f, remote = Some f /\ first_usable f (asked r key) = Some item.

Lemma cacheLookup_frame now r key :
  let r' := (cacheLookup now r key).1 in
  r'.(rd_store) = r.(rd_store) /\ r'.(rd_ring) = r.(rd_ring) /\ r'.(rd_member) = r.(rd_member) /\
  r'.(rd_nodeID) = r.(rd_nodeID) /\ r'.(rd_cacheTTL) = r.(rd_cacheTTL) /\
  r'.(rd_replicaCount) = r.(rd_replicaCount).
Proof. unfold cacheLookup. destruct (rd_cache r) as [c|]; [|done]. by destruct (CacheGet now c key). Qed.

Lemma readRemote_spec now3 pick remote r key e :
  let '(r', res) := readRemote now3 pick remote r key e in
  res = match remote with Some f => first_usable f (asked r key) | None => None end /\
  r'.(rd_cache) = match res with
                  | Some item => (cacheFill now3 pick r key item).(rd_cache)
                  | None => r.(rd_cache)
                  end.
Proof.
  unfold readRemote. fold (asked r key).
  destruct (Nat.eqb_spec (length (GetN r.(rd_ring) key r.(rd_replicaCount))) 0) as [E|_].
  { apply nil_length_inv in E. split; [|done]. unfold asked. rewrite E. by destruct remote. }
  destruct (asked r key) as [|t ts]; [by destruct remote|].
  destruct remote as [f|]; [|done].
  pose proof (askReplicas_first f (t :: ts) None (Some (errStore e)) false false eq_refl) as Hf.
  destruct (askReplicas f (t :: ts) None (Some (errStore e)) false false) as [[found b1] b2].
  simpl in Hf. rewrite <- Hf. destruct found as [it|]; [by rewrite DeepCopy_id|].
  by destruct (b1 || negb b2).
Qed.

Lemma asked_ext r r' key :
  r'.(rd_ring) = r.(rd_ring) -> r'.(rd_replicaCount) = r.(rd_replicaCount) ->
  r'.(rd_nodeID) = r.(rd_nodeID) -> r'.(rd_member) = r.(rd_member) -> asked r' key = asked r key.
Proof.
  intros Hr Hc Hn Hm. unfold asked, getTargetsAlive. rewrite Hr, Hc. apply list_filter_iff.
  intros t. unfold askable. by rewrite Hn, Hm.
Qed.

(** The three ways a read ends, and what becomes of the cache. *)
Lemma ReaderGet_cases now1 now2 now3 pick remote r key :
  let '(r1, cached) := cacheLookup now1 r key in
  let '(r', res) := ReaderGet poolCap now1 now2 now3 pick remote r key in
  (exists item, cached = Some item /\ r'.(rd_cache) = r1.(rd_cache) /\ res = inr (Some item)) \/
  (exists item, served_by_replica now1 now2 remote r key item /\ res = inr (Some item) /\
     r'.(rd_cache) = (cacheFill now3 pick r1 key item).(rd_cache)) \/
  (cached = None /\ r'.(rd_cache) = r1.(rd_cache) /\
   (forall item, ~ served_by_replica now1 now2 remote r key item) /\
   res = match (StoreGet poolCap r.(rd_store) key now2).2 with
         | inr item => inr (Some item)
         | inl ErrNotFound | inl ErrExpired => inr None
         | inl e => inl e
         end).
Proof.
  pose proof (cacheLookup_frame now1 r key) as (Hs & Hr & Hm & Hn & Ht & Hc).
  unfold ReaderGet, served_by_replica. destruct (cacheLookup now1 r key) as [r1 cached].
  simpl in *. destruct cached as [it|].
  { left. exists it. by destruct it as [? ? [[]|] ?]. }
  rewrite Hs. destruct (StoreGet poolCap (rd_store r) key now2) as [s res]. simpl.
  destruct res as [e|it].
  2:{ right. right. split_and!; try done. by intros ? (_ & [|] & _). }
  destruct (decide (e = ErrNotFound \/ e = ErrExpired)) as [He|He].
  - assert (bool_decide (e = ErrNotFound) || bool_decide (e = ErrExpired) = true) as ->
      by (destruct He as [->| ->]; done).
    pose proof (readRemote_spec now3 pick remote (rd_set_store s r1) key e) as Hrem.
    destruct (readRemote now3 pick remote (rd_set_store s r1) key e) as [r' res].
    destruct Hrem as [Hres Hca]. rewrite (asked_ext r) in Hres by done.
    destruct res as [it|].
    + right. left. exists it. split; [|split; [done|]].
      * split; [done|]. split; [destruct He as [->| ->]; auto|].
        destruct remote as [f|]; [|done]. eauto.
      * rewrite Hca. unfold cacheFill. simpl. by destruct (rd_cache r1).
    + right. right. split; [done|]. split; [done|]. split; [|by destruct He as [->| ->]].
      intros item (_ & _ & f & -> & Hi). congruence.
  - assert (bool_decide (e = ErrNotFound) || bool_decide (e = ErrExpired) = false) as ->
      by (rewrite !bool_decide_eq_false_2 by tauto; done).
    right. right. split_and!; try done.
    + intros ? (_ & [|] & _); naive_solver.
    + destruct e; naive_solver.
Qed.

Lemma ReaderGet_ttl now1 now2 now3 pick remote r key :
  (ReaderGet poolCap now1 now2 now3 pick remote r key).1.(rd_cacheTTL) = r.(rd_cacheTTL).
Proof.
  pose proof (cacheLookup_frame now1 r key) as (_ & _ & _ & _ & Ht & _). unfold ReaderGet.
  destruct (cacheLookup now1 r key) as [r1 [it|]]; [done|]. simpl in Ht.
  destruct (StoreGet poolCap (rd_store r1) key now2) as [s [e|it]]; [|done].
  case_match; [|done]. unfold readRemote. simpl.
  assert (Hfill : forall it, rd_cacheTTL (cacheFill now3 pick (rd_set_store s r1) key it)
                             = rd_cacheTTL r).
  { intros it. unfold cacheFill. simpl. by destruct (rd_cache r1). }
  repeat (case_match; simplify_eq/=; try done).
Qed.

(** * Histories of reads *)

(** Reads, lookups of [GetWithConsistency] at level One, the invalidations of
    the writer, and anything that happens to the rest of the node. *)
Inductive read_event :=
| EvGet (now1 now2 now3 : Z) (pick : option nat) (remote : option (string -> reply)) (key : string)
| EvLookup (now : Z) (key : string)
| EvInvalidate (key : string)
| EvEnv (s : MemStorage) (ring : hashRing) (m : option memberMgr).

Definition read_step (r : reader) (e : read_event) : reader :=
  match e with
  | EvGet now1 now2 now3 pick remote key =>
      (ReaderGet poolCap now1 now2 now3 pick remote r key).1
  | EvLookup now key => (cacheLookup now r key).1
  | EvInvalidate key => rd_set_cache ((fun c => (CacheDelete c key).1) <$> r.(rd_cache)) r
  | EvEnv s ring m =>
      mkReader r.(rd_nodeID) s ring m r.(rd_cache) r.(rd_repair) r.(rd_cacheTTL)
        r.(rd_replicaCount)
  end.

Definition read_run (r : reader) (es : list read_event) : reader := fold_left read_step es r.

(** [item] came from a replica in a read of [key] among [es], to be kept until
    [t], and [key] has not been invalidated since. *)
Definition filled (r0 : reader) (es : list read_event) (key : string) (item : StoredItem) (t : Z)
  : Prop :=
  exists es1 now1 now2 now3 pick remote es2,
    es = es1 ++ EvGet now1 now2 now3 pick remote key :: es2 /\
    served_by_replica now1 now2 remote (read_run r0 es1) key item /\
    t = (if 0 <? r0.(rd_cacheTTL) then UnixNano (now3 + r0.(rd_cacheTTL)) else 0) /\
    EvInvalidate key ∉ es2.

Lemma filled_snoc r0 es e key item t :
  filled r0 es key item t -> e <> EvInvalidate key -> filled r0 (es ++ [e]) key item t.
Proof.
  intros (es1 & n1 & n2 & n3 & p & f & es2 & -> & Hs & Ht & Hn) He.
  exists es1, n1, n2, n3, p, f, (es2 ++ [e]). rewrite <- app_assoc. split; [done|].
  split; [done|]. split; [done|]. set_solver.
Qed.

(** The cache holds only items of the history. *)
Definition cache_history (r0 : reader) (es : list read_event) (c : Cache StoredItem) : Prop :=
  exists rc g, sim c rc /\ fresh_inv g rc /\
    forall key item t, g !! key = Some (item, t) -> filled r0 es key item t.

Lemma cache_history_do r0 es es' c o :
  cache_history r0 es c ->
  (forall g key item t, (forall key item t, g !! key = Some (item, t) -> filled r0 es key item t) ->
     latest_step g o !! key = Some (item, t) -> filled r0 es' key item t) ->
  cache_history r0 es' (cache_do c o).1.
Proof.
  intros (rc & g & Hsim & Hf & Hg) Ho. exists (spec_do rc o).1, (latest_step g o).
  split; [by apply sim_step|]. split; [by apply fresh_step|]. eauto.
Qed.

Lemma read_run_ttl r0 es : (read_run r0 es).(rd_cacheTTL) = r0.(rd_cacheTTL).
Proof.
  induction es as [|e es IH] using rev_ind; [done|]. unfold read_run in *.
  rewrite fold_left_app. simpl. rewrite <- IH. destruct e; simpl; try done.
  - apply ReaderGet_ttl.
  - by apply cacheLookup_frame.
Qed.

Lemma history_run r0 es c0 c :
  r0.(rd_cache) = Some c0 -> cache_history r0 [] c0 ->
  (read_run r0 es).(rd_cache) = Some c -> cache_history r0 es c.
Proof.
  intros Hc0 Hinit. revert c. induction es as [|e es IH] using rev_ind; intros c Hc.
  { simpl in Hc. congruence. }
  pose proof (read_run_ttl r0 es) as Httl.
  unfold read_run in *. rewrite fold_left_app in Hc. simpl in Hc.
  set (r := fold_left read_step es r0) in *.
  assert (Hget : forall now key c1, (forall k, e <> EvInvalidate k) ->
    rd_cache (cacheLookup now r key).1 = Some c1 -> cache_history r0 (es ++ [e]) c1).
  { intros now key c1 He. unfold cacheLookup. destruct (rd_cache r) as [c2|] eqn:E;
      [|simpl; congruence].
    specialize (IH c2 eq_refl).
    apply (cache_history_do r0 es (es ++ [e]) c2 (OGet now key)) in IH.
    - cbn [cache_do] in IH. destruct (CacheGet now c2 key). simpl in *. congruence.
    - intros g k it t Hg Hl. simpl in Hl. apply filled_snoc; auto. }
  destruct e as [now1 now2 now3 pick remote key|now key|key|s ring m]; simpl in Hc.
  - pose proof (ReaderGet_cases now1 now2 now3 pick remote r key) as Hcases.
    specialize (Hget now1 key). pose proof (cacheLookup_frame now1 r key) as (_&_&_&_&Ht&_).
    destruct (cacheLookup now1 r key) as [r1 cached].
    destruct (ReaderGet poolCap now1 now2 now3 pick remote r key) as [r' res]. simpl in *.
    destruct Hcases as [(it & _ & Hca & _)|[(it & Hsv & _ & Hca)|(_ & Hca & _)]];
      rewrite Hca in Hc; [by apply Hget| |by apply Hget].
    unfold cacheFill in Hc. destruct (rd_cache r1) as [c1|] eqn:E1; [|congruence].
    simpl in Hc. injection Hc as <-.
    specialize (Hget c1 ltac:(done) eq_refl).
    apply (cache_history_do r0 _ (es ++ [EvGet now1 now2 now3 pick remote key]) c1
             (OSet now3 pick key it (rd_cacheTTL r1))) in Hget; [done|].
    intros g k it' t Hg Hl. simpl in Hl.
    destruct (decide (k = key)) as [->|Hne].
    + rewrite lookup_insert_eq in Hl. injection Hl as <- <-.
      exists es, now1, now2, now3, pick, remote, []. rewrite Ht, Httl.
      split; [done|]. split; [done|]. split; [done|]. set_solver.
    + rewrite lookup_insert_ne in Hl by done. eauto.
  - by eapply Hget.
  - destruct (rd_cache r) as [c2|] eqn:E; [|done]. simpl in Hc. injection Hc as <-.
    specialize (IH c2 eq_refl).
    apply (cache_history_do r0 es (es ++ [EvInvalidate key]) c2 (ODelete key)) in IH.
    + cbn [cache_do] in IH. destruct (CacheDelete c2 key). done.
    + intros g k it t Hg Hl. simpl in Hl. apply lookup_delete_Some in Hl as [Hne Hl].
      apply filled_snoc; [auto|congruence].
  - specialize (IH c Hc). destruct IH as (rc & g & ? & ? & Hg). exists rc, g.
    split; [done|]. split; [done|]. intros. apply filled_snoc; auto.
Qed.
End get.

(** C21. What a [Get] returns after any history of reads, invalidations by the
    writer and changes of the node: a cached item, which then came from a
    replica in an earlier read of the key, at most the cache's time to live
    ago, with no write of the key by this node since; otherwise the item of
    the local store; otherwise, if the local store does not have the key, the
    first usable answer of the live replicas in the order of the ring, which
    is then cached; nothing if there is none, even when every replica failed;
    and an error only for the other errors of the local store. *)
Theorem reader_get `{XXH3, LZ4} poolCap nodeID s ring member opts repair ttl replicas es
    now1 now2 now3 pick remote key :
  let r0 := newReader nodeID s ring member (Some (NewCache opts)) repair ttl replicas in
  let r := read_run poolCap r0 es in
  let '(r', res) := ReaderGet poolCap now1 now2 now3 pick remote r key in
  (exists item t, res = inr (Some item) /\ filled poolCap r0 es key item t /\
     (t <= 0 \/ UnixNano now1 <= t)) \/
  (exists item, res = inr (Some item) /\
     served_by_replica poolCap now1 now2 remote r key item /\
     r'.(rd_cache) = (cacheFill now3 pick (cacheLookup now1 r key).1 key item).(rd_cache)) \/
  ((cacheLookup now1 r key).2 = None /\
   (forall item, ~ served_by_replica poolCap now1 now2 remote r key item) /\
   res = match (StoreGet poolCap r.(rd_store) key now2).2 with
         | inr item => inr (Some item)
         | inl ErrNotFound | inl ErrExpired => inr None
         | inl e => inl e
         end).
Proof.
  intros r0 r. pose proof (ReaderGet_cases poolCap now1 now2 now3 pick remote r key) as Hc.
  assert (Hinit : cache_history poolCap r0 [] (NewCache opts)).
  { exists (spec_new opts), ∅. split; [apply sim_new|]. split; [|done].
    right. intros i v p Hi Hp. simpl in Hi. apply lookup_replicate in Hi as [-> _]. set_solver. }
  pose proof (history_run poolCap r0 es (NewCache opts)) as Hrun. fold r in Hrun.
  unfold cacheLookup in Hc |- *. destruct (rd_cache r) as [c|] eqn:Ec.
  - specialize (Hrun c eq_refl Hinit eq_refl). destruct Hrun as (rc & g & Hsim & Hf & Hg).
    pose proof (fun v => sim_lookup_fresh c rc g now1 key v Hsim Hf) as Hfresh.
    destruct (CacheGet now1 c key) as [c' cached].
    destruct (ReaderGet poolCap now1 now2 now3 pick remote r key) as [r' res]. simpl in Hfresh |- *.
    destruct Hc as [(it & -> & _ & ->)|[(it & Hs & -> & Hca)|(-> & _ & Hn & ->)]].
    + left. destruct (Hfresh it eq_refl) as (t & Hl & Hx). exists it, t. split; [done|].
      split; [by apply Hg|]. unfold expired in Hx.
      destruct (Z.ltb_spec 0 t); [|by left]. destruct (Z.ltb_spec t (UnixNano now1)); [done|].
      by right.
    + right. left. exists it. done.
    + right. right. done.
  - destruct (ReaderGet poolCap now1 now2 now3 pick remote r key) as [r' res]. simpl in *.
    destruct Hc as [(it & [=] & _)|[(it & Hs & -> & Hca)|(_ & _ & Hn & ->)]]; right; [left|right];
      naive_solver.
Qed.

(** * Parallel reads *)

Definition usables (answers : list answer) : list StoredItem :=
  omap (fun res => usable res.1 res.2) answers.

(** The first of the items of highest version. *)
Definition is_highest (items : list StoredItem) (best : option StoredItem) : Prop :=
  match best with
  | None => items = []
  | Some b => b ∈ items /\ forall i, i ∈ items -> si_Version i <= si_Version b
  end.

#[local] Arguments CompareVersion : simpl never.
#[local] Arguments Z.ltb : simpl never.

Lemma CompareVersion_pos i b : (0 <? CompareVersion i (Some b)) = (si_Version b <? si_Version i).
Proof.
  unfold CompareVersion. destruct (Z.ltb_spec (si_Version i) (si_Version b)).
  - by destruct (Z.ltb_spec (si_Version b) (si_Version i)); [lia|].
  - by destruct (Z.ltb_spec (si_Version b) (si_Version i)).
Qed.

Lemma collect_spec answers : forall best items,
  is_highest items best ->
  let '(best', items') := fold_left collect answers (best, items) in
  items' = items ++ usables answers /\ is_highest items' best'.
Proof.
  induction answers as [|a answers IH]; intros best items Hb; simpl.
  { unfold usables. simpl. by rewrite app_nil_r. }
  unfold usables. simpl. destruct (usable a.1 a.2) as [i|] eqn:E; [|by apply IH].
  specialize (IH (match best with
       | None => Some i
       | Some b => if 0 <? CompareVersion i (Some b) then Some i else best
       end) (items ++ [i])).
  destruct (fold_left collect answers _) as [best' items']. rewrite <- app_assoc in IH.
  apply IH. clear IH. destruct best as [b|]; simpl in *.
  - destruct Hb as [Hin Hmax]. rewrite CompareVersion_pos.
    destruct (Z.ltb_spec (si_Version b) (si_Version i)); simpl.
    + split; [set_solver|]. intros j [Hj%Hmax| ->%list_elem_of_singleton]%elem_of_app; lia.
    + split; [set_solver|]. intros j [Hj%Hmax| ->%list_elem_of_singleton]%elem_of_app; lia.
  - subst items. simpl. split; [set_solver|]. intros j ->%list_elem_of_singleton. lia.
Qed.

Lemma is_highest_perm items items' best :
  items ≡ₚ items' -> is_highest items best -> is_highest items' best.
Proof.
  intros Hp. destruct best as [b|]; simpl.
  - rewrite Hp. intros [? Hm]. split; [done|]. intros i. rewrite <- Hp. auto.
  - intros ->. by apply Permutation_nil in Hp.
Qed.

Lemma Repair_highest acc now key items rr rr' w :
  Repair acc now key items rr = (rr', Some w) ->
  w.1 = key /\ is_highest items (Some w.2).
Proof.
  destruct items as [|v0 rest]; simpl; [done|].
  destruct (Allow now (rr_limiter rr)) as [rl ok].
  destruct ok; simpl; [|done]. case_match; [|done]. intros [= _ <-]. split; [done|]. cbn [snd].
  assert (Hgen : forall l m0 seen, is_highest seen (Some m0) ->
    is_highest (seen ++ l) (Some (fold_left (fun m item =>
        if 0 <? CompareVersion item (Some m) then item else m) l m0))).
  { clear. induction l as [|i l IH]; intros m0 seen Hm; simpl; [by rewrite app_nil_r|].
    rewrite (cons_middle i seen l), app_assoc. apply IH. destruct Hm as [Hin Hmax].
    rewrite CompareVersion_pos. destruct (Z.ltb_spec (si_Version m0) (si_Version i));
      (split; [set_solver|]); intros j [Hj%Hmax| ->%list_elem_of_singleton]%elem_of_app; lia. }
  apply (Hgen rest v0 [v0]). split; [set_solver|]. intros i ->%list_elem_of_singleton. lia.
Qed.

Section parallel.
Context `{XXH3, LZ4} (poolCap : Z).

Lemma length_readReplicas now remote self key targets : forall s,
  length (readReplicas poolCap now remote s self key targets).2 = length targets.
Proof.
  induction targets as [|t targets IH]; intros s; [done|]. cbn [readReplicas].
  destruct (readReplica poolCap now remote s self t key) as [s1 a]. specialize (IH s1).
  destruct (readReplicas poolCap now remote s1 self key targets). simpl in *. by rewrite IH.
Qed.
End parallel.

(** [GetSpeculative] on a node that knows its members, when the executor
    takes every task and the context is not cancelled: in whatever order the
    answers arrive, the result is an item of the highest version among the
    usable answers of the live replicas, the local store included, and
    nothing when there is none; a repair that it submits writes such an item.
    When the executor refuses a task and the context is never cancelled, the
    call does not return. *)
Theorem speculative_highest `{XXH3, LZ4} poolCap now nowRepair acceptRepair accepted
    (arrival : list answer -> list answer) remote r m key n :
  (forall l, arrival l ≡ₚ l) ->
  key <> ""%string -> r.(rd_member) = Some m ->
  let alive := aliveOrSelf r m (GetN r.(rd_ring) key (if n <=? 0 then 3 else n)) in
  let answers := (readReplicas poolCap now remote r.(rd_store) r.(rd_nodeID) key alive).2 in
  let '(r', out, repaired) := ReaderGetSpeculative poolCap now nowRepair acceptRepair accepted
    arrival None remote r key n in
  if (length alive <=? accepted)%nat
  then exists best, out = Returned best /\ is_highest (usables answers) best /\
         forall w, repaired = Some w -> w.1 = key /\ is_highest (usables answers) (Some w.2)
  else out = Waiting.
Proof.
  intros Harr Hkey Hm alive answers. unfold ReaderGetSpeculative.
  rewrite decide_False by done. rewrite Hm. fold alive.
  set (targets := GetN (rd_ring r) key (if n <=? 0 then 3 else n)) in *.
  destruct (Nat.eqb_spec (length targets) 0) as [E|_].
  { apply nil_length_inv in E. assert (alive = []) as Hal by (unfold alive; by rewrite E).
    unfold answers. rewrite Hal. simpl. exists None. done. }
  destruct (Nat.eqb_spec (length alive) 0) as [E|Hne].
  { apply nil_length_inv in E. unfold answers. rewrite E. simpl. exists None. done. }
  destruct (Nat.leb_spec (length alive) accepted) as [Hle|Hlt].
  - rewrite (take_ge alive) by done. unfold answers.
    pose proof (length_readReplicas poolCap now remote (rd_nodeID r) key alive (rd_store r)) as Hlen.
    destruct (readReplicas poolCap now remote (rd_store r) (rd_nodeID r) key alive) as [s ans].
    simpl in Hlen |- *. rewrite Hlen.
    destruct (Nat.ltb_spec (length alive) (length alive)); [lia|].
    rewrite (take_ge (arrival ans)) by (rewrite (Harr ans); lia).
    pose proof (collect_spec (arrival ans) None [] eq_refl) as Hcol.
    destruct (fold_left collect (arrival ans) (None, [])) as [best items].
    destruct Hcol as [Hit Hb]. simpl in Hit.
    assert (Hp : items ≡ₚ usables ans) by (rewrite Hit; unfold usables; by rewrite (Harr ans)).
    unfold maybeRepair. simpl.
    assert (Hmain : exists best', Returned (DeepCopy best) = Returned best' /\
      is_highest (usables ans) best').
    { exists best. rewrite DeepCopy_id. split; [done|]. by eapply is_highest_perm. }
    destruct Hmain as (best' & Hbest' & Hhi).
    destruct (rd_repair r) as [rr|]; [|exists best'; done].
    destruct (andb _ _); [|exists best'; done].
    destruct (Repair acceptRepair nowRepair key items rr) as [rr' w] eqn:Er.
    exists best'. split; [done|]. split; [done|]. intros w' ->.
    apply Repair_highest in Er as [? Hw]. split; [done|].
    apply (is_highest_perm items _ (Some _) Hp Hw).
  - pose proof (length_readReplicas poolCap now remote (rd_nodeID r) key (take accepted alive)
      (rd_store r)) as Hlen.
    destruct (readReplicas poolCap now remote (rd_store r) (rd_nodeID r) key (take accepted alive))
      as [s ans]. simpl in Hlen |- *. rewrite Hlen, length_take.
    destruct (Nat.ltb_spec (accepted `min` length alive) (length alive)); [done|lia].
Qed.

(** [GetWithConsistency] never returns what it reads: for a non-empty key
    on a node that knows its members it returns nothing and repairs nothing at
    every level, whatever the replicas and the local store answer, except for
    a cached item at level One. *)
Theorem consistency_blind `{XXH3, LZ4} poolCap now now3 nowRepair pick acceptRepair accepted
    (arrival : list answer -> list answer) cancelled remote r m key level :
  key <> ""%string -> r.(rd_member) = Some m ->
  let '(r', out, repaired) := ReaderGetWithConsistency poolCap now now3 nowRepair pick acceptRepair
    accepted arrival cancelled remote r key level in
  repaired = None /\
  out = Returned (match level with LevelOne => (cacheLookup now r key).2 | _ => None end).
Proof.
  intros Hkey Hm. unfold ReaderGetWithConsistency. rewrite decide_False by done.
  set (look := match level with LevelOne => cacheLookup now r key | _ => (r, None) end).
  assert (Hl : look.2 = match level with LevelOne => (cacheLookup now r key).2 | _ => None end)
    by (by destruct level).
  assert (Hm' : look.1.(rd_member) = Some m).
  { rewrite <- Hm. unfold look. destruct level; try done. apply cacheLookup_frame. }
  rewrite <- Hl. destruct look as [r1 [it|]]; cbn [fst snd] in *; [by rewrite DeepCopy_id|].
  destruct (Nat.eqb _ 0); [done|]. rewrite Hm'.
  set (alive := aliveOrSelf r1 m (GetN (rd_ring r1) key (rd_replicaCount r1))).
  destruct (Nat.eqb_spec (length alive) 0) as [|Hne]; [done|].
  destruct (readReplicas poolCap now remote _ _ key _) as [s ans]. cbn [length collectUntil].
  assert (Hone : (length alive <? 1)%nat = false) by (apply Nat.ltb_ge; lia).
  destruct level; rewrite ?Hone; try done.
  - set (q := (length alive / 2 + 1)%nat).
    assert (Hq : (0 < q)%nat) by (unfold q; lia).
    destruct (Nat.ltb_spec (length alive) q);
      match goal with |- context [(0 <? ?x)%nat] => destruct (Nat.ltb_spec 0 x) end; done || lia.
  - simpl. unfold maybeRepair. simpl. by destruct (rd_repair r1).
Qed.

#[local] Existing Instance ToyHash.xxh3.
#[local] Existing Instance RunLength.lz4.
#[local] Existing Instance MergeSort.sort.

(** Node n1 with peer n2: n1 holds version 1 of "a", n2 answers version 2. *)
Definition demoReader : reader :=
  let s := New DefaultConfig 1 in
  let s := (StoreSet 0 s "a" (Some (mkItem 1 zeroTime (Some [x61]) "a"))).1 in
  newReader "n1" s (Update (newHashRing 2) 5 ["n1"%string; "n2"%string]).1 (Some demoMgr2)
    None (Some (newReadRepair true 0 0)) 0 2.

Definition demoRemote : option (string -> answer) :=
  Some (fun _ => (Some (mkItem 2 zeroTime (Some [x62]) "a"), None)).

Lemma speculative_highest_witness :
  exists best, is_highest [mkItem 1 zeroTime (Some [x61]) ""; mkItem 2 zeroTime (Some [x62]) "a"]
    best /\
  (ReaderGetSpeculative 0 0 0 true 2 (fun l => l) None demoRemote demoReader "a" 2).1.2 = Returned best /\
  (ReaderGetSpeculative 0 0 0 true 2 (fun l => l) None demoRemote demoReader "a" 2).2
    = Some ("a"%string, mkItem 2 zeroTime (Some [x62]) "a").
Proof.
  pose proof (speculative_highest 0 0 0 true 2 (fun l => l) demoRemote demoReader demoMgr2 "a" 2
    (fun l => reflexivity l) ltac:(discriminate) eq_refl) as K.
  cbv zeta in K.
  assert (Hle : (length (aliveOrSelf demoReader demoMgr2
    (GetN (rd_ring demoReader) "a" (if (2 <=? 0)%Z then 3 else 2))) <=? 2)%nat = true)
    by (vm_compute; reflexivity).
  rewrite Hle in K. clear Hle.
  assert (Hrep : (ReaderGetSpeculative 0 0 0 true 2 (fun l => l) None demoRemote demoReader "a" 2).2
    = Some ("a"%string, mkItem 2 zeroTime (Some [x62]) "a")) by (vm_compute; reflexivity).
  destruct (ReaderGetSpeculative 0 0 0 true 2 (fun l => l) None demoRemote demoReader "a" 2)
    as [[r' out] w].
  destruct K as (best & -> & Hb & _). exists best. split; [|done].
  revert Hb. apply is_highest_perm. apply reflexive_eq. vm_compute. reflexivity.
Defined.

Lemma consistency_blind_witness :
  (ReaderGetWithConsistency 0 0 0 0 None true 2 (fun l => l) false demoRemote demoReader "a"
     LevelQuorum).1.2 = Returned None /\
  (ReaderGetWithConsistency 0 0 0 0 None true 2 (fun l => l) false demoRemote demoReader "a"
     LevelAll).1.2 = Returned None.
Proof.
  split.
  - pose proof (consistency_blind 0 0 0 0 None true 2 (fun l => l) false demoRemote demoReader
      demoMgr2 "a" LevelQuorum ltac:(discriminate) eq_refl) as K.
    destruct (ReaderGetWithConsistency _ _ _ _ _ _ _ _ _ _ _ _ _) as [[r' out] w]. apply K.
  - pose proof (consistency_blind 0 0 0 0 None true 2 (fun l => l) false demoRemote demoReader
      demoMgr2 "a" LevelAll ltac:(discriminate) eq_refl) as K.
    destruct (ReaderGetWithConsistency _ _ _ _ _ _ _ _ _ _ _ _ _) as [[r' out] w]. apply K.
Defined.

(** A read served by the replica, then by the cache, then, after the time to
    live, by the replica again. *)
Example reader_example :
  let r0 := newReader "n1" (New DefaultConfig 1)
    (Update (newHashRing 2) 5 ["n1"%string; "n2"%string]).1 (Some demoMgr2)
    (Some (NewCache {| Shards := 1; Size := 2 |})) None 0 2 in
  let answers v := Some (fun _ => Answer (Some (mkItem v zeroTime (Some [x62]) "a")) None) in
  let get t v r := ReaderGet 0 t t t None (answers v) r "a" in
  let '(r1, x1) := get 10 1 r0 in
  let '(r2, x2) := get 20 2 r1 in
  let '(r3, x3) := get (20 * Millisecond) 3 r2 in
  si_Version <$> omap (fun x => match x with inr i => i | inl _ => None end) [x1; x2; x3]
    = [1; 1; 3].
Proof. vm_compute. reflexivity. Qed.
