(* ===== verification/Entropy.v ===== *)
(** * Anti-entropy

    The antiEntropy part of internal/cluster/entropy.go: digests (a bloom
    filter of 1024 bytes and the versions of the keys), their comparison, and
    the periodic round.  One digest or comparison reads the clock once.  The
    rest of the file, checkpoints and hinted handoff, is in [Replay]. *)

From S2P Require Import Prelude StoredItem Compress Lru SyncBuffer MemStorage MemStorageFacts.
From S2P Require Import MemStorageProps Codec HashRing Member Gossip.

Section entropy.
Context `{XXH3, LZ4} (poolCap : Z).

(** * Digests *)

Definition bloomBits : Z := 1024 * 8.

(** The byte and the bit of a key in a filter of [size] bits. *)
Definition bloomIdx (size : Z) (key : string) : nat := Z.to_nat ((xxh3_Hi key mod size) / 8).
Definition bloomBit (size : Z) (key : string) : Z := (xxh3_Hi key mod size) mod 8.

(** [bloom[idx] |= 1 << bit]; the bytes are integers below 256. *)
Definition bloomAdd (bloom : list Z) (key : string) : list Z :=
  alter (fun b => Z.lor b (Z.shiftl 1 (bloomBit bloomBits key))) (bloomIdx bloomBits key) bloom.

(** [(bloom[idx] & (1 << bit)) != 0] for a filter of [size] bits. *)
Definition bloomHas (size : Z) (bloom : list Z) (key : string) : bool :=
  negb (Z.land (default 0 (bloom !! bloomIdx size key)) (Z.shiftl 1 (bloomBit size key)) =? 0).

Definition hasPrefix (p key : string) : bool :=
  bool_decide (take (length (StringToBytes p)) (StringToBytes key) = StringToBytes p).

Definition getAllKeys (s : MemStorage) (now : Z) : MemStorage * list string := Keys s now.

Definition getKeysInRange (rangeKey : string) (s : MemStorage) (now : Z)
    : MemStorage * list string :=
  let '(s, allKeys) := Keys s now in
  if bool_decide (rangeKey = ""%string) then (s, allKeys)
  else (s, filter (fun key => hasPrefix rangeKey key = true) allKeys).

(** One turn of the loop of [Digest]. *)
Definition digestKey (now : Z) (acc : MemStorage * list Z * gmap string Z) (key : string)
    : MemStorage * list Z * gmap string Z :=
  let '(s, bloom, vv) := acc in
  let bloom := bloomAdd bloom key in
  let '(s, res) := StoreGet poolCap s key now in
  match res with
  | inr item =>
      (s, bloom, if default 0 (vv !! key) <? si_Version item
                 then <[key := si_Version item]> vv else vv)
  | inl _ => (s, bloom, vv)
  end.

Definition Digest (rangeKey : string) (s : MemStorage) (now : Z)
    : MemStorage * list Z * gmap string Z :=
  let '(s, keys) := getKeysInRange rangeKey s now in
  fold_left (digestKey now) keys (s, replicate 1024 0, ∅).

(** * Comparison *)

(** One turn of the first loop of [Sync]. *)
Definition syncKey (now : Z) (bloom localBloom : list Z) (vv : gmap string Z)
    (acc : MemStorage * list string) (key : string) : MemStorage * list string :=
  let '(s, diff) := acc in
  let size := Z.of_nat (length bloom) * 8 in
  if size =? 0 then (s, diff ++ [key])
  else
    let hasKey := bloomHas size bloom key in
    let localHasKey :=
      (bloomIdx size key <? length localBloom)%nat && bloomHas size localBloom key in
    if negb (Bool.eqb hasKey localHasKey) then (s, diff ++ [key])
    else
      let '(s, res) := StoreGet poolCap s key now in
      match res with
      | inr item =>
          match vv !! key with
          | Some remoteVersion =>
              (s, if si_Version item <? remoteVersion then diff ++ [key] else diff)
          | None => (s, if hasKey then diff ++ [key] else diff)
          end
      | inl _ => (s, if bool_decide (is_Some (vv !! key)) then diff ++ [key] else diff)
      end.

(** One turn of the second loop, over the remote versions. *)
Definition syncRemote (now : Z) (acc : MemStorage * list string) (key : string)
    : MemStorage * list string :=
  let '(s, diff) := acc in
  let '(s, res) := StoreGet poolCap s key now in
  match res with inl _ => (s, diff ++ [key]) | inr _ => (s, diff) end.

Definition Sync (bloom : list Z) (vv : gmap string Z) (s : MemStorage) (now : Z)
    : MemStorage * list string :=
  let '(s, allKeys) := getAllKeys s now in
  let '(s, localBloom, _) := Digest "" s now in
  let '(s, diff) := fold_left (syncKey now bloom localBloom vv) allKeys (s, []) in
  fold_left (syncRemote now) (map_to_list vv).*1 (s, diff).

(** * The periodic round *)

(** [newAntiEntropy]: the interval of the rounds. *)
Definition newAntiEntropy (interval : Z) : Z := if interval <=? 0 then 30 * Second else interval.

Definition entropyTargets (members : list NodeInfo) : list string :=
  ni_Address <$> filter (fun m => ni_State m = NodeStateAlive /\ ni_Address m <> ""%string) members.

(** The store, and the message of the pull if one is sent; the members include
    this node. *)
Definition doAntiEntropy (g : gossip) (members : list NodeInfo) (s : MemStorage) (now : Z)
    : MemStorage * list (string * bytes) :=
  let alive := entropyTargets members in
  match alive with
  | [] => (s, [])
  | first :: _ =>
      let hash := Z.abs (Z.rem (UnixNano now) (Z.of_nat (length alive))) in
      let target := default first (alive !! Z.to_nat hash) in
      let '(s, localBloom, _) := Digest "" s now in
      let '(s, diff) := Sync localBloom ∅ s now in
      match diff with
      | [] => (s, [])
      | _ => Pull poolCap g s target now
      end
  end.

(** * What reads keep *)

(** Items that neither of the two expiration tests removes at [now]. *)
Definition steady (now : Z) (ci : compressedItem) : Prop :=
  expired_at now (ci_ExpireAt ci) = false /\ itemExpired now ci = false.

Record keeps (now : Z) (s s' : MemStorage) : Prop := {
  kp_cfg : cfg s' = cfg s;
  kp_len : length (shards s') = length (shards s);
  kp_items k ci : contents s k = Some ci -> steady now ci -> contents s' k = Some ci;
}.

#[export] Instance keeps_preorder now : PreOrder (keeps now).
Proof.
  split; [by intros s; split|]. intros s1 s2 s3 [A1 A2 A3] [B1 B2 B3]. split; try congruence. auto.
Qed.

Lemma keeps_data now s s' : s' ≈ s -> keeps now s s'.
Proof. intros E. split; [apply E|apply E|]. intros k ci. by rewrite E. Qed.

Lemma keeps_delete now s i k ci :
  sh_data (shardAt s i) !! k = Some ci -> ~ steady now ci -> i = shardIndex s k ->
  keeps now s (on_shard i (shard_data (delete k)) s).
Proof.
  intros E Hns ->. split; [done|apply length_on_shard|]. intros k' ci' Hc Hst.
  unfold contents, getShard in *. change (shardIndex (on_shard (shardIndex s k) _ s) k') with
    (shardIndex s k'). rewrite shardAt_on_shard. case_decide as Hd; [|done]. simpl.
  rewrite lookup_delete_ne; [done|]. intros ->. rewrite E in Hc. by simplify_eq.
Qed.

Lemma keeps_getWith clone s key now : keeps now s (getWith poolCap clone s key now).1.
Proof.
  unfold getWith. case_match; [done|].
  destruct (sh_data _ !! key) as [ci|] eqn:E; [|by apply keeps_data].
  case_match eqn:Ex.
  - simpl. unfold expireKey. etransitivity; [|by apply keeps_data, unlru_data].
    etransitivity; [|by apply keeps_data, usage_data].
    set (s2 := on_access count_miss (on_access count_get s)).
    transitivity s2; [by apply keeps_data|].
    eapply (keeps_delete now s2); [exact E| |done]. intros [Hst _]. unfold expired_at in Hst. congruence.
  - repeat case_match; simpl; apply keeps_data; by rewrite touch_data.
Qed.

Lemma keeps_filter now s i :
  keeps now s (on_shard i (shard_data (filter (fun kv => itemExpired now kv.2 = false))) s).
Proof.
  split; [done|apply length_on_shard|]. intros k ci Hc [_ Hst].
  unfold contents, getShard in *. change (shardIndex (on_shard i _ s) k) with (shardIndex s k).
  rewrite shardAt_on_shard. case_decide; [|done]. simpl. by apply map_lookup_filter_Some.
Qed.

Lemma Keys_spec s now :
  keeps now s (Keys s now).1 /\
  forall k ci, contents s k = Some ci -> steady now ci ->
    (shardIndex s k < length (shards s))%nat -> k ∈ (Keys s now).2.
Proof.
  unfold Keys.
  assert (Hgen : forall l s0 ks0, let r := fold_left (keysOfShard now) l (s0, ks0) in
    keeps now s0 r.1 /\ ks0 ⊆ r.2 /\
    forall k ci, contents s0 k = Some ci -> steady now ci -> shardIndex s0 k ∈ l -> k ∈ r.2).
  { induction l as [|i l IH]; intros s0 ks0; cbn [fold_left].
    { split; [done|]. split; [done|]. set_solver. }
    unfold keysOfShard at 2 4 6. set (s1 := on_shard i _ s0). set (ks1 := ks0 ++ _).
    destruct (IH s1 ks1) as (IH1 & IH2 & IH3). cbn zeta in *.
    assert (Hk1 : keeps now s0 s1) by apply keeps_filter.
    split; [by etransitivity|]. split; [set_solver|]. intros k ci Hc Hst Hin.
    apply elem_of_cons in Hin as [Hi|Hin].
    - apply IH2. unfold ks1. apply elem_of_app. right. apply list_elem_of_fmap.
      exists (k, ci). split; [done|]. apply list_elem_of_filter. split; [apply Hst|].
      apply elem_of_map_to_list. unfold contents, getShard in Hc. by rewrite Hi in Hc.
    - eapply IH3; [by eapply kp_items|done|]. by rewrite (shardIndex_cfg s1 s0) by apply Hk1. }
  destruct (Hgen (seq 0 (length (shards s))) s []) as (H1 & _ & H3). split; [done|].
  intros k ci Hc Hst Hlt. eapply H3; [done|done|]. apply elem_of_seq. lia.
Qed.

(** * The bloom filter *)

Lemma land_bit b n : 0 <= n -> negb (Z.land b (Z.shiftl 1 n) =? 0) = Z.testbit b n.
Proof.
  intros Hn. rewrite Z.shiftl_1_l. destruct (Z.testbit b n) eqn:E.
  - apply negb_true_iff, Z.eqb_neq. intros E0.
    assert (Hb : Z.testbit (Z.land b (2 ^ n)) n = true)
      by (rewrite Z.land_spec, E, Z.pow2_bits_true by done; done).
    rewrite E0, Z.bits_0 in Hb. done.
  - apply negb_false_iff, Z.eqb_eq. apply Z.bits_inj'. intros i Hi.
    rewrite Z.land_spec, Z.bits_0. destruct (decide (i = n)) as [->|]; [by rewrite E|].
    by rewrite Z.pow2_bits_false, andb_false_r by done.
Qed.

Lemma bloom_position key : (bloomIdx bloomBits key < 1024)%nat /\ 0 <= bloomBit bloomBits key.
Proof.
  unfold bloomIdx, bloomBit, bloomBits. pose proof (Z.mod_pos_bound (xxh3_Hi key) (1024 * 8) eq_refl).
  pose proof (Z.mod_pos_bound (xxh3_Hi key mod (1024 * 8)) 8 eq_refl). split; [|lia].
  assert ((xxh3_Hi key mod (1024 * 8)) / 8 < 1024) by (apply Z.div_lt_upper_bound; lia).
  assert (0 <= (xxh3_Hi key mod (1024 * 8)) / 8) by (apply Z.div_pos; lia). lia.
Qed.

Lemma bloomHas_test bloom key :
  bloomHas bloomBits bloom key =
  Z.testbit (default 0 (bloom !! bloomIdx bloomBits key)) (bloomBit bloomBits key).
Proof. apply land_bit, bloom_position. Qed.

Lemma bloomAdd_has bloom key key' :
  length bloom = 1024%nat -> key' = key \/ bloomHas bloomBits bloom key' = true ->
  bloomHas bloomBits (bloomAdd bloom key) key' = true.
Proof.
  intros Hlen Hk. rewrite bloomHas_test in *. unfold bloomAdd.
  destruct (bloom_position key) as [Hi Hb], (bloom_position key') as [Hi' Hb'].
  destruct (decide (bloomIdx bloomBits key = bloomIdx bloomBits key')) as [E|Hne].
  - rewrite <- E in *. rewrite list_lookup_alter_eq.
    destruct (lookup_lt_is_Some_2 bloom (bloomIdx bloomBits key)) as [b Hbt]; [lia|].
    rewrite Hbt in *. simpl in *. rewrite Z.lor_spec, Z.shiftl_1_l.
    destruct Hk as [-> | ->]; [|done]. rewrite Z.pow2_bits_true by done. apply orb_true_r.
  - rewrite list_lookup_alter_ne by done. destruct Hk as [-> | Hk]; done.
Qed.

(** * The digest of a store *)

(** A key that a read returns at [now]. *)
Definition readable (now : Z) (s : MemStorage) (k : string) (ci : compressedItem) : Prop :=
  k <> ""%string /\ contents s k = Some ci /\ steady now ci /\
  (exists v, ci_decode poolCap ci = inr v) /\ (shardIndex s k < length (shards s))%nat.

Lemma readable_keeps now s s' k ci : keeps now s s' -> readable now s k ci -> readable now s' k ci.
Proof.
  intros [Hc Hl Hi] (Hk & Hct & Hst & Hd & Hlt). split_and!; auto.
  by rewrite (shardIndex_cfg s' s), Hl by done.
Qed.

Lemma StoreGet_readable now s k ci :
  readable now s k ci ->
  exists v, (StoreGet poolCap s k now).2 = inr (mkItem (ci_Version ci) (ci_ExpireAt ci) v "").
Proof.
  intros (Hk & Hct & [Hst _] & [v Hd] & _). exists v. unfold StoreGet.
  rewrite (getWith_present poolCap FastCloneBytes s k now ci) by (done || apply FastCloneBytes_id).
  by rewrite Hd.
Qed.

Lemma digest_fold now keys : forall s bloom vv,
  length bloom = 1024%nat ->
  let '(s', bloom', vv') := fold_left (digestKey now) keys (s, bloom, vv) in
  keeps now s s' /\ length bloom' = 1024%nat /\
  (forall k, k ∈ keys \/ bloomHas bloomBits bloom k = true -> bloomHas bloomBits bloom' k = true) /\
  (forall k ci, k ∈ keys -> readable now s k ci -> 0 < ci_Version ci ->
     (vv !! k = None \/ vv !! k = Some (ci_Version ci)) -> vv' !! k = Some (ci_Version ci)) /\
  (forall k ci, readable now s k ci -> vv !! k = Some (ci_Version ci) ->
     vv' !! k = Some (ci_Version ci)).
Proof.
  induction keys as [|key keys IH]; intros s bloom vv Hlen; cbn [fold_left].
  { split; [done|]. split; [done|]. split; [set_solver|]. split; [set_solver|done]. }
  unfold digestKey at 2. pose proof (keeps_getWith FastCloneBytes s key now) as Hkp.
  fold (StoreGet poolCap s key now) in Hkp.
  pose proof (fun ci => StoreGet_readable now s key ci) as Hget.
  destruct (StoreGet poolCap s key now) as [s1 res]. cbn [fst snd] in *.
  set (vv1 := match res with
              | inr item => if default 0 (vv !! key) <? si_Version item
                            then <[key := si_Version item]> vv else vv
              | inl _ => vv end).
  assert (Hlen1 : length (bloomAdd bloom key) = 1024%nat)
    by (unfold bloomAdd; by rewrite length_alter).
  specialize (IH s1 (bloomAdd bloom key) vv1 Hlen1).
  assert (Heq : (match res with
     | inl _ => (s1, bloomAdd bloom key, vv)
     | inr item => (s1, bloomAdd bloom key,
         if default 0 (vv !! key) <? si_Version item then <[key := si_Version item]> vv else vv)
     end) = (s1, bloomAdd bloom key, vv1)) by (by destruct res).
  rewrite Heq. clear Heq.
  destruct (fold_left (digestKey now) keys (s1, bloomAdd bloom key, vv1)) as [[s' bloom'] vv'].
  destruct IH as (IH1 & IH2 & IH3 & IH4 & IH5).
  assert (Hvv1 : forall k ci, readable now s k ci -> vv !! k = Some (ci_Version ci) ->
            vv1 !! k = Some (ci_Version ci)).
  { intros k ci Hr Hv. unfold vv1. destruct res as [e|item]; [done|]. case_match; [|done].
    destruct (decide (k = key)) as [->|Hne]; [|by rewrite lookup_insert_ne].
    destruct (Hget ci Hr) as [v [= ->]]. by rewrite lookup_insert_eq. }
  assert (Hnew : forall ci, readable now s key ci -> 0 < ci_Version ci ->
    vv !! key = None \/ vv !! key = Some (ci_Version ci) -> vv1 !! key = Some (ci_Version ci)).
  { intros ci Hr Hpos Hold. unfold vv1. destruct (Hget ci Hr) as [v ->]. simpl.
    destruct Hold as [Hn|Hs].
    - rewrite Hn. simpl. destruct (Z.ltb_spec 0 (ci_Version ci)); [|lia].
      by rewrite lookup_insert_eq.
    - case_match; [by rewrite lookup_insert_eq|done]. }
  split; [by etransitivity|]. split; [done|]. split; [|split].
  - intros k Hk. apply IH3. apply or_comm in Hk.
    destruct Hk as [Hk|[->|Hk]%elem_of_cons]; [right|right|by left];
      apply bloomAdd_has; auto.
  - intros k ci Hk Hr Hpos Hold. pose proof (readable_keeps _ _ _ _ _ Hkp Hr) as Hr1.
    destruct (decide (k = key)) as [->|Hne].
    + apply IH5; [done|]. by apply Hnew.
    + apply IH4; [set_solver|done|done|]. destruct Hold as [Hn|Hs]; [left|right; by apply Hvv1].
      unfold vv1. destruct res; [done|]. case_match; [by rewrite lookup_insert_ne|done].
  - intros k ci Hr Hv. apply IH5; [by eapply readable_keeps|by apply Hvv1].
Qed.

Lemma Digest_spec s now :
  let '(s', bloom, vv) := Digest "" s now in
  keeps now s s' /\ length bloom = 1024%nat /\
  (forall k, k ∈ (Keys s now).2 -> bloomHas bloomBits bloom k = true) /\
  (forall k ci, readable now s k ci ->
     bloomHas bloomBits bloom k = true /\ (0 < ci_Version ci -> vv !! k = Some (ci_Version ci))).
Proof.
  unfold Digest, getKeysInRange. destruct (Keys_spec s now) as [Hkp Hks].
  destruct (Keys s now) as [s1 keys]. cbn [fst snd] in *. rewrite bool_decide_eq_true_2 by done.
  pose proof (digest_fold now keys s1 (replicate 1024 0) ∅ (length_replicate _ _)) as Hf.
  destruct (fold_left (digestKey now) keys (s1, replicate 1024 0, ∅)) as [[s' bloom] vv].
  destruct Hf as (H1 & H2 & H3 & H4 & _). split; [by etransitivity|]. split; [done|].
  split; [auto|]. intros k ci Hr. pose proof Hr as (Hk & Hct & Hst & Hd & Hlt).
  assert (Hin : k ∈ keys) by (by eapply Hks). split; [auto|].
  intros Hpos. apply H4; [done|by eapply readable_keeps|done|]. left. apply lookup_empty.
Qed.

(** * The comparison with the own digest *)

Lemma syncKey_fold now bloom localBloom keys : forall s diff,
  length bloom = 1024%nat ->
  let '(s', diff') := fold_left (syncKey now bloom localBloom ∅) keys (s, diff) in
  keeps now s s' /\ diff ⊆ diff' /\
  (forall k ci, k ∈ keys -> readable now s k ci -> bloomHas bloomBits bloom k = true -> k ∈ diff').
Proof.
  induction keys as [|key keys IH]; intros s diff Hlen; cbn [fold_left].
  { split; [done|]. split; [done|]. set_solver. }
  destruct (syncKey now bloom localBloom ∅ (s, diff) key) as [s1 diff1] eqn:E.
  assert (Hstep : keeps now s s1 /\ diff ⊆ diff1 /\
    forall ci, readable now s key ci -> bloomHas bloomBits bloom key = true -> key ∈ diff1).
  { unfold syncKey in E. rewrite Hlen in E. change (Z.of_nat 1024 * 8) with bloomBits in E.
    change (bloomBits =? 0) with false in E. cbv iota in E.
    destruct (negb (Bool.eqb _ _)).
    { injection E as <- <-. split; [done|]. split; [set_solver|set_solver]. }
    pose proof (keeps_getWith FastCloneBytes s key now) as Hkp.
    fold (StoreGet poolCap s key now) in Hkp.
    pose proof (fun ci => StoreGet_readable now s key ci) as Hget.
    destruct (StoreGet poolCap s key now) as [s2 res]. cbn [fst snd] in *.
    rewrite lookup_empty in E. destruct res as [e|item].
    - rewrite bool_decide_eq_false_2 in E by (by intros [? ?]). injection E as <- <-.
      split; [done|]. split; [done|]. intros ci Hr. by destruct (Hget ci Hr).
    - injection E as <- <-. split; [done|]. split; [case_match; set_solver|].
      intros ci _ ->. set_solver. }
  destruct Hstep as (Hs1 & Hs2 & Hs3). specialize (IH s1 diff1 Hlen).
  destruct (fold_left (syncKey now bloom localBloom ∅) keys (s1, diff1)) as [s' diff'].
  destruct IH as (IH1 & IH2 & IH3). split; [by etransitivity|]. split; [set_solver|].
  intros k ci [->|Hk]%elem_of_cons Hr Hb; [by eapply IH2, Hs3|].
  eapply IH3; [done|by eapply readable_keeps|done].
Qed.

Lemma Sync_own s now bloom k ci :
  length bloom = 1024%nat -> readable now s k ci -> bloomHas bloomBits bloom k = true ->
  k ∈ (Sync bloom ∅ s now).2.
Proof.
  intros Hlen Hr Hb. unfold Sync, getAllKeys. destruct (Keys_spec s now) as [Hkp Hks].
  destruct (Keys s now) as [s1 keys]. cbn [fst snd] in *.
  pose proof (readable_keeps _ _ _ _ _ Hkp Hr) as Hr1.
  pose proof (Digest_spec s1 now) as Hd. destruct (Digest "" s1 now) as [[s2 lb] lvv].
  destruct Hd as (Hkp2 & _). pose proof (readable_keeps _ _ _ _ _ Hkp2 Hr1) as Hr2.
  pose proof (syncKey_fold now bloom lb keys s2 [] Hlen) as Hf.
  destruct (fold_left (syncKey now bloom lb ∅) keys (s2, [])) as [s3 diff].
  destruct Hf as (_ & _ & Hf). rewrite map_to_list_empty. simpl.
  eapply Hf; [|done|done]. destruct Hr as (_ & Hct & Hst & _ & Hlt). eauto.
Qed.
End entropy.

(** The digest of a store has no false negatives: the bit of every key of
    the store is set in the bloom filter, and the version vector holds the
    version of every key that can be read and has a positive version. *)
Theorem digest_complete `{XXH3, LZ4} poolCap s now k ci :
  store_wf s -> k <> ""%string -> contents s k = Some ci -> steady now ci ->
  (exists v, ci_decode poolCap ci = inr v) ->
  let '(_, bloom, vv) := Digest poolCap "" s now in
  length bloom = 1024%nat /\ bloomHas (Z.of_nat (length bloom) * 8) bloom k = true /\
  (0 < ci_Version ci -> vv !! k = Some (ci_Version ci)).
Proof.
  intros Hw Hk Hc Hst Hd. pose proof (Digest_spec poolCap s now) as Hs.
  destruct (Digest poolCap "" s now) as [[s' bloom] vv]. destruct Hs as (_ & Hlen & _ & Hr).
  rewrite Hlen. destruct (Hr k ci) as [Hb Hv]; [|done].
  split_and!; try done. by eapply shardIndex_lt.
Qed.

(** A round of anti-entropy compares the digest of the node with itself
    and an empty version vector, so that every readable key counts as a
    difference: as soon as the store holds one, the round pulls from the
    chosen member, which drains the operations that wait for replication. *)
Theorem entropy_pulls `{XXH3, LZ4, SortSlice} poolCap g members s now k ci :
  store_wf s -> k <> ""%string -> contents s k = Some ci -> steady now ci ->
  (exists v, ci_decode poolCap ci = inr v) -> entropyTargets members <> [] ->
  exists s' target, target ∈ entropyTargets members /\
    doAntiEntropy poolCap g members s now = Pull poolCap g s' target now.
Proof.
  intros Hw Hk Hc Hst Hd Hm. unfold doAntiEntropy.
  destruct (entropyTargets members) as [|first rest] eqn:Et; [done|].
  set (alive := first :: rest). set (h := Z.abs _).
  assert (Hh : (Z.to_nat h < length alive)%nat).
  { unfold h. assert (0 < Z.of_nat (length alive)) by (simpl; lia).
    pose proof (Z.rem_bound_abs (UnixNano now) (Z.of_nat (length alive))). lia. }
  destruct (lookup_lt_is_Some_2 alive _ Hh) as [target Ht]. rewrite Ht. simpl.
  assert (Hr : readable poolCap now s k ci).
  { split_and!; try done. by eapply shardIndex_lt. }
  pose proof (Digest_spec poolCap s now) as Hs.
  destruct (Digest poolCap "" s now) as [[s1 bloom] vv].
  destruct Hs as (Hkp & Hlen & _ & Hbits). destruct (Hbits k ci Hr) as [Hb _].
  pose proof (Sync_own poolCap s1 now bloom k ci Hlen (readable_keeps _ _ _ _ _ _ Hkp Hr) Hb) as Hin.
  destruct (Sync poolCap bloom ∅ s1 now) as [s2 diff]. simpl in Hin.
  destruct diff as [|d diff]; [set_solver|]. exists s2, target. split; [|done].
  by eapply list_elem_of_lookup_2.
Qed.

#[local] Existing Instance ToyHash.xxh3.
#[local] Existing Instance RunLength.lz4.
#[local] Existing Instance MergeSort.sort.

Definition demoStored : compressedItem := (prepareCompressedItem 0 demoStore "a" demoItem).1.

Lemma demoStored_readable :
  contents demoStore1 "a" = Some demoStored /\ steady 5 demoStored /\
  exists v, ci_decode 0 demoStored = inr v.
Proof. split; [vm_compute; reflexivity|]. split; [done|]. eexists. vm_compute. reflexivity. Qed.

Lemma digest_complete_witness :
  (Digest 0 "" demoStore1 5).2 !! "a"%string = Some 7.
Proof.
  destruct demoStored_readable as (Hc & Hst & Hd).
  pose proof (digest_complete 0 demoStore1 5 "a" demoStored demoStore1_wf ltac:(discriminate)
    Hc Hst Hd) as K.
  destruct (Digest 0 "" demoStore1 5) as [[s' bloom] vv]. by apply K.
Defined.

Lemma entropy_pulls_witness :
  exists s', doAntiEntropy 0 (newGossip "n1" demoRing 2) [mkNode "n2" "h:2" 1 0 0 0] demoStore1 5
    = Pull 0 (newGossip "n1" demoRing 2) s' "h:2" 5.
Proof.
  destruct demoStored_readable as (Hc & Hst & Hd).
  destruct (entropy_pulls 0 (newGossip "n1" demoRing 2) [mkNode "n2" "h:2" 1 0 0 0] demoStore1 5
    "a" demoStored demoStore1_wf ltac:(discriminate) Hc Hst Hd ltac:(discriminate))
    as (s' & target & Ht & E).
  apply list_elem_of_singleton in Ht as ->. exists s'. exact E.
Defined.
