(* ===== verification/Checkpoint.v ===== *)
(** * Checkpoints on a file system that can stop

    [SaveCheckpoint] and [LoadCheckpoint] of internal/cluster/entropy.go as
    sequences of system calls.  A file system keeps what the running system
    sees and what a stop of the machine may leave of it: data that has not been
    synced may be anything then, and changes of the directory may or may not
    have reached the disk. *)

From S2P Require Import Prelude StoredItem SyncBuffer Codec.

(** * The file system *)

(** The data of a file, and whether all of it is on the disk. *)
Record inode := mkInode { in_data : bytes; in_synced : bool }.

Abbreviation directory := (gmap string nat).

(** The directory, the earlier ones that a stop may bring back, the files, and
    the next number of a file. *)
Record disk := mkDisk {
  dk_dir : directory;
  dk_past : list directory;
  dk_inodes : gmap nat inode;
  dk_next : nat;
}.

Definition blankDisk : disk := mkDisk ∅ [] ∅ 0.

Definition possible (d : disk) : list directory := dk_dir d :: dk_past d.

(** A stop of the machine and the start that follows: one of the directories,
    and files of which only those synced are certain. *)
Definition crash (d d' : disk) : Prop :=
  dk_dir d' ∈ possible d /\ dk_past d' = [] /\ dk_next d' = dk_next d /\
  forall i n, dk_inodes d !! i = Some n ->
    if in_synced n then dk_inodes d' !! i = Some n
    else exists data, dk_inodes d' !! i = Some (mkInode data true).

Definition readFile (path : string) (d : disk) : option bytes :=
  i ← dk_dir d !! path; in_data <$> dk_inodes d !! i.

Definition set_dir (D : directory) (d : disk) : disk :=
  mkDisk D (dk_dir d :: dk_past d) (dk_inodes d) (dk_next d).
Definition set_inode (i : nat) (n : inode) (d : disk) : disk :=
  mkDisk (dk_dir d) (dk_past d) (<[i := n]> (dk_inodes d)) (dk_next d).

(** * System calls *)

(** What happens to a call: it succeeds, it returns an error, or the machine
    stops in it; [n] bytes of a write have been done, and of another call
    nothing for 0. *)
Inductive verdict := Goes | Errs (n : nat) | Stops (n : nat).

Inductive answer (A : Type) := Returns (a : A) | Halts.
Arguments Returns {A} a.
Arguments Halts {A}.

(** A program on a disk whose calls meet the verdicts of a list, and succeed
    beyond its end. *)
Definition io (A : Type) : Type := list verdict -> disk -> answer A * list verdict * disk.

#[global] Instance io_ret : MRet io := fun A a vs d => (Returns a, vs, d).
#[global] Instance io_bind : MBind io := fun A B k m vs d =>
  match m vs d with
  | (Returns a, vs, d) => k a vs d
  | (Halts, vs, d) => (Halts, vs, d)
  end.

(** A call that happens or not; [true] is an error. *)
Definition atomically (effect : disk -> disk) : io bool := fun vs d =>
  match vs with
  | [] => (Returns false, [], effect d)
  | Goes :: vs => (Returns false, vs, effect d)
  | Errs _ :: vs => (Returns true, vs, d)
  | Stops O :: vs => (Halts, vs, d)
  | Stops (S _) :: vs => (Halts, vs, effect d)
  end.

Definition append (i : nat) (data : bytes) (d : disk) : disk :=
  match dk_inodes d !! i with
  | Some n => set_inode i (mkInode (in_data n ++ data) false) d
  | None => d
  end.

(** A write may be done in part. *)
Definition os_Write (i : nat) (data : bytes) : io bool := fun vs d =>
  match vs with
  | [] => (Returns false, [], append i data d)
  | Goes :: vs => (Returns false, vs, append i data d)
  | Errs n :: vs => (Returns true, vs, append i (take n data) d)
  | Stops n :: vs => (Halts, vs, append i (take n data) d)
  end.

Definition sync (i : nat) (d : disk) : disk :=
  match dk_inodes d !! i with Some n => set_inode i (mkInode (in_data n) true) d | None => d end.

(** Opening with truncation: a file that exists loses its data. *)
Definition truncate (path : string) (d : disk) : disk :=
  match dk_dir d !! path with
  | Some i => set_inode i (mkInode [] false) d
  | None =>
      let i := dk_next d in
      mkDisk (<[path := i]> (dk_dir d)) (dk_dir d :: dk_past d) (<[i := mkInode [] false]> (dk_inodes d)) (S i)
  end.

Definition rename (from to : string) (d : disk) : disk :=
  match dk_dir d !! from with
  | Some i => set_dir (<[to := i]> (delete from (dk_dir d))) d
  | None => d
  end.

Definition os_MkdirAll : io bool := atomically (fun d => d).
(** The file, or [None] with an error. *)
Definition os_Create (path : string) : io (option nat) :=
  err ← atomically (truncate path);
  if (err : bool) then mret None else fun vs d => (Returns (dk_dir d !! path), vs, d).
Definition os_Sync (i : nat) : io bool := atomically (sync i).
Definition os_Close : io bool := atomically (fun d => d).
Definition os_Remove (path : string) : io bool := atomically (fun d => set_dir (delete path (dk_dir d)) d).
Definition os_Rename (from to : string) : io bool := atomically (rename from to).

(** * Saving and loading *)

Definition tmpPath (path : string) : string := (path ++ ".tmp")%string.

Definition lengthPrefix (data : bytes) : bytes := le_encode 4 (uint 32 (Z.of_nat (length data))).
Definition checkpointFile (ops : list SyncOperation) : bytes :=
  let data := slice_bytes (Serialize ops) in lengthPrefix data ++ data.

(** What follows an error after the temporary file has been opened. *)
Definition discard (tmp : string) : io bool := _ ← os_Close; _ ← os_Remove tmp; mret true.

Definition saveCalls (path : string) (ops : list SyncOperation) : io bool :=
  match ops with
  | [] => mret false
  | _ =>
      let data := slice_bytes (Serialize ops) in
      err ← os_MkdirAll;
      if (err : bool) then mret true
      else
        let tmp := tmpPath path in
        f ← os_Create tmp;
        match f with
        | None => mret true
        | Some f =>
            err ← os_Write f (lengthPrefix data);
            if (err : bool) then discard tmp
            else
              err ← os_Write f data;
              if (err : bool) then discard tmp
              else
                err ← os_Sync f;
                if (err : bool) then discard tmp
                else
                  err ← os_Close;
                  if (err : bool) then _ ← os_Remove tmp; mret true
                  else os_Rename tmp path
        end
  end.

Inductive saved := Saved | SaveFailed | MachineStopped.

Definition SaveCheckpoint (vs : list verdict) (path : string) (ops : list SyncOperation) (d : disk) : disk * saved :=
  match saveCalls path ops vs d with
  | (Returns err, _, d) => (d, if (err : bool) then SaveFailed else Saved)
  | (Halts, _, d) => (d, MachineStopped)
  end.

Definition parseCheckpoint (file : option bytes) : list (option SyncOperation) :=
  match file with
  | None => []
  | Some data =>
      if (length data <? 4)%nat then []
      else
        let len := le_decode (take 4 data) in
        if Z.of_nat (length data) <? 4 + len then []
        else Deserialize (Some (take (Z.to_nat (uint 32 (4 + len) - 4)) (drop 4 data)))
  end.

Definition LoadCheckpoint (path : string) (d : disk) : list (option SyncOperation) :=
  parseCheckpoint (readFile path d).

(** A batch that the format can carry. *)
Definition storable (ops : list SyncOperation) : Prop :=
  Forall op_fits ops /\ Z.of_nat (length ops) < 2 ^ 32 /\
  Z.of_nat (length (slice_bytes (Serialize ops))) < 2 ^ 32 - 4.

Lemma parse_file ops : storable ops -> parseCheckpoint (Some (checkpointFile ops)) = Some <$> omap wire_op ops.
Proof.
  intros (Hf & Hn & Hlen). unfold parseCheckpoint, checkpointFile, lengthPrefix.
  set (data := slice_bytes (Serialize ops)) in *.
  assert (H4 : length (le_encode 4 (uint 32 (Z.of_nat (length data)))) = 4%nat) by apply length_le_encode.
  rewrite length_app, H4.
  destruct (Nat.ltb_spec (4 + length data) 4); [lia|].
  rewrite take_app_length', drop_app_length' by done.
  rewrite (uint_id 32) by (unfold is_uint; lia).
  rewrite (le_roundtrip_u 4 _ 32) by (done || unfold is_uint; lia).
  destruct (Z.ltb_spec (Z.of_nat (4 + length data)) (4 + Z.of_nat (length data))); [lia|].
  rewrite (uint_id 32) by (unfold is_uint; lia).
  rewrite take_ge by lia. by apply Deserialize_wire.
Qed.

Lemma tmpPath_ne path : tmpPath path <> path.
Proof.
  unfold tmpPath. intros E. apply (f_equal String.length) in E.
  revert E. induction path as [|c path IH]; simpl; [done|]. intros [= E]. auto.
Qed.

(** * The invariant *)

(** What the path may name after a stop. *)
Definition names (path : string) (d : disk) (o : option nat) : Prop := exists D, D ∈ possible d /\ D !! path = o.

(** Every file that the path may name is complete on the disk, and no call on
    the temporary file reaches it. *)
Record intact (path : string) (d : disk) : Prop := {
  ia_synced i : names path d (Some i) -> exists data, dk_inodes d !! i = Some (mkInode data true);
  ia_next i : names path d (Some i) -> (i < dk_next d)%nat;
  ia_tmp i : names path d (Some i) -> dk_dir d !! tmpPath path <> Some i;
  ia_each D i : D ∈ possible d -> D !! path = Some i -> D !! tmpPath path <> Some i;
  ia_below D i : D ∈ possible d -> D !! tmpPath path = Some i -> (i < dk_next d)%nat;
}.

(** What the path may name is as it was. *)
Record untouched (path : string) (d0 d : disk) : Prop := {
  ut_names o : names path d o <-> names path d0 o;
  ut_now : dk_dir d !! path = dk_dir d0 !! path;
  ut_inodes i : names path d0 (Some i) -> dk_inodes d !! i = dk_inodes d0 !! i;
}.

Lemma names_set_dir path D d o : names path (set_dir D d) o <-> D !! path = o \/ names path d o.
Proof.
  unfold names, possible. cbn [set_dir dk_dir dk_past]. split.
  - intros (D' & HD & E). apply elem_of_cons in HD as [->|HD]; [by left|]. right. by exists D'.
  - intros [E|(D' & HD & E)]; [exists D|exists D']; (split; [|done]); [by left|by right].
Qed.

Section calls.
Context (path : string) (d0 : disk).
Abbreviation tmp := (tmpPath path).

(** A disk on the way to a checkpoint. *)
Record working (d : disk) : Prop := { wk_intact : intact path d; wk_same : untouched path d0 d }.

(** Changes of the temporary file do not reach what the path may name. *)
Lemma working_inode d i n : working d -> dk_dir d !! tmp = Some i -> working (set_inode i n d).
Proof.
  intros [[Hs Hn Ht He Hb] [Hu1 Hu2 Hu3]] Hi.
  assert (Hne : forall j, names path d (Some j) -> i <> j) by (intros j Hj ->; by apply (Ht j Hj)).
  split; split; cbn [set_inode dk_inodes dk_dir dk_next]; try done.
  - intros j Hj. rewrite lookup_insert_ne by by apply Hne. by apply Hs.
  - intros j Hj. rewrite lookup_insert_ne by by apply Hne, Hu1. by apply Hu3.
Qed.

(** Changes of the directory that leave the path alone. *)
Lemma working_dir d D :
  working d -> D !! path = dk_dir d !! path -> (D !! tmp = None \/ D !! tmp = dk_dir d !! tmp) -> working (set_dir D d).
Proof.
  intros [[Hs Hn Ht He Hb] [Hu1 Hu2 Hu3]] Hp Htmp.
  assert (Hnames : forall o, names path (set_dir D d) o <-> names path d o).
  { intros o. rewrite names_set_dir. split; [|by right]. intros [<-|]; [|done]. exists (dk_dir d). split; [by left|done]. }
  split; split; cbn [set_dir dk_inodes dk_dir dk_next].
  - intros i Hi%Hnames. by apply Hs.
  - intros i Hi%Hnames. by apply Hn.
  - intros i Hi%Hnames. destruct Htmp as [->| ->]; [done|by apply Ht].
  - intros D' i [->|HD']%elem_of_cons; [|by apply He]. cbn [set_dir dk_dir]. intros Hi.
    destruct Htmp as [->| ->]; [done|]. apply Ht. exists (dk_dir d). split; [by left|]. by rewrite <- Hp.
  - intros D' i [->|HD']%elem_of_cons; [|by apply Hb]. cbn [set_dir dk_dir].
    destruct Htmp as [->| ->]; [done|]. apply Hb. by left.
  - intros o. by rewrite Hnames.
  - by rewrite Hp.
  - done.
Qed.

Lemma working_truncate d : working d -> working (truncate tmp d).
Proof.
  intros Hw. unfold truncate. destruct (dk_dir d !! tmp) as [i|] eqn:Ei; [by apply working_inode|].
  destruct Hw as [[Hs Hn Ht He Hb] [Hu1 Hu2 Hu3]].
  set (D := <[tmp := dk_next d]> (dk_dir d)).
  assert (Hp : D !! path = dk_dir d !! path) by (apply lookup_insert_ne, tmpPath_ne).
  set (d' := mkDisk _ _ _ _).
  assert (Hnames : forall o, names path d' o <-> names path d o).
  { intros o. change (names path (set_dir D d) o <-> names path d o). rewrite names_set_dir. split; [|by right].
    intros [<-|]; [|done]. exists (dk_dir d). split; [by left|done]. }
  assert (Hne : forall i, names path d (Some i) -> dk_next d <> i) by (intros i Hi%Hn; lia).
  split; split; cbn [d' dk_inodes dk_dir dk_next].
  - intros i Hi%Hnames. rewrite lookup_insert_ne by by apply Hne. by apply Hs.
  - intros i Hi%Hnames%Hn. lia.
  - intros i Hi%Hnames. unfold D. rewrite lookup_insert_eq. intros [= E]. by apply (Hne i).
  - intros D' i [->|HD']%elem_of_cons; [|by apply He]. cbn [d' dk_dir]. intros Hi.
    unfold D. rewrite lookup_insert_eq. intros [= E]. apply (Hne i); [|done].
    exists (dk_dir d). split; [by left|]. by rewrite <- Hp.
  - intros D' i [->|HD']%elem_of_cons; cbn [d' dk_dir].
    + unfold D. rewrite lookup_insert_eq. intros [= <-]. lia.
    + intros Hi. specialize (Hb D' i HD' Hi). lia.
  - intros o. by rewrite Hnames.
  - by rewrite Hp.
  - intros i Hi. rewrite lookup_insert_ne by by apply Hne, Hu1. by apply Hu3.
Qed.

(** What a program that starts on [d] may leave: [W] if the machine stops. *)
Definition leaves {A} (m : io A) (d : disk) (Q : A -> disk -> Prop) (W : disk -> Prop) : Prop :=
  forall vs, match m vs d with (Returns a, _, d') => Q a d' | (Halts, _, d') => W d' end.

Lemma leaves_ret {A} (a : A) d (Q : A -> disk -> Prop) W : Q a d -> leaves (mret a) d Q W.
Proof. by intros HQ vs. Qed.

Lemma leaves_bind {A B} (m : io A) (k : A -> io B) d Q W :
  leaves m d (fun a d' => leaves (k a) d' Q W) W -> leaves (mbind k m) d Q W.
Proof.
  intros Hm vs. specialize (Hm vs). unfold mbind, io_bind. destruct (m vs d) as [[[a|] vs'] d']; [apply Hm|done].
Qed.

Lemma leaves_atomically effect d (Q : bool -> disk -> Prop) (W : disk -> Prop) :
  Q false (effect d) -> Q true d -> W d -> W (effect d) -> leaves (atomically effect) d Q W.
Proof. intros H1 H2 H3 H4 vs. unfold atomically. by destruct vs as [|[| |[|]] vs]. Qed.

(** The temporary file while it is written. *)
Definition writing (f : nat) (data : bytes) (synced : bool) (d : disk) : Prop :=
  working d /\ dk_dir d !! tmp = Some f /\ dk_inodes d !! f = Some (mkInode data synced).

Lemma writing_append f data synced more d : writing f data synced d -> writing f (data ++ more) false (append f more d).
Proof.
  intros (Hw & Hf & Hi). unfold append. rewrite Hi. split_and!; [by apply working_inode|done|apply lookup_insert_eq].
Qed.

Lemma leaves_write f data synced more d (Q : bool -> disk -> Prop) :
  writing f data synced d ->
  (forall d', writing f (data ++ more) false d' -> Q false d') -> (forall d', working d' -> Q true d') ->
  leaves (os_Write f more) d Q working.
Proof.
  intros Hw Hok Herr vs. unfold os_Write.
  assert (Hpart : forall n, working (append f (take n more) d)) by (intros n; by apply (writing_append f data synced)).
  pose proof (Hok _ (writing_append f data synced more d Hw)) as Hall. destruct vs as [|[|n|n] vs]; auto.
Qed.

Lemma working_remove d : working d -> working (set_dir (delete tmp (dk_dir d)) d).
Proof.
  intros Hw. apply working_dir; [done|apply lookup_delete_ne, tmpPath_ne|left; apply lookup_delete_eq].
Qed.

Lemma leaves_remove d (W : disk -> Prop) :
  (forall d', working d' -> W d') -> working d ->
  leaves (_ ← os_Remove tmp; mret true) d (fun err d' => err = true /\ working d') W.
Proof.
  intros HW Hw. apply leaves_bind, leaves_atomically; auto using working_remove; apply leaves_ret; auto using working_remove.
Qed.

Lemma leaves_discard d (W : disk -> Prop) :
  (forall d', working d' -> W d') -> working d -> leaves (discard tmp) d (fun err d' => err = true /\ working d') W.
Proof. intros HW Hw. apply leaves_bind, leaves_atomically; auto using leaves_remove. Qed.

(** The path names the new file, and may still name after a stop what it could. *)
Record renamed (f : nat) (data : bytes) (d : disk) : Prop := {
  rn_intact : intact path d;
  rn_now : dk_dir d !! path = Some f;
  rn_file : dk_inodes d !! f = Some (mkInode data true);
  rn_names o : names path d o <-> o = Some f \/ names path d0 o;
  rn_inodes i : names path d0 (Some i) -> dk_inodes d !! i = dk_inodes d0 !! i;
}.

Lemma writing_renamed f data d : writing f data true d -> renamed f data (rename tmp path d).
Proof.
  intros ([[Hs Hn Ht He Hb] [Hu1 Hu2 Hu3]] & Hf & Hi). unfold rename. rewrite Hf.
  assert (Hlt : (f < dk_next d)%nat) by (apply (Hb (dk_dir d)); [by left|done]).
  set (D := <[path := f]> (delete tmp (dk_dir d))).
  assert (Hp : D !! path = Some f) by apply lookup_insert_eq.
  assert (Htmp : D !! tmp = None).
  { unfold D. rewrite lookup_insert_ne by (intros E; by apply (tmpPath_ne path)). apply lookup_delete_eq. }
  assert (Hnames : forall o, names path (set_dir D d) o <-> o = Some f \/ names path d o).
  { intros o. rewrite names_set_dir, Hp. by split; intros [E|]; auto. }
  split; cbn [set_dir dk_dir dk_inodes]; try done.
  - split; cbn [set_dir dk_dir dk_inodes dk_next].
    + intros i [[= ->]|Hx]%Hnames; [by eexists|by apply Hs].
    + intros i [[= ->]|Hx]%Hnames; [done|by apply Hn].
    + intros i _. by rewrite Htmp.
    + intros D' i [->|HD']%elem_of_cons; [|by apply He]. intros _. cbn [set_dir dk_dir]. by rewrite Htmp.
    + intros D' i [->|HD']%elem_of_cons; [|by apply Hb]. cbn [set_dir dk_dir]. by rewrite Htmp.
  - intros o. rewrite Hnames. by rewrite Hu1.
Qed.
Lemma leaves_create d (Q : option nat -> disk -> Prop) :
  working d -> (forall f d', writing f [] false d' -> Q (Some f) d') ->
  (forall d', working d' -> Q None d') -> leaves (os_Create tmp) d Q working.
Proof.
  intros Hw Hok Herr. pose proof (working_truncate d Hw) as Hw'.
  apply leaves_bind, leaves_atomically; auto; [|apply leaves_ret; auto]. intros vs.
  assert (exists f, dk_dir (truncate tmp d) !! tmp = Some f /\
    dk_inodes (truncate tmp d) !! f = Some (mkInode [] false)) as (f & Hf & Hi).
  { unfold truncate. destruct (dk_dir d !! tmp) as [i|] eqn:E.
    - exists i. split; [done|apply lookup_insert_eq].
    - exists (dk_next d). split; apply lookup_insert_eq. }
  rewrite Hf. by apply Hok.
Qed.

(** What a save leaves: after an error what was there; after success the new
    file under the path; after a stop either. *)
Definition stopped (ops : list SyncOperation) (d : disk) : Prop :=
  working d \/ ops <> [] /\ exists f, renamed f (checkpointFile ops) d.

Lemma leaves_weaken {A} (m : io A) d Q (W W' : disk -> Prop) :
  (forall d', W d' -> W' d') -> leaves m d Q W -> leaves m d Q W'.
Proof. intros HW Hm vs. specialize (Hm vs). destruct (m vs d) as [[[a|] vs'] d']; auto. Qed.

Lemma leaves_save ops d :
  working d ->
  leaves (saveCalls path ops) d
    (fun err d' => if (err : bool) then working d' else match ops with [] => d' = d | _ =>
       exists f, renamed f (checkpointFile ops) d' end)
    (stopped ops).
Proof.
  intros Hw. unfold saveCalls. destruct ops as [|op ops]; [by apply leaves_ret|].
  assert (HW : forall d', working d' -> stopped (op :: ops) d') by by left.
  set (file := checkpointFile (op :: ops)). set (data := slice_bytes _).
  assert (Herr : forall d', working d' -> leaves (discard tmp) d'
    (fun err d' => if (err : bool) then working d' else exists f, renamed f file d') (stopped (op :: ops))).
  { intros d' Hd' vs. pose proof (leaves_discard d' (stopped (op :: ops)) HW Hd' vs) as Hl.
    destruct (discard tmp vs d') as [[[err|] vs'] d'']; [|done]. by destruct Hl as [-> Hl]. }
  apply leaves_bind, leaves_atomically; auto using leaves_ret.
  apply leaves_bind. eapply leaves_weaken; [exact HW|]. apply leaves_create; auto using leaves_ret. clear d Hw.
  intros f d Hf. apply leaves_bind. eapply leaves_weaken; [exact HW|]. eapply leaves_write; [exact Hf| |auto]. clear d Hf.
  intros d Hf. apply leaves_bind. eapply leaves_weaken; [exact HW|]. eapply leaves_write; [exact Hf| |auto]. clear d Hf.
  intros d Hf. change (writing f file false d) in Hf.
  assert (Hs : writing f file true (sync f d)).
  { destruct Hf as (Hw & Hd & Hi). unfold sync. rewrite Hi. split_and!; [by apply working_inode|done|apply lookup_insert_eq]. }
  pose proof (writing_renamed f file _ Hs) as Hr. pose proof (proj1 Hf) as Hw. pose proof (proj1 Hs) as Hws.
  apply leaves_bind, leaves_atomically; auto. apply leaves_bind, leaves_atomically; auto.
  - apply leaves_atomically; auto; [by exists f|]. right. split; [done|]. by exists f.
  - intros vs. pose proof (leaves_remove (sync f d) (stopped (op :: ops)) HW Hws vs) as Hl.
    destruct (mbind _ (os_Remove tmp) vs (sync f d)) as [[[err|] vs'] d'']; [|done]. by destruct Hl as [-> Hl].
Qed.
End calls.

Lemma working_refl path d : intact path d -> working path d d.
Proof. by intros Hi; split. Qed.

(** * Stops *)

(** What the path may name, as the files are now. *)
Definition readAs (o : option nat) (d : disk) : option bytes := i ← o; in_data <$> dk_inodes d !! i.

Lemma crash_reads path d d' :
  intact path d -> crash d d' -> intact path d' /\ exists o, names path d o /\ readFile path d' = readAs o d.
Proof.
  intros [Hs Hn Ht He Hb] (HD & Hp & Hnx & Hin).
  assert (Hnames : forall o, names path d' o -> o = dk_dir d' !! path /\ names path d o).
  { intros o (D & HD' & Ho). unfold possible in HD'. rewrite Hp in HD'. apply list_elem_of_singleton in HD' as ->.
    split; [done|]. by exists (dk_dir d'). }
  assert (Hkeep : forall i, names path d (Some i) -> dk_inodes d' !! i = dk_inodes d !! i).
  { intros i Hi. destruct (Hs i Hi) as (data & E). rewrite E. apply (Hin i _ E). }
  split; [split|].
  - intros i [_ Hi]%Hnames. rewrite Hkeep by done. by apply Hs.
  - intros i [_ Hi]%Hnames. rewrite Hnx. by apply Hn.
  - intros i [E _]%Hnames. by apply He.
  - intros D i HD' Hi. unfold possible in HD'. rewrite Hp in HD'. apply list_elem_of_singleton in HD' as ->. by apply He.
  - intros D i HD' Hi. unfold possible in HD'. rewrite Hp in HD'. apply list_elem_of_singleton in HD' as ->.
    rewrite Hnx. by eapply Hb.
  - exists (dk_dir d' !! path). split; [by exists (dk_dir d')|]. unfold readFile, readAs.
    destruct (dk_dir d' !! path) as [i|] eqn:E; [|done]. cbn [mbind option_bind]. rewrite Hkeep; [done|].
    by exists (dk_dir d').
Qed.

(** The stop that brings back a directory and loses nothing. *)
Definition stopAt (D : directory) (d : disk) : disk :=
  mkDisk D [] ((fun n => mkInode (in_data n) true) <$> dk_inodes d) (dk_next d).

Lemma crash_stopAt D d : D ∈ possible d -> crash d (stopAt D d).
Proof.
  intros HD. split_and!; try done.
  intros i [data [|]] Hi; cbn [stopAt dk_inodes in_synced]; rewrite lookup_fmap, Hi; [done|]. by exists data.
Qed.

Lemma crash_exists path d o : names path d o -> exists d', crash d d' /\ readFile path d' = readAs o d.
Proof.
  intros (D & HD & <-). exists (stopAt D d). split.
  - by apply crash_stopAt.
  - unfold readFile, readAs. cbn [stopAt dk_dir dk_inodes]. destruct (D !! path) as [i|]; [|done]. cbn [mbind option_bind].
    rewrite lookup_fmap. by destruct (dk_inodes d !! i).
Qed.

(** What happens to a disk, with the batches that were to be saved. *)
Inductive history (path : string) : list (list SyncOperation) -> disk -> Prop :=
  | h_blank : history path [] blankDisk
  | h_save batches d vs ops : history path batches d -> history path (ops :: batches) (SaveCheckpoint vs path ops d).1
  | h_crash batches d d' : history path batches d -> crash d d' -> history path batches d'.

(** The outcomes of a save, with the disk. *)
Lemma SaveCheckpoint_cases vs path ops d :
  intact path d ->
  let '(d', r) := SaveCheckpoint vs path ops d in
  match r with
  | Saved => match ops with [] => d' = d | _ => exists f, renamed path d f (checkpointFile ops) d' end
  | SaveFailed => working path d d'
  | MachineStopped => stopped path d ops d'
  end.
Proof.
  intros Hi. pose proof (leaves_save path d ops d (working_refl path d Hi) vs) as Hl. unfold SaveCheckpoint.
  destruct (saveCalls path ops vs d) as [[[[|]|] vs'] d']; done.
Qed.

Lemma SaveCheckpoint_intact vs path ops d :
  intact path d ->
  working path d (SaveCheckpoint vs path ops d).1 \/
  ops <> [] /\ exists f, renamed path d f (checkpointFile ops) (SaveCheckpoint vs path ops d).1.
Proof.
  intros Hi. pose proof (SaveCheckpoint_cases vs path ops d Hi) as Hc.
  destruct (SaveCheckpoint vs path ops d) as [d' [| |]]; cbn [fst]; [|by left|done].
  destruct ops; [subst d'; left; by apply working_refl|by right].
Qed.

(** What a save changes of what the path may name. *)
Lemma SaveCheckpoint_names vs path ops d o :
  intact path d -> let d' := (SaveCheckpoint vs path ops d).1 in
  names path d' o -> (readAs o d' = readAs o d /\ names path d o) \/ (ops <> [] /\ readAs o d' = Some (checkpointFile ops)).
Proof.
  intros Hi d' Ho.
  assert (Hread : (forall i, names path d (Some i) -> dk_inodes d' !! i = dk_inodes d !! i) -> names path d o ->
    readAs o d' = readAs o d).
  { intros Hin Hod. destruct o as [i|]; [|done]. unfold readAs. cbn [mbind option_bind]. by rewrite Hin. }
  destruct (SaveCheckpoint_intact vs path ops d Hi) as [[_ [Hu _ Hin]]|(Hne & f & [_ _ Hf Hnm Hin])].
  - apply Hu in Ho. left. split; [by apply Hread|done].
  - apply Hnm in Ho as [->|Ho]; [right|left; split; [by apply Hread|done]].
    split; [done|]. unfold readAs. cbn [mbind option_bind]. fold d' in Hf. by rewrite Hf.
Qed.

Lemma history_inv path batches d :
  history path batches d ->
  intact path d /\
  forall o, names path d o -> readAs o d = None \/ exists ops, ops ∈ batches /\ ops <> [] /\ readAs o d = Some (checkpointFile ops).
Proof.
  induction 1 as [|batches d vs ops Hh [Hi Hr]|batches d d' Hh [Hi Hr] Hc].
  - split; [split|]; try (intros i (D & ->%list_elem_of_singleton & E); cbn [blankDisk dk_dir] in E; by rewrite lookup_empty in E);
      try (intros D i ->%list_elem_of_singleton E; cbn [blankDisk dk_dir] in E; by rewrite lookup_empty in E).
    intros o (D & ->%list_elem_of_singleton & <-). by left.
  - split; [by destruct (SaveCheckpoint_intact vs path ops d Hi) as [[]|(_ & f & [])]|].
    intros o Ho. destruct (SaveCheckpoint_names vs path ops d o Hi Ho) as [[-> Ho']|[Hne ->]].
    + destruct (Hr o Ho') as [E|(ops' & Hin & E)]; [by left|right]. exists ops'. split; [by right|done].
    + right. exists ops. split; [by left|done].
  - pose proof (crash_reads path d d' Hi Hc) as [Hi' (o' & Ho' & E)]. split; [done|].
    intros o (D & HD & <-). destruct Hc as (HDd & Hp & _). unfold possible in HD. rewrite Hp in HD.
    apply list_elem_of_singleton in HD as ->. change (readAs (dk_dir d' !! path) d') with (readFile path d').
    rewrite E. by apply Hr.
Qed.

(** C30. Checkpoints are atomic on a file system on which only a sync makes
    data durable and a change of the directory may or may not outlive a stop
    of the machine.  After any history of saves with any failing calls and
    stops, what is loaded is nothing or one whole batch that was to be saved.
    A further save that succeeds is what the running system loads next; one
    that fails leaves what was loaded before; and a stop during or after it
    leaves the new batch or something that a stop before it could leave.  The
    batches must fit the format; operations without an item are not kept. *)
Theorem checkpoint_atomic path batches d vs ops :
  history path batches d -> Forall storable (ops :: batches) ->
  let '(d', r) := SaveCheckpoint vs path ops d in
  let new := Some <$> omap wire_op ops in
  (LoadCheckpoint path d = [] \/ exists old, old ∈ batches /\ LoadCheckpoint path d = Some <$> omap wire_op old) /\
  (r = Saved -> LoadCheckpoint path d' = if decide (ops = []) then LoadCheckpoint path d else new) /\
  (r = SaveFailed -> LoadCheckpoint path d' = LoadCheckpoint path d) /\
  (forall d2, crash d' d2 ->
     (ops <> [] /\ LoadCheckpoint path d2 = new) \/
     exists d1, crash d d1 /\ LoadCheckpoint path d2 = LoadCheckpoint path d1).
Proof.
  intros Hh [Hst Hsts]%Forall_cons. destruct (history_inv path batches d Hh) as [Hi Hr].
  pose proof (SaveCheckpoint_cases vs path ops d Hi) as Hc.
  pose proof (SaveCheckpoint_intact vs path ops d Hi) as Hi'.
  pose proof (fun o => SaveCheckpoint_names vs path ops d o Hi) as Hn.
  destruct (SaveCheckpoint vs path ops d) as [d' r]. cbn [fst] in *. unfold LoadCheckpoint.
  split; [|split; [|split]].
  - destruct (Hr (dk_dir d !! path)) as [E|(old & Hin & _ & E)]; [by exists (dk_dir d); split; [left|]|left|right].
    + change (readFile path d) with (readAs (dk_dir d !! path) d). by rewrite E.
    + exists old. split; [done|]. change (readFile path d) with (readAs (dk_dir d !! path) d). rewrite E.
      apply parse_file. by eapply Forall_forall in Hsts.
  - intros ->. destruct ops as [|op ops]; [by subst d'|]. rewrite decide_False by done. destruct Hc as (f & [_ Hnow Hf _ _]).
    unfold readFile. rewrite Hnow. cbn [mbind option_bind]. rewrite Hf. by apply parse_file.
  - intros ->. destruct Hc as [_ [_ Hnow Hin]]. unfold readFile. rewrite Hnow.
    destruct (dk_dir d !! path) as [i|] eqn:E; [|done]. cbn [mbind option_bind]. rewrite Hin; [done|].
    exists (dk_dir d). split; [by left|done].
  - intros d2 Hcr. assert (Hd' : intact path d') by by destruct Hi' as [[]|(_ & f & [])].
    destruct (crash_reads path d' d2 Hd' Hcr) as (_ & o & Ho & ->).
    destruct (Hn o Ho) as [[-> Ho']|[Hne ->]]; [right|left; split; [done|by apply parse_file]].
    destruct (crash_exists path d o Ho') as (d1 & Hc1 & E1). exists d1. by rewrite E1.
Qed.

(** * Examples *)

Definition demoBatch (v : Z) : list SyncOperation := [mkOp "k" OpSet (Some (mkItem v zeroTime (Some []) ""))].

Lemma demoBatch_storable v : is_sint 64 v -> storable (demoBatch v).
Proof.
  intros Hv. split_and!; [|done|vm_compute; reflexivity]. repeat constructor; try done; try apply Hv; by left.
Qed.

(** The save of a second checkpoint stops while it writes its data: the first
    is loaded. *)
Lemma checkpoint_atomic_witness :
  let d := (SaveCheckpoint [] "c" (demoBatch 1) blankDisk).1 in
  let d' := (SaveCheckpoint [Goes; Goes; Goes; Stops 9] "c" (demoBatch 2) d).1 in
  (exists d1, crash d d1 /\ LoadCheckpoint "c" (stopAt (dk_dir d') d') = LoadCheckpoint "c" d1) /\
  LoadCheckpoint "c" (stopAt (dk_dir d') d') = [Some (mkOp "k" OpSet (Some (mkItem 1 zeroTime None "k")))].
Proof.
  intros d d'. split; [|vm_compute; reflexivity].
  assert (Hst : Forall storable [demoBatch 2; demoBatch 1]) by (apply Forall_cons; split; [|apply Forall_singleton]; by apply demoBatch_storable).
  pose proof (checkpoint_atomic "c" [demoBatch 1] d [Goes; Goes; Goes; Stops 9] (demoBatch 2)
    (h_save "c" [] blankDisk [] (demoBatch 1) (h_blank "c")) Hst) as Hc.
  assert (Hs : SaveCheckpoint [Goes; Goes; Goes; Stops 9] "c" (demoBatch 2) d = (d', MachineStopped)) by (vm_compute; reflexivity).
  rewrite Hs in Hc. destruct Hc as (_ & _ & _ & Hc).
  destruct (Hc (stopAt (dk_dir d') d')) as [[_ E]|Hd].
  - apply crash_stopAt. by left.
  - vm_compute in E. discriminate.
  - exact Hd.
Defined.
