(* ===== verification/Replay.v ===== *)
(** * Checkpoints and hinted handoff

    The replay part of internal/cluster/entropy.go, on the file system of
    [Checkpoint].  A retry of a handoff sees the membership of its time;
    operations that other calls queue while it sends are part of its attempt. *)

From S2P Require Import Prelude Hlc StoredItem Compress Lru SyncBuffer MemStorage MemStorageFacts.
From S2P Require Import MemStorageProps Codec HashRing Member Gossip Writer Checkpoint.

(** * Hinted handoff *)

Record replay := mkReplay {
  rp_path : string;
  rp_hints : gmap string (list SyncOperation);
}.

Definition newReplay (path : string) : replay :=
  mkReplay (if bool_decide (path = ""%string) then "./checkpoint.dat" else path) ∅.

(** The operations queued for a node; a missing entry is an empty slice. *)
Definition queued (r : replay) (nodeID : string) : list SyncOperation :=
  default [] (rp_hints r !! nodeID).

Definition set_hints (f : gmap string (list SyncOperation) -> gmap string (list SyncOperation))
    (r : replay) : replay := mkReplay (rp_path r) (f (rp_hints r)).

Definition appendHints (nodeID : string) (ops : list SyncOperation) (r : replay) : replay :=
  match ops with
  | [] => r
  | _ => set_hints (<[nodeID := queued r nodeID ++ ops]>) r
  end.

(** The queue, whether a retry was submitted, and whether an error is
    returned. *)
Definition HintedHandoff (accepts : bool) (nodeID : string) (ops : list SyncOperation) (r : replay)
    : replay * bool * bool :=
  match ops with
  | [] => (r, false, false)
  | _ => (appendHints nodeID ops r, accepts, negb accepts)
  end.

Definition backoff (i : nat) : Z :=
  let b := 2 ^ Z.of_nat i * 100 * Millisecond in
  if 10 * Second <? b then 10 * Second else b.

(** One attempt: the membership it sees, whether there is a gossip component,
    and the operations queued for the node between the copy and the removal. *)
Record attempt := mkAttempt {
  at_member : option memberMgr;
  at_gossip : bool;
  at_queued : list SyncOperation;
}.

(** The address the attempt sends to. *)
Definition handoffAddr (nodeID : string) (m : option memberMgr) : option string :=
  match m with
  | None => None
  | Some m =>
      if negb (MemberState m nodeID =? NodeStateAlive) then None
      else
        match head (filter (fun i => ni_NodeID i = nodeID /\ ni_State i = NodeStateAlive)
                      (Members m)) with
        | Some i => if bool_decide (ni_Address i = ""%string) then None else Some (ni_Address i)
        | None => None
        end
  end.

(** The removal of what was sent, [n] operations, from the front. *)
Definition removeSent (nodeID : string) (n : nat) (r : replay) : replay :=
  if (length (queued r nodeID) =? n)%nat then set_hints (delete nodeID) r
  else
    match drop n (queued r nodeID) with
    | [] => set_hints (delete nodeID) r
    | remaining => set_hints (<[nodeID := remaining]>) r
    end.

(** The loop of [retryHintedHandoff] from attempt [i]: the queues, the
    messages sent, and the time slept. *)
Fixpoint retryLoop (nodeID : string) (i : nat) (attempts : list attempt) (r : replay)
    : replay * list (string * bytes) * Z :=
  match attempts with
  | [] => (set_hints (delete nodeID) r, [], 0)
  | a :: attempts =>
      match queued r nodeID with
      | [] => (r, [], 0)
      | ops =>
          let r1 := appendHints nodeID (at_queued a) r in
          match handoffAddr nodeID (at_member a), at_gossip a, at_member a with
          | Some addr, true, Some m =>
              (removeSent nodeID (length ops) r1, Push (Members m) ops [addr], 0)
          | _, _, _ =>
              let '(r, msgs, slept) := retryLoop nodeID (S i) attempts r1 in
              (r, msgs, backoff i + slept)
          end
      end
  end.

(** [attempts] are what the ten rounds of the loop see. *)
Definition retryHintedHandoff (nodeID : string) (attempts : list attempt) (r : replay)
    : replay * list (string * bytes) * Z :=
  retryLoop nodeID 0 (take 10 attempts) r.

(** * The component *)

Definition replayItems (ops : list (option SyncOperation)) : gmap string StoredItem :=
  fold_left (fun items op =>
    match op with
    | Some op => match so_Item op with
                 | Some item => <[so_Key op := item]> items
                 | None => items
                 end
    | None => items
    end) ops ∅.

Section component.
Context (accepts : nat -> bool) `{XXH3, LZ4} (poolCap : Z).

(** The part of [Start] that restores the checkpoint. *)
Definition restore (now now' : Z) (path : string) (d : disk) (w : writer) : writer :=
  let items := replayItems (LoadCheckpoint path d) in
  WriterBatchSet accepts poolCap (map_to_list items) now now' w.

(** The tasks that [Start] submits for the nodes with hints, in some order of
    the map, up to the first that the executor refuses. *)
Fixpoint submitHints (takes : nat -> bool) (nodes : list string) (n : nat) : list string :=
  match nodes with
  | [] => []
  | node :: nodes => if takes n then node :: submitHints takes nodes (S n) else []
  end.

(** [Start]: the writer after the restored checkpoint, and the nodes whose
    hints are retried. *)
Definition ReplayStart (member : bool) (takes : nat -> bool) (now now' : Z) (d : disk) (w : writer) (r : replay)
    : writer * list string :=
  (restore now now' (rp_path r) d w,
   if member then submitHints takes (map_to_list (rp_hints r)).*1 0 else []).

(** One tick of [checkpointLoop]. *)
Definition checkpointTick (f : list verdict) (now : Z) (path : string) (d : disk) (s : MemStorage)
    : disk * MemStorage :=
  let '(s, ops) := GetSyncBuffer poolCap s now in
  match ops with
  | [] => (d, s)
  | _ => ((SaveCheckpoint f path ops d).1, s)
  end.

Definition ReplayClose (f : list verdict) (now : Z) (path : string) (d : disk) (s : MemStorage)
    : disk * MemStorage :=
  let '(s, ops) := GetSyncBuffer poolCap s now in
  ((SaveCheckpoint f path ops d).1, s).
End component.

(** * Handoff *)

Lemma queued_append nodeID ops r : queued (appendHints nodeID ops r) nodeID = queued r nodeID ++ ops.
Proof.
  unfold appendHints. destruct ops; [by rewrite app_nil_r|].
  unfold queued at 1. simpl. by rewrite lookup_insert_eq.
Qed.

Lemma queued_append_ne nodeID n ops r :
  n <> nodeID -> queued (appendHints nodeID ops r) n = queued r n.
Proof.
  intros Hne. unfold appendHints. destruct ops; [done|].
  unfold queued at 1. simpl. by rewrite lookup_insert_ne.
Qed.

Lemma removeSent_spec nodeID ops new r :
  queued r nodeID = ops ++ new ->
  queued (removeSent nodeID (length ops) r) nodeID = new /\
  forall n, n <> nodeID -> queued (removeSent nodeID (length ops) r) n = queued r n.
Proof.
  intros E. unfold removeSent. rewrite E, length_app.
  destruct (Nat.eqb_spec (length ops + length new) (length ops)) as [El|Hne].
  - assert (new = []) as -> by (apply nil_length_inv; lia).
    split; [|intros n Hn]; unfold queued; simpl; [by rewrite lookup_delete_eq|].
    by rewrite lookup_delete_ne.
  - rewrite drop_app_length. destruct new as [|o new]; [simpl in Hne; lia|].
    split; [|intros n Hn]; unfold queued; simpl; [by rewrite lookup_insert_eq|].
    by rewrite lookup_insert_ne.
Qed.

(** The first attempt that can send, with what it sends to. *)
Fixpoint firstReady (nodeID : string) (i : nat) (attempts : list attempt)
    : option (nat * attempt * memberMgr * string) :=
  match attempts with
  | [] => None
  | a :: attempts =>
      match handoffAddr nodeID (at_member a), at_gossip a, at_member a with
      | Some addr, true, Some m => Some (i, a, m, addr)
      | _, _, _ => firstReady nodeID (S i) attempts
      end
  end.

Definition slept (from to : nat) : Z :=
  fold_right Z.add 0 (backoff <$> seq from (to - from)).

Lemma firstReady_le nodeID attempts : forall i j a m addr,
  firstReady nodeID i attempts = Some (j, a, m, addr) -> (i <= j < i + length attempts)%nat.
Proof.
  induction attempts as [|x attempts IH]; intros i j a m addr; simpl; [done|].
  intros E. assert (Hcase : (i, x) = (j, a) \/ firstReady nodeID (S i) attempts = Some (j, a, m, addr)).
  { repeat case_match; simplify_eq; auto. }
  destruct Hcase as [[= <- <-]|Hr%IH]; lia.
Qed.

Lemma slept_cons i j : (i < j)%nat -> slept i j = backoff i + slept (S i) j.
Proof.
  intros Hlt. unfold slept. replace (j - i)%nat with (S (j - S i)) by lia. done.
Qed.

Lemma retryLoop_spec nodeID attempts : forall i r,
  queued r nodeID <> [] ->
  let '(r', msgs, s) := retryLoop nodeID i attempts r in
  (forall n, n <> nodeID -> queued r' n = queued r n) /\
  match firstReady nodeID i attempts with
  | Some (j, a, m, addr) =>
      msgs = Push (Members m)
               (queued r nodeID ++ concat (at_queued <$> take (j - i) attempts)) [addr] /\
      queued r' nodeID = at_queued a /\ s = slept i j
  | None => msgs = [] /\ queued r' nodeID = [] /\ s = slept i (i + length attempts)
  end.
Proof.
  induction attempts as [|a attempts IH]; intros i r Hq; simpl.
  { split; [|split; [done|split]].
    - intros n Hn. unfold queued. simpl. by rewrite lookup_delete_ne.
    - unfold queued. simpl. by rewrite lookup_delete_eq.
    - unfold slept. by rewrite Nat.add_0_r, Nat.sub_diag. }
  destruct (queued r nodeID) as [|o ops] eqn:Eq; [done|].
  set (r1 := appendHints nodeID (at_queued a) r).
  assert (Hq1 : queued r1 nodeID = (o :: ops) ++ at_queued a).
  { unfold r1. by rewrite queued_append, Eq. }
  assert (Hne1 : forall n, n <> nodeID -> queued r1 n = queued r n).
  { intros. by apply queued_append_ne. }
  specialize (IH (S i) r1). rewrite Hq1 in IH. specialize (IH ltac:(done)).
  assert (Hwait :
    (let '(r', msgs, s) := retryLoop nodeID (S i) attempts r1 in
     let '(r', msgs, s) := (r', msgs, backoff i + s) in
     (forall n, n <> nodeID -> queued r' n = queued r n) /\
     match firstReady nodeID (S i) attempts with
     | Some (j, b, m, addr) =>
         msgs = Push (Members m)
           ((o :: ops) ++ concat (at_queued <$> take (j - i) (a :: attempts))) [addr] /\
         queued r' nodeID = at_queued b /\ s = slept i j
     | None => msgs = [] /\ queued r' nodeID = [] /\ s = slept i (i + S (length attempts))
     end)).
  { destruct (retryLoop nodeID (S i) attempts r1) as [[r' msgs] s].
    destruct IH as [IH1 IH2]. split; [intros n Hn; by rewrite IH1, Hne1|].
    destruct (firstReady nodeID (S i) attempts) as [[[[j b] m] addr]|] eqn:Ef.
    - apply firstReady_le in Ef. destruct IH2 as (-> & -> & ->).
      rewrite (slept_cons i j) by lia. split; [|done].
      replace (j - i)%nat with (S (j - S i)) by lia. cbn [take fmap list_fmap concat].
      by rewrite <- (app_assoc (o :: ops)).
    - destruct IH2 as (-> & -> & ->). split; [done|]. split; [done|].
      rewrite (slept_cons i (i + S (length attempts))) by lia.
      by replace (i + S (length attempts))%nat with (S i + length attempts)%nat by lia. }
  destruct (handoffAddr nodeID (at_member a)) as [addr|];
    [|destruct (retryLoop nodeID (S i) attempts r1) as [[??]?]; exact Hwait].
  destruct (at_gossip a);
    [|destruct (retryLoop nodeID (S i) attempts r1) as [[??]?]; exact Hwait].
  destruct (at_member a) as [m|];
    [|destruct (retryLoop nodeID (S i) attempts r1) as [[??]?]; exact Hwait].
  destruct (removeSent_spec nodeID (o :: ops) (at_queued a) r1 Hq1) as [Hr1 Hr2].
  split; [intros n Hn; change (S (length ops)) with (length (o :: ops)); by rewrite Hr2, Hne1|].
  rewrite Nat.sub_diag. cbn [take fmap list_fmap concat]. rewrite app_nil_r.
  split; [done|]. split; [done|]. unfold slept. by rewrite Nat.sub_diag.
Qed.

(** A hinted handoff makes ten attempts.  The first one that sees the node
    alive with an address pushes to it, in order, everything queued for the
    node so far, and leaves in the queue only what was queued during the
    push.  When none does, after 42.7 seconds of waiting, the queue of the
    node is dropped and nothing is sent.  Other nodes' queues are untouched. *)
Theorem handoff_attempts nodeID attempts r :
  queued r nodeID <> [] -> length attempts = 10%nat ->
  let '(r', msgs, s) := retryHintedHandoff nodeID attempts r in
  (forall n, n <> nodeID -> queued r' n = queued r n) /\
  match firstReady nodeID 0 attempts with
  | Some (j, a, m, addr) =>
      (j < 10)%nat /\
      msgs = Push (Members m) (queued r nodeID ++ concat (at_queued <$> take j attempts)) [addr] /\
      queued r' nodeID = at_queued a
  | None => msgs = [] /\ queued r' nodeID = [] /\ s = 42700 * Millisecond
  end.
Proof.
  intros Hq Hlen. unfold retryHintedHandoff. rewrite take_ge by lia.
  pose proof (retryLoop_spec nodeID attempts 0 r Hq) as K.
  destruct (retryLoop nodeID 0 attempts r) as [[r' msgs] s]. destruct K as [K1 K2].
  split; [done|]. destruct (firstReady nodeID 0 attempts) as [[[[j a] m] addr]|] eqn:Ef.
  - apply firstReady_le in Ef. destruct K2 as (-> & -> & _). rewrite Nat.sub_0_r.
    split; [lia|done].
  - destruct K2 as (-> & -> & ->). rewrite Hlen. done.
Qed.

(** A node that stays unknown for ten attempts loses its operation; one that
    comes back for the fourth gets it. *)
Lemma handoff_attempts_witness :
  let op := mkOp "k" OpSet (Some (mkItem 2 zeroTime (Some []) "")) in
  let r := (HintedHandoff true "n2" [op] (newReplay "")).1.1 in
  let away := mkAttempt (Some demoMgr) true [] in
  let back := mkAttempt (Some demoMgr2) true [] in
  (retryHintedHandoff "n2" (replicate 10 away) r).1.2 = [] /\
  (retryHintedHandoff "n2" (replicate 3 away ++ replicate 7 back) r).1.2
    = [("h:2"%string, pushMessage (Serialize [op]))].
Proof.
  intros op r away back. split.
  - pose proof (handoff_attempts "n2" (replicate 10 away) r ltac:(vm_compute; congruence) eq_refl) as K.
    destruct (retryHintedHandoff "n2" (replicate 10 away) r) as [[r' msgs] s]. by apply K.
  - pose proof (handoff_attempts "n2" (replicate 3 away ++ replicate 7 back) r
      ltac:(vm_compute; congruence) eq_refl) as K.
    destruct (retryHintedHandoff "n2" (replicate 3 away ++ replicate 7 back) r) as [[r' msgs] s].
    destruct K as [_ K]. vm_compute in K. destruct K as (_ & -> & _). vm_compute. reflexivity.
Defined.

(** * Restoring *)

(** The item of the last operation on a key that has one. *)
Lemma replayItems_last ops k :
  replayItems ops !! k =
  last (omap (fun op => op ≫= fun op => if decide (so_Key op = k) then so_Item op else None) ops).
Proof.
  unfold replayItems. induction ops as [|op ops IH] using rev_ind; [apply lookup_empty|].
  rewrite fold_left_app, omap_app. simpl. destruct op as [op|]; simpl; [|by rewrite app_nil_r].
  destruct (so_Item op) as [item|] eqn:E.
  - destruct (decide (so_Key op = k)) as [<-|Hne]; simpl.
    + rewrite lookup_insert_eq, last_snoc. done.
    + by rewrite lookup_insert_ne, app_nil_r.
  - destruct (decide (so_Key op = k)); simpl; rewrite ?E, ?app_nil_r; done.
Qed.
