(* ===== verification/Wire.v ===== *)
(** * Network messages

    internal/network/message.go and the codec of interface.go: messages, their
    encoding with optional compression, the router, and the handler that
    [networkImpl.Start] installs; and the framing of tcpConn and quicConn in
    transport.go.  The content of a buffer taken from the message pool is the
    argument [residue]; a byte stream is the list of bytes that arrive before
    the deadline of a read. *)

From Stdlib Require Import Strings.Byte.
From S2P Require Import Prelude Compress.

(** * Big-endian fields *)

Definition be_encode (n : nat) (z : Z) : bytes := reverse (le_encode n z).
Definition be_decode (l : bytes) : Z := le_decode (reverse l).

Lemma length_be_encode n z : length (be_encode n z) = n.
Proof. unfold be_encode. by rewrite length_reverse, length_le_encode. Qed.

Lemma be_roundtrip n z w : w = 8 * Z.of_nat n -> is_uint w z -> be_decode (be_encode n z) = z.
Proof. intros. unfold be_decode, be_encode. rewrite reverse_involutive. by apply (le_roundtrip_u n z w). Qed.

Lemma be_roundtrip_s n z w :
  w = 8 * Z.of_nat n -> 0 < w -> is_sint w z -> sint w (be_decode (be_encode n (uint w z))) = z.
Proof. intros. unfold be_decode, be_encode. rewrite reverse_involutive. by apply (le_roundtrip_s n z w). Qed.

(** * Messages *)

Record Message := mkMessage {
  mType : Z;          (* uint8 *)
  mID : Z;            (* uint64 *)
  mData : slice;
  mTimestamp : Z;     (* int64 *)
  mCompressed : bool;
}.

Definition TypeRequest : Z := 1.
Definition TypeResponse : Z := 2.
Definition TypeOneWay : Z := 3.
Definition TypeHeartbeat : Z := 4.
Definition TypeGossipResponse : Z := 22.
Definition TypeReadRequest : Z := 30.
Definition TypeReadResponse : Z := 31.

Definition networkCompressThreshold : Z := 256.
Definition msgFlagCompressed : Z := 1.

(** |type(1)|flags(1)|id(8)|ts(8)|len(4)| *)
Definition header (msg : Message) (flags len : Z) : bytes :=
  byte_of_Z (mType msg) :: byte_of_Z flags ::
  be_encode 8 (mID msg) ++ be_encode 8 (uint 64 (mTimestamp msg)) ++ be_encode 4 (uint 32 len).

Section codec.
Context `{LZ4} (poolCap : Z).

Definition encodeMessage (residue : bytes) (msg : Message) : bytes :=
  let payload := slice_bytes (mData msg) in
  if negb (mCompressed msg) && (networkCompressThreshold <? blen payload) then
    let boundSize := CompressBlockBound (blen payload) in
    let total := 22 + boundSize in
    let '(compressed, n, ok) :=
      CompressTo payload (total - 22) networkCompressThreshold poolCap in
    if ok && (n <? blen payload * 90 / 100)
    then header msg msgFlagCompressed (blen compressed) ++ compressed
    else
      (* the buffer keeps its length [total]: what follows the payload is what
         the pool left there *)
      header msg 0 (blen payload) ++ payload ++
      take (Z.to_nat (total - 22 - blen payload)) residue
  else
    let flags := if mCompressed msg then msgFlagCompressed else 0 in
    header msg flags (blen payload) ++ payload.

Definition decodeMessage (data : bytes) : option Message :=
  if (length data <? 22)%nat then None
  else
    let len := be_decode (take 4 (drop 18 data)) in
    if (len <? 0) || (blen data <? 22 + len) then None
    else
      let flags := Z_of_byte (default x00 (data !! 1%nat)) in
      let isCompressed := negb (Z.land flags msgFlagCompressed =? 0) in
      let body := take (Z.to_nat len) (drop 22 data) in
      let payload :=
        if isCompressed then DecompressTo body 0 (len * 4) poolCap else Some body in
      match payload with
      | None => None
      | Some payload =>
          Some (mkMessage (Z_of_byte (default x00 (data !! 0%nat)))
                  (be_decode (take 8 (drop 2 data))) (Some payload)
                  (sint 64 (be_decode (take 8 (drop 10 data)))) isCompressed)
      end.
End codec.

(** * Routing *)

Inductive netErr := ErrHandlerNotFound | ErrInvalidMessage | errHandler.

#[export] Instance netErr_eq_dec : EqDecision netErr.
Proof. solve_decision. Defined.

(** A handler's result; a nil response is [None]. *)
Definition Handler : Type := string -> slice -> netErr + slice.

Definition Router : Type := gmap Z Handler.
Definition NewRouter : Router := ∅.
Definition Register (msgType : Z) (h : Handler) (r : Router) : Router := <[msgType := h]> r.
Definition Unregister (msgType : Z) (r : Router) : Router := delete msgType r.

Definition isResponseType (t : Z) : bool :=
  (t =? TypeResponse) || (t =? TypeReadResponse) || (t =? TypeGossipResponse).

Definition Route (now : Z) (remoteAddr : string) (msg : Message) (r : Router)
    : netErr + option Message :=
  if isResponseType (mType msg) then inl ErrHandlerNotFound
  else
    match r !! mType msg with
    | None => inl ErrHandlerNotFound
    | Some handler =>
        match handler remoteAddr (mData msg) with
        | inl e => inl e
        | inr resp =>
            let reply t := inr (Some (mkMessage t (mID msg) resp (UnixNano now) false)) in
            if (mType msg =? TypeOneWay) || (mType msg =? TypeHeartbeat) then inr None
            else if mType msg =? TypeRequest then reply TypeResponse
            else if mType msg =? TypeReadRequest then reply TypeReadResponse
            else match resp with
                 | Some _ => reply TypeResponse
                 | None => inr None
                 end
        end
    end.

Section node.
Context `{LZ4} (poolCap : Z).

(** The handler [networkImpl.Start] gives to the server. *)
Definition onData (residue : bytes) (now : Z) (r : Router) (remoteAddr : string) (data : bytes)
    : netErr + slice :=
  if (length data <? 22)%nat then inr None
  else
    match decodeMessage poolCap data with
    | None => inr None
    | Some msg =>
        match Route now remoteAddr msg r with
        | inl e => inl e
        | inr None => inr None
        | inr (Some resp) => inr (Some (encodeMessage poolCap residue resp))
        end
    end.
End node.

(** * Frames *)

(** [Send] of tcpConn and quicConn: the bytes written, or an error. *)
Definition frame (maxMessageSize : Z) (data : bytes) : option bytes :=
  if maxMessageSize <? blen data then None
  else Some (be_encode 4 (uint 32 (blen data)) ++ data).

(** [Receive] on the bytes that arrive before the deadline: the message, an
    error for a length above the limit, or a timeout; and what is left. *)
Inductive received := Got (data : bytes) | TooLarge | ReadTimeout.

Definition Receive (maxMessageSize : Z) (avail : bytes) : received * bytes :=
  if (length avail <? 4)%nat then (ReadTimeout, [])
  else
    let size := be_decode (take 4 avail) in
    let rest := drop 4 avail in
    if maxMessageSize <? size then (TooLarge, rest)
    else if blen rest <? size then (ReadTimeout, [])
    else (Got (take (Z.to_nat size) rest), drop (Z.to_nat size) rest).

(** As many messages as [n], from one stream. *)
Fixpoint receiveAll (n : nat) (maxMessageSize : Z) (avail : bytes) : list received :=
  match n with
  | O => []
  | S n => let '(m, rest) := Receive maxMessageSize avail in m :: receiveAll n maxMessageSize rest
  end.

(** * The header *)

Lemma length_header msg flags len : length (header msg flags len) = 22%nat.
Proof. unfold header. cbn [length]. by rewrite !length_app, !length_be_encode. Qed.

Record fits_wire (msg : Message) : Prop := {
  fw_type : is_uint 8 (mType msg);
  fw_id : is_uint 64 (mID msg);
  fw_ts : is_sint 64 (mTimestamp msg);
}.

Lemma app_field (a b : bytes) n : length a = n -> take n (a ++ b) = a /\ drop n (a ++ b) = b.
Proof. intros <-. by rewrite take_app_length, drop_app_length. Qed.

(** The fields of a message that starts with a header. *)
Lemma header_fields msg flags len rest :
  fits_wire msg -> is_uint 32 len -> is_uint 8 flags ->
  let data := header msg flags len ++ rest in
  be_decode (take 4 (drop 18 data)) = len /\
  Z_of_byte (default x00 (data !! 1%nat)) = flags /\
  Z_of_byte (default x00 (data !! 0%nat)) = mType msg /\
  be_decode (take 8 (drop 2 data)) = mID msg /\
  sint 64 (be_decode (take 8 (drop 10 data))) = mTimestamp msg /\
  drop 22 data = rest.
Proof.
  intros [Ht Hi Hts] Hlen Hf data. unfold data, header. rewrite <- !app_comm_cons, <- !app_assoc.
  set (A := be_encode 8 (mID msg)). set (B := be_encode 8 (uint 64 (mTimestamp msg))).
  set (C := be_encode 4 (uint 32 len)).
  assert (HA : length A = 8%nat) by apply length_be_encode.
  assert (HB : length B = 8%nat) by apply length_be_encode.
  assert (HC : length C = 4%nat) by apply length_be_encode.
  destruct (app_field A (B ++ C ++ rest) 8 HA) as [TA DA].
  destruct (app_field B (C ++ rest) 8 HB) as [TB DB].
  destruct (app_field C rest 4 HC) as [TC DC].
  assert (D2 : forall x y (l : bytes) n, drop (2 + n) (x :: y :: l) = drop n l) by done.
  split_and!.
  - rewrite (D2 _ _ _ 16%nat). rewrite <- (drop_drop _ 8 8), DA, DB, TC.
    unfold C. rewrite (uint_id 32) by done. by apply (be_roundtrip 4 len 32).
  - simpl. rewrite Z_of_byte_of_Z. apply Z.mod_small. apply Hf.
  - simpl. rewrite Z_of_byte_of_Z. apply Z.mod_small. apply Ht.
  - rewrite (D2 _ _ _ 0%nat). rewrite drop_0, TA. by apply (be_roundtrip 8 _ 64).
  - rewrite (D2 _ _ _ 8%nat). rewrite DA, TB. by apply (be_roundtrip_s 8 _ 64).
  - rewrite (D2 _ _ _ 20%nat). rewrite <- (drop_drop _ 12 8), DA, <- (drop_drop _ 4 8), DB, DC. done.
Qed.

Lemma decode_header `{LZ4} poolCap msg flags len body extra :
  fits_wire msg -> is_uint 32 len -> (flags = 0 \/ flags = msgFlagCompressed) -> len = blen body ->
  decodeMessage poolCap (header msg flags len ++ body ++ extra) =
  match (if flags =? 0 then Some body else DecompressTo body 0 (len * 4) poolCap) with
  | None => None
  | Some payload =>
      Some (mkMessage (mType msg) (mID msg) (Some payload) (mTimestamp msg) (negb (flags =? 0)))
  end.
Proof.
  intros Hw Hlen Hf Hbody.
  assert (Hf8 : is_uint 8 flags) by (unfold is_uint, msgFlagCompressed in *; lia).
  destruct (header_fields msg flags len (body ++ extra) Hw Hlen Hf8) as (F1 & F2 & F3 & F4 & F5 & F6).
  unfold decodeMessage. rewrite length_app, length_header.
  destruct (Nat.ltb_spec (22 + length (body ++ extra)) 22); [lia|].
  rewrite F1, F2, F3, F4, F5, F6.
  assert (Hb : blen (header msg flags len ++ body ++ extra) = 22 + len + blen extra).
  { unfold blen in *. rewrite !length_app, length_header. lia. }
  rewrite Hb. destruct Hlen as [Hl0 _].
  destruct (Z.ltb_spec len 0); [lia|].
  destruct (Z.ltb_spec (22 + len + blen extra) (22 + len)); [unfold blen in *; lia|]. cbn [orb].
  assert (take (Z.to_nat len) (body ++ extra) = body) as ->.
  { rewrite Hbody. unfold blen. rewrite Nat2Z.id. apply take_app_length. }
  destruct Hf as [-> | ->]; done.
Qed.

(** * Round trips *)

Section roundtrip.
Context `{LZ4, !LZ4Laws} (poolCap : Z).

(** The block that [encodeMessage] sends in place of the payload, if any. *)
Definition wireBlock (msg : Message) : option bytes :=
  let payload := slice_bytes (mData msg) in
  if networkCompressThreshold <? blen payload then
    let '(out, n, ok) := CompressTo payload (CompressBlockBound (blen payload))
                           networkCompressThreshold poolCap in
    if ok && (n <? blen payload * 90 / 100) then Some out else None
  else None.

(** Payloads that the receiver can decompress. *)
Definition deliverable (msg : Message) : bool :=
  match wireBlock msg with
  | None => true
  | Some out => blen (slice_bytes (mData msg)) <=? Z.min (blen out * 16 + 64) maxAlloc
  end.

(** The message as the receiver sees it. *)
Definition arrived (msg : Message) : Message :=
  mkMessage (mType msg) (mID msg) (Some (slice_bytes (mData msg))) (mTimestamp msg)
    (match wireBlock msg with Some _ => true | None => false end).

Lemma decode_encode residue msg :
  poolCap <= maxPooled -> fits_wire msg -> mCompressed msg = false ->
  blen (slice_bytes (mData msg)) < 2 ^ 32 ->
  decodeMessage poolCap (encodeMessage poolCap residue msg) =
  if deliverable msg then Some (arrived msg) else None.
Proof.
  intros Hcap Hw Hc Hlen. unfold encodeMessage, deliverable, arrived, wireBlock. rewrite Hc.
  set (payload := slice_bytes (mData msg)) in *. cbn [negb andb].
  assert (Hu : is_uint 32 (blen payload)) by (unfold is_uint, blen in *; lia).
  destruct (networkCompressThreshold <? blen payload).
  - replace (22 + CompressBlockBound (blen payload) - 22) with (CompressBlockBound (blen payload)) by lia.
    destruct (CompressTo payload (CompressBlockBound (blen payload)) networkCompressThreshold poolCap)
      as [[out n] ok] eqn:E.
    destruct ok; cbn [andb].
    + apply CompressTo_true in E as (-> & Hne & Hlt & m & HC).
      destruct (blen out <? blen payload * 90 / 100).
      * rewrite <- (app_nil_r out) at 2.
        rewrite decode_header; [|done| |by right|done].
        -- change (msgFlagCompressed =? 0) with false. cbn [negb]. cbv iota.
           rewrite (DecompressTo_block payload m out poolCap Hcap HC Hne). by destruct (Z.leb _ _).
        -- unfold is_uint, blen in *. lia.
      * rewrite decode_header; [done|done|done|by left|done].
    + rewrite decode_header; [done|done|done|by left|done].
  - rewrite <- (app_nil_r payload) at 2.
    rewrite decode_header; [done|done|done|by left|done].
Qed.

(** C27. Messages round trip: type, identifier, timestamp and payload of a
    message arrive as they were sent, whether or not the encoder compressed
    the payload and whatever its buffer contained, if the payload was not
    compressed or is at most sixteen times its compressed block plus 64 bytes
    and at most 8 MiB; every other message is rejected by the receiver. *)
Theorem message_roundtrip residue msg :
  poolCap <= maxPooled -> fits_wire msg -> mCompressed msg = false ->
  blen (slice_bytes (mData msg)) < 2 ^ 32 ->
  decodeMessage poolCap (encodeMessage poolCap residue msg) =
    (if deliverable msg then Some (arrived msg) else None) /\
  (blen (slice_bytes (mData msg)) <= networkCompressThreshold -> deliverable msg = true).
Proof.
  intros. split; [by apply decode_encode|]. intros Hsmall. unfold deliverable, wireBlock.
  destruct (Z.ltb_spec networkCompressThreshold (blen (slice_bytes (mData msg)))); [lia|done].
Qed.

(** A request and its response across two nodes: for a request or a read
    request whose handler succeeds, what the server sends back decodes to a
    message of the corresponding response type with the identifier of the
    request and the handler's data; one-way messages and heartbeats are
    handled and not answered; a message of a response type reaches no
    handler. *)
Theorem request_response residue residue' now remoteAddr r req handler resp :
  poolCap <= maxPooled -> fits_wire req -> mCompressed req = false ->
  blen (slice_bytes (mData req)) < 2 ^ 32 -> deliverable req = true ->
  r !! mType req = Some handler ->
  handler remoteAddr (Some (slice_bytes (mData req))) = inr resp ->
  blen (slice_bytes resp) < 2 ^ 32 ->
  let out := onData poolCap residue' now r remoteAddr (encodeMessage poolCap residue req) in
  let response t := mkMessage t (mID req) resp (UnixNano now) false in
  (isResponseType (mType req) = true -> out = inl ErrHandlerNotFound) /\
  (mType req = TypeOneWay \/ mType req = TypeHeartbeat -> out = inr None) /\
  (forall t, (mType req = TypeRequest /\ t = TypeResponse) \/
             (mType req = TypeReadRequest /\ t = TypeReadResponse) ->
     exists wire, out = inr (Some wire) /\
       decodeMessage poolCap wire =
         if deliverable (response t) then Some (arrived (response t)) else None).
Proof.
  intros Hcap Hw Hc Hlen Hdel Hr Hh Hresp out response.
  assert (Hdec : decodeMessage poolCap (encodeMessage poolCap residue req) = Some (arrived req)).
  { rewrite decode_encode by done. by rewrite Hdel. }
  assert (Hout : out = match Route now remoteAddr (arrived req) r with
                       | inl e => inl e
                       | inr None => inr None
                       | inr (Some resp) => inr (Some (encodeMessage poolCap residue' resp))
                       end).
  { unfold out, onData. rewrite Hdec.
    destruct (Nat.ltb_spec (length (encodeMessage poolCap residue req)) 22) as [Hs|]; [|done].
    unfold decodeMessage in Hdec. rewrite (proj2 (Nat.ltb_lt _ _) Hs) in Hdec. done. }
  rewrite Hout. unfold Route, arrived. cbn [mType mID mData].
  split; [by intros ->|]. split.
  - intros Ht. rewrite Hr, Hh. by destruct Ht as [-> | ->].
  - intros t Ht. rewrite Hr, Hh.
    exists (encodeMessage poolCap residue' (response t)). split.
    + by destruct Ht as [[-> ->]|[-> ->]].
    + apply decode_encode; [done| |done|done]. split; cbn [response mType mID mTimestamp].
      * destruct Ht as [[_ ->]|[_ ->]]; done.
      * apply Hw.
      * apply sint_range. lia.
Qed.
End roundtrip.

(** A frame followed by anything is received as its message. *)
Lemma Receive_frame max m f rest :
  max < 2 ^ 32 -> frame max m = Some f -> Receive max (f ++ rest) = (Got m, rest).
Proof.
  intros Hmax Hm. unfold frame in Hm. destruct (Z.ltb_spec max (blen m)); [done|].
  assert (f = be_encode 4 (uint 32 (blen m)) ++ m) as -> by congruence. clear Hm.
  assert (Hu : is_uint 32 (blen m)) by (unfold is_uint, blen in *; lia).
  set (h := be_encode 4 (uint 32 (blen m))).
  assert (Hh : length h = 4%nat) by apply length_be_encode.
  unfold Receive. rewrite <- app_assoc.
  destruct (app_field h (m ++ rest) 4 Hh) as [-> ->].
  rewrite !length_app, Hh. destruct (Nat.ltb_spec (4 + (length m + length rest)) 4); [lia|].
  unfold h. rewrite (uint_id 32), (be_roundtrip 4 _ 32) by done.
  destruct (Z.ltb_spec max (blen m)); [lia|].
  assert (Hb : blen (m ++ rest) = blen m + blen rest).
  { unfold blen. rewrite length_app. lia. }
  rewrite Hb. destruct (Z.ltb_spec (blen m + blen rest) (blen m)); [unfold blen in *; lia|].
  unfold blen at 1 2. by rewrite Nat2Z.id, take_app_length, drop_app_length.
Qed.

(** Frames: messages sent one after the other on a connection are
    received in order and unchanged, as long as their bytes arrive before the
    deadlines; a message above the limit is not sent. *)
Theorem frames_roundtrip max msgs frames :
  max < 2 ^ 32 -> mapM (frame max) msgs = Some frames ->
  receiveAll (length msgs) max (concat frames) = Got <$> msgs.
Proof.
  intros Hmax. revert frames. induction msgs as [|m msgs IH]; intros frames Hf; [done|].
  simpl in Hf. apply bind_Some in Hf as (f & Hm & Hf). apply bind_Some in Hf as (fs & Hfs & [= <-]).
  cbn [length receiveAll concat fmap list_fmap].
  rewrite (Receive_frame _ _ _ _ Hmax Hm). f_equal. by apply IH.
Qed.

Lemma frames_roundtrip_witness :
  receiveAll 2 100 [x00; x00; x00; x01; x61; x00; x00; x00; x02; x62; x63]
    = [Got [x61]; Got [x62; x63]].
Proof.
  apply (frames_roundtrip 100 [[x61]; [x62; x63]]
    [[x00; x00; x00; x01; x61]; [x00; x00; x00; x02; x62; x63]]); reflexivity.
Defined.

(** A read deadline that passes inside a frame loses the part that was read:
    the next read takes payload bytes for a length. *)
Example frame_desync :
  let wire := [x00; x00; x00; x08; x00; x00; x00; x01; x61; x62; x63; x64] in
  Receive 100 (take 4 wire) = (ReadTimeout, []) /\
  Receive 100 (drop 4 wire) = (Got [x61], [x62; x63; x64]).
Proof. done. Qed.

#[local] Existing Instance RunLength.lz4.
#[local] Existing Instance RunLength.laws.

(** A payload of 300 equal bytes: its block is too small for the receiver, and
    the message is lost. *)
Lemma message_roundtrip_witness :
  decodeMessage 0 (encodeMessage 0 [] (mkMessage 20 7 (Some [x61; x62]) 5 false))
    = Some (mkMessage 20 7 (Some [x61; x62]) 5 false) /\
  decodeMessage 0 (encodeMessage 0 [] (mkMessage 20 7 (Some (replicate 300 x61)) 5 false)) = None.
Proof.
  split.
  - destruct (message_roundtrip 0 [] (mkMessage 20 7 (Some [x61; x62]) 5 false)) as [-> ->];
      done.
  - destruct (message_roundtrip 0 [] (mkMessage 20 7 (Some (replicate 300 x61)) 5 false)) as [-> _];
      done.
Defined.

Lemma request_response_witness :
  exists wire, onData 0 [] 9 (Register TypeReadRequest (fun _ d => inr d) NewRouter) "peer"
      (encodeMessage 0 [] (mkMessage TypeReadRequest 7 (Some [x6b]) 5 false)) = inr (Some wire) /\
    decodeMessage 0 wire = Some (mkMessage TypeReadResponse 7 (Some [x6b]) 9 false).
Proof.
  destruct (request_response 0 [] [] 9 "peer" (Register TypeReadRequest (fun _ d => inr d) NewRouter)
    (mkMessage TypeReadRequest 7 (Some [x6b]) 5 false) (fun _ d => inr d) (Some [x6b]))
    as (_ & _ & K); try done.
  destruct (K TypeReadResponse) as (wire & E & D); [by right|]. exists wire. split; [exact E|].
  rewrite D. done.
Defined.
