(* ===== verification/Net.v ===== *)
(** * Client and backpressure

    internal/network: backpressure.go, client.go and the sending part of
    interface.go.  The outcome of each use of the connection pool and of a
    connection is an argument; concurrent senders are a step relation on the
    number of permits.  Messages and frames are in [Wire], the server in
    [Server], the connection pool in [ConnPool]. *)

From S2P Require Import Prelude Compress Wire.

(** * Backpressure *)

Inductive Strategy := StrategyReject | StrategyBlock | StrategyDrop.

Record Backpressure := mkBackpressure {
  bp_threshold : Z;
  bp_capacity : Z;      (* of the channel of permits *)
  bp_strategy : Strategy;
  bp_permits : Z;       (* tokens in the channel *)
  bp_rejected : Z;
}.

Definition NewBackpressure (threshold maxCapacity : Z) (strategy : Strategy) : Backpressure :=
  mkBackpressure threshold (if maxCapacity =? 0 then threshold else maxCapacity) strategy 0 0.

Definition set_permits (n : Z) (b : Backpressure) : Backpressure :=
  mkBackpressure (bp_threshold b) (bp_capacity b) (bp_strategy b) n (bp_rejected b).
Definition reject (b : Backpressure) : Backpressure :=
  mkBackpressure (bp_threshold b) (bp_capacity b) (bp_strategy b) (bp_permits b)
    (addu64 (bp_rejected b) 1).

Definition AllowOp (b : Backpressure) : bool := bp_permits b <? bp_threshold b.
Definition ShouldReject (b : Backpressure) : bool := negb (AllowOp b).

(** A send to the channel of permits: [None] blocks. *)
Definition push (b : Backpressure) : option Backpressure :=
  if bp_permits b <? bp_capacity b then Some (set_permits (bp_permits b + 1) b) else None.

Definition pop (b : Backpressure) : Backpressure :=
  if 0 <? bp_permits b then set_permits (bp_permits b - 1) b else b.

Inductive acquired := Acquired (b : Backpressure) | Rejected (b : Backpressure) | Blocked.

Definition of_push (o : option Backpressure) : acquired :=
  match o with Some b => Acquired b | None => Blocked end.

Definition Acquire (b : Backpressure) : acquired :=
  match bp_strategy b with
  | StrategyReject => if negb (AllowOp b) then Rejected (reject b) else of_push (push b)
  | StrategyDrop =>
      match push b with
      | Some b => Acquired b
      | None => of_push (push (pop b))
      end
  | StrategyBlock => of_push (push b)
  end.

Definition Release (b : Backpressure) : Backpressure := pop b.

Definition RecordRequest (b : Backpressure) : Backpressure :=
  if AllowOp b then default b (push b) else b.

(** Queued, capacity, blocked, rejected. *)
Definition BackpressureStats (b : Backpressure) : Z * Z * bool * Z :=
  (bp_permits b, bp_capacity b, bp_threshold b <=? bp_permits b, bp_rejected b).

(** Concurrent calls of [networkImpl.Send]: [waiting] have passed [Allow],
    [holding] have a permit and are sending. *)
Record senders := mkSenders { sn_bp : Backpressure; sn_waiting : nat; sn_holding : nat }.

Inductive send_step : senders -> senders -> Prop :=
| ss_allow b w h : AllowOp b = true -> send_step (mkSenders b w h) (mkSenders b (S w) h)
| ss_acquire b w h b' :
    Acquire b = Acquired b' -> send_step (mkSenders b (S w) h) (mkSenders b' w (S h))
| ss_reject b w h b' :
    Acquire b = Rejected b' -> send_step (mkSenders b (S w) h) (mkSenders b' w h)
| ss_release b w h : send_step (mkSenders b w (S h)) (mkSenders (Release b) w h).

Record senders_ok (s : senders) : Prop := {
  so_permits : 0 <= bp_permits (sn_bp s) <= Z.max 0 (bp_capacity (sn_bp s));
  so_holding : bp_strategy (sn_bp s) <> StrategyDrop ->
               bp_permits (sn_bp s) = Z.of_nat (sn_holding s);
  so_floor : Z.of_nat (sn_holding s) >= bp_permits (sn_bp s);
}.

Lemma permit_push_spec b b' :
  push b = Some b' ->
  bp_permits b < bp_capacity b /\ bp_permits b' = bp_permits b + 1 /\
  bp_capacity b' = bp_capacity b /\ bp_strategy b' = bp_strategy b.
Proof. unfold push. destruct (Z.ltb_spec (bp_permits b) (bp_capacity b)); [|done]. by intros [= <-]. Qed.

Lemma pop_spec b :
  0 <= bp_permits b ->
  bp_permits (pop b) = Z.max 0 (bp_permits b - 1) /\
  bp_capacity (pop b) = bp_capacity b /\ bp_strategy (pop b) = bp_strategy b.
Proof. intros. unfold pop. destruct (Z.ltb_spec 0 (bp_permits b)); simpl; split; (lia || done). Qed.

Lemma Acquire_spec b b' :
  0 <= bp_permits b -> Acquire b = Acquired b' ->
  bp_capacity b' = bp_capacity b /\ bp_strategy b' = bp_strategy b /\
  0 <= bp_permits b' <= Z.max 0 (bp_capacity b) /\ bp_permits b' <= bp_permits b + 1 /\
  (bp_strategy b <> StrategyDrop -> bp_permits b' = bp_permits b + 1).
Proof.
  intros H0. unfold Acquire.
  assert (Hpush : forall o, of_push (push b) = Acquired o ->
    bp_capacity o = bp_capacity b /\ bp_strategy o = bp_strategy b /\
    0 <= bp_permits o <= Z.max 0 (bp_capacity b) /\ bp_permits o = bp_permits b + 1).
  { intros o. unfold of_push. destruct (push b) as [b1|] eqn:E; [|done]. intros [= <-].
    apply permit_push_spec in E as (? & ? & ? & ?). split_and!; try done; lia. }
  destruct (bp_strategy b) eqn:Es.
  - case_match; [done|]. intros (? & ? & ? & ?)%Hpush. split_and!; try congruence; try done; lia.
  - intros (? & ? & ? & ?)%Hpush. split_and!; try congruence; try done; lia.
  - destruct (push b) as [b1|] eqn:E.
    + intros Ha. destruct (Hpush b') as (? & ? & ? & ?); [exact Ha|].
      split_and!; try congruence; try done; lia.
    + destruct (pop_spec b H0) as (Hp & Hc & Hst). unfold of_push.
      destruct (push (pop b)) as [b2|] eqn:E2; [|done]. intros [= <-].
      apply permit_push_spec in E2 as (? & ? & ? & ?). split_and!; try congruence; try done; lia.
Qed.

Lemma senders_step s s' : senders_ok s -> send_step s s' -> senders_ok s'.
Proof.
  intros [Hp Hh Hf] Hs. destruct Hs as [b w h Ha|b w h b' Ha|b w h b' Ha|b w h]; simpl in *.
  - by split.
  - apply Acquire_spec in Ha as (Hc & Hst & Hr & Hle & Heq); [|lia].
    split; simpl; rewrite ?Hc, ?Hst; [lia| |lia]. intros Hne. rewrite Heq, Hh by done. lia.
  - unfold Acquire in Ha. destruct (bp_strategy b) eqn:Es.
    + case_match; [|by destruct (push b)]. injection Ha as <-. split; simpl; auto.
    + by destruct (push b).
    + destruct (push b); [done|]. by destruct (push (pop b)).
  - destruct (pop_spec b) as (Hp' & Hc & Hst); [lia|]. unfold Release.
    split; simpl; rewrite ?Hp', ?Hc, ?Hst; [lia| |lia]. intros Hne. rewrite Hh by done. lia.
Qed.

Lemma send_step_config s s' :
  senders_ok s -> send_step s s' ->
  bp_strategy (sn_bp s') = bp_strategy (sn_bp s) /\
  bp_capacity (sn_bp s') = bp_capacity (sn_bp s).
Proof.
  intros [Hp _ _] Hs. destruct Hs as [b w h Ha|b w h b' Ha|b w h b' Ha|b w h]; simpl in *.
  - done.
  - apply Acquire_spec in Ha as (Hc' & Hst' & _); [|lia]. split; congruence.
  - unfold Acquire in Ha. destruct (bp_strategy b) eqn:Es.
    + case_match; [|by destruct (push b)]. by injection Ha as <-.
    + by destruct (push b).
    + destruct (push b); [done|]. by destruct (push (pop b)).
  - destruct (pop_spec b) as (_ & Hc' & Hst'); [lia|]. unfold Release. split; congruence.
Qed.

(** C38. Backpressure: whatever senders check, acquire and release
    concurrently, the permits in use never exceed the capacity, and under the
    strategies reject and block every message being sent holds its own
    permit, so that at most the capacity is being sent at any time.  (Under
    the strategy drop a sender takes the permit of another one, and only the
    first part holds.) *)
Theorem backpressure_bound threshold maxCapacity strategy s :
  steps send_step (mkSenders (NewBackpressure threshold maxCapacity strategy) 0 0) s ->
  let cap := Z.max 0 (if maxCapacity =? 0 then threshold else maxCapacity) in
  0 <= bp_permits (sn_bp s) <= cap /\
  (strategy <> StrategyDrop ->
     bp_permits (sn_bp s) = Z.of_nat (sn_holding s) /\ Z.of_nat (sn_holding s) <= cap).
Proof.
  intros Hs cap.
  set (P := fun s => senders_ok s /\ bp_strategy (sn_bp s) = strategy /\
    bp_capacity (sn_bp s) = (if maxCapacity =? 0 then threshold else maxCapacity)).
  assert (HP : P s).
  { refine (steps_invariant _ P _ _ _ _ Hs).
    - intros x y (Hok & Hst & Hc) Hxy. destruct (send_step_config x y Hok Hxy).
      split; [by eapply senders_step|split; congruence].
    - split; [split; simpl; lia|done]. }
  destruct HP as ([Hp Hh Hf] & Hst & Hc). rewrite Hc in Hp. split; [done|].
  intros Hne. rewrite <- Hst in Hne. specialize (Hh Hne). unfold cap. lia.
Qed.

Lemma backpressure_bound_witness :
  let s := mkSenders (set_permits 1 (NewBackpressure 1 1 StrategyBlock)) 1 1 in
  bp_permits (sn_bp s) = Z.of_nat (sn_holding s) /\ Z.of_nat (sn_holding s) <= 1.
Proof.
  apply (backpressure_bound 1 1 StrategyBlock
    (mkSenders (set_permits 1 (NewBackpressure 1 1 StrategyBlock)) 1 1)); [|done].
  eapply steps_cons; [by apply ss_allow|]. eapply steps_cons; [by apply ss_allow|].
  apply steps_one. by apply ss_acquire.
Defined.

(** * Client *)

(** Errors are their text. *)
Definition error := string.

Definition contains (sub s : string) : bool :=
  match String.index 0 sub s with Some _ => true | None => false end.

Definition isConnectionRefused (err : option error) : bool :=
  match err with
  | None => false
  | Some errStr =>
      contains "connection refused" errStr || contains "connect: connection refused" errStr
  end.

(** What one turn of the loop of [SendWithTimeout] meets. *)
Inductive attempt := GetFailed (e : error) | SendFailed (e : error) | SendDone.

Inductive poolOp := PoolPut | PoolRemove.

(** One turn: the result when it returns ([inl]), or that it continues, and
    what is done with the connection.  The error of a failed send is in a
    variable of its own block; the [err] tested and returned after it is the
    nil one of the pool. *)
Definition sendTurn (first : bool) (a : attempt) : (option error + unit) * list poolOp :=
  match a with
  | GetFailed e =>
      (if first && negb (isConnectionRefused (Some e)) then inr tt else inl (Some e), [])
  | SendDone => (inl None, [PoolPut])
  | SendFailed _ =>
      (if first && negb (isConnectionRefused None) then inr tt else inl None, [PoolRemove])
  end.

Definition SendWithTimeout (a0 a1 : attempt) : option error * list poolOp :=
  match sendTurn true a0 with
  | (inl r, ops) => (r, ops)
  | (inr _, ops) =>
      match sendTurn false a1 with
      | (inl r, ops') => (r, ops ++ ops')
      | (inr _, ops') => (Some "unexpected: send loop completed without result", ops ++ ops')
      end
  end.

(** [networkImpl.Send]: [None] is a call that blocks for a permit. *)
Definition ErrBackpressure : error := "backpressure active".
Definition NetworkSend (b : Backpressure) (a0 a1 : attempt) : option (option error * Backpressure) :=
  if negb (AllowOp b) then Some (Some ErrBackpressure, b)
  else
    match Acquire b with
    | Rejected b => Some (Some ErrBackpressure, b)
    | Blocked => None
    | Acquired b => Some (fst (SendWithTimeout a0 a1), Release b)
    end.

(** The first error in order up to five addresses; above, an error when any
    send failed (its text depends on which finishes first). *)
Definition Broadcast (sends : list (option error)) : option error + option nat :=
  if (length sends <=? 5)%nat then inl (head (omap id sends))
  else
    let errs := length (omap id sends) in
    inr (if (errs =? 0)%nat then None else Some errs).

(** ** Request and response on pooled connections *)

Section request.
Context (srv : bytes -> bytes).

(** The connections by number, each with the responses the peer has been
    asked for and that have not been read. *)
Local Notation conns := (gmap nat (list bytes)).

Inductive reqAttempt :=
| ReqGetFailed (e : error)
| ReqSendFailed (c : nat) (e : error)
| RecvFailed (c : nat) (e : error)
| Received (c : nat).

Definition pending (c : nat) (p : conns) : list bytes := default [] (p !! c).

Definition reqTurn (request : bytes) (first : bool) (a : reqAttempt) (p : conns)
    : ((error + bytes) + unit) * conns :=
  match a with
  | ReqGetFailed e => (inl (inl (String.append "connection pool error: " e)), p)
  | ReqSendFailed c e => (if first then inr tt else inl (inl e), delete c p)
  | RecvFailed c e =>
      (if first then inr tt else inl (inl e), <[c := pending c p ++ [srv request]]> p)
  | Received c =>
      match pending c p ++ [srv request] with
      | resp :: rest => (inl (inr resp), <[c := rest]> p)
      | [] => (inr tt, p)
      end
  end.

Definition Request (request : bytes) (a0 a1 : reqAttempt) (p : conns) : (error + bytes) * conns :=
  match reqTurn request true a0 p with
  | (inl r, p) => (r, p)
  | (inr _, p) =>
      match reqTurn request false a1 p with
      | (inl r, p) => (r, p)
      | (inr _, p) => (inl "unexpected: request loop completed without result", p)
      end
  end.

Fixpoint Requests (c : nat) (reqs : list bytes) (p : conns) : list (error + bytes) * conns :=
  match reqs with
  | [] => ([], p)
  | r :: reqs =>
      let '(x, p) := Request r (Received c) (Received c) p in
      let '(xs, p) := Requests c reqs p in
      (x :: xs, p)
  end.

Lemma pending_insert c q (p : conns) : pending c (<[c := q]> p) = q.
Proof. unfold pending. by rewrite lookup_insert_eq. Qed.

Lemma Request_received c r p a1 :
  exists q x, pending c p ++ [srv r] = x :: q /\
    Request r (Received c) a1 p = (inr x, <[c := q]> p).
Proof.
  unfold Request, reqTurn. destruct (pending c p ++ [srv r]) as [|x q] eqn:E.
  - by destruct (pending c p).
  - by exists q, x.
Qed.

Lemma Requests_lag c reqs p :
  fst (Requests c reqs p) = inr <$> take (length reqs) (pending c p ++ (srv <$> reqs)) /\
  pending c (snd (Requests c reqs p)) = drop (length reqs) (pending c p ++ (srv <$> reqs)).
Proof.
  revert p. induction reqs as [|r reqs IH]; intros p; [by rewrite app_nil_r|].
  destruct (Request_received c r p (Received c)) as (q & x & Hq & Hr).
  cbn [Requests]. rewrite Hr. specialize (IH (<[c := q]> p)).
  destruct (Requests c reqs (<[c := q]> p)) as [xs p'] eqn:E. cbn [fst snd] in *.
  rewrite pending_insert in IH. destruct IH as [-> ->].
  rewrite fmap_cons. change (srv r :: (srv <$> reqs)) with ([srv r] ++ (srv <$> reqs)).
  rewrite app_assoc, Hq. done.
Qed.

(** Request and response are matched by position only: requests on one
    connection get the responses the connection still owes, then their own.
    On a connection that owes nothing every request gets its own response;
    after a request whose first wait for the response failed and whose second
    attempt went through on the same connection, which goes back to the pool
    in both cases, every later request gets the response to the one before
    it. *)
Theorem request_lag c r reqs p e :
  (fst (Requests c reqs p) = inr <$> take (length reqs) (pending c p ++ (srv <$> reqs)) /\
   (pending c p = [] -> fst (Requests c reqs p) = inr <$> (srv <$> reqs))) /\
  (pending c p = [] ->
     fst (Request r (RecvFailed c e) (Received c) p) = inr (srv r) /\
     fst (Requests c reqs (snd (Request r (RecvFailed c e) (Received c) p))) =
       inr <$> take (length reqs) (srv <$> r :: reqs)).
Proof.
  split_and!.
  - apply Requests_lag.
  - intros Hp. destruct (Requests_lag c reqs p) as [-> _]. rewrite Hp, app_nil_l.
    by rewrite <- (length_fmap srv reqs), firstn_all.
  - intros Hp. unfold Request, reqTurn. rewrite Hp, pending_insert. cbn -[Requests].
    split; [done|]. destruct (Requests_lag c reqs (<[c := [srv r]]> (<[c := [srv r]]> p))) as [-> _].
    by rewrite pending_insert.
Qed.
End request.
Arguments pending : clear implicits.

(** What the client reports of a send: the second attempt is made only
    after a first failure that is not a refused dial; a connection the pool
    gave goes back to it when the send succeeded and is closed when it
    failed, exactly once per attempt; an error is returned only when no
    attempt sent the message.  The converse fails: nil is returned when the
    message was sent, and also when the last attempt's send failed. *)
Theorem send_result a0 a1 :
  let second := match a0 with
                | GetFailed e => negb (isConnectionRefused (Some e))
                | SendFailed _ => true
                | SendDone => false
                end in
  let tries := if second then [a0; a1] else [a0] in
  snd (SendWithTimeout a0 a1) =
    omap (fun a => match a with GetFailed _ => None | SendFailed _ => Some PoolRemove
                           | SendDone => Some PoolPut end) tries /\
  (fst (SendWithTimeout a0 a1) = None <->
     exists a, last tries = Some a /\ forall e, a <> GetFailed e) /\
  (forall e, fst (SendWithTimeout a0 a1) = Some e -> SendDone ∉ tries).
Proof.
  unfold SendWithTimeout, sendTurn.
  destruct a0 as [e0|e0|]; destruct a1 as [e1|e1|]; cbn -[isConnectionRefused];
    try destruct (isConnectionRefused (Some e0)); cbn;
    (split; [done|]; split;
      [split; [intros ?; try done; eexists; (split; [done|]); intros ? ?; done
              |intros (a & Ha & Hn); injection Ha as <-; try done; by edestruct Hn]
      |intros e He; try done; set_solver]).
Qed.
