(* ===== verification/Server.v ===== *)
(** * Network server

    internal/network/server.go: the loop of one connection as a function of
    what it receives, and the accept loop, the channel of connections and the
    workers as a step relation. *)

From S2P Require Import Prelude Compress Wire Net.

Record ServerStats := mkServerStats {
  ss_Connections : Z;
  ss_Messages : Z;
  ss_Bytes : Z;
  ss_Errors : Z;
  ss_ActiveConns : Z;
}.

Definition countIn (n : Z) (s : ServerStats) : ServerStats :=
  mkServerStats (ss_Connections s) (addu64 (ss_Messages s) 1) (addu64 (ss_Bytes s) n)
    (ss_Errors s) (ss_ActiveConns s).
Definition countError (s : ServerStats) : ServerStats :=
  mkServerStats (ss_Connections s) (ss_Messages s) (ss_Bytes s) (addu64 (ss_Errors s) 1)
    (ss_ActiveConns s).
Definition addActive (n : Z) (s : ServerStats) : ServerStats :=
  mkServerStats (ss_Connections s) (ss_Messages s) (ss_Bytes s) (ss_Errors s)
    (ss_ActiveConns s + n).

(** * One connection *)

Definition maxHandlerErrors : nat := 10.
Definition maxMessageSize : Z := 67108864.

(** What a turn of the loop meets: the stop channel, a read that timed out,
    another read error, or a message; [sendOk] is the outcome of sending its
    response. *)
Inductive event := EvStop | EvTimeout | EvReadError | EvData (data : bytes) (sendOk : bool).

(** The loop leaves ([None]) or goes on with an error count. *)
Definition handleTurn (handler : bytes -> netErr + slice) (ev : event) (count : nat)
    (s : ServerStats) : option nat * ServerStats * list bytes :=
  match ev with
  | EvStop => (None, s, [])
  | EvTimeout => (Some 0%nat, s, [])
  | EvReadError => (None, s, [])
  | EvData data sendOk =>
      if maxMessageSize <? blen data then (None, countError s, [])
      else
        let s := countIn (blen data) s in
        match handler data with
        | inl _ =>
            let s := countError s in
            (if (maxHandlerErrors <=? S count)%nat then None else Some (S count), s, [])
        | inr None => (Some 0%nat, s, [])
        | inr (Some resp) =>
            let s := countIn (blen resp) s in
            if sendOk then (Some 0%nat, s, [resp]) else (None, s, [])
        end
  end.

(** The loop over the events there are, with the responses sent; [None] when
    it is left, and then the connection is closed. *)
Fixpoint handleLoop (handler : bytes -> netErr + slice) (evs : list event) (count : nat)
    (s : ServerStats) : option nat * ServerStats * list bytes :=
  match evs with
  | [] => (Some count, s, [])
  | ev :: evs =>
      match handleTurn handler ev count s with
      | (None, s, out) => (None, s, out)
      | (Some count, s, out) =>
          let '(r, s, out') := handleLoop handler evs count s in (r, s, out ++ out')
      end
  end.

Definition handleConn (handler : bytes -> netErr + slice) (evs : list event) (s : ServerStats)
    : bool * ServerStats * list bytes :=
  match handleLoop handler evs 0 s with
  | (None, s, out) => (false, addActive (-1) s, out)
  | (Some _, s, out) => (true, s, out)
  end.

(** * What the loop computes *)

Lemma maxHandlerErrors_eq : maxHandlerErrors = 10%nat.
Proof. done. Qed.

#[local] Opaque maxHandlerErrors maxMessageSize.

Section handle.
Context (handler : bytes -> netErr + slice).

(** An event that ends the connection by itself, and one that counts as a
    failure of the handler. *)
Definition fatal (ev : event) : bool :=
  match ev with
  | EvStop | EvReadError => true
  | EvTimeout => false
  | EvData d ok =>
      (maxMessageSize <? blen d) ||
      match handler d with inr (Some _) => negb ok | _ => false end
  end.

Definition failing (ev : event) : bool :=
  match ev with
  | EvData d _ => match handler d with inl _ => true | _ => false end
  | _ => false
  end.

Definition response (ev : event) : option bytes :=
  match ev with
  | EvData d _ => match handler d with inr r => r | _ => None end
  | _ => None
  end.

Lemma handleTurn_ok ev count s :
  fatal ev = false ->
  (failing ev = true -> (S count < maxHandlerErrors)%nat) ->
  exists s', handleTurn handler ev count s =
    (Some (if failing ev then S count else 0%nat), s', option_list (response ev)).
Proof.
  destruct ev as [| | |d ok]; simpl; try done; [eauto|].
  intros [Hsz Hok]%orb_false_elim Hf. rewrite Hsz.
  destruct (handler d) as [e|[r|]]; simpl in *.
  - destruct (Nat.leb_spec maxHandlerErrors (S count)); [|eauto].
    specialize (Hf eq_refl). lia.
  - destruct ok; [eauto|done].
  - eauto.
Qed.

Lemma handleTurn_leave ev count s :
  fatal ev = true \/ (failing ev = true /\ (maxHandlerErrors <= S count)%nat) ->
  exists s', handleTurn handler ev count s = (None, s', []).
Proof.
  destruct ev as [| | |d ok]; simpl; try (eauto || (intros [?|[? _]]; done)).
  destruct (maxMessageSize <? blen d); [eauto|]. simpl.
  destruct (handler d) as [e|[r|]]; simpl.
  - intros [?|[_ Hc]]; [done|]. destruct (Nat.leb_spec maxHandlerErrors (S count)); [eauto|lia].
  - intros [Hok|[? _]]; [|done]. destruct ok; [done|eauto].
  - intros [?|[? _]]; done.
Qed.

(** The failures at the end of [evs], counted from [count] before it. *)
Fixpoint streak (count : nat) (evs : list event) : nat :=
  match evs with
  | [] => count
  | ev :: evs => streak (if failing ev then S count else 0%nat) evs
  end.

(** Some prefix ends in a fatal event or in ten failures. *)
Fixpoint leaves (count : nat) (evs : list event) : bool :=
  match evs with
  | [] => false
  | ev :: evs =>
      fatal ev || (failing ev && (maxHandlerErrors <=? S count)%nat) ||
      leaves (if failing ev then S count else 0%nat) evs
  end.

Lemma handleLoop_spec evs count s :
  if leaves count evs then exists s' out, handleLoop handler evs count s = (None, s', out)
  else exists s', handleLoop handler evs count s =
         (Some (streak count evs), s', omap response evs).
Proof.
  revert count s. induction evs as [|ev evs IH]; intros count s; [by eexists|].
  cbn [leaves handleLoop streak].
  destruct (fatal ev || (failing ev && (maxHandlerErrors <=? S count)%nat)) eqn:E.
  - simpl. destruct (handleTurn_leave ev count s) as [s' ->]; [|eauto].
    apply orb_true_iff in E as [E|E]; [by left|].
    apply andb_true_iff in E as [E1 E2%Nat.leb_le]. by right.
  - apply orb_false_elim in E as [E1 E2]. rewrite orb_false_l.
    destruct (handleTurn_ok ev count s E1) as [s' ->].
    { intros Hf. rewrite Hf in E2. apply Nat.leb_gt in E2. done. }
    specialize (IH (if failing ev then S count else 0%nat) s').
    destruct (leaves (if failing ev then S count else 0%nat) evs).
    + destruct IH as (s2 & out & ->). eauto.
    + destruct IH as (s2 & ->). exists s2. simpl. by destruct (response ev).
Qed.

(** [leaves] as a statement about positions. *)
Lemma streak_app count a b : streak count (a ++ b) = streak (streak count a) b.
Proof. revert count. induction a as [|ev a IH]; intros count; simpl; [done|apply IH]. Qed.

Lemma leaves_app count a b :
  leaves count (a ++ b) = leaves count a || leaves (streak count a) b.
Proof.
  revert count. induction a as [|ev a IH]; intros count; simpl; [done|].
  rewrite IH, orb_assoc. done.
Qed.

Lemma streak_failing count evs :
  Forall (fun ev => failing ev = true) evs -> streak count evs = (length evs + count)%nat.
Proof.
  revert count. induction evs as [|ev evs IH]; intros count; simpl; [done|].
  intros [-> Hf]%Forall_cons. rewrite IH by done. lia.
Qed.

(** A count of [n] at the end means the last [n] events failed. *)
Lemma streak_suffix evs :
  exists a b, evs = a ++ b /\ length b = streak 0 evs /\
              Forall (fun ev => failing ev = true) b.
Proof.
  induction evs as [|ev evs IH] using rev_ind; [by exists [], []|].
  destruct IH as (a & b & -> & Hl & Hb). rewrite streak_app. cbn [streak].
  destruct (failing ev) eqn:E.
  - exists a, (b ++ [ev]). rewrite <- app_assoc, length_app, <- Hl. simpl.
    split_and!; [done|lia|]. apply Forall_app; auto.
  - by exists ((a ++ b) ++ [ev]), []; rewrite app_nil_r.
Qed.

Lemma streak_ge (a b : list event) :
  Forall (fun ev => failing ev = true) b -> (length b <= streak 0 (a ++ b))%nat.
Proof. intros Hb. rewrite streak_app, streak_failing by done. lia. Qed.

Lemma leaves_spec evs :
  leaves 0 evs = true <->
  (exists ev, ev ∈ evs /\ fatal ev = true) \/
  (exists a b c, evs = a ++ b ++ c /\ length b = maxHandlerErrors /\
                 Forall (fun ev => failing ev = true) b).
Proof.
  split.
  - induction evs as [|ev evs IH] using rev_ind; [done|].
    rewrite leaves_app. intros [Hl|Hl]%orb_true_iff.
    + destruct (IH Hl) as [(x & Hx & Hf)|(a & b & c & -> & Hb)].
      * left. exists x. split; [|done]. apply elem_of_app. by left.
      * right. exists a, b, (c ++ [ev]). by rewrite <- !app_assoc.
    + simpl in Hl. rewrite orb_false_r in Hl. apply orb_true_iff in Hl as [Hl|Hl].
      * left. exists ev. split; [|done]. apply elem_of_app. right. set_solver.
      * apply andb_true_iff in Hl as [Hf Hn%Nat.leb_le].
        destruct (streak_suffix (evs ++ [ev])) as (a & b & He & Hb & Hall).
        rewrite streak_app in Hb. simpl in Hb. rewrite Hf in Hb.
        right. exists a, (take maxHandlerErrors b), (drop maxHandlerErrors b).
        rewrite take_drop, length_take. split_and!; [done|lia|by apply Forall_take].
  - intros [(ev & Hin & Hf)|(a & b & c & -> & Hl & Hb)].
    + apply list_elem_of_split in Hin as (a & b & ->). rewrite leaves_app. simpl. rewrite Hf.
      by destruct (leaves 0 a).
    + destruct b as [|x b _] using rev_ind; rewrite maxHandlerErrors_eq in Hl; [done|].
      rewrite length_app in Hl. simpl in Hl.
      apply Forall_app in Hb as [Hb Hx]. apply Forall_cons in Hx as [Hx _].
      rewrite <- app_assoc, leaves_app, leaves_app. simpl. rewrite Hx.
      rewrite (streak_failing _ b) by done.
      destruct (Nat.leb_spec maxHandlerErrors (S (length b + streak 0 a)));
        [|rewrite maxHandlerErrors_eq in *; lia].
      by rewrite andb_true_l, orb_true_r, orb_true_l, !orb_true_r.
Qed.
End handle.

(** C34. A server connection: it is closed exactly when one of its events is
    fatal (stop, a read error that is no timeout, an oversized message, a
    response that cannot be sent) or ten consecutive messages failed in the
    handler, and the counter of active connections goes down exactly then;
    otherwise it stays open and has sent the non-nil responses of the handler
    in order. *)
Theorem handleConn_closes handler evs s :
  let '(open, s', out) := handleConn handler evs s in
  (open = false <->
     (exists ev, ev ∈ evs /\ fatal handler ev = true) \/
     (exists a b c, evs = a ++ b ++ c /\ length b = 10%nat /\
                    Forall (fun ev => failing handler ev = true) b)) /\
  ss_ActiveConns s' = ss_ActiveConns s - (if open then 0 else 1) /\
  (open = true -> out = omap (response handler) evs).
Proof.
  unfold handleConn. pose proof (handleLoop_spec handler evs 0 s) as H.
  pose proof (leaves_spec handler evs) as Hl. rewrite maxHandlerErrors_eq in Hl.
  assert (Hact : forall evs c s, ss_ActiveConns (snd (fst (handleLoop handler evs c s)))
                               = ss_ActiveConns s).
  { clear. induction evs as [|ev evs IH]; intros c s; [done|]. cbn [handleLoop].
    assert (Ht : ss_ActiveConns (snd (fst (handleTurn handler ev c s))) = ss_ActiveConns s).
    { destruct ev as [| | |d ok]; simpl; try done. case_match; [done|].
      destruct (handler d) as [|[]]; try done. by destruct ok. }
    destruct (handleTurn handler ev c s) as [[[c'|] s'] o]; [|done]. simpl in Ht.
    specialize (IH c' s'). destruct (handleLoop handler evs c' s') as [[r s2] o'].
    simpl in *. congruence. }
  specialize (Hact evs 0%nat s).
  destruct (leaves handler 0 evs).
  - destruct H as (s' & out & E). rewrite E in Hact |- *. simpl in *.
    split_and!; [|lia|done]. by rewrite <- Hl.
  - destruct H as (s' & E). rewrite E in Hact |- *. simpl in *.
    split_and!; [|lia|done]. by rewrite <- Hl.
Qed.

(** * Accepting connections *)

(** The configuration; the server reads only the size of its pool of
    workers. *)
Record ServerConfig := mkServerConfig {
  sc_MaxConns : Z; sc_ReadBufferSize : Z; sc_WriteBufferSize : Z; sc_EnableRequestResponse : bool;
  sc_WorkerPoolSize : Z; sc_EnableBackpressure : bool; sc_BackpressureThreshold : Z;
}.
Definition DefaultServerConfig : ServerConfig := mkServerConfig 1000 (64 * 1024) (64 * 1024) false 100 true 10000.

(** [Address]: empty until the server listens. *)
Definition ServerAddress (listener : option string) : string := default ""%string listener.

Definition connChSize (workerPoolSize : Z) : nat :=
  let n := if workerPoolSize <=? 0 then 100 else workerPoolSize in
  Z.to_nat ((if 5000 <? n then 5000 else n) * 2).

Definition workers (workerPoolSize : Z) : nat :=
  Z.to_nat (if workerPoolSize <=? 0 then 100 else workerPoolSize).

(** [sv_leaked] counts connections accepted, counted as active and closed
    without ever reaching a worker. *)
Record server := mkServer {
  sv_cap : nat;
  sv_workers : nat;
  sv_accepting : bool;   (* acceptLoop runs *)
  sv_stopped : bool;     (* stopCh is closed *)
  sv_connCh : nat;
  sv_handling : nat;     (* workers in handleConn *)
  sv_leaked : nat;
  sv_connections : Z;
  sv_active : Z;
}.

Definition StartServer (workerPoolSize : Z) : server :=
  mkServer (connChSize workerPoolSize) (workers workerPoolSize) true false 0 0 0 0 0.

(** [Start], and [StartRequestResponse] which is the same: [None] when the
    transport cannot listen. *)
Definition ServerStart (cfg : ServerConfig) (listens : bool) : option server :=
  if listens then Some (StartServer (sc_WorkerPoolSize cfg)) else None.

(** Accepting a connection: the counters, then what becomes of it. *)
Definition accepted (s : server) (running : bool) (queued leaked : nat) : server :=
  mkServer (sv_cap s) (sv_workers s) running (sv_stopped s) (sv_connCh s + queued)
    (sv_handling s) (sv_leaked s + leaked) (addu64 (sv_connections s) 1) (sv_active s + 1).

Inductive server_step : server -> server -> Prop :=
| sv_accept s :
    sv_accepting s = true -> (sv_connCh s < sv_cap s)%nat -> server_step s (accepted s true 1 0)
| sv_accept_full s :  (* the channel is full after 10 ms *)
    sv_accepting s = true -> sv_stopped s = false -> sv_connCh s = sv_cap s ->
    server_step s (accepted s false 0 1)
| sv_accept_stopped s :
    sv_accepting s = true -> sv_stopped s = true -> server_step s (accepted s false 0 1)
| sv_accept_exit s :
    sv_accepting s = true -> sv_stopped s = true ->
    server_step s (mkServer (sv_cap s) (sv_workers s) false true (sv_connCh s) (sv_handling s)
                     (sv_leaked s) (sv_connections s) (sv_active s))
| sv_take s n :
    sv_connCh s = S n -> (sv_handling s < sv_workers s)%nat ->
    server_step s (mkServer (sv_cap s) (sv_workers s) (sv_accepting s) (sv_stopped s) n
                     (S (sv_handling s)) (sv_leaked s) (sv_connections s) (sv_active s))
| sv_finish s n :
    sv_handling s = S n ->
    server_step s (mkServer (sv_cap s) (sv_workers s) (sv_accepting s) (sv_stopped s) (sv_connCh s)
                     n (sv_leaked s) (sv_connections s) (sv_active s - 1))
| sv_stop s :
    server_step s (mkServer (sv_cap s) (sv_workers s) (sv_accepting s) true (sv_connCh s)
                     (sv_handling s) (sv_leaked s) (sv_connections s) (sv_active s)).

Record server_ok (s : server) : Prop := {
  sk_active : sv_active s = Z.of_nat (sv_connCh s + sv_handling s + sv_leaked s);
  sk_queue : (sv_connCh s <= sv_cap s)%nat;
  sk_workers : (sv_handling s <= sv_workers s)%nat;
  sk_leaked : (sv_leaked s <= if sv_accepting s then 0 else 1)%nat;
}.

Lemma server_step_ok s s' : server_ok s -> server_step s s' -> server_ok s'.
Proof.
  intros [Ha Hq Hw Hl] Hs. destruct Hs; simpl in *;
    (split; simpl; [lia|lia|lia|]; destruct (sv_accepting s); simpl in *; (lia || done)).
Qed.

(** The server's connections: in every reachable state the counter of
    active connections is the number waiting for a worker, plus the number
    being handled, plus at most one that was dropped; the channel and the
    workers stay within their sizes.  When the channel is full for 10 ms the
    connection is dropped and the accept loop ends: from then on, without
    anyone having stopped the server, no connection is ever accepted and the
    dropped one is counted as active for good. *)
Theorem server_accepts workerPoolSize s s' :
  steps server_step (StartServer workerPoolSize) s ->
  steps server_step s s' ->
  (sv_active s = Z.of_nat (sv_connCh s + sv_handling s + sv_leaked s) /\
   (sv_connCh s <= connChSize workerPoolSize)%nat /\
   (sv_handling s <= workers workerPoolSize)%nat /\ (sv_leaked s <= 1)%nat) /\
  (sv_accepting s = true -> sv_stopped s = false -> sv_connCh s = sv_cap s ->
     server_step s (accepted s false 0 1)) /\
  (sv_accepting s = false ->
     sv_accepting s' = false /\ sv_connections s' = sv_connections s /\
     (sv_leaked s = 1%nat -> 1 <= sv_active s')).
Proof.
  intros H0 Hs.
  assert (Hok : server_ok s /\ sv_cap s = connChSize workerPoolSize /\
                sv_workers s = workers workerPoolSize).
  { refine (steps_invariant _ (fun s => server_ok s /\ sv_cap s = connChSize workerPoolSize /\
                sv_workers s = workers workerPoolSize) _ _ _ _ H0).
    - intros x y (Hk & Hc & Hw) Hxy. split; [by eapply server_step_ok|]. by destruct Hxy.
    - split; [|done]. split; simpl; lia. }
  destruct Hok as (Hok & Hc & Hw). split_and!.
  - apply Hok.
  - rewrite <- Hc. apply Hok.
  - rewrite <- Hw. apply Hok.
  - destruct Hok as [_ _ _ Hl]. destruct (sv_accepting s); lia.
  - by apply sv_accept_full.
  - intros Hf. set (P := fun s' => server_ok s' /\ sv_accepting s' = false /\
                           sv_connections s' = sv_connections s /\ sv_leaked s' = sv_leaked s).
    assert (HP : P s').
    { refine (steps_invariant _ P _ _ _ _ Hs); [|done]. intros x y (Hk & Hx & Hn & Hl) Hxy.
      split; [by eapply server_step_ok|]. destruct Hxy; simpl; try congruence; done. }
    destruct HP as ([Ha _ _ _] & Hx & Hn & Hl). split_and!; [done|done|]. intros. lia.
Qed.

(** A server of one worker whose channel of two fills up. *)
Lemma server_accepts_witness :
  exists s, steps server_step (StartServer 1) s /\ sv_stopped s = false /\
    sv_leaked s = 1%nat /\ sv_active s = 3 /\
    forall s', steps server_step s s' -> sv_accepting s' = false /\ 1 <= sv_active s'.
Proof.
  assert (H : exists s, steps server_step (StartServer 1) s /\ sv_stopped s = false /\
            sv_leaked s = 1%nat /\ sv_active s = 3 /\ sv_accepting s = false).
  { eexists. split; [|split_and!; cycle 1].
    - eapply steps_cons; [apply sv_accept; [done|vm_compute; lia]|].
      eapply steps_cons; [apply sv_accept; [done|vm_compute; lia]|].
      eapply steps_one, sv_accept_full; done.
    - done.
    - done.
    - done.
    - done. }
  destruct H as (s & H0 & Hst & Hl & Ha & Hf). exists s. split_and!; try done.
  intros s' Hs. destruct (server_accepts 1 s s' H0 Hs) as (_ & _ & H).
  destruct (H Hf) as (? & _ & ?). auto.
Defined.
