(* ===== verification/ConnPool.v ===== *)
(** * Connection pool

    internal/network/pool.go: per address a stack of idle connections, a
    count of connections in use and the waiting callers, in shards chosen by
    a hash of the address.  [Get] and [Put] take and release the locks
    several times; [poolGetBegin], [activateConn], [dialed] and [dialFailed] are the
    sections of [Get], and concurrent users are a step relation over them.
    The dialled connection, the health of a connection and the clock are
    arguments. *)

From S2P Require Import Prelude.

Record PoolConfig := mkPoolConfig {
  MaxIdle : Z;
  MaxActive : Z;
  IdleTimeout : Z;
  WaitTimeout : Z;
}.

Record PoolStats := mkPoolStats {
  ps_Total : Z;
  ps_Active : Z;
  ps_Idle : Z;
  ps_Waiters : Z;
  ps_Created : Z;
  ps_Closed : Z;
  ps_Errors : Z;
}.

(** A connection, with its identity and what [RemoteAddr] says. *)
Record Conn := mkConn { c_id : nat; c_remote : string }.

#[export] Instance Conn_eq_dec : EqDecision Conn.
Proof. solve_decision. Defined.

Record idleConn := mkIdle { ic_conn : Conn; ic_since : Z }.

Record addrPool := mkAddrPool {
  ap_idle : list idleConn;
  ap_active : Z;
  ap_waiters : list nat;
}.

Definition emptyAddrPool : addrPool := mkAddrPool [] 0 [].

Record poolShard := mkPoolShard {
  sh_pools : gmap string addrPool;
  sh_active : gset nat;   (* identities of the connections in use *)
}.

Definition emptyShard : poolShard := mkPoolShard ∅ ∅.

Record connPool := mkConnPool {
  p_cfg : PoolConfig;
  p_shards : gmap Z poolShard;
  p_stats : PoolStats;
  p_closed : bool;
  p_requests : Z;
}.

Definition NewConnPool (cfg : PoolConfig) : connPool :=
  mkConnPool cfg ∅ (mkPoolStats 0 0 0 0 0 0 0) false 0.

(** * Shards *)

Definition poolShards : Z := 256.

Definition getShard (address : string) : Z :=
  foldl (fun hash c => uint 32 (uint 32 (hash * 31) + Z.of_nat (Ascii.nat_of_ascii c))) 0
        (String.list_ascii_of_string address) mod poolShards.

Definition shardAt (i : Z) (p : connPool) : poolShard := default emptyShard (p_shards p !! i).

Definition setShard (i : Z) (sh : poolShard) (p : connPool) : connPool :=
  mkConnPool (p_cfg p) (<[i := sh]> (p_shards p)) (p_stats p) (p_closed p) (p_requests p).

Definition addrPoolOf (address : string) (p : connPool) : addrPool :=
  default emptyAddrPool (sh_pools (shardAt (getShard address) p) !! address).

Definition setAddrPool (address : string) (ap : addrPool) (p : connPool) : connPool :=
  let sh := shardAt (getShard address) p in
  setShard (getShard address) (mkPoolShard (<[address := ap]> (sh_pools sh)) (sh_active sh)) p.

Definition setActive (address : string) (f : gset nat -> gset nat) (p : connPool) : connPool :=
  let sh := shardAt (getShard address) p in
  setShard (getShard address) (mkPoolShard (sh_pools sh) (f (sh_active sh))) p.

(** Adding to the counters: total, active, idle, waiters, created, closed,
    errors. *)
Definition count (dt da di dw dc dx de : Z) (p : connPool) : connPool :=
  let s := p_stats p in
  mkConnPool (p_cfg p) (p_shards p)
    (mkPoolStats (ps_Total s + dt) (ps_Active s + da) (ps_Idle s + di) (ps_Waiters s + dw)
       (addu64 (ps_Created s) dc) (addu64 (ps_Closed s) dx) (addu64 (ps_Errors s) de))
    (p_closed p) (p_requests p).

(** * Get *)

Inductive getOutcome :=
| GotIdle (c : Conn)       (* to be activated *)
| MustDial
| MustWait                 (* the waiter is enqueued *)
| ErrPoolExhausted
| ErrPoolClosed.

(** The section of [Get] under the lock of the address; [w] names the waiter
    that is enqueued when the caller must wait. *)
Definition poolGetBegin (w : nat) (address : string) (p : connPool) : getOutcome * connPool :=
  if p_closed p then (ErrPoolClosed, p)
  else
    let p := mkConnPool (p_cfg p) (p_shards p) (p_stats p) (p_closed p)
               (addu64 (p_requests p) 1) in
    let ap := addrPoolOf address p in
    match last (ap_idle ap) with
    | Some ic =>
        (GotIdle (ic_conn ic),
         setAddrPool address
           (mkAddrPool (take (length (ap_idle ap) - 1) (ap_idle ap)) (ap_active ap) (ap_waiters ap)) p)
    | None =>
        if (0 <? MaxActive (p_cfg p)) && (MaxActive (p_cfg p) <=? ap_active ap) then
          if 0 <? WaitTimeout (p_cfg p) then
            (MustWait, count 0 0 0 1 0 0 0
               (setAddrPool address (mkAddrPool (ap_idle ap) (ap_active ap) (ap_waiters ap ++ [w])) p))
          else (ErrPoolExhausted, setAddrPool address ap p)
        else
          (MustDial, count 0 1 0 0 1 0 0
             (setAddrPool address (mkAddrPool (ap_idle ap) (ap_active ap + 1) (ap_waiters ap)) p))
    end.

Definition activateConn (address : string) (c : Conn) (p : connPool) : connPool :=
  let ap := addrPoolOf address p in
  let p := setAddrPool address (mkAddrPool (ap_idle ap) (ap_active ap + 1) (ap_waiters ap)) p in
  setActive address (fun a => {[c_id c]} ∪ a) (count 0 1 (-1) 0 0 0 0 p).

Definition dialed (address : string) (c : Conn) (p : connPool) : connPool :=
  setActive address (fun a => {[c_id c]} ∪ a) (count 1 0 0 0 0 0 0 p).

Definition dialFailed (address : string) (p : connPool) : connPool :=
  let ap := addrPoolOf address p in
  count 0 (-1) 0 0 0 0 1
    (setAddrPool address (mkAddrPool (ap_idle ap) (ap_active ap - 1) (ap_waiters ap)) p).

(** How long a caller waits: longer behind many waiters, never beyond the
    deadline of its context. *)
Definition waitTime (cfg : PoolConfig) (waiters : nat) (untilDeadline : option Z) : Z :=
  let t := WaitTimeout cfg in
  let t := if (100 <? waiters)%nat then t * 2
           else if (50 <? waiters)%nat then t * 3 ÷ 2 else t in
  match untilDeadline with
  | Some d => if d <? t then d else t
  | None => t
  end.

Definition removeWaiter (address : string) (w : nat) (p : connPool) : connPool :=
  let ap := addrPoolOf address p in
  setAddrPool address (mkAddrPool (ap_idle ap) (ap_active ap)
    (match list_find (eq w) (ap_waiters ap) with
     | Some (i, _) => take i (ap_waiters ap) ++ drop (S i) (ap_waiters ap)
     | None => ap_waiters ap
     end)) p.

(** The end of a wait: woken up, or the timer or the context fired. *)
Definition waitDone (p : connPool) : connPool := count 0 0 0 (-1) 0 0 0 p.
Definition waitFailed (address : string) (w : nat) (p : connPool) : connPool :=
  removeWaiter address w (waitDone p).

(** * Put, Remove, cleanup and Close *)

(** The first [n] waiters leave the queue and are signalled. *)
Definition wake (n : nat) (address : string) (p : connPool) : list nat * connPool :=
  let ap := addrPoolOf address p in
  let b := Nat.min n (length (ap_waiters ap)) in
  (take b (ap_waiters ap),
   count 0 0 0 (- Z.of_nat b) 0 0 0
     (setAddrPool address (mkAddrPool (ap_idle ap) (ap_active ap) (drop b (ap_waiters ap))) p)).

(** The waiters signalled and whether the connection is closed. *)
Definition Put (healthy : bool) (now : Z) (c : Conn) (p : connPool) : list nat * bool * connPool :=
  if p_closed p then ([], true, p)
  else
    let addr := c_remote c in
    let p := setActive addr (fun a => a ∖ {[c_id c]}) p in
    let ap := addrPoolOf addr p in
    let p := count 0 (-1) 0 0 0 0 0
      (setAddrPool addr (mkAddrPool (ap_idle ap) (ap_active ap - 1) (ap_waiters ap)) p) in
    if (0 <? MaxIdle (p_cfg p)) && (Z.of_nat (length (ap_idle ap)) <? MaxIdle (p_cfg p)) then
      if negb healthy then ([], true, count (-1) 0 0 0 0 1 0 p)
      else
        let p := count 0 0 1 0 0 0 0
          (setAddrPool addr (mkAddrPool (ap_idle ap ++ [mkIdle c now]) (ap_active ap - 1)
                               (ap_waiters ap)) p) in
        let '(ws, p) := wake 10 addr p in (ws, false, p)
    else ([], true, count (-1) 0 0 0 0 1 0 p).

Definition Remove (c : Conn) (p : connPool) : connPool :=
  let addr := c_remote c in
  let p := setActive addr (fun a => a ∖ {[c_id c]}) p in
  match sh_pools (shardAt (getShard addr) p) !! addr with
  | None => p
  | Some ap =>
      let p :=
        if 0 <? ap_active ap then
          count 0 (-1) 0 0 0 0 0
            (setAddrPool addr (mkAddrPool (ap_idle ap) (ap_active ap - 1) (ap_waiters ap)) p)
        else
          match list_find (fun ic => ic_conn ic = c) (ap_idle ap) with
          | Some (i, _) =>
              count 0 0 (-1) 0 0 0 0
                (setAddrPool addr (mkAddrPool (take i (ap_idle ap) ++ drop (S i) (ap_idle ap))
                                     (ap_active ap) (ap_waiters ap)) p)
          | None => p
          end in
      count (-1) 0 0 0 0 1 0 p
  end.

Definition expiredIdle (cfg : PoolConfig) (now : Z) (ic : idleConn) : bool :=
  (0 <? IdleTimeout cfg) && (IdleTimeout cfg <? now - ic_since ic).

(** One address: the connections closed and the waiters signalled. *)
Definition cleanupAddr (now : Z) (address : string) (p : connPool)
    : list Conn * list nat * connPool :=
  let cfg := p_cfg p in
  let ap := addrPoolOf address p in
  let closed := filter (fun ic => expiredIdle cfg now ic = true) (ap_idle ap) in
  let validIdle := filter (fun ic => expiredIdle cfg now ic = false) (ap_idle ap) in
  let n := Z.of_nat (length closed) in
  let p := count (-n) 0 (-n) 0 0 n 0
    (setAddrPool address (mkAddrPool validIdle (ap_active ap) (ap_waiters ap)) p) in
  let '(ws, p) :=
    if ap_active ap <? MaxActive cfg then
      wake (Nat.min (Z.to_nat (MaxActive cfg - ap_active ap)) 10) address p
    else ([], p) in
  (ic_conn <$> closed, ws, p).

(** Every address there is, in the order of the maps. *)
Definition addresses (p : connPool) : list string :=
  map_to_list (p_shards p) ≫= fun '(_, sh) => fst <$> map_to_list (sh_pools sh).

Definition cleanupIdleConns (now : Z) (p : connPool) : connPool :=
  foldl (fun p a => snd (cleanupAddr now a p)) p (addresses p).

(** The first call closes the connections that are idle or in use, empties
    the pool and zeroes the counters. *)
Definition allConns (p : connPool) : list nat :=
  map_to_list (p_shards p) ≫= fun '(_, sh) =>
    (map_to_list (sh_pools sh) ≫= fun '(_, ap) => (fun ic => c_id (ic_conn ic)) <$> ap_idle ap)
    ++ elements (sh_active sh).

Definition Close (p : connPool) : list nat * connPool :=
  if p_closed p then ([], p)
  else (allConns p, mkConnPool (p_cfg p) ∅ (mkPoolStats 0 0 0 0 0 0 0) true (p_requests p)).

(** * Reading back an update *)

Definition activeAt (i : Z) (p : connPool) : gset nat := sh_active (shardAt i p).

Lemma shardAt_set i j sh p : shardAt i (setShard j sh p) = if decide (i = j) then sh else shardAt i p.
Proof.
  unfold shardAt, setShard. cbn [p_shards]. destruct (decide (i = j)) as [->|Hne].
  - by rewrite lookup_insert_eq.
  - by rewrite lookup_insert_ne.
Qed.

Lemma addrPoolOf_set a b ap p :
  addrPoolOf a (setAddrPool b ap p) = if decide (a = b) then ap else addrPoolOf a p.
Proof.
  unfold addrPoolOf, setAddrPool. rewrite shardAt_set. destruct (decide (a = b)) as [->|Hne].
  - rewrite decide_True by done. cbn [sh_pools]. by rewrite lookup_insert_eq.
  - destruct (decide (getShard a = getShard b)) as [->|]; [|done].
    cbn [sh_pools]. by rewrite lookup_insert_ne.
Qed.

Lemma addrPoolOf_active a b f p : addrPoolOf a (setActive b f p) = addrPoolOf a p.
Proof.
  unfold addrPoolOf, setActive. rewrite shardAt_set.
  by destruct (decide (getShard a = getShard b)) as [->|].
Qed.

Lemma addrPoolOf_count a dt da di dw dc dx de p :
  addrPoolOf a (count dt da di dw dc dx de p) = addrPoolOf a p.
Proof. done. Qed.

Lemma activeAt_set i b ap p : activeAt i (setAddrPool b ap p) = activeAt i p.
Proof.
  unfold activeAt, setAddrPool. rewrite shardAt_set. by destruct (decide (i = getShard b)) as [->|].
Qed.

Lemma activeAt_active i b f p :
  activeAt i (setActive b f p) = if decide (i = getShard b) then f (activeAt i p) else activeAt i p.
Proof.
  unfold activeAt, setActive. rewrite shardAt_set. by destruct (decide (i = getShard b)) as [->|].
Qed.

Lemma activeAt_count i dt da di dw dc dx de p :
  activeAt i (count dt da di dw dc dx de p) = activeAt i p.
Proof. done. Qed.

Create Rewrite HintDb pool.
#[export] Hint Rewrite addrPoolOf_set addrPoolOf_active addrPoolOf_count activeAt_set
  activeAt_active activeAt_count : pool.

(** The address is in the pool after it has been set. *)
Lemma lookup_setAddrPool a ap p :
  sh_pools (shardAt (getShard a) (setAddrPool a ap p)) !! a = Some ap.
Proof.
  unfold setAddrPool. rewrite shardAt_set, decide_True by done. cbn [sh_pools].
  by rewrite lookup_insert_eq.
Qed.

(** * Concurrent users *)

(** [u_held] are the connections callers have, [u_popped] those taken from
    the idle ones and not yet activated, with the address asked for,
    [u_dialing] the addresses being dialled. *)
Record users := mkUsers {
  u_pool : connPool;
  u_held : list Conn;
  u_popped : list (string * Conn);
  u_dialing : list string;
  u_next : nat;
}.

(** At most [G] calls of [Get] are past the lock at a time.  A connection
    that was dialled at [a] may report the remote address [r] where [R a r]. *)
Inductive pool_step (G : nat) (R : string -> string -> Prop) : users -> users -> Prop :=
| us_idle w a c p p' h po d n :
    (length po + length d < G)%nat -> poolGetBegin w a p = (GotIdle c, p') ->
    pool_step G R (mkUsers p h po d n) (mkUsers p' h ((a, c) :: po) d n)
| us_dial w a p p' h po d n :
    (length po + length d < G)%nat -> poolGetBegin w a p = (MustDial, p') ->
    pool_step G R (mkUsers p h po d n) (mkUsers p' h po (a :: d) n)
| us_wait w a p p' h po d n :
    poolGetBegin w a p = (MustWait, p') ->
    pool_step G R (mkUsers p h po d n) (mkUsers p' h po d n)
| us_exhausted w a p p' h po d n :
    poolGetBegin w a p = (ErrPoolExhausted, p') ->
    pool_step G R (mkUsers p h po d n) (mkUsers p' h po d n)
| us_wait_done p h po d n :
    pool_step G R (mkUsers p h po d n) (mkUsers (waitDone p) h po d n)
| us_wait_failed a w p h po d n :
    pool_step G R (mkUsers p h po d n) (mkUsers (waitFailed a w p) h po d n)
| us_activate a c p h po po' d n :
    po ≡ₚ (a, c) :: po' ->
    pool_step G R (mkUsers p h po d n) (mkUsers (activateConn a c p) (c :: h) po' d n)
| us_dialed a remote c p h po d d' n :
    d ≡ₚ a :: d' -> R a remote -> c = mkConn n remote ->
    pool_step G R (mkUsers p h po d n) (mkUsers (dialed a c p) (c :: h) po d' (S n))
| us_dial_failed a p h po d d' n :
    d ≡ₚ a :: d' ->
    pool_step G R (mkUsers p h po d n) (mkUsers (dialFailed a p) h po d' n)
| us_put healthy now c ws closed p p' h h' po d n :
    h ≡ₚ c :: h' -> Put healthy now c p = (ws, closed, p') ->
    pool_step G R (mkUsers p h po d n) (mkUsers p' h' po d n)
| us_remove c p h h' po d n :
    h ≡ₚ c :: h' ->
    pool_step G R (mkUsers p h po d n) (mkUsers (Remove c p) h' po d n)
| us_cleanup now a closed ws p p' h po d n :
    cleanupAddr now a p = (closed, ws, p') ->
    pool_step G R (mkUsers p h po d n) (mkUsers p' h po d n)
| us_close p h po d n :
    pool_step G R (mkUsers p h po d n) (mkUsers (snd (Close p)) h po d n).

(** Connections of an address. *)
Definition of_addr (a : string) (l : list Conn) : list Conn := filter (fun c => c_remote c = a) l.
Definition at_addr {A} (a : string) (l : list (string * A)) : list (string * A) :=
  filter (fun x => fst x = a) l.

#[export] Instance of_addr_proper a : Proper ((≡ₚ) ==> (≡ₚ)) (of_addr a).
Proof. intros l l' Hl. unfold of_addr. by rewrite Hl. Qed.
#[export] Instance at_addr_proper {A} a : Proper ((≡ₚ) ==> (≡ₚ)) (at_addr (A := A) a).
Proof. intros l l' Hl. unfold at_addr. by rewrite Hl. Qed.

(** What holds of the pool and its users; [idles] are all idle connections. *)
Record pool_inv (G : nat) (cfg : PoolConfig) (idles : list Conn) (u : users) : Prop := {
  pv_cfg : p_cfg (u_pool u) = cfg;
  pv_open : p_closed (u_pool u) = false;
  pv_idle a : ic_conn <$> ap_idle (addrPoolOf a (u_pool u)) ≡ₚ of_addr a idles;
  pv_ids : NoDup (c_id <$> u_held u ++ (snd <$> u_popped u) ++ idles);
  pv_next : Forall (fun c => c_id c < u_next u)%nat (u_held u ++ (snd <$> u_popped u) ++ idles);
  pv_popped : Forall (fun x => c_remote (snd x) = fst x) (u_popped u);
  pv_active a : ap_active (addrPoolOf a (u_pool u)) =
                Z.of_nat (length (of_addr a (u_held u)) + length (filter (eq a) (u_dialing u)));
  pv_stats : let s := p_stats (u_pool u) in
             ps_Active s = Z.of_nat (length (u_held u) + length (u_dialing u)) /\
             ps_Idle s = Z.of_nat (length (u_popped u) + length idles) /\
             ps_Total s = Z.of_nat (length (u_held u) + length (u_popped u) + length idles);
  pv_use c : c ∈ u_held u -> c_id c ∈ activeAt (getShard (c_remote c)) (u_pool u);
  pv_flight : (length (u_popped u) + length (u_dialing u) <= G)%nat;
  pv_limit a : 0 < MaxActive cfg ->
    Z.of_nat (length (of_addr a (u_held u)) + length (at_addr a (u_popped u)) +
              length (filter (eq a) (u_dialing u)) + length (of_addr a idles))
    <= MaxActive cfg + Z.max 0 (Z.of_nat G - 1);
}.

(** ** Changes that do not touch the connections *)

Record same_conns (p p' : connPool) : Prop := {
  sc_cfg : p_cfg p' = p_cfg p;
  sc_closed : p_closed p' = p_closed p;
  sc_idle a : ap_idle (addrPoolOf a p') = ap_idle (addrPoolOf a p);
  sc_active a : ap_active (addrPoolOf a p') = ap_active (addrPoolOf a p);
  sc_stats : ps_Active (p_stats p') = ps_Active (p_stats p) /\
             ps_Idle (p_stats p') = ps_Idle (p_stats p) /\
             ps_Total (p_stats p') = ps_Total (p_stats p);
  sc_use i : activeAt i p' = activeAt i p;
}.

#[export] Instance same_conns_refl : Reflexive same_conns.
Proof. by split. Qed.

Lemma inv_same G cfg idles p p' h po d n :
  same_conns p p' ->
  pool_inv G cfg idles (mkUsers p h po d n) -> pool_inv G cfg idles (mkUsers p' h po d n).
Proof.
  intros [Hc Hx Hi Ha (H1 & H2 & H3) Hu] [Vc Vx Vi Vn Vf Vp Va Vs Vu Vg Vl].
  split; cbn [u_pool u_held u_popped u_dialing u_next] in *; try done.
  - congruence.
  - congruence.
  - intros a. by rewrite Hi.
  - intros a. by rewrite Ha.
  - cbn zeta in *. by rewrite H1, H2, H3.
  - intros c. rewrite Hu. auto.
Qed.

(** Setting an address to what it was, but for the waiters. *)
Lemma same_waiters a ws dw p :
  same_conns p (count 0 0 0 dw 0 0 0
    (setAddrPool a (mkAddrPool (ap_idle (addrPoolOf a p)) (ap_active (addrPoolOf a p)) ws) p)).
Proof.
  split; try done.
  - intros b. autorewrite with pool. by case_decide as E; [rewrite E|].
  - intros b. autorewrite with pool. by case_decide as E; [rewrite E|].
  - simpl. lia.
  - intros i. by autorewrite with pool.
Qed.

Lemma same_set a ws p :
  same_conns p
    (setAddrPool a (mkAddrPool (ap_idle (addrPoolOf a p)) (ap_active (addrPoolOf a p)) ws) p).
Proof. destruct (same_waiters a ws 0 p) as [? ? ? ? _ ?]. by split. Qed.

Lemma same_trans p p' p'' : same_conns p p' -> same_conns p' p'' -> same_conns p p''.
Proof.
  intros [? ? Hi Ha (? & ? & ?) Hu] [? ? Hi' Ha' (? & ? & ?) Hu'].
  split; try congruence; try (intros; rewrite ?Hi', ?Ha', ?Hu'; auto).
  split_and!; congruence.
Qed.

Lemma same_wake n a p : same_conns p (snd (wake n a p)).
Proof. apply same_waiters. Qed.

Lemma same_waitDone p : same_conns p (waitDone p).
Proof. split; try done. simpl. lia. Qed.

Lemma same_waitFailed a w p : same_conns p (waitFailed a w p).
Proof. eapply same_trans; [apply (same_waitDone p)|]. apply same_set. Qed.

(** The order of the users does not matter. *)
Lemma inv_perm G cfg idles idles' p h h' po po' d d' n :
  h ≡ₚ h' -> po ≡ₚ po' -> d ≡ₚ d' -> idles ≡ₚ idles' ->
  pool_inv G cfg idles (mkUsers p h po d n) -> pool_inv G cfg idles' (mkUsers p h' po' d' n).
Proof.
  intros Hh Hp Hd Hi [Vc Vx Vi Vn Vf Vp Va Vs Vu Vg Vl].
  unfold of_addr, at_addr in *.
  split; cbn [u_pool u_held u_popped u_dialing u_next] in *; unfold of_addr, at_addr; try done.
  - intros a. by rewrite Vi, Hi.
  - by rewrite <- Hh, <- Hp, <- Hi.
  - by rewrite <- Hh, <- Hp, <- Hi.
  - by rewrite <- Hp.
  - intros a. by rewrite Va, Hh, Hd.
  - cbn zeta in *. by rewrite <- Hh, <- Hp, <- Hd, <- Hi.
  - intros c. rewrite <- Hh. auto.
  - by rewrite <- Hp, <- Hd.
  - intros a. rewrite <- Hh, <- Hp, <- Hd, <- Hi. auto.
Qed.

(** ** The steps of Get *)

Lemma of_addr_cons a c l :
  of_addr a (c :: l) = if decide (c_remote c = a) then c :: of_addr a l else of_addr a l.
Proof. unfold of_addr. by rewrite filter_cons. Qed.
Lemma at_addr_cons {A} a (x : string * A) l :
  at_addr a (x :: l) = if decide (fst x = a) then x :: at_addr a l else at_addr a l.
Proof. unfold at_addr. by rewrite filter_cons. Qed.
#[export] Hint Rewrite of_addr_cons @at_addr_cons @filter_cons @fmap_cons @length_cons : pool.

Lemma last_take {A} (l : list A) x : last l = Some x -> l = take (length l - 1) l ++ [x].
Proof.
  destruct l as [|y l _] using rev_ind; [done|]. rewrite last_snoc. intros [= ->].
  rewrite length_app. cbn [length]. rewrite take_app_le, take_ge by lia. done.
Qed.

Ltac inv_fields := split; cbn [u_pool u_held u_popped u_dialing u_next p_cfg p_closed p_stats
  setAddrPool setShard setActive count ps_Active ps_Idle ps_Total] in *; try done; cbn zeta in *.

Ltac addr_cases := repeat (first [case_decide | progress cbn [ap_idle ap_active c_remote fst snd length] in *]);
  try (subst; congruence).

Ltac active_field Va :=
  addr_cases; subst; rewrite ?Va; autorewrite with pool; addr_cases; lia.

Lemma inv_pop G cfg idles p h po d n a ic :
  pool_inv G cfg idles (mkUsers p h po d n) -> (length po + length d < G)%nat ->
  last (ap_idle (addrPoolOf a p)) = Some ic ->
  exists idles', pool_inv G cfg idles'
    (mkUsers (setAddrPool a (mkAddrPool
       (take (length (ap_idle (addrPoolOf a p)) - 1) (ap_idle (addrPoolOf a p)))
       (ap_active (addrPoolOf a p)) (ap_waiters (addrPoolOf a p))) p) h ((a, ic_conn ic) :: po) d n).
Proof.
  intros HV HG Hl. pose proof (pv_idle _ _ _ _ HV a) as Hidle. simpl in Hidle.
  rewrite (last_take _ _ Hl), fmap_app in Hidle. simpl in Hidle.
  assert (Hin : ic_conn ic ∈ of_addr a idles) by (rewrite <- Hidle; set_solver).
  apply list_elem_of_filter in Hin as [Hr Hin].
  apply elem_of_Permutation in Hin as [idles' Hp].
  apply (inv_perm _ _ _ (ic_conn ic :: idles') _ _ h _ po _ d) in HV; [|done..].
  rewrite Hp, of_addr_cons, decide_True in Hidle by done. exists idles'. destruct HV as [Vc Vx Vi Vn Vf Vp Va Vs Vu Vg Vl].
  assert (E : h ++ (snd <$> po) ++ ic_conn ic :: idles' ≡ₚ h ++ (ic_conn ic :: (snd <$> po)) ++ idles')
    by (by rewrite <- (Permutation_middle (snd <$> po))).
  inv_fields; intros; autorewrite with pool in *.
  - addr_cases; [|specialize (Vi a0); autorewrite with pool in Vi; addr_cases; congruence].
    subst a0. apply (Permutation_cons_inv (a := ic_conn ic)).
    rewrite <- Hidle. by rewrite Permutation_app_comm.
  - by rewrite E in Vn.
  - by rewrite E in Vf.
  - constructor; auto.
  - addr_cases; subst; auto.
  - simpl in *. lia.
  - auto.
  - specialize (Vl a0). autorewrite with pool in Vl. addr_cases; lia.
Qed.

Lemma inv_dial G cfg idles p h po d n a :
  pool_inv G cfg idles (mkUsers p h po d n) -> (length po + length d < G)%nat ->
  ap_idle (addrPoolOf a p) = [] ->
  (0 < MaxActive cfg -> ap_active (addrPoolOf a p) < MaxActive cfg) ->
  pool_inv G cfg idles
    (mkUsers (count 0 1 0 0 1 0 0 (setAddrPool a (mkAddrPool (ap_idle (addrPoolOf a p))
       (ap_active (addrPoolOf a p) + 1) (ap_waiters (addrPoolOf a p))) p)) h po (a :: d) n).
Proof.
  intros [Vc Vx Vi Vn Vf Vp Va Vs Vu Vg Vl] HG Hi Hm.
  inv_fields; intros; autorewrite with pool in *.
  - addr_cases; subst; auto.
  - active_field Va.
  - simpl in *. lia.
  - auto.
  - simpl. lia.
  - specialize (Vl a0 H). addr_cases. subst a0. specialize (Hm H). rewrite (Va a) in Hm.
    pose proof (Permutation_length (Vi a)) as Hl. rewrite Hi in Hl. simpl in Hl. rewrite <- Hl.
    assert (length (at_addr a po) <= length po)%nat by apply length_filter. lia.
Qed.

Lemma inv_activate G cfg idles p h po d n a c :
  pool_inv G cfg idles (mkUsers p h ((a, c) :: po) d n) ->
  pool_inv G cfg idles (mkUsers (activateConn a c p) (c :: h) po d n).
Proof.
  intros [Vc Vx Vi Vn Vf Vp Va Vs Vu Vg Vl]. unfold activateConn.
  cbn [u_popped u_held] in Vp, Vn, Vf. apply Forall_cons in Vp as [Hr Vp]. simpl in Hr.
  assert (E : h ++ (c :: (snd <$> po)) ++ idles ≡ₚ (c :: h) ++ (snd <$> po) ++ idles)
    by (cbn [app]; by rewrite <- Permutation_middle).
  inv_fields; intros; autorewrite with pool in *.
  - addr_cases; subst; auto.
  - by rewrite <- E.
  - by rewrite <- E.
  - active_field Va.
  - simpl in *. lia.
  - case_decide as Es; [|apply elem_of_cons in H as [->|H]; [by rewrite Hr in Es|auto]].
    apply elem_of_cons in H as [->|H]; [set_solver|]. apply elem_of_union_r. auto.
  - simpl in *. lia.
  - specialize (Vl a0). autorewrite with pool in Vl. addr_cases; lia.
Qed.

Lemma inv_dialed G cfg idles p h po d n a :
  pool_inv G cfg idles (mkUsers p h po (a :: d) n) ->
  pool_inv G cfg idles (mkUsers (dialed a (mkConn n a) p) (mkConn n a :: h) po d (S n)).
Proof.
  intros [Vc Vx Vi Vn Vf Vp Va Vs Vu Vg Vl]. unfold dialed.
  inv_fields; intros; autorewrite with pool in *.
  - auto.
  - simpl. constructor; [|done]. rewrite list_elem_of_fmap. intros (c & -> & Hc).
    rewrite Forall_forall in Vf. specialize (Vf c Hc). lia.
  - simpl. constructor; [simpl; lia|]. eapply Forall_impl; [exact Vf|]. simpl. lia.
  - active_field Va.
  - simpl in *. lia.
  - case_decide as Es; [|apply elem_of_cons in H as [->|H]; [done|auto]].
    apply elem_of_cons in H as [->|H]; [simpl; set_solver|]. apply elem_of_union_r. auto.
  - simpl in *. lia.
  - specialize (Vl a0). autorewrite with pool in Vl. addr_cases; lia.
Qed.

Lemma inv_dialFailed G cfg idles p h po d n a :
  pool_inv G cfg idles (mkUsers p h po (a :: d) n) ->
  pool_inv G cfg idles (mkUsers (dialFailed a p) h po d n).
Proof.
  intros [Vc Vx Vi Vn Vf Vp Va Vs Vu Vg Vl]. unfold dialFailed.
  inv_fields; intros; autorewrite with pool in *.
  - addr_cases; subst; auto.
  - active_field Va.
  - simpl in *. lia.
  - auto.
  - simpl in *. lia.
  - specialize (Vl a0). autorewrite with pool in Vl. addr_cases; lia.
Qed.

(** ** Giving a connection back *)

(** The pool without one of the connections in use. *)
Record released (c : Conn) (p p' : connPool) : Prop := {
  rl_cfg : p_cfg p' = p_cfg p;
  rl_closed : p_closed p' = p_closed p;
  rl_active a : ap_active (addrPoolOf a p') =
                ap_active (addrPoolOf a p) - (if decide (c_remote c = a) then 1 else 0);
  rl_stat : ps_Active (p_stats p') = ps_Active (p_stats p) - 1;
  rl_use i x : x ∈ activeAt i p -> x <> c_id c -> x ∈ activeAt i p';
}.

Lemma held_use G cfg idles p p' c h po d n x :
  pool_inv G cfg idles (mkUsers p (c :: h) po d n) -> released c p p' -> x ∈ h ->
  c_id x ∈ activeAt (getShard (c_remote x)) p'.
Proof.
  intros [_ _ _ Vn _ _ _ _ Vu _ _] Hr Hx. apply (rl_use c p p' Hr).
  - apply Vu. cbn [u_held]. by apply elem_of_cons; right.
  - intros He. cbn [u_held u_popped app] in Vn. rewrite fmap_cons in Vn.
    apply NoDup_cons in Vn as [Vn _]. apply Vn. rewrite <- He.
    apply (list_elem_of_fmap_2 c_id). apply elem_of_app. by left.
Qed.

Lemma inv_drop G cfg idles p p' c h po d n :
  pool_inv G cfg idles (mkUsers p (c :: h) po d n) -> released c p p' ->
  (forall a, ap_idle (addrPoolOf a p') = ap_idle (addrPoolOf a p)) ->
  ps_Idle (p_stats p') = ps_Idle (p_stats p) -> ps_Total (p_stats p') = ps_Total (p_stats p) - 1 ->
  pool_inv G cfg idles (mkUsers p' h po d n).
Proof.
  intros HV HR Hi Hsi Hst. pose proof (fun x => held_use _ _ _ _ _ _ _ _ _ _ x HV HR) as Hu.
  destruct HV as [Vc Vx Vi Vn Vf Vp Va Vs Vu Vg Vl], HR as [Rc Rx Ra Rs Ru].
  inv_fields; intros; autorewrite with pool in *.
  - congruence.
  - congruence.
  - by rewrite Hi.
  - by apply NoDup_cons in Vn as [_ Vn].
  - by apply Forall_cons in Vf as [_ Vf].
  - rewrite Ra, Va. autorewrite with pool. addr_cases; lia.
  - lia.
  - specialize (Vl a). autorewrite with pool in Vl. addr_cases; lia.
Qed.

Lemma inv_keep G cfg idles p p' c h po d n since :
  pool_inv G cfg idles (mkUsers p (c :: h) po d n) -> released c p p' ->
  (forall a, ap_idle (addrPoolOf a p') = ap_idle (addrPoolOf a p) ++
             (if decide (c_remote c = a) then [mkIdle c since] else [])) ->
  ps_Idle (p_stats p') = ps_Idle (p_stats p) + 1 -> ps_Total (p_stats p') = ps_Total (p_stats p) ->
  pool_inv G cfg (c :: idles) (mkUsers p' h po d n).
Proof.
  intros HV HR Hi Hsi Hst. pose proof (fun x => held_use _ _ _ _ _ _ _ _ _ _ x HV HR) as Hu.
  destruct HV as [Vc Vx Vi Vn Vf Vp Va Vs Vu Vg Vl], HR as [Rc Rx Ra Rs Ru].
  assert (E : (c :: h) ++ (snd <$> po) ++ idles ≡ₚ h ++ (snd <$> po) ++ c :: idles).
  { cbn [app]. by rewrite <- (Permutation_middle (snd <$> po)), <- Permutation_middle. }
  inv_fields; intros; autorewrite with pool in *.
  - congruence.
  - congruence.
  - rewrite Hi, fmap_app, Vi. addr_cases; [|by rewrite app_nil_r].
    by rewrite Permutation_app_comm.
  - by rewrite <- E.
  - by rewrite <- E.
  - rewrite Ra, Va. autorewrite with pool. addr_cases; lia.
  - lia.
  - specialize (Vl a). autorewrite with pool in *. addr_cases; lia.
Qed.

Ltac pool_updates :=
  cbn [p_cfg p_closed p_stats count setAddrPool setActive setShard ps_Active ps_Idle ps_Total].

Lemma released_set c idle ws p :
  released c p (count 0 (-1) 0 0 0 0 0
    (setAddrPool (c_remote c)
       (mkAddrPool idle (ap_active (addrPoolOf (c_remote c) p) - 1) ws)
       (setActive (c_remote c) (fun a => a ∖ {[c_id c]}) p))).
Proof.
  split; pool_updates; try done.
  - intros a. autorewrite with pool. addr_cases; subst; simpl; lia.
  - intros i x Hx Hne. autorewrite with pool. case_decide; set_solver.
Qed.

Lemma released_count c p p' dt di dw dc dx de :
  released c p p' -> released c p (count dt 0 di dw dc dx de p').
Proof.
  intros [? ? ? Hs Hu]. split; pool_updates; auto. rewrite Hs. lia.
Qed.

Lemma Put_inv G cfg idles p h po d n healthy now c ws closed p' :
  pool_inv G cfg idles (mkUsers p (c :: h) po d n) ->
  Put healthy now c p = (ws, closed, p') ->
  exists idles', pool_inv G cfg idles' (mkUsers p' h po d n).
Proof.
  intros HV. pose proof (pv_open _ _ _ _ HV) as Hopen. cbn [u_pool] in Hopen.
  set (idle := ap_idle (addrPoolOf (c_remote c) p)).
  pose proof (released_set c idle (ap_waiters (addrPoolOf (c_remote c) p)) p) as HR.
  assert (Hdrop : exists idles', pool_inv G cfg idles' (mkUsers (count (-1) 0 0 0 0 1 0
    (count 0 (-1) 0 0 0 0 0 (setAddrPool (c_remote c)
      (mkAddrPool idle (ap_active (addrPoolOf (c_remote c) p) - 1) (ap_waiters (addrPoolOf (c_remote c) p)))
      (setActive (c_remote c) (fun a => a ∖ {[c_id c]}) p)))) h po d n)).
  { exists idles. eapply inv_drop; [exact HV|by apply released_count| |pool_updates; lia..].
    intros a. autorewrite with pool. by case_decide as E; [rewrite E|]. }
  unfold Put. rewrite Hopen. autorewrite with pool. fold idle.
  case_match; [destruct healthy; cbn [negb]|]; [|by intros [= <- <- <-]..].
  destruct (wake _ _ _) as [ws' p1] eqn:Ew. intros [= <- <- <-].
  apply (f_equal snd) in Ew. cbn [snd] in Ew. subst p1.
  exists (c :: idles). eapply inv_same; [apply same_wake|].
  eapply (inv_keep _ _ _ _ _ _ _ _ _ _ now); [exact HV| | |pool_updates; lia..].
  - split; pool_updates; try done; [| |intros i x Hx Hne].
    + intros a. autorewrite with pool. addr_cases; subst; simpl; lia.
    + lia.
    + autorewrite with pool. case_decide; set_solver.
  - intros a. autorewrite with pool. addr_cases; subst; by rewrite ?app_nil_r.
Qed.

Lemma Remove_inv G cfg idles p h po d n c :
  pool_inv G cfg idles (mkUsers p (c :: h) po d n) ->
  pool_inv G cfg idles (mkUsers (Remove c p) h po d n).
Proof.
  intros HV. pose proof (pv_active _ _ _ _ HV (c_remote c)) as Ha. cbn [u_pool u_held] in Ha.
  rewrite of_addr_cons, decide_True in Ha by done. cbn [length] in Ha.
  unfold Remove.
  assert (Hap : sh_pools (shardAt (getShard (c_remote c))
      (setActive (c_remote c) (fun a => a ∖ {[c_id c]}) p)) !! c_remote c =
      Some (addrPoolOf (c_remote c) p)).
  { unfold setActive. rewrite shardAt_set, decide_True by done. cbn [sh_pools].
    unfold addrPoolOf in *. destruct (sh_pools _ !! _); [done|]. simpl in Ha. lia. }
  rewrite Hap. destruct (Z.ltb_spec 0 (ap_active (addrPoolOf (c_remote c) p))); [|lia].
  eapply inv_drop; [exact HV|apply released_count, released_set| |pool_updates; lia..].
  intros a. autorewrite with pool. by case_decide as E; [rewrite E|].
Qed.

(** ** Cleanup *)

Lemma inv_expire G cfg gone idles p p' h po d n :
  pool_inv G cfg (gone ++ idles) (mkUsers p h po d n) ->
  p_cfg p' = p_cfg p -> p_closed p' = p_closed p ->
  (forall a, ic_conn <$> ap_idle (addrPoolOf a p') ≡ₚ of_addr a idles) ->
  (forall a, ap_active (addrPoolOf a p') = ap_active (addrPoolOf a p)) ->
  (forall i, activeAt i p' = activeAt i p) ->
  ps_Active (p_stats p') = ps_Active (p_stats p) ->
  ps_Idle (p_stats p') = ps_Idle (p_stats p) - Z.of_nat (length gone) ->
  ps_Total (p_stats p') = ps_Total (p_stats p) - Z.of_nat (length gone) ->
  pool_inv G cfg idles (mkUsers p' h po d n).
Proof.
  intros [Vc Vx Vi Vn Vf Vp Va Vs Vu Vg Vl] Hc Hx Hi Ha Hu Hsa Hsi Hst.
  assert (E : h ++ (snd <$> po) ++ gone ++ idles ≡ₚ gone ++ h ++ (snd <$> po) ++ idles).
  { by rewrite !(Permutation_app_comm gone), <- !app_assoc. }
  inv_fields; intros.
  - congruence.
  - congruence.
  - rewrite E, fmap_app in Vn. by apply NoDup_app in Vn as (_ & _ & Vn).
  - rewrite E in Vf. by apply Forall_app in Vf as [_ Vf].
  - by rewrite Ha.
  - rewrite length_app in Vs. lia.
  - rewrite Hu. auto.
  - specialize (Vl a). unfold of_addr in *. rewrite filter_app, length_app in Vl. lia.
Qed.

Lemma filter_all {A} (P : A -> Prop) `{!forall x, Decision (P x)} l :
  Forall P l -> filter P l = l.
Proof. induction 1 as [|x l Hx _ IH]; [done|]. by rewrite filter_cons_True, IH. Qed.

Lemma filter_none {A} (P : A -> Prop) `{!forall x, Decision (P x)} l :
  Forall (fun x => ~ P x) l -> filter P l = [].
Proof. induction 1 as [|x l Hx _ IH]; [done|]. by rewrite filter_cons_False, IH. Qed.

Lemma of_addr_split a idles (l : list idleConn) (Q : idleConn -> bool) :
  ic_conn <$> l ≡ₚ of_addr a idles ->
  let gone := ic_conn <$> filter (fun ic => Q ic = true) l in
  let idles' := (ic_conn <$> filter (fun ic => Q ic = false) l) ++ filter (fun c => c_remote c <> a) idles in
  idles ≡ₚ gone ++ idles' /\
  of_addr a idles' ≡ₚ ic_conn <$> filter (fun ic => Q ic = false) l /\
  (forall b, b <> a -> of_addr b idles' ≡ₚ of_addr b idles).
Proof.
  intros Hl gone idles'.
  assert (Hsp : l ≡ₚ filter (fun ic => Q ic = true) l ++ filter (fun ic => Q ic = false) l).
  { clear. induction l as [|x l IH]; [done|]. rewrite !filter_cons.
    destruct (Q x) eqn:E; repeat case_decide; try congruence.
    - simpl. by rewrite <- IH.
    - by rewrite <- Permutation_middle, <- IH. }
  assert (Ha : Forall (fun c => c_remote c = a) (ic_conn <$> l)).
  { rewrite Hl. apply Forall_forall. intros c Hc. by apply list_elem_of_filter in Hc as [? _]. }
  assert (Hv : Forall (fun c => c_remote c = a) (ic_conn <$> filter (fun ic => Q ic = false) l)).
  { rewrite Hsp, fmap_app in Ha. by apply Forall_app in Ha as [_ Ha]. }
  assert (Hi : idles ≡ₚ of_addr a idles ++ filter (fun c => c_remote c <> a) idles).
  { unfold of_addr. clear. induction idles as [|x l IH]; [done|]. rewrite !filter_cons.
    repeat case_decide; try done; [simpl; by rewrite <- IH|].
    by rewrite <- Permutation_middle, <- IH. }
  split; [|split].
  - rewrite Hi at 1. rewrite <- Hl, Hsp, fmap_app at 1. by rewrite <- app_assoc.
  - unfold idles', of_addr. rewrite filter_app, filter_all by done.
    rewrite list_filter_filter, (filter_none _ idles); [by rewrite app_nil_r|].
    apply Forall_forall. naive_solver.
  - intros b Hb. unfold idles', of_addr. rewrite filter_app, list_filter_filter.
    rewrite (filter_none _ (ic_conn <$> _)).
    + simpl. erewrite list_filter_iff; [done|]. intros c. simpl. split; [naive_solver|].
      by intros <-.
    + eapply Forall_impl; [exact Hv|]. simpl. congruence.
Qed.

Lemma cleanup_inv G cfg idles p h po d n now a closed ws p' :
  pool_inv G cfg idles (mkUsers p h po d n) ->
  cleanupAddr now a p = (closed, ws, p') ->
  exists idles', pool_inv G cfg idles' (mkUsers p' h po d n).
Proof.
  intros HV. pose proof (pv_idle _ _ _ _ HV a) as Hl. cbn [u_pool] in Hl.
  destruct (of_addr_split a idles _ (expiredIdle (p_cfg p) now) Hl) as (Hp & Hpa & Hpb).
  pose proof (inv_perm _ _ _ _ _ h h po po d d n ltac:(done) ltac:(done) ltac:(done) Hp HV) as HV'.
  intros Hc. eexists. unfold cleanupAddr in Hc. autorewrite with pool in Hc.
  destruct (if _ <? _ then _ else _) as [ws' p1] eqn:Ew. injection Hc as <- <- <-.
  match type of Ew with (if ?b then wake ?m ?x ?q else _) = _ =>
    assert (Hs : same_conns q p1) by
      (destruct b; [apply (f_equal snd) in Ew; cbn [snd] in Ew; subst p1; apply same_wake
                   |by injection Ew as _ <-]) end.
  eapply inv_same; [exact Hs|]. eapply inv_expire; [exact HV'|done|done|..];
    [intros b|intros b|intros i|pool_updates; rewrite ?length_fmap; lia..]; autorewrite with pool.
  - case_decide as Eb; [rewrite Eb; by rewrite Hpa|]. rewrite Hpb by done. apply HV.
  - by case_decide as Eb; [rewrite Eb|].
  - done.
Qed.

Lemma GetBegin_inv G cfg idles p h po d n w a o p' :
  pool_inv G cfg idles (mkUsers p h po d n) ->
  poolGetBegin w a p = (o, p') ->
  match o with
  | GotIdle c =>
      (length po + length d < G)%nat ->
      exists idles', pool_inv G cfg idles' (mkUsers p' h ((a, c) :: po) d n)
  | MustDial =>
      (length po + length d < G)%nat ->
      exists idles', pool_inv G cfg idles' (mkUsers p' h po (a :: d) n)
  | MustWait | ErrPoolExhausted => pool_inv G cfg idles (mkUsers p' h po d n)
  | ErrPoolClosed => False
  end.
Proof.
  intros HV. pose proof (pv_open _ _ _ _ HV) as Hopen. cbn [u_pool] in Hopen.
  pose proof (pv_cfg _ _ _ _ HV) as Hcfg. cbn [u_pool] in Hcfg.
  unfold poolGetBegin. rewrite Hopen.
  set (p1 := mkConnPool _ _ _ _ _).
  assert (HV1 : pool_inv G cfg idles (mkUsers p1 h po d n)).
  { eapply inv_same; [|exact HV]. unfold p1. split; auto. }
  clearbody p1. destruct (last (ap_idle (addrPoolOf a p1))) as [ic|] eqn:El.
  - intros [= <- <-] HG. by eapply inv_pop.
  - apply last_None in El. pose proof (pv_cfg _ _ _ _ HV1) as Hc1. cbn [u_pool] in Hc1.
    rewrite Hc1. case_match eqn:Em; [case_match|].
    + intros [= <- <-]. eapply inv_same; [apply same_waiters|done].
    + intros [= <- <-]. eapply inv_same; [|exact HV1].
      destruct (addrPoolOf a p1) as [i0 a0 w0] eqn:Ea.
      pose proof (same_set a w0 p1) as Hs. by rewrite Ea in Hs.
    + intros [= <- <-] HG. exists idles. apply inv_dial; [done..|].
      intros Hpos. apply andb_false_iff in Em as [Em|Em]; lia.
Qed.

(** A pool stays closed. *)
Lemma closed_stays G R u u' : p_closed (u_pool u) = true -> pool_step G R u u' -> p_closed (u_pool u') = true.
Proof.
  intros Hx Hs. destruct Hs; cbn [u_pool] in *; try done;
    try (match goal with H : poolGetBegin _ _ _ = _ |- _ =>
           unfold poolGetBegin in H; rewrite Hx in H; done end).
  - match goal with H : Put _ _ _ _ = _ |- _ => unfold Put in H; rewrite Hx in H; by simplify_eq end.
  - unfold Remove. repeat case_match; done.
  - match goal with H : cleanupAddr _ _ _ = _ |- _ => unfold cleanupAddr in H; case_match; simplify_eq end.
    match goal with H : (if _ then wake ?m ?x ?q else _) = (_, _) |- _ =>
      case_match; [apply (f_equal snd) in H; cbn [snd] in H; subst; by rewrite (sc_closed _ _ (same_wake m x q))|by simplify_eq] end.
  - unfold Close. by rewrite Hx.
Qed.

Lemma pool_step_inv G (R : string -> string -> Prop) cfg u u' :
  (forall a r, R a r -> r = a) ->
  p_closed (u_pool u) = true \/ (exists idles, pool_inv G cfg idles u) -> pool_step G R u u' ->
  p_closed (u_pool u') = true \/ exists idles, pool_inv G cfg idles u'.
Proof.
  intros HR [Hx|[idles HV]] Hs; [left; by eapply closed_stays|].
  destruct Hs; [right..|].
  - by eapply (GetBegin_inv _ _ _ _ _ _ _ _ _ _ (GotIdle c)).
  - by eapply (GetBegin_inv _ _ _ _ _ _ _ _ _ _ MustDial).
  - exists idles. by eapply (GetBegin_inv _ _ _ _ _ _ _ _ _ _ MustWait).
  - exists idles. by eapply (GetBegin_inv _ _ _ _ _ _ _ _ _ _ ErrPoolExhausted).
  - exists idles. eapply inv_same; [apply same_waitDone|done].
  - exists idles. eapply inv_same; [apply same_waitFailed|done].
  - exists idles. apply inv_activate. by refine (inv_perm _ _ _ _ _ _ _ _ _ _ _ _ _ _ _ _ HV).
  - subst c. match goal with H : R _ _ |- _ => apply HR in H as -> end. exists idles. apply inv_dialed.
    by refine (inv_perm _ _ _ _ _ _ _ _ _ _ _ _ _ _ _ _ HV).
  - exists idles. apply inv_dialFailed. by refine (inv_perm _ _ _ _ _ _ _ _ _ _ _ _ _ _ _ _ HV).
  - eapply Put_inv; [|done].
    by refine (inv_perm _ _ _ _ _ _ _ _ _ _ _ _ _ _ _ _ HV).
  - exists idles. apply Remove_inv. by refine (inv_perm _ _ _ _ _ _ _ _ _ _ _ _ _ _ _ _ HV).
  - by eapply cleanup_inv.
  - left. cbn [u_pool]. unfold Close. pose proof (pv_open _ _ _ _ HV) as Ho. cbn [u_pool] in Ho. by rewrite Ho.
Qed.

Definition startUsers (cfg : PoolConfig) : users := mkUsers (NewConnPool cfg) [] [] [] 0.

Lemma pool_reach_inv G (R : string -> string -> Prop) cfg u :
  (forall a r, R a r -> r = a) -> steps (pool_step G R) (startUsers cfg) u -> p_closed (u_pool u) = false ->
  exists idles, pool_inv G cfg idles u.
Proof.
  intros HR Hs Hopen.
  assert (Hi : p_closed (u_pool u) = true \/ exists idles, pool_inv G cfg idles u).
  { refine (steps_invariant (pool_step G R) (fun u => p_closed (u_pool u) = true \/ exists idles, pool_inv G cfg idles u)
      (startUsers cfg) u _ _ Hs).
    - intros x y. by apply pool_step_inv.
    - right. exists []. split; simpl; try done; try lia.
      + constructor.
      + intros. set_solver. }
  destruct Hi as [Hi|Hi]; [congruence|done].
Qed.

(** * Exclusive use, whatever the addresses *)

(** What holds of any connections; [idles] are all idle ones. *)
Record pool_excl (idles : list Conn) (u : users) : Prop := {
  pe_idle a : ic_conn <$> ap_idle (addrPoolOf a (u_pool u)) ≡ₚ of_addr a idles;
  pe_ids : NoDup (c_id <$> u_held u ++ (snd <$> u_popped u) ++ idles);
  pe_next : Forall (fun c => c_id c < u_next u)%nat (u_held u ++ (snd <$> u_popped u) ++ idles);
  pe_popped : Forall (fun x => c_remote (snd x) = fst x) (u_popped u);
  pe_use c : p_closed (u_pool u) = false -> c ∈ u_held u -> exists i, c_id c ∈ activeAt i (u_pool u);
}.

(** A step that makes no connection. *)
Lemma excl_step idles idles' gone p p' h h' po po' d d' n :
  pool_excl idles (mkUsers p h po d n) ->
  (forall a, ic_conn <$> ap_idle (addrPoolOf a p') ≡ₚ of_addr a idles') ->
  h ++ (snd <$> po) ++ idles ≡ₚ gone ++ h' ++ (snd <$> po') ++ idles' ->
  Forall (fun x => c_remote (snd x) = fst x) po' ->
  (forall c, p_closed p' = false -> c ∈ h' -> exists i, c_id c ∈ activeAt i p') ->
  pool_excl idles' (mkUsers p' h' po' d' n).
Proof.
  intros [Vi Vn Vf Vp Vu] Hi Hp Hpo Hu. cbn [u_pool u_held u_popped u_next] in *. split; try done.
  - cbn [u_held u_popped]. rewrite Hp, fmap_app in Vn. by apply NoDup_app in Vn as (_ & _ & Vn).
  - cbn [u_held u_popped u_next]. rewrite Hp in Vf. by apply Forall_app in Vf as [_ Vf].
Qed.

(** A step that keeps the connections in use and the idle ones. *)
Lemma excl_same idles p p' h po d d' n :
  (forall a, ap_idle (addrPoolOf a p') = ap_idle (addrPoolOf a p)) -> p_closed p' = p_closed p ->
  (forall i x, x ∈ activeAt i p -> x ∈ activeAt i p') ->
  pool_excl idles (mkUsers p h po d n) -> pool_excl idles (mkUsers p' h po d' n).
Proof.
  intros Hi Hc Hu HV. eapply (excl_step idles idles []); [exact HV|intros a; rewrite Hi; apply HV|done|apply HV|].
  intros c Hx Hin. destruct (pe_use _ _ HV c) as [i Hci]; [cbn [u_pool]; congruence|done|].
  exists i. by apply Hu.
Qed.

Lemma same_excl idles p p' h po d n :
  same_conns p p' -> pool_excl idles (mkUsers p h po d n) -> pool_excl idles (mkUsers p' h po d n).
Proof. intros [_ Hx Hi _ _ Hu]. apply excl_same; [done|done|]. intros i x. by rewrite Hu. Qed.

(** The idle connection taken by [Get]. *)
Lemma excl_pop idles p h po d n a ic p' :
  pool_excl idles (mkUsers p h po d n) -> last (ap_idle (addrPoolOf a p)) = Some ic ->
  p_closed p' = p_closed p -> (forall i, activeAt i p' = activeAt i p) ->
  (forall b, ap_idle (addrPoolOf b p') = if decide (b = a) then
     take (length (ap_idle (addrPoolOf a p)) - 1) (ap_idle (addrPoolOf a p)) else ap_idle (addrPoolOf b p)) ->
  exists idles', pool_excl idles' (mkUsers p' h ((a, ic_conn ic) :: po) d n).
Proof.
  intros HV Hl Hc Hu Hi. pose proof (pe_idle _ _ HV a) as Hidle. cbn [u_pool] in Hidle.
  rewrite (last_take _ _ Hl), fmap_app in Hidle. cbn [fmap list_fmap] in Hidle.
  assert (Hin : ic_conn ic ∈ of_addr a idles) by (rewrite <- Hidle; set_solver).
  apply list_elem_of_filter in Hin as [Hr Hin]. apply elem_of_Permutation in Hin as [idles' Hp].
  rewrite Hp, of_addr_cons, decide_True in Hidle by done. exists idles'.
  eapply (excl_step _ _ []); [exact HV| | |apply Forall_cons; split; [done|apply HV]|].
  - intros b. rewrite Hi. case_decide as E; [subst b|].
    + apply (Permutation_cons_inv (a := ic_conn ic)). rewrite <- Hidle. by rewrite Permutation_app_comm.
    + rewrite (pe_idle _ _ HV b), Hp, of_addr_cons, decide_False by congruence. done.
  - cbn [app fmap list_fmap snd]. rewrite Hp. by rewrite <- (Permutation_middle (snd <$> po)).
  - intros c Hx Hh. rewrite Hc in Hx. destruct (pe_use _ _ HV c Hx Hh) as [i Hci]. exists i. by rewrite Hu.
Qed.

(** A connection that leaves its caller: it becomes idle or is closed. *)
Lemma excl_release idles p p' c h po d n (keep : bool) :
  pool_excl idles (mkUsers p (c :: h) po d n) ->
  (forall a, ic_conn <$> ap_idle (addrPoolOf a p') ≡ₚ
     (if keep then of_addr a [c] else []) ++ (ic_conn <$> ap_idle (addrPoolOf a p))) ->
  (p_closed p' = false -> p_closed p = false) ->
  (forall i x, x <> c_id c -> x ∈ activeAt i p -> x ∈ activeAt i p') ->
  pool_excl (if keep then c :: idles else idles) (mkUsers p' h po d n).
Proof.
  intros HV Hi Hc Hu. eapply (excl_step _ _ (if keep then [] else [c])); [exact HV| | |apply HV|].
  - intros a. rewrite Hi, (pe_idle _ _ HV a). destruct keep; [|done]. rewrite (of_addr_cons a c idles), of_addr_cons.
    by case_decide.
  - destruct keep; cbn [app]; [|done]. by rewrite <- (Permutation_middle (snd <$> po)), <- Permutation_middle.
  - intros x Hx Hin. destruct (pe_use _ _ HV x (Hc Hx)) as [i Hci]; [by right|]. exists i. apply Hu; [|done].
    intros E. pose proof (pe_ids _ _ HV) as Vn. cbn [u_held u_popped app] in Vn. rewrite fmap_cons in Vn.
    apply NoDup_cons in Vn as [Vn _]. apply Vn. rewrite <- E. apply (list_elem_of_fmap_2 c_id). apply elem_of_app. by left.
Qed.

Lemma Put_excl idles p h po d n healthy now c ws closed p' :
  pool_excl idles (mkUsers p (c :: h) po d n) -> Put healthy now c p = (ws, closed, p') ->
  exists idles', pool_excl idles' (mkUsers p' h po d n).
Proof.
  intros HV. unfold Put. destruct (p_closed p) eqn:Hx.
  { intros [= <- <- <-]. exists idles. apply (excl_release idles p p c h po d n false HV); [done|congruence|done]. }
  assert (Huse : forall a (b : addrPool) i x, x <> c_id c -> x ∈ activeAt i p ->
    x ∈ activeAt i (setAddrPool a b (setActive (c_remote c) (fun s => s ∖ {[c_id c]}) p))).
  { intros a b i x Hne Hin. autorewrite with pool. case_decide; set_solver. }
  autorewrite with pool. case_match; [destruct healthy; cbn [negb]|].
  2, 3: intros [= <- <- <-]; exists idles; apply (excl_release idles p _ c h po d n false HV);
    [intros a; autorewrite with pool; case_decide as E; [by rewrite E|done]|done|intros; by apply Huse].
  destruct (wake _ _ _) as [ws' p1] eqn:Ew. intros [= <- <- <-].
  apply (f_equal snd) in Ew. cbn [snd] in Ew. subst p1. exists (c :: idles). eapply same_excl; [apply same_wake|].
  apply (excl_release idles p _ c h po d n true HV); [|done|].
  - intros a. autorewrite with pool. rewrite ?of_addr_cons. repeat case_decide; try congruence; try done.
    subst a. cbn [ap_idle]. rewrite fmap_app. by rewrite Permutation_app_comm.
  - intros i x Hne Hin. autorewrite with pool. case_decide; set_solver.
Qed.

Lemma Remove_excl idles p h po d n c :
  pool_excl idles (mkUsers p (c :: h) po d n) -> pool_excl idles (mkUsers (Remove c p) h po d n).
Proof.
  intros HV. unfold Remove. set (p0 := setActive (c_remote c) (fun a => a ∖ {[c_id c]}) p).
  assert (H0 : forall i x, x <> c_id c -> x ∈ activeAt i p -> x ∈ activeAt i p0).
  { intros i x Hne Hin. unfold p0. autorewrite with pool. case_decide; set_solver. }
  destruct (sh_pools (shardAt (getShard (c_remote c)) p0) !! c_remote c) as [ap|] eqn:Ea.
  2:{ apply (excl_release idles p p0 c h po d n false HV); [|done|done]. intros a. unfold p0. by autorewrite with pool. }
  assert (Hap : ap = addrPoolOf (c_remote c) p).
  { rewrite <- (addrPoolOf_active (c_remote c) (c_remote c) (fun a => a ∖ {[c_id c]}) p). unfold addrPoolOf. fold p0. by rewrite Ea. }
  destruct (0 <? ap_active ap).
  { apply (excl_release idles p _ c h po d n false HV); [|done|].
    - intros a. autorewrite with pool. unfold p0. autorewrite with pool. case_decide as E; [by rewrite E, Hap|done].
    - intros i x Hne Hin. autorewrite with pool. by apply H0. }
  destruct (list_find (fun ic => ic_conn ic = c) (ap_idle ap)) as [[j ic]|] eqn:Ef.
  { exfalso. apply list_find_Some in Ef as (Hj & Hc & _). apply list_elem_of_lookup_2 in Hj.
    assert (Hin : c ∈ of_addr (c_remote c) idles).
    { rewrite <- (pe_idle _ _ HV (c_remote c)). cbn [u_pool]. rewrite <- Hap, <- Hc. by apply (list_elem_of_fmap_2 ic_conn). }
    apply list_elem_of_filter in Hin as [_ Hin]. pose proof (pe_ids _ _ HV) as Vn. cbn [u_held u_popped app] in Vn.
    rewrite fmap_cons in Vn. apply NoDup_cons in Vn as [Vn _]. apply Vn, (list_elem_of_fmap_2 c_id).
    rewrite !elem_of_app. auto. }
  apply (excl_release idles p _ c h po d n false HV); [|done|by intros; apply H0].
  intros a. unfold p0. by autorewrite with pool.
Qed.

Lemma cleanup_excl idles p h po d n now a closed ws p' :
  pool_excl idles (mkUsers p h po d n) -> cleanupAddr now a p = (closed, ws, p') ->
  exists idles', pool_excl idles' (mkUsers p' h po d n).
Proof.
  intros HV Hc. pose proof (pe_idle _ _ HV a) as Hl. cbn [u_pool] in Hl.
  destruct (of_addr_split a idles _ (expiredIdle (p_cfg p) now) Hl) as (Hp & Hpa & Hpb).
  unfold cleanupAddr in Hc. autorewrite with pool in Hc.
  destruct (if _ <? _ then _ else _) as [ws' p1] eqn:Ew. injection Hc as <- <- <-.
  match type of Ew with (if ?b then wake ?m ?x ?q else _) = _ =>
    assert (Hs : same_conns q p1) by
      (destruct b; [apply (f_equal snd) in Ew; cbn [snd] in Ew; subst p1; apply same_wake
                   |by injection Ew as _ <-]) end.
  eexists. eapply same_excl; [exact Hs|]. eapply excl_step; [exact HV| | |apply HV|].
  - intros b. autorewrite with pool. case_decide as Eb; [rewrite Eb; by rewrite Hpa|]. rewrite Hpb by done. apply HV.
  - rewrite Hp at 1. set (gone := ic_conn <$> filter _ _). set (rest := _ ++ filter _ idles).
    rewrite ?(Permutation_app_comm rest gone), (Permutation_app_swap_app (snd <$> po)). apply Permutation_app_swap_app.
  - intros c Hx Hin. destruct (pe_use _ _ HV c Hx Hin) as [i Hci]. exists i. by autorewrite with pool.
Qed.

Lemma perm_excl idles p h h' po po' d n :
  h ≡ₚ h' -> po ≡ₚ po' -> pool_excl idles (mkUsers p h po d n) -> pool_excl idles (mkUsers p h' po' d n).
Proof.
  intros Hh Hpo [Vi Vn Vf Vp Vu]. split; cbn [u_pool u_held u_popped u_next] in *; try done.
  - by rewrite <- Hh, <- Hpo.
  - by rewrite <- Hh, <- Hpo.
  - by rewrite <- Hpo.
  - intros c Hx. rewrite <- Hh. by apply Vu.
Qed.

Lemma GetBegin_excl idles p h po d d' n w a o p' :
  pool_excl idles (mkUsers p h po d n) -> poolGetBegin w a p = (o, p') ->
  match o with
  | GotIdle c => exists idles', pool_excl idles' (mkUsers p' h ((a, c) :: po) d' n)
  | _ => pool_excl idles (mkUsers p' h po d' n)
  end.
Proof.
  intros HV0. assert (HV : pool_excl idles (mkUsers p h po d' n)) by (destruct HV0; by split).
  unfold poolGetBegin. destruct (p_closed p) eqn:Hx; [by intros [= <- <-]|].
  set (p1 := mkConnPool _ _ _ _ _). change (addrPoolOf a p1) with (addrPoolOf a p).
  destruct (last (ap_idle (addrPoolOf a p))) as [ic|] eqn:El.
  - intros [= <- <-]. eapply excl_pop; [exact HV|exact El|done|..].
    + intros i. by autorewrite with pool.
    + intros b. autorewrite with pool. case_decide as E; [by rewrite ?decide_True|by rewrite ?decide_False].
  - case_match; [case_match|]; intros [= <- <-]; (eapply excl_same; [| | |exact HV]);
      try done; try (intros i x; by autorewrite with pool);
      intros b; autorewrite with pool; try (case_decide as E; [by rewrite E|]); done.
Qed.

Lemma activate_excl idles p h po d n a c :
  pool_excl idles (mkUsers p h ((a, c) :: po) d n) ->
  pool_excl idles (mkUsers (activateConn a c p) (c :: h) po d n).
Proof.
  intros HV. eapply (excl_step idles idles []); [exact HV| | |by pose proof (pe_popped _ _ HV) as [_ ?]%Forall_cons|].
  - intros b. unfold activateConn. autorewrite with pool. case_decide as E; [rewrite E|]; apply HV.
  - cbn [app fmap list_fmap snd]. by rewrite <- Permutation_middle.
  - intros x Hx Hin. unfold activateConn in *. apply elem_of_cons in Hin as [->|Hin].
    + exists (getShard a). autorewrite with pool. rewrite decide_True by done. set_solver.
    + destruct (pe_use _ _ HV x Hx Hin) as [i Hi]. exists i. autorewrite with pool. case_decide; set_solver.
Qed.

Lemma dialed_excl idles p h po d d' n a r :
  pool_excl idles (mkUsers p h po d n) ->
  pool_excl idles (mkUsers (dialed a (mkConn n r) p) (mkConn n r :: h) po d' (S n)).
Proof.
  intros [Vi Vn Vf Vp Vu]. cbn [u_pool u_held u_popped u_next] in *.
  split; cbn [u_pool u_held u_popped u_next]; try done.
  - intros b. unfold dialed. autorewrite with pool. try (case_decide as E; [rewrite E|]); apply Vi.
  - cbn [app]. rewrite fmap_cons. constructor; [|done]. rewrite list_elem_of_fmap. intros (x & E & Hin).
    rewrite Forall_forall in Vf. specialize (Vf x Hin). cbn [c_id] in E. lia.
  - cbn [app]. constructor; [cbn; lia|]. eapply Forall_impl; [exact Vf|]. cbn. lia.
  - intros x Hx Hin. unfold dialed in *. apply elem_of_cons in Hin as [->|Hin].
    + exists (getShard a). autorewrite with pool. rewrite decide_True by done. set_solver.
    + destruct (Vu x Hx Hin) as [i Hi]. exists i. autorewrite with pool. case_decide; set_solver.
Qed.

Lemma pool_step_excl G R u u' :
  (exists idles, pool_excl idles u) -> pool_step G R u u' -> exists idles, pool_excl idles u'.
Proof.
  intros [idles HV] Hs.
  destruct Hs as [w a c p p' h po d n _ Hb|w a p p' h po d n _ Hb|w a p p' h po d n Hb|w a p p' h po d n Hb
    |p h po d n|a w p h po d n|a c p h po po' d n Hp|a r c p h po d d' n Hd _ ->|a p h po d d' n Hd
    |healthy now c ws cl p p' h h' po d n Hh Hput|c p h h' po d n Hh|now a cl ws p p' h po d n Hcl|p h po d n].
  - exact (GetBegin_excl _ _ _ _ _ d _ _ _ _ _ HV Hb).
  - exists idles. exact (GetBegin_excl _ _ _ _ _ (a :: d) _ _ _ _ _ HV Hb).
  - exists idles. exact (GetBegin_excl _ _ _ _ _ d _ _ _ _ _ HV Hb).
  - exists idles. exact (GetBegin_excl _ _ _ _ _ d _ _ _ _ _ HV Hb).
  - exists idles. eapply same_excl; [apply same_waitDone|done].
  - exists idles. eapply same_excl; [apply same_waitFailed|done].
  - exists idles. apply activate_excl. by eapply perm_excl; [| |exact HV].
  - exists idles. by eapply dialed_excl.
  - exists idles. eapply excl_same; [..|exact HV]; unfold dialFailed;
      [intros b; autorewrite with pool; case_decide as E; [by rewrite E|done]|done|intros i x; by autorewrite with pool].
  - eapply Put_excl; [|exact Hput]. by eapply perm_excl; [exact Hh| |exact HV].
  - exists idles. apply Remove_excl. by eapply perm_excl; [exact Hh| |exact HV].
  - by eapply cleanup_excl.
  - unfold Close. destruct (p_closed p) eqn:Hx; cbn [snd]; [by exists idles|].
    exists []. eapply (excl_step idles [] idles); [exact HV|done| |apply HV|done].
    by rewrite app_nil_r, (Permutation_app_comm idles), <- app_assoc.
Qed.

Lemma pool_reach_excl G R cfg u : steps (pool_step G R) (startUsers cfg) u -> exists idles, pool_excl idles u.
Proof.
  apply (steps_invariant _ (fun u => exists idles, pool_excl idles u)); [intros x y; apply pool_step_excl|].
  exists []. split; cbn; try done; [constructor|]. intros c _ Hc. by apply elem_of_nil in Hc.
Qed.

Lemma allConns_held i x p : x ∈ activeAt i p -> x ∈ allConns p.
Proof.
  unfold activeAt, shardAt, allConns. destruct (p_shards p !! i) as [sh|] eqn:E; simpl; [|set_solver].
  intros Hx. apply list_elem_of_bind. exists (i, sh). split.
  - apply elem_of_app. right. by apply elem_of_elements.
  - by apply elem_of_map_to_list.
Qed.

Lemma allConns_idle a ic p : ic ∈ ap_idle (addrPoolOf a p) -> c_id (ic_conn ic) ∈ allConns p.
Proof.
  unfold addrPoolOf, shardAt, allConns.
  destruct (p_shards p !! getShard a) as [sh|] eqn:E; cbn [default from_option id].
  - destruct (sh_pools sh !! a) as [ap|] eqn:Ea; simpl; [|set_solver].
    intros Hx. apply list_elem_of_bind. exists (getShard a, sh).
    split; [|by apply elem_of_map_to_list]. apply elem_of_app. left.
    apply list_elem_of_bind. exists (a, ap). split; [|by apply elem_of_map_to_list].
    apply list_elem_of_fmap. eauto.
  - cbn [sh_pools emptyShard]. rewrite lookup_empty. simpl. set_solver.
Qed.

(** C18. The connection pool is exclusive: however the sections of concurrent
    calls of Get, Put, Remove and Close and of the cleanup interleave, and
    whatever remote addresses the connections report, no connection is with
    two callers, a connection that a caller has or is being given is not among
    the idle ones, an idle connection belongs to its address, and closing an
    open pool closes every connection that is idle or that a caller has.  Where
    every connection reports the address it was dialled at, the counters of an
    open pool are true: of an address and of the pool those in use and being
    dialled, and of the pool the total as idle or in use.  (The counter of
    waiters is not among them.) *)
Theorem pool_exclusive G (R : string -> string -> Prop) cfg u :
  steps (pool_step G R) (startUsers cfg) u ->
  let p := u_pool u in
  let out := u_held u ++ (snd <$> u_popped u) in
  (NoDup (c_id <$> out) /\
   (forall a ic, ic ∈ ap_idle (addrPoolOf a p) ->
      c_remote (ic_conn ic) = a /\ c_id (ic_conn ic) ∉ (c_id <$> out)) /\
   (p_closed p = false ->
      (forall a ic, ic ∈ ap_idle (addrPoolOf a p) -> c_id (ic_conn ic) ∈ fst (Close p)) /\
      (forall c, c ∈ u_held u -> c_id c ∈ fst (Close p)))) /\
  ((forall a r, R a r -> r = a) -> p_closed p = false ->
   (forall a, ap_active (addrPoolOf a p) =
      Z.of_nat (length (of_addr a (u_held u)) + length (filter (eq a) (u_dialing u)))) /\
   ps_Active (p_stats p) = Z.of_nat (length (u_held u) + length (u_dialing u)) /\
   ps_Total (p_stats p) = ps_Idle (p_stats p) + Z.of_nat (length (u_held u))).
Proof.
  intros Hs. cbn zeta. split.
  - destruct (pool_reach_excl G R cfg u Hs) as [idles [Vi Vn _ _ Vu]].
    rewrite app_assoc, fmap_app in Vn. apply NoDup_app in Vn as (Hn & Hd & _). split; [done|]. split.
    + intros a ic Hic. assert (Hc : ic_conn ic ∈ of_addr a idles).
      { rewrite <- Vi. by apply (list_elem_of_fmap_2 ic_conn). }
      apply list_elem_of_filter in Hc as [Hr Hc]. split; [done|]. intros Hin. apply (Hd _ Hin).
      by apply (list_elem_of_fmap_2 c_id).
    + intros Hopen. unfold Close. rewrite Hopen. cbn [fst]. split.
      * intros a ic Hic. by eapply allConns_idle.
      * intros c Hc. destruct (Vu c Hopen Hc) as [i Hi]. by eapply allConns_held.
  - intros HR Hopen. destruct (pool_reach_inv G R cfg u HR Hs Hopen) as [idles [_ _ _ _ _ _ Va (S1 & S2 & S3) _ _ _]].
    split_and!; [done|done|lia].
Qed.

Definition pool1 : connPool := NewConnPool (mkPoolConfig 2 1 0 0).

Lemma outcome {A B} (x : A * B) o : fst x = o -> x = (o, snd x).
Proof. by intros <-; destruct x. Qed.

Ltac by_outcome := apply outcome; vm_compute; reflexivity.

(** One connection in use, another caller refused. *)
Lemma pool_exclusive_witness :
  exists u, steps (pool_step 1 eq) (startUsers (mkPoolConfig 2 1 0 0)) u /\
    u_held u = [mkConn 0 "a"] /\ NoDup (c_id <$> u_held u ++ (snd <$> u_popped u)) /\
    ps_Active (p_stats (u_pool u)) = 1.
Proof.
  assert (H : exists u, steps (pool_step 1 eq) (startUsers (mkPoolConfig 2 1 0 0)) u /\
    u_held u = [mkConn 0 "a"] /\ p_closed (u_pool u) = false /\ u_dialing u = []).
  { eexists. split.
    - eapply steps_cons; [eapply (us_dial 1 eq 0 "a"); [simpl; lia|by_outcome]|].
      eapply steps_cons; [eapply (us_dialed 1 eq "a" "a" (mkConn 0 "a")); reflexivity|].
      eapply steps_one, (us_exhausted 1 eq 0 "a"). by_outcome.
    - vm_compute. done. }
  destruct H as (u & H & Hh & Hx & Hd). exists u.
  destruct (pool_exclusive 1 eq _ u H) as [[Hn _] Hcount]. destruct Hcount as (_ & Ha & _); [by intros a r ->|done|].
  split_and!; [done|done|done|]. by rewrite Ha, Hh, Hd.
Defined.

(** The limit on connections: with at most [G] calls of Get past the
    lock at the same time, an address has at most [MaxActive + G - 1]
    connections, in use, being dialled or idle: the limit itself when calls
    do not overlap.  (An idle connection that has been taken is counted as in
    use only later, so that overlapping calls go above the limit.) *)
Theorem pool_limit G cfg u a :
  steps (pool_step G eq) (startUsers cfg) u -> p_closed (u_pool u) = false ->
  (0 < G)%nat -> 0 < MaxActive cfg ->
  Z.of_nat (length (of_addr a (u_held u)) + length (filter (eq a) (u_dialing u)) +
            length (at_addr a (u_popped u)) + length (ap_idle (addrPoolOf a (u_pool u))))
  <= MaxActive cfg + Z.of_nat G - 1.
Proof.
  intros Hs Hopen HG Hm. destruct (pool_reach_inv G eq cfg u ltac:(by intros ? ? ->) Hs Hopen) as [idles HV].
  pose proof (pv_limit _ _ _ _ HV a Hm) as Hl.
  pose proof (Permutation_length (pv_idle _ _ _ _ HV a)) as Hi. rewrite length_fmap in Hi. lia.
Qed.

(** Two overlapping calls hold two connections where the limit is one. *)
Lemma pool_limit_witness :
  exists u, steps (pool_step 2 eq) (startUsers (mkPoolConfig 2 1 0 0)) u /\
    ap_active (addrPoolOf "a" (u_pool u)) = 2 /\
    Z.of_nat (length (of_addr "a" (u_held u)) + length (filter (eq "a"%string) (u_dialing u)) +
      length (at_addr "a" (u_popped u)) + length (ap_idle (addrPoolOf "a" (u_pool u)))) <= 2.
Proof.
  assert (H : exists u, steps (pool_step 2 eq) (startUsers (mkPoolConfig 2 1 0 0)) u /\
    ap_active (addrPoolOf "a" (u_pool u)) = 2 /\ p_closed (u_pool u) = false).
  { eexists. split.
    - eapply steps_cons; [eapply (us_dial 2 eq 0 "a"); [simpl; lia|by_outcome]|].
      eapply steps_cons; [eapply (us_dialed 2 eq "a" "a" (mkConn 0 "a")); reflexivity|].
      eapply steps_cons; [eapply (us_put 2 eq true 0 (mkConn 0 "a")); [reflexivity|by_outcome]|].
      eapply steps_cons; [eapply (us_idle 2 eq 0 "a"); [simpl; lia|by_outcome]|].
      eapply steps_cons; [eapply (us_dial 2 eq 0 "a"); [simpl; lia|by_outcome]|].
      eapply steps_cons; [eapply (us_dialed 2 eq "a" "a" (mkConn 1 "a")); reflexivity|].
      eapply steps_one, (us_activate 2 eq "a" (mkConn 0 "a")). reflexivity.
    - vm_compute. done. }
  destruct H as (u & H & Ha & Hx). exists u. split_and!; [done|done|].
  apply (pool_limit 2 _ u "a" H Hx); [lia|done].
Defined.

(** * One caller, and addresses that are names *)

(** The whole of [Get] when nobody else uses the pool: a wait ends without a
    connection. *)
Definition poolGet (w : nat) (address : string) (dial : option Conn) (p : connPool)
    : option Conn * connPool :=
  match poolGetBegin w address p with
  | (GotIdle c, p) => (Some c, activateConn address c p)
  | (MustDial, p) =>
      match dial with
      | Some c => (Some c, dialed address c p)
      | None => (None, dialFailed address p)
      end
  | (MustWait, p) => (None, waitFailed address w p)
  | (ErrPoolExhausted, p) | (ErrPoolClosed, p) => (None, p)
  end.

(** [n] times: get a connection to [address], whose remote address is
    [remote], and put it back. *)
Fixpoint useTimes (n : nat) (address remote : string) (p : connPool) : list bool * connPool :=
  match n with
  | O => ([], p)
  | S n =>
      match poolGet 0 address (Some (mkConn n remote)) p with
      | (None, p) => let '(l, p) := useTimes n address remote p in (false :: l, p)
      | (Some c, p) =>
          let '(_, _, p) := Put true 0 c p in
          let '(l, p) := useTimes n address remote p in (true :: l, p)
      end
  end.

Lemma Put_other a healthy now c p :
  a <> c_remote c -> addrPoolOf a (snd (Put healthy now c p)) = addrPoolOf a p.
Proof.
  intros Hne. unfold Put. destruct (p_closed p); [done|].
  case_match; [destruct healthy; cbn [negb]|].
  2, 3: cbn [snd]; autorewrite with pool; by rewrite decide_False.
  unfold wake. cbn [snd]. autorewrite with pool. by rewrite !decide_False.
Qed.

Lemma Put_open healthy now c p : p_closed (snd (Put healthy now c p)) = p_closed p.
Proof.
  unfold Put. destruct (p_closed p) eqn:E; [done|]. case_match; [destruct healthy; cbn [negb]|]; done.
Qed.

Lemma Put_cfg healthy now c p : p_cfg (snd (Put healthy now c p)) = p_cfg p.
Proof.
  unfold Put. destruct (p_closed p) eqn:E; [done|]. case_match; [destruct healthy; cbn [negb]|]; done.
Qed.

(** What one use leaves behind when the names differ. *)
Definition stranded (address : string) (cfg : PoolConfig) (k : Z) (p : connPool) : Prop :=
  p_closed p = false /\ p_cfg p = cfg /\
  ap_idle (addrPoolOf address p) = [] /\ ap_active (addrPoolOf address p) = k.

Lemma stranded_use address cfg k p c :
  address <> c_remote c -> stranded address cfg k p -> k < MaxActive cfg ->
  exists p', poolGet 0 address (Some c) p = (Some c, p') /\
             stranded address cfg (k + 1) (snd (Put true 0 c p')).
Proof.
  intros Hne (Hx & Hc & Hi & Ha) Hk. unfold poolGet, poolGetBegin. rewrite Hx.
  set (p1 := mkConnPool _ _ _ _ _). change (addrPoolOf address p1) with (addrPoolOf address p).
  rewrite Hi. cbn [last]. change (p_cfg p1) with (p_cfg p). rewrite Hc, Ha.
  destruct (Z.leb_spec (MaxActive cfg) k); [lia|]. rewrite andb_false_r.
  eexists. split; [reflexivity|]. unfold stranded. rewrite Put_open, Put_cfg, Put_other by done.
  unfold dialed. autorewrite with pool. rewrite decide_True by done. done.
Qed.

Lemma stranded_exhausted address cfg k p dial :
  stranded address cfg k p -> 0 < MaxActive cfg -> MaxActive cfg <= k ->
  exists p', poolGet 0 address dial p = (None, p') /\ stranded address cfg k p'.
Proof.
  intros (Hx & Hc & Hi & Ha) Hm Hk. unfold poolGet, poolGetBegin. rewrite Hx.
  set (p1 := mkConnPool _ _ _ _ _). change (addrPoolOf address p1) with (addrPoolOf address p).
  rewrite Hi. cbn [last]. change (p_cfg p1) with (p_cfg p). rewrite Hc, Ha.
  destruct (Z.leb_spec (MaxActive cfg) k); [|lia]. destruct (Z.ltb_spec 0 (MaxActive cfg)); [|lia].
  cbn [andb]. destruct (0 <? WaitTimeout cfg); (eexists; split; [reflexivity|]); unfold stranded.
  - unfold waitFailed, removeWaiter, waitDone. autorewrite with pool.
    rewrite !decide_True by done. done.
  - autorewrite with pool. rewrite !decide_True by done. done.
Qed.

Lemma useTimes_stranded n address remote cfg k p :
  address <> remote -> 0 < MaxActive cfg -> 0 <= k -> stranded address cfg k p ->
  fst (useTimes n address remote p) =
    (fun i => bool_decide (k + Z.of_nat i < MaxActive cfg)) <$> seq 0 n.
Proof.
  intros Hne Hm. revert k p. induction n as [|n IH]; intros k p Hk Hp; [done|].
  cbn [useTimes seq]. rewrite fmap_cons.
  destruct (decide (k < MaxActive cfg)) as [Hlt|Hge].
  - destruct (stranded_use address cfg k p (mkConn n remote) Hne Hp Hlt) as (p' & -> & Hs).
    destruct (Put true 0 (mkConn n remote) p') as [[ws x] p2] eqn:E. cbn [snd] in Hs.
    pose proof (IH (k + 1) p2 ltac:(lia) Hs) as IH'. destruct (useTimes n address remote p2) as [bs p3].
    cbn [fst] in *. rewrite bool_decide_true by lia. f_equal. rewrite IH'.
    rewrite <- (fmap_S_seq 0 n), <- list_fmap_compose. apply list_fmap_ext.
    intros ? i _. simpl. apply bool_decide_ext. lia.
  - destruct (stranded_exhausted address cfg k p (Some (mkConn n remote)) Hp Hm) as (p' & -> & Hs); [lia|].
    pose proof (IH k p' Hk Hs) as IH'. destruct (useTimes n address remote p') as [bs p3].
    cbn [fst] in *. rewrite bool_decide_false by lia. f_equal. rewrite IH'.
    rewrite <- (fmap_S_seq 0 n), <- list_fmap_compose. apply list_fmap_ext.
    intros ? i _. simpl. rewrite !bool_decide_false by lia. done.
Qed.

(** Addresses that are names: Get counts a connection under the address
    dialled and Put gives it back under the remote address.  Where these
    differ (a host name, as in the README's example), connections are never
    reused, each use counts as one more in use for good, and after
    [MaxActive] uses every Get of that address fails although no connection
    is in use. *)
Theorem hostname_exhausts n address remote cfg :
  address <> remote -> 0 < MaxActive cfg ->
  fst (useTimes n address remote (NewConnPool cfg)) =
    (fun i => bool_decide (Z.of_nat i < MaxActive cfg)) <$> seq 0 n.
Proof.
  intros Hne Hm. rewrite (useTimes_stranded n address remote cfg 0); try done.
Qed.

Lemma hostname_exhausts_witness :
  fst (useTimes 3 "localhost:8080" "127.0.0.1:8080" (NewConnPool (mkPoolConfig 2 2 0 0))) =
    [true; true; false] /\
  fst (useTimes 3 "127.0.0.1:8080" "127.0.0.1:8080" (NewConnPool (mkPoolConfig 2 2 0 0))) =
    [true; true; true].
Proof.
  split; [|vm_compute; reflexivity].
  rewrite (hostname_exhausts 3 "localhost:8080" "127.0.0.1:8080" (mkPoolConfig 2 2 0 0)); done.
Defined.

(** * Health and the size of the pool *)

(** [isConnectionHealthy] of a TCP connection: the verdict of the last check
    stands for thirty seconds; [noAddr] and [deadlineErr] are what a check
    meets. *)
Record health := mkHealth { lastHealthCheck : Z; healthCheckCached : bool }.

Definition isConnectionHealthy (now : Z) (noAddr deadlineErr : bool) (h : health) : bool * health :=
  if now - lastHealthCheck h <? 30 then (healthCheckCached h, h)
  else if noAddr then (false, mkHealth now false)
  else if deadlineErr then (false, mkHealth now false)
  else (true, mkHealth now true).

(** A verdict is at most thirty seconds old. *)
Lemma health_fresh now noAddr deadlineErr h :
  lastHealthCheck h <= now ->
  let '(ok, h') := isConnectionHealthy now noAddr deadlineErr h in
  ok = healthCheckCached h' /\ now - 30 < lastHealthCheck h' <= now.
Proof.
  intros. unfold isConnectionHealthy. destruct (Z.ltb_spec (now - lastHealthCheck h) 30);
    [|destruct noAddr, deadlineErr]; simpl; split; (done || lia).
Qed.

(** The counter of waiters goes down when a waiter is taken from the queue by
    Put and again when the waiter wakes up. *)
Example waiters_counter :
  let p := snd (poolGet 0 "a" (Some (mkConn 0 "a")) (NewConnPool (mkPoolConfig 2 1 0 5))) in
  let p1 := snd (poolGetBegin 7 "a" p) in
  let '(ws, _, p2) := Put true 0 (mkConn 0 "a") p1 in
  ps_Waiters (p_stats p1) = 1 /\ ws = [7%nat] /\ ps_Waiters (p_stats (waitDone p2)) = -1.
Proof. vm_compute. done. Qed.
