(* ===== verification/Scheduler.v ===== *)
(** * Task scheduler

    internal/utils/executor/scheduler.go, with the heap of Go's
    container/heap it uses ([Push], [Pop], [up], [down] on a slice), as
    functions on lists.  [up] and [down] take the length of the slice as
    fuel: an index moves strictly towards the root, or away from it. *)

From S2P Require Import Prelude.
From Stdlib Require Import Sorting.Sorted.

(** A handle is the identity of its task. *)
Record ScheduledTask := mkTask { st_id : nat; st_when : Z; st_cancel : bool }.

#[export] Instance ScheduledTask_inhabited : Inhabited ScheduledTask := populate (mkTask 0 0 false).

Abbreviation taskHeap := (list ScheduledTask).

Definition when_at (h : taskHeap) (i : nat) : Z := st_when (h !!! i).
Definition Less (h : taskHeap) (i j : nat) : bool := when_at h i <? when_at h j.
Definition Swap (i j : nat) (h : taskHeap) : taskHeap := <[i := h !!! j]> (<[j := h !!! i]> h).

Definition parent (j : nat) : nat := ((j - 1) / 2)%nat.

Fixpoint up (fuel : nat) (j : nat) (h : taskHeap) : taskHeap :=
  match fuel with
  | O => h
  | S fuel =>
      let i := parent j in
      if (i =? j)%nat || negb (Less h j i) then h else up fuel i (Swap i j h)
  end.

Fixpoint down (fuel : nat) (i n : nat) (h : taskHeap) : taskHeap :=
  match fuel with
  | O => h
  | S fuel =>
      let j1 := (2 * i + 1)%nat in
      if (n <=? j1)%nat then h
      else
        let j2 := (j1 + 1)%nat in
        let j := if (j2 <? n)%nat && Less h j2 j1 then j2 else j1 in
        if negb (Less h j i) then h else down fuel j n (Swap i j h)
  end.

Definition heapPush (t : ScheduledTask) (h : taskHeap) : taskHeap :=
  let h := h ++ [t] in up (length h) (length h - 1) h.

Definition heapPop (h : taskHeap) : option (ScheduledTask * taskHeap) :=
  match h with
  | [] => None
  | _ =>
      let n := (length h - 1)%nat in
      let h := down (length h) 0 n (Swap 0 n h) in
      match last h with
      | Some t => Some (t, take n h)
      | None => None
      end
  end.

(** * The scheduler *)

Record Scheduler := mkScheduler { sc_tasks : taskHeap; sc_isClosed : bool }.

Definition NewScheduler : Scheduler := mkScheduler [] false.

(** The handle, whether the dispatcher is woken up, and the scheduler. *)
Definition Schedule (now d : Z) (id : nat) (s : Scheduler) : option nat * bool * Scheduler :=
  if d <? 0 then (None, false, s)
  else if sc_isClosed s then (None, false, s)
  else
    let h := heapPush (mkTask id (now + d) false) (sc_tasks s) in
    (Some id, match head h with Some t => (st_id t =? id)%nat | None => false end,
     mkScheduler h false).

Definition Cancel (id : nat) (s : Scheduler) : Scheduler :=
  mkScheduler ((fun t => if (st_id t =? id)%nat then mkTask (st_id t) (st_when t) true else t)
               <$> sc_tasks s) (sc_isClosed s).

Definition CloseScheduler (s : Scheduler) : Scheduler := mkScheduler (sc_tasks s) true.

(** One turn of the dispatcher: it returns, waits for a wake-up, waits for
    the next task, or takes a task, which runs unless cancelled. *)
Inductive turn := Exit | WaitWakeup | Sleep (d : Z) | Took (t : ScheduledTask) (s : Scheduler).

Definition runTurn (now : Z) (s : Scheduler) : turn :=
  match sc_tasks s with
  | [] => if sc_isClosed s then Exit else WaitWakeup
  | next :: _ =>
      if st_when next - now <=? 0 then
        match heapPop (sc_tasks s) with
        | Some (_, h) => Took next (mkScheduler h (sc_isClosed s))
        | None => Exit
        end
      else Sleep (st_when next - now)
  end.

(** The turns up to the next wait. *)
Fixpoint runDue (fuel : nat) (now : Z) (s : Scheduler) : list ScheduledTask * Scheduler :=
  match fuel with
  | O => ([], s)
  | S fuel =>
      match runTurn now s with
      | Took t s => let '(l, s) := runDue fuel now s in (t :: l, s)
      | _ => ([], s)
      end
  end.

(** * The heap *)

Section heap.
Implicit Type (h : taskHeap).

(** No task is due before the one at its parent's index. *)
Definition heap_ok h : Prop :=
  forall k, (0 < k < length h)%nat -> when_at h (parent k) <= when_at h k.

Lemma parent_lt k : (0 < k)%nat -> (parent k < k)%nat.
Proof. intros. unfold parent. apply Nat.Div0.div_lt_upper_bound; lia. Qed.

Lemma parent_children i k : (0 < k)%nat -> parent k = i <-> k = (2 * i + 1)%nat \/ k = (2 * i + 2)%nat.
Proof.
  intros Hk. unfold parent. pose proof (Nat.div_mod_eq (k - 1) 2) as E.
  pose proof (Nat.mod_upper_bound (k - 1) 2 ltac:(lia)). split; [intros <-|]; lia.
Qed.

Lemma length_Swap i j h : length (Swap i j h) = length h.
Proof. unfold Swap. by rewrite !length_insert. Qed.

Lemma when_Swap i j h k :
  (i < length h)%nat -> (j < length h)%nat ->
  when_at (Swap i j h) k =
    if decide (k = i) then when_at h j else if decide (k = j) then when_at h i else when_at h k.
Proof.
  intros Hi Hj. unfold when_at, Swap. destruct (decide (k = i)) as [->|].
  { rewrite list_lookup_total_insert_eq; [done|]. by rewrite length_insert. }
  rewrite list_lookup_total_insert_ne by done. destruct (decide (k = j)) as [->|].
  - by rewrite list_lookup_total_insert_eq.
  - by rewrite list_lookup_total_insert_ne.
Qed.

Lemma Swap_perm i j h : (i < length h)%nat -> (j < length h)%nat -> Swap i j h ≡ₚ h.
Proof.
  intros Hi Hj. unfold Swap. apply Permutation_insert_swap; by apply list_lookup_lookup_total_lt.
Qed.

(** Sifting up: the order may fail between [j] and its parent only. *)
Definition heap_but_up (j : nat) h : Prop :=
  (forall k, (0 < k < length h)%nat -> k <> j -> when_at h (parent k) <= when_at h k) /\
  (forall k, (0 < k < length h)%nat -> parent k = j -> (0 < j)%nat ->
     when_at h (parent j) <= when_at h k).

Lemma up_step j h :
  (0 < j < length h)%nat -> heap_but_up j h -> when_at h j < when_at h (parent j) ->
  heap_but_up (parent j) (Swap (parent j) j h).
Proof.
  intros Hj [H1 H2] Hlt. pose proof (parent_lt j ltac:(lia)) as Hp.
  split; intros k Hk; rewrite length_Swap in Hk; rewrite !when_Swap by lia.
  - intros Hne. pose proof (H1 k Hk). pose proof (H2 k Hk).
    destruct (decide (k = parent j)); [done|]. destruct (decide (k = j)) as [->|Hkj].
    + destruct (decide (parent j = parent j)); [lia|done].
    + destruct (decide (parent k = parent j)) as [E|].
      * specialize (H ltac:(done)). rewrite E in H. lia.
      * destruct (decide (parent k = j)) as [E|]; [|auto]. specialize (H0 E ltac:(lia)). lia.
  - intros Hpk Hpj. pose proof (parent_lt (parent j) Hpj). pose proof (parent_lt k ltac:(lia)).
    assert (Hg := H1 (parent j) ltac:(lia) ltac:(lia)).
    rewrite (decide_False (P := parent (parent j) = parent j)) by lia.
    rewrite (decide_False (P := parent (parent j) = j)) by lia.
    destruct (decide (k = parent j)); [lia|]. destruct (decide (k = j)); [done|].
    assert (Hk1 := H1 k Hk ltac:(done)). rewrite Hpk in Hk1. lia.
Qed.

Lemma up_spec fuel j h :
  (j < length h)%nat -> (j < fuel)%nat -> heap_but_up j h ->
  up fuel j h ≡ₚ h /\ heap_ok (up fuel j h).
Proof.
  revert j h. induction fuel as [|fuel IH]; intros j h Hj Hf Hh; [lia|]. cbn [up].
  destruct (decide (j = 0%nat)) as [->|Hj0].
  { change (parent 0) with 0%nat. rewrite Nat.eqb_refl. cbn [orb]. split; [done|].
    intros k Hk. apply (proj1 Hh); lia. }
  pose proof (parent_lt j ltac:(lia)) as Hp.
  destruct (Nat.eqb_spec (parent j) j); [lia|]. unfold Less.
  destruct (Z.ltb_spec (when_at h j) (when_at h (parent j))) as [Hlt|Hge]; cbn [negb orb].
  - destruct (IH (parent j) (Swap (parent j) j h)) as [Hpm Hok]; [rewrite length_Swap; lia|lia| |].
    + apply up_step; (done || lia).
    + split; [|done]. rewrite Hpm. apply Swap_perm; lia.
  - split; [done|]. intros k Hk. destruct (decide (k = j)) as [->|]; [lia|]. by apply (proj1 Hh).
Qed.

(** Sifting down, within the first [n]: the order may fail between [i] and
    its children only. *)
Definition heap_upto (n : nat) h : Prop :=
  forall k, (0 < k < n)%nat -> when_at h (parent k) <= when_at h k.

Definition heap_but_down (i n : nat) h : Prop :=
  (forall k, (0 < k < n)%nat -> parent k <> i -> when_at h (parent k) <= when_at h k) /\
  (forall k, (0 < k < n)%nat -> parent k = i -> (0 < i)%nat ->
     when_at h (parent i) <= when_at h k).

Lemma down_step i j n h :
  (n <= length h)%nat -> (0 < j < n)%nat -> parent j = i -> heap_but_down i n h ->
  (forall k, (0 < k < n)%nat -> parent k = i -> when_at h j <= when_at h k) ->
  when_at h j < when_at h i ->
  heap_but_down j n (Swap i j h).
Proof.
  intros Hn Hj Hpj [H1 H2] Hmin Hlt. pose proof (parent_lt j ltac:(lia)) as Hp. rewrite Hpj in Hp.
  split; intros k Hk; rewrite !when_Swap by lia; pose proof (parent_lt k ltac:(lia)).
  - intros Hne. rewrite (decide_False (P := parent k = j)) by done.
    destruct (decide (k = i)) as [->|].
    + rewrite decide_False by lia. apply H2; [lia|done|lia].
    + destruct (decide (parent k = i)) as [E|E].
      * destruct (decide (k = j)) as [->|]; [lia|]. by apply Hmin.
      * destruct (decide (k = j)) as [->|]; [done|]. by apply H1.
  - intros Hk2 _. rewrite Hpj, decide_True by done. rewrite !decide_False by lia.
    rewrite <- Hk2. apply H1; [lia|]. lia.
Qed.

Lemma down_spec fuel i n h :
  (n <= length h)%nat -> (n <= fuel + i)%nat -> heap_but_down i n h ->
  let h' := down fuel i n h in
  h' ≡ₚ h /\ heap_upto n h' /\ drop n h' = drop n h.
Proof.
  revert i h. induction fuel as [|fuel IH]; intros i h Hn Hf Hh; cbn [down].
  { split_and!; try done. intros k Hk. apply (proj1 Hh); [lia|]. pose proof (parent_lt k ltac:(lia)). lia. }
  destruct (Nat.leb_spec n (2 * i + 1)).
  { split_and!; try done. intros k Hk. apply (proj1 Hh); [lia|]. intros E%parent_children; lia. }
  set (j := if _ && _ then _ else _).
  assert (Hj : (i < j < n)%nat /\ parent j = i /\
               forall k, (0 < k < n)%nat -> parent k = i -> when_at h j <= when_at h k).
  { unfold j, Less. assert (E2 : (2 * i + 1 + 1 = 2 * i + 2)%nat) by lia. rewrite E2.
    destruct (Nat.ltb_spec (2 * i + 2) n); cbn [andb].
    - destruct (Z.ltb_spec (when_at h (2 * i + 2)) (when_at h (2 * i + 1)));
        (split_and!; [lia|lia|apply parent_children; lia|]);
        intros k Hk [->| ->]%parent_children; lia.
    - split_and!; [lia|lia|apply parent_children; lia|].
      intros k Hk [->| ->]%parent_children; lia. }
  clearbody j. destruct Hj as (Hjn & Hpj & Hmin). unfold Less.
  destruct (Z.ltb_spec (when_at h j) (when_at h i)) as [Hlt|Hge]; cbn [negb].
  - destruct (IH j (Swap i j h)) as (Hp & Hok & Hd); [rewrite length_Swap; lia|lia| |].
    + apply down_step; (done || lia).
    + split_and!; [rewrite Hp; apply Swap_perm; lia|done|rewrite Hd].
      unfold Swap. by rewrite !drop_insert_lt by lia.
  - split_and!; try done. intros k Hk. destruct (decide (parent k = i)) as [E|].
    + rewrite E. specialize (Hmin k Hk E). lia.
    + by apply (proj1 Hh).
Qed.

Lemma heapPush_spec t h : heap_ok h -> heapPush t h ≡ₚ t :: h /\ heap_ok (heapPush t h).
Proof.
  intros Hh. unfold heapPush. rewrite length_app. cbn [length].
  replace (length h + 1 - 1)%nat with (length h) by lia.
  destruct (up_spec (length h + 1) (length h) (h ++ [t])) as [Hp Hok];
    [rewrite length_app; simpl; lia|lia| |].
  - split.
    + intros k Hk Hne. rewrite length_app in Hk. simpl in Hk.
      pose proof (parent_lt k ltac:(lia)). unfold when_at.
      rewrite !lookup_total_app_l by lia. apply Hh. lia.
    + intros k Hk Hpk. rewrite length_app in Hk. simpl in Hk.
      pose proof (parent_lt k ltac:(lia)). lia.
  - split; [|done]. rewrite Hp. by rewrite Permutation_app_comm.
Qed.

(** The root is due first. *)
Lemma heap_min h k : heap_ok h -> (k < length h)%nat -> when_at h 0 <= when_at h k.
Proof.
  intros Hh. induction k as [k IH] using lt_wf_ind. intros Hk.
  destruct (decide (k = 0%nat)) as [->|]; [lia|]. pose proof (parent_lt k ltac:(lia)).
  specialize (IH (parent k) ltac:(lia) ltac:(lia)). specialize (Hh k ltac:(lia)). lia.
Qed.

Lemma heapPop_spec t h :
  heap_ok (t :: h) ->
  exists h', heapPop (t :: h) = Some (t, h') /\ h' ≡ₚ h /\ heap_ok h'.
Proof.
  intros Hh. unfold heapPop. cbn zeta. cbn [length]. replace (S (length h) - 1)%nat with (length h) by lia.
  set (h0 := Swap 0 (length h) (t :: h)).
  assert (Hl : length h0 = S (length h)) by apply length_Swap.
  destruct (down_spec (S (length h)) 0 (length h) h0) as (Hp & Hok & Hd); [lia|lia| |].
  { split; [|lia]. intros k Hk Hne. unfold h0. rewrite !when_Swap by (simpl; lia).
    pose proof (parent_lt k ltac:(lia)). rewrite !decide_False by lia. apply Hh. simpl. lia. }
  set (h1 := down (S (length h)) 0 (length h) h0) in *.
  assert (Hl1 : length h1 = S (length h)) by (by rewrite Hp).
  assert (Hlast : drop (length h) h1 = [t]).
  { rewrite Hd. unfold h0, Swap. destruct h as [|x h]; [done|].
    rewrite drop_insert_lt by (simpl; lia).
    rewrite (drop_S _ t); [|apply list_lookup_insert_eq; simpl; lia].
    rewrite drop_ge; [done|]. rewrite length_insert. simpl. lia. }
  assert (Hsplit : h1 = take (length h) h1 ++ [t]) by (rewrite <- Hlast; by rewrite take_drop).
  assert (Htake : length (take (length h) h1) = length h) by (rewrite length_take; lia).
  assert (last h1 = Some t) as -> by (rewrite Hsplit; apply last_snoc). eexists. split; [reflexivity|]. split.
  - apply (Permutation_cons_inv (a := t)). rewrite <- (Swap_perm 0 (length h) (t :: h)) by (simpl; lia).
    fold h0. rewrite Permutation_cons_append, <- Hsplit. done.
  - intros k Hk. rewrite Htake in Hk. pose proof (parent_lt k ltac:(lia)).
    specialize (Hok k Hk). unfold when_at in *. rewrite Hsplit in Hok.
    rewrite !lookup_total_app_l in Hok by lia. done.
Qed.
End heap.

(** * Running due tasks *)

(** Tasks in the order in which they are due. *)
Definition due_order : list ScheduledTask -> Prop :=
  Sorted.StronglySorted (fun t t' => st_when t <= st_when t').

Lemma runDue_spec now s fuel :
  heap_ok (sc_tasks s) -> (length (sc_tasks s) <= fuel)%nat ->
  let '(ran, s') := runDue fuel now s in
  sc_tasks s ≡ₚ ran ++ sc_tasks s' /\ heap_ok (sc_tasks s') /\ due_order ran /\
  Forall (fun t => st_when t <= now) ran /\ Forall (fun t => now < st_when t) (sc_tasks s') /\
  sc_isClosed s' = sc_isClosed s.
Proof.
  revert s. induction fuel as [|fuel IH]; intros [h cl] Hh Hf; cbn [runDue sc_tasks] in *.
  { destruct h; [|simpl in Hf; lia]. split_and!; try done; constructor. }
  unfold runTurn. cbn [sc_tasks sc_isClosed]. destruct h as [|t h].
  { destruct cl; split_and!; try done; constructor. }
  assert (Hall : Forall (fun x => st_when t <= st_when x) (t :: h)).
  { apply Forall_lookup_2. intros k x Hx. pose proof (lookup_lt_Some _ _ _ Hx) as Hk.
    pose proof (heap_min _ k Hh Hk) as Hm. unfold when_at in Hm.
    by rewrite (list_lookup_total_correct _ _ _ Hx) in Hm. }
  destruct (Z.leb_spec (st_when t - now) 0) as [Hdue|Hlate].
  - destruct (heapPop_spec t h Hh) as (h' & -> & Hp & Hok).
    specialize (IH (mkScheduler h' cl) Hok).
    destruct (runDue fuel now (mkScheduler h' cl)) as [ran s'].
    cbn [sc_tasks sc_isClosed] in IH. destruct IH as (I1 & I2 & I3 & I4 & I5 & I6).
    { rewrite Hp. simpl in Hf. lia. }
    split_and!; try done.
    + cbn [app]. by rewrite <- I1, Hp.
    + constructor; [done|]. apply Forall_cons in Hall as [_ Hall]. rewrite <- Hp, I1 in Hall.
      by apply Forall_app in Hall as [Hall _].
    + constructor; [lia|done].
  - split_and!; try done; try constructor; [lia|].
    apply Forall_cons in Hall as [_ Hall]. eapply Forall_impl; [exact Hall|]. simpl. lia.
Qed.

(** Calls of Schedule, Cancel and Close and turns of the dispatcher, in any
    order; [ran] collects the tasks taken. *)
Inductive sched_step : Scheduler * list ScheduledTask -> Scheduler * list ScheduledTask -> Prop :=
| sch_schedule now d id s ran :
    sched_step (s, ran) (snd (Schedule now d id s), ran)
| sch_cancel id s ran : sched_step (s, ran) (Cancel id s, ran)
| sch_close s ran : sched_step (s, ran) (CloseScheduler s, ran)
| sch_take now s s' t ran :
    runTurn now s = Took t s' -> sched_step (s, ran) (s', ran ++ [t]).

Lemma Cancel_ok id s : heap_ok (sc_tasks s) -> heap_ok (sc_tasks (Cancel id s)).
Proof.
  intros Hh. cbn [Cancel sc_tasks].
  assert (E : forall k, (k < length (sc_tasks s))%nat ->
    when_at ((fun t => if (st_id t =? id)%nat then mkTask (st_id t) (st_when t) true else t)
             <$> sc_tasks s) k = when_at (sc_tasks s) k).
  { intros k Hk. destruct (lookup_lt_is_Some_2 _ _ Hk) as [x Hx]. unfold when_at.
    rewrite (list_lookup_total_correct _ _ _ Hx).
    erewrite list_lookup_total_correct by (by rewrite list_lookup_fmap, Hx). by case_match. }
  intros k Hk. rewrite length_fmap in Hk. pose proof (parent_lt k ltac:(lia)).
  rewrite !E by lia. by apply Hh.
Qed.

Lemma sched_step_ok s ran s' ran' :
  sched_step (s, ran) (s', ran') -> heap_ok (sc_tasks s) -> heap_ok (sc_tasks s').
Proof.
  intros Hs Hh. inversion Hs as [now d id ? ?|id ? ?|? ?|now ? ? t ? Ht]; subst; try done.
  - unfold Schedule. destruct (d <? 0); [done|]. destruct (sc_isClosed s); [done|].
    cbn [snd sc_tasks]. by apply heapPush_spec.
  - by apply Cancel_ok.
  - unfold runTurn in Ht. destruct (sc_tasks s) as [|x h]; [by destruct (sc_isClosed s)|].
    case_match; [|done]. destruct (heapPop_spec x h Hh) as (h' & E & _ & Hok). rewrite E in Ht.
    by injection Ht as <- <-.
Qed.

(** The scheduler: after any calls of Schedule, Cancel and Close and any
    turns of the dispatcher, the dispatcher working at time [now] takes
    exactly the tasks that are due, in the order of their times, and leaves
    the others; none is taken before its time or twice.  This holds after
    Close as well: pending tasks are not dropped, and the dispatcher returns
    only once each has been taken at its time. *)
Theorem scheduler_due s ran now :
  steps sched_step (NewScheduler, []) (s, ran) ->
  let '(taken, s') := runDue (length (sc_tasks s)) now s in
  sc_tasks s ≡ₚ taken ++ sc_tasks s' /\ due_order taken /\
  Forall (fun t => st_when t <= now) taken /\ Forall (fun t => now < st_when t) (sc_tasks s') /\
  (runTurn now s' = Exit <-> sc_isClosed s = true /\ sc_tasks s' = []).
Proof.
  intros Hs. assert (Hh : heap_ok (sc_tasks (fst (s, ran)))).
  { apply (steps_invariant _ (fun x => heap_ok (sc_tasks (fst x))) _ _) with (3 := Hs).
    - intros [x r] [y r'] Hx Hxy. by eapply sched_step_ok.
    - intros k Hk. simpl in Hk. lia. }
  pose proof (runDue_spec now s (length (sc_tasks s)) Hh ltac:(lia)) as H.
  destruct (runDue _ now s) as [taken s']. destruct H as (H1 & H2 & H3 & H4 & H5 & H6).
  split_and!; try done. unfold runTurn. rewrite H6. destruct (sc_tasks s') as [|t h'] eqn:E.
  - destruct (sc_isClosed s); split; try done; by intros [? _].
  - apply Forall_cons in H5 as [Ht _]. destruct (Z.leb_spec (st_when t - now) 0); [lia|].
    split; [done|]. by intros [_ ?].
Qed.

Lemma scheduler_due_witness :
  let s1 := snd (Schedule 0 30 1 NewScheduler) in
  let s2 := snd (Schedule 0 10 2 s1) in
  let s3 := snd (Schedule 5 20 3 s2) in
  let s := CloseScheduler (Cancel 3 s3) in
  fst (runDue 3 25 s) = [mkTask 2 10 false; mkTask 3 25 true] /\
  due_order (fst (runDue 3 25 s)) /\ sc_tasks (snd (runDue 3 25 s)) = [mkTask 1 30 false].
Proof.
  intros s1 s2 s3 s. split_and!; [vm_compute; reflexivity| |vm_compute; reflexivity].
  assert (H : steps sched_step (NewScheduler, []) (s, [])).
  { do 3 (eapply steps_cons; [apply sch_schedule|]).
    eapply steps_cons; [apply sch_cancel|]. apply steps_one, sch_close. }
  apply (scheduler_due s [] 25) in H. change (length (sc_tasks s)) with 3%nat in H.
  destruct (runDue 3 25 s) as [l s']. by destruct H as (_ & ? & _).
Defined.
