(* ===== verification/Executor.v ===== *)
(** * Executors

    internal/utils/executor/executor.go: [Exec], a bounded queue and a pool of
    workers, as a step relation over callers and workers in which every
    access to an atomic variable or a channel that another goroutine can come
    between is a step of its own.  Tasks are numbers; a task runs to its end,
    by a panic or not. *)

From S2P Require Import Prelude.

(** * Exec *)

Record Opts := mkOpts { o_Workers : Z; o_QueueSize : Z; o_NonBlocking : bool }.

Definition execWorkers (numCPU : Z) (o : Opts) : Z :=
  if o_Workers o <=? 0 then numCPU else o_Workers o.
Definition execQueueSize (numCPU : Z) (o : Opts) : Z :=
  if o_QueueSize o <=? 0 then execWorkers numCPU o else o_QueueSize o.

(** A worker at the top of its loop; with the number of running workers it
    has read; above the size it has read; about to leave; at the select;
    running a task; and, once the stop channel is closed, draining the queue
    and running a task of it. *)
Inductive worker :=
  | WTop | WRead (running : Z) | WSurplus | WLeave | WSelect | WRun (t : nat) | WDrain | WDrainRun (t : nat).

(** The callers: calls of [Do] with the read lock, of [DoCtx] past the test of
    closed, of [Resize] past that test and waiting for the lock, the one that
    holds the lock with the workers it has yet to start and its size, and
    whether a [Stop] holds the lock and waits for the workers. *)
Record calls := mkCalls {
  cl_do : list nat;
  cl_ctx : list nat;
  cl_resize : list Z;
  cl_growing : option (nat * Z);
  cl_stopping : bool;
}.

Record Exec := mkExec {
  ex_nonBlocking : bool;
  ex_size : nat;            (* of the channel of tasks *)
  ex_tasks : list nat;
  ex_closed : bool;         (* and the channel of tasks is closed *)
  ex_stop : bool;           (* the stop channel is closed *)
  ex_cap : Z;
  ex_running : Z;
  ex_done : Z;
  ex_dropped : Z;
  ex_workers : list worker; (* the goroutines the wait group counts *)
  ex_ending : nat;          (* those past wg.Done that still count as running *)
  ex_calls : calls;
  ex_panics : nat;          (* sends on the closed channel *)
  ex_accepted : list nat;
  ex_started : list nat;
  ex_finished : list nat;
}.

Definition New (numCPU : Z) (o : Opts) : Exec :=
  let n := Z.to_nat (execWorkers numCPU o) in
  mkExec (o_NonBlocking o) (Z.to_nat (execQueueSize numCPU o)) [] false false
    (Z.of_nat n) (Z.of_nat n) 0 0 (replicate n WTop) 0 (mkCalls [] [] [] None false) 0 [] [] [].

(** Updates of groups of fields. *)
Definition set_queue (tasks accepted started finished : list nat) (ws : list worker) (e : Exec) : Exec :=
  mkExec (ex_nonBlocking e) (ex_size e) tasks (ex_closed e) (ex_stop e) (ex_cap e) (ex_running e) (ex_done e)
    (ex_dropped e) ws (ex_ending e) (ex_calls e) (ex_panics e) accepted started finished.
Definition set_calls (c : calls) (done dropped : Z) (panics : nat) (e : Exec) : Exec :=
  mkExec (ex_nonBlocking e) (ex_size e) (ex_tasks e) (ex_closed e) (ex_stop e) (ex_cap e) (ex_running e)
    done dropped (ex_workers e) (ex_ending e) c panics (ex_accepted e) (ex_started e) (ex_finished e).
Definition set_pool (closed stop : bool) (cap running : Z) (ws : list worker) (ending : nat) (c : calls)
    (e : Exec) : Exec :=
  mkExec (ex_nonBlocking e) (ex_size e) (ex_tasks e) closed stop cap running (ex_done e)
    (ex_dropped e) ws ending c (ex_panics e) (ex_accepted e) (ex_started e) (ex_finished e).

Definition with_do (l : list nat) (c : calls) : calls :=
  mkCalls l (cl_ctx c) (cl_resize c) (cl_growing c) (cl_stopping c).
Definition with_ctx (l : list nat) (c : calls) : calls :=
  mkCalls (cl_do c) l (cl_resize c) (cl_growing c) (cl_stopping c).
Definition with_resize (l : list Z) (g : option (nat * Z)) (c : calls) : calls :=
  mkCalls (cl_do c) (cl_ctx c) l g (cl_stopping c).
Definition with_stopping (b : bool) (c : calls) : calls :=
  mkCalls (cl_do c) (cl_ctx c) (cl_resize c) (cl_growing c) b.

(** A task is put in the channel. *)
Definition enqueue (t : nat) (e : Exec) : Exec :=
  set_queue (ex_tasks e ++ [t]) (ex_accepted e ++ [t]) (ex_started e) (ex_finished e) (ex_workers e) e.

Definition set_workers (ws : list worker) (e : Exec) : Exec :=
  set_queue (ex_tasks e) (ex_accepted e) (ex_started e) (ex_finished e) ws e.

(** A worker takes the first task of the channel. *)
Definition takeTask (l : list nat) (t : nat) (ws : list worker) (e : Exec) : Exec :=
  set_queue l (ex_accepted e) (ex_started e ++ [t]) (ex_finished e) ws e.
Definition finishTask (t : nat) (ws : list worker) (e : Exec) : Exec :=
  set_queue (ex_tasks e) (ex_accepted e) (ex_started e) (t :: ex_finished e) ws e.

(** A goroutine that ends: first the wait group, then the number of running
    workers. *)
Definition worker_gone (ws : list worker) (e : Exec) : Exec :=
  set_pool (ex_closed e) (ex_stop e) (ex_cap e) (ex_running e) ws (S (ex_ending e)) (ex_calls e) e.
Definition worker_counted (k : nat) (e : Exec) : Exec :=
  set_pool (ex_closed e) (ex_stop e) (ex_cap e) (ex_running e - 1) (ex_workers e) k (ex_calls e) e.

Definition startWorker (e : Exec) : Exec :=
  set_pool (ex_closed e) (ex_stop e) (ex_cap e) (ex_running e + 1) (ex_workers e ++ [WTop]) (ex_ending e)
    (ex_calls e) e.

(** No call holds the lock, for reading or for writing. *)
Definition unlocked (e : Exec) : Prop :=
  cl_do (ex_calls e) = [] /\ cl_growing (ex_calls e) = None /\ cl_stopping (ex_calls e) = false.

(** What [Wait] polls for. *)
Definition waitDone (e : Exec) : bool := (length (ex_tasks e) =? 0)%nat && (ex_running e =? 0).

(** ** The parts of [Do] and [DoCtx] *)

(** [Do] past its test of closed, with the read lock; [l] are the other calls
    that hold it. *)
Definition DoEnter (t : nat) (e : Exec) : Exec :=
  set_calls (with_do (t :: cl_do (ex_calls e)) (ex_calls e)) (addu64 (ex_done e) 1) (ex_dropped e) (ex_panics e) e.
Definition DoSend (t : nat) (l : list nat) (e : Exec) : Exec :=
  enqueue t (set_calls (with_do l (ex_calls e)) (ex_done e) (ex_dropped e)
               (ex_panics e + if ex_closed e then 1 else 0) e).
Definition DoFull (l : list nat) (e : Exec) : Exec :=
  set_calls (with_do l (ex_calls e)) (ex_done e) (addu64 (ex_dropped e) 1) (ex_panics e) e.
Definition DoStopped (l : list nat) (e : Exec) : Exec :=
  set_calls (with_do l (ex_calls e)) (ex_done e) (ex_dropped e) (ex_panics e) e.

(** [DoCtx], which takes no lock: a send on the closed channel panics, and a
    cancelled context or the stop channel ends the call. *)
Definition DoCtxEnter (t : nat) (e : Exec) : Exec :=
  set_calls (with_ctx (t :: cl_ctx (ex_calls e)) (ex_calls e)) (addu64 (ex_done e) 1) (ex_dropped e) (ex_panics e) e.
Definition DoCtxSend (t : nat) (l : list nat) (e : Exec) : Exec :=
  enqueue t (set_calls (with_ctx l (ex_calls e)) (ex_done e) (ex_dropped e) (ex_panics e) e).
Definition DoCtxFull (l : list nat) (e : Exec) : Exec :=
  set_calls (with_ctx l (ex_calls e)) (ex_done e) (addu64 (ex_dropped e) 1) (ex_panics e) e.
Definition DoCtxPanic (l : list nat) (e : Exec) : Exec :=
  set_calls (with_ctx l (ex_calls e)) (ex_done e) (ex_dropped e) (S (ex_panics e)) e.
Definition DoCtxDone (l : list nat) (e : Exec) : Exec :=
  set_calls (with_ctx l (ex_calls e)) (ex_done e) (ex_dropped e) (ex_panics e) e.

(** ** The parts of [Resize] *)

(** Past the test of closed. *)
Definition ResizeEnter (n : Z) (e : Exec) : Exec :=
  set_calls (with_resize (n :: cl_resize (ex_calls e)) (cl_growing (ex_calls e)) (ex_calls e)) (ex_done e)
    (ex_dropped e) (ex_panics e) e.

(** With the lock: the workers above a smaller size leave on their own, those
    missing are started before the size is stored. *)
Definition ResizeLock (n : Z) (l : list Z) (e : Exec) : Exec :=
  let c := with_resize l in
  if n =? ex_cap e then set_calls (c None (ex_calls e)) (ex_done e) (ex_dropped e) (ex_panics e) e
  else if ex_cap e <? n then
    set_calls (c (Some (Z.to_nat (n - ex_cap e), n)) (ex_calls e)) (ex_done e) (ex_dropped e) (ex_panics e) e
  else set_pool (ex_closed e) (ex_stop e) n (ex_running e) (ex_workers e) (ex_ending e) (c None (ex_calls e)) e.

Definition ResizeStart (k : nat) (n : Z) (e : Exec) : Exec :=
  let e := startWorker e in
  set_calls (with_resize (cl_resize (ex_calls e)) (Some (k, n)) (ex_calls e)) (ex_done e) (ex_dropped e) (ex_panics e) e.

Definition ResizeStore (n : Z) (e : Exec) : Exec :=
  set_pool (ex_closed e) (ex_stop e) n (ex_running e) (ex_workers e) (ex_ending e)
    (with_resize (cl_resize (ex_calls e)) None (ex_calls e)) e.

(** ** The parts of [Stop] *)

(** Up to the wait for the workers, which it does with the lock. *)
Definition StopExec (e : Exec) : Exec :=
  set_pool true (ex_stop e) (ex_cap e) (ex_running e) (ex_workers e) (ex_ending e)
    (with_stopping true (ex_calls e)) e.

(** The end: the workers are done, or the time is up; the stop channel is
    closed and the number of running workers reset either way, and the call
    reports the workers that are left when the time was up. *)
Definition StopEnd (timedOut : bool) (e : Exec) : option Z * Exec :=
  (if timedOut then Some (ex_running e) else None,
   set_pool (ex_closed e) true (ex_cap e) 0 (ex_workers e) (ex_ending e) (with_stopping false (ex_calls e)) e).

Inductive exec_step : Exec -> Exec -> Prop :=
(* Do: the lock is held from the test of closed to the send *)
| es_do e t :
    cl_growing (ex_calls e) = None -> cl_stopping (ex_calls e) = false -> ex_closed e = false ->
    exec_step e (DoEnter t e)
| es_do_send e t l :
    cl_do (ex_calls e) ≡ₚ t :: l -> (length (ex_tasks e) < ex_size e)%nat ->
    exec_step e (DoSend t l e)
| es_do_full e t l :
    cl_do (ex_calls e) ≡ₚ t :: l -> ex_nonBlocking e = true -> length (ex_tasks e) = ex_size e ->
    exec_step e (DoFull l e)
| es_do_stopped e t l :
    cl_do (ex_calls e) ≡ₚ t :: l -> ex_nonBlocking e = false -> ex_stop e = true ->
    exec_step e (DoStopped l e)
(* DoCtx takes no lock *)
| es_ctx e t :
    ex_closed e = false ->
    exec_step e (DoCtxEnter t e)
| es_ctx_send e t l :
    cl_ctx (ex_calls e) ≡ₚ t :: l -> ex_closed e = false -> (length (ex_tasks e) < ex_size e)%nat ->
    exec_step e (DoCtxSend t l e)
| es_ctx_full e t l :
    cl_ctx (ex_calls e) ≡ₚ t :: l -> ex_nonBlocking e = true -> ex_closed e = false ->
    length (ex_tasks e) = ex_size e ->
    exec_step e (DoCtxFull l e)
| es_ctx_panic e t l :
    cl_ctx (ex_calls e) ≡ₚ t :: l -> ex_closed e = true ->
    exec_step e (DoCtxPanic l e)
| es_ctx_cancelled e t l :
    cl_ctx (ex_calls e) ≡ₚ t :: l ->
    exec_step e (DoCtxDone l e)
(* Resize *)
| es_resize e n :
    0 < n -> ex_closed e = false ->
    exec_step e (ResizeEnter n e)
| es_resize_lock e n l :
    cl_resize (ex_calls e) ≡ₚ n :: l -> unlocked e ->
    exec_step e (ResizeLock n l e)
| es_resize_start e k n :
    cl_growing (ex_calls e) = Some (S k, n) ->
    exec_step e (ResizeStart k n e)
| es_resize_store e n :
    cl_growing (ex_calls e) = Some (0%nat, n) ->
    exec_step e (ResizeStore n e)
(* Stop *)
| es_stop e :
    unlocked e -> ex_closed e = false ->
    exec_step e (StopExec e)
| es_stop_done e :
    cl_stopping (ex_calls e) = true -> ex_workers e = [] ->
    exec_step e (StopEnd false e).2
| es_stop_timeout e :
    cl_stopping (ex_calls e) = true ->
    exec_step e (StopEnd true e).2
(* workers *)
| es_read e ws :
    ex_workers e ≡ₚ WTop :: ws ->
    exec_step e (set_workers (WRead (ex_running e) :: ws) e)
| es_compare e r ws :
    ex_workers e ≡ₚ WRead r :: ws ->
    exec_step e (set_workers ((if (ex_cap e <? r) && (0 <? ex_cap e) then WSurplus else WSelect) :: ws) e)
| es_surplus e ws :
    ex_workers e ≡ₚ WSurplus :: ws ->
    exec_step e (set_workers ((if ex_closed e then WSelect else WLeave) :: ws) e)
| es_leave e ws :
    ex_workers e ≡ₚ WLeave :: ws -> exec_step e (worker_gone ws e)
| es_take e ws t l :
    ex_workers e ≡ₚ WSelect :: ws -> ex_tasks e = t :: l ->
    exec_step e (takeTask l t (WRun t :: ws) e)
| es_finish e ws t :
    ex_workers e ≡ₚ WRun t :: ws ->
    exec_step e (finishTask t (WTop :: ws) e)
| es_closed e ws :
    ex_workers e ≡ₚ WSelect :: ws -> ex_tasks e = [] -> ex_closed e = true ->
    exec_step e (worker_gone ws e)
| es_stopped e ws :
    ex_workers e ≡ₚ WSelect :: ws -> ex_stop e = true ->
    exec_step e (set_workers (WDrain :: ws) e)
| es_drain_take e ws t l :
    ex_workers e ≡ₚ WDrain :: ws -> ex_tasks e = t :: l ->
    exec_step e (takeTask l t (WDrainRun t :: ws) e)
| es_drain_finish e ws t :
    ex_workers e ≡ₚ WDrainRun t :: ws ->
    exec_step e (finishTask t (WDrain :: ws) e)
| es_drained e ws :
    ex_workers e ≡ₚ WDrain :: ws -> ex_tasks e = [] ->
    exec_step e (worker_gone ws e)
| es_counted e k :
    ex_ending e = S k -> exec_step e (worker_counted k e).

(** The tasks being run. *)
Definition task_of (w : worker) : option nat :=
  match w with WRun t | WDrainRun t => Some t | _ => None end.
Definition busy (e : Exec) : list nat := omap task_of (ex_workers e).

Record exec_ok (e : Exec) : Prop := {
  eo_fifo : ex_accepted e = ex_started e ++ ex_tasks e;
  eo_bound : (length (ex_tasks e) <= ex_size e)%nat;
  eo_running : ex_stop e = false -> ex_running e = Z.of_nat (length (ex_workers e) + ex_ending e);
  eo_finished : ex_started e ≡ₚ busy e ++ ex_finished e;
  eo_lock : ex_closed e = true -> cl_do (ex_calls e) = [];
  eo_stop : ex_stop e = true \/ cl_stopping (ex_calls e) = true -> ex_closed e = true;
}.

#[export] Instance omap_perm {A B} (f : A -> option B) : Proper ((≡ₚ) ==> (≡ₚ)) (omap (M := list) f).
Proof.
  induction 1 as [|x l l' _ IH|x y l|l l' l'' _ IH _ IH']; simpl.
  - done.
  - destruct (f x); by rewrite IH.
  - destruct (f x), (f y); try done. apply Permutation_swap.
  - by rewrite IH.
Qed.

Lemma omap_replicate_None {A B} (f : A -> option B) n x : f x = None -> omap f (replicate n x) = [].
Proof. intros Hx. induction n as [|n IH]; simpl; [done|]. by rewrite Hx. Qed.

Ltac exec_unfold :=
  unfold DoEnter, DoSend, DoFull, DoStopped, DoCtxEnter, DoCtxSend, DoCtxFull, DoCtxPanic, DoCtxDone,
    ResizeEnter, ResizeStart, ResizeStore, StopExec, StopEnd, startWorker, worker_gone, worker_counted,
    takeTask, finishTask, enqueue, set_calls, set_pool, set_workers, set_queue,
    with_do, with_ctx, with_resize, with_stopping, busy in *;
  cbn [snd ex_nonBlocking ex_size ex_tasks ex_closed ex_stop ex_cap ex_running ex_workers ex_ending ex_calls ex_panics
       ex_accepted ex_started ex_finished cl_do cl_ctx cl_resize cl_growing cl_stopping] in *.

(** The calls change neither queue, workers nor history. *)
Lemma calls_ok e c done dropped panics :
  exec_ok e -> (ex_closed e = true -> cl_do c = []) -> (cl_stopping c = true -> ex_closed e = true) ->
  exec_ok (set_calls c done dropped panics e).
Proof. intros [] Hd Hs. split; exec_unfold; tauto. Qed.

Lemma enqueue_ok t e : (length (ex_tasks e) < ex_size e)%nat -> exec_ok e -> exec_ok (enqueue t e).
Proof.
  intros Hb [Hf Hl Hr Hn Hk Hs]. split; exec_unfold; try done.
  - by rewrite Hf, app_assoc.
  - rewrite length_app. simpl. lia.
Qed.

(** One worker that takes another state with the same task. *)
Lemma worker_step_ok w w' ws e :
  ex_workers e ≡ₚ w :: ws -> task_of w' = task_of w -> exec_ok e -> exec_ok (set_workers (w' :: ws) e).
Proof.
  intros Hw Ht [Hf Hl Hr Hn Hk Hs]. pose proof (Permutation_length Hw) as Hlen.
  split; exec_unfold; try done.
  - intros Hx. rewrite (Hr Hx), Hlen. done.
  - rewrite Hn, Hw. simpl. by rewrite Ht.
Qed.

Lemma gone_ok w ws e :
  ex_workers e ≡ₚ w :: ws -> task_of w = None -> exec_ok e -> exec_ok (worker_gone ws e).
Proof.
  intros Hw Ht [Hf Hl Hr Hn Hk Hs]. pose proof (Permutation_length Hw) as Hlen.
  split; exec_unfold; try done.
  - intros Hx. rewrite (Hr Hx), Hlen. simpl. lia.
  - rewrite Hn, Hw. simpl. by rewrite Ht.
Qed.

Lemma take_ok w w' ws t l e :
  ex_workers e ≡ₚ w :: ws -> task_of w = None -> task_of w' = Some t -> ex_tasks e = t :: l ->
  exec_ok e -> exec_ok (takeTask l t (w' :: ws) e).
Proof.
  intros Hw Ht Ht' Hq [Hf Hl Hr Hn Hk Hs]. pose proof (Permutation_length Hw) as Hlen.
  split; exec_unfold; try done.
  - by rewrite Hf, Hq, <- app_assoc.
  - rewrite Hq in Hl. simpl in Hl. lia.
  - intros Hx. rewrite (Hr Hx), Hlen. done.
  - rewrite Hn, Hw. simpl. rewrite Ht, Ht'. by rewrite Permutation_app_comm.
Qed.

Lemma finish_ok w w' ws t e :
  ex_workers e ≡ₚ w :: ws -> task_of w = Some t -> task_of w' = None ->
  exec_ok e -> exec_ok (finishTask t (w' :: ws) e).
Proof.
  intros Hw Ht Ht' [Hf Hl Hr Hn Hk Hs]. pose proof (Permutation_length Hw) as Hlen.
  split; exec_unfold; try done.
  - intros Hx. rewrite (Hr Hx), Hlen. done.
  - rewrite Hn, Hw. simpl. rewrite Ht, Ht'. simpl. by rewrite Permutation_middle.
Qed.

Lemma no_do {e t l} : exec_ok e -> cl_do (ex_calls e) ≡ₚ t :: l -> ex_closed e = false.
Proof.
  intros Hok Hd. destruct (ex_closed e) eqn:E; [|done].
  rewrite (eo_lock _ Hok E) in Hd. by apply Permutation_nil_cons in Hd.
Qed.

(** Counters and flags: the number of running workers is right until the
    stop channel is closed. *)
Lemma pool_ok closed stop cap running ws ending c e :
  (stop = false -> running = Z.of_nat (length ws + ending)) -> omap task_of ws = busy e ->
  (closed = true -> cl_do c = []) -> (stop = true \/ cl_stopping c = true -> closed = true) ->
  exec_ok e -> exec_ok (set_pool closed stop cap running ws ending c e).
Proof.
  intros Hr Hb Hd Hs [Hf Hl _ Hn _ _]. split; exec_unfold; try done. by rewrite Hb.
Qed.

Lemma exec_step_ok e e' : exec_ok e -> exec_step e e' -> exec_ok e'.
Proof.
  intros Hok Hs. pose proof (eo_running _ Hok) as Hr. pose proof (eo_lock _ Hok) as Hk.
  pose proof (eo_stop _ Hok) as Hst.
  destruct Hs as [e t Hg Hw Hc|e t l Hd Hq|e t l Hd Hb Hq|e t l Hd Hb Hq|e t Hc|e t l Hd Hc Hq|e t l Hd Hb Hc Hq
    |e t l Hd Hc|e t l Hd|e n Hn Hc|e n l Hd Hu|e k n Hg|e n Hg|e Hu Hc|e Hc Hw|e Hc|e ws Hw|e r ws Hw|e ws Hw
    |e ws Hw|e ws t l Hw Hq|e ws t Hw|e ws Hw Hq Hc|e ws Hw Hx|e ws t l Hw Hq|e ws t Hw|e ws Hw Hq|e k Hk'].
  - apply calls_ok; [done|by rewrite Hc|]. cbn. tauto.
  - apply enqueue_ok; [done|]. apply calls_ok; [done|by rewrite (no_do Hok Hd)|]. cbn. tauto.
  - apply calls_ok; [done|by rewrite (no_do Hok Hd)|]. cbn. tauto.
  - apply calls_ok; [done|by rewrite (no_do Hok Hd)|]. cbn. tauto.
  - apply calls_ok; [done|done|]. cbn. tauto.
  - apply enqueue_ok; [done|]. apply calls_ok; [done|done|]. cbn. tauto.
  - apply calls_ok; [done|done|]. cbn. tauto.
  - apply calls_ok; [done|done|]. cbn. tauto.
  - apply calls_ok; [done|done|]. cbn. tauto.
  - apply calls_ok; [done|done|]. cbn. tauto.
  - unfold ResizeLock. repeat case_match; try (apply calls_ok; [done|done|cbn; tauto]).
    apply pool_ok; [done|done|done|done|done].
  - unfold ResizeStart. apply calls_ok.
    + apply pool_ok; [|by rewrite omap_app, app_nil_r|done|done|done].
      intros Hx. rewrite length_app. simpl. specialize (Hr Hx). lia.
    + done.
    + exec_unfold. tauto.
  - apply pool_ok; done.
  - apply pool_ok; [done|done|intros _; apply Hu|done|done].
  - apply pool_ok; [done|done|done|cbn; auto|done].
  - apply pool_ok; [done|done|done|cbn; auto|done].
  - by eapply worker_step_ok.
  - eapply worker_step_ok; [done|by case_match|done].
  - eapply worker_step_ok; [done|by case_match|done].
  - by eapply gone_ok.
  - by eapply take_ok.
  - by eapply finish_ok.
  - by eapply gone_ok.
  - by eapply worker_step_ok.
  - by eapply take_ok.
  - by eapply finish_ok.
  - by eapply gone_ok.
  - apply pool_ok; [|done..]. intros Hx. specialize (Hr Hx). lia.
Qed.

Lemma New_ok numCPU o : exec_ok (New numCPU o).
Proof.
  split; try done.
  - simpl. lia.
  - intros _. simpl. rewrite length_replicate. lia.
  - unfold busy. cbn [New ex_workers]. by rewrite omap_replicate_None.
  - by intros [|].
Qed.

Lemma exec_reach numCPU o e : steps exec_step (New numCPU o) e -> exec_ok e.
Proof. apply steps_invariant; [intros x y; apply exec_step_ok|apply New_ok]. Qed.

(** * Runs without Resize *)

(** Runs in which the executor keeps its size. *)
Definition fixed_step (e e' : Exec) : Prop := exec_step e e' /\ cl_resize (ex_calls e') = [].

Lemma fixed_steps e e' : steps fixed_step e e' -> steps exec_step e e'.
Proof. induction 1 as [e|e e1 e2 [Hx _] _ IH]; [apply steps_refl|exact (steps_cons _ _ _ Hx IH)]. Qed.

(** A worker that does not leave for being one too many, and that drains the
    queue only of a closed executor. *)
Definition stays (closed : bool) (cap : Z) (w : worker) : Prop :=
  match w with
  | WSurplus | WLeave => False
  | WRead r => r <= cap
  | WDrain | WDrainRun _ => closed = true
  | _ => True
  end.

Record fixed_ok (e : Exec) : Prop := {
  fo_ok : exec_ok e;
  fo_calls : cl_resize (ex_calls e) = [] /\ cl_growing (ex_calls e) = None;
  fo_stay : Forall (stays (ex_closed e) (ex_cap e)) (ex_workers e);
  fo_cap : 0 < ex_cap e /\ ex_running e <= ex_cap e;
  fo_open : ex_closed e = false -> ex_ending e = 0%nat /\ Z.of_nat (length (ex_workers e)) = ex_cap e;
  fo_last : ex_workers e = [] -> ex_closed e = true /\ ex_tasks e = [];
}.

(** Steps of the calls, while no worker has left. *)
Lemma fixed_calls e e' :
  ex_workers e' = ex_workers e -> ex_closed e' = ex_closed e -> ex_running e' = ex_running e ->
  ex_cap e' = ex_cap e -> ex_ending e' = ex_ending e -> (ex_tasks e' = ex_tasks e \/ ex_closed e = false) ->
  cl_resize (ex_calls e') = [] /\ cl_growing (ex_calls e') = None ->
  fixed_ok e -> exec_ok e' -> fixed_ok e'.
Proof.
  intros Hw Hc Hr Hp He Ht Hg [Hok _ Hs Hcap Ho Hl] Hok'.
  split; rewrite ?Hw, ?Hc, ?Hr, ?Hp, ?He; try done.
  intros E. destruct (Hl E) as [Hcl Hta]. destruct Ht as [Ht|Ht]; [by rewrite Ht|congruence].
Qed.

(** One worker replaced by another that stays. *)
Lemma fixed_worker e e' w w' ws :
  ex_workers e ≡ₚ w :: ws -> ex_workers e' = w' :: ws -> (stays (ex_closed e) (ex_cap e) w -> stays (ex_closed e) (ex_cap e) w') ->
  ex_closed e' = ex_closed e -> ex_running e' = ex_running e -> ex_cap e' = ex_cap e ->
  ex_ending e' = ex_ending e -> ex_calls e' = ex_calls e ->
  fixed_ok e -> exec_ok e' -> fixed_ok e'.
Proof.
  intros Hw Hw' Hne Hc Hr Hp He Hcl [Hok Hg Hs Hcap Ho Hl] Hok'. pose proof (Permutation_length Hw) as Hlen.
  rewrite Hw in Hs. apply Forall_cons in Hs as [Hs1 Hs2].
  split; rewrite ?Hw', ?Hc, ?Hr, ?Hp, ?He, ?Hcl; try done.
  - constructor; auto.
  - intros E. destruct (Ho E) as [? Hn]. split; [done|]. rewrite Hlen in Hn. done.
Qed.

(** A worker that ends with the queue empty and the executor closed. *)
Lemma fixed_gone e w ws :
  ex_workers e ≡ₚ w :: ws -> ex_tasks e = [] -> ex_closed e = true ->
  fixed_ok e -> exec_ok (worker_gone ws e) -> fixed_ok (worker_gone ws e).
Proof.
  intros Hw Ht Hc [Hok Hg Hs Hcap Ho Hl] Hok'. rewrite Hw in Hs. apply Forall_cons in Hs as [_ Hs].
  split; exec_unfold; try done. congruence.
Qed.

Lemma fixed_step_ok e e' : fixed_ok e -> fixed_step e e' -> fixed_ok e'.
Proof.
  intros Hg [Hs Hres]. pose proof (exec_step_ok e e' (fo_ok _ Hg) Hs) as Hok'.
  pose proof Hg as [Hok [Hr0 Hg0] Hst [Hcap Hrun] Ho Hl].
  destruct Hs as [e t Hgr Hw Hc|e t l Hd Hq|e t l Hd Hb Hq|e t l Hd Hb Hq|e t Hc|e t l Hd Hc Hq|e t l Hd Hb Hc Hq
    |e t l Hd Hc|e t l Hd|e n Hn Hc|e n l Hd Hu|e k n Hgr|e n Hgr|e Hu Hc|e Hc Hw|e Hc|e ws Hw|e r ws Hw|e ws Hw
    |e ws Hw|e ws t l Hw Hq|e ws t Hw|e ws Hw Hq Hc|e ws Hw Hx|e ws t l Hw Hq|e ws t Hw|e ws Hw Hq|e k Hk'];
    try (eapply fixed_calls; [..|exact Hg|exact Hok']; [done..|by auto|done]).
  - eapply fixed_calls; [..|exact Hg|exact Hok']; [done..| |done]. right. by eapply no_do.
  - rewrite Hr0 in Hd. by apply Permutation_nil_cons in Hd.
  - congruence.
  - congruence.
  - split; exec_unfold; try done.
    + eapply Forall_impl; [exact Hst|]. by intros [].
    + intros E. destruct (Hl E). done.
  - split; exec_unfold; try done; split; lia.
  - split; exec_unfold; try done; split; lia.
  - by eapply fixed_worker; [exact Hw|..|exact Hg|exact Hok'].
  - eapply fixed_worker; [exact Hw|reflexivity|..|exact Hg|exact Hok']; try done. cbn [stays]. intros Hle.
    destruct (Z.ltb_spec (ex_cap e) r); [lia|done].
  - rewrite Hw in Hst. by apply Forall_cons in Hst as [[] _].
  - rewrite Hw in Hst. by apply Forall_cons in Hst as [[] _].
  - by eapply fixed_worker; [exact Hw|..|exact Hg|exact Hok'].
  - by eapply fixed_worker; [exact Hw|..|exact Hg|exact Hok'].
  - by eapply fixed_gone.
  - eapply fixed_worker; [exact Hw|reflexivity|..|exact Hg|exact Hok']; try done. intros _. apply (eo_stop _ Hok). by left.
  - by eapply fixed_worker; [exact Hw|..|exact Hg|exact Hok'].
  - by eapply fixed_worker; [exact Hw|..|exact Hg|exact Hok'].
  - eapply fixed_gone; [exact Hw|done| |exact Hg|exact Hok'].
    rewrite Hw in Hst. by apply Forall_cons in Hst as [Hst _].
  - split; exec_unfold; try done; [split; lia|]. intros E. destruct (Ho E). lia.
Qed.

Lemma fixed_reach numCPU o e : 0 < numCPU -> steps fixed_step (New numCPU o) e -> fixed_ok e.
Proof.
  intros Hcpu. assert (Hpos : 0 < execWorkers numCPU o) by (unfold execWorkers; case_match; to_prop; lia).
  apply (steps_invariant fixed_step fixed_ok); [intros x y; apply fixed_step_ok|].
  split; [apply New_ok|done|..]; cbn [New ex_workers ex_closed ex_running ex_cap ex_ending].
  - apply Forall_replicate. done.
  - lia.
  - rewrite length_replicate. lia.
  - intros E%(f_equal length). rewrite length_replicate in E. simpl in E. lia.
Qed.

(** C24. The executor neither duplicates nor reorders tasks, and loses none
    while it keeps its size.  However callers, workers, Resize and Stop, its
    timeout included, interleave, the tasks accepted are, in order, those
    started followed by those queued; those started are the ones being run and
    the ones finished; the queue stays within its size; the number of running
    workers is the number of goroutines until Stop resets it; and once the
    executor is closed no call of Do is between its test and its send, so that
    Do never sends on the closed channel.  In a run without Resize all workers
    are there while the executor is open, and workers leave only with the
    queue empty: when the last has ended, the executor was stopped and every
    accepted task has finished. *)
Theorem exec_fifo numCPU o e :
  0 < numCPU -> steps exec_step (New numCPU o) e ->
  (ex_accepted e = ex_started e ++ ex_tasks e /\
   ex_started e ≡ₚ busy e ++ ex_finished e /\
   (length (ex_tasks e) <= ex_size e)%nat /\
   (ex_stop e = false -> ex_running e = Z.of_nat (length (ex_workers e) + ex_ending e)) /\
   (ex_closed e = true -> cl_do (ex_calls e) = [])) /\
  (steps fixed_step (New numCPU o) e ->
   (ex_closed e = false -> Z.of_nat (length (ex_workers e)) = ex_cap e /\ 0 < ex_cap e /\ waitDone e = false) /\
   ((0 < length (ex_tasks e))%nat -> (0 < length (ex_workers e))%nat) /\
   (ex_workers e = [] -> ex_closed e = true /\ ex_finished e ≡ₚ ex_accepted e)).
Proof.
  intros Hcpu Hs. pose proof (exec_reach _ _ _ Hs) as [Hf Hb Hr Hn Hk Hst]. split; [done|]. intros Hfix.
  destruct (fixed_reach _ _ _ Hcpu Hfix) as [_ _ _ [Hcap Hrun] Ho Hl]. split_and!.
  - intros Hc. destruct (Ho Hc) as [He Hw]. split_and!; [done|done|]. unfold waitDone.
    assert (ex_stop e = false) as Hx by (destruct (ex_stop e); [rewrite Hst in Hc; auto|done]).
    rewrite (Hr Hx). destruct (Z.eqb_spec (Z.of_nat (length (ex_workers e) + ex_ending e)) 0); [lia|]. apply andb_false_r.
  - destruct (ex_workers e); [|simpl; lia]. by destruct (Hl eq_refl) as [_ ->].
  - intros E. destruct (Hl E) as [Hc Ht]. split; [done|]. rewrite Hf, Ht, Hn, app_nil_r. unfold busy. by rewrite E.
Qed.

Definition exec2 : Exec := New 1 (mkOpts 2 1 false).
Definition exec1 : Exec := New 1 (mkOpts 1 1 false).

(** Making an executor of two workers smaller can end both: each sees two
    running before the other has left.  A task then waits for ever. *)
Example resize_race :
  exists e, steps exec_step exec2 e /\ ex_closed e = false /\ ex_cap e = 1 /\
            ex_workers e = [] /\ ex_tasks e = [7%nat].
Proof.
  eexists. split.
  - eapply steps_cons; [apply (es_resize _ 1); done|].
    eapply steps_cons; [apply (es_resize_lock _ 1 []); done|].
    eapply steps_cons; [apply (es_read _ [WTop]); reflexivity|].
    eapply steps_cons; [apply (es_read _ [WRead 2]); apply Permutation_swap|].
    eapply steps_cons; [apply (es_compare _ 2 [WRead 2]); reflexivity|].
    eapply steps_cons; [apply (es_compare _ 2 [WSurplus]); apply Permutation_swap|].
    eapply steps_cons; [apply (es_surplus _ [WSurplus]); reflexivity|].
    eapply steps_cons; [apply (es_surplus _ [WLeave]); apply Permutation_swap|].
    eapply steps_cons; [apply (es_leave _ [WLeave]); reflexivity|].
    eapply steps_cons; [apply (es_leave _ []); reflexivity|].
    eapply steps_cons; [apply (es_do _ 7); reflexivity|].
    apply steps_one, (es_do_send _ 7 []); [reflexivity|vm_compute; (lia || done)].
  - done.
Qed.

(** Making it larger can end them too: the workers are started, and counted,
    before the new size is stored. *)
Example grow_race :
  exists e, steps exec_step exec1 e /\ ex_closed e = false /\ ex_cap e = 2 /\ ex_workers e = [].
Proof.
  eexists. split.
  - eapply steps_cons; [apply (es_resize _ 2); done|].
    eapply steps_cons; [apply (es_resize_lock _ 2 []); done|].
    eapply steps_cons; [apply (es_resize_start _ 0 2); reflexivity|].
    eapply steps_cons; [apply (es_read _ [WTop]); reflexivity|].
    eapply steps_cons; [apply (es_read _ [WRead 2]); apply Permutation_swap|].
    eapply steps_cons; [apply (es_compare _ 2 [WRead 2]); reflexivity|].
    eapply steps_cons; [apply (es_compare _ 2 [WSurplus]); apply Permutation_swap|].
    eapply steps_cons; [apply (es_surplus _ [WSurplus]); reflexivity|].
    eapply steps_cons; [apply (es_surplus _ [WLeave]); apply Permutation_swap|].
    eapply steps_cons; [apply (es_leave _ [WLeave]); reflexivity|].
    eapply steps_cons; [apply (es_leave _ []); reflexivity|].
    apply steps_one, (es_resize_store _ 2). reflexivity.
  - done.
Qed.

(** DoCtx tests closed without the lock: Stop can close the channel before
    the send, which panics in the caller. *)
Example doctx_panics :
  exists e, steps exec_step exec2 e /\ ex_panics e = 1%nat.
Proof.
  eexists. split.
  - eapply steps_cons; [apply (es_ctx _ 7); reflexivity|].
    eapply steps_cons; [apply es_stop; done|].
    apply steps_one, (es_ctx_panic _ 7 []); reflexivity.
  - done.
Qed.

(** A worker leaves the wait group before it is counted out: Stop resets the
    number in between, and the worker then counts below zero. *)
Example running_below_zero_exec :
  exists e, steps exec_step exec1 e /\ ex_workers e = [] /\ ex_ending e = 0%nat /\ ex_running e = -1.
Proof.
  eexists. split.
  - eapply steps_cons; [apply es_stop; done|].
    eapply steps_cons; [apply (es_read _ []); reflexivity|].
    eapply steps_cons; [apply (es_compare _ 1 []); reflexivity|].
    eapply steps_cons; [apply (es_closed _ []); reflexivity|].
    eapply steps_cons; [apply es_stop_done; reflexivity|].
    apply steps_one, (es_counted _ 0). reflexivity.
  - done.
Qed.

(** A task accepted before Stop, whose time is up while it waits: the worker
    runs it all the same. *)
Lemma exec_fifo_witness :
  exists e, steps fixed_step exec1 e /\ ex_workers e = [] /\ ex_accepted e = [7%nat] /\
            ex_finished e ≡ₚ ex_accepted e.
Proof.
  assert (H : exists e, steps fixed_step exec1 e /\ ex_workers e = [] /\ ex_accepted e = [7%nat]).
  { eexists. split.
    - eapply steps_cons; [split; [apply (es_do _ 7)|]; reflexivity|].
      eapply steps_cons; [split; [apply (es_do_send _ 7 []); [reflexivity|vm_compute; (lia || done)]|reflexivity]|].
      eapply steps_cons; [split; [apply es_stop; done|reflexivity]|].
      eapply steps_cons; [split; [apply es_stop_timeout|]; reflexivity|].
      eapply steps_cons; [split; [apply (es_read _ [])|]; reflexivity|].
      eapply steps_cons; [split; [apply (es_compare _ 0 [])|]; reflexivity|].
      eapply steps_cons; [split; [apply (es_stopped _ [])|]; reflexivity|].
      eapply steps_cons; [split; [apply (es_drain_take _ [] 7 [])|]; reflexivity|].
      eapply steps_cons; [split; [apply (es_drain_finish _ [] 7)|]; reflexivity|].
      apply steps_one. split; [apply (es_drained _ [])|]; reflexivity.
    - done. }
  destruct H as (e & H & Hw & Ha). exists e. split_and!; try done.
  by apply (exec_fifo 1 (mkOpts 1 1 false) e); [lia|apply fixed_steps, H|exact H|exact Hw].
Defined.
