(* ===== verification/Queued.v ===== *)
(** * Executor with priorities and work stealing

    internal/utils/executor/queued_executor.go: the three queues of each
    worker, the choice of a queue by [DoPriority] and the search of a worker
    for its next task, as functions on the list of queues. *)

From S2P Require Import Prelude.

Definition PriorityLow : Z := 0.
Definition PriorityNormal : Z := 1.
Definition PriorityHigh : Z := 2.

Record taskQueue := mkTaskQueue { q_high : list nat; q_normal : list nat; q_low : list nat }.

Definition newTaskQueue : taskQueue := mkTaskQueue [] [] [].

(** The channel for a priority. *)
Definition target (priority : Z) (q : taskQueue) : list nat :=
  if priority =? PriorityHigh then q_high q
  else if priority =? PriorityNormal then q_normal q
  else q_low q.

Definition push (size : nat) (task : nat) (priority : Z) (q : taskQueue) : option taskQueue :=
  if (length (target priority q) <? size)%nat then
    Some (if priority =? PriorityHigh then mkTaskQueue (q_high q ++ [task]) (q_normal q) (q_low q)
          else if priority =? PriorityNormal then mkTaskQueue (q_high q) (q_normal q ++ [task]) (q_low q)
          else mkTaskQueue (q_high q) (q_normal q) (q_low q ++ [task]))
  else None.

Definition popq (q : taskQueue) : option (nat * taskQueue) :=
  match q_high q, q_normal q, q_low q with
  | t :: l, n, w => Some (t, mkTaskQueue l n w)
  | [], t :: l, w => Some (t, mkTaskQueue [] l w)
  | [], [], t :: l => Some (t, mkTaskQueue [] [] l)
  | [], [], [] => None
  end.

(** Taking from another worker's queue, under its lock. *)
Definition steal (q : taskQueue) : option (nat * taskQueue) := popq q.

Definition qlen (q : taskQueue) : nat := (length (q_high q) + length (q_normal q) + length (q_low q))%nat.

Record QueuedExec := mkQueuedExec {
  qe_nonBlocking : bool;
  qe_trackStats : bool;
  qe_size : nat;
  qe_queues : list taskQueue;
  qe_closed : bool;
  qe_done : Z;
  qe_dropped : Z;
}.

Definition NewQueued (numCPU workers queueSize : Z) (nonBlocking noStats : bool) : QueuedExec :=
  let w := if workers <=? 0 then numCPU else workers in
  let n := if queueSize <=? 0 then w * 2 else queueSize in
  mkQueuedExec nonBlocking (negb noStats) (Z.to_nat n) (replicate (Z.to_nat w) newTaskQueue) false 0 0.

(** A counter, when statistics are kept. *)
Definition tally (track : bool) (n : Z) : Z := if track then addu64 n 1 else n.

Definition set_queues (qs : list taskQueue) (dropped : Z) (e : QueuedExec) : QueuedExec :=
  mkQueuedExec (qe_nonBlocking e) (qe_trackStats e) (qe_size e) qs (qe_closed e)
    (tally (qe_trackStats e) (qe_done e)) dropped.

(** Trying the queues at [idx], [idx + 1], ... in a ring, [n] of them. *)
Fixpoint pushRing (n : nat) (size task : nat) (priority : Z) (idx : nat) (qs : list taskQueue)
    : option (list taskQueue) :=
  match n with
  | O => None
  | S n =>
      let i := (idx mod length qs)%nat in
      match qs !! i ≫= push size task priority with
      | Some q => Some (<[i := q]> qs)
      | None => pushRing n size task priority (S idx) qs
      end
  end.

Inductive doResult := DoOk | ErrClosed | ErrFull.

Definition clampPriority (p : Z) : Z :=
  let p := if p <? PriorityLow then PriorityLow else p in
  if PriorityHigh <? p then PriorityHigh else p.

Definition DoPriority (now : Z) (task : nat) (priority : Z) (e : QueuedExec) : doResult * QueuedExec :=
  if qe_closed e then (ErrClosed, e)
  else
    let priority := clampPriority priority in
    let workerID := Z.to_nat (now mod Z.of_nat (length (qe_queues e))) in
    match qe_queues e !! workerID ≫= push (qe_size e) task priority with
    | Some q => (DoOk, set_queues (<[workerID := q]> (qe_queues e)) (qe_dropped e) e)
    | None =>
        let full := (ErrFull, set_queues (qe_queues e) (tally (qe_trackStats e) (qe_dropped e)) e) in
        if qe_nonBlocking e then full
        else
          match pushRing (length (qe_queues e)) (qe_size e) task priority workerID (qe_queues e) with
          | Some qs => (DoOk, set_queues qs (qe_dropped e) e)
          | None => full
          end
    end.

(** The search of worker [id]: its own queue, then the others in a ring from
    the next one; [n] of them are tried. *)
Fixpoint stealRing (n : nat) (id idx : nat) (qs : list taskQueue) : option (nat * list taskQueue) :=
  match n with
  | O => None
  | S n =>
      let i := (idx mod length qs)%nat in
      if (i =? id)%nat then stealRing n id (S idx) qs
      else
        match qs !! i ≫= steal with
        | Some (t, q) => Some (t, <[i := q]> qs)
        | None => stealRing n id (S idx) qs
        end
  end.

Definition findTask (id : nat) (qs : list taskQueue) : option (nat * list taskQueue) :=
  match qs !! id ≫= popq with
  | Some (t, q) => Some (t, <[id := q]> qs)
  | None => stealRing (length qs) id (id + 1) qs
  end.

(** * Work is conserved *)

Definition tasks_of (q : taskQueue) : list nat := q_high q ++ q_normal q ++ q_low q.
Definition all_tasks (qs : list taskQueue) : list nat := qs ≫= tasks_of.

Lemma push_tasks size t p q q' : push size t p q = Some q' -> tasks_of q' ≡ₚ t :: tasks_of q.
Proof.
  unfold push, tasks_of. case_match; [|done]. intros [= <-]. destruct q as [h n l].
  repeat case_match; cbn [q_high q_normal q_low].
  - by rewrite (Permutation_app_comm h [t]).
  - rewrite (Permutation_app_comm n [t]). cbn [app]. by rewrite <- (Permutation_middle h).
  - rewrite (Permutation_app_comm l [t]). cbn [app].
    by rewrite <- (Permutation_middle n), <- (Permutation_middle h).
Qed.

Lemma push_room size t p q : is_Some (push size t p q) <-> (length (target p q) < size)%nat.
Proof.
  unfold push. destruct (Nat.ltb_spec (length (target p q)) size).
  - split; [done|eauto].
  - split; [by intros [? ?]|lia].
Qed.

(** High before normal before low, each first in first out. *)
Lemma popq_perm q t q' : popq q = Some (t, q') -> tasks_of q = t :: tasks_of q'.
Proof. destruct q as [[|? h] [|? n] [|? l]]; unfold popq; cbn; intros [=]; by subst. Qed.

Lemma popq_none q : popq q = None <-> tasks_of q = [].
Proof. destruct q as [[|? h] [|? n] [|? l]]; unfold popq, tasks_of; cbn; split; done. Qed.

Lemma bind_insert_perm {A B} (f : A -> list B) l i x y :
  l !! i = Some x ->
  exists rest, l ≫= f ≡ₚ f x ++ rest /\ <[i := y]> l ≫= f ≡ₚ f y ++ rest.
Proof.
  intros Hi. apply list_elem_of_split_length in Hi as (l1 & l2 & -> & ->).
  exists ((l1 ≫= f) ++ (l2 ≫= f)).
  rewrite insert_app_r_alt, Nat.sub_diag by done. cbn [insert list_insert].
  rewrite !bind_app, !bind_cons. split; by rewrite !app_assoc, (Permutation_app_comm (l1 ≫= _)).
Qed.

Lemma all_tasks_insert qs i q q' :
  qs !! i = Some q ->
  exists rest, all_tasks qs ≡ₚ tasks_of q ++ rest /\ all_tasks (<[i := q']> qs) ≡ₚ tasks_of q' ++ rest.
Proof. apply bind_insert_perm. Qed.

Lemma all_tasks_nil qs : all_tasks qs = [] <-> forall i q, qs !! i = Some q -> tasks_of q = [].
Proof.
  unfold all_tasks. induction qs as [|q qs IH]; [done|]. rewrite bind_cons, app_nil, IH. split.
  - intros [Hq H] [|i] q'; simpl; [by intros [= <-]|apply H].
  - intros H. split; [by apply (H 0%nat)|]. intros i q'. apply (H (S i)).
Qed.

(** A ring of [length qs] indices from [idx] meets every index. *)
Lemma ring_covers n len idx i :
  (i < len)%nat -> (len <= n)%nat -> exists k, (k < n)%nat /\ ((idx + k) mod len = i)%nat.
Proof.
  intros Hi Hn. pose proof (Nat.mod_upper_bound idx len ltac:(lia)) as Hr.
  pose proof (Nat.div_mod_eq idx len) as Hd.
  destruct (decide (idx mod len <= i)%nat) as [Hle|Hgt].
  - exists (i - idx mod len)%nat. split; [lia|]. symmetry.
    apply (Nat.mod_unique _ _ (idx / len)); lia.
  - exists (i + len - idx mod len)%nat. split; [lia|]. symmetry.
    apply (Nat.mod_unique _ _ (idx / len + 1)); nia.
Qed.

Lemma pushRing_spec n size t p idx qs :
  (length qs > 0)%nat ->
  match pushRing n size t p idx qs with
  | Some qs' => all_tasks qs' ≡ₚ t :: all_tasks qs /\ length qs' = length qs
  | None => forall k, (k < n)%nat -> forall q, qs !! ((idx + k) mod length qs)%nat = Some q ->
              (size <= length (target p q))%nat
  end.
Proof.
  intros Hl. revert idx. induction n as [|n IH]; intros idx; cbn [pushRing]; [lia|].
  destruct (lookup_lt_is_Some_2 qs (idx mod length qs)) as [q Hq].
  { apply Nat.mod_upper_bound. lia. }
  rewrite Hq. simpl. destruct (push size t p q) as [q'|] eqn:Ep.
  - destruct (all_tasks_insert qs _ q q' Hq) as (rest & E1 & E2). rewrite length_insert.
    split; [|done]. by rewrite E2, E1, (push_tasks _ _ _ _ _ Ep).
  - specialize (IH (S idx)). destruct (pushRing n size t p (S idx) qs); [done|].
    intros [|k] Hk q2.
    + rewrite Nat.add_0_r, Hq. intros [= <-].
      destruct (decide (length (target p q) < size)%nat) as [E|E]; [|lia].
      apply (push_room size t) in E as [? E]. congruence.
    + replace (idx + S k)%nat with (S idx + k)%nat by lia. apply IH. lia.
Qed.

Lemma stealRing_spec n id idx qs :
  (length qs > 0)%nat ->
  match stealRing n id idx qs with
  | Some (t, qs') => all_tasks qs ≡ₚ t :: all_tasks qs' /\ length qs' = length qs
  | None => forall k, (k < n)%nat -> ((idx + k) mod length qs)%nat <> id ->
              forall q, qs !! ((idx + k) mod length qs)%nat = Some q -> tasks_of q = []
  end.
Proof.
  intros Hl. revert idx. induction n as [|n IH]; intros idx; cbn [stealRing]; [lia|].
  specialize (IH (S idx)).
  assert (Hnext : forall (P : nat -> Prop), P (idx mod length qs)%nat ->
    (forall k, (k < n)%nat -> P ((S idx + k) mod length qs)%nat) ->
    forall k, (k < S n)%nat -> P ((idx + k) mod length qs)%nat).
  { intros P H0 H [|k] Hk; [by rewrite Nat.add_0_r|].
    replace (idx + S k)%nat with (S idx + k)%nat by lia. apply H. lia. }
  destruct (Nat.eqb_spec (idx mod length qs) id) as [Heq|Hne].
  - destruct (stealRing n id (S idx) qs) as [[t qs']|]; [done|].
    apply (Hnext (fun i => i <> id -> forall q, qs !! i = Some q -> tasks_of q = [])); [done|apply IH].
  - destruct (lookup_lt_is_Some_2 qs (idx mod length qs)) as [q Hq].
    { apply Nat.mod_upper_bound. lia. }
    rewrite Hq. cbn [mbind option_bind]. unfold steal. destruct (popq q) as [[t q']|] eqn:Ep.
    + destruct (all_tasks_insert qs _ q q' Hq) as (rest & E1 & E2). rewrite length_insert.
      split; [|done]. by rewrite E1, E2, (popq_perm _ _ _ Ep).
    + destruct (stealRing n id (S idx) qs) as [[t qs']|]; [done|].
      apply (Hnext (fun i => i <> id -> forall q, qs !! i = Some q -> tasks_of q = [])); [|apply IH].
      intros _ q2. rewrite Hq. intros [= <-]. by apply popq_none.
Qed.

Lemma findTask_spec id qs :
  (length qs > 0)%nat ->
  match findTask id qs with
  | Some (t, qs') => all_tasks qs ≡ₚ t :: all_tasks qs' /\ length qs' = length qs
  | None => all_tasks qs = []
  end.
Proof.
  intros Hl. unfold findTask.
  destruct (qs !! id ≫= popq) as [[t q']|] eqn:E.
  - apply bind_Some in E as (q & Hq & Ep).
    destruct (all_tasks_insert qs _ q q' Hq) as (rest & E1 & E2). rewrite length_insert.
    split; [|done]. by rewrite E1, E2, (popq_perm _ _ _ Ep).
  - pose proof (stealRing_spec (length qs) id (id + 1) qs Hl) as H.
    destruct (stealRing _ id (id + 1) qs) as [[t qs']|]; [done|].
    apply all_tasks_nil. intros i q Hi. destruct (decide (i = id)) as [->|Hne].
    + rewrite Hi in E. by apply popq_none.
    + destruct (ring_covers (length qs) (length qs) (id + 1) i) as (k & Hk & Hik);
        [by eapply lookup_lt_Some|done|].
      apply (H k Hk); by rewrite Hik.
Qed.

(** Work is conserved: a task is refused for want of room only when, in
    blocking mode, the queue of its priority is full at every worker; an
    accepted task is added to one queue and nothing else changes; and a
    worker looking for a task finds one, and takes exactly it, unless no
    queue of any worker holds a task. *)
Theorem queued_work now t p id e :
  (0 < length (qe_queues e))%nat ->
  (match DoPriority now t p e with
   | (DoOk, e') => all_tasks (qe_queues e') ≡ₚ t :: all_tasks (qe_queues e) /\ qe_closed e = false
   | (ErrFull, e') => qe_queues e' = qe_queues e /\
       (qe_nonBlocking e = false -> forall i q, qe_queues e !! i = Some q ->
          (qe_size e <= length (target (clampPriority p) q))%nat)
   | (ErrClosed, e') => e' = e /\ qe_closed e = true
   end) /\
  match findTask id (qe_queues e) with
  | Some (t', qs') => all_tasks (qe_queues e) ≡ₚ t' :: all_tasks qs'
  | None => all_tasks (qe_queues e) = []
  end.
Proof.
  intros Hl. split.
  - unfold DoPriority. destruct (qe_closed e); [done|]. cbn zeta.
    set (w := Z.to_nat (now mod _)).
    destruct (qe_queues e !! w ≫= _) as [q'|] eqn:E.
    + apply bind_Some in E as (q & Hq & Ep). cbn [set_queues qe_queues].
      destruct (all_tasks_insert _ _ q q' Hq) as (rest & E1 & E2).
      split; [|done]. by rewrite E2, E1, (push_tasks _ _ _ _ _ Ep).
    + destruct (qe_nonBlocking e); [done|].
      pose proof (pushRing_spec (length (qe_queues e)) (qe_size e) t (clampPriority p) w _ Hl) as H.
      destruct (pushRing _ _ _ _ _ _) as [qs'|]; cbn [set_queues qe_queues]; [by destruct H|].
      split; [done|]. intros _ i q Hi.
      destruct (ring_covers (length (qe_queues e)) (length (qe_queues e)) w i) as (k & Hk & Hik);
        [by eapply lookup_lt_Some|done|].
      apply (H k Hk). by rewrite Hik.
  - pose proof (findTask_spec id (qe_queues e) Hl) as H.
    destruct (findTask id (qe_queues e)) as [[t' qs']|]; [by destruct H|done].
Qed.

(** Worker 1 takes the urgent task first, worker 0 steals the other. *)
Lemma queued_work_witness :
  let e0 := NewQueued 1 2 1 false false in
  let e1 := snd (DoPriority 1 7 0 e0) in
  let e := snd (DoPriority 1 8 5 e1) in
  fst (DoPriority 1 9 2 e) = DoOk /\
  option_map fst (findTask 1 (qe_queues e)) = Some 8%nat /\
  option_map fst (findTask 0 (qe_queues e1)) = Some 7%nat /\
  (match findTask 0 (qe_queues e) with
   | Some (t', qs') => all_tasks (qe_queues e) ≡ₚ t' :: all_tasks qs'
   | None => all_tasks (qe_queues e) = []
   end).
Proof.
  intros e0 e1 e. split_and!; [vm_compute; reflexivity..|].
  apply (queued_work 0 0 0 0 e). vm_compute. lia.
Defined.
