(* ===== verification/QueuedConc.v ===== *)
(** * The queued executor under concurrency

    internal/utils/executor/queued_executor.go with every access to a channel
    or an atomic variable as a step of its own: the workers' loops, calls of
    [DoPriority], [DoCtxPriority], [Resize], [Wait] and [Stop] run interleaved
    in any order.  [Queued] has the same operations without interference.

    The mutex of a queue only keeps one thief from another; leaving it out
    allows more interleavings. *)

From S2P Require Import Prelude Queued.

(** * State *)

(** What the goroutines share; [x_accepted] and [x_finished] record the tasks
    a push has taken and the tasks that have been run. *)
Record shared := mkShared {
  x_queues : list taskQueue;
  x_cap : Z;
  x_running : Z;
  x_wg : Z;
  x_closed : bool;
  x_stop : bool;
  x_locked : bool;
  x_done : Z;
  x_dropped : Z;
  x_accepted : list nat;
  x_finished : list nat;
}.

(** Program points of a worker, each named after what it does next.
    [QTake k lvl] looks at channel [lvl] of the [k]-th queue of the search;
    number 0 is the worker's own queue. *)
Inductive qworker :=
  | QLoad | QCap (running : Z) | QClosed | QTake (k lvl : nat) | QIdle | QRun (t : nat)
  | QDone | QDec | QGone.

(** Errors of the calls. *)
Inductive qerr := EClosed | EFull | ECtx | EInvalid (n : Z) | EWait | EStop (remaining : Z).

(** Program points of a call. *)
Inductive qcall :=
  | DoClosed (t : nat) (p : Z) | DoAdd (t : nat) (p : Z) | DoPush (t : nat) (p : Z) (w : nat)
  | DoRing (t : nat) (p : Z) (w i : nat) | DoEnd
  | CtxClosed (t : nat) (p : Z) | CtxDone (t : nat) (p : Z)
  | RsCheck (n : Z) | RsLock (n : Z) | RsGrow (i : nat) (n : Z) | RsStore (n : Z)
  | WtCheck | WtTick (empty : nat) | WtPoll (empty n i : nat) (total : Z)
  | SpSwap | SpClose | SpWait | SpDone | SpTimeout | SpStore (r : option qerr)
  | Ret (r : option qerr).

Record qstate := mkQState { z_shared : shared; z_workers : list (nat * qworker); z_calls : list qcall }.

(** * Updates of the shared state *)

Definition set_xqueues (qs : list taskQueue) (s : shared) : shared :=
  mkShared qs (x_cap s) (x_running s) (x_wg s) (x_closed s) (x_stop s) (x_locked s) (x_done s) (x_dropped s)
    (x_accepted s) (x_finished s).
Definition set_xcap (cap : Z) (locked : bool) (s : shared) : shared :=
  mkShared (x_queues s) cap (x_running s) (x_wg s) (x_closed s) (x_stop s) locked (x_done s) (x_dropped s)
    (x_accepted s) (x_finished s).
Definition set_xrunning (running wg : Z) (s : shared) : shared :=
  mkShared (x_queues s) (x_cap s) running wg (x_closed s) (x_stop s) (x_locked s) (x_done s) (x_dropped s)
    (x_accepted s) (x_finished s).
Definition set_xclosed (closed stop : bool) (s : shared) : shared :=
  mkShared (x_queues s) (x_cap s) (x_running s) (x_wg s) closed stop (x_locked s) (x_done s) (x_dropped s)
    (x_accepted s) (x_finished s).
Definition set_xstats (done dropped : Z) (s : shared) : shared :=
  mkShared (x_queues s) (x_cap s) (x_running s) (x_wg s) (x_closed s) (x_stop s) (x_locked s) done dropped
    (x_accepted s) (x_finished s).
Definition set_xghost (accepted finished : list nat) (s : shared) : shared :=
  mkShared (x_queues s) (x_cap s) (x_running s) (x_wg s) (x_closed s) (x_stop s) (x_locked s) (x_done s)
    (x_dropped s) accepted finished.

(** * Workers *)

(** One of the three selects of [pop] and of [steal]. *)
Definition takeLevel (lvl : nat) (q : taskQueue) : option (nat * taskQueue) :=
  match lvl, q with
  | O, mkTaskQueue (t :: l) n w => Some (t, mkTaskQueue l n w)
  | 1%nat, mkTaskQueue h (t :: l) w => Some (t, mkTaskQueue h l w)
  | 2%nat, mkTaskQueue h n (t :: l) => Some (t, mkTaskQueue h n l)
  | _, _ => None
  end.

(** The queue the search of worker [id] looks at in round [k] of [n]; [None]
    past the last round. *)
Definition searchIndex (id k n : nat) : option nat :=
  if (k =? 0)%nat then Some id else if (k <=? n)%nat then Some ((id + k) mod n)%nat else None.

(** The steps of the goroutine of [startWorker]; [c] is the choice of a
    select when it has one.  [None]: blocked, gone, or an index out of
    range. *)
Definition wstep (c : bool) (id : nat) (s : shared) (w : qworker) : option (shared * qworker) :=
  match w with
  | QLoad => Some (s, QCap (x_running s))
  | QCap running => Some (s, if (x_cap s <? running) && (0 <? x_cap s) then QClosed else QTake 0 0)
  | QClosed => Some (s, if x_closed s then QTake 0 0 else QDone)
  | QTake k lvl =>
      match searchIndex id k (length (x_queues s)) with
      | None => Some (s, QIdle)
      | Some i =>
          if (0 <? k)%nat && (i =? id)%nat then Some (s, QTake (S k) 0)
          else
            match x_queues s !! i with
            | None => None
            | Some q =>
                match takeLevel lvl q with
                | Some (t, q') => Some (set_xqueues (<[i := q']> (x_queues s)) s, QRun t)
                | None => Some (s, if (lvl <? 2)%nat then QTake k (S lvl) else QTake (S k) 0)
                end
            end
      end
  | QIdle => if c then (if x_stop s then Some (s, QDone) else None) else Some (s, QLoad)
  | QRun t => Some (set_xghost (x_accepted s) (x_finished s ++ [t]) s, QLoad)
  | QDone => Some (set_xrunning (x_running s) (x_wg s - 1) s, QDec)
  | QDec => Some (set_xrunning (sint 32 (x_running s - 1)) (x_wg s) s, QGone)
  | QGone => None
  end.

(** [startWorker]: the counters; the goroutine starts at the top of its
    loop. *)
Definition startWorker (s : shared) : shared := set_xrunning (sint 32 (x_running s + 1)) (x_wg s + 1) s.

(** * Calls *)

Section calls.
Context (size : nat) (nonBlocking trackStats : bool).

(** A push to the queue at [i]. *)
Definition pushAt (t : nat) (p : Z) (i : nat) (s : shared) : option shared :=
  match x_queues s !! i ≫= push size t p with
  | Some q => Some (set_xghost (x_accepted s ++ [t]) (x_finished s) (set_xqueues (<[i := q]> (x_queues s)) s))
  | None => None
  end.

Definition countDone (s : shared) : shared := set_xstats (tally trackStats (x_done s)) (x_dropped s) s.
Definition countDropped (s : shared) : shared := set_xstats (x_done s) (tally trackStats (x_dropped s)) s.

(** [DoPriority] after the test of its arguments. *)
Definition doStep (now : Z) (s : shared) (c : qcall) : option (shared * qcall) :=
  match c with
  | DoClosed t p => Some (s, if x_closed s then Ret (Some EClosed) else DoAdd t (clampPriority p))
  | DoAdd t p => Some (countDone s, DoPush t p (Z.to_nat (now mod Z.of_nat (length (x_queues s)))))
  | DoPush t p w =>
      match pushAt t p w s with
      | Some s' => Some (s', Ret None)
      | None => if nonBlocking then Some (countDropped s, Ret (Some EFull)) else Some (s, DoRing t p w 0)
      end
  | DoRing t p w i =>
      if (i <? length (x_queues s))%nat then
        match pushAt t p ((w + i) mod length (x_queues s)) s with
        | Some s' => Some (s', Ret None)
        | None => Some (s, DoRing t p w (S i))
        end
      else Some (s, DoEnd)
  | DoEnd => if x_stop s then Some (s, Ret (Some EClosed)) else Some (countDropped s, Ret (Some EFull))
  | _ => None
  end.

(** [DoCtxPriority]; [c]: the context is done. *)
Definition ctxStep (c : bool) (s : shared) (q : qcall) : option (shared * qcall) :=
  match q with
  | CtxClosed t p => Some (s, if x_closed s then Ret (Some EClosed) else CtxDone t p)
  | CtxDone t p => Some (s, if c then Ret (Some ECtx) else DoClosed t (clampPriority p))
  | _ => None
  end.

(** [Resize]; a worker it starts comes with the result. *)
Definition resizeStep (s : shared) (q : qcall) : option (shared * qcall * option nat) :=
  match q with
  | RsCheck n =>
      Some (s, if n <=? 0 then Ret (Some (EInvalid n)) else if x_closed s then Ret (Some EClosed) else RsLock n, None)
  | RsLock n =>
      if x_locked s then None
      else if n =? x_cap s then Some (s, Ret None, None)
      else Some (set_xcap (x_cap s) true s,
                 if x_cap s <? n then RsGrow (Z.to_nat (x_cap s)) n else RsStore n, None)
  | RsGrow i n =>
      if Z.of_nat i <? n then
        let qs := if (i <? length (x_queues s))%nat then x_queues s else x_queues s ++ [newTaskQueue] in
        Some (startWorker (set_xqueues qs s), RsGrow (S i) n, Some i)
      else Some (s, RsStore n, None)
  | RsStore n => Some (set_xcap (sint 32 n) false s, Ret None, None)
  | _ => None
  end.

(** The length of channel [i mod 3] of queue [i / 3]. *)
Definition chanLen (i : nat) (s : shared) : option nat :=
  match x_queues s !! (i / 3)%nat with
  | Some q => Some (length (match (i mod 3)%nat with O => q_high q | 1%nat => q_normal q | _ => q_low q end))
  | None => None
  end.

(** [Wait]; [c]: its timeout has passed.  A poll reads the channels of the
    [n] queues there were at the tick, one after another. *)
Definition waitStep (c : bool) (s : shared) (q : qcall) : option (shared * qcall) :=
  match q with
  | WtCheck => Some (s, if x_closed s then Ret (Some EClosed) else WtTick 0)
  | WtTick empty => Some (s, if c then Ret (Some EWait) else WtPoll empty (length (x_queues s)) 0 0)
  | WtPoll empty n i total =>
      if (i <? 3 * n)%nat then
        match chanLen i s with
        | Some k => Some (s, WtPoll empty n (S i) (total + Z.of_nat k))
        | None => None
        end
      else Some (s, if total =? 0 then (if (10 <=? S empty)%nat then Ret None else WtTick (S empty)) else WtTick 0)
  | _ => None
  end.

(** [Stop]; [c]: its timeout has passed. *)
Definition stopStep (c : bool) (s : shared) (q : qcall) : option (shared * qcall) :=
  match q with
  | SpSwap => if x_closed s then Some (s, Ret None) else Some (set_xclosed true (x_stop s) s, SpClose)
  | SpClose => Some (set_xclosed (x_closed s) true s, SpWait)
  | SpWait => if c then Some (s, SpTimeout) else if x_wg s =? 0 then Some (s, SpDone) else None
  | SpDone => Some (s, if x_running s =? 0 then Ret None else SpStore None)
  | SpTimeout => Some (s, SpStore (Some (EStop (x_running s))))
  | SpStore r => Some (set_xrunning 0 (x_wg s) s, Ret r)
  | _ => None
  end.

Definition noWorker (r : option (shared * qcall)) : option (shared * qcall * option nat) :=
  match r with Some (s, q) => Some (s, q, None) | None => None end.

Definition cstep (c : bool) (now : Z) (s : shared) (q : qcall) : option (shared * qcall * option nat) :=
  match q with
  | DoClosed _ _ | DoAdd _ _ | DoPush _ _ _ | DoRing _ _ _ _ | DoEnd => noWorker (doStep now s q)
  | CtxClosed _ _ | CtxDone _ _ => noWorker (ctxStep c s q)
  | RsCheck _ | RsLock _ | RsGrow _ _ | RsStore _ => resizeStep s q
  | WtCheck | WtTick _ | WtPoll _ _ _ _ => noWorker (waitStep c s q)
  | SpSwap | SpClose | SpWait | SpDone | SpTimeout | SpStore _ => noWorker (stopStep c s q)
  | Ret _ => None
  end.

(** * Interleavings *)

(** A step of worker [i], a step of call [j] at time [now], a new call. *)
Inductive act := AWorker (i : nat) (c : bool) | ACall (j : nat) (c : bool) (now : Z) | ANew (q : qcall).

(** The program points at which a call begins. *)
Definition entry (q : qcall) : bool :=
  match q with DoClosed _ _ | CtxClosed _ _ | RsCheck _ | WtCheck | SpSwap => true | _ => false end.

Definition exec (z : qstate) (a : act) : option qstate :=
  match a with
  | AWorker i c =>
      match z_workers z !! i with
      | None => None
      | Some (id, w) =>
          match wstep c id (z_shared z) w with
          | None => None
          | Some (s, w') => Some (mkQState s (<[i := (id, w')]> (z_workers z)) (z_calls z))
          end
      end
  | ACall j c now =>
      match z_calls z !! j with
      | None => None
      | Some q =>
          match cstep c now (z_shared z) q with
          | None => None
          | Some (s, q', new) =>
              Some (mkQState s (z_workers z ++ ((fun id => (id, QLoad)) <$> option_list new))
                      (<[j := q']> (z_calls z)))
          end
      end
  | ANew q => if entry q then Some (mkQState (z_shared z) (z_workers z) (z_calls z ++ [q])) else None
  end.

Fixpoint execs (z : qstate) (l : list act) : option qstate :=
  match l with
  | [] => Some z
  | a :: l => match exec z a with Some z' => execs z' l | None => None end
  end.
End calls.

(** [NewQueued]: the executor with its workers started. *)
Definition start (e : QueuedExec) : qstate :=
  let n := length (qe_queues e) in
  mkQState (Nat.iter n startWorker (mkShared (qe_queues e) (sint 32 (Z.of_nat n)) 0 0 false false false 0 0 [] []))
    ((fun id => (id, QLoad)) <$> seq 0 n) [].

(** [Stats]. *)
Record QStats := mkQStats { qs_Cap : Z; qs_Running : Z; qs_Queued : nat; qs_Done : Z; qs_Dropped : Z }.
Definition QueuedStats (trackStats : bool) (s : shared) : QStats :=
  mkQStats (x_cap s) (x_running s) (sum_list (qlen <$> x_queues s))
    (if trackStats then x_done s else 0) (if trackStats then x_dropped s else 0).

(** How long [Stop] waits. *)
Definition stopTimeout (timeout cap : Z) : Z :=
  let second := 1000000000 in
  if timeout <=? 0 then
    (if 100 <? cap then Z.min (10 * second + cap / 100 * 100000000) (30 * second) else 10 * second)
  else timeout.

(** * The invariant *)

Definition running_task (w : nat * qworker) : list nat := match w.2 with QRun t => [t] | _ => [] end.
Definition busy (ws : list (nat * qworker)) : list nat := ws ≫= running_task.

(** Workers that still count in the WaitGroup, and in [running]. *)
Definition in_wg (w : nat * qworker) : list unit := match w.2 with QDec | QGone => [] | _ => [tt] end.
Definition in_running (w : nat * qworker) : list unit := match w.2 with QGone => [] | _ => [tt] end.
Definition count {A} (f : A -> list unit) (l : list A) : Z := Z.of_nat (length (l ≫= f)).

Definition within (size : nat) (q : taskQueue) : Prop :=
  (length (q_high q) <= size /\ length (q_normal q) <= size /\ length (q_low q) <= size)%nat.

(** What a call in progress knows. *)
Definition call_ok (s : shared) (q : qcall) : Prop :=
  match q with
  | RsGrow i n => (i <= length (x_queues s))%nat /\ Z.of_nat i <= n /\ 0 < n
  | RsStore n => 0 < n <= Z.of_nat (length (x_queues s))
  | RsLock n => 0 < n
  | SpWait | SpDone | SpTimeout | SpStore _ => x_stop s = true
  | SpClose => x_closed s = true
  | _ => True
  end.

Record queued_ok (size : nat) (z : qstate) : Prop := {
  ok_tasks : x_accepted (z_shared z) ≡ₚ
    all_tasks (x_queues (z_shared z)) ++ busy (z_workers z) ++ x_finished (z_shared z);
  ok_room : Forall (within size) (x_queues (z_shared z));
  ok_ids : Forall (fun w => (w.1 < length (x_queues (z_shared z)))%nat) (z_workers z);
  ok_len : (0 < length (x_queues (z_shared z)))%nat;
  ok_cap : x_cap (z_shared z) <= Z.of_nat (length (x_queues (z_shared z)));
  ok_wg : x_wg (z_shared z) = count in_wg (z_workers z);
  ok_running : x_stop (z_shared z) = false -> x_running (z_shared z) = sint 32 (count in_running (z_workers z));
  ok_closed : x_stop (z_shared z) = true -> x_closed (z_shared z) = true;
  ok_calls : Forall (call_ok (z_shared z)) (z_calls z);
}.

Lemma busy_insert ws i w w' :
  ws !! i = Some w ->
  exists rest, busy ws ≡ₚ running_task w ++ rest /\ busy (<[i := w']> ws) ≡ₚ running_task w' ++ rest.
Proof. apply bind_insert_perm. Qed.

Lemma count_insert {A} (f : A -> list unit) l i x y :
  l !! i = Some x ->
  count f (<[i := y]> l) = count f l - Z.of_nat (length (f x)) + Z.of_nat (length (f y)).
Proof.
  intros Hi. destruct (bind_insert_perm f l i x y Hi) as (rest & E1 & E2). unfold count.
  rewrite E1, E2, !length_app. lia.
Qed.

Lemma takeLevel_perm lvl q t q' : takeLevel lvl q = Some (t, q') -> tasks_of q ≡ₚ t :: tasks_of q'.
Proof.
  destruct q as [h n w]. unfold takeLevel, tasks_of. destruct lvl as [|[|[|]]]; [..|done].
  - destruct h; intros [= -> <-]. done.
  - destruct n as [|? n]; intros [= -> <-]; cbn [q_high q_normal q_low]. cbn [app]. by rewrite <- Permutation_middle.
  - destruct w as [|? w]; intros [= -> <-]; cbn [q_high q_normal q_low]. cbn [app].
    by rewrite <- (Permutation_middle n w), <- Permutation_middle.
Qed.

Lemma takeLevel_within size lvl q t q' : within size q -> takeLevel lvl q = Some (t, q') -> within size q'.
Proof.
  destruct q as [h n w]. unfold within, takeLevel. destruct lvl as [|[|[|]]]; [..|done].
  - destruct h; intros ? [= -> <-]. cbn in *. lia.
  - destruct n as [|? n]; intros ? [= -> <-]; cbn in *. lia.
  - destruct w as [|? w]; intros ? [= -> <-]; cbn in *. lia.
Qed.

Lemma push_within size t p q q' : within size q -> push size t p q = Some q' -> within size q'.
Proof.
  unfold within, push, target. intros Hq.
  destruct (Nat.ltb_spec (length (if p =? PriorityHigh then q_high q
     else if p =? PriorityNormal then q_normal q else q_low q)) size) as [E|]; [|done]. intros [= <-].
  destruct (p =? PriorityHigh), (p =? PriorityNormal);
    cbn [q_high q_normal q_low] in *; rewrite ?length_app; cbn [length]; lia.
Qed.

Lemma searchIndex_lt id k n i : (id < n)%nat -> searchIndex id k n = Some i -> (i < n)%nat.
Proof.
  unfold searchIndex. intros Hid. repeat case_match; intros [= <-]; [done|].
  apply Nat.mod_upper_bound. lia.
Qed.

(** * Every step keeps it *)

Section preserve.
Context (size : nat) (nonBlocking trackStats : bool).

(** What a call in progress knows survives a change of the shared state that
    removes no queue and reopens nothing. *)
Lemma call_ok_mono s s' q :
  (length (x_queues s) <= length (x_queues s'))%nat ->
  (x_stop s = true -> x_stop s' = true) -> (x_closed s = true -> x_closed s' = true) ->
  call_ok s q -> call_ok s' q.
Proof. intros Hl Hs Hc. destruct q; cbn [call_ok]; try done; lia || tauto || (split; lia). Qed.

(** What a step of a worker can be. *)
Inductive weffect (s : shared) : qworker -> shared -> qworker -> Prop :=
  | eff_move w w' :
      running_task (0%nat, w) = [] -> running_task (0%nat, w') = [] ->
      in_wg (0%nat, w) = [tt] -> in_wg (0%nat, w') = [tt] -> weffect s w s w'
  | eff_take k lvl i q t q' :
      x_queues s !! i = Some q -> takeLevel lvl q = Some (t, q') ->
      weffect s (QTake k lvl) (set_xqueues (<[i := q']> (x_queues s)) s) (QRun t)
  | eff_run t : weffect s (QRun t) (set_xghost (x_accepted s) (x_finished s ++ [t]) s) QLoad
  | eff_done : weffect s QDone (set_xrunning (x_running s) (x_wg s - 1) s) QDec
  | eff_dec : weffect s QDec (set_xrunning (sint 32 (x_running s - 1)) (x_wg s) s) QGone.

Lemma wstep_effect c id s w s' w' : wstep c id s w = Some (s', w') -> weffect s w s' w'.
Proof.
  destruct w; cbn [wstep]; try (intros [= <- <-]; by constructor).
  - intros [= <- <-]. by case_match; constructor.
  - intros [= <- <-]. by case_match; constructor.
  - destruct (searchIndex _ _ _) as [i|]; [|intros [= <- <-]; by constructor].
    case_match; [intros [= <- <-]; by constructor|].
    destruct (x_queues s !! i) as [q|] eqn:Eq; [|done].
    destruct (takeLevel lvl q) as [[t q']|] eqn:Et; intros [= <- <-]; [by eapply eff_take|].
    by case_match; constructor.
  - destruct c; [destruct (x_stop s); [|done]|]; intros [= <- <-]; by constructor.
Qed.

Lemma in_wg_running id w : in_wg (id, w) = [tt] -> in_running (id, w) = [tt].
Proof. by destruct w. Qed.

Lemma worker_ok z i c id w s w' :
  queued_ok size z -> z_workers z !! i = Some (id, w) -> wstep c id (z_shared z) w = Some (s, w') ->
  queued_ok size (mkQState s (<[i := (id, w')]> (z_workers z)) (z_calls z)).
Proof.
  intros [Ht Hr Hi Hl Hc Hwg Hrun Hcl Hca] Hw Hs%wstep_effect.
  destruct (busy_insert _ _ _ (id, w') Hw) as (rest & E1 & E2).
  assert (Hid : (id < length (x_queues (z_shared z)))%nat) by (by eapply (Forall_lookup_1 _ _ _ _ Hi Hw)).
  pose proof (count_insert in_wg _ _ _ (id, w') Hw) as N1.
  pose proof (count_insert in_running _ _ _ (id, w') Hw) as N2.
  pose proof (Forall_insert _ (z_workers z) i (id, w') Hi Hid) as Hi'.
  destruct z as [s0 ws cs]. cbn [z_shared z_workers z_calls] in *. rewrite E1 in Ht.
  destruct Hs as [w w' T1 T2 G1 G2|k lvl j q t q' Hq Et|t| |];
    (split; cbn [z_shared z_workers z_calls set_xqueues set_xghost set_xrunning x_queues x_cap x_running
       x_wg x_closed x_stop x_accepted x_finished]; rewrite ?length_insert; try done).
  - change (running_task (0%nat, w)) with (running_task (id, w)) in T1.
    change (running_task (0%nat, w')) with (running_task (id, w')) in T2.
    rewrite E2, T2. by rewrite T1 in Ht.
  - rewrite N1. change (in_wg (id, w)) with (in_wg (0%nat, w)). change (in_wg (id, w')) with (in_wg (0%nat, w')).
    rewrite G1, G2. cbn. lia.
  - intros Hx. rewrite N2. rewrite (in_wg_running id w G1), (in_wg_running id w' G2). rewrite Hrun by done.
    f_equal. cbn. lia.
  - rewrite E2. cbn [running_task app] in *.
    destruct (all_tasks_insert _ _ q q' Hq) as (rest' & F1 & F2).
    rewrite Ht, F1, F2, (takeLevel_perm _ _ _ _ Et). cbn [app].
    by rewrite (Permutation_middle (tasks_of q' ++ rest')).
  - apply Forall_insert; [done|]. eapply takeLevel_within; [|done]. by eapply Forall_lookup_1.
  - rewrite N1. cbn. lia.
  - intros Hx. rewrite N2, Hrun by done. f_equal. cbn. lia.
  - eapply Forall_impl; [exact Hca|]. intros q0. apply call_ok_mono; cbn; rewrite ?length_insert; done || lia.
  - rewrite E2. cbn [running_task snd app] in *. rewrite Ht, (Permutation_app_comm (x_finished s0) [t]). cbn [app].
    by rewrite (Permutation_middle rest).
  - rewrite N1. cbn. lia.
  - intros Hx. rewrite N2, Hrun by done. f_equal. cbn. lia.
  - rewrite E2. exact Ht.
  - rewrite N1. cbn. lia.
  - intros Hx. rewrite N2, Hrun by done. f_equal. cbn. lia.
  - rewrite E2. exact Ht.
  - rewrite N1. cbn. lia.
  - intros Hx. rewrite N2, Hrun by done. unfold Z.sub at 1. rewrite sint_add_l by lia. f_equal. cbn. lia.
Qed.
(** The shared state [s'] differs from [s] in what the workers, the queues
    and the WaitGroup do not care about. *)
Record calm (s s' : shared) : Prop := {
  calm_queues : x_queues s' = x_queues s;
  calm_wg : x_wg s' = x_wg s;
  calm_accepted : x_accepted s' = x_accepted s;
  calm_finished : x_finished s' = x_finished s;
  calm_cap : x_cap s' <= Z.of_nat (length (x_queues s));
  calm_running : x_stop s' = false -> x_running s' = x_running s;
  calm_stop : x_stop s = true -> x_stop s' = true;
  calm_closed : x_closed s = true -> x_closed s' = true;
  calm_both : x_stop s' = true -> x_closed s' = true;
}.

Lemma calm_ok z j s' q' :
  queued_ok size z -> calm (z_shared z) s' -> call_ok s' q' ->
  queued_ok size (mkQState s' (z_workers z) (<[j := q']> (z_calls z))).
Proof.
  intros [Ht Hr Hi Hl Hc Hwg Hrun Hcl Hca] [C1 C2 C3 C4 C5 C6 C7 C8 C9] Hq.
  split; cbn [z_shared z_workers z_calls]; rewrite ?C1, ?C2, ?C3, ?C4; try done.
  - intros Hs. rewrite C6 by done. apply Hrun. destruct (x_stop (z_shared z)); [|done]. by rewrite C7 in Hs.
  - apply Forall_insert; [|done]. eapply Forall_impl; [exact Hca|].
    intros q0. apply call_ok_mono; [by rewrite C1|done|done].
Qed.

Lemma calm_refl z : queued_ok size z -> calm (z_shared z) (z_shared z).
Proof. intros []. by split. Qed.

Lemma push_ok z j t p i s' :
  queued_ok size z -> pushAt size t p i (z_shared z) = Some s' ->
  queued_ok size (mkQState s' (z_workers z) (<[j := Ret None]> (z_calls z))).
Proof.
  intros [Ht Hr Hi Hl Hc Hwg Hrun Hcl Hca]. unfold pushAt.
  destruct (x_queues (z_shared z) !! i ≫= _) as [q'|] eqn:E; [|done]. intros [= <-].
  apply bind_Some in E as (q & Hq & Ep). destruct (all_tasks_insert _ _ q q' Hq) as (rest & F1 & F2).
  split; cbn [z_shared z_workers z_calls set_xqueues set_xghost x_queues x_cap x_running
       x_wg x_closed x_stop x_accepted x_finished]; rewrite ?length_insert; try done.
  - rewrite F2, (push_tasks _ _ _ _ _ Ep), Ht, F1, (Permutation_app_comm _ [t]). done.
  - apply Forall_insert; [done|]. eapply push_within; [|done]. by eapply Forall_lookup_1.
  - apply Forall_insert; [|done]. eapply Forall_impl; [exact Hca|].
    intros q0. apply call_ok_mono; cbn; rewrite ?length_insert; done || lia.
Qed.

Lemma grow_ok z j i n :
  queued_ok size z -> (i <= length (x_queues (z_shared z)))%nat -> Z.of_nat i < n ->
  let s := z_shared z in
  let qs := if (i <? length (x_queues s))%nat then x_queues s else x_queues s ++ [newTaskQueue] in
  queued_ok size (mkQState (startWorker (set_xqueues qs s)) (z_workers z ++ [(i, QLoad)])
                    (<[j := RsGrow (S i) n]> (z_calls z))).
Proof.
  intros [Ht Hr Hi Hl Hc Hwg Hrun Hcl Hca] Hin Hn s qs. fold s in Hin.
  assert (Hqs : (length (x_queues s) <= length qs /\ i < length qs)%nat /\
    all_tasks qs = all_tasks (x_queues s) /\ Forall (within size) qs).
  { unfold qs. destruct (Nat.ltb_spec i (length (x_queues s))); [done|].
    rewrite length_app. cbn [length]. split; [lia|]. unfold all_tasks. rewrite bind_app. split; [apply app_nil_r|].
    apply Forall_app. split; [done|]. apply Forall_singleton. unfold within. cbn. lia. }
  destruct Hqs as ((L1 & L2) & Hall & Hwi).
  split; cbn [z_shared z_workers z_calls startWorker set_xqueues set_xrunning x_queues x_cap x_running
       x_wg x_closed x_stop x_accepted x_finished]; try done.
  - unfold busy. rewrite bind_app. change ([(i, QLoad)] ≫= running_task) with (@nil nat).
    by rewrite app_nil_r, Hall.
  - apply Forall_app. split; [|by repeat constructor]. eapply Forall_impl; [exact Hi|]. intros w Hw. fold s in Hw. cbn in *. lia.
  - fold s in Hl. lia.
  - fold s in Hc. lia.
  - fold s in Hwg. rewrite Hwg. unfold count. rewrite bind_app, length_app. cbn. lia.
  - intros Hs. fold s in Hrun. rewrite Hrun, sint_add_l by (done || lia). unfold count.
    rewrite bind_app, length_app. f_equal. cbn. lia.
  - apply Forall_insert; [|cbn; lia]. eapply Forall_impl; [exact Hca|].
    intros q0. apply call_ok_mono; done || lia.
Qed.

(** The calls that start no worker. *)
Definition quiet (z : qstate) (j : nat) (r : option (shared * qcall)) : Prop :=
  match r with
  | Some (s', q') => queued_ok size (mkQState s' (z_workers z) (<[j := q']> (z_calls z)))
  | None => True
  end.

Lemma quiet_same z j q' : queued_ok size z -> call_ok (z_shared z) q' -> quiet z j (Some (z_shared z, q')).
Proof. intros Hok Hq. apply calm_ok; [done|by apply calm_refl|done]. Qed.

Lemma quiet_calm z j s' q' :
  queued_ok size z -> calm (z_shared z) s' -> call_ok s' q' -> quiet z j (Some (s', q')).
Proof. apply calm_ok. Qed.

Lemma doStep_ok z j now q : queued_ok size z -> quiet z j (doStep size nonBlocking trackStats now (z_shared z) q).
Proof.
  intros Hok. pose proof (calm_refl z Hok) as [].
  destruct q as [t p|t p|t p w|t p w i| | | | | | | | | | | | | | | | |]; cbn [doStep]; try done.
  - apply quiet_same; [done|]. by destruct (x_closed _).
  - by apply quiet_calm.
  - destruct (pushAt _ _ _ _ _) as [s'|] eqn:Ep; [by eapply push_ok|].
    destruct nonBlocking; [by apply quiet_calm|by apply quiet_same].
  - destruct (_ <? _)%nat; [|by apply quiet_same].
    destruct (pushAt _ _ _ _ _) as [s'|] eqn:Ep; [by eapply push_ok|by apply quiet_same].
  - destruct (x_stop (z_shared z)) eqn:E; [by apply quiet_same|].
    apply quiet_calm; [done| |done]. split; cbn; try done. by rewrite E.
Qed.

Lemma ctxStep_ok z j c q : queued_ok size z -> quiet z j (ctxStep c (z_shared z) q).
Proof.
  intros Hok. destruct q; cbn [ctxStep]; try done; apply quiet_same; try done.
  - by destruct (x_closed _).
  - by destruct c.
Qed.

Lemma waitStep_ok z j c q : queued_ok size z -> quiet z j (waitStep c (z_shared z) q).
Proof.
  intros Hok. destruct q; cbn [waitStep]; try done.
  - apply quiet_same; [done|]. by destruct (x_closed _).
  - apply quiet_same; [done|]. by destruct c.
  - destruct (_ <? _)%nat; [destruct (chanLen _ _); [by apply quiet_same|done]|].
    apply quiet_same; [done|]. repeat case_match; done.
Qed.

Lemma stopStep_ok z j c q :
  queued_ok size z -> call_ok (z_shared z) q -> quiet z j (stopStep c (z_shared z) q).
Proof.
  intros Hok Hq. pose proof (calm_refl z Hok) as [].
  destruct q; cbn [stopStep call_ok] in *; try done.
  - destruct (x_closed (z_shared z)) eqn:E; [by apply quiet_same|]. by apply quiet_calm.
  - apply quiet_calm; [done|by split|done].
  - destruct c; [by apply quiet_same|]. destruct (_ =? 0); [by apply quiet_same|done].
  - apply quiet_same; [done|]. by destruct (_ =? 0).
  - by apply quiet_same.
  - apply quiet_calm; [done| |done]. split; cbn; try done. by rewrite Hq.
Qed.

Lemma sint_le w z : 0 < w -> 0 <= z -> sint w z <= z.
Proof.
  intros Hw Hz. unfold sint. pose proof (Z.pow_pos_nonneg 2 (w - 1) ltac:(lia) ltac:(lia)).
  pose proof (Z.mod_le (z + 2 ^ (w - 1)) (2 ^ w) ltac:(lia) ltac:(apply Z.pow_pos_nonneg; lia)). lia.
Qed.

Definition with_new (z : qstate) (j : nat) (r : option (shared * qcall * option nat)) : Prop :=
  match r with
  | Some (s', q', new) =>
      queued_ok size (mkQState s' (z_workers z ++ ((fun id => (id, QLoad)) <$> option_list new))
                        (<[j := q']> (z_calls z)))
  | None => True
  end.

Lemma quiet_with_new z j r : quiet z j r -> with_new z j (noWorker r).
Proof. destruct r as [[s' q']|]; [|done]. cbn [quiet with_new noWorker option_list fmap list_fmap]. by rewrite app_nil_r. Qed.

Lemma quiet_none z j s' q' : quiet z j (Some (s', q')) -> with_new z j (Some (s', q', None)).
Proof. apply (quiet_with_new z j (Some (s', q'))). Qed.

Lemma resizeStep_ok z j q : queued_ok size z -> call_ok (z_shared z) q -> with_new z j (resizeStep (z_shared z) q).
Proof.
  intros Hok Hq. pose proof (calm_refl z Hok) as Hc.
  destruct q as [| | | | | | |n|n|i n|n| | | | | | | | | |]; cbn [resizeStep call_ok] in *; try done.
  - apply quiet_none, quiet_same; [done|]. destruct (Z.leb_spec n 0); [done|]. by destruct (x_closed _).
  - destruct (x_locked _); [done|]. destruct (n =? _); [by apply quiet_none, quiet_same|].
    apply quiet_none, quiet_calm; [done|by destruct Hc|]. destruct Hc.
    destruct (Z.ltb_spec (x_cap (z_shared z)) n); cbn [call_ok set_xcap x_queues]; lia.
  - destruct (Z.ltb_spec (Z.of_nat i) n); [|apply quiet_none, quiet_same; [done|cbn; lia]].
    destruct Hq as [Hi _]. by apply grow_ok.
  - apply quiet_none, quiet_calm; [done| |done]. destruct Hc. split; cbn; try done.
    pose proof (sint_le 32 n ltac:(lia) ltac:(lia)). lia.
Qed.

Lemma call_step_ok z j c now q :
  queued_ok size z -> z_calls z !! j = Some q ->
  with_new z j (cstep size nonBlocking trackStats c now (z_shared z) q).
Proof.
  intros Hok Hj. assert (Hq : call_ok (z_shared z) q) by (by eapply Forall_lookup_1; [apply Hok|]).
  destruct q; cbn [cstep]; try done;
    first [by apply quiet_with_new, doStep_ok | by apply quiet_with_new, ctxStep_ok | by apply resizeStep_ok
          |by apply quiet_with_new, waitStep_ok | by apply quiet_with_new, stopStep_ok].
Qed.

Lemma exec_ok z a z' :
  queued_ok size z -> exec size nonBlocking trackStats z a = Some z' -> queued_ok size z'.
Proof.
  intros Hok. destruct a as [i c|j c now|q]; cbn [exec].
  - destruct (z_workers z !! i) as [[id w]|] eqn:Hw; [|done].
    destruct (wstep _ _ _ _) as [[s w']|] eqn:Hs; [|done]. intros [= <-]. by eapply worker_ok.
  - destruct (z_calls z !! j) as [q|] eqn:Hj; [|done].
    pose proof (call_step_ok z j c now q Hok Hj) as Hs.
    destruct (cstep _ _ _ _ _ _ _) as [[[s q'] new]|]; [|done]. by intros [= <-].
  - destruct (entry q) eqn:He; [|done]. intros [= <-]. destruct Hok. split; try done.
    apply Forall_app. split; [done|]. apply Forall_singleton. by destruct q.
Qed.

Lemma execs_ok l z z' :
  queued_ok size z -> execs size nonBlocking trackStats z l = Some z' -> queued_ok size z'.
Proof.
  revert z. induction l as [|a l IH]; cbn [execs]; intros z Hok; [by intros [= <-]|].
  destruct (exec _ _ _ z a) as [z1|] eqn:E; [|done]. apply IH. by eapply exec_ok.
Qed.
End preserve.

Lemma iter_startWorker n s :
  x_queues (Nat.iter n startWorker s) = x_queues s /\ x_cap (Nat.iter n startWorker s) = x_cap s /\
  x_wg (Nat.iter n startWorker s) = x_wg s + Z.of_nat n /\
  sint 32 (x_running (Nat.iter n startWorker s)) = sint 32 (x_running s + Z.of_nat n) /\
  (x_running s = sint 32 (x_running s) -> x_running (Nat.iter n startWorker s) = sint 32 (x_running s + Z.of_nat n)) /\
  x_stop (Nat.iter n startWorker s) = x_stop s /\ x_closed (Nat.iter n startWorker s) = x_closed s /\
  x_accepted (Nat.iter n startWorker s) = x_accepted s /\ x_finished (Nat.iter n startWorker s) = x_finished s.
Proof.
  induction n as [|n (E1 & E2 & E3 & E4 & E5 & E6 & E7 & E8 & E9)].
  { cbn. rewrite !Z.add_0_r. done. }
  change (Nat.iter (S n) startWorker s) with (startWorker (Nat.iter n startWorker s)).
  cbn [startWorker set_xrunning x_queues x_cap x_wg x_running x_stop x_closed x_accepted x_finished].
  assert (Es : sint 32 (x_running (Nat.iter n startWorker s) + 1) = sint 32 (x_running s + Z.of_nat (S n))).
  { rewrite <- (sint_add_l 32 (x_running _)), E4, sint_add_l by lia. f_equal. lia. }
  split_and!; try done; [rewrite E3; lia|].
  rewrite sint_id by (lia || apply sint_range; lia). done.
Qed.

Lemma count_start (f : nat * qworker -> list unit) n m :
  (forall i, f (i, QLoad) = [tt]) -> count f ((fun id => (id, QLoad)) <$> seq m n) = Z.of_nat n.
Proof.
  intros Hf. unfold count. revert m. induction n as [|n IH]; intros m; [done|].
  cbn [seq fmap list_fmap]. rewrite bind_cons, Hf, length_app. specialize (IH (S m)). cbn. lia.
Qed.

Lemma busy_start n m : busy ((fun id => (id, QLoad)) <$> seq m n) = [].
Proof. unfold busy. revert m. induction n as [|n IH]; intros m; [done|]. cbn. apply IH. Qed.

Lemma NewQueued_queues numCPU workers queueSize nonBlocking noStats :
  0 < numCPU -> let e := NewQueued numCPU workers queueSize nonBlocking noStats in
  (0 < length (qe_queues e))%nat /\ Forall (eq newTaskQueue) (qe_queues e).
Proof.
  intros Hn e. unfold e, NewQueued. cbn [qe_queues]. rewrite length_replicate. split.
  - destruct (Z.leb_spec workers 0); lia.
  - by apply Forall_replicate.
Qed.

Lemma start_ok numCPU workers queueSize nonBlocking noStats :
  0 < numCPU -> let e := NewQueued numCPU workers queueSize nonBlocking noStats in
  queued_ok (qe_size e) (start e).
Proof.
  intros Hn e. destruct (NewQueued_queues numCPU workers queueSize nonBlocking noStats Hn) as [Hl Hq].
  fold e in Hl, Hq. unfold start. set (s0 := mkShared (qe_queues e) _ _ _ _ _ _ _ _ _ _).
  destruct (iter_startWorker (length (qe_queues e)) s0) as (E1 & E2 & E3 & _ & E5 & E6 & E7 & E8 & E9).
  split; cbn [z_shared z_workers z_calls]; rewrite ?E1, ?E2, ?E3, ?E6, ?E7, ?E8, ?E9;
    cbn [s0 x_queues x_cap x_wg x_stop x_closed x_accepted x_finished]; try done.
  - rewrite busy_start. replace (all_tasks (qe_queues e)) with (@nil nat); [done|]. symmetry.
    apply all_tasks_nil. intros i q Hi. eapply Forall_lookup_1 in Hq; [|exact Hi]. by rewrite <- Hq.
  - eapply Forall_impl; [exact Hq|]. intros q <-. unfold within. cbn. lia.
  - apply Forall_fmap, Forall_seq. cbn. lia.
  - apply sint_le; lia.
  - by rewrite count_start.
  - intros _. rewrite count_start, E5 by done. done.
Qed.

(** * A worker on its own *)

(** Steps of worker [id] that meet no interference and no stop signal. *)
Definition alone (id : nat) : shared * qworker -> shared * qworker -> Prop :=
  steps (fun a b => wstep false id a.1 a.2 = Some b).

Lemma alone_step id s w s' w' c : wstep false id s w = Some (s', w') -> alone id (s', w') c -> alone id (s, w) c.
Proof. intros. by eapply steps_cons. Qed.

(** The three selects on one queue take what [popq] takes. *)
Lemma alone_queue id s k i q :
  searchIndex id k (length (x_queues s)) = Some i -> (0 <? k)%nat && (i =? id)%nat = false ->
  x_queues s !! i = Some q ->
  match popq q with
  | Some (t, q') => alone id (s, QTake k 0) (set_xqueues (<[i := q']> (x_queues s)) s, QRun t)
  | None => alone id (s, QTake k 0) (s, QTake (S k) 0)
  end.
Proof.
  intros Hi Hk Hq.
  assert (Hs : forall lvl, wstep false id s (QTake k lvl) =
    match takeLevel lvl q with
    | Some (t, q') => Some (set_xqueues (<[i := q']> (x_queues s)) s, QRun t)
    | None => Some (s, if (lvl <? 2)%nat then QTake k (S lvl) else QTake (S k) 0)
    end) by (intros lvl; cbn [wstep]; by rewrite Hi, Hk, Hq).
  destruct q as [[|? h] [|? n] [|? w]]; unfold popq; cbn [q_high q_normal q_low];
    repeat (first [apply steps_refl | eapply alone_step; [rewrite Hs; reflexivity|]; cbn [Nat.ltb Nat.leb]]).
Qed.

Lemma alone_ring id s n k :
  (id < length (x_queues s))%nat -> (0 < k)%nat -> (n + k = S (length (x_queues s)))%nat ->
  match stealRing n id (id + k) (x_queues s) with
  | Some (t, qs') => alone id (s, QTake k 0) (set_xqueues qs' s, QRun t)
  | None => alone id (s, QTake k 0) (s, QIdle)
  end.
Proof.
  intros Hid. revert k. induction n as [|n IH]; intros k Hk Hn; cbn [stealRing].
  { eapply alone_step; [|apply steps_refl]. cbn [wstep]. unfold searchIndex.
    destruct (Nat.eqb_spec k 0); [lia|]. by rewrite (proj2 (Nat.leb_gt k _)) by lia. }
  assert (Hi : searchIndex id k (length (x_queues s)) = Some ((id + k) mod length (x_queues s))%nat).
  { unfold searchIndex. destruct (Nat.eqb_spec k 0); [lia|]. by rewrite (proj2 (Nat.leb_le k _)) by lia. }
  specialize (IH (S k) ltac:(lia) ltac:(lia)). replace (id + S k)%nat with (S (id + k)) in IH by lia.
  set (i := ((id + k) mod length (x_queues s))%nat) in *.
  assert (Hpos : (0 <? k)%nat = true) by (apply Nat.ltb_lt; lia).
  destruct (i =? id)%nat eqn:Ei.
  - assert (Hs : wstep false id s (QTake k 0) = Some (s, QTake (S k) 0)).
    { cbn [wstep]. by rewrite Hi, Ei, Hpos. }
    by destruct (stealRing n id _ _) as [[t qs']|]; (eapply alone_step; [exact Hs|]).
  - destruct (lookup_lt_is_Some_2 (x_queues s) i) as [q Hq]; [apply Nat.mod_upper_bound; lia|].
    pose proof (alone_queue id s k i q Hi ltac:(by rewrite Ei, Hpos) Hq) as Hone.
    rewrite Hq. cbn [mbind option_bind]. unfold steal. destruct (popq q) as [[t q']|]; [done|].
    by destruct (stealRing n id _ _) as [[t qs']|]; (eapply steps_trans; [exact Hone|]).
Qed.

(** On its own, the search takes what [findTask] takes. *)
Lemma alone_search id s :
  (id < length (x_queues s))%nat ->
  match findTask id (x_queues s) with
  | Some (t, qs') => alone id (s, QTake 0 0) (set_xqueues qs' s, QRun t)
  | None => alone id (s, QTake 0 0) (s, QIdle)
  end.
Proof.
  intros Hid. unfold findTask. destruct (lookup_lt_is_Some_2 (x_queues s) id Hid) as [q Hq]. rewrite Hq.
  pose proof (alone_queue id s 0 id q eq_refl eq_refl Hq) as Hone. cbn [mbind option_bind].
  destruct (popq q) as [[t q']|]; [done|].
  pose proof (alone_ring id s (length (x_queues s)) 1 Hid ltac:(lia) ltac:(lia)) as Hr.
  by destruct (stealRing _ id (id + 1) _) as [[t qs']|]; (eapply steps_trans; [exact Hone|]).
Qed.

(** What one worker on its own makes of the shared state: its queues emptied,
    their tasks run. *)
Definition drained (s s' : shared) : Prop :=
  all_tasks (x_queues s') = [] /\ x_finished s' ≡ₚ x_finished s ++ all_tasks (x_queues s) /\
  x_accepted s' = x_accepted s.

(** The worker stays: it is not one too many. *)
Definition staying (s : shared) : Prop := x_running s <= x_cap s \/ x_cap s <= 0 \/ x_closed s = true.

Lemma alone_top id s c : staying s -> alone id (s, QTake 0 0) c -> alone id (s, QLoad) c.
Proof.
  intros Hst Hc. eapply alone_step; [reflexivity|]. eapply alone_step; [reflexivity|].
  destruct (Z.ltb_spec (x_cap s) (x_running s)); [|done]. destruct (Z.ltb_spec 0 (x_cap s)); [|done].
  cbn [andb]. eapply alone_step; [reflexivity|]. destruct Hst as [?|[?|E]]; [lia..|]. by rewrite E.
Qed.

Lemma alone_drains n id s :
  length (all_tasks (x_queues s)) = n -> (id < length (x_queues s))%nat -> staying s ->
  exists s', alone id (s, QLoad) (s', QIdle) /\ drained s s'.
Proof.
  revert s. induction n as [|n IH]; intros s Hn Hid Hst;
    pose proof (alone_search id s Hid) as Hse; pose proof (findTask_spec id (x_queues s) ltac:(lia)) as Hf;
    destruct (findTask id (x_queues s)) as [[t qs']|].
  - destruct Hf as [Hp _]. by rewrite Hp in Hn.
  - exists s. split; [by apply alone_top|]. split; [done|]. by rewrite Hf, app_nil_r.
  - destruct Hf as [Hp Hlen].
    set (s1 := set_xghost (x_accepted s) (x_finished s ++ [t]) (set_xqueues qs' s)).
    destruct (IH s1) as (s' & Ha & Hd1 & Hd2 & Hd3).
    { rewrite Hp in Hn. by injection Hn. } { cbn [s1 set_xghost set_xqueues x_queues]. lia. } { exact Hst. }
    exists s'. split.
    + apply alone_top; [done|]. eapply steps_trans; [exact Hse|]. by eapply alone_step; [reflexivity|].
    + split; [done|]. split; [|done]. rewrite Hd2, Hp. cbn. by rewrite <- app_assoc.
  - by rewrite Hf in Hn.
Qed.

(** Steps of one worker as a schedule. *)
Lemma alone_execs size nonBlocking trackStats id a b :
  alone id a b -> forall z i,
  z_workers z !! i = Some (id, a.2) -> z_shared z = a.1 ->
  exists n, execs size nonBlocking trackStats z (replicate n (AWorker i false)) =
    Some (mkQState b.1 (<[i := (id, b.2)]> (z_workers z)) (z_calls z)).
Proof.
  induction 1 as [[s w]|[s w] [s1 w1] b Hs _ IH]; intros z i Hw Hz; cbn [fst snd] in *.
  - exists O. cbn. rewrite list_insert_id by done. subst s. by destruct z.
  - destruct (IH (mkQState s1 (<[i := (id, w1)]> (z_workers z)) (z_calls z)) i) as [n Hn].
    { cbn. apply list_lookup_insert_eq. by eapply lookup_lt_Some. } { done. }
    exists (S n). cbn [replicate execs exec]. rewrite Hw, Hz, Hs, Hn. cbn [z_workers z_calls].
    by rewrite list_insert_insert_eq.
Qed.

(** * Theorems *)

(** C25. Whatever the interleaving of workers, submissions, resizes, waits
    and stops, each accepted task is at exactly one place: the tasks that a
    push has taken are, as a multiset, those in the queues, those being run and
    those that have been run, so that none is dropped from a queue or run twice
    (a stop or a resize may leave tasks in the queues with no worker to run
    them: [stop_loses_task], [resize_loses_workers]).  Every channel stays
    within its size; the WaitGroup counts the workers that have not left their
    loop; until the executor is stopped [running] is the number of workers,
    in 32 bits; and no worker indexes outside the queues, so that each has a
    next step until it has gone. *)
Theorem queued_conserves numCPU workers queueSize nonBlocking noStats l z :
  0 < numCPU ->
  let e := NewQueued numCPU workers queueSize nonBlocking noStats in
  execs (qe_size e) nonBlocking (negb noStats) (start e) l = Some z ->
  let s := z_shared z in
  x_accepted s ≡ₚ all_tasks (x_queues s) ++ busy (z_workers z) ++ x_finished s /\
  Forall (within (qe_size e)) (x_queues s) /\
  x_wg s = count in_wg (z_workers z) /\
  (x_stop s = false -> x_running s = sint 32 (count in_running (z_workers z))) /\
  Forall (fun '(id, w) => w <> QGone -> is_Some (wstep false id s w)) (z_workers z).
Proof.
  intros Hn e Hl s. destruct (execs_ok _ _ _ _ _ _ (start_ok numCPU workers queueSize nonBlocking noStats Hn) Hl).
  split_and!; try done. eapply Forall_impl; [exact ok_ids0|]. intros [id w] Hid Hg. cbn [fst] in Hid.
  destruct w; cbn [wstep]; try done; try (by eexists).
  fold s in Hid. destruct (searchIndex id k (length (x_queues s))) as [i|] eqn:Ei; [|by eexists].
  destruct (_ && _); [by eexists|].
  destruct (lookup_lt_is_Some_2 (x_queues s) i) as [q ->]; [by eapply searchIndex_lt|].
  destruct (takeLevel lvl q) as [[t q']|]; by eexists.
Qed.

(** C26. A worker at the top of its loop that is not one too many does all
    queued work: from any state the executor can reach in which there is such a
    worker, whatever the queues and priorities the tasks are in, finitely many
    steps of that worker alone run every queued task and leave the queues
    empty.  (A worker past its search when the executor is stopped may leave
    without running a task queued since: [stop_loses_task].) *)
Theorem queued_progress numCPU workers queueSize nonBlocking noStats l z i id :
  0 < numCPU ->
  let e := NewQueued numCPU workers queueSize nonBlocking noStats in
  let sched := execs (qe_size e) nonBlocking (negb noStats) in
  sched (start e) l = Some z ->
  z_workers z !! i = Some (id, QLoad) -> staying (z_shared z) ->
  exists n z', sched z (replicate n (AWorker i false)) = Some z' /\ drained (z_shared z) (z_shared z').
Proof.
  intros Hn e sched Hl Hw Hst.
  pose proof (execs_ok _ _ _ _ _ _ (start_ok numCPU workers queueSize nonBlocking noStats Hn) Hl) as Hok.
  assert (Hid : (id < length (x_queues (z_shared z)))%nat) by apply (Forall_lookup_1 _ _ _ _ (ok_ids _ _ Hok) Hw).
  destruct (alone_drains _ id (z_shared z) eq_refl Hid Hst) as (s' & Ha & Hd).
  destruct (alone_execs (qe_size e) nonBlocking (negb noStats) _ _ _ Ha z i Hw eq_refl) as [n Hrun].
  exists n. eexists. split; [exact Hrun|done].
Qed.

(** * Schedules *)

Definition wk (n i : nat) : list act := replicate n (AWorker i false).
Definition cl (n j : nat) : list act := replicate n (ACall j false 0).

(** Two workers, room for two tasks in each channel. *)
Definition two : QueuedExec := NewQueued 1 2 2 false false.

Definition sched2 : list act :=
  [ANew (DoClosed 7 0); ANew (DoClosed 8 5)] ++ cl 3 0 ++ cl 2 1 ++ wk 2 1 ++ cl 1 1.

(** Two submissions while worker 1 reads the counters. *)
Lemma queued_conserves_witness :
  exists z, execs 2 false true (start two) sched2 = Some z /\ x_accepted (z_shared z) = [7; 8]%nat /\
    x_accepted (z_shared z) ≡ₚ all_tasks (x_queues (z_shared z)) ++ busy (z_workers z) ++ x_finished (z_shared z).
Proof.
  destruct (execs 2 false true (start two) sched2) as [z|] eqn:E; [|vm_compute in E; discriminate].
  exists z. split; [reflexivity|].
  pose proof (queued_conserves 1 2 2 false false sched2 z ltac:(reflexivity) E) as [H _].
  split; [|exact H]. vm_compute in E. injection E as <-. reflexivity.
Defined.

Lemma queued_progress_witness :
  exists n z, execs 2 false true (start two) (sched2 ++ wk n 0) = Some z /\ all_tasks (x_queues (z_shared z)) = [].
Proof.
  destruct (execs 2 false true (start two) sched2) as [z|] eqn:E; [|vm_compute in E; discriminate].
  assert (Hw : z_workers z !! 0%nat = Some (0%nat, QLoad) /\ staying (z_shared z)).
  { vm_compute in E. injection E as <-. split; [reflexivity|]. left. vm_compute. discriminate. }
  destruct (queued_progress 1 2 2 false false sched2 z 0 0 ltac:(reflexivity) E (proj1 Hw) (proj2 Hw))
    as (n & z' & Hn & Hd & _).
  exists n, z'. split; [|exact Hd].
  assert (Happ : forall l z0, execs 2 false true z0 (l ++ wk n 0) =
    match execs 2 false true z0 l with Some z1 => execs 2 false true z1 (wk n 0) | None => None end).
  { induction l as [|a l IH]; intros z0; [reflexivity|]. cbn [app execs]. destruct (exec _ _ _ z0 a); [apply IH|reflexivity]. }
  rewrite Happ, E. exact Hn.
Defined.

(** A worker that waits in its select leaves when [Stop] closes the channel,
    without another look at the queues: a task accepted in the meantime is
    never run, although [Stop] returns without an error. *)
Definition lost_at_stop : list act :=
  wk 7 0 ++ [ANew (DoClosed 7 1)] ++ cl 3 0 ++ [ANew SpSwap] ++ cl 2 1 ++ [AWorker 0 true] ++ wk 2 0 ++ cl 2 1.

Example stop_loses_task :
  option_map (fun z => (z_calls z, all_tasks (x_queues (z_shared z)), z_workers z, x_finished (z_shared z)))
    (execs 1 false true (start (NewQueued 1 1 1 false false)) lost_at_stop) =
  Some ([Ret None; Ret None], [7%nat], [(0%nat, QGone)], []).
Proof. vm_compute. reflexivity. Qed.

(** Two workers that both read [running] before either has left both leave a
    pool that was to shrink to one: no worker is left, and the task accepted
    next waits for ever. *)
Definition all_leave : list act :=
  [ANew (RsCheck 1)] ++ cl 3 0 ++ wk 1 0 ++ wk 1 1 ++ wk 4 0 ++ wk 4 1 ++ [ANew (DoClosed 7 1)] ++ cl 3 1.

Example resize_loses_workers :
  option_map (fun z => (z_calls z, x_cap (z_shared z), x_closed (z_shared z), z_workers z,
                        all_tasks (x_queues (z_shared z))))
    (execs 2 false true (start two) all_leave) =
  Some ([Ret None; Ret None], 1, false, [(0%nat, QGone); (1%nat, QGone)], [7%nat]).
Proof. vm_compute. reflexivity. Qed.

(** The deferred function of a worker leaves the WaitGroup before it counts
    itself out, so [Stop] can reset [running] in between, which then ends
    below zero. *)
Definition below_zero : list act :=
  [ANew SpSwap] ++ cl 2 0 ++ wk 7 0 ++ [AWorker 0 true; AWorker 0 false] ++ cl 3 0 ++ wk 1 0.

Example running_below_zero :
  option_map (fun z => (z_calls z, x_running (z_shared z)))
    (execs 1 false true (start (NewQueued 1 1 1 false false)) below_zero) = Some ([Ret None], -1).
Proof. vm_compute. reflexivity. Qed.
