(* ===== verification/Config.v ===== *)
(** * Configuration

    config.go, and the part of NewGridKV (gridkv.go) that turns its arguments
    into options and the options into the settings of storage, network and
    cluster.  A JSON document is the [Config] it decodes to.  Go's
    [time.ParseDuration] is modelled on strings; the value of a decimal
    fraction, which Go computes in floating point, is an argument. *)

From Stdlib Require Import Strings.Ascii.
From S2P Require Import Prelude ConnPool.

Definition Hour : Z := 3600 * Second.

(** * Durations *)

Section duration.
Context (fraction : Z -> Z -> Z -> Z).   (* digits, unit, power of ten *)

Definition isDigit (c : ascii) : bool :=
  ((48 <=? nat_of_ascii c) && (nat_of_ascii c <=? 57))%nat.
Definition digit (c : ascii) : Z := Z.of_nat (nat_of_ascii c) - 48.

(** [None]: overflow. *)
Fixpoint leadingInt (x : Z) (s : string) : option (Z * string) :=
  match s with
  | String c s' =>
      if isDigit c then
        if 2 ^ 63 / 10 <? x then None
        else
          let x := x * 10 + digit c in
          if 2 ^ 63 <? x then None else leadingInt x s'
      else Some (x, s)
  | EmptyString => Some (x, s)
  end.

(** Digits beyond the range of 64 bits are skipped. *)
Fixpoint leadingFraction (x scale : Z) (overflow : bool) (s : string) : Z * Z * string :=
  match s with
  | String c s' =>
      if isDigit c then
        if overflow then leadingFraction x scale true s'
        else if (2 ^ 63 - 1) / 10 <? x then leadingFraction x scale true s'
        else
          let y := x * 10 + digit c in
          if 2 ^ 63 <? y then leadingFraction x scale true s'
          else leadingFraction y (scale * 10) false s'
      else (x, scale, s)
  | EmptyString => (x, scale, s)
  end.

Definition isNumeric (c : ascii) : bool := Ascii.eqb c "." || isDigit c.

(** The unit and the rest. *)
Fixpoint leadingUnit (s : string) : string * string :=
  match s with
  | String c s' =>
      if isNumeric c then (EmptyString, s)
      else let '(u, r) := leadingUnit s' in (String c u, r)
  | EmptyString => (EmptyString, EmptyString)
  end.

(** The micro sign and the Greek mu, in UTF-8. *)
Definition microSign : string := String (ascii_of_nat 194) (String (ascii_of_nat 181) "s").
Definition greekMu : string := String (ascii_of_nat 206) (String (ascii_of_nat 188) "s").

Definition unitMap (u : string) : option Z :=
  if String.eqb u "ns" then Some 1
  else if (String.eqb u "us") || (String.eqb u microSign) || (String.eqb u greekMu) then Some 1000
  else if String.eqb u "ms" then Some Millisecond
  else if String.eqb u "s" then Some Second
  else if String.eqb u "m" then Some Minute
  else if String.eqb u "h" then Some Hour
  else None.

(** One number with its unit. *)
Definition component (s : string) : option (Z * string) :=
  match s with
  | EmptyString => None
  | String c _ =>
      if isNumeric c then
        match leadingInt 0 s with
        | None => None
        | Some (v, s1) =>
            let pre := negb (String.length s1 =? String.length s)%nat in
            let '(f, scale, s2, post) :=
              match s1 with
              | String "." s' =>
                  let '(f, scale, s2) := leadingFraction 0 1 false s' in
                  (f, scale, s2, negb (String.length s2 =? String.length s')%nat)
              | _ => (0, 1, s1, false)
              end in
            if negb (pre || post) then None
            else
              let '(u, rest) := leadingUnit s2 in
              if String.eqb u "" then None
              else
                match unitMap u with
                | None => None
                | Some unit =>
                    if 2 ^ 63 / unit <? v then None
                    else
                      let v := v * unit in
                      let v := if 0 <? f then v + fraction f unit scale else v in
                      if 2 ^ 63 <? v then None else Some (v, rest)
                end
        end
      else None
  end.

(** Each turn of the loop consumes a unit, so that the length is fuel enough. *)
Fixpoint durationLoop (fuel : nat) (d : Z) (s : string) : option Z :=
  match fuel with
  | O => None
  | S fuel =>
      match s with
      | EmptyString => Some d
      | _ =>
          match component s with
          | None => None
          | Some (v, rest) => if 2 ^ 63 <? d + v then None else durationLoop fuel (d + v) rest
          end
      end
  end.

Definition ParseDuration (s : string) : option Z :=
  let '(neg, s) := match s with
                   | String "-" s' => (true, s')
                   | String "+" s' => (false, s')
                   | _ => (false, s)
                   end in
  if String.eqb s "0" then Some 0
  else if String.eqb s "" then None
  else
    match durationLoop (S (String.length s)) 0 s with
    | None => None
    | Some d => if neg then Some (- d) else if 2 ^ 63 - 1 <? d then None else Some d
    end.

Example parse_examples :
  ParseDuration "5m" = Some (5 * Minute) /\ ParseDuration "1h30m" = Some (90 * Minute) /\
  ParseDuration "-200ms" = Some (-200 * Millisecond) /\ ParseDuration "5" = None /\
  ParseDuration "0" = Some 0 /\ ParseDuration "10 s" = None.
Proof. vm_compute. done. Qed.
End duration.

(** * The configuration file *)

Record NetworkConfig := mkNetworkConfig {
  nc_Type : string;
  nc_BindAddr : string;
  nc_MaxIdle : Z;
  nc_MaxConns : Z;
  nc_Timeout : string;
  nc_ReadTimeout : string;
  nc_WriteTimeout : string;
}.

Record StorageConfig := mkStorageConfig { sg_MaxMemoryMB : Z; sg_ShardCount : Z }.

Record LogConfig := mkLogConfig {
  lc_Level : string;
  lc_Format : string;
  lc_TimeFormat : string;
  lc_NoCaller : bool;
  lc_NoTime : bool;
}.

Record Config := mkConfigFile {
  cf_LocalNodeID : string;
  cf_LocalAddress : string;
  cf_SeedAddrs : list string;
  cf_TTL : string;
  cf_HotReadCacheTTL : string;
  cf_HotCacheSize : Z;
  cf_VirtualNodes : Z;
  cf_ReplicaCount : Z;
  cf_ReadRepairRateLimitPerSec : Z;
  cf_FailureTimeout : string;
  cf_SuspectTimeout : string;
  cf_GossipInterval : string;
  cf_ReplicationTimeout : string;
  cf_ReadTimeout : string;
  cf_StartupGracePeriod : string;
  cf_DisableAuth : bool;
  cf_BatchThreshold : Z;
  cf_BatchWindow : string;
  cf_Network : option NetworkConfig;
  cf_Storage : option StorageConfig;
  cf_Log : option LogConfig;
}.

(** * Options *)

Definition TCP : Z := 1.
Definition QUIC : Z := 3.

Record NetworkOptions := mkNetworkOptions {
  no_Type : Z;
  no_BindAddr : string;
  no_MaxIdle : Z;
  no_MaxConns : Z;
  no_Timeout : Z;
  no_ReadTimeout : Z;
  no_WriteTimeout : Z;
}.

Record StorageOptions := mkStorageOptions { so_MaxMemoryMB : Z; so_ShardCount : Z }.

(** [Log]: the options of a logger to make, or something else the caller
    brings. *)
Inductive LogOption :=
| LoggerOptions (level format timeFormat : string) (noCaller noTime : bool)
| LoggerGiven.

Record Options := mkOptions {
  LocalNodeID : string;
  LocalAddress : string;
  SeedAddrs : list string;
  TTL : Z;
  HotReadCacheTTL : Z;
  HotCacheSize : Z;
  VirtualNodes : Z;
  ReplicaCount : Z;
  ReadRepairRateLimitPerSec : Z;
  FailureTimeout : Z;
  SuspectTimeout : Z;
  GossipInterval : Z;
  ReplicationTimeout : Z;
  ReadTimeout : Z;
  StartupGracePeriod : Z;
  DisableAuth : bool;
  BatchThreshold : Z;
  BatchWindow : Z;
  Network : option NetworkOptions;
  Storage : option StorageOptions;
  Log : option LogOption;
}.

Definition emptyNetwork : NetworkOptions := mkNetworkOptions 0 "" 0 0 0 0 0.
Definition emptyStorage : StorageOptions := mkStorageOptions 0 0.
Definition emptyOptions : Options :=
  mkOptions "" "" [] 0 0 0 0 0 0 0 0 0 0 0 0 false 0 0 None None None.

(** A zero field gets its default. *)
Definition or_default (x d : Z) : Z := if x =? 0 then d else x.

Definition networkDefaults (localAddress : string) (n : NetworkOptions) : NetworkOptions :=
  mkNetworkOptions (or_default (no_Type n) TCP)
    (if String.eqb (no_BindAddr n) "" then localAddress else no_BindAddr n)
    (or_default (no_MaxIdle n) 32) (or_default (no_MaxConns n) 128)
    (or_default (no_Timeout n) (10 * Second)) (or_default (no_ReadTimeout n) (5 * Second))
    (or_default (no_WriteTimeout n) (5 * Second)).

Definition defaultLog : LogOption := LoggerOptions "info" "text" "" true false.

Definition applyDefaults (o : Options) : Options :=
  let failure := or_default (FailureTimeout o) (5 * Second) in
  mkOptions (LocalNodeID o) (LocalAddress o) (SeedAddrs o) (TTL o) (HotReadCacheTTL o)
    (HotCacheSize o) (or_default (VirtualNodes o) 128) (or_default (ReplicaCount o) 3)
    (ReadRepairRateLimitPerSec o) failure (or_default (SuspectTimeout o) (failure ÷ 2))
    (or_default (GossipInterval o) (200 * Millisecond))
    (or_default (ReplicationTimeout o) (2 * Second)) (or_default (ReadTimeout o) (5 * Second))
    (or_default (StartupGracePeriod o) Second) (DisableAuth o) (or_default (BatchThreshold o) 10)
    (or_default (BatchWindow o) (10 * Millisecond))
    (Some (networkDefaults (LocalAddress o) (default emptyNetwork (Network o))))
    (Some (let s := default emptyStorage (Storage o) in
           mkStorageOptions (or_default (so_MaxMemoryMB s) 1024) (so_ShardCount s)))
    (Some (default defaultLog (Log o))).

(** * Parsing *)

(** A result, or the name of the field that is not a duration. *)
Definition mbindE {A B} (f : A -> string + B) (x : string + A) : string + B :=
  match x with inl e => inl e | inr a => f a end.
Notation "'let!' x ':=' m 'in' k" := (mbindE (fun x => k) m)
  (at level 10, x name, m at level 100, k at level 200).

Section parse.
Context (fraction : Z -> Z -> Z -> Z).

(** An empty string leaves the field zero. *)
Definition durationField (name s : string) : string + Z :=
  if String.eqb s "" then inr 0
  else match ParseDuration fraction s with Some d => inr d | None => inl name end.

Definition parseNetwork (n : NetworkConfig) : string + NetworkOptions :=
  let type := if String.eqb (nc_Type n) "quic" || String.eqb (nc_Type n) "QUIC" then QUIC else TCP in
  let! timeout := durationField "network timeout" (nc_Timeout n) in
  let! readTimeout := durationField "network read_timeout" (nc_ReadTimeout n) in
  let! writeTimeout := durationField "network write_timeout" (nc_WriteTimeout n) in
  inr (mkNetworkOptions type (nc_BindAddr n) (nc_MaxIdle n) (nc_MaxConns n) timeout readTimeout
         writeTimeout).

(** [ParseConfig] of a document that decodes to [cfg]. *)
Definition ParseConfig (cfg : Config) : string + Options :=
  let! ttl := durationField "ttl" (cf_TTL cfg) in
  let! hotTTL := durationField "hot_read_cache_ttl" (cf_HotReadCacheTTL cfg) in
  let! failure := durationField "failure_timeout" (cf_FailureTimeout cfg) in
  let! suspect := durationField "suspect_timeout" (cf_SuspectTimeout cfg) in
  let! gossip := durationField "gossip_interval" (cf_GossipInterval cfg) in
  let! replication := durationField "replication_timeout" (cf_ReplicationTimeout cfg) in
  let! read := durationField "read_timeout" (cf_ReadTimeout cfg) in
  let! grace := durationField "startup_grace_period" (cf_StartupGracePeriod cfg) in
  let! window := durationField "batch_window" (cf_BatchWindow cfg) in
  let! network := match cf_Network cfg with
                  | Some n => let! n := parseNetwork n in inr (Some n)
                  | None => inr None
                  end in
  inr (applyDefaults (mkOptions (cf_LocalNodeID cfg) (cf_LocalAddress cfg) (cf_SeedAddrs cfg)
    ttl hotTTL (if 0 <? cf_HotCacheSize cfg then cf_HotCacheSize cfg else 10000)
    (cf_VirtualNodes cfg) (cf_ReplicaCount cfg) (cf_ReadRepairRateLimitPerSec cfg)
    failure suspect gossip replication read grace (cf_DisableAuth cfg) (cf_BatchThreshold cfg)
    window network
    ((fun s => mkStorageOptions (sg_MaxMemoryMB s) (sg_ShardCount s)) <$> cf_Storage cfg)
    ((fun l => LoggerOptions (lc_Level l) (lc_Format l) (lc_TimeFormat l) (lc_NoCaller l) (lc_NoTime l))
       <$> cf_Log cfg))).

(** The duration fields in the order in which they are checked. *)
Definition durationFields (cfg : Config) : list (string * string) :=
  [("ttl", cf_TTL cfg); ("hot_read_cache_ttl", cf_HotReadCacheTTL cfg);
   ("failure_timeout", cf_FailureTimeout cfg); ("suspect_timeout", cf_SuspectTimeout cfg);
   ("gossip_interval", cf_GossipInterval cfg); ("replication_timeout", cf_ReplicationTimeout cfg);
   ("read_timeout", cf_ReadTimeout cfg); ("startup_grace_period", cf_StartupGracePeriod cfg);
   ("batch_window", cf_BatchWindow cfg)]%string ++
  match cf_Network cfg with
  | Some n => [("network timeout", nc_Timeout n); ("network read_timeout", nc_ReadTimeout n);
               ("network write_timeout", nc_WriteTimeout n)]%string
  | None => []
  end.

Definition validDuration (s : string) : bool :=
  String.eqb s "" || match ParseDuration fraction s with Some _ => true | None => false end.
End parse.

(** * Functional options *)

Definition Option : Type := Options -> Options.

Definition with_network (f : NetworkOptions -> NetworkOptions) : Option := fun o =>
  mkOptions (LocalNodeID o) (LocalAddress o) (SeedAddrs o) (TTL o) (HotReadCacheTTL o)
    (HotCacheSize o) (VirtualNodes o) (ReplicaCount o) (ReadRepairRateLimitPerSec o)
    (FailureTimeout o) (SuspectTimeout o) (GossipInterval o) (ReplicationTimeout o) (ReadTimeout o)
    (StartupGracePeriod o) (DisableAuth o) (BatchThreshold o) (BatchWindow o)
    (Some (f (default emptyNetwork (Network o)))) (Storage o) (Log o).
Definition with_storage (f : StorageOptions -> StorageOptions) : Option := fun o =>
  mkOptions (LocalNodeID o) (LocalAddress o) (SeedAddrs o) (TTL o) (HotReadCacheTTL o)
    (HotCacheSize o) (VirtualNodes o) (ReplicaCount o) (ReadRepairRateLimitPerSec o)
    (FailureTimeout o) (SuspectTimeout o) (GossipInterval o) (ReplicationTimeout o) (ReadTimeout o)
    (StartupGracePeriod o) (DisableAuth o) (BatchThreshold o) (BatchWindow o)
    (Network o) (Some (f (default emptyStorage (Storage o)))) (Log o).
Definition with_identity (nodeID addr : string) (seeds : list string) : Option := fun o =>
  mkOptions nodeID addr seeds (TTL o) (HotReadCacheTTL o)
    (HotCacheSize o) (VirtualNodes o) (ReplicaCount o) (ReadRepairRateLimitPerSec o)
    (FailureTimeout o) (SuspectTimeout o) (GossipInterval o) (ReplicationTimeout o) (ReadTimeout o)
    (StartupGracePeriod o) (DisableAuth o) (BatchThreshold o) (BatchWindow o)
    (Network o) (Storage o) (Log o).
Definition with_data (ttl hotTTL size vnodes replicas repair : Z) : Option := fun o =>
  mkOptions (LocalNodeID o) (LocalAddress o) (SeedAddrs o) ttl hotTTL size vnodes replicas repair
    (FailureTimeout o) (SuspectTimeout o) (GossipInterval o) (ReplicationTimeout o) (ReadTimeout o)
    (StartupGracePeriod o) (DisableAuth o) (BatchThreshold o) (BatchWindow o)
    (Network o) (Storage o) (Log o).
Definition with_times (failure suspect gossip replication read grace : Z) (auth : bool)
    (threshold window : Z) : Option := fun o =>
  mkOptions (LocalNodeID o) (LocalAddress o) (SeedAddrs o) (TTL o) (HotReadCacheTTL o)
    (HotCacheSize o) (VirtualNodes o) (ReplicaCount o) (ReadRepairRateLimitPerSec o)
    failure suspect gossip replication read grace auth threshold window
    (Network o) (Storage o) (Log o).

Definition WithLocalNodeID (id : string) : Option := fun o =>
  with_identity id (LocalAddress o) (SeedAddrs o) o.
Definition WithLocalAddress (addr : string) : Option := fun o =>
  with_identity (LocalNodeID o) addr (SeedAddrs o) o.
Definition WithSeedAddrs (addrs : list string) : Option := fun o =>
  with_identity (LocalNodeID o) (LocalAddress o) addrs o.
Definition WithTTL (ttl : Z) : Option := fun o =>
  with_data ttl (HotReadCacheTTL o) (HotCacheSize o) (VirtualNodes o) (ReplicaCount o)
    (ReadRepairRateLimitPerSec o) o.
Definition WithHotReadCacheTTL (ttl : Z) : Option := fun o =>
  with_data (TTL o) ttl (HotCacheSize o) (VirtualNodes o) (ReplicaCount o)
    (ReadRepairRateLimitPerSec o) o.
Definition WithHotCacheSize (size : Z) : Option := fun o =>
  with_data (TTL o) (HotReadCacheTTL o) size (VirtualNodes o) (ReplicaCount o)
    (ReadRepairRateLimitPerSec o) o.
Definition WithVirtualNodes (count : Z) : Option := fun o =>
  with_data (TTL o) (HotReadCacheTTL o) (HotCacheSize o) count (ReplicaCount o)
    (ReadRepairRateLimitPerSec o) o.
Definition WithReplicaCount (count : Z) : Option := fun o =>
  with_data (TTL o) (HotReadCacheTTL o) (HotCacheSize o) (VirtualNodes o) count
    (ReadRepairRateLimitPerSec o) o.
Definition WithReadRepairRateLimit (limit : Z) : Option := fun o =>
  with_data (TTL o) (HotReadCacheTTL o) (HotCacheSize o) (VirtualNodes o) (ReplicaCount o) limit o.
Definition WithFailureTimeout (t : Z) : Option := fun o =>
  with_times t (SuspectTimeout o) (GossipInterval o) (ReplicationTimeout o) (ReadTimeout o)
    (StartupGracePeriod o) (DisableAuth o) (BatchThreshold o) (BatchWindow o) o.
Definition WithSuspectTimeout (t : Z) : Option := fun o =>
  with_times (FailureTimeout o) t (GossipInterval o) (ReplicationTimeout o) (ReadTimeout o)
    (StartupGracePeriod o) (DisableAuth o) (BatchThreshold o) (BatchWindow o) o.
Definition WithGossipInterval (t : Z) : Option := fun o =>
  with_times (FailureTimeout o) (SuspectTimeout o) t (ReplicationTimeout o) (ReadTimeout o)
    (StartupGracePeriod o) (DisableAuth o) (BatchThreshold o) (BatchWindow o) o.
Definition WithReplicationTimeout (t : Z) : Option := fun o =>
  with_times (FailureTimeout o) (SuspectTimeout o) (GossipInterval o) t (ReadTimeout o)
    (StartupGracePeriod o) (DisableAuth o) (BatchThreshold o) (BatchWindow o) o.
Definition WithReadTimeout (t : Z) : Option := fun o =>
  with_times (FailureTimeout o) (SuspectTimeout o) (GossipInterval o) (ReplicationTimeout o) t
    (StartupGracePeriod o) (DisableAuth o) (BatchThreshold o) (BatchWindow o) o.
Definition WithStartupGracePeriod (t : Z) : Option := fun o =>
  with_times (FailureTimeout o) (SuspectTimeout o) (GossipInterval o) (ReplicationTimeout o)
    (ReadTimeout o) t (DisableAuth o) (BatchThreshold o) (BatchWindow o) o.
Definition WithDisableAuth (b : bool) : Option := fun o =>
  with_times (FailureTimeout o) (SuspectTimeout o) (GossipInterval o) (ReplicationTimeout o)
    (ReadTimeout o) (StartupGracePeriod o) b (BatchThreshold o) (BatchWindow o) o.
Definition WithBatchThreshold (n : Z) : Option := fun o =>
  with_times (FailureTimeout o) (SuspectTimeout o) (GossipInterval o) (ReplicationTimeout o)
    (ReadTimeout o) (StartupGracePeriod o) (DisableAuth o) n (BatchWindow o) o.
Definition WithBatchWindow (t : Z) : Option := fun o =>
  with_times (FailureTimeout o) (SuspectTimeout o) (GossipInterval o) (ReplicationTimeout o)
    (ReadTimeout o) (StartupGracePeriod o) (DisableAuth o) (BatchThreshold o) t o.
Definition WithNetworkType (t : Z) : Option := with_network (fun n =>
  mkNetworkOptions t (no_BindAddr n) (no_MaxIdle n) (no_MaxConns n) (no_Timeout n)
    (no_ReadTimeout n) (no_WriteTimeout n)).
Definition WithNetworkBindAddr (a : string) : Option := with_network (fun n =>
  mkNetworkOptions (no_Type n) a (no_MaxIdle n) (no_MaxConns n) (no_Timeout n)
    (no_ReadTimeout n) (no_WriteTimeout n)).
Definition WithNetworkMaxIdle (k : Z) : Option := with_network (fun n =>
  mkNetworkOptions (no_Type n) (no_BindAddr n) k (no_MaxConns n) (no_Timeout n)
    (no_ReadTimeout n) (no_WriteTimeout n)).
Definition WithNetworkMaxConns (k : Z) : Option := with_network (fun n =>
  mkNetworkOptions (no_Type n) (no_BindAddr n) (no_MaxIdle n) k (no_Timeout n)
    (no_ReadTimeout n) (no_WriteTimeout n)).
Definition WithNetworkTimeout (t : Z) : Option := with_network (fun n =>
  mkNetworkOptions (no_Type n) (no_BindAddr n) (no_MaxIdle n) (no_MaxConns n) t
    (no_ReadTimeout n) (no_WriteTimeout n)).
Definition WithNetworkReadTimeout (t : Z) : Option := with_network (fun n =>
  mkNetworkOptions (no_Type n) (no_BindAddr n) (no_MaxIdle n) (no_MaxConns n) (no_Timeout n)
    t (no_WriteTimeout n)).
Definition WithNetworkWriteTimeout (t : Z) : Option := with_network (fun n =>
  mkNetworkOptions (no_Type n) (no_BindAddr n) (no_MaxIdle n) (no_MaxConns n) (no_Timeout n)
    (no_ReadTimeout n) t).
Definition WithStorageMaxMemoryMB (mb : Z) : Option := with_storage (fun s =>
  mkStorageOptions mb (so_ShardCount s)).
Definition WithStorageShardCount (n : Z) : Option := with_storage (fun s =>
  mkStorageOptions (so_MaxMemoryMB s) n).
(** [log] may be nil. *)
Definition WithLogger (log : option LogOption) : Option := fun o =>
  mkOptions (LocalNodeID o) (LocalAddress o) (SeedAddrs o) (TTL o) (HotReadCacheTTL o)
    (HotCacheSize o) (VirtualNodes o) (ReplicaCount o) (ReadRepairRateLimitPerSec o)
    (FailureTimeout o) (SuspectTimeout o) (GossipInterval o) (ReplicationTimeout o) (ReadTimeout o)
    (StartupGracePeriod o) (DisableAuth o) (BatchThreshold o) (BatchWindow o)
    (Network o) (Storage o) log.
Definition WithLoggerOptions (l : LogOption) : Option := WithLogger (Some l).

(** * The options of NewGridKV *)

Inductive optionArg := ArgOptions (o : option Options) | ArgOption (f : Option) | ArgOther.

Inductive optionsErr :=
| errOptionsRequired | errMixed | errInvalidType | errNilOptions | errNoNodeID | errNoAddress.

Fixpoint applyAll (o : Options) (args : list optionArg) : optionsErr + Options :=
  match args with
  | [] => inr o
  | ArgOption f :: args => applyAll (f o) args
  | _ :: _ => inl errInvalidType
  end.

(** The arguments of [NewGridKV] up to its checks of the required fields. *)
Definition buildOptions (args : list optionArg) : optionsErr + Options :=
  let opts :=
    match args with
    | [] => inl errOptionsRequired
    | ArgOptions o :: rest =>
        match rest, o with
        | _ :: _, _ => inl errMixed
        | [], None => inl errNilOptions
        | [], Some o => inr o
        end
    | _ => applyAll emptyOptions args
    end in
  match opts with
  | inl e => inl e
  | inr o =>
      let o := applyDefaults o in
      if String.eqb (LocalNodeID o) "" then inl errNoNodeID
      else if String.eqb (LocalAddress o) "" then inl errNoAddress
      else inr o
  end.

(** The settings of the connection pool: those of the network options, a
    timeout for idle connections, and zero for the rest. *)
Definition poolConfig (o : Options) : PoolConfig :=
  let n := default emptyNetwork (Network o) in
  mkPoolConfig (if 0 <? no_MaxIdle n then no_MaxIdle n else 0)
    (if 0 <? no_MaxConns n then no_MaxConns n else 0) (30 * Second) 0.

Definition bindAddr (o : Options) : string :=
  match Network o with
  | Some n => if String.eqb (no_BindAddr n) "" then LocalAddress o else no_BindAddr n
  | None => LocalAddress o
  end.

(** * Complete options *)

Record network_complete (localAddress : string) (n : NetworkOptions) : Prop := {
  nw_type : no_Type n <> 0;
  nw_bind : no_BindAddr n <> EmptyString \/ localAddress = EmptyString;
  nw_idle : no_MaxIdle n <> 0;
  nw_conns : no_MaxConns n <> 0;
  nw_timeout : no_Timeout n <> 0;
  nw_read : no_ReadTimeout n <> 0;
  nw_write : no_WriteTimeout n <> 0;
}.

(** Every field the rest of the program relies on is set. *)
Record complete (o : Options) : Prop := {
  cp_network : exists n, Network o = Some n /\ network_complete (LocalAddress o) n;
  cp_storage : exists s, Storage o = Some s /\ so_MaxMemoryMB s <> 0;
  cp_log : is_Some (Log o);
  cp_vnodes : VirtualNodes o <> 0;
  cp_replicas : ReplicaCount o <> 0;
  cp_failure : FailureTimeout o <> 0;
  cp_suspect : SuspectTimeout o <> 0 \/ FailureTimeout o ÷ 2 = 0;
  cp_gossip : GossipInterval o <> 0;
  cp_replication : ReplicationTimeout o <> 0;
  cp_read : ReadTimeout o <> 0;
  cp_grace : StartupGracePeriod o <> 0;
  cp_threshold : BatchThreshold o <> 0;
  cp_window : BatchWindow o <> 0;
}.

Lemma or_default_ne x d : d <> 0 -> or_default x d <> 0.
Proof. unfold or_default. destruct (Z.eqb_spec x 0); done. Qed.
Lemma or_default_set x d : x <> 0 -> or_default x d = x.
Proof. unfold or_default. by destruct (Z.eqb_spec x 0). Qed.

Lemma defaults_complete_network a n : network_complete a (networkDefaults a n).
Proof.
  split; cbn; try (apply or_default_ne; done).
  destruct (String.eqb_spec (no_BindAddr n) ""); [|by left].
  destruct a; [by right|by left].
Qed.

Lemma defaults_fixed_network a n : network_complete a n -> networkDefaults a n = n.
Proof.
  intros [? Hb ? ? ? ? ?]. unfold networkDefaults. destruct n as [t b i c t1 t2 t3]. cbn in *.
  rewrite !or_default_set by done. f_equal.
  destruct (String.eqb_spec b "") as [->|]; [|done]. by destruct Hb.
Qed.

Lemma defaults_complete o : complete (applyDefaults o).
Proof.
  split; cbn [applyDefaults Network Storage Log VirtualNodes ReplicaCount FailureTimeout SuspectTimeout
    GossipInterval ReplicationTimeout ReadTimeout StartupGracePeriod BatchThreshold BatchWindow
    LocalAddress]; try (apply or_default_ne; done); [..|done|].
  - eexists. split; [done|]. apply defaults_complete_network.
  - eexists. split; [done|]. cbn. apply or_default_ne. done.
  - unfold or_default at 1. destruct (Z.eqb_spec (SuspectTimeout o) 0); [|by left].
    destruct (decide (or_default (FailureTimeout o) (5 * Second) ÷ 2 = 0)); auto.
Qed.

Lemma defaults_fixed o : complete o -> applyDefaults o = o.
Proof.
  intros [(n & Hn & Hnc) (s & Hs & Hm) [l Hl] ? ? ? Hsu ? ? ? ? ? ?]. unfold applyDefaults.
  rewrite Hn, Hs, Hl. cbn [default from_option id]. rewrite (defaults_fixed_network _ n Hnc).
  destruct s as [mb sc]. cbn [so_MaxMemoryMB so_ShardCount] in *.
  rewrite (or_default_set (FailureTimeout o)) by done.
  assert (or_default (SuspectTimeout o) (FailureTimeout o ÷ 2) = SuspectTimeout o) as ->.
  { unfold or_default. destruct (Z.eqb_spec (SuspectTimeout o) 0) as [E|]; [|done].
    destruct Hsu as [?|Hsu]; [done|]. by rewrite Hsu, E. }
  rewrite !or_default_set by done. destruct o; cbn in *. by subst.
Qed.

(** Options [o'] that have every field that is set in [o]. *)
Definition kept (x y : Z) : Prop := x <> 0 -> y = x.

Record network_kept (n n' : NetworkOptions) : Prop := {
  nk_Type : kept (no_Type n) (no_Type n');
  nk_BindAddr : no_BindAddr n <> ""%string -> no_BindAddr n' = no_BindAddr n;
  nk_MaxIdle : kept (no_MaxIdle n) (no_MaxIdle n');
  nk_MaxConns : kept (no_MaxConns n) (no_MaxConns n');
  nk_Timeout : kept (no_Timeout n) (no_Timeout n');
  nk_ReadTimeout : kept (no_ReadTimeout n) (no_ReadTimeout n');
  nk_WriteTimeout : kept (no_WriteTimeout n) (no_WriteTimeout n');
}.

Record options_kept (o o' : Options) : Prop := {
  ok_identity : (LocalNodeID o', LocalAddress o', SeedAddrs o', DisableAuth o') =
                (LocalNodeID o, LocalAddress o, SeedAddrs o, DisableAuth o);
  ok_cache : (TTL o', HotReadCacheTTL o', HotCacheSize o', ReadRepairRateLimitPerSec o') =
             (TTL o, HotReadCacheTTL o, HotCacheSize o, ReadRepairRateLimitPerSec o);
  ok_VirtualNodes : kept (VirtualNodes o) (VirtualNodes o');
  ok_ReplicaCount : kept (ReplicaCount o) (ReplicaCount o');
  ok_FailureTimeout : kept (FailureTimeout o) (FailureTimeout o');
  ok_SuspectTimeout : kept (SuspectTimeout o) (SuspectTimeout o');
  ok_GossipInterval : kept (GossipInterval o) (GossipInterval o');
  ok_ReplicationTimeout : kept (ReplicationTimeout o) (ReplicationTimeout o');
  ok_ReadTimeout : kept (ReadTimeout o) (ReadTimeout o');
  ok_StartupGracePeriod : kept (StartupGracePeriod o) (StartupGracePeriod o');
  ok_BatchThreshold : kept (BatchThreshold o) (BatchThreshold o');
  ok_BatchWindow : kept (BatchWindow o) (BatchWindow o');
  ok_Network : forall n, Network o = Some n -> exists n', Network o' = Some n' /\ network_kept n n';
  ok_Storage : forall st, Storage o = Some st -> exists st', Storage o' = Some st' /\
    kept (so_MaxMemoryMB st) (so_MaxMemoryMB st') /\ so_ShardCount st' = so_ShardCount st;
  ok_Log : forall l, Log o = Some l -> Log o' = Some l;
}.

Lemma defaults_kept_network a n : network_kept n (networkDefaults a n).
Proof.
  split; unfold kept; cbn; try apply or_default_set. by destruct (String.eqb_spec (no_BindAddr n) "").
Qed.

Lemma defaults_kept o : options_kept o (applyDefaults o).
Proof.
  split; unfold kept; cbn [applyDefaults LocalNodeID LocalAddress SeedAddrs TTL HotReadCacheTTL HotCacheSize
    VirtualNodes ReplicaCount ReadRepairRateLimitPerSec FailureTimeout SuspectTimeout GossipInterval ReplicationTimeout
    ReadTimeout StartupGracePeriod DisableAuth BatchThreshold BatchWindow Network Storage Log];
    try apply or_default_set; [done|done|intros n ->|intros st ->|by intros l ->].
  - eexists. split; [done|]. apply defaults_kept_network.
  - eexists. split; [done|]. split; [apply or_default_set|done].
Qed.

(** C37. The defaults make options well formed and change only what is unset:
    after them every field the program relies on is set, whatever the options
    were; each field that was set keeps its value whichever others were not,
    down to those of network and storage, and the fields without a default stay
    as they are; nothing at all changes exactly in options that were complete,
    so that a second application has no effect. *)
Theorem defaults_projection o :
  complete (applyDefaults o) /\ options_kept o (applyDefaults o) /\
  (applyDefaults o = o <-> complete o) /\
  applyDefaults (applyDefaults o) = applyDefaults o.
Proof.
  pose proof (defaults_complete o) as Hc. split_and!; [done|apply defaults_kept| |by apply defaults_fixed].
  split; [intros <-; done|apply defaults_fixed].
Qed.

(** * Which documents parse *)

Lemma durationField_valid fraction name s :
  durationField fraction name s =
    if validDuration fraction s
    then inr (if String.eqb s "" then 0 else default 0 (ParseDuration fraction s)) else inl name.
Proof.
  unfold durationField, validDuration. destruct (String.eqb s ""); [done|].
  by destruct (ParseDuration fraction s).
Qed.

(** The first field that is not a duration. *)
Definition firstInvalid fraction (fields : list (string * string)) : option string :=
  fst <$> find (fun f => negb (validDuration fraction (snd f))) fields.

Lemma first_bind {A B} fraction (name s : string) rest (f : A -> string + B) (x : string + A) :
  (match x with inl e => validDuration fraction s = false /\ e = name
           | inr a => validDuration fraction s = true /\
                      match f a with inl e => firstInvalid fraction rest = Some e
                                | inr _ => firstInvalid fraction rest = None end end) ->
  match mbindE f x with
  | inl e => firstInvalid fraction ((name, s) :: rest) = Some e
  | inr _ => firstInvalid fraction ((name, s) :: rest) = None
  end.
Proof.
  unfold firstInvalid. destruct x as [e|a]; cbn [mbindE find snd].
  - intros [-> ->]. done.
  - intros [-> H]. cbn [negb]. done.
Qed.

Lemma mbindE_assoc {A B C} (f : B -> string + C) (g : A -> string + B) x :
  mbindE f (mbindE g x) = mbindE (fun a => mbindE f (g a)) x.
Proof. by destruct x. Qed.

Ltac next_field := apply first_bind; rewrite durationField_valid;
  match goal with |- context [validDuration ?f ?s] => destruct (validDuration f s) eqn:? end;
  [split; [done|]|done].

Lemma ParseConfig_first fraction cfg :
  match ParseConfig fraction cfg with
  | inl e => firstInvalid fraction (durationFields cfg) = Some e
  | inr _ => firstInvalid fraction (durationFields cfg) = None
  end.
Proof.
  unfold ParseConfig, durationFields. cbn [app]. do 9 next_field.
  destruct (cf_Network cfg) as [n|]; [|done]. unfold parseNetwork.
  rewrite !mbindE_assoc. next_field. rewrite !mbindE_assoc. next_field.
  rewrite !mbindE_assoc. next_field. done.
Qed.

Lemma firstInvalid_split fraction fields e :
  firstInvalid fraction fields = Some e ->
  exists pre s post, fields = pre ++ (e, s) :: post /\ validDuration fraction s = false /\
    Forall (fun f => validDuration fraction (snd f) = true) pre.
Proof.
  unfold firstInvalid. induction fields as [|[n s] fields IH]; [done|]. cbn [find snd].
  destruct (validDuration fraction s) eqn:E; cbn [negb].
  - intros (pre & s' & post & -> & Hs & Hf)%IH. exists ((n, s) :: pre), s', post. auto.
  - intros [= <-]. exists [], s, fields. auto.
Qed.

Lemma firstInvalid_none fraction fields :
  firstInvalid fraction fields = None ->
  Forall (fun f => validDuration fraction (snd f) = true) fields.
Proof.
  unfold firstInvalid. induction fields as [|[n s] fields IH]; [done|]. cbn [find snd].
  destruct (validDuration fraction s) eqn:E; cbn [negb]; [|done]. auto.
Qed.

(** The value of a duration field. *)
Definition durationOf fraction (s : string) : Z :=
  if String.eqb s "" then 0 else default 0 (ParseDuration fraction s).

Lemma mbindE_inr {A B} (f : A -> string + B) x b :
  mbindE f x = inr b -> exists a, x = inr a /\ f a = inr b.
Proof. destruct x as [e|a]; [done|]. eauto. Qed.

Lemma durationField_inr fraction name s d :
  durationField fraction name s = inr d -> d = durationOf fraction s.
Proof. rewrite durationField_valid. case_match; [|done]. by intros [= <-]. Qed.

Lemma ParseConfig_values fraction cfg o :
  ParseConfig fraction cfg = inr o ->
  LocalNodeID o = cf_LocalNodeID cfg /\ LocalAddress o = cf_LocalAddress cfg /\
  SeedAddrs o = cf_SeedAddrs cfg /\ TTL o = durationOf fraction (cf_TTL cfg) /\
  HotReadCacheTTL o = durationOf fraction (cf_HotReadCacheTTL cfg) /\
  (durationOf fraction (cf_FailureTimeout cfg) <> 0 ->
   FailureTimeout o = durationOf fraction (cf_FailureTimeout cfg)) /\
  (durationOf fraction (cf_GossipInterval cfg) <> 0 ->
   GossipInterval o = durationOf fraction (cf_GossipInterval cfg)) /\
  (cf_ReplicaCount cfg <> 0 -> ReplicaCount o = cf_ReplicaCount cfg) /\
  0 < HotCacheSize o /\ complete o.
Proof.
  unfold ParseConfig. intros H.
  do 10 (apply mbindE_inr in H as (? & ? & H)). injection H as <-.
  repeat match goal with E : durationField _ _ _ = inr _ |- _ => apply durationField_inr in E; subst end.
  split_and!; try done; try (intros; by apply or_default_set); [|apply defaults_complete].
  cbn [applyDefaults HotCacheSize]. destruct (Z.ltb_spec 0 (cf_HotCacheSize cfg)); lia.
Qed.

(** Parsing a configuration: a document is refused exactly when one of
    its durations is not one, and the error names the first such field in the
    order of the checks; otherwise the options carry the document's
    identity, seeds and times to live, its failure timeout, gossip interval
    and replica count where these are not zero, a positive cache size, and
    are complete: what is missing has its default. *)
Theorem parse_config fraction cfg :
  match ParseConfig fraction cfg with
  | inl e => exists pre s post, durationFields cfg = pre ++ (e, s) :: post /\
      s <> EmptyString /\ ParseDuration fraction s = None /\
      Forall (fun f => snd f = EmptyString \/ is_Some (ParseDuration fraction (snd f))) pre
  | inr o =>
      Forall (fun f => snd f = EmptyString \/ is_Some (ParseDuration fraction (snd f)))
        (durationFields cfg) /\
      LocalNodeID o = cf_LocalNodeID cfg /\ LocalAddress o = cf_LocalAddress cfg /\
      SeedAddrs o = cf_SeedAddrs cfg /\ TTL o = durationOf fraction (cf_TTL cfg) /\
      HotReadCacheTTL o = durationOf fraction (cf_HotReadCacheTTL cfg) /\
      (durationOf fraction (cf_FailureTimeout cfg) <> 0 ->
       FailureTimeout o = durationOf fraction (cf_FailureTimeout cfg)) /\
      (durationOf fraction (cf_GossipInterval cfg) <> 0 ->
       GossipInterval o = durationOf fraction (cf_GossipInterval cfg)) /\
      (cf_ReplicaCount cfg <> 0 -> ReplicaCount o = cf_ReplicaCount cfg) /\
      0 < HotCacheSize o /\ complete o
  end.
Proof.
  assert (Hv : forall s, validDuration fraction s = true ->
                 s = EmptyString \/ is_Some (ParseDuration fraction s)).
  { intros s. unfold validDuration. destruct (String.eqb_spec s ""); [by left|].
    destruct (ParseDuration fraction s); [right; eauto|done]. }
  pose proof (ParseConfig_first fraction cfg) as H.
  destruct (ParseConfig fraction cfg) as [e|o] eqn:E.
  - apply firstInvalid_split in H as (pre & s & post & -> & Hs & Hf). exists pre, s, post.
    unfold validDuration in Hs. apply orb_false_iff in Hs as [Hne Hs].
    split_and!; [done| | |eapply Forall_impl; [exact Hf|]; auto].
    + by apply String.eqb_neq.
    + by destruct (ParseDuration fraction s).
  - apply ParseConfig_values in E. split; [|exact E].
    eapply Forall_impl; [by apply firstInvalid_none|]. auto.
Qed.

(** * Whole numbers of a unit *)

Definition digitChar (d : nat) : ascii := ascii_of_nat (48 + d).
Fixpoint number (ds : list nat) (rest : string) : string :=
  match ds with [] => rest | d :: ds => String (digitChar d) (number ds rest) end.
Definition value (x : Z) (ds : list nat) : Z := foldl (fun x d => x * 10 + Z.of_nat d) x ds.

Lemma digitChar_spec d : (d < 10)%nat ->
  isDigit (digitChar d) = true /\ digit (digitChar d) = Z.of_nat d.
Proof. intros H. do 10 (destruct d as [|d]; [done|]). lia. Qed.

Lemma value_ge ds x : 0 <= x -> x <= value x ds.
Proof.
  revert x. induction ds as [|d ds IH]; intros x Hx; [unfold value; simpl; lia|].
  change (value x (d :: ds)) with (value (x * 10 + Z.of_nat d) ds).
  specialize (IH (x * 10 + Z.of_nat d) ltac:(lia)). lia.
Qed.

Lemma leadingInt_number ds x c rest :
  Forall (fun d => d < 10)%nat ds -> 0 <= x -> value x ds <= 2 ^ 63 -> isDigit c = false ->
  leadingInt x (number ds (String c rest)) = Some (value x ds, String c rest).
Proof.
  intros Hd. revert x. induction Hd as [|d ds Hd Hds IH]; intros x Hx Hv Hc; cbn [number leadingInt].
  - by rewrite Hc.
  - destruct (digitChar_spec d Hd) as [-> ->].
    change (value x (d :: ds)) with (value (x * 10 + Z.of_nat d) ds) in *.
    pose proof (value_ge ds (x * 10 + Z.of_nat d) ltac:(lia)).
    destruct (Z.ltb_spec (2 ^ 63 / 10) x) as [Hlt|_].
    { assert (2 ^ 63 / 10 * 10 + 10 <= x * 10) by lia.
      change (2 ^ 63 / 10) with 922337203685477580 in *. change (2 ^ 63) with 9223372036854775808 in *. lia. }
    destruct (Z.ltb_spec (2 ^ 63) (x * 10 + Z.of_nat d)); [lia|]. apply IH; (done || lia).
Qed.

Lemma number_length ds s : String.length (number ds s) = (length ds + String.length s)%nat.
Proof. induction ds; simpl; auto. Qed.

(** The units, and that they are units. *)
Definition units : list string := ["ns"; "us"; "ms"; "s"; "m"; "h"]%string.

Lemma units_spec u : u ∈ units -> exists c r unit,
  u = String c r /\ isNumeric c = false /\ unitMap u = Some unit /\ 0 < unit /\
  leadingUnit u = (u, EmptyString).
Proof.
  unfold units. intros H. repeat (apply elem_of_cons in H as [->|H]; [do 3 eexists; split_and!; reflexivity|]).
  by apply elem_of_nil in H.
Qed.

Lemma component_whole fraction d ds c r unit :
  Forall (fun d => d < 10)%nat (d :: ds) -> value 0 (d :: ds) <= 2 ^ 63 ->
  isNumeric c = false -> leadingUnit (String c r) = (String c r, EmptyString) ->
  unitMap (String c r) = Some unit -> 0 < unit ->
  component fraction (number (d :: ds) (String c r)) =
    if 2 ^ 63 / unit <? value 0 (d :: ds) then None
    else Some (value 0 (d :: ds) * unit, EmptyString).
Proof.
  intros Hd Hv Hc Hl Hunit Hpos. pose proof (value_ge (d :: ds) 0 ltac:(lia)) as Hv0.
  pose proof Hc as Hc'. unfold isNumeric in Hc'. apply orb_false_iff in Hc' as [Hcp Hcd].
  pose proof (leadingInt_number (d :: ds) 0 c r Hd ltac:(lia) Hv Hcd) as Hli.
  apply Forall_cons in Hd as [Hd _]. destruct (digitChar_spec d Hd) as [Hdig _].
  cbn [number component]. unfold isNumeric. rewrite Hdig, orb_true_r.
  change (String (digitChar d) (number ds (String c r))) with (number (d :: ds) (String c r)).
  rewrite Hli, number_length. cbn [length].
  destruct (Nat.eqb_spec (String.length (String c r)) (S (length ds) + String.length (String c r))); [lia|].
  assert (Hm : match String c r with
    | String "." s' => let '(f, scale, s2) := leadingFraction 0 1 false s' in
                (f, scale, s2, negb (String.length s2 =? String.length s')%nat)
    | _ => (0, 1, String c r, false) end = (0, 1, String c r, false)).
  { clear -Hcp. destruct c as [[] [] [] [] [] [] [] []]; try reflexivity. discriminate. }
  rewrite Hm. cbn [negb orb]. rewrite Hl, Hunit.
  destruct (String.eqb_spec (String c r) ""); [done|].
  destruct (Z.ltb_spec (2 ^ 63 / unit) (value 0 (d :: ds))) as [|Hle]; [done|].
  rewrite Z.ltb_irrefl. destruct (Z.ltb_spec (2 ^ 63) (value 0 (d :: ds) * unit)); [|done].
  pose proof (Z.mul_div_le (2 ^ 63) unit Hpos). nia.
Qed.

Lemma no_sign d s : (d < 10)%nat ->
  match String (digitChar d) s with
  | String "-" s' => (true, s') | String "+" s' => (false, s')
  | _ => (false, String (digitChar d) s) end = (false, String (digitChar d) s).
Proof. intros Hd. do 10 (destruct d as [|d]; [reflexivity|]). lia. Qed.

(** Durations: a whole number followed by one of the units ns, us, ms,
    s, m, h parses to that many units, for every number whose value in
    nanoseconds fits a signed 64-bit integer, and is refused above. *)
Theorem duration_whole fraction ds u unit :
  ds <> [] -> Forall (fun d => d < 10)%nat ds -> u ∈ units -> unitMap u = Some unit ->
  value 0 ds <= 2 ^ 63 ->
  ParseDuration fraction (number ds u) =
    if value 0 ds * unit <=? 2 ^ 63 - 1 then Some (value 0 ds * unit) else None.
Proof.
  intros Hne Hd Hu Hunit Hv. destruct (units_spec u Hu) as (c & r & k & -> & Hc & Hk & Hpos & Hl).
  assert (k = unit) as -> by congruence. destruct ds as [|d ds]; [done|].
  pose proof (value_ge (d :: ds) 0 ltac:(lia)) as Hv0.
  pose proof (component_whole fraction d ds c r unit Hd Hv Hc Hl Hunit Hpos) as Hcomp.
  unfold ParseDuration. cbn [number]. rewrite no_sign by (by apply Forall_cons in Hd as [? _]).
  change (String (digitChar d) (number ds (String c r))) with (number (d :: ds) (String c r)).
  destruct (String.eqb_spec (number (d :: ds) (String c r)) "0") as [E|_].
  { apply (f_equal String.length) in E. rewrite number_length in E. simpl in E. lia. }
  destruct (String.eqb_spec (number (d :: ds) (String c r)) "") as [E|_]; [done|].
  rewrite number_length. cbn [length String.length Nat.add].
  set (fuel := S (length ds + S (String.length r))). cbn [durationLoop].
  rewrite Hcomp. cbn [number].
  destruct (Z.ltb_spec (2 ^ 63 / unit) (value 0 (d :: ds))) as [Hgt|Hle].
  - destruct (Z.leb_spec (value 0 (d :: ds) * unit) (2 ^ 63 - 1)); [|done].
    pose proof (Z.mul_succ_div_gt (2 ^ 63) unit Hpos). nia.
  - rewrite Z.add_0_l. pose proof (Z.mul_div_le (2 ^ 63) unit Hpos).
    destruct (Z.ltb_spec (2 ^ 63) (value 0 (d :: ds) * unit)); [nia|].
    unfold fuel. cbn [durationLoop].
    destruct (Z.ltb_spec (2 ^ 63 - 1) (value 0 (d :: ds) * unit)),
      (Z.leb_spec (value 0 (d :: ds) * unit) (2 ^ 63 - 1)); (done || lia).
Qed.

Lemma duration_whole_witness :
  ParseDuration (fun _ _ _ => 0) "250ms" = Some (250 * Millisecond) /\
  ParseDuration (fun _ _ _ => 0) "9223372037s" = None.
Proof.
  split.
  - exact (duration_whole (fun _ _ _ => 0) [2; 5; 0]%nat "ms" Millisecond ltac:(done)
      ltac:(repeat constructor) ltac:(set_solver) ltac:(reflexivity) ltac:(vm_compute; discriminate)).
  - vm_compute. reflexivity.
Defined.

(** * The README's example *)

(** With the options of the README a node reaches its peer by the name
    localhost; from the 129th use on it gets no connection. *)
Lemma readme_exhausts :
  exists o, buildOptions [ArgOptions (Some (WithSeedAddrs ["localhost:8081"%string]
              (WithLocalAddress "localhost:8080" (WithLocalNodeID "node-1" emptyOptions))))] = inr o /\
    MaxActive (poolConfig o) = 128 /\
    fst (useTimes 130 "localhost:8081" "127.0.0.1:8081" (NewConnPool (poolConfig o))) =
      replicate 128 true ++ [false; false].
Proof.
  eexists. split; [vm_compute; reflexivity|]. split; [vm_compute; reflexivity|].
  rewrite (useTimes_stranded 130 _ _ (mkPoolConfig 32 128 (30 * Second) 0) 0); try done.
Qed.
