(* ===== verification/Transport.v ===== *)
(** * Transports

    internal/network/transport.go: the configuration of a transport, the
    deadlines, and sending, receiving, dialling and accepting over TCP and
    QUIC.  The sockets and the quic-go library are outside: a stream is what
    its writes have put on it, and takes a number of bytes before it fails. *)

From Stdlib Require Import Strings.Byte.
From S2P Require Import Prelude StoredItem Compress Wire.

(** * Configuration *)

Definition TransportTCP : string := "tcp".
Definition TransportQUIC : string := "quic".

Record TransportConfig := mkTransportConfig {
  tc_Type : string;
  tc_Timeout : Z;
  tc_ReadTimeout : Z;
  tc_WriteTimeout : Z;
  tc_KeepAlive : bool;
  tc_KeepAliveInterval : Z;
  tc_MaxMessageSize : Z;
  tc_EnableZeroCopy : bool;
}.

Definition DefaultTransportConfig : TransportConfig :=
  mkTransportConfig TransportTCP (5 * Second) (30 * Second) (30 * Second) true (30 * Second) (10 * 1024 * 1024) true.

Inductive transport := TCPTransport (cfg : TransportConfig) | QUICTransport (cfg : TransportConfig).

(** [None]: ErrTransportNotSupported. *)
Definition NewTransport (cfg : TransportConfig) : option transport :=
  if bool_decide (tc_Type cfg = TransportTCP) then Some (TCPTransport cfg)
  else if bool_decide (tc_Type cfg = TransportQUIC) then Some (QUICTransport cfg)
  else None.

(** * Errors and deadlines *)

(** [strings.Contains]. *)
Fixpoint contains (s sub : string) : bool :=
  String.prefix sub s || match s with EmptyString => false | String _ s => contains s sub end.

(** The error as its text, [None] for nil. *)
Definition isNetworkError (err : option string) : bool :=
  match err with
  | None => false
  | Some e => contains e "use of closed network connection" || contains e "connection reset by peer"
  end.

(** [deadlineFromContext]: the deadline of the context when it has one. *)
Definition deadlineFromContext (now : Z) (ctx : option Z) (fallback : Z) : Z :=
  match ctx with
  | Some dl => dl
  | None => if 0 <? fallback then now + fallback else zeroTime
  end.

(** How long a TCP dial may take. *)
Definition dialTimeout (now : Z) (ctx : option Z) (cfg : TransportConfig) : Z :=
  match ctx with
  | Some dl => if dl - now <? 0 then tc_Timeout cfg else dl - now
  | None => tc_Timeout cfg
  end.

(** [tcpTransport.Dial] within a context that may be over: IPv4 first, then
    any address. *)
Inductive dialErr := errCancelled | errDial.
Definition tcpDial {A} (cancelled : bool) (tcp4 tcp : option A) : dialErr + A :=
  if cancelled then inl errCancelled
  else match tcp4 with
       | Some c => inr c
       | None => match tcp with Some c => inr c | None => inl errDial end
       end.

(** * Sending *)

(** The bytes written so far, and how many more the peer will take before
    writes fail; [None]: no limit. *)
Record wstream := mkWStream { ws_sent : bytes; ws_room : option nat }.

(** A write puts all its bytes on the stream, or some of them and fails. *)
Definition Write (data : bytes) (s : wstream) : bool * wstream :=
  match ws_room s with
  | None => (true, mkWStream (ws_sent s ++ data) None)
  | Some n =>
      if (length data <=? n)%nat then (true, mkWStream (ws_sent s ++ data) (Some (n - length data)%nat))
      else (false, mkWStream (ws_sent s ++ take n data) (Some 0%nat))
  end.

Inductive sendErr := errTooLarge | errHeader | errData.

Definition lengthHeader (data : bytes) : bytes := be_encode 4 (uint 32 (blen data)).

(** The header, then the data. *)
Definition writeFrame (data : bytes) (s : wstream) : option sendErr * wstream :=
  let '(ok, s) := Write (lengthHeader data) s in
  if negb ok then (Some errHeader, s)
  else let '(ok, s) := Write data s in (if ok then None else Some errData, s).

(** [tcpConn.Send]: three ways to the same two writes. *)
Definition tcpSend (cfg : TransportConfig) (data : bytes) (s : wstream) : option sendErr * wstream :=
  if tc_MaxMessageSize cfg <? blen data then (Some errTooLarge, s)
  else if tc_EnableZeroCopy cfg && (4096 <? blen data) then writeFrame data s
  else if blen data <=? 4096 then writeFrame data s
  else writeFrame data s.

Definition quicSend (cfg : TransportConfig) (data : bytes) (s : wstream) : option sendErr * wstream :=
  if tc_MaxMessageSize cfg <? blen data then (Some errTooLarge, s)
  else
    let '(ok, s) := Write (lengthHeader data) s in
    if negb ok then (Some errHeader, s)
    else let '(ok, s) := Write data s in (if ok then None else Some errData, s).

(** * Receiving *)

Inductive recvErr := errReadHeader | errMessageTooLarge (size : Z) | errInvalidSize | errReadPayload.

(** [quicConn.Receive] on the bytes that arrive in time. *)
Definition quicReceive (cfg : TransportConfig) (avail : bytes) : (recvErr + bytes) * bytes :=
  if (length avail <? 4)%nat then (inl errReadHeader, [])
  else
    let size := be_decode (take 4 avail) in
    let rest := drop 4 avail in
    if tc_MaxMessageSize cfg <? size then (inl (errMessageTooLarge size), rest)
    else if size <? 0 then (inl errInvalidSize, rest)
    else if blen rest <? size then (inl errReadPayload, [])
    else (inr (take (Z.to_nat size) rest), drop (Z.to_nat size) rest).

(** * QUIC sessions *)

(** What happens to sessions. *)
Inductive session := Opened (n : nat) | Closed (n : nat).

(** [quicTransport.Dial]: the session, if it could be dialled, and whether a
    stream could be opened on it. *)
Definition quicDial (dial : option nat) (stream : bool) : option nat * list session :=
  match dial with
  | None => (None, [])
  | Some n => if stream then (Some n, [Opened n]) else (None, [Opened n; Closed n])
  end.

(** [quicListener.Accept]. *)
Definition quicAccept (accept : option nat) (stream : bool) : option nat * list session :=
  match accept with
  | None => (None, [])
  | Some n => if stream then (Some n, [Opened n]) else (None, [Opened n; Closed n])
  end.

(** [quicConn.Close]: the session is closed whatever the stream says. *)
Definition quicClose (n : nat) (streamErr sessionErr : option string) : list string * list session :=
  (option_list streamErr ++ option_list sessionErr, [Closed n]).

(** * Listeners *)

(** [tcpTransport.Listen] and [quicTransport.Listen] on what the library
    says: a listener with the configuration of the transport. *)
Definition tcpListen {L} (cfg : TransportConfig) (listen : string + L) : string + (L * TransportConfig) :=
  match listen with inl e => inl e | inr ln => inr (ln, cfg) end.
Definition quicListen {L} (cfg : TransportConfig) (listen : string + L) : string + (L * TransportConfig) :=
  match listen with inl e => inl e | inr ln => inr (ln, cfg) end.

(** [tcpListener.Accept]: a connection has the configuration of its
    listener. *)
Definition tcpAccept {L C} (ln : L * TransportConfig) (accept : string + C) : string + (C * TransportConfig) :=
  match accept with inl e => inl e | inr c => inr (c, ln.2) end.

(** [quicTransport.Close]: the function that is set, if one is; the
    constructor sets none.  [tcpTransport.Close] does nothing. *)
Definition quicTransportClose (close : option (option string)) : option string := default None close.

(** * Credentials of the QUIC transport *)

Record certificate := mkCertificate {
  ce_SerialNumber : Z; ce_NotBefore : Z; ce_NotAfter : Z; ce_DNSNames : list string;
}.

Record tlsConfig := mkTlsConfig {
  tls_Certificates : list certificate;
  tls_InsecureSkipVerify : bool;
  tls_ServerName : string;
  tls_NextProtos : list string;
}.

Record quicConfig := mkQuicConfig {
  qc_KeepAlivePeriod : Z; qc_HandshakeIdleTimeout : Z; qc_MaxIdleTimeout : Z; qc_EnableDatagrams : bool;
}.

(** The key and the certificate are made by the libraries, which may fail. *)
Definition defaultQUICServerTLSConfig (genKey createCert : bool) (now : Z) : option tlsConfig :=
  if negb genKey then None
  else
    let template := mkCertificate 1 (now - 60 * Minute) (now + 24 * 60 * Minute) ["localhost"%string] in
    if negb createCert then None
    else Some (mkTlsConfig [template] true "localhost" ["gridkv"%string]).

Record quicTransport := mkQuicTransport { qt_cfg : TransportConfig; qt_tls : tlsConfig; qt_quic : quicConfig }.

Definition NewQUICTransport (genKey createCert : bool) (now : Z) (cfg : TransportConfig) : quicTransport :=
  let tls :=
    match defaultQUICServerTLSConfig genKey createCert now with
    | Some tls => tls
    | None => mkTlsConfig [] true "localhost" ["gridkv"%string]
    end in
  mkQuicTransport cfg tls (mkQuicConfig (10 * Second) (15 * Second) (30 * Second) false).

(** Any two QUIC transports offer a common protocol, and neither looks at the
    certificate of the other, whether or not one could be made. *)
Lemma quic_compatible k c now cfg k' c' now' cfg' :
  let t := NewQUICTransport k c now cfg in let t' := NewQUICTransport k' c' now' cfg' in
  tls_NextProtos (qt_tls t) = tls_NextProtos (qt_tls t') /\ tls_InsecureSkipVerify (qt_tls t) = true /\
  (tls_Certificates (qt_tls t) <> [] <-> k = true /\ c = true).
Proof. destruct k, c, k', c'; cbn; split_and!; try done; split; try done; by intros [? ?]. Qed.

(** * Properties *)

(** What a send has put on the stream. *)
Definition sent_part (data : bytes) (r : option sendErr * wstream) (s : wstream) : Prop :=
  match r.1 with
  | None => ws_sent r.2 = ws_sent s ++ lengthHeader data ++ data
  | Some errTooLarge => r.2 = s
  | Some _ => exists k, (k < length (lengthHeader data ++ data))%nat /\
                ws_sent r.2 = ws_sent s ++ take k (lengthHeader data ++ data)
  end.

Lemma Write_sent data s :
  let '(ok, s') := Write data s in
  if ok then ws_sent s' = ws_sent s ++ data
  else exists k, (k < length data)%nat /\ ws_sent s' = ws_sent s ++ take k data.
Proof.
  unfold Write. destruct (ws_room s) as [n|]; [|done].
  destruct (Nat.leb_spec (length data) n); [done|]. exists n. split; [lia|done].
Qed.

Lemma writeFrame_sent data s : sent_part data (writeFrame data s) s.
Proof.
  unfold writeFrame, sent_part. pose proof (Write_sent (lengthHeader data) s) as H1.
  destruct (Write (lengthHeader data) s) as [[] s1]; cbn [negb fst snd].
  - pose proof (Write_sent data s1) as H2. destruct (Write data s1) as [[] s2]; cbn [fst snd].
    + by rewrite H2, H1, app_assoc.
    + destruct H2 as (k & Hk & E). exists (length (lengthHeader data) + k)%nat. rewrite length_app. split; [lia|].
      rewrite E, H1, take_app_add. by rewrite app_assoc.
  - destruct H1 as (k & Hk & E). exists k. rewrite length_app. split; [lia|].
    rewrite E, take_app_le by lia. done.
Qed.

Lemma tcpSend_writes cfg data s :
  tcpSend cfg data s = if tc_MaxMessageSize cfg <? blen data then (Some errTooLarge, s) else writeFrame data s.
Proof. unfold tcpSend. by repeat case_match. Qed.

(** The two transports put the same bytes on a stream, in every case. *)
Lemma tcp_quic_send cfg data s : quicSend cfg data s = tcpSend cfg data s.
Proof. rewrite tcpSend_writes. done. Qed.

Lemma tcpSend_sent cfg data s : sent_part data (tcpSend cfg data s) s.
Proof. rewrite tcpSend_writes. case_match; [done|apply writeFrame_sent]. Qed.

Lemma tcpSend_frame cfg data s s' :
  tcpSend cfg data s = (None, s') ->
  frame (tc_MaxMessageSize cfg) data = Some (lengthHeader data ++ data) /\
  ws_sent s' = ws_sent s ++ lengthHeader data ++ data.
Proof.
  pose proof (tcpSend_sent cfg data s) as Hs. intros E. rewrite E in Hs. split; [|done].
  rewrite tcpSend_writes in E. unfold frame. by destruct (_ <? _).
Qed.

(** [quicConn.Receive] says what [tcpConn.Receive] says. *)
Definition as_received (r : recvErr + bytes) : received :=
  match r with
  | inr data => Got data
  | inl (errMessageTooLarge _) => TooLarge
  | inl _ => ReadTimeout
  end.

Lemma tcp_quic_receive cfg avail :
  let '(r, rest) := quicReceive cfg avail in Receive (tc_MaxMessageSize cfg) avail = (as_received r, rest).
Proof.
  unfold quicReceive, Receive. destruct (length avail <? 4)%nat; [done|].
  destruct (tc_MaxMessageSize cfg <? _); [done|].
  destruct (Z.ltb_spec (be_decode (take 4 avail)) 0) as [Hn|]; [|by destruct (blen _ <? _)].
  pose proof (le_decode_range (reverse (take 4 avail))). unfold be_decode in Hn. lia.
Qed.

(** A frame that is not complete is not received. *)
Lemma Receive_prefix max data k :
  max < 2 ^ 32 -> blen data <= max -> (k < length (lengthHeader data ++ data))%nat ->
  Receive max (take k (lengthHeader data ++ data)) = (ReadTimeout, []).
Proof.
  intros Hmax Hlen Hk. unfold lengthHeader in *. rewrite length_app, length_be_encode in Hk.
  unfold Receive. rewrite length_take, length_app, length_be_encode.
  destruct (Nat.ltb_spec (k `min` (4 + length data)) 4) as [|Hge]; [done|].
  rewrite take_take, Nat.min_l by lia. rewrite take_app_length' by (by rewrite length_be_encode).
  rewrite (be_roundtrip 4 _ 32) by (done || apply uint_range; lia).
  rewrite uint_id by (unfold is_uint, blen in *; lia).
  destruct (Z.ltb_spec max (blen data)); [lia|].
  rewrite skipn_firstn_comm, drop_app_length' by (by rewrite length_be_encode).
  destruct (Z.ltb_spec (blen (take (k - 4) data)) (blen data)) as [|Hx]; [done|].
  unfold blen in Hx. rewrite length_take in Hx. lia.
Qed.

(** Sending messages one after another until one fails: how many went out. *)
Fixpoint sendAll (send : bytes -> wstream -> option sendErr * wstream) (msgs : list bytes) (s : wstream)
    : nat * wstream :=
  match msgs with
  | [] => (0%nat, s)
  | m :: msgs =>
      match send m s with
      | (None, s') => let '(n, s'') := sendAll send msgs s' in (S n, s'')
      | (Some _, s') => (0%nat, s')
      end
  end.

(** What [n] sent messages leave on the stream: their frames, and possibly a
    part of one more. *)
Lemma sendAll_stream cfg msgs s n s' :
  sendAll (tcpSend cfg) msgs s = (n, s') ->
  exists frames rest, mapM (frame (tc_MaxMessageSize cfg)) (take n msgs) = Some frames /\
    (n <= length msgs)%nat /\ ws_sent s' = ws_sent s ++ concat frames ++ rest /\
    (rest = [] \/ exists m k, blen m <= tc_MaxMessageSize cfg /\ (k < length (lengthHeader m ++ m))%nat /\
       rest = take k (lengthHeader m ++ m)).
Proof.
  revert s n. induction msgs as [|m msgs IH]; intros s n; cbn [sendAll].
  { intros [= <- <-]. exists [], []. split; [done|]. split; [done|]. split; [by rewrite !app_nil_r|by left]. }
  pose proof (tcpSend_sent cfg m s) as Hs. destruct (tcpSend cfg m s) as [[e|] s1] eqn:E.
  - intros [= <- <-]. exists []. unfold sent_part in Hs. cbn [fst snd] in Hs.
    assert (Hcase : ws_sent s1 = ws_sent s \/ exists k, blen m <= tc_MaxMessageSize cfg /\
      (k < length (lengthHeader m ++ m))%nat /\ ws_sent s1 = ws_sent s ++ take k (lengthHeader m ++ m)).
    { rewrite tcpSend_writes in E. destruct (Z.ltb_spec (tc_MaxMessageSize cfg) (blen m)) as [|Hm].
      - left. injection E as _ <-. done.
      - right. destruct e; [|destruct Hs as (k & Hk & Hk'); by exists k..]. subst s1.
        exfalso. clear -E. unfold writeFrame in E. destruct (Write _ _) as [[] ?]; [|done].
        cbn [negb] in E. by destruct (Write m _) as [[] ?]. }
    destruct Hcase as [Hc|(k & Hm & Hk & Hc)].
    + exists []. split; [done|]. split; [cbn; lia|]. split; [by rewrite app_nil_r|by left].
    + exists (take k (lengthHeader m ++ m)). split; [done|]. split; [cbn; lia|]. split; [done|].
      right. by exists m, k.
  - destruct (sendAll _ msgs s1) as [n1 s2] eqn:E2. intros [= <- <-].
    destruct (tcpSend_frame cfg m s s1 E) as [Hf Hs1].
    destruct (IH s1 n1 E2) as (frames & rest & Hfr & Hn & Hst & Hr).
    exists ((lengthHeader m ++ m) :: frames), rest. cbn [take mapM concat]. rewrite Hf. cbn [mbind option_bind].
    rewrite Hfr. split; [done|]. split; [cbn; lia|]. split; [|done].
    rewrite Hst, Hs1. by rewrite <- !app_assoc.
Qed.

(** As [receiveAll], with what follows the messages. *)
Lemma receiveAll_frames max msgs frames rest k :
  max < 2 ^ 32 -> mapM (frame max) msgs = Some frames ->
  receiveAll (length msgs + k) max (concat frames ++ rest) = (Got <$> msgs) ++ receiveAll k max rest.
Proof.
  intros Hmax. revert frames. induction msgs as [|m msgs IH]; intros frames Hf; cbn [mapM] in Hf.
  { injection Hf as <-. done. }
  apply bind_Some in Hf as (f & Hm & Hf). apply bind_Some in Hf as (fs & Hfs & [= <-]).
  cbn [length Nat.add receiveAll concat]. rewrite <- app_assoc, (Receive_frame _ _ _ _ Hmax Hm).
  cbn [fmap list_fmap app]. f_equal. by apply IH.
Qed.

(** A peer that takes everything is sent everything below the limit. *)
Lemma sendAll_unlimited cfg msgs s n s' :
  Forall (fun m => blen m <= tc_MaxMessageSize cfg) msgs -> ws_room s = None ->
  sendAll (tcpSend cfg) msgs s = (n, s') -> n = length msgs.
Proof.
  intros Hall. revert s n. induction Hall as [|m msgs Hm _ IH]; intros s n Hroom; cbn [sendAll].
  { by intros [= <- _]. }
  rewrite tcpSend_writes, (proj2 (Z.ltb_ge _ _)) by lia. unfold writeFrame, Write. rewrite Hroom.
  cbn [negb ws_room]. destruct (sendAll _ msgs _) as [n1 s1] eqn:E. intros [= <- <-].
  cbn [length]. f_equal. by refine (IH _ _ _ E).
Qed.

(** [Receive] of either transport, and as many receives as [n]. *)
Definition receiveOn (cfg : TransportConfig) (quic : bool) (avail : bytes) : received * bytes :=
  if quic then let '(r, rest) := quicReceive cfg avail in (as_received r, rest)
  else Receive (tc_MaxMessageSize cfg) avail.

Fixpoint receives (recv : bytes -> received * bytes) (n : nat) (avail : bytes) : list received :=
  match n with
  | O => []
  | S n => let '(m, rest) := recv avail in m :: receives recv n rest
  end.

Lemma receives_receiveAll cfg quic n avail :
  receives (receiveOn cfg quic) n avail = receiveAll n (tc_MaxMessageSize cfg) avail.
Proof.
  assert (Hr : forall a, receiveOn cfg quic a = Receive (tc_MaxMessageSize cfg) a).
  { intros a. destruct quic; [|done]. unfold receiveOn. pose proof (tcp_quic_receive cfg a) as Hq.
    by destruct (quicReceive cfg a). }
  revert avail. induction n as [|n IH]; intros avail; [done|]. cbn [receives receiveAll]. rewrite Hr.
  destruct (Receive _ avail). by rewrite IH.
Qed.

Lemma sendAll_tcp cfg quic msgs s :
  sendAll (if quic : bool then quicSend cfg else tcpSend cfg) msgs s = sendAll (tcpSend cfg) msgs s.
Proof.
  destruct quic; [|done]. revert s. induction msgs as [|m msgs IH]; intros s; [done|]. cbn [sendAll].
  rewrite tcp_quic_send. destruct (tcpSend cfg m s) as [[e|] s1]; [done|]. by rewrite IH.
Qed.

(** C28. Messages cross a connection whole or not at all, over either
    transport: when a sequence of sends is cut short by a write that fails or
    by a message above the limit, a receiver that no read deadline interrupts
    before the bytes sent are there gets exactly the messages whose sends
    succeeded, in order and unchanged, and then nothing.  (A deadline that
    passes inside a frame loses the bytes read of it and leaves the receiver
    at the wrong place of the stream: [frame_desync].) *)
Theorem transport_delivery cfg quicOut quicIn msgs room n s :
  tc_MaxMessageSize cfg < 2 ^ 32 ->
  sendAll (if quicOut : bool then quicSend cfg else tcpSend cfg) msgs (mkWStream [] room) = (n, s) ->
  (n <= length msgs)%nat /\
  receives (receiveOn cfg quicIn) (n + 1) (ws_sent s) = (Got <$> take n msgs) ++ [ReadTimeout] /\
  (room = None -> Forall (fun m => blen m <= tc_MaxMessageSize cfg) msgs -> n = length msgs).
Proof.
  intros Hmax Hs. rewrite sendAll_tcp in Hs.
  destruct (sendAll_stream _ _ _ _ _ Hs) as (frames & rest & Hf & Hn & Hst & Hr). cbn [ws_sent app] in Hst.
  assert (Hrest : Receive (tc_MaxMessageSize cfg) rest = (ReadTimeout, [])).
  { destruct Hr as [->|(m & k & Hm & Hk & ->)]; [done|by apply Receive_prefix]. }
  split; [done|]. split.
  - rewrite receives_receiveAll, Hst.
    replace (n + 1)%nat with (length (take n msgs) + 1)%nat by (rewrite length_take; lia).
    rewrite (receiveAll_frames _ _ _ _ _ Hmax Hf). cbn [receiveAll]. by rewrite Hrest.
  - intros -> Hall. eapply sendAll_unlimited; [exact Hall| |exact Hs]. done.
Qed.

(** Two messages fit, the third is cut off in its data. *)
Lemma transport_delivery_witness :
  let cfg := DefaultTransportConfig in
  let '(n, s) := sendAll (quicSend cfg) [[x61]; [x62; x63]; [x64; x65; x66]] (mkWStream [] (Some 16%nat)) in
  n = 2%nat /\ receives (receiveOn cfg true) 3 (ws_sent s) = [Got [x61]; Got [x62; x63]; ReadTimeout].
Proof.
  intros cfg. destruct (sendAll (quicSend cfg) _ _) as [n s] eqn:E.
  destruct (transport_delivery cfg true true [[x61]; [x62; x63]; [x64; x65; x66]] (Some 16%nat) n s
    ltac:(reflexivity) E) as (_ & H & _).
  assert (En : n = 2%nat) by (vm_compute in E; injection E as <- _; reflexivity).
  rewrite En in H. split; [exact En|exact H].
Defined.

(** A session that was dialled or accepted is handed over or closed. *)
Lemma sessions_closed n stream :
  quicDial (Some n) stream = (Some n, [Opened n]) \/ quicDial (Some n) stream = (None, [Opened n; Closed n]).
Proof. destruct stream; [by left|by right]. Qed.
