(* ===== verification/Node.v ===== *)
(** * The database and its node

    gridkv.go: [Set], [Get], [Delete], [Stats], [WaitReady], [HealthCheck] and
    [Close] of a [GridKV], and the parts of cluster.go that put a node
    together: the size of the executor, the components registered with the
    lifecycle manager, [Join] and [Stop].  Writer, reader and store are those
    of [Writer], [Reader] and [MemStorage]; they share one store, one ring and
    one cache.  The writer's model keeps only the keys of its cache; here its
    removals are made on the cache itself. *)

From Stdlib Require Import Strings.Byte.
From S2P Require Import Prelude Hlc StoredItem Compress SyncBuffer MemStorage MemStorageFacts.
From S2P Require Import MemStorageProps Codec HashRing Member Cluster Writer Lifecycle TinyLfu Cache Reader.

Record GridKV := mkGridKV {
  g_writer : writer;               (** with the store, the ring and the clock *)
  g_member : memberMgr;
  g_cache : option (Cache StoredItem);
  g_repair : option readRepair;
  g_cacheTTL : Z;
  g_readReplicas : Z;
  g_ttl : Z;
  g_replicaCount : Z;
  g_shuttingDown : bool;
}.

Definition g_store (g : GridKV) : MemStorage := w_store (g_writer g).

(** The reader of the node, and the node after a read. *)
Definition readerOf (g : GridKV) : reader :=
  mkReader (w_nodeID (g_writer g)) (g_store g) (w_ring (g_writer g)) (Some (g_member g)) (g_cache g)
    (g_repair g) (g_cacheTTL g) (g_readReplicas g).

Definition afterRead (r : reader) (g : GridKV) : GridKV :=
  mkGridKV (set_store (rd_store r) (g_writer g)) (g_member g) (rd_cache r) (rd_repair r)
    (g_cacheTTL g) (g_readReplicas g) (g_ttl g) (g_replicaCount g) (g_shuttingDown g).

(** The node after a write that removed [key] from the cache, or not. *)
Definition afterWrite `{XXH3} (w : writer) (removed : option string) (g : GridKV) : GridKV :=
  mkGridKV w (g_member g)
    (match removed with
     | Some key => (fun c => (CacheDelete c key).1) <$> g_cache g
     | None => g_cache g
     end)
    (g_repair g) (g_cacheTTL g) (g_readReplicas g) (g_ttl g) (g_replicaCount g) (g_shuttingDown g).

(** * Stats *)

Record ClusterStats := mkClusterStats {
  cs_Ready : bool;
  cs_ClusterSize : Z;
  cs_HealthyNodes : Z;
  cs_ReplicaFactor : Z;
  cs_LocalNodeID : string;
  cs_PeerCount : Z;
}.

(** The members in the order in which a range over the table visits them. *)
Definition Stats (g : GridKV) : ClusterStats :=
  let members := Members (g_member g) in
  let healthyNodes := Z.of_nat (length (filter (fun m => ni_State m = NodeStateAlive) members)) in
  mkClusterStats (0 <? healthyNodes) (Z.of_nat (length members)) healthyNodes
    (if g_replicaCount g <=? 0 then 3 else g_replicaCount g)
    (default ""%string (head (filter (fun id => id <> ""%string) (ni_NodeID <$> members))))
    (Z.of_nat (length members) - 1).

Inductive gridErr :=
| ErrShuttingDown | ErrEmptyKeyG | errNotReady | errWrite (e : writeErr) | errRead (e : storageErr).

Definition HealthCheck (g : GridKV) : option gridErr :=
  let s := Stats g in
  if negb (cs_Ready s) then Some errNotReady
  else if cs_HealthyNodes s =? 0 then Some errNotReady
  else None.

(** [WaitReady]: the clock and the stats at each poll, until the deadline has
    passed; [since] is when the stats were first as they are now. *)
Definition stabilityGracePeriod : Z := 500 * Millisecond.

Fixpoint waitReady (polls : list (Z * ClusterStats)) (deadline : Z) (since : option (Z * Z * Z)) : bool :=
  match polls with
  | [] => false
  | (now, c) :: polls =>
      if negb (now <? deadline) then false
      else if cs_Ready c && (0 <? cs_HealthyNodes c) then
        match since with
        | None => waitReady polls deadline (Some (now, cs_ClusterSize c, cs_HealthyNodes c))
        | Some (first, size, healthy) =>
            if negb (cs_ClusterSize c =? size) || negb (cs_HealthyNodes c =? healthy)
            then waitReady polls deadline (Some (now, cs_ClusterSize c, cs_HealthyNodes c))
            else if stabilityGracePeriod <=? now - first then true
            else waitReady polls deadline since
        end
      else waitReady polls deadline None
  end.

Definition WaitReady (start timeout : Z) (polls : list (Z * ClusterStats)) : bool :=
  waitReady polls (start + timeout) None.

(** * Set, Get and Delete *)

Section ops.
Context `{XXH3, LZ4} (poolCap : Z).
Context (accepts : nat -> bool) (order : gmap string Z -> list string).

(** When the item expires: the ttl of the call, or the default one. *)
Definition expiry (now : Z) (ttl : option Z) (g : GridKV) : Z :=
  match ttl with
  | Some t => if 0 <? t then now + t else zeroTime
  | None => if 0 <? g_ttl g then now + g_ttl g else zeroTime
  end.

(** [now] is the clock for the expiry, [now1] and [now2] those of the writer. *)
Definition Set_ (now now1 now2 : Z) (key : string) (value : slice) (ttl : option Z) (g : GridKV)
    : GridKV * option gridErr :=
  if g_shuttingDown g then (g, Some ErrShuttingDown)
  else if bool_decide (key = ""%string) then (g, Some ErrEmptyKeyG)
  else if negb (cs_Ready (Stats g)) && (cs_HealthyNodes (Stats g) =? 0) then (g, Some errNotReady)
  else
    let item := mkItem 0 (expiry now ttl g) value key in
    match WriterSet accepts poolCap order key item now1 now2 (g_writer g) with
    | (w, Some e) => (afterWrite w None g, Some (errWrite e))
    | (w, None) => (afterWrite w (Some key) g, None)
    end.

(** [now4] is the clock of the last test of expiry, the others are those of
    the reader. *)
Definition Get (now1 now2 now3 now4 : Z) (pick : option nat) (remote : option (string -> reply))
    (key : string) (g : GridKV) : GridKV * (gridErr + slice) :=
  if bool_decide (key = ""%string) then (g, inl ErrEmptyKeyG)
  else if g_shuttingDown g then (g, inl ErrShuttingDown)
  else
    let '(r, res) := ReaderGet poolCap now1 now2 now3 pick remote (readerOf g) key in
    (afterRead r g,
     match res with
     | inl e => inl (errRead e)
     | inr None => inr None
     | inr (Some item) =>
         if IsTombstone item then inr None
         else if IsExpired item now4 then inr None
         else if slice_len (si_Value item) =? 0 then inr None
         else inr (Some (slice_bytes (si_Value item)))
     end).

Definition Delete (now now1 now2 : Z) (key : string) (g : GridKV) : GridKV * option gridErr :=
  if bool_decide (key = ""%string) then (g, Some ErrEmptyKeyG)
  else if g_shuttingDown g then (g, Some ErrShuttingDown)
  else
    let '(s, res) := StoreGet poolCap (g_store g) key now in
    let g := afterWrite (set_store s (g_writer g)) None g in
    let remove version :=
      match WriterDelete accepts poolCap key version now1 now2 (g_writer g) with
      | (w, Some e) => (afterWrite w None g, Some (errWrite e))
      | (w, None) => (afterWrite w (Some key) g, None)
      end in
    match res with
    | inr item => remove (si_Version item)
    | inl ErrNotFound | inl ErrExpired => remove 0
    | inl e => (g, Some (errRead e))
    end.

(** [Close] refuses new operations before it stops the cluster. *)
Definition CloseGrid (g : GridKV) : GridKV :=
  mkGridKV (g_writer g) (g_member g) (g_cache g) (g_repair g) (g_cacheTTL g) (g_readReplicas g)
    (g_ttl g) (g_replicaCount g) true.

(** The operations of the cluster itself: no ttl, and a value as it is
    stored. *)
Definition ClusterGet (now1 now2 now3 : Z) (pick : option nat) (remote : option (string -> reply))
    (key : string) (g : GridKV) : GridKV * (storageErr + slice) :=
  let '(r, res) := ReaderGet poolCap now1 now2 now3 pick remote (readerOf g) key in
  (afterRead r g, match res with
                  | inl e => inl e
                  | inr None => inr None
                  | inr (Some item) => inr (si_Value item)
                  end).

Definition ClusterSet (now1 now2 : Z) (key : string) (value : slice) (g : GridKV) : GridKV * option writeErr :=
  match WriterSet accepts poolCap order key (mkItem 0 zeroTime value "") now1 now2 (g_writer g) with
  | (w, Some e) => (afterWrite w None g, Some e)
  | (w, None) => (afterWrite w (Some key) g, None)
  end.

(** The item is looked up for its version only; any error counts as absent. *)
Definition ClusterDelete (now now1 now2 : Z) (key : string) (g : GridKV) : GridKV * option writeErr :=
  let '(s, res) := StoreGet poolCap (g_store g) key now in
  let g := afterWrite (set_store s (g_writer g)) None g in
  let version := match res with inr item => si_Version item | inl _ => 0 end in
  match WriterDelete accepts poolCap key version now1 now2 (g_writer g) with
  | (w, Some e) => (afterWrite w None g, Some e)
  | (w, None) => (afterWrite w (Some key) g, None)
  end.

End ops.

(** * A key removed from the cache *)

Lemma CacheDelete_get `{XXH3} {V} (c : Cache V) key now : (CacheGet now (CacheDelete c key).1 key).2 = None.
Proof.
  unfold CacheDelete. destruct (shardFor c key) as [[i s]|] eqn:E.
  2:{ cbn [fst]. unfold CacheGet. by rewrite E. }
  assert (Hi : forall m s', (delIn false (mem c) s key) = (m, s', true) \/
                            (delIn false (mem c) s key) = (m, s', false) -> items s' !! key = None).
  { intros m s'. unfold delIn. destruct (items s !! key) as [x|] eqn:Ek.
    - unfold sh_delete. destruct (removeEntry _ _ x) as [h s2] eqn:Er.
      intros [[= <- <-]|[=]]. assert (items s2 = delete key (items s)) as ->.
      { unfold removeEntry in Er. repeat case_match; simplify_eq; done. }
      apply lookup_delete_eq.
    - intros [[=]|[= <- <-]]. done. }
  destruct (delIn false (mem c) s key) as [[m s'] b] eqn:Ed. cbn [fst].
  specialize (Hi m s' ltac:(destruct b; auto)).
  assert (E' : shardFor (update c i m s') key = Some (i, s')).
  { unfold shardFor in *. cbn [update closed]. destruct (closed c); [done|].
    destruct (decide (key = "")); [done|]. unfold getShard in *. cbn [update shards shardMask].
    rewrite length_insert. destruct (length (shards c) =? 0)%nat; [done|].
    cbn zeta in *. destruct (_ <=? _); [done|]. simpl in *.
    destruct (shards c !! Z.to_nat _) eqn:Es; [|done]. simpl in E. injection E as <- <-.
    rewrite list_lookup_insert_eq; [done|]. by eapply lookup_lt_Some. }
  unfold CacheGet. rewrite E'. unfold getIn. rewrite Hi. done.
Qed.

(** * What a read leaves in the store *)

Lemma getWith_contents `{XXH3, LZ4} poolCap clone s key now :
  store_wf s -> key <> ""%string ->
  contents (getWith poolCap clone s key now).1 key =
  match contents s key with
  | Some ci => if expired_at now (ci_ExpireAt ci) then None else Some ci
  | None => None
  end.
Proof.
  intros Hw Hk. unfold getWith. rewrite bool_decide_eq_false_2 by done.
  set (s0 := on_access count_get s).
  assert (E0 : s0 ≈ s) by done.
  change (sh_data (shardAt s0 (shardIndex s0 key)) !! key) with (contents s key).
  destruct (contents s key) as [ci|] eqn:Ec; [|by rewrite <- Ec].
  unfold expired_at. destruct (negb (IsZero (ci_ExpireAt ci)) && _) eqn:Ee.
  - cbn [fst]. unfold expireKey. rewrite unlru_data, usage_data.
    rewrite (contents_delete _ _ key key ci); [by rewrite decide_True| | |].
    + destruct Hw. by split.
    + change (length (MemStorage.shards (on_access count_miss s0))) with (length (MemStorage.shards s)).
      by eapply (shardIndex_lt s key).
    + exact Ec.
  - assert (E : storeTouchLRU (shardIndex s0 key) key (on_access count_hit s0) ≈ s).
    { by rewrite touch_data. }
    destruct (ci_Compressed ci); [destruct (decompressValue poolCap ci)|]; cbn [fst];
      rewrite E; exact Ec.
Qed.

(** The item a successful write leaves under its key. *)
Lemma written_contents `{XXH3, LZ4} poolCap w w' key item o :
  written poolCap w key item o w' ->
  (forall old, contents (w_store w) key = Some old -> ci_Version old < si_Version item) ->
  contents (w_store w') key = Some (prepareCompressedItem poolCap (w_store w) key item).1.
Proof.
  intros [(s1 & Hs & _ & Hc) _ _] Hold. rewrite Hc. unfold VersionedMap.put. rewrite decide_True by done.
  destruct (prepareCompressedItem poolCap (w_store w) key item) as [ci n] eqn:E. cbn [fst].
  pose proof (prepared_meta poolCap _ _ _ _ _ E) as (HV & _). rewrite HV.
  destruct (contents s1 key) as [old|] eqn:Eo; [|done].
  destruct (Hs key) as [Hk|Hk]; [|congruence]. rewrite Eo in Hk. symmetry in Hk. apply Hold in Hk.
  by rewrite (proj2 (Z.leb_gt _ _)) by lia.
Qed.

(** The version that a Set of [key] gets. *)
Definition setVersion (now1 now2 : Z) (key : string) (w : writer) : Z :=
  let '(w, version) := stampVersion now1 now2 w in nextVersion w key version.

Lemma WriterSet_written `{XXH3, LZ4} accepts order poolCap key item now1 now2 w w' :
  store_wf (w_store w) -> key <> ""%string ->
  WriterSet accepts poolCap order key item now1 now2 w = (w', None) ->
  exists w0, w_store w0 = w_store w /\
    written poolCap w0 key (mkItem (setVersion now1 now2 key w) (si_ExpireAt item) (si_Value item) key)
      OpSet w'.
Proof.
  intros Hw Hk. unfold WriterSet, setVersion, stampVersion.
  destruct (Now (w_hlc w) now1) as [h str]. set (v := hlcToInt64 str now2). set (w1 := set_hlc h w).
  set (w2 := set_lastVersions _ w1). set (it := mkItem _ _ _ key).
  pose proof (storeOrQueue_spec accepts poolCap key it OpSet w2 Hw Hk) as K.
  destruct (storeOrQueue accepts poolCap key it OpSet w2) as [w3 [e|]] eqn:E; [done|].
  intros [= <-]. exists w2. split; [done|].
  eapply write_result_frame; [symmetry; apply triggerBatch_frame|exact K].
Qed.

(** The version a Delete gives to its tombstone, over an item of [version]. *)
Definition deleteVersion (now1 now2 version : Z) (w : writer) : Z :=
  let v := (stampVersion now1 now2 w).2 in
  let v := if v <=? version then add64 version 1 else v in
  if v <=? 0 then 1 else v.

Lemma WriterDelete_written `{XXH3, LZ4} accepts poolCap key version now1 now2 w w' :
  store_wf (w_store w) -> key <> ""%string ->
  WriterDelete accepts poolCap key version now1 now2 w = (w', None) ->
  exists w0, w_store w0 = w_store w /\
    written poolCap w0 key (mkItem (deleteVersion now1 now2 version w) zeroTime None key) OpDelete w'.
Proof.
  intros Hw Hk. unfold WriterDelete, deleteVersion, stampVersion.
  destruct (Now (w_hlc w) now1) as [h str]. set (w1 := set_hlc h w). cbn [snd].
  set (it := mkItem _ _ _ key).
  pose proof (storeOrQueue_spec accepts poolCap key it OpDelete w1 Hw Hk) as K.
  destruct (storeOrQueue accepts poolCap key it OpDelete w1) as [w3 [e|]] eqn:E; [done|].
  intros [= <-]. exists w1. split; [done|].
  eapply write_result_frame; [symmetry; apply triggerBatch_frame|exact K].
Qed.

Lemma deleteVersion_above now1 now2 version w :
  0 <= version < 2 ^ 63 - 1 -> version < deleteVersion now1 now2 version w /\ 0 < deleteVersion now1 now2 version w.
Proof.
  intros Hv. unfold deleteVersion.
  assert (add64 version 1 = version + 1) as ->.
  { unfold add64. apply sint_id; [lia|]. unfold is_sint. simpl Z.sub. lia. }
  repeat case_match; to_prop; lia.
Qed.

(** Reading a key that is not in the cache and is in the store. *)
Lemma Get_local `{XXH3, LZ4} poolCap now1 now2 now3 now4 pick remote key g ci v :
  key <> ""%string -> g_shuttingDown g = false ->
  (forall c, g_cache g = Some c -> (CacheGet now1 c key).2 = None) ->
  contents (g_store g) key = Some ci -> expired_at now2 (ci_ExpireAt ci) = false ->
  ci_decode poolCap ci = inr v ->
  (Get poolCap now1 now2 now3 now4 pick remote key g).2 =
    let item := mkItem (ci_Version ci) (ci_ExpireAt ci) v "" in
    if IsTombstone item then inr None
    else if IsExpired item now4 then inr None
    else if slice_len v =? 0 then inr None
    else inr (Some (slice_bytes v)).
Proof.
  intros Hk Hsh Hcache Hc He Hd. unfold Get. rewrite bool_decide_eq_false_2, Hsh by done.
  assert (Hg : (StoreGet poolCap (g_store g) key now2).2 =
               inr (mkItem (ci_Version ci) (ci_ExpireAt ci) v "")).
  { unfold StoreGet. erewrite getWith_present; [|done|apply FastCloneBytes_id|exact Hc|exact He].
    by rewrite Hd. }
  unfold ReaderGet, cacheLookup. cbn [readerOf rd_cache].
  assert (Hmiss : exists r1, match g_cache g with
      | Some c => let '(c0, v0) := CacheGet now1 c key in (rd_set_cache (Some c0) (readerOf g), v0)
      | None => (readerOf g, None) end = (r1, None) /\ rd_store r1 = g_store g).
  { destruct (g_cache g) as [c|]; [|by eexists]. specialize (Hcache c eq_refl).
    destruct (CacheGet now1 c key) as [c0 v0]. cbn [snd] in Hcache. subst v0. by eexists. }
  destruct Hmiss as (r1 & -> & Hs). rewrite Hs.
  destruct (StoreGet poolCap (g_store g) key now2) as [s res]. cbn [snd] in Hg. subst res. done.
Qed.

(** A write and the next read. *)
Lemma Set_then_Get `{XXH3, LZ4, !LZ4Laws} accepts order poolCap now now1 now2 ttl key value g g'
    t1 t2 t3 t4 pick remote :
  store_wf (g_store g) -> poolCap <= maxPooled ->
  0 < slice_len value <= maxAlloc ->
  (forall old, contents (g_store g) key = Some old ->
     ci_Version old < setVersion now1 now2 key (g_writer g)) ->
  expired_at t2 (expiry now ttl g) = false -> IsExpired (mkItem 0 (expiry now ttl g) value key) t4 = false ->
  Set_ poolCap accepts order now now1 now2 key value ttl g = (g', None) ->
  (Get poolCap t1 t2 t3 t4 pick remote key g').2 = inr (Some (slice_bytes value)).
Proof.
  intros Hw Hp Hlen Hold He He4. unfold Set_. destruct (g_shuttingDown g) eqn:Hsh; [done|].
  destruct (decide (key = ""%string)) as [->|Hk]; [by rewrite bool_decide_eq_true_2|].
  rewrite bool_decide_eq_false_2 by done. case_match; [done|].
  destruct (WriterSet _ _ _ _ _ _ _ _) as [w [e|]] eqn:Ew; [done|]. intros [= <-].
  destruct (WriterSet_written _ _ _ _ _ _ _ _ _ Hw Hk Ew) as (w0 & Hw0 & Hwr).
  cbn [si_ExpireAt si_Value] in Hwr.
  pose proof (written_contents _ _ _ _ _ _ Hwr ltac:(rewrite Hw0; exact Hold)) as Hc.
  destruct (prepareCompressedItem poolCap (w_store w0) key _) as [ci n] eqn:Ep. cbn [fst] in Hc.
  pose proof (prepared_meta poolCap _ _ _ _ _ Ep) as (HV & HE & _). cbn [si_Version si_ExpireAt] in HV, HE.
  assert (Hd : ci_decode poolCap ci = inr value)
    by (eapply ci_decode_prepared in Ep; [exact Ep|done|apply Hlen]).
  rewrite (Get_local poolCap _ _ _ _ _ _ key _ ci value);
    [|done|exact Hsh| |exact Hc|by rewrite HE|exact Hd].
  - cbn zeta. unfold IsTombstone, IsExpired in *. cbn [si_Value si_ExpireAt si_Version] in *.
    rewrite HE. rewrite (proj2 (Z.eqb_neq (slice_len value) 0)) by lia. cbn [andb]. by rewrite He4.
  - intros c. cbn [afterWrite g_cache]. intros (c0 & _ & ->)%fmap_Some. apply CacheDelete_get.
Qed.

(** C7. Read your writes: after a Set that returned no error the next Get of
    the key on the same node returns the value, for a non-empty value of at
    most 8 MiB that has not expired, provided the version it was given is
    above the one stored before; the read cache does not hide it. *)
Theorem read_your_writes `{XXH3, LZ4, !LZ4Laws} accepts order poolCap now now1 now2 ttl key value g g'
    t1 t2 t3 t4 pick remote :
  store_wf (g_store g) -> poolCap <= maxPooled ->
  0 < slice_len value <= maxAlloc ->
  (forall old, contents (g_store g) key = Some old ->
     ci_Version old < setVersion now1 now2 key (g_writer g)) ->
  expired_at t2 (expiry now ttl g) = false -> IsExpired (mkItem 0 (expiry now ttl g) value key) t4 = false ->
  Set_ poolCap accepts order now now1 now2 key value ttl g = (g', None) ->
  (Get poolCap t1 t2 t3 t4 pick remote key g').2 = inr (Some (slice_bytes value)).
Proof. intros. by eapply Set_then_Get. Qed.

Lemma deleted_get `{XXH3, LZ4, !LZ4Laws} accepts poolCap now1 now2 key version g w
    t1 t2 t3 t4 pick remote :
  store_wf (g_store g) -> key <> ""%string -> poolCap <= maxPooled -> g_shuttingDown g = false ->
  0 <= version < 2 ^ 63 - 1 ->
  (forall old, contents (g_store g) key = Some old -> ci_Version old <= version) ->
  WriterDelete accepts poolCap key version now1 now2 (g_writer g) = (w, None) ->
  (Get poolCap t1 t2 t3 t4 pick remote key (afterWrite w (Some key) g)).2 = inr None.
Proof.
  intros Hw Hk Hp Hsh Hv Hold Ew.
  destruct (deleteVersion_above now1 now2 version (g_writer g) Hv) as [Hlt Hpos].
  destruct (WriterDelete_written _ _ _ _ _ _ _ _ Hw Hk Ew) as (w0 & Hw0 & Hwr).
  assert (Hc := written_contents _ _ _ _ _ _ Hwr
    ltac:(rewrite Hw0; intros old Ho; apply Hold in Ho; simpl; lia)).
  destruct (prepareCompressedItem poolCap (w_store w0) key _) as [ci n] eqn:Ep. cbn [fst] in Hc.
  pose proof (prepared_meta poolCap _ _ _ _ _ Ep) as (HV & HE & _). cbn [si_Version si_ExpireAt] in HV, HE.
  assert (Hd : ci_decode poolCap ci = inr None)
    by (eapply ci_decode_prepared in Ep; [exact Ep|done|vm_compute; discriminate]).
  rewrite (Get_local poolCap _ _ _ _ _ _ key _ ci None);
    [|done|exact Hsh| |exact Hc|by rewrite HE|exact Hd].
  - cbn zeta. unfold IsTombstone. cbn [si_Value si_Version]. rewrite HV.
    by rewrite (proj2 (Z.ltb_lt 0 _)) by lia.
  - intros c. cbn [afterWrite g_cache]. intros (c0 & _ & ->)%fmap_Some. apply CacheDelete_get.
Qed.

(** What the read that precedes a delete says of the item it leaves. *)
Lemma StoreGet_version `{XXH3, LZ4} poolCap s key now ci :
  store_wf s -> key <> ""%string ->
  contents (StoreGet poolCap s key now).1 key = Some ci ->
  contents s key = Some ci /\
  match (StoreGet poolCap s key now).2 with
  | inr item => si_Version item = ci_Version ci
  | inl e => e = errDecompress
  end.
Proof.
  intros Hw Hk Hc. unfold StoreGet in *. rewrite getWith_contents in Hc by done.
  destruct (contents s key) as [ci'|] eqn:E; [|done].
  destruct (expired_at now (ci_ExpireAt ci')) eqn:Ee; [done|]. injection Hc as ->. split; [done|].
  erewrite getWith_present; [|done|apply FastCloneBytes_id|exact E|exact Ee].
  unfold ci_decode, decompressValue. destruct (ci_Compressed ci); cbn [negb]; [|done].
  by destruct (DecompressTo _ _ _ _).
Qed.

Lemma StoreGet_found `{XXH3, LZ4} poolCap s key now item :
  key <> ""%string -> (StoreGet poolCap s key now).2 = inr item ->
  exists ci, contents s key = Some ci /\ si_Version item = ci_Version ci.
Proof.
  intros Hk. unfold StoreGet, getWith. rewrite bool_decide_eq_false_2 by done.
  set (s0 := on_access count_get s).
  change (sh_data (shardAt s0 (shardIndex s0 key)) !! key) with (contents s key).
  destruct (contents s key) as [ci|]; [|done]. case_match; [done|].
  intros Hi. exists ci. split; [done|].
  destruct (ci_Compressed ci); [destruct (decompressValue poolCap ci)|]; by simplify_eq/=.
Qed.

(** Read your deletes: after a Delete that returned no error the next
    Get of the key on the same node returns nil, whatever was stored, cached
    or held by the replicas; the tombstone is newer than the item deleted. *)
Theorem read_your_deletes `{XXH3, LZ4, !LZ4Laws} accepts poolCap now now1 now2 key g g'
    t1 t2 t3 t4 pick remote :
  store_wf (g_store g) -> poolCap <= maxPooled ->
  (forall old, contents (g_store g) key = Some old -> 0 <= ci_Version old < 2 ^ 63 - 1) ->
  Delete poolCap accepts now now1 now2 key g = (g', None) ->
  (Get poolCap t1 t2 t3 t4 pick remote key g').2 = inr None.
Proof.
  intros Hw Hp Hv. unfold Delete.
  destruct (decide (key = ""%string)) as [->|Hk]; [by rewrite bool_decide_eq_true_2|].
  rewrite bool_decide_eq_false_2 by done. destruct (g_shuttingDown g) eqn:Hsh; [done|].
  pose proof (StoreGet_version poolCap (g_store g) key now) as Hver.
  pose proof (wf_getWith poolCap FastCloneBytes (g_store g) key now Hw) as Hw1.
  pose proof (fun item => StoreGet_found poolCap (g_store g) key now item Hk) as Hin.
  fold (StoreGet poolCap) in Hw1.
  destruct (StoreGet poolCap (g_store g) key now) as [s res]. cbn [fst snd] in *.
  set (g1 := afterWrite (set_store s (g_writer g)) None g). cbn zeta.
  destruct res as [e|item].
  - destruct e; try (intros [=]; done);
      (destruct (WriterDelete _ _ _ _ _ _ _) as [w [e'|]] eqn:Ew; [intros [=]; done|];
       intros [= <-]; eapply (deleted_get accepts poolCap now1 now2 key 0 g1); [done..|lia| |exact Ew];
       intros old Ho; apply Hver in Ho as [_ Ho]; done).
  - destruct (WriterDelete _ _ _ _ _ _ _) as [w [e'|]] eqn:Ew; [done|]. intros [= <-].
    destruct (Hin item eq_refl) as (ci & Hci & Hvi). specialize (Hv ci Hci).
    eapply (deleted_get accepts poolCap now1 now2 key (si_Version item) g1);
      [done..|lia| |exact Ew].
    intros old Ho. apply Hver in Ho as [_ Ho]; [lia|done..].
Qed.

(** * Waiting for the cluster *)

Definition readyStats (c : ClusterStats) : bool := cs_Ready c && (0 <? cs_HealthyNodes c).

(** Polls at which the cluster is ready with the given size and number of
    healthy nodes, the last one at least the grace period after [first]. *)
Definition stable_until (deadline first size healthy : Z) (polls : list (Z * ClusterStats)) : Prop :=
  exists mid t c post, polls = mid ++ (t, c) :: post /\ stabilityGracePeriod <= t - first /\
    Forall (fun p => fst p < deadline /\ readyStats (snd p) = true /\
                     cs_ClusterSize (snd p) = size /\ cs_HealthyNodes (snd p) = healthy)
      (mid ++ [(t, c)]).

Definition stable_later (deadline : Z) (polls : list (Z * ClusterStats)) : Prop :=
  exists pre t c rest, polls = pre ++ (t, c) :: rest /\ t < deadline /\ readyStats c = true /\
    stable_until deadline t (cs_ClusterSize c) (cs_HealthyNodes c) rest.

Lemma stable_later_cons deadline p polls : stable_later deadline polls -> stable_later deadline (p :: polls).
Proof. intros (pre & t & c & rest & -> & H). by exists (p :: pre), t, c, rest. Qed.

Lemma waitReady_stable polls deadline since :
  waitReady polls deadline since = true ->
  match since with
  | None => stable_later deadline polls
  | Some (first, size, healthy) =>
      stable_until deadline first size healthy polls \/ stable_later deadline polls
  end.
Proof.
  revert since. induction polls as [|[now c] polls IH]; intros since; [done|]. cbn [waitReady].
  destruct (Z.ltb_spec now deadline) as [Hlt|]; cbn [negb]; [|done].
  fold (readyStats c). destruct (readyStats c) eqn:Hr.
  2:{ intros H%IH. apply (stable_later_cons _ (now, c)) in H.
      destruct since as [[[first size] healthy]|]; auto. }
  assert (Hnew : waitReady polls deadline (Some (now, cs_ClusterSize c, cs_HealthyNodes c)) = true ->
                 stable_later deadline ((now, c) :: polls)).
  { intros [H|H]%IH; [|by apply stable_later_cons]. by exists [], now, c, polls. }
  destruct since as [[[first size] healthy]|]; [|done].
  destruct (negb (cs_ClusterSize c =? size) || negb (cs_HealthyNodes c =? healthy)) eqn:Hsame;
    [by auto|].
  to_prop. assert (Hp : now < deadline /\ readyStats c = true /\ cs_ClusterSize c = size /\
                        cs_HealthyNodes c = healthy) by done.
  destruct (Z.leb_spec stabilityGracePeriod (now - first)) as [Hg|].
  - intros _. left. exists [], now, c, polls. split_and!; [done|done|]. simpl. by constructor.
  - intros [(mid & t & c' & post & -> & Ht & Hf)|H3]%IH.
    + left. exists ((now, c) :: mid), t, c', post. split_and!; [done|done|]. simpl. by constructor.
    + right. by apply stable_later_cons.
Qed.

(** WaitReady: it succeeds only after the cluster has been seen ready,
    with at least one healthy node and an unchanged size and number of
    healthy nodes, at every poll of a stretch of at least 500 ms that ended
    before the deadline. *)
Theorem wait_ready start timeout polls :
  WaitReady start timeout polls = true ->
  exists pre t c mid t' c' post,
    polls = pre ++ (t, c) :: mid ++ (t', c') :: post /\
    500 * Millisecond <= t' - t /\ t' < start + timeout /\
    Forall (fun p => cs_Ready (snd p) = true /\ 0 < cs_HealthyNodes (snd p) /\
                     cs_ClusterSize (snd p) = cs_ClusterSize c /\
                     cs_HealthyNodes (snd p) = cs_HealthyNodes c)
      ((t, c) :: mid ++ [(t', c')]).
Proof.
  unfold WaitReady. intros (pre & t & c & rest & -> & Ht & Hr & mid & t' & c' & post & -> & Hg & Hf)%waitReady_stable.
  exists pre, t, c, mid, t', c', post. split_and!; [done|done| |].
  - apply Forall_app in Hf as [_ Hf]. by apply Forall_cons in Hf as [[? _] _].
  - constructor.
    + unfold readyStats in Hr. to_prop. done.
    + eapply Forall_impl; [exact Hf|]. intros p (_ & Hp & ? & ?). unfold readyStats in Hp. to_prop. done.
Qed.

Lemma wait_ready_witness :
  let c := mkClusterStats true 2 2 3 "n1" 1 in
  let polls := [(0, c); (300 * Millisecond, c); (600 * Millisecond, c)] in
  exists t t', 500 * Millisecond <= t' - t /\ t' < Second /\ (t, c) ∈ polls /\ (t', c) ∈ polls.
Proof.
  intros c polls.
  destruct (wait_ready 0 Second polls ltac:(vm_compute; reflexivity))
    as (pre & t & c1 & mid & t' & c2 & post & E & Hg & Hd & _).
  assert (H1 : (t, c1) ∈ polls) by (rewrite E; set_solver).
  assert (H2 : (t', c2) ∈ polls) by (rewrite E; set_solver).
  assert (Hc : forall x, x ∈ polls -> snd x = c) by (intros x; unfold polls; set_solver).
  pose proof (Hc _ H1) as Hc1. pose proof (Hc _ H2) as Hc2. cbn [snd] in Hc1, Hc2. subst c1 c2.
  by exists t, t'.
Defined.

(** * Putting a node together *)

Definition workerCount (numCPU : Z) : Z :=
  let n := numCPU * 4 in
  let n := if n <? 16 then 16 else n in
  if 256 <? n then 256 else n.

Definition queueSize (numCPU : Z) : Z :=
  let n := workerCount numCPU * 3000 in
  if 300000 <? n then 300000 else n.

Lemma executor_size numCPU :
  16 <= workerCount numCPU <= 256 /\ 48000 <= queueSize numCPU <= 300000.
Proof. unfold queueSize, workerCount. repeat case_match; to_prop; lia. Qed.

(** The components in the order of their registration, with what they are
    registered to depend on; the network when there is one. *)
Definition clusterComponents (network : bool) : list (string * list string) :=
  (if network then [("network", [])] else []) ++
  [("storage", []); ("executor", ["storage"]); ("cache", ["storage"]);
   ("member-mgr", ["executor"]); ("hash-ring", ["member-mgr"]); ("writer", ["member-mgr"]);
   ("gossip", ["member-mgr"]); ("reader", ["gossip"; "cache"]); ("read-repair", ["gossip"]);
   ("anti-entropy", ["gossip"]); ("replay", ["gossip"])]%string.

Definition clusterLifecycle (network : bool) : LifecycleManager :=
  fold_left (fun lm c => Register c.1 c.2 lm) (clusterComponents network) newLifecycle.

(** The dependencies of a node resolve, in the order of registration; so
    that closing takes the writer, with its last flush, after gossip and the
    readers and before membership, the executor, the store and the network. *)
Lemma cluster_order network :
  resolveOrder (clusterLifecycle network) = inr (clusterComponents network).*1.
Proof. destruct network; vm_compute; reflexivity. Qed.

(** [Join]: the ring follows the membership table unless no seed could be
    reached. *)
Definition ClusterJoin `{XXH3, SortSlice} (join : list effect * bool) (now : Z) (m : memberMgr)
    (r : hashRing) : bool * hashRing :=
  if join.2 then (false, r) else (true, updateRing (mm_members m) now r).

(** [Stop]: the ring is updated once more, then the components are closed. *)
Definition ClusterStop `{XXH3, SortSlice} (closeErr : string -> option string) (now : Z)
    (m : memberMgr) (lm : LifecycleManager) (r : hashRing)
    : hashRing * (list string * option lifecycleErr) :=
  (updateRing (mm_members m) now r, CloseWithTimeout lm closeErr).

(** * A node *)

#[local] Existing Instance ToyHash.xxh3.
#[local] Existing Instance RunLength.lz4.
#[local] Existing Instance RunLength.laws.
#[local] Existing Instance MergeSort.sort.

(** Its cache holds an old value of "a". *)
Definition demoGrid : GridKV :=
  let stale := mkItem 1 zeroTime (Some [x7a]) "a" in
  mkGridKV (demoWriter 5) demoMgr2
    (Some (CacheSet 500 None (NewCache {| Shards := 1; Size := 4 |}) "a" stale Second)) None
    (15 * Millisecond) 3 0 3 false.

Lemma returns_none {A B} (x : A * option B) : snd x = None -> x = (fst x, None).
Proof. by destruct x as [a b]; intros <-. Qed.

(** Set and read back; the version is compared with an absent item. *)
Lemma read_your_writes_witness :
  let g' := (Set_ 0 (fun _ => true) anyOrder 1000 1000 1000 "a" (Some [x61; x62]) None demoGrid).1 in
  (Get 0 2000 2000 2000 2000 None None "a" g').2 = inr (Some [x61; x62]).
Proof.
  intros g'.
  apply (read_your_writes (fun _ => true) anyOrder 0 1000 1000 1000 None "a" (Some [x61; x62]) demoGrid).
  - apply demoStore_wf.
  - vm_compute. discriminate.
  - vm_compute. split; [reflexivity|discriminate].
  - intros old Ho. vm_compute in Ho. discriminate.
  - vm_compute. reflexivity.
  - vm_compute. reflexivity.
  - apply returns_none. vm_compute. reflexivity.
Defined.

Lemma read_your_deletes_witness :
  let g' := (Delete 0 (fun _ => true) 1000 1000 1000 "a" demoGrid).1 in
  (Get 0 2000 2000 2000 2000 None None "a" g').2 = inr None.
Proof.
  intros g'.
  apply (read_your_deletes (fun _ => true) 0 1000 1000 1000 "a" demoGrid).
  - apply demoStore_wf.
  - vm_compute. discriminate.
  - intros old Ho. vm_compute in Ho. discriminate.
  - apply returns_none. vm_compute. reflexivity.
Defined.

(** An empty value is stored as a tombstone: Set reports success and the key
    reads as absent. *)
Example empty_value_deletes :
  let g1 := (Set_ 0 (fun _ => true) anyOrder 1000 1000 1000 "a" (Some [x61]) None demoGrid).1 in
  let r := Set_ 0 (fun _ => true) anyOrder 2000 2000 2000 "a" (Some []) None g1 in
  r.2 = None /\ (Get 0 3000 3000 3000 3000 None None "a" r.1).2 = inr None.
Proof. vm_compute. done. Qed.

(** After Close every operation is refused. *)
Lemma closed_refuses `{XXH3, LZ4} poolCap accepts order now now1 now2 now3 now4 pick remote key value ttl g :
  key <> ""%string ->
  (Set_ poolCap accepts order now now1 now2 key value ttl (CloseGrid g)).2 = Some ErrShuttingDown /\
  (Get poolCap now1 now2 now3 now4 pick remote key (CloseGrid g)).2 = inl ErrShuttingDown /\
  (Delete poolCap accepts now now1 now2 key (CloseGrid g)).2 = Some ErrShuttingDown.
Proof. intros Hk. unfold Get, Delete. by rewrite bool_decide_eq_false_2. Qed.
