(* ===== verification/Remote.v ===== *)
(** * Remote reads between two nodes

    The path of a remote read: [createGetFunc] of cluster.go on the node that
    reads, the requests of networkImpl (interface.go), frames on a connection
    (transport.go), the loop of the server and the router of the other node
    (server.go, message.go), and the read handlers that setupNetworkHandlers
    registers there.  The parts are those of [Wire], [Server] and [Cluster];
    here they are put together. *)

From Stdlib Require Import Strings.Byte.
From S2P Require Import Prelude Hlc StoredItem Compress SyncBuffer MemStorage MemStorageFacts.
From S2P Require Import MemStorageProps Codec HashRing Member Cluster Writer Lifecycle TinyLfu Cache Reader.
From S2P Require Import Gossip Wire Net Server Node.

Section remote.
Context `{XXH3, LZ4} (poolCap : Z).

(** * The handlers of a node *)

(** The item a handler reads from the store; errors count as no item. *)
Definition found (res : storageErr + StoredItem) : option StoredItem :=
  match res with inr item => Some item | inl _ => None end.

(** The handler of read requests between nodes. *)
Definition readHandler (now : Z) (s : MemStorage) (data : slice) : MemStorage * slice :=
  if slice_len data =? 0 then (s, None)
  else
    let key := BytesToString (slice_bytes data) in
    let '(s, res) := StoreGet poolCap s key now in (s, readResponse (found res)).

(** The handler of requests by clients: the value alone. *)
Definition valueHandler (now : Z) (s : MemStorage) (data : slice) : MemStorage * slice :=
  if slice_len data =? 0 then (s, None)
  else
    let key := BytesToString (slice_bytes data) in
    let '(s, res) := StoreGet poolCap s key now in
    (s, match found res with
        | None => None
        | Some item =>
            if IsTombstone item || (slice_len (si_Value item) =? 0) then None else si_Value item
        end).

Definition TypePing : Z := 10.
Definition TypeConnect : Z := 11.
Definition TypeLeave : Z := 12.
Definition TypeGossipPush : Z := 20.
Definition TypeGossipPull : Z := 21.

(** The messages of members and of gossip are not answered; what they do to
    the node is [onMemberMessage] and [HandleGossip]. *)
Definition silent : Handler := fun _ _ => inr None.

(** The router of a node whose store is [s]: [NewNetwork] registers the
    one-way messages, [setupNetworkHandlers] the others. *)
Definition nodeRouter (now : Z) (s : MemStorage) : Router :=
  Register TypeReadRequest (fun _ data => inr (readHandler now s data).2)
    (Register TypeRequest (fun _ data => inr (valueHandler now s data).2)
      (Register TypeGossipPull silent (Register TypeGossipPush silent
        (Register TypeLeave silent (Register TypeConnect silent (Register TypePing silent
          (Register TypeOneWay silent NewRouter))))))).

(** * Requests *)

Definition errInvalidMessage : error := "invalid message".

(** [RequestMessage] and [Request] of networkImpl; [send] is the request of
    the client to the address, [residue] what its buffer contained. *)
Definition RequestMessage (residue : bytes) (send : bytes -> error + bytes) (request : Message)
    : error + Message :=
  match send (encodeMessage poolCap residue request) with
  | inl e => inl e
  | inr respData =>
      match decodeMessage poolCap respData with
      | None => inl errInvalidMessage
      | Some respMsg => inr respMsg
      end
  end.

Definition NetworkRequest (residue : bytes) (send : bytes -> error + bytes) (now : Z)
    (request : slice) : error + slice :=
  match RequestMessage residue send
          (mkMessage TypeRequest (uint 64 (UnixNano now)) request (UnixNano now) false) with
  | inl e => inl e
  | inr respMsg => inr (mData respMsg)
  end.

(** * The function the reader is given *)

Inductive getErr := errNodeNotFound | errRequest (e : error) | errResponse.

(** The address of the first member with that id, empty if there is none. *)
Definition nodeAddress (members : list NodeInfo) (nodeID : string) : string :=
  match List.find (fun m => bool_decide (ni_NodeID m = nodeID)) members with
  | Some m => ni_Address m
  | None => ""
  end.

Definition readRequest (now : Z) (key : string) : Message :=
  mkMessage TypeReadRequest (uint 64 (UnixNano now)) (Some (StringToBytes key)) (UnixNano now) false.

(** [now] is the clock of the request, [now'] that of the response. *)
Definition createGetFunc (members : list NodeInfo) (residue : bytes)
    (send : string -> bytes -> error + bytes) (now now' : Z) (nodeID key : string)
    : getErr + option StoredItem :=
  let address := nodeAddress members nodeID in
  if bool_decide (address = ""%string) then inl errNodeNotFound
  else
    match RequestMessage residue (send address) (readRequest now key) with
    | inl e => inl (errRequest e)
    | inr respMsg =>
        match decodeReadResponse key (mData respMsg) now' with
        | inl _ => inl errResponse
        | inr item => inr item
        end
    end.

(** * One request on a connection of its own *)

Definition noStats : ServerStats := mkServerStats 0 0 0 0 0.

(** The client frames the request, the server's loop receives it and sends
    the response of [handler], which the client receives; without a response
    the client waits until its deadline. *)
Definition exchange (max : Z) (handler : bytes -> netErr + slice) (request : bytes) : error + bytes :=
  match frame max request with
  | None => inl "message too large"%string
  | Some wire =>
      match Receive max wire with
      | (Got data, _) =>
          let '(_, _, out) := handleConn handler [EvData data true] noStats in
          match out with
          | [] => inl "i/o timeout"%string
          | response :: _ =>
              match frame max response with
              | None => inl "EOF"%string
              | Some wire =>
                  match Receive max wire with
                  | (Got data, _) => inr data
                  | _ => inl "i/o timeout"%string
                  end
              end
          end
      | _ => inl "i/o timeout"%string
      end
  end.
End remote.

(** * The exchange *)

(** What the client gets when both messages fit into a frame. *)
Lemma exchange_spec max handler request :
  max < 2 ^ 32 -> max <= maxMessageSize -> is_Some (frame max request) ->
  exchange max handler request =
  match handler request with
  | inr (Some response) =>
      match frame max response with Some _ => inr response | None => inl "EOF"%string end
  | _ => inl "i/o timeout"%string
  end.
Proof.
  intros Hmax Hsz [wire Hw]. unfold exchange. rewrite Hw.
  rewrite <- (app_nil_r wire), (Receive_frame _ _ _ _ Hmax Hw).
  unfold frame in Hw. destruct (Z.ltb_spec max (blen request)) as [|Hle]; [done|].
  unfold handleConn, handleLoop, handleTurn.
  rewrite (proj2 (Z.ltb_ge maxMessageSize (blen request))) by lia.
  destruct (handler request) as [e|[response|]]; [|simpl|done].
  - by destruct (maxHandlerErrors <=? 1)%nat.
  - destruct (frame max response) as [wire'|] eqn:Hf; [|done].
    by rewrite <- (app_nil_r wire'), (Receive_frame _ _ _ _ Hmax Hf).
Qed.

Section read.
Context `{XXH3, LZ4, !LZ4Laws} (poolCap : Z).

Lemma nodeRouter_read now s :
  nodeRouter poolCap now s !! TypeReadRequest = Some (fun _ data => inr (readHandler poolCap now s data).2).
Proof. apply lookup_insert_eq. Qed.

Lemma readRequest_fits now key : fits_wire (readRequest now key).
Proof.
  split; cbn [readRequest mType mID mTimestamp].
  - done.
  - apply uint_range. lia.
  - apply sint_range. lia.
Qed.

(** The response of a node to a read of [key], and what it stands for. *)
Definition readReply (nowS nowR : Z) (s : MemStorage) (now : Z) (key : string) : Message :=
  mkMessage TypeReadResponse (uint 64 (UnixNano now))
    (readHandler poolCap nowS s (Some (StringToBytes key))).2 (UnixNano nowR) false.

Definition remoteItem (nowS : Z) (s : MemStorage) (key : string) : option StoredItem :=
  match found (StoreGet poolCap s key nowS).2 with
  | Some i => if slice_len (si_Value i) =? 0 then None
              else Some (mkItem (si_Version i) (si_ExpireAt i) (si_Value i) key)
  | None => None
  end.

Lemma readHandler_key nowS s key :
  key <> ""%string ->
  (readHandler poolCap nowS s (Some (StringToBytes key))).2 =
  readResponse (found (StoreGet poolCap s key nowS).2).
Proof.
  intros Hk. unfold readHandler.
  destruct (Z.eqb_spec (slice_len (Some (StringToBytes key))) 0) as [E|_].
  { exfalso. apply Hk. apply StringToBytes_nil. unfold slice_len, blen in E. simpl in E.
    destruct (StringToBytes key); [done|]. simpl in E. lia. }
  change (slice_bytes (Some (StringToBytes key))) with (StringToBytes key).
  rewrite StringToBytesToString. by destruct (StoreGet poolCap s key nowS).
Qed.

(** Items of the store that the protocol can carry. *)
Definition carried (i : StoredItem) : Prop :=
  is_sint 64 (si_Version i) /\ (si_ExpireAt i = zeroTime \/ 0 < si_ExpireAt i < 2 ^ 63) /\
  slice_len (si_Value i) < 2 ^ 31.

Lemma StoreGet_key s key now i : (StoreGet poolCap s key now).2 = inr i -> si_Key i = ""%string.
Proof. unfold StoreGet, getWith. repeat case_match; cbn [snd]; intros [=]; by subst. Qed.

Lemma readResponse_length i :
  (forall x, i = Some x -> si_Key x = ""%string /\ carried x) ->
  blen (slice_bytes (readResponse i)) < 2 ^ 32.
Proof.
  intros Hi. unfold readResponse. destruct i as [x|]; [|done].
  destruct (Hi x eq_refl) as [Hk (_ & _ & Hl)]. case_match; [done|].
  change (slice_bytes (Some ?l)) with l. rewrite Hk. unfold blen, slice_len in *.
  rewrite !length_app, !length_le_encode. simpl. lia.
Qed.

(** A remote read, from the reading node through both codecs, the frames
    and the server of the other node to its store and back: if request and
    response can be decompressed by their receivers, the reader gets exactly
    what the other store holds under the key, with its version and expiration,
    and nothing if it holds no live value; otherwise it gets an error, and
    never a wrong item. *)
Theorem remote_read max members send nodeID key now now' nowS nowR residue residue' remoteAddr s :
  poolCap <= maxPooled -> max < 2 ^ 32 -> max <= maxMessageSize ->
  key <> ""%string -> str_len key < 2 ^ 16 -> nodeAddress members nodeID <> ""%string ->
  (forall i, (StoreGet poolCap s key nowS).2 = inr i -> carried i) ->
  let request := readRequest now key in
  let reply := readReply nowS nowR s now key in
  is_Some (frame max (encodeMessage poolCap residue request)) ->
  is_Some (frame max (encodeMessage poolCap residue' reply)) ->
  let server := onData poolCap residue' nowR (nodeRouter poolCap nowS s) remoteAddr in
  send (nodeAddress members nodeID) = exchange max server ->
  createGetFunc poolCap members residue send now now' nodeID key =
  if negb (deliverable poolCap request) then inl (errRequest "i/o timeout")
  else if negb (deliverable poolCap reply) then inl (errRequest errInvalidMessage)
  else inr (remoteItem nowS s key).
Proof.
  intros Hcap Hmax Hsz Hk Hkl Ha Hi request reply Hf1 Hf2 server Hsend.
  set (item := found (StoreGet poolCap s key nowS).2).
  assert (Hitem : forall x, item = Some x -> si_Key x = ""%string /\ carried x).
  { intros x. unfold item, found. destruct (StoreGet poolCap s key nowS) as [s' [e|y]] eqn:E; [done|].
    intros [= ->]. split; [eapply (StoreGet_key s key nowS)|apply Hi]; by rewrite ?E. }
  assert (Hdata : (readHandler poolCap nowS s (Some (StringToBytes key))).2 = readResponse item)
    by (by apply readHandler_key).
  unfold createGetFunc. rewrite bool_decide_eq_false_2 by done.
  unfold RequestMessage. fold request. rewrite Hsend, exchange_spec by done.
  assert (Hs : server (encodeMessage poolCap residue request) =
    if deliverable poolCap request then inr (Some (encodeMessage poolCap residue' reply)) else inr None).
  { unfold server, onData.
    assert (Hdec := decode_encode poolCap residue request Hcap (readRequest_fits now key) eq_refl
      ltac:(unfold str_len, blen in *; simpl; lia)).
    rewrite Hdec. destruct (Nat.ltb_spec (length (encodeMessage poolCap residue request)) 22) as [Hs|Hs].
    { unfold decodeMessage in Hdec. rewrite (proj2 (Nat.ltb_lt _ _) Hs) in Hdec.
      by destruct (deliverable poolCap request). }
    destruct (deliverable poolCap request); [|done].
    unfold Route, arrived. cbn [request readRequest mType mData mID slice_bytes default].
    change (isResponseType TypeReadRequest) with false. cbv iota.
    rewrite nodeRouter_read. cbn [TypeReadRequest TypeOneWay]. done. }
  rewrite Hs. destruct (deliverable poolCap request); [|done]. cbn [negb].
  destruct Hf2 as [f Hf2]. rewrite Hf2.
  rewrite decode_encode; [|done| |done|cbn [reply readReply mData]; rewrite Hdata; by apply readResponse_length].
  2:{ split; cbn [reply readReply mType mID mTimestamp]; [done|apply uint_range; lia|apply sint_range; lia]. }
  destruct (deliverable poolCap reply); [|done]. cbn [negb].
  cbn [arrived mData reply readReply]. rewrite Hdata.
  change (decodeReadResponse key (Some (slice_bytes (readResponse item))) now')
    with (decodeReadResponse key (readResponse item) now').
  rewrite read_response_roundtrip; [done|].
  intros x Hx. destruct (Hitem x Hx) as [-> Hc]. split; [by vm_compute|done].
Qed.

(** ** A read through the facade *)

(** The result as the reader sees it, when it comes before its deadline. *)
Definition toReply (res : getErr + option StoredItem) : reply :=
  match res with inl _ => Answer None (Some errNetwork) | inr item => Answer item None end.

(** The other nodes, by address: what each has in its store, the clocks of its
    read and of its response, and what its buffer contained. *)
Context (max : Z) (stores : string -> MemStorage) (clocks : string -> Z * Z) (buffers : string -> bytes).

Definition serverAt (remoteAddr address : string) : bytes -> netErr + slice :=
  onData poolCap (buffers address) (clocks address).2
    (nodeRouter poolCap (clocks address).1 (stores address)) remoteAddr.

Definition askNode (members : list NodeInfo) (residue : bytes) (local : string) (now now' : Z)
    (key nodeID : string) : reply :=
  toReply (createGetFunc poolCap members residue
             (fun address => exchange max (serverAt local address)) now now' nodeID key).

(** A node whose answer about [key] arrives. *)
Definition answers (members : list NodeInfo) (residue : bytes) (now : Z) (key nodeID : string) : Prop :=
  let a := nodeAddress members nodeID in
  let request := readRequest now key in
  let reply := readReply (clocks a).1 (clocks a).2 (stores a) now key in
  a <> ""%string /\
  (forall i, (StoreGet poolCap (stores a) key (clocks a).1).2 = inr i -> carried i) /\
  is_Some (frame max (encodeMessage poolCap residue request)) /\
  is_Some (frame max (encodeMessage poolCap (buffers a) reply)) /\
  deliverable poolCap request = true /\ deliverable poolCap reply = true.

Definition heldBy (members : list NodeInfo) (key nodeID : string) : option StoredItem :=
  let a := nodeAddress members nodeID in remoteItem (clocks a).1 (stores a) key.

Lemma remoteItem_usable nowS s key : usable (remoteItem nowS s key) None = remoteItem nowS s key.
Proof.
  unfold remoteItem. destruct (found _) as [i|]; [|done].
  destruct (slice_len (si_Value i) =? 0) eqn:E; [done|].
  unfold usable, IsTombstone. cbn [si_Value]. by rewrite E.
Qed.

End read.

#[local] Existing Instance ToyHash.xxh3.
#[local] Existing Instance RunLength.lz4.
#[local] Existing Instance RunLength.laws.

(** A node that holds "ab" under "a", asked over a connection. *)
Definition demoReplica : MemStorage :=
  (StoreSet 0 demoStore "a" (Some (mkItem 7 zeroTime (Some [x61; x62]) "a"))).1.

Example remote_read_example :
  createGetFunc 0 demoMembers []
    (fun _ => exchange 1000 (onData 0 [] 30 (nodeRouter 0 20 demoReplica) "h:1")) 10 40 "n2" "a" =
  inr (Some (mkItem 7 zeroTime (Some [x61; x62]) "a")).
Proof.
  etrans; [eapply (remote_read 0 1000 demoMembers _ "n2" "a" 10 40 20 30 [] [] "h:1" demoReplica)|].
  - vm_compute. discriminate.
  - done.
  - vm_compute. discriminate.
  - done.
  - done.
  - done.
  - intros i E. vm_compute in E. injection E as <-. split; [done|]. split; [by left|done].
  - vm_compute. eauto.
  - vm_compute. eauto.
  - reflexivity.
  - vm_compute. reflexivity.
Qed.

(** A key of which the node itself has no copy. *)
Definition demoOther (address : string) : MemStorage :=
  (StoreSet 0 demoStore "b" (Some (mkItem 7 zeroTime (Some [x61; x62]) "b"))).1.

