(* ===== verification/Replicate.v ===== *)
(** * Replication between two nodes

    From a Set through the facade of one node to a read of the store of
    another: the writer queues the operation ([Writer]), a flush serialises it
    and hands it to the gossip layer ([Codec], [Gossip]), the function that
    cluster.go makes for gossip wraps it in a network message ([Wire]), and
    the handler of the other node applies it. *)

From Stdlib Require Import Strings.Byte.
From S2P Require Import Prelude Hlc StoredItem Compress SyncBuffer MemStorage MemStorageFacts.
From S2P Require Import MemStorageProps Codec HashRing Member Cluster Gossip Writer Lifecycle TinyLfu.
From S2P Require Import Cache Reader Wire Net Server Node Remote.

Section gossip.
Context `{XXH3, LZ4, SortSlice} (poolCap : Z).

(** [gossipSendFunc] and [gossipPullSendFunc]: the message around a batch. *)
Definition gossipMessage (type now : Z) (data : bytes) : Message :=
  mkMessage type (uint 64 (UnixNano now)) (Some data) (UnixNano now) false.

Definition gossipSend (residue : bytes) (now : Z) (data : bytes) : bytes :=
  encodeMessage poolCap residue (gossipMessage TypeGossipPush now data).
Definition gossipPullSend (residue : bytes) (now : Z) (data : bytes) : bytes :=
  encodeMessage poolCap residue (gossipMessage TypeGossipPull now data).

(** What a node does with the bytes of a gossip message: the handlers that
    setupNetworkHandlers registers, behind the decoder and the router. *)
Definition onGossip (g : gossip) (members : list NodeInfo) (s : MemStorage) (data : bytes) (now : Z)
    : MemStorage * list (string * bytes) :=
  match decodeMessage poolCap data with
  | None => (s, [])
  | Some msg =>
      if (mType msg =? TypeGossipPush) || (mType msg =? TypeGossipPull)
      then (HandleGossip poolCap g members s (slice_bytes (mData msg)) now).1
      else (s, [])
  end.
End gossip.

(** * The operation of a write is in the next flush *)

(** What of the writer decides where an operation goes. *)
Definition placement (w : writer) := (w_nodeID w, w_ring w, w_replicaCount w).

Section queued.
Context `{XXH3, LZ4} (poolCap : Z) (accepts : nat -> bool) (order : gmap string Z -> list string).

Lemma storeOrQueue_placement key item o w :
  placement (storeOrQueue accepts poolCap key item o w).1 = placement w.
Proof.
  unfold storeOrQueue. destruct (GetN _ _ _) as [|t0 ts]; [done|].
  destruct (StoreSet _ _ _ _) as [s [e|]]; [done|]. cbn [fst].
  set (w1 := queueOps _ _ _). pose proof (triggerBatch_frame accepts w1) as [= E1 _ _ E2 _ E3 _ _].
  unfold placement. cbn [uncache w_nodeID w_ring w_replicaCount].
  rewrite E1, E2, E3. done.
Qed.

(** A successful Set has appended its operation to the queue, once for each
    other replica. *)
Lemma WriterSet_queued key item now1 now2 w w' :
  store_wf (w_store w) -> key <> ""%string ->
  WriterSet accepts poolCap order key item now1 now2 w = (w', None) ->
  placement w' = placement w /\
  w_pendingOps w' = w_pendingOps w ++
    replicate (length (remote w (GetN (w_ring w) key (w_replicaCount w))))
      (mkOp key OpSet (Some (mkItem (setVersion now1 now2 key w) (si_ExpireAt item) (si_Value item) key))).
Proof.
  intros Hw Hk. unfold WriterSet, setVersion, stampVersion.
  destruct (Now (w_hlc w) now1) as [h str]. set (w1 := set_hlc h w).
  set (w2 := set_lastVersions _ w1). set (it := mkItem _ _ _ key).
  pose proof (storeOrQueue_spec accepts poolCap key it OpSet w2 Hw Hk) as K.
  pose proof (storeOrQueue_placement key it OpSet w2) as P.
  destruct (storeOrQueue accepts poolCap key it OpSet w2) as [w3 [e|]]; [done|].
  intros [= <-]. pose proof (triggerBatch_frame accepts w3) as [= E1 _ _ E2 _ E3 _ E4].
  destruct K as [_ K _]. cbn [fst snd] in *. split; [|by rewrite E4, K].
  unfold placement. rewrite E1, E2, E3. exact P.
Qed.
End queued.

(** The last pending operation survives the limit on the queue. *)
Lemma keptPending_last w l op :
  w_pendingOps w = l ++ [op] -> 1 <= maxPendingOps w -> op ∈ keptPending w.
Proof.
  intros Hp Hm. unfold keptPending. rewrite Hp, length_app. cbn [length].
  case_match; [|set_solver]. to_prop.
  rewrite drop_app_le by lia. set_solver.
Qed.

Lemma share_elem `{XXH3} w b ops op :
  op ∈ ops -> so_Key op <> ""%string -> b ∈ GetN (w_ring w) (so_Key op) (w_replicaCount w) ->
  op ∈ share w b ops.
Proof. intros. apply list_elem_of_filter. done. Qed.

(** * Applying a batch that holds the newest item *)

Section apply.
Context `{XXH3, LZ4, SortSlice} (poolCap : Z).

(** An item that says the same as another, as far as the store is
    concerned. *)
Definition same_item (i j : StoredItem) : Prop :=
  si_Version i = si_Version j /\ si_ExpireAt i = si_ExpireAt j /\ si_Value i = si_Value j.

(** [item] is the newest of what the store holds under [key] and of the
    operations on it. *)
Definition newest (s : MemStorage) (ops : list SyncOperation) (key : string) (item : StoredItem) : Prop :=
  (forall c, contents s key = Some c -> ci_Version c < si_Version item) /\
  (forall op i, op ∈ ops -> so_Key op = key -> so_Item op = Some i ->
     si_Version i < si_Version item \/ same_item i item).

Lemma prepared_same s key i j :
  same_item i j -> prepareCompressedItem poolCap s key i = prepareCompressedItem poolCap s key j.
Proof. intros (E1 & E2 & E3). unfold prepareCompressedItem. by rewrite E1, E2, E3. Qed.

Lemma applyOps_newest g now s ops key item op :
  store_wf s -> run_clean poolCap g now s ops -> isReplica g key = true ->
  newest s ops key item -> op ∈ ops -> so_Key op = key ->
  (exists i, so_Item op = Some i /\ same_item i item) ->
  contents (applyOps poolCap g now s (Some <$> ops)).1 key =
    Some (prepareCompressedItem poolCap s key item).1.
Proof.
  intros Hw Hr Hrep [Hold Hops] Hin Hk (i & Hi & Hsame).
  destruct (applyOps_greatest poolCap g now s ops key Hw Hr Hrep) as [_ G].
  unfold holds_greatest in G.
  assert (Hcand : candidate poolCap s ops key (prepareCompressedItem poolCap s key item).1).
  { right. exists op. split; [done|]. split; [done|]. unfold op_stored. rewrite Hi, Hk.
    by rewrite (prepared_same s key i item). }
  destruct (contents (applyOps poolCap g now s (Some <$> ops)).1 key) as [c|]; [|by apply G in Hcand].
  destruct G as [Hc Hmax]. specialize (Hmax _ Hcand). rewrite prepared_version in Hmax.
  destruct Hc as [Hc|(op' & Hin' & Hk' & Hs)].
  - specialize (Hold c Hc). lia.
  - unfold op_stored in Hs. destruct (so_Item op') as [i'|] eqn:Hi'; [|done]. injection Hs as <-.
    rewrite prepared_version in Hmax.
    destruct (Hops op' i' Hin' Hk' Hi') as [Hlt|Hs']; [lia|]. rewrite Hk'.
    by rewrite (prepared_same s key i' item).
Qed.

(** What survives the wire is still the newest. *)
Lemma newest_wire s ops key item :
  (forall v, si_Value item = Some v -> v <> []) ->
  newest s ops key item -> newest s (omap wire_op ops) key item.
Proof.
  intros Hv [Hold Hops]. split; [done|]. intros op i Hin Hk Hi.
  apply list_elem_of_omap in Hin as (op0 & Hin & Hw). unfold wire_op in Hw.
  destruct (so_Item op0) as [i0|] eqn:Hi0; [|done]. injection Hw as <-.
  cbn [wire_item so_Key so_Item] in *. injection Hi as <-.
  destruct (Hops op0 i0 Hin Hk Hi0) as [Hlt|(E1 & E2 & E3)]; [by left|]. right.
  split; [done|]. split; [done|]. cbn [si_Value]. rewrite E3.
  destruct (si_Value item) as [[|b v]|]; [|done..]. by destruct (Hv [] eq_refl).
Qed.
End apply.

(** * From the facade to the batch, and from the message to the store *)

(** A Set leaves its operation in the share of every other replica. *)
Lemma Set_in_share `{XXH3, LZ4} accepts order poolCap now now1 now2 ttl key value g g' b drained :
  store_wf (g_store g) ->
  Set_ poolCap accepts order now now1 now2 key value ttl g = (g', None) ->
  let w := g_writer g' in
  1 <= maxPendingOps w -> b <> w_nodeID w -> b ∈ GetN (w_ring w) key (w_replicaCount w) ->
  key <> ""%string /\
  mkOp key OpSet (Some (mkItem (setVersion now1 now2 key (g_writer g)) (expiry now ttl g) value key))
    ∈ share w b (drained ++ keptPending w).
Proof.
  intros Hw. unfold Set_. destruct (g_shuttingDown g); [done|].
  destruct (decide (key = ""%string)) as [->|Hk]; [by rewrite bool_decide_eq_true_2|].
  rewrite bool_decide_eq_false_2 by done. case_match; [done|].
  destruct (WriterSet _ _ _ _ _ _ _ _) as [w1 [e|]] eqn:Ew; [done|]. intros [= <-] Hmax Hb Hrep.
  destruct (WriterSet_queued poolCap accepts order key _ now1 now2 _ _ Hw Hk Ew) as [HP HQ].
  cbn [afterWrite g_writer si_ExpireAt si_Value] in *.
  unfold placement in HP. injection HP as HP1 HP2 HP3. split; [done|].
  apply share_elem; [|done|done]. apply elem_of_app. right.
  assert (Hr : b ∈ Writer.remote (g_writer g)
                 (GetN (w_ring (g_writer g)) key (w_replicaCount (g_writer g)))).
  { apply list_elem_of_filter. by rewrite <- HP1, <- HP2, <- HP3. }
  destruct (Writer.remote (g_writer g) _) as [|x l]; [by apply elem_of_nil in Hr|].
  cbn [length] in HQ. rewrite replicate_S_end, app_assoc in HQ. by eapply keptPending_last.
Qed.

(** What a message of the gossip layer is when it arrives. *)
Lemma decode_gossip `{XXH3, LZ4, !LZ4Laws} poolCap residue type nowM data :
  poolCap <= maxPooled -> is_uint 8 type -> blen data < 2 ^ 32 ->
  deliverable poolCap (gossipMessage type nowM data) = true ->
  decodeMessage poolCap (encodeMessage poolCap residue (gossipMessage type nowM data)) =
  Some (arrived poolCap (gossipMessage type nowM data)).
Proof.
  intros Hcap Ht Hb Hdel. rewrite decode_encode; [by rewrite Hdel|done| |done|done].
  split; cbn [gossipMessage mType mID mTimestamp]; [done|apply uint_range; lia|apply sint_range; lia].
Qed.

(** A push that arrives applies its operations, as they survive the wire. *)
Lemma onGossip_push `{XXH3, LZ4, !LZ4Laws, SortSlice} poolCap g members s residue nowM now ops :
  let data := pushMessage (Serialize ops) in
  poolCap <= maxPooled -> Forall op_fits ops -> Z.of_nat (length ops) < 2 ^ 32 -> blen data < 2 ^ 32 ->
  deliverable poolCap (gossipMessage TypeGossipPush nowM data) = true ->
  onGossip poolCap g members s (gossipSend poolCap residue nowM data) now =
  ((applyOps poolCap g now s (Some <$> omap wire_op ops)).1, []).
Proof.
  intros data Hcap Hf Hn Hb Hdel. unfold onGossip, gossipSend. rewrite decode_gossip by done.
  cbn [arrived gossipMessage mType mData].
  change (slice_bytes (Some (slice_bytes (Some data)))) with data.
  change ((TypeGossipPush =? TypeGossipPush) || _) with true. cbv iota. unfold data.
  by rewrite HandleGossip_push.
Qed.

(** A pull that arrives applies its operations, empties the buffer of the
    store and is answered with what was in it. *)
Lemma onGossip_pull `{XXH3, LZ4, !LZ4Laws, SortSlice} poolCap g members s residue nowM now from ops :
  let data := pullMessage from (Serialize ops) in
  poolCap <= maxPooled -> Forall op_fits ops -> Z.of_nat (length ops) < 2 ^ 32 -> x3a ∉ StringToBytes from ->
  blen data < 2 ^ 32 -> deliverable poolCap (gossipMessage TypeGossipPull nowM data) = true ->
  let drained := GetSyncBuffer poolCap (applyOps poolCap g now s (Some <$> omap wire_op ops)).1 now in
  onGossip poolCap g members s (gossipPullSend poolCap residue nowM data) now =
  (drained.1, match drained.2, addressOf members from with
              | [], _ | _, None => []
              | localOps, Some addr => [(addr, pushMessage (Serialize localOps))]
              end).
Proof.
  intros data Hcap Hf Hn Hc Hb Hdel. cbv zeta. unfold onGossip, gossipPullSend. rewrite decode_gossip by done.
  cbn [arrived gossipMessage mType mData].
  change (slice_bytes (Some (slice_bytes (Some data)))) with data.
  change ((TypeGossipPull =? TypeGossipPush) || _) with true. cbv iota. unfold data.
  by rewrite HandleGossip_pull.
Qed.

(** * The theorem *)

(** C5. Replication, end to end: after a Set of a non-empty value of at most
    8 MiB through the facade of one node, the next flush of that node sends to every other live replica of the key a
    push that, wrapped in its network message and handled by that replica,
    leaves it with the value: a read of its store returns it, with the version
    and expiration the first node gave it.  The write has to be newer than
    what the replica holds and than the other operations of the batch on the
    key and not have expired, the message has to be one that the receiver can
    decompress, and the batch one that fits the format and meets neither memory
    pressure nor expired items. *)
Theorem set_replicates `{XXH3, LZ4, !LZ4Laws, SortSlice} accepts order poolCap now now1 now2 ttl key value
    gA gA' members nowF b addr g membersB sB residue nowM nowB t :
  store_wf (g_store gA) -> poolCap <= maxPooled -> 0 < slice_len value <= maxAlloc ->
  Set_ poolCap accepts order now now1 now2 key value ttl gA = (gA', None) ->
  let w := g_writer gA' in
  let item := mkItem (setVersion now1 now2 key (g_writer gA)) (expiry now ttl gA) value key in
  let batch := share w b ((GetSyncBuffer poolCap (w_store w) nowF).2 ++ keptPending w) in
  let data := pushMessage (Serialize batch) in
  1 <= maxPendingOps w -> b <> w_nodeID w -> b ∈ GetN (w_ring w) key (w_replicaCount w) ->
  nodeIDToAddr members !! b = Some addr -> addr <> ""%string -> alive_at members addr ->
  Forall op_fits batch -> Z.of_nat (length batch) < 2 ^ 32 ->
  deliverable poolCap (gossipMessage TypeGossipPush nowM data) = true -> blen data < 2 ^ 32 ->
  store_wf sB -> isReplica g key = true -> run_clean poolCap g nowB sB (omap wire_op batch) ->
  newest sB batch key item -> expired_at t (si_ExpireAt item) = false ->
  (addr, data) ∈ (flush poolCap members nowF w).2 /\
  let sB' := (onGossip poolCap g membersB sB (gossipSend poolCap residue nowM data) nowB).1 in
  (StoreGet poolCap sB' key t).2 = inr (mkItem (si_Version item) (si_ExpireAt item) value "").
Proof.
  intros HwA Hcap Hval HSet w item batch data Hmax Hb Hrep Haddr Hne Halive Hfits Hlen Hdel Hblen
    HwB HrepB Hclean Hnew Hexp.
  destruct (Set_in_share _ _ _ _ _ _ _ _ _ _ _ b (GetSyncBuffer poolCap (w_store w) nowF).2 HwA HSet
    Hmax Hb Hrep) as [Hk Hin]. fold w item in Hin. change (share w b _) with batch in Hin.
  split.
  { apply flush_sent. exists b. split; [done|]. split; [|done].
    change (share w b _) with batch. intros E. rewrite E in Hin. by apply elem_of_nil in Hin. }
  cbv zeta. unfold data. rewrite onGossip_push by done. cbn [fst].
  assert (Hv : forall v, si_Value item = Some v -> v <> []).
  { intros v Ev ->. cbn [item si_Value] in Ev. rewrite Ev in Hval. destruct Hval as [Hv _]. by vm_compute in Hv. }
  assert (Hc := applyOps_newest poolCap g nowB sB (omap wire_op batch) key item
    (wire_item (mkOp key OpSet (Some item)) item) HwB Hclean HrepB (newest_wire sB batch key item Hv Hnew)).
  assert (Hw : wire_op (mkOp key OpSet (Some item)) = Some (wire_item (mkOp key OpSet (Some item)) item)) by done.
  specialize (Hc ltac:(apply list_elem_of_omap; eauto) eq_refl).
  assert (Hsame : same_item (mkItem (si_Version item) (si_ExpireAt item)
     (match si_Value item with Some [] => None | v => v end) key) item).
  { split; [done|]. split; [done|]. cbn [si_Value].
    destruct (si_Value item) as [[|x l]|]; [|done..]. by destruct (Hv [] eq_refl). }
  specialize (Hc (ex_intro _ _ (conj eq_refl Hsame))).
  destruct (prepareCompressedItem poolCap sB key item) as [ci n] eqn:Ep. cbn [fst] in Hc.
  pose proof (prepared_meta poolCap _ _ _ _ _ Ep) as (HV & HE & _).
  unfold StoreGet. erewrite getWith_present; [|done|apply FastCloneBytes_id|exact Hc|by rewrite HE].
  rewrite (ci_decode_prepared poolCap sB key item ci n Hcap (proj2 Hval) Ep). by rewrite HV, HE.
Qed.

#[local] Existing Instance ToyHash.xxh3.
#[local] Existing Instance RunLength.lz4.
#[local] Existing Instance RunLength.laws.
#[local] Existing Instance MergeSort.sort.

(** Node n1 sets "a"; node n2 has it after the flush. *)
Definition demoSet : GridKV :=
  (Set_ 0 (fun _ => true) anyOrder 1000 1000 1000 "a" (Some [x61; x62]) None demoGrid).1.
Definition demoBatch : list SyncOperation :=
  share (g_writer demoSet) "n2"
    ((GetSyncBuffer 0 (w_store (g_writer demoSet)) 2000).2 ++ keptPending (g_writer demoSet)).

Definition demoItem : StoredItem := mkItem 65536000 zeroTime (Some [x61; x62]) "a".

Lemma demoBatch_two :
  demoBatch = [mkOp "a" OpSet (Some demoItem); mkOp "a" OpSet (Some demoItem)].
Proof. vm_compute. reflexivity. Qed.

Lemma demoItem_set :
  mkItem (setVersion 1000 1000 "a" (g_writer demoGrid)) (expiry 1000 None demoGrid) (Some [x61; x62]) "a" = demoItem.
Proof. vm_compute. reflexivity. Qed.

Lemma set_replicates_witness :
  let data := pushMessage (Serialize demoBatch) in
  let s := (onGossip 0 (newGossip "n2" demoRing 2) [] demoStore (gossipSend 0 [] 3000 data) 4000).1 in
  ("h:2"%string, data) ∈ (flush 0 demoMembers 2000 (g_writer demoSet)).2 /\
  (StoreGet 0 s "a" 5000).2 =
    inr (mkItem (setVersion 1000 1000 "a" (g_writer demoGrid)) zeroTime (Some [x61; x62]) "").
Proof.
  apply (set_replicates (fun _ => true) anyOrder 0 1000 1000 1000 None "a" (Some [x61; x62]) demoGrid demoSet
    demoMembers 2000 "n2" "h:2" (newGossip "n2" demoRing 2) [] demoStore [] 3000 4000 5000).
  - apply demoStore_wf.
  - vm_compute. discriminate.
  - vm_compute. split; [reflexivity|discriminate].
  - apply returns_none. vm_compute. reflexivity.
  - vm_compute. discriminate.
  - intros E. vm_compute in E. discriminate.
  - apply (bool_decide_unpack _). vm_compute. exact I.
  - vm_compute. reflexivity.
  - discriminate.
  - exists (mkNode "n2" "h:2" 1 0 0 0). split; [by right; left|done].
  - fold demoBatch. rewrite demoBatch_two. apply Forall_cons_2; [|apply Forall_cons_2; [|by constructor]].
    all: split; [vm_compute; reflexivity|]; split; [split; vm_compute; [discriminate|reflexivity]|].
    all: split; [left; reflexivity|]; split; [left; reflexivity|vm_compute; reflexivity].
  - vm_compute. reflexivity.
  - vm_compute. reflexivity.
  - vm_compute. reflexivity.
  - apply demoStore_wf.
  - vm_compute. reflexivity.
  - apply run_cleanb_ok. vm_compute. reflexivity.
  - fold demoBatch. rewrite demoBatch_two, demoItem_set. split; [intros c E; vm_compute in E; discriminate|].
    intros op i Hin _ Hi. right. rewrite !elem_of_cons, elem_of_nil in Hin.
    assert (E : i = demoItem) by (destruct Hin as [->|[->|[]]]; injection Hi as <-; reflexivity).
    rewrite E. done.
  - vm_compute. reflexivity.
Defined.
