(* ===== verification/Pushes.v ===== *)
(** * The attempts of a push

    [pushToTarget] of internal/cluster/gossip.go: how often a batch is sent to
    a target, when it gives up and how long that may take.  What the network
    does with each attempt is an argument. *)

From S2P Require Import Prelude StoredItem Codec Member Gossip Transport.

(** * The loop *)

Definition pushRetries : nat := 15.
Definition pushTimeout : Z := 8 * Second.

(** [isConnectionRefused]: the error as its text, [None] for nil. *)
Definition isConnectionRefused (err : option string) : bool :=
  match err with
  | None => false
  | Some e => contains e "connection refused" || contains e "connect: connection refused"
  end.

(** The pause after the attempt [i], in 64 bits. *)
Definition backoff (i : nat) : Z :=
  let b := sint 64 (sint 64 (Z.shiftl 1 (Z.of_nat i)) * 50 * Millisecond) in
  if 500 * Millisecond <? b then 500 * Millisecond else b.

(** The test whether the target is an alive member. *)
Definition targetAlive (members : list NodeInfo) (target : string) : bool :=
  existsb (fun m => bool_decide (ni_Address m = target) && (ni_State m =? NodeStateAlive)) members.

(** A call of the send function: how long it takes and its error. *)
Record attempt := mkAttempt { at_took : Z; at_err : option string }.

(** Whether the call was waited for and succeeded, or refused. *)
Definition inTime (a : attempt) : bool := at_took a <=? pushTimeout.
Definition accepted (a : attempt) : bool := inTime a && bool_decide (at_err a = None).
Definition refused (a : attempt) : bool := inTime a && isConnectionRefused (at_err a).
Definition waited (a : attempt) : Z := Z.min (at_took a) pushTimeout.

(** What the loop has done: whether an attempt was acknowledged, the number of
    calls of the send function and the time spent. *)
Record pushResult := mkPushResult { pr_ok : bool; pr_calls : nat; pr_time : Z }.

(** From attempt [i] on, with [n] of them left: [members] and [send] are
    what the member list and the network are at each attempt. *)
Fixpoint pushLoop (target : string) (members : nat -> list NodeInfo) (send : nat -> attempt) (i n : nat)
    : pushResult :=
  match n with
  | O => mkPushResult false 0 0
  | S n =>
      if negb (targetAlive (members i) target) then mkPushResult false 0 0
      else if accepted (send i) then mkPushResult true 1 (waited (send i))
      else if refused (send i) && (i =? 0)%nat then mkPushResult false 1 (waited (send i))
      else
        let pause := if (n =? 0)%nat then 0 else backoff i in
        let r := pushLoop target members send (S i) n in
        mkPushResult (pr_ok r) (S (pr_calls r)) (waited (send i) + pause + pr_time r)
  end.

Definition pushToTarget (target : string) (members : nat -> list NodeInfo) (send : nat -> attempt) (maxRetries : nat)
    : pushResult := pushLoop target members send 0 maxRetries.

(** * When it succeeds and how long it takes *)

Lemma pushLoop_ok target members send i n :
  pr_ok (pushLoop target members send i n) = true <->
  exists j, (i <= j < i + n)%nat /\ accepted (send j) = true /\
    (forall k, (i <= k <= j)%nat -> targetAlive (members k) target = true) /\
    (i = 0%nat -> (0 < j)%nat -> refused (send 0%nat) = false \/ accepted (send 0%nat) = true).
Proof.
  revert i. induction n as [|n IH]; intros i; cbn [pushLoop].
  { split; [done|]. intros (j & Hj & _). lia. }
  destruct (targetAlive (members i) target) eqn:Ha; cbn [negb].
  2:{ split; [done|]. intros (j & Hj & _ & Hal & _). rewrite Hal in Ha by lia. done. }
  destruct (accepted (send i)) eqn:Hacc.
  { split; [|done]. intros _. exists i. split; [lia|]. split; [done|]. split; [|lia].
    intros k Hk. by replace k with i by lia. }
  destruct (refused (send i) && (i =? 0)%nat) eqn:Href.
  { apply andb_prop in Href as [Hr ->%Nat.eqb_eq]. split; [done|]. intros (j & Hj & Hjacc & _ & H0).
    destruct (decide (j = 0%nat)) as [->|]; [congruence|]. destruct (H0 eq_refl ltac:(lia)); congruence. }
  cbn [pr_ok]. rewrite IH. split.
  - intros (j & Hj & Hacc' & Hal & _). exists j. split; [lia|]. split; [done|]. split.
    + intros k Hk. destruct (decide (k = i)) as [->|]; [done|]. apply Hal. lia.
    + intros -> _. left. rewrite andb_comm in Href. exact Href.
  - intros (j & Hj & Hacc' & Hal & _). assert (j <> i) by congruence. exists j. split; [lia|]. split; [done|].
    split; [intros k Hk; apply Hal; lia|lia].
Qed.

(** The pauses between the attempts. *)
Definition pauses (i n : nat) : Z := foldr (fun i n => backoff i + n) 0 (seq i (n - 1)).

(** Up to the 38th attempt the pause is not negative: from there on its
    product would overflow. *)
Lemma backoff_nonneg i : (i < 38)%nat -> 0 <= backoff i.
Proof.
  intros Hi. assert (Hall : Forall (fun i => 0 <= backoff i) (seq 0 38)).
  { apply (bool_decide_unpack _). vm_compute. exact I. }
  eapply Forall_forall in Hall; [exact Hall|]. apply elem_of_seq. lia.
Qed.

Lemma pauses_step i n : pauses i (S n) = (if (n =? 0)%nat then 0 else backoff i) + pauses (S i) n.
Proof. destruct n as [|n]; [done|]. unfold pauses. cbn [Nat.sub Nat.eqb seq foldr]. by rewrite !Nat.sub_0_r. Qed.

Lemma pauses_nonneg i n : (i + n <= 38)%nat -> 0 <= pauses i n.
Proof.
  revert i. induction n as [|n IH]; intros i Hi; [done|]. rewrite pauses_step.
  specialize (IH (S i) ltac:(lia)). pose proof (backoff_nonneg i ltac:(lia)). destruct (n =? 0)%nat; lia.
Qed.

Lemma waited_bound a : waited a <= pushTimeout.
Proof. unfold waited. lia. Qed.

Lemma pushLoop_bounds target members send i n :
  (i + n <= 38)%nat ->
  let r := pushLoop target members send i n in
  (pr_calls r <= n)%nat /\ pr_time r <= Z.of_nat n * pushTimeout + pauses i n.
Proof.
  assert (Hp : 0 < pushTimeout) by done.
  revert i. induction n as [|n IH]; intros i Hi; cbn [pushLoop]; [by split|].
  pose proof (pauses_nonneg i (S n) Hi) as Hn. pose proof (waited_bound (send i)) as Hw.
  destruct (negb _); [cbn [pr_calls pr_time]; split; nia|].
  destruct (accepted (send i)); [cbn [pr_calls pr_time]; split; nia|].
  destruct (refused (send i) && _); [cbn [pr_calls pr_time]; split; nia|].
  destruct (IH (S i) ltac:(lia)) as [Hc Ht]. cbn [pr_calls pr_time]. rewrite pauses_step.
  split; [lia|]. destruct (n =? 0)%nat; nia.
Qed.


(** The bounds are reached: a target that never answers. *)
Example push_silent :
  pushToTarget "h:2" (fun _ => [mkNode "n2" "h:2" NodeStateAlive 0 0 0]) (fun _ => mkAttempt (9 * Second) None) pushRetries =
  mkPushResult false 15 (125750 * Millisecond).
Proof. vm_compute. reflexivity. Qed.

(** A target that refuses the first connection is given up at once; one that
    refuses a later one is tried again. *)
Example push_refused :
  let members := fun _ : nat => [mkNode "n2" "h:2" NodeStateAlive 0 0 0] in
  let err := Some "dial tcp: connect: connection refused"%string in
  pushToTarget "h:2" members (fun i => mkAttempt 0 (if (i =? 0)%nat then err else None)) pushRetries = mkPushResult false 1 0 /\
  pushToTarget "h:2" members (fun i => mkAttempt 0 (if (i =? 0)%nat then Some "timeout"%string
    else if (i =? 1)%nat then err else None)) pushRetries = mkPushResult true 3 (150 * Millisecond).
Proof. vm_compute. split; reflexivity. Qed.
