(* ===== verification/Adapter.v ===== *)
(** * Between the cluster and the network

    The functions through which the cluster uses the network: those that
    networkImpl offers (SendFunc, SendBytesFunc, GetFunc, ReceiveFunc and
    RegisterMessageHandler of internal/network/interface.go), and those that
    cluster.New makes of them, with a network and without one
    (internal/cluster/cluster.go).  A value of type interface{} is a [goMsg]. *)

From Stdlib Require Import Strings.Byte.
From S2P Require Import Prelude Hlc StoredItem Compress SyncBuffer MemStorage MemStorageFacts.
From S2P Require Import MemStorageProps Codec HashRing Member Cluster Gossip Writer Lifecycle TinyLfu.
From S2P Require Import Cache Reader Wire Net Server Node Remote Replicate.

(** A byte slice, a message of the membership protocol, or anything else. *)
Inductive goMsg := MBytes (b : bytes) | MMember (m : memberMsg) | MOther.

(** What a send function does: bytes handed to a connection with a deadline in
    nanoseconds, an error, or a call of a function of the user. *)
Inductive sending := OnWire (timeout : Z) (address : string) (data : bytes) | CallsUser (address : string) (msg : goMsg)
  | Fails (e : string).

(** * The network's functions *)

Section network.
Context (defaultTimeout : Z).

Definition SendFunc (address : string) (msg : goMsg) : sending :=
  match msg with
  | MBytes b => OnWire defaultTimeout address b
  | _ => Fails "invalid message"
  end.

Definition SendBytesFunc (address : string) (data : bytes) : sending := OnWire defaultTimeout address data.

(** Every call fails. *)
Definition GetFunc (nodeID key : string) : netErr + unit := inl ErrHandlerNotFound.
End network.

Definition RegisterMessageHandler (msgType : Z) (h : Handler) (r : Router) : Router := Register msgType h r.

(** [ClusterMessageTypes]. *)
Record clusterTypes := mkClusterTypes {
  ct_Ping : Z; ct_Connect : Z; ct_Leave : Z; ct_GossipPush : Z; ct_GossipPull : Z; ct_GossipResponse : Z;
  ct_ReadRequest : Z; ct_ReadResponse : Z; ct_SyncOperation : Z;
}.
Definition ClusterMessageTypes : clusterTypes := mkClusterTypes 10 11 12 20 21 22 30 31 40.

(** They are the types of message.go. *)
Example cluster_types :
  (ct_Ping ClusterMessageTypes, ct_Connect ClusterMessageTypes, ct_Leave ClusterMessageTypes) =
    (MessageTypePing, MessageTypeConnect, MessageTypeLeave) /\
  (ct_GossipPush ClusterMessageTypes, ct_GossipPull ClusterMessageTypes, ct_GossipResponse ClusterMessageTypes) =
    (TypeGossipPush, TypeGossipPull, TypeGossipResponse) /\
  (ct_ReadRequest ClusterMessageTypes, ct_ReadResponse ClusterMessageTypes) = (TypeReadRequest, TypeReadResponse).
Proof. done. Qed.

(** * The cluster's functions *)

Section cluster.
Context `{LZ4} (poolCap : Z) (residue : bytes).
(** The functions the caller of cluster.New gave, for a cluster without a
    network. *)
Context (userSend : bool).

Definition sendTimeout : Z := 5 * Second.

(** The message around a member message. *)
Definition memberEnvelope (now : Z) (m : memberMsg) : Message :=
  mkMessage (getMessageType m) (uint 64 (UnixNano now)) (EncodeMemberMsg m) (UnixNano now) false.

(** [encodeMemberMsg] and [getMessageType] on other values: nil and the
    unknown type. *)
Definition envelope (now : Z) (msg : goMsg) : Message :=
  match msg with
  | MMember m => memberEnvelope now m
  | _ => mkMessage MessageTypeUnknown (uint 64 (UnixNano now)) None (UnixNano now) false
  end.

(** The send function of the member manager; [None]: New refuses. *)
Definition clusterSend (network : bool) (defaultTimeout : Z) : option (Z -> string -> goMsg -> sending) :=
  if network then
    Some (fun now address msg =>
      match msg with
      | MBytes b => SendFunc defaultTimeout address msg
      | _ => OnWire sendTimeout address (encodeMessage poolCap residue (envelope now msg))
      end)
  else if userSend then Some (fun _ address msg => CallsUser address msg)
  else None.

(** The send functions of gossip, for pushes and for pulls. *)
Definition clusterGossipSend (network : bool) (now : Z) (pull : bool) (address : string) (data : bytes) : sending :=
  if network then
    OnWire sendTimeout address
      (if pull then gossipPullSend poolCap residue now data else gossipSend poolCap residue now data)
  else if userSend then CallsUser address (MBytes data)
  else Fails "gossip sendFunc not available: Network is nil and SendFunc not provided".

(** What a node does with the bytes of a member message: the decoder, the
    router and the handlers of setupNetworkHandlers. *)
Definition onMember (data : bytes) (now : Z) : act := fun m =>
  match decodeMessage poolCap data with
  | None => (m, [])
  | Some msg =>
      if (mType msg =? MessageTypePing) || (mType msg =? MessageTypeConnect) || (mType msg =? MessageTypeLeave)
      then onMemberMessage (mType msg) (mData msg) now m
      else (m, [])
  end.

Lemma onMember_envelope `{!LZ4Laws} msg nowS now m :
  poolCap <= maxPooled ->
  blen (slice_bytes (EncodeMemberMsg msg)) < 2 ^ 32 -> deliverable poolCap (memberEnvelope nowS msg) = true ->
  onMember (encodeMessage poolCap residue (memberEnvelope nowS msg)) now m = deliver msg now m.
Proof.
  intros Hcap Hb Hd. unfold onMember. rewrite decode_encode; [|done| |done|done].
  2:{ split; cbn [memberEnvelope mType mID mTimestamp]; [by destruct msg|apply uint_range; lia|apply sint_range; lia]. }
  rewrite Hd. unfold deliver. cbn [arrived memberEnvelope mType mData]. by destruct msg.
Qed.
End cluster.

(** Member messages travel: on a cluster with a network the message that
    the member manager sends is encoded, put into its envelope and handed to
    the network with a timeout of five seconds, and the bytes, decoded and
    routed by the receiving node, are handled as the message itself; without a
    network the function of the caller gets the message as it is. *)
Theorem member_delivery `{LZ4, !LZ4Laws} poolCap residue userSend defaultTimeout msg nowS now address m :
  poolCap <= maxPooled ->
  blen (slice_bytes (EncodeMemberMsg msg)) < 2 ^ 32 -> deliverable poolCap (memberEnvelope nowS msg) = true ->
  (exists data,
    (clusterSend poolCap residue userSend true defaultTimeout ≫= fun send => Some (send nowS address (MMember msg))) =
      Some (OnWire sendTimeout address data) /\
    onMember poolCap data now m = deliver msg now m) /\
  (clusterSend poolCap residue true false defaultTimeout ≫= fun send => Some (send nowS address (MMember msg))) =
    Some (CallsUser address (MMember msg)) /\
  clusterSend poolCap residue false false defaultTimeout = None.
Proof.
  intros Hcap Hb Hd. split; [|done]. eexists. split; [reflexivity|]. by apply onMember_envelope.
Qed.

(** * ReceiveFunc

    The handler of one-way messages puts its data into a channel with one
    slot, and the worker of the server that runs it waits while the slot is
    taken. *)

Record mailbox := mkMailbox { mb_slot : option bytes; mb_blocked : list bytes; mb_received : list bytes }.

Inductive mail := Arrives (data : bytes) | Receives.

(** A message arrives; a call of the function that ReceiveFunc returns takes
    the slot, which the handler that has waited longest fills again; an empty
    slot lets the call time out. *)
Definition mailStep (b : mailbox) (e : mail) : mailbox :=
  match e with
  | Arrives data =>
      match mb_slot b with
      | None => mkMailbox (Some data) (mb_blocked b) (mb_received b)
      | Some _ => mkMailbox (mb_slot b) (mb_blocked b ++ [data]) (mb_received b)
      end
  | Receives =>
      match mb_slot b with
      | None => b
      | Some d => mkMailbox (head (mb_blocked b)) (tail (mb_blocked b)) (mb_received b ++ [d])
      end
  end.

Definition ReceiveFunc : mailbox := mkMailbox None [] [].
Definition arrivals (l : list mail) : list bytes := omap (fun e => match e with Arrives d => Some d | Receives => None end) l.

Definition in_box (b : mailbox) : list bytes := mb_received b ++ option_list (mb_slot b) ++ mb_blocked b.

Lemma mailbox_order l b :
  (mb_slot b = None -> mb_blocked b = []) ->
  let b' := fold_left mailStep l b in
  (mb_slot b' = None -> mb_blocked b' = []) /\ in_box b' = in_box b ++ arrivals l.
Proof.
  revert b. induction l as [|e l IH]; intros b Hb; cbn [fold_left]; [split; [done|]; by rewrite app_nil_r|].
  assert (Hs : (mb_slot (mailStep b e) = None -> mb_blocked (mailStep b e) = []) /\
    in_box (mailStep b e) = in_box b ++ arrivals [e]).
  { unfold in_box. destruct e as [d|], b as [[s|] bl re]; cbn [mailStep mb_slot mb_blocked mb_received] in *.
    - split; [done|]. by simplify_list_eq.
    - rewrite Hb by done. split; [done|]. by simplify_list_eq.
    - destruct bl as [|x bl]; (split; [done|]); by simplify_list_eq.
    - split; [done|]. by simplify_list_eq. }
  destruct Hs as [Hs1 Hs2]. destruct (IH (mailStep b e) Hs1) as [I1 I2]. split; [done|].
  rewrite I2, Hs2, <- app_assoc. f_equal. by destruct e.
Qed.

(** One-way messages are received in the order of their arrival, none is
    lost; of those that have not been received all but one hold a worker of
    the server. *)
Lemma receive_order l :
  let b := fold_left mailStep l ReceiveFunc in
  mb_received b ++ option_list (mb_slot b) ++ mb_blocked b = arrivals l /\
  length (mb_blocked b) = (length (arrivals l) - length (mb_received b) - 1)%nat.
Proof.
  cbv zeta. destruct (mailbox_order l ReceiveFunc) as [H1 H2]; [done|]. unfold in_box in H2.
  change (mb_received ReceiveFunc ++ _) with (@nil bytes) in H2. cbn [app] in H2. split; [done|].
  apply (f_equal length) in H2. rewrite !length_app in H2.
  destruct (mb_slot _); [change (length (option_list (Some _))) with 1%nat in H2; lia|].
  change (length (option_list None)) with 0%nat in H2. rewrite H1 by done. rewrite H1 in H2 by done.
  cbn [length] in *. lia.
Qed.

(** Nobody receives: a server with [n] workers is stuck after [n + 1]
    messages. *)
Example workers_stuck n d :
  length (mb_blocked (fold_left mailStep (replicate (S n) (Arrives d)) ReceiveFunc)) = n.
Proof.
  destruct (receive_order (replicate (S n) (Arrives d))) as [H1 H2]. rewrite H2.
  assert (Hr : mb_received (fold_left mailStep (replicate (S n) (Arrives d)) ReceiveFunc) = []).
  { clear. assert (Hgen : forall b k, mb_received (fold_left mailStep (replicate k (Arrives d)) b) = mb_received b).
    { intros b k. revert b. induction k as [|k IH]; intros b; [done|]. cbn [replicate fold_left]. rewrite IH.
      cbn [mailStep]. by destruct (mb_slot b). }
    apply Hgen. }
  rewrite Hr. assert (Ha : length (arrivals (replicate (S n) (Arrives d))) = S n).
  { clear. induction (S n) as [|k IH]; [done|]. cbn [replicate arrivals omap list_omap length]. by f_equal. }
  rewrite Ha. cbn [length]. lia.
Qed.
