(* ===== verification/StoreFrom.v ===== *)
(** * Where the versions in a store come from

    What a store holds and what its buffers have yet to hand out, and how the
    operations of the store, the application of received operations
    ([Gossip]), and the rounds of anti-entropy and of the checkpoint
    ([Entropy], [Replay]) keep both within a set of versions and values. *)

From Stdlib Require Import Strings.Byte.
From S2P Require Import Prelude Hlc StoredItem Compress SyncBuffer MemStorage MemStorageFacts.
From S2P Require Import MemStorageProps Codec HashRing Member Gossip Writer Entropy Replay.

(** The operations in the ring buffers of a store. *)
Definition buffered (s : MemStorage) (op : SyncOperation) : Prop :=
  exists i sh, MemStorage.shards s !! i = Some sh /\ Some op ∈ syncBuffer (sh_ring sh).

(** A store that has the key at least at this version. *)
Definition ver_ge `{XXH3} (s : MemStorage) (k : string) (v : Z) : Prop :=
  exists c, contents s k = Some c /\ v <= ci_Version c.

(** [P k v x]: the version [v] of the key may appear with the value [x].  An
    older version may appear with a newer value, since the value of an
    operation is read from the store when it is handed out. *)
Record source (P : string -> Z -> bytes -> Prop) : Prop := {
  src_down k v w x y : P k v y -> P k w x -> v <= w -> P k v x;
  src_size k v x : P k v x -> blen x <= maxAlloc;
}.

Definition op_from (P : string -> Z -> bytes -> Prop) (op : SyncOperation) : Prop :=
  forall i, so_Item op = Some i -> P (so_Key op) (si_Version i) (slice_bytes (si_Value i)).

(** An operation in a buffer: without its value, and no newer than what the
    store holds. *)
Definition ring_op `{XXH3} (P : string -> Z -> bytes -> Prop) (s : MemStorage) (op : SyncOperation) : Prop :=
  forall i, so_Item op = Some i ->
    so_Key op <> ""%string /\ so_OpType op = OpSet /\ si_Value i = None /\ ver_ge s (so_Key op) (si_Version i) /\
    exists x, P (so_Key op) (si_Version i) x.

(** The value of a stored item. *)
Definition c_value `{LZ4} (poolCap : Z) (c : compressedItem) : option bytes :=
  match ci_decode poolCap c with inr v => Some (slice_bytes v) | inl _ => None end.

(** Everything a store holds or has yet to hand out is in [P]. *)
Record store_from `{XXH3, LZ4} (poolCap : Z) (P : string -> Z -> bytes -> Prop) (s : MemStorage) : Prop := {
  sf_held : forall k c, contents s k = Some c -> exists x, c_value poolCap c = Some x /\ P k (ci_Version c) x;
  sf_ring : forall op, buffered s op -> ring_op P s op;
}.

Lemma ring_op_ext `{XXH3} P s s' op : (forall k, contents s' k = contents s k) -> ring_op P s op -> ring_op P s' op.
Proof.
  intros Hc Hop i Hi. destruct (Hop i Hi) as (Hk & Ho & Hv & (c & Hcc & Hle) & Hx).
  split_and!; try done. exists c. by rewrite Hc.
Qed.

Lemma put_ge `{XXH3} s s' key ci k v :
  (forall k, contents s' k = VersionedMap.put (contents s) key ci k) -> ver_ge s k v -> ver_ge s' k v.
Proof.
  intros Hc (c & Hk & Hv). unfold ver_ge. rewrite Hc. unfold VersionedMap.put.
  case_decide as E; [subst k|by exists c]. rewrite Hk. destruct (Z.leb_spec (ci_Version ci) (ci_Version c)).
  - by exists c.
  - exists ci. split; [done|lia].
Qed.

Lemma put_new `{XXH3} s s' key ci :
  (forall k, contents s' k = VersionedMap.put (contents s) key ci k) -> ver_ge s' key (ci_Version ci).
Proof.
  intros Hc. unfold ver_ge. rewrite Hc. unfold VersionedMap.put. rewrite decide_True by done.
  destruct (contents s key) as [c|]; [|by exists ci].
  destruct (Z.leb_spec (ci_Version ci) (ci_Version c)); [by exists c|by exists ci].
Qed.

(** Nothing in the store has expired. *)
Definition unexpired `{XXH3} (now : Z) (s : MemStorage) : Prop :=
  forall k c, contents s k = Some c -> expired_at now (ci_ExpireAt c) = false.

(** An operation on a shard that leaves its ring alone. *)
Lemma buffered_shard i f s op : (forall sh, sh_ring (f sh) = sh_ring sh) -> buffered (on_shard i f s) op -> buffered s op.
Proof.
  intros Hf (j & sh & Hj & Hop). cbn [on_shard MemStorage.shards] in Hj. rewrite list_lookup_alter in Hj.
  case_decide; [|by exists j, sh]. apply fmap_Some in Hj as (sh0 & Hj & ->). rewrite Hf in Hop. by exists i, sh0.
Qed.

Lemma clear_slots_elem buf mask i n op : Some op ∈ clear_slots buf mask i n -> Some op ∈ buf.
Proof.
  revert buf i. induction n as [|n IH]; intros buf i Hop; [done|].
  apply IH, list_elem_of_lookup in Hop as [j Hj]. apply list_lookup_insert_Some in Hj as [(_ & E & _)|(_ & Hj)]; [done|].
  by eapply list_elem_of_lookup_2.
Qed.

Lemma pushRing_elem r op x : Some x ∈ syncBuffer (pushRing r op) -> x = op \/ Some x ∈ syncBuffer r.
Proof.
  unfold pushRing. cbn [syncBuffer]. intros [j Hj]%list_elem_of_lookup.
  apply list_lookup_insert_Some in Hj as [(_ & [= E] & _)|(_ & Hj)]; [by left|]. right.
  apply list_elem_of_lookup_2 in Hj. case_match; [|done]. by eapply clear_slots_elem.
Qed.

Lemma buffered_queue i key t item s op :
  buffered (storeAddToSyncBuffer i key t (Some item) s) op ->
  op = mkOp key t (Some (mkItem (si_Version item) (si_ExpireAt item) None key)) \/ buffered s op.
Proof.
  intros (j & sh & Hj & Hop). unfold storeAddToSyncBuffer in Hj. cbn [on_shard MemStorage.shards] in Hj.
  rewrite list_lookup_alter in Hj. case_decide; [|right; by exists j, sh].
  apply fmap_Some in Hj as (sh0 & Hj & ->). cbn [shard_ring sh_ring] in Hop. unfold addToSyncBuffer in Hop.
  apply pushRing_elem in Hop as [->|Hop]; [by left|]. right. by exists i, sh0.
Qed.

Section store.
Context `{XXH3, LZ4, !LZ4Laws} (poolCap : Z) (P : string -> Z -> bytes -> Prop) (HP : source P).
Context (Hcap : poolCap <= maxPooled).

Lemma buffered_getWith clone s key now op : buffered (getWith poolCap clone s key now).1 op -> buffered s op.
Proof.
  unfold getWith, expireKey, addUsage, storeTouchLRU, storeRemoveFromLRU.
  repeat case_match; cbn [fst]; intros Hb; repeat (apply buffered_shard in Hb; [|done]); exact Hb.
Qed.

(** A Set without memory pressure: the contents become those of a versioned
    map, and at most its own operation is queued. *)
Lemma StoreSet_fits s key item :
  store_wf s -> key <> ""%string -> fits s (prepareCompressedItem poolCap s key item).2 ->
  let r := StoreSet poolCap s key (Some item) in
  store_wf r.1 /\ cfg r.1 = cfg s /\ r.2 = None /\
  (forall k, contents r.1 k = VersionedMap.put (contents s) key (prepareCompressedItem poolCap s key item).1 k) /\
  forall op, buffered r.1 op ->
    op = mkOp key OpSet (Some (mkItem (si_Version item) (si_ExpireAt item) None key)) \/ buffered s op.
Proof.
  intros Hw Hk Hf. rewrite StoreSet_eq by done.
  destruct (prepareCompressedItem poolCap s key item) as [ci n]. cbn [snd fst] in *.
  rewrite reserve_fits by done.
  destruct (store_round s (shardIndex s key) key ci n item) as (s2 & E2 & Es2). rewrite E2. cbn [default fst snd].
  split; [by eapply wf_store_round|].
  split; [rewrite Es2; unfold updateStatsForNewKey, updateStatsForExistingKey; repeat case_match; done|].
  split; [done|]. split; [by eapply contents_store_round|].
  intros op Hb. rewrite Es2 in Hb.
  assert (Hq : forall s3, (buffered s3 op -> buffered s op) ->
    buffered (storeAddToSyncBuffer (shardIndex s key) key OpSet (Some item) (storeTouchLRU (shardIndex s key) key s3)) op ->
    op = mkOp key OpSet (Some (mkItem (si_Version item) (si_ExpireAt item) None key)) \/ buffered s op).
  { intros s3 H3 [->|Hb3]%buffered_queue; [by left|]. right. apply H3. by apply buffered_shard in Hb3. }
  destruct (sh_data _ !! key) as [old|]; [case_match; [by right|]|]; eapply Hq; [|exact Hb| |exact Hb];
    intros Hb3; unfold updateStatsForNewKey, updateStatsForExistingKey, addUsage in Hb3;
    repeat (apply buffered_shard in Hb3; [|done]); exact Hb3.
Qed.

Lemma prepared_value s key item :
  blen (slice_bytes (si_Value item)) <= maxAlloc ->
  c_value poolCap (prepareCompressedItem poolCap s key item).1 = Some (slice_bytes (si_Value item)).
Proof.
  intros Hl. unfold c_value. destruct (prepareCompressedItem poolCap s key item) as [ci n] eqn:E.
  cbn [fst]. by rewrite (ci_decode_prepared poolCap s key item ci n Hcap Hl E).
Qed.

Lemma StoreSet_from s key item :
  store_wf s -> key <> ""%string -> fits s (prepareCompressedItem poolCap s key item).2 ->
  store_from poolCap P s -> P key (si_Version item) (slice_bytes (si_Value item)) ->
  store_from poolCap P (StoreSet poolCap s key (Some item)).1.
Proof.
  intros Hw Hk Hf [Hh Hr] Hit. destruct (StoreSet_fits s key item Hw Hk Hf) as (_ & _ & _ & Hc & Hb).
  pose proof (prepared_version poolCap s key item) as Hv.
  pose proof (prepared_value s key item (src_size P HP _ _ _ Hit)) as Hx. split.
  - intros k c. rewrite Hc. unfold VersionedMap.put. case_decide as E; [subst k|apply Hh].
    assert (Hnew : exists x, c_value poolCap (prepareCompressedItem poolCap s key item).1 = Some x /\
      P key (ci_Version (prepareCompressedItem poolCap s key item).1) x) by (rewrite Hx, Hv; by eexists).
    destruct (contents s key) as [old|] eqn:Ho; [case_match|]; intros [= <-]; [by apply Hh|done..].
  - intros op [->|Ho]%Hb.
    + intros i [= <-]. cbn [so_Key so_OpType si_Value si_Version]. split_and!; try done; [|by eexists].
      rewrite <- Hv. by eapply put_new.
    + intros i Hi. destruct (Hr op Ho i Hi) as (Hok & Ht & Hn & Hge & Hex). split_and!; try done. by eapply put_ge.
Qed.

(** An operation gets the value that the store has, which is no older. *)
Lemma fillOp_from now s op :
  unexpired now s -> (forall k c, contents s k = Some c -> exists x, c_value poolCap c = Some x /\ P k (ci_Version c) x) ->
  ring_op P s op -> op_from P (fillOp poolCap now s op).2.
Proof.
  intros Hu Hh Hop. unfold fillOp. destruct (so_Item op) as [item|] eqn:E; [|intros i Hi; cbn [snd] in Hi; congruence].
  destruct (Hop item E) as (Hk & Ht & Hn & (c & Hc & Hle) & (y & Hy)).
  rewrite Hn, Ht. rewrite bool_decide_eq_true_2 by done. cbn [andb Z.eqb]. rewrite Z.eqb_refl.
  destruct (Hh _ _ Hc) as (x & Hx & HPx). unfold GetNoCopy.
  pose proof (getWith_present poolCap (fun v => v) s (so_Key op) now c Hk ltac:(done) Hc (Hu _ _ Hc)) as Hg.
  unfold c_value in Hx. destruct (ci_decode poolCap c) as [e|v]; [done|]. injection Hx as <-.
  destruct (getWith _ _ s (so_Key op) now) as [s' res]. cbn [snd] in Hg. subst res. cbn [si_Value].
  pose proof (src_down P HP _ _ _ _ _ Hy HPx Hle) as Hres.
  destruct (Z.ltb_spec 0 (slice_len v)) as [Hpos|Hz]; cbn [snd].
  - intros i [= <-]. exact Hres.
  - intros i Hi. rewrite E in Hi. injection Hi as <-. rewrite Hn.
    assert (Hnil : slice_bytes v = []) by (unfold slice_len in Hz; destruct (slice_bytes v); [done|cbn in Hz; lia]).
    by rewrite Hnil in Hres.
Qed.

(** What is kept while the buffers are drained. *)
Definition drained_ok (s s' : MemStorage) : Prop :=
  (forall k, contents s' k = contents s k) /\ (forall op, buffered s' op -> ring_op P s op).

Lemma fillOp_drained now s0 s op : unexpired now s0 -> drained_ok s0 s -> drained_ok s0 (fillOp poolCap now s op).1.
Proof.
  intros Hu [Hc Hb]. unfold fillOp. destruct (so_Item op); [|done]. destruct (_ && _); [|done].
  unfold GetNoCopy.
  destruct (getWith_data poolCap (fun v => v) s (so_Key op) now) as [Hd _].
  { intros ci Hci. rewrite Hc in Hci. by apply Hu in Hci. }
  pose proof (fun op' => buffered_getWith (fun v => v) s (so_Key op) now op') as Hg.
  destruct (getWith _ _ s (so_Key op) now) as [s' [e|it]]; cbn [fst] in *; [|case_match]; cbn [fst];
    (split; [intros k; by rewrite Hd|intros op' Ho; by apply Hb, Hg]).
Qed.

Lemma drain_loop_drained now s0 buf mask i n s :
  unexpired now s0 -> (forall k c, contents s0 k = Some c -> exists x, c_value poolCap c = Some x /\ P k (ci_Version c) x) ->
  drained_ok s0 s -> (forall op, Some op ∈ buf -> ring_op P s0 op) ->
  let '(buf', s', ops) := drain_loop (fillOp poolCap now) buf mask i n s in
  drained_ok s0 s' /\ (forall op, Some op ∈ buf' -> ring_op P s0 op) /\ Forall (op_from P) ops.
Proof.
  intros Hu Hh. revert buf i s. induction n as [|n IH]; intros buf i s Hs Hbuf; [done|]. cbn [drain_loop].
  destruct (buf !! slot mask i) as [[op|]|] eqn:E; [|by apply IH|by apply IH].
  assert (Hop : ring_op P s0 op) by (apply Hbuf; by eapply list_elem_of_lookup_2).
  pose proof (fillOp_drained now s0 s op Hu Hs) as Hs'.
  assert (Hop' : op_from P (fillOp poolCap now s op).2).
  { destruct Hs as [Hc _]. apply fillOp_from.
    - intros k c. rewrite Hc. apply Hu.
    - intros k c. rewrite Hc. apply Hh.
    - by eapply ring_op_ext. }
  destruct (fillOp poolCap now s op) as [s' op']. cbn [fst snd] in *.
  specialize (IH (<[slot mask i := None]> buf) (i + 1) s' Hs').
  destruct (drain_loop _ _ mask (i + 1) n s') as [[buf' s''] ops].
  destruct IH as (H1' & H2' & H3'); [|by split_and!; [..|constructor]].
  intros x [j Hj]%list_elem_of_lookup. apply list_lookup_insert_Some in Hj as [(_ & [=] & _)|(_ & Hj)].
  apply Hbuf. by eapply list_elem_of_lookup_2.
Qed.

Lemma drainShard_ok now s so i :
  unexpired now s -> (forall k c, contents s k = Some c -> exists x, c_value poolCap c = Some x /\ P k (ci_Version c) x) ->
  drained_ok s so.1 /\ Forall (op_from P) so.2 ->
  drained_ok s (drainShard poolCap now so i).1 /\ Forall (op_from P) (drainShard poolCap now so i).2.
Proof.
  intros Hu Hh. destruct so as [s1 ops]. cbn [fst snd]. intros [[Hc Hb] Ho]. unfold drainShard, drainRing.
  set (r := sh_ring (shardAt s1 i)).
  assert (Hr : forall op, Some op ∈ syncBuffer r -> ring_op P s op).
  { intros op Hop. unfold r, shardAt in Hop. destruct (MemStorage.shards s1 !! i) as [sh|] eqn:E.
    - apply Hb. by exists i, sh.
    - by apply elem_of_nil in Hop. }
  assert (Hset : forall s2 r', drained_ok s s2 -> (forall op, Some op ∈ syncBuffer r' -> ring_op P s op) ->
            drained_ok s (on_shard i (shard_ring (fun _ => r')) s2)).
  { intros s2 r' [Hc2 Hb2] Hr'. split.
    - intros k. rewrite <- Hc2. by rewrite keep_data.
    - intros op (j & sh & Hj & Hop). cbn [on_shard MemStorage.shards] in Hj. rewrite list_lookup_alter in Hj.
      case_decide; [|apply Hb2; by exists j, sh]. apply fmap_Some in Hj as (sh0 & _ & ->). by apply Hr'. }
  destruct (syncHead r =? syncTail r).
  { cbn [fst snd]. rewrite app_nil_r. split; [by apply Hset|done]. }
  pose proof (drain_loop_drained now s (syncBuffer r) (syncMask r) (syncTail r)
    (Z.to_nat (syncHead r - syncTail r)) s1 Hu Hh (conj Hc Hb) Hr) as Hd.
  destruct (drain_loop _ _ _ _ _ s1) as [[b s2] o]. destruct Hd as (H1' & H2' & H3'). cbn [fst snd].
  split; [by apply Hset|by apply Forall_app].
Qed.

(** Draining the buffers for a flush keeps the contents; what it hands out
    comes from the buffers and the store. *)
Lemma GetSyncBuffer_from s now :
  store_wf s -> unexpired now s -> store_from poolCap P s ->
  let r := GetSyncBuffer poolCap s now in
  store_wf r.1 /\ (forall k, contents r.1 k = contents s k) /\ store_from poolCap P r.1 /\ Forall (op_from P) r.2.
Proof.
  intros Hw Hu [Hh Hr]. destruct (wf_GetSyncBuffer poolCap s now Hw) as [Hw' _].
  assert (Hd : drained_ok s (GetSyncBuffer poolCap s now).1 /\ Forall (op_from P) (GetSyncBuffer poolCap s now).2).
  { unfold GetSyncBuffer. apply (fold_left_inv (fun so => drained_ok s so.1 /\ Forall (op_from P) so.2)).
    - done.
    - intros so i Hso _. by apply drainShard_ok. }
  destruct Hd as [[Hc Hb] Ho]. cbv zeta. split; [done|]. split; [done|]. split; [|done].
  split; [intros k c; rewrite Hc; apply Hh|]. intros op Hop. eapply ring_op_ext; [exact Hc|by apply Hb].
Qed.

Lemma applyOp_from g now s op :
  store_wf s -> op_clean poolCap now s op -> store_from poolCap P s -> op_from P op ->
  store_from poolCap P (applyOp poolCap g now s (Some op)).1.
Proof.
  intros Hw (Hk & He & Hf) Hs Hop. unfold applyOp. destruct (so_Item op) as [item|] eqn:Hi; [|done].
  destruct (isReplica g (so_Key op)); [|done]. cbn [negb]. unfold GetNoCopy.
  destruct (getWith_data poolCap (fun v => v) s (so_Key op) now He) as [Hd Ht].
  pose proof (wf_getWith poolCap (fun v => v) s (so_Key op) now Hw) as Hw1.
  pose proof (cfg_getWith poolCap (fun v => v) s (so_Key op) now) as Hc1.
  pose proof (fun x => buffered_getWith (fun v => v) s (so_Key op) now x) as Hb.
  destruct (getWith poolCap (fun v => v) s (so_Key op) now) as [s1 res]. cbn [fst] in *.
  assert (Hs1 : store_from poolCap P s1).
  { destruct Hs as [Hh Hr]. split; [intros k c; rewrite Hd; apply Hh|].
    intros x Hx. eapply ring_op_ext; [intros k; by rewrite Hd|by apply Hr, Hb]. }
  assert (Hset : store_from poolCap P (StoreSet poolCap s1 (so_Key op) (Some item)).1).
  { apply StoreSet_from; [done|done| |done|by apply Hop]. rewrite (prepared_cfg poolCap s1 s) by done.
    unfold fits, percent, maxBytes in *. by rewrite Ht, Hc1. }
  destruct res as [e|e]; [done|]. by case_match.
Qed.

Lemma applyOps_from g now s ops :
  store_wf s -> run_clean poolCap g now s ops -> store_from poolCap P s -> Forall (op_from P) ops ->
  store_wf (applyOps poolCap g now s (Some <$> ops)).1 /\
  store_from poolCap P (applyOps poolCap g now s (Some <$> ops)).1.
Proof.
  revert s. induction ops as [|op ops IH]; intros s Hw Hr Hs Ho; [done|]. destruct Hr as [Hc Hr].
  apply Forall_cons in Ho as [Ho Hos]. cbn [fmap list_fmap applyOps].
  pose proof (applyOp_from g now s op Hw Hc Hs Ho) as Hs1.
  pose proof (applyOp_contents poolCap g now s op Hw Hc) as HA.
  destruct (applyOp poolCap g now s (Some op)) as [s1 e]. destruct HA as (Hw1 & -> & _). by apply IH.
Qed.
End store.

Lemma op_from_mono (P Q : string -> Z -> bytes -> Prop) op : (forall k v x, P k v x -> Q k v x) -> op_from P op -> op_from Q op.
Proof. intros HPQ Hop i Hi. by apply HPQ, Hop. Qed.

Lemma store_from_mono `{XXH3, LZ4} poolCap (P Q : string -> Z -> bytes -> Prop) s :
  (forall k v x, P k v x -> Q k v x) -> store_from poolCap P s -> store_from poolCap Q s.
Proof.
  intros HPQ [Hh Hr]. split.
  - intros k c Hc. destruct (Hh k c Hc) as (x & Hx & HP). exists x. auto.
  - intros op Hop i Hi. destruct (Hr op Hop i Hi) as (? & ? & ? & ? & x & Hx). split_and!; try done. exists x. auto.
Qed.

Lemma wire_op_from P op op' : wire_op op = Some op' -> op_from P op -> op_from P op'.
Proof.
  unfold wire_op. destruct (so_Item op) as [item|] eqn:E; [|done]. intros [= <-] Hop i [= <-].
  specialize (Hop item E). cbn [wire_item so_Key si_Version si_Value].
  by destruct (si_Value item) as [[|]|].
Qed.

(** * Reads *)

(** Nothing in the store has expired, by either test. *)
Definition quiet `{XXH3} (now : Z) (s : MemStorage) : Prop := forall k c, contents s k = Some c -> steady now c.

Lemma quiet_unexpired `{XXH3} now s : quiet now s -> unexpired now s.
Proof. intros Hq k c Hc. apply (Hq k c Hc). Qed.

(** A store that only reads have touched. *)
Record read_only `{XXH3} (s s' : MemStorage) : Prop := {
  ro_wf : store_wf s -> store_wf s';
  ro_contents : forall k, contents s' k = contents s k;
  ro_buffered : forall op, buffered s' op -> buffered s op;
}.

#[export] Instance read_only_preorder `{XXH3} : PreOrder read_only.
Proof.
  split; [by intros s; split|]. intros s1 s2 s3 [A1 A2 A3] [B1 B2 B3].
  split; [auto|intros k; by rewrite B2|auto].
Qed.

Lemma read_only_quiet `{XXH3} now s s' : read_only s s' -> quiet now s -> quiet now s'.
Proof. intros [_ Hc _] Hq k c. rewrite Hc. apply Hq. Qed.

Lemma read_only_from `{XXH3, LZ4} poolCap P s s' : read_only s s' -> store_from poolCap P s -> store_from poolCap P s'.
Proof.
  intros [_ Hc Hb] [Hh Hr]. split; [intros k c; rewrite Hc; apply Hh|].
  intros op Ho. eapply ring_op_ext; [exact Hc|by apply Hr, Hb].
Qed.

Section reads.
Context `{XXH3, LZ4} (poolCap : Z) (now : Z).

Lemma getWith_read_only clone s key : quiet now s -> read_only s (getWith poolCap clone s key now).1.
Proof.
  intros Hq. destruct (getWith_data poolCap clone s key now) as [Hd _].
  { intros ci Hc. by apply (Hq key). }
  split; [by apply wf_getWith|intros k; by rewrite Hd|]. intros op. apply buffered_getWith.
Qed.

(** Every item is in the shard of its key. *)
Lemma placed s i k c : store_wf s -> sh_data (shardAt s i) !! k = Some c -> contents s k = Some c.
Proof.
  intros Hw Hk. unfold shardAt in Hk. destruct (MemStorage.shards s !! i) as [sh|] eqn:E.
  - unfold contents, MemStorage.getShard, MemStorage.shardIndex, shardAt.
    rewrite (ok_place _ _ _ (sw_shards _ Hw i sh E) k) by by eexists. by rewrite E.
  - cbn [default emptyShard sh_data] in Hk. by rewrite lookup_empty in Hk.
Qed.

Lemma keysOfShard_quiet s keys i : store_wf s -> quiet now s -> (keysOfShard now (s, keys) i).1 = s.
Proof.
  intros Hw Hq. unfold keysOfShard. cbn [fst]. unfold on_shard. destruct s as [c sh u a e]. cbn [cfg MemStorage.shards total access evictShardIdx].
  f_equal. apply list_eq. intros j. rewrite list_lookup_alter. case_decide as E; [subst j|done].
  destruct (sh !! i) as [x|] eqn:Ei; [|done]. cbn [fmap option_fmap option_map]. f_equal.
  destruct x as [d l r us]. unfold shard_data. cbn [sh_data sh_lru sh_ring sh_usage]. f_equal.
  apply map_filter_id. intros k ci Hk. apply (Hq k ci). apply (placed _ i); [done|].
  unfold shardAt. cbn [MemStorage.shards]. by rewrite Ei.
Qed.

Lemma Keys_quiet s : store_wf s -> quiet now s -> (Keys s now).1 = s.
Proof.
  intros Hw Hq. unfold Keys. apply (fold_left_inv (fun sk => sk.1 = s)); [done|].
  intros [s1 ks] i E _. cbn [fst] in E. subst s1. by apply keysOfShard_quiet.
Qed.

(** Folds whose turns only read. *)
Lemma fold_read_only {A B} (proj : B -> MemStorage) (f : B -> A -> B) l x :
  (forall y a, quiet now (proj y) -> read_only (proj y) (proj (f y a))) -> quiet now (proj x) ->
  read_only (proj x) (proj (fold_left f l x)).
Proof.
  intros Hf. revert x. induction l as [|a l IH]; intros x Hq; [done|]. cbn [fold_left].
  pose proof (Hf x a Hq) as Hr. etransitivity; [exact Hr|]. apply IH. by eapply read_only_quiet.
Qed.

Lemma Digest_read_only s : store_wf s -> quiet now s -> read_only s (Digest poolCap "" s now).1.1.
Proof.
  intros Hw Hq. unfold Digest, getKeysInRange. pose proof (Keys_quiet s Hw Hq) as E.
  destruct (Keys s now) as [s1 keys]. cbn [fst] in E. subst s1. rewrite bool_decide_eq_true_2 by done.
  apply (fold_read_only (fun y : MemStorage * list Z * gmap string Z => y.1.1) (digestKey poolCap now) keys
    (s, replicate 1024 0, ∅)); [|done].
  intros [[s1 bloom] vv] key Hq1. cbn [fst] in *. unfold digestKey, StoreGet.
  pose proof (getWith_read_only FastCloneBytes s1 key Hq1) as Hr.
  by destruct (getWith _ _ s1 key now) as [s2 [e|i]].
Qed.

Lemma Sync_read_only bloom s : store_wf s -> quiet now s -> read_only s (Sync poolCap bloom ∅ s now).1.
Proof.
  intros Hw Hq. unfold Sync, getAllKeys. pose proof (Keys_quiet s Hw Hq) as E.
  destruct (Keys s now) as [s1 keys]. cbn [fst] in E. subst s1.
  pose proof (Digest_read_only s Hw Hq) as HD. destruct (Digest poolCap "" s now) as [[s1 localBloom] vv].
  cbn [fst] in HD. pose proof (fold_read_only (fun y : MemStorage * list string => y.1)
    (syncKey poolCap now bloom localBloom ∅) keys (s1, [])) as HF. cbn [fst] in HF.
  destruct (fold_left _ keys (s1, [])) as [s2 diff]. cbn [fst] in HF. rewrite map_to_list_empty. cbn [fmap list_fmap fold_left fst].
  etransitivity; [exact HD|]. apply HF; [|by eapply read_only_quiet].
  intros [s3 d] key Hq3. cbn [fst] in *. unfold syncKey, StoreGet.
  pose proof (getWith_read_only FastCloneBytes s3 key Hq3) as Hr.
  destruct (_ =? 0); [done|]. destruct (negb _); [done|].
  destruct (getWith _ _ s3 key now) as [s4 [e|i]]; [done|]. rewrite lookup_empty. done.
Qed.

(** The store after the comparison of a round of anti-entropy. *)
Definition compared (s : MemStorage) : MemStorage :=
  let '(s, localBloom, _) := Digest poolCap "" s now in (Sync poolCap localBloom ∅ s now).1.

Lemma compared_read_only s : store_wf s -> quiet now s -> read_only s (compared s).
Proof.
  intros Hw Hq. unfold compared. pose proof (Digest_read_only s Hw Hq) as HD.
  destruct (Digest poolCap "" s now) as [[s1 bloom] vv]. cbn [fst] in HD. etransitivity; [exact HD|].
  apply Sync_read_only; [by apply HD|by eapply read_only_quiet].
Qed.

(** A round of anti-entropy pulls, or leaves what the comparison leaves. *)
Lemma doAntiEntropy_cases `{SortSlice} g members s :
  doAntiEntropy poolCap g members s now = (s, []) \/
  doAntiEntropy poolCap g members s now = (compared s, []) \/
  exists a, doAntiEntropy poolCap g members s now = Pull poolCap g (compared s) a now.
Proof.
  unfold doAntiEntropy, compared. destruct (entropyTargets members) as [|first l]; [by left|]. right.
  destruct (Digest poolCap "" s now) as [[s1 bloom] vv]. destruct (Sync poolCap bloom ∅ s1 now) as [s2 [|k d]]; [by left|].
  right. by eexists.
Qed.
End reads.
