(* ===== verification/Converge.v ===== *)
(** * Convergence of a cluster

    Any number of nodes, each a [GridKV] of [Node], with the messages that are
    under way between them: clients set and delete on any node, nodes flush
    their queues (internal/cluster/writer.go), pull from each other in gossip
    rounds (internal/cluster/gossip.go) and in rounds of anti-entropy and
    write checkpoints (internal/cluster/entropy.go), and pushes, pulls and the
    answers to pulls are delivered in any order, any number of times, or lost
    ([onGossip] of [Replicate]).  The ring and the addresses are fixed. *)

From Stdlib Require Import Strings.Byte.
From S2P Require Import Prelude Hlc StoredItem Compress SyncBuffer MemStorage MemStorageFacts.
From S2P Require Import MemStorageProps Codec HashRing Member Cluster Gossip Writer Lifecycle TinyLfu.
From S2P Require Import Cache Reader Entropy Replay Wire Net Server Node Remote Replicate StoreFrom.

(** * What a write does to a node *)

Section writes.
Context `{XXH3, LZ4} (poolCap : Z) (accepts : nat -> bool) (order : gmap string Z -> list string).

(** A successful write of [item] on a node whose store is [s]: the store has
    taken it, and its operation is queued once for each other replica. *)
Definition wrote (s : MemStorage) (key : string) (item : StoredItem) (o : Z) (w w' : writer) : Prop :=
  StoreSet poolCap s key (Some item) = (w_store w', None) /\ placement w' = placement w /\
  w_pendingOps w' = w_pendingOps w ++
    replicate (length (remote w (GetN (w_ring w) key (w_replicaCount w)))) (mkOp key o (Some item)).

Lemma storeOrQueue_wrote key item o w w' :
  storeOrQueue accepts poolCap key item o w = (w', None) -> wrote (w_store w) key item o w w'.
Proof.
  unfold storeOrQueue, wrote. destruct (GetN (w_ring w) key (w_replicaCount w)) as [|t ts]; [done|].
  destruct (StoreSet poolCap (w_store w) key (Some item)) as [s [e|]]; [done|]. rewrite DeepCopy_id.
  set (w1 := queueOps _ _ _). intros [= <-].
  pose proof (triggerBatch_frame accepts w1) as [= E1 _ E2 E3 _ E4 _ E5].
  cbn [uncache w_store w_pendingOps]. unfold placement.
  cbn [uncache w_nodeID w_ring w_replicaCount]. rewrite E1, E2, E3, E4, E5. split; [done|]. split; [done|].
  apply (queueOps_pending (t :: ts) (mkOp key o (Some item)) (set_store s w)).
Qed.

Lemma triggerBatch_wrote s key item o w w' : wrote s key item o w w' -> wrote s key item o w (triggerBatch accepts w').
Proof.
  intros (H1 & H2 & H3). pose proof (triggerBatch_frame accepts w') as [= E1 _ E2 E3 _ E4 _ E5].
  unfold wrote, placement in *. rewrite E1, E2, E3, E4, E5. done.
Qed.

Lemma Set_wrote now now1 now2 key value ttl g g' :
  Set_ poolCap accepts order now now1 now2 key value ttl g = (g', None) ->
  key <> ""%string /\
  wrote (g_store g) key (mkItem (setVersion now1 now2 key (g_writer g)) (expiry now ttl g) value key) OpSet
    (g_writer g) (g_writer g').
Proof.
  unfold Set_. destruct (g_shuttingDown g); [done|]. case_bool_decide as Hk; [done|].
  destruct (negb _ && _); [done|].
  unfold WriterSet, setVersion, stampVersion. destruct (Now (w_hlc (g_writer g)) now1) as [h str].
  set (w2 := set_lastVersions _ _). set (it := mkItem _ _ _ key).
  destruct (storeOrQueue accepts poolCap key it OpSet w2) as [w3 [e|]] eqn:E; [done|]. intros [= <-].
  split; [done|]. apply storeOrQueue_wrote in E. by apply triggerBatch_wrote.
Qed.

(** The version that a Delete finds. *)
Definition foundVersion (now : Z) (key : string) (g : GridKV) : Z :=
  match (StoreGet poolCap (g_store g) key now).2 with inr i => si_Version i | inl _ => 0 end.

Lemma Delete_wrote now now1 now2 key g g' :
  Delete poolCap accepts now now1 now2 key g = (g', None) ->
  key <> ""%string /\
  wrote (StoreGet poolCap (g_store g) key now).1 key
    (mkItem (deleteVersion now1 now2 (foundVersion now key g) (g_writer g)) zeroTime None key) OpDelete
    (g_writer g) (g_writer g').
Proof.
  unfold Delete. case_bool_decide as Hk; [done|]. destruct (g_shuttingDown g); [done|]. unfold foundVersion.
  destruct (StoreGet poolCap (g_store g) key now) as [s res]. cbn [fst snd].
  set (w0 := set_store s (g_writer g)).
  assert (Hgo : forall v w3, WriterDelete accepts poolCap key v now1 now2 w0 = (w3, None) ->
    wrote s key (mkItem (deleteVersion now1 now2 v (g_writer g)) zeroTime None key) OpDelete (g_writer g) w3).
  { intros v w3. unfold WriterDelete, deleteVersion, stampVersion. cbn [w0 set_store w_hlc].
    destruct (Now (w_hlc (g_writer g)) now1) as [h str]. cbn [snd].
    destruct (storeOrQueue _ _ _ _ _ _) as [w4 [e|]] eqn:E; [done|]. intros [= <-].
    apply storeOrQueue_wrote in E. by apply triggerBatch_wrote. }
  intros HD. split; [done|].
  destruct res as [[]|item]; try done; cbn [afterWrite g_writer] in HD;
    (destruct (WriterDelete _ _ _ _ _ _ _) as [w3 [e|]] eqn:E; [done|]; injection HD as <-; by apply Hgo).
Qed.
End writes.

(** * The cluster *)

(** The nodes by their ids, the messages under way with their addresses, and
    the writes that have succeeded: keys and items. *)
Record network := mkNetwork {
  n_nodes : gmap string GridKV;
  n_wire : list (string * bytes);
  n_done : list (string * StoredItem);
}.

Section cluster.
Context `{XXH3, LZ4, !LZ4Laws, SortSlice} (poolCap : Z).
Context (accepts : nat -> bool) (order : gmap string Z -> list string).
(** The ring and the replica count of every node, and the addresses. *)
Context (ring : hashRing) (rc : Z) (addr : string -> string).

Definition gossipOf (n : string) : gossip := mkGossip n ring rc.

(** The messages of the gossip layer: a push, and the pull of a node. *)
Inductive parcel := Pushed | Pulled (from : string).

Definition parcel_type (p : parcel) : Z := match p with Pushed => TypeGossipPush | Pulled _ => TypeGossipPull end.
Definition parcel_data (p : parcel) (batch : list SyncOperation) : bytes :=
  match p with
  | Pushed => pushMessage (Serialize batch)
  | Pulled n => pullMessage n (Serialize batch)
  end.

(** What a message that has arrived contains. *)
Definition contentOf (data : bytes) : bytes :=
  match decodeMessage poolCap data with Some msg => slice_bytes (mData msg) | None => [] end.

(** Whether it is a pull, and its operations. *)
Definition asks (data : bytes) : bool := negb (bool_decide (take 5 (contentOf data) = pushPrefix)).
Definition opsOf (data : bytes) : list SyncOperation :=
  let payload := drop 5 (contentOf data) in
  omap id (Deserialize (Some (if asks data then default [] (splitColon payload).2 else payload))).

(** A batch that the format can carry and the receiver can decompress. *)
Record sendable (nowM : Z) (p : parcel) (batch : list SyncOperation) : Prop := {
  se_fits : Forall op_fits batch;
  se_count : Z.of_nat (length batch) < 2 ^ 32;
  se_from : forall n, p = Pulled n -> x3a ∉ StringToBytes n;
  se_size : blen (parcel_data p batch) < 2 ^ 32;
  se_deliverable : deliverable poolCap (gossipMessage (parcel_type p) nowM (parcel_data p batch)) = true;
}.

(** What the members look like to a node: every node of the cluster is alive
    at its address. *)
Definition sees (members : list NodeInfo) (nodes : gmap string GridKV) : Prop :=
  forall b, is_Some (nodes !! b) ->
    nodeIDToAddr members !! b = Some (addr b) /\ addr b <> ""%string /\ alive_at members (addr b).

(** The store of a node once it has applied operations. *)
Definition applied_store (b : string) (now : Z) (s : MemStorage) (ops : list SyncOperation) : MemStorage :=
  (applyOps poolCap (gossipOf b) now s (Some <$> ops)).1.

(** What the buffer of a store has is an answer to a pull that can be sent. *)
Definition answerable (nowM now : Z) (s : MemStorage) : Prop :=
  unexpired now s /\
  ((GetSyncBuffer poolCap s now).2 <> [] -> sendable nowM Pushed (GetSyncBuffer poolCap s now).2).

(** What can happen, as long as nothing expires, no memory limit is reached
    and the queue of a node does not overflow.  A message may be delivered
    again later ([again]). *)
Inductive net_step : network -> network -> Prop :=
  | net_set nodes wire done n g now now1 now2 key value ttl g' :
      let item := mkItem (setVersion now1 now2 key (g_writer g)) (expiry now ttl g) value key in
      nodes !! n = Some g -> Set_ poolCap accepts order now now1 now2 key value ttl g = (g', None) ->
      slice_len value <= maxAlloc -> fits (g_store g) (prepareCompressedItem poolCap (g_store g) key item).2 ->
      net_step (mkNetwork nodes wire done) (mkNetwork (<[n := g']> nodes) wire ((key, item) :: done))
  | net_delete nodes wire done n g now now1 now2 key g' :
      let s := (StoreGet poolCap (g_store g) key now).1 in
      let item := mkItem (deleteVersion now1 now2 (foundVersion poolCap now key g) (g_writer g)) zeroTime None key in
      nodes !! n = Some g -> Delete poolCap accepts now now1 now2 key g = (g', None) ->
      unexpired now (g_store g) -> fits s (prepareCompressedItem poolCap s key item).2 ->
      net_step (mkNetwork nodes wire done) (mkNetwork (<[n := g']> nodes) wire ((key, item) :: done))
  | net_flush nodes wire done n g members now residue nowM :
      let w := g_writer g in
      nodes !! n = Some g -> sees members nodes -> unexpired now (g_store g) ->
      Z.of_nat (length (w_pendingOps w)) <= maxPendingOps w ->
      (forall t, is_Some (nodeIDToAddr members !! t) ->
   sendable nowM Pushed (share w t ((GetSyncBuffer poolCap (w_store w) now).2 ++ keptPending w))) ->
      net_step (mkNetwork nodes wire done)
        (mkNetwork (<[n := afterWrite (flush poolCap members now w).1 None g]> nodes)
           (wire ++ ((fun '(a, data) => (a, gossipSend poolCap residue nowM data)) <$> (flush poolCap members now w).2))
           done)
  | net_pull nodes wire done n g members t a now residue nowM :
      let r := Pull poolCap (gossipOf n) (g_store g) a now in
      let ops := (GetSyncBuffer poolCap (g_store g) now).2 in
      nodes !! n = Some g -> t ∈ gossipTargets n members -> nodeIDToAddr members !! t = Some a ->
      unexpired now (g_store g) -> (ops <> [] -> sendable nowM (Pulled n) ops) ->
      net_step (mkNetwork nodes wire done)
        (mkNetwork (<[n := afterWrite (set_store r.1 (g_writer g)) None g]> nodes)
           (wire ++ ((fun '(a, data) => (a, gossipPullSend poolCap residue nowM data)) <$> r.2)) done)
  | net_entropy nodes wire done n g members now residue nowM :
      let r := doAntiEntropy poolCap (gossipOf n) members (g_store g) now in
      let ops := (GetSyncBuffer poolCap (compared poolCap now (g_store g)) now).2 in
      nodes !! n = Some g -> quiet now (g_store g) -> (ops <> [] -> sendable nowM (Pulled n) ops) ->
      net_step (mkNetwork nodes wire done)
        (mkNetwork (<[n := afterWrite (set_store r.1 (g_writer g)) None g]> nodes)
           (wire ++ ((fun '(a, data) => (a, gossipPullSend poolCap residue nowM data)) <$> r.2)) done)
  | net_checkpoint nodes wire done n g now f path d :
      let r := checkpointTick poolCap f now path d (g_store g) in
      nodes !! n = Some g -> unexpired now (g_store g) ->
      net_step (mkNetwork nodes wire done)
        (mkNetwork (<[n := afterWrite (set_store r.2 (g_writer g)) None g]> nodes) wire done)
  | net_deliver nodes l1 data l2 done b g members now residue nowM (again : bool) :
      let r := onGossip poolCap (gossipOf b) members (g_store g) data now in
      nodes !! b = Some g -> run_clean poolCap (gossipOf b) now (g_store g) (opsOf data) ->
      (asks data = true -> answerable nowM now (applied_store b now (g_store g) (opsOf data))) ->
      net_step (mkNetwork nodes (l1 ++ (addr b, data) :: l2) done)
        (mkNetwork (<[b := afterWrite (set_store r.1 (g_writer g)) None g]> nodes)
           (l1 ++ (if again then [(addr b, data)] else []) ++ l2 ++
            ((fun '(a, data) => (a, gossipSend poolCap residue nowM data)) <$> r.2))
           done).

(** * The invariant *)

(** The versions that the writes of a key were given. *)
Definition issued (done : list (string * StoredItem)) (k : string) (v : Z) : Prop :=
  exists item, (k, item) ∈ done /\ si_Version item = v.

(** A version appears with its own value or that of a newer write: the value
    of an operation in a buffer is read when it is handed out. *)
Definition written (done : list (string * StoredItem)) (k : string) (v : Z) (x : bytes) : Prop :=
  issued done k v /\ blen x <= maxAlloc /\
  exists item, (k, item) ∈ done /\ v <= si_Version item /\ slice_bytes (si_Value item) = x.

(** An operation that has the key at least at this version. *)
Definition newer (op : SyncOperation) (k : string) (v : Z) : Prop :=
  so_Key op = k /\ exists i, so_Item op = Some i /\ v <= si_Version i.

Definition carries (data : bytes) (batch : list SyncOperation) : Prop :=
  exists residue nowM p, sendable nowM p batch /\
    data = encodeMessage poolCap residue (gossipMessage (parcel_type p) nowM (parcel_data p batch)).

Definition held (z : network) (b k : string) (v : Z) : Prop :=
  exists g, n_nodes z !! b = Some g /\ ver_ge (g_store g) k v.
Definition in_flight (z : network) (b k : string) (v : Z) : Prop :=
  exists data batch op, (addr b, data) ∈ n_wire z /\ carries data batch /\ op ∈ batch /\ newer op k v.
Definition waiting (z : network) (b k : string) (v : Z) : Prop :=
  exists a g op, n_nodes z !! a = Some g /\ a <> b /\ op ∈ w_pendingOps (g_writer g) /\ newer op k v.

Record node_ok (P : string -> Z -> bytes -> Prop) (n : string) (g : GridKV) : Prop := {
  no_wf : store_wf (g_store g);
  no_place : placement (g_writer g) = (n, ring, rc);
  no_from : store_from poolCap P (g_store g);
  no_queue : Forall (op_from P) (w_pendingOps (g_writer g));
}.

Definition msg_ok (P : string -> Z -> bytes -> Prop) (m : string * bytes) : Prop :=
  exists batch, carries m.2 batch /\ Forall (op_from P) batch.

(** [gone]: the nodes and keys of which a message was lost. *)
Record net_ok (gone : string -> string -> Prop) (z : network) : Prop := {
  nk_nodes : forall n g, n_nodes z !! n = Some g -> node_ok (written (n_done z)) n g;
  nk_wire : Forall (msg_ok (written (n_done z))) (n_wire z);
  nk_done : forall k v b, ~ gone b k -> issued (n_done z) k v -> is_Some (n_nodes z !! b) -> b ∈ GetN ring k rc ->
    held z b k v \/ in_flight z b k v \/ waiting z b k v;
  nk_keys : forall n g op, n_nodes z !! n = Some g -> op ∈ w_pendingOps (g_writer g) -> so_Key op <> ""%string;
}.

(** * Deliveries *)

Lemma omap_id_Some {A} (l : list A) : omap id (Some <$> l) = l.
Proof. induction l as [|x l IH]; cbn; [done|]. by f_equal. Qed.

Lemma contentOf_post residue nowM p batch :
  poolCap <= maxPooled -> sendable nowM p batch ->
  contentOf (encodeMessage poolCap residue (gossipMessage (parcel_type p) nowM (parcel_data p batch))) =
  parcel_data p batch.
Proof. intros Hcap [_ _ _ Hs Hd]. unfold contentOf. rewrite decode_gossip; [done|done|by destruct p|done|done]. Qed.

Lemma opsOf_carries data batch : poolCap <= maxPooled -> carries data batch -> opsOf data = omap wire_op batch.
Proof.
  intros Hcap (residue & nowM & p & Hse & ->). unfold opsOf, asks. rewrite contentOf_post by done.
  destruct Hse as [Hf Hn Hid _ _]. rewrite <- (omap_id_Some (omap wire_op batch)), <- Deserialize_wire by done.
  destruct p as [|n]; cbn [parcel_data]; [done|]. unfold pullMessage.
  change (drop 5 (StringToBytes "PULL:" ++ ?x)) with x. change (StringToBytes ":" ++ ?x) with (x3a :: x).
  by rewrite splitColon_app by by apply Hid.
Qed.

(** A delivery: a push is applied; a pull is applied and answered with what
    the buffer of the store has. *)
Lemma onGossip_carries b members s data batch now :
  poolCap <= maxPooled -> carries data batch ->
  let s1 := applied_store b now s (omap wire_op batch) in
  let r := onGossip poolCap (gossipOf b) members s data now in
  (asks data = false /\ r = (s1, [])) \/
  (asks data = true /\ r.1 = (GetSyncBuffer poolCap s1 now).1 /\
   forall m, m ∈ r.2 -> (GetSyncBuffer poolCap s1 now).2 <> [] /\
     m.2 = pushMessage (Serialize (GetSyncBuffer poolCap s1 now).2)).
Proof.
  intros Hcap (residue & nowM & p & Hse & ->). cbv zeta. unfold asks. rewrite contentOf_post by done.
  destruct Hse as [Hf Hn Hid Hs Hd]. destruct p as [|n]; cbn [parcel_data parcel_type] in *; [left|right].
  - split; [done|]. by apply onGossip_push.
  - split; [done|]. fold (gossipPullSend poolCap residue nowM (pullMessage n (Serialize batch))).
    rewrite onGossip_pull by auto. fold (applied_store b now s (omap wire_op batch)).
    destruct (GetSyncBuffer poolCap _ now) as [s2 ops]. cbn [fst snd]. split; [done|].
    destruct ops; [by intros m ?%elem_of_nil|]. destruct (addressOf members n); [|by intros m ?%elem_of_nil].
    by intros m ->%list_elem_of_singleton.
Qed.

(** A replica that applies a batch keeps what it has, or something newer, and
    has what the batch brings. *)
Lemma delivered_ge b now s batch k v :
  store_wf s -> run_clean poolCap (gossipOf b) now s (omap wire_op batch) -> b ∈ GetN ring k rc ->
  let s' := applied_store b now s (omap wire_op batch) in
  (ver_ge s k v -> ver_ge s' k v) /\ (forall op, op ∈ batch -> newer op k v -> ver_ge s' k v).
Proof.
  intros Hw Hr Hb s'.
  assert (Hrep : isReplica (gossipOf b) k = true) by (unfold isReplica; by apply bool_decide_eq_true_2).
  destruct (applyOps_greatest poolCap (gossipOf b) now s (omap wire_op batch) k Hw Hr Hrep) as [_ G].
  assert (Hdom : forall c, candidate poolCap s (omap wire_op batch) k c -> v <= ci_Version c -> ver_ge s' k v).
  { intros c Hc Hv. unfold holds_greatest in G. fold (applied_store b now s (omap wire_op batch)) in G. fold s' in G.
    destruct (contents s' k) as [c'|] eqn:E; [|by apply G in Hc].
    exists c'. split; [done|]. destruct G as [_ G]. specialize (G c Hc). lia. }
  split.
  - intros (c & Hc & Hv). apply (Hdom c); [by left|done].
  - intros op Hop (Hk & i & Hi & Hv).
    apply (Hdom (prepareCompressedItem poolCap s k (mkItem (si_Version i) (si_ExpireAt i)
      (match si_Value i with Some [] => None | x => x end) k)).1).
    + right. exists (wire_item op i). split; [|split; [done|]].
      * apply list_elem_of_omap. exists op. split; [done|]. unfold wire_op. by rewrite Hi.
      * unfold op_stored, wire_item. cbn [so_Item so_Key]. by rewrite Hk.
    + by rewrite prepared_version.
Qed.

(** * Steps *)

Lemma issued_mono done x k v : issued done k v -> issued (x :: done) k v.
Proof. intros (item & Hin & Hv). exists item. split; [by right|done]. Qed.

Lemma written_mono done w k v x : written done k v x -> written (w :: done) k v x.
Proof.
  intros (Hi & Hx & item & Hin & Hv). split_and!; [by apply issued_mono|done|]. exists item. split; [by right|done].
Qed.

Lemma written_new done key item :
  slice_len (si_Value item) <= maxAlloc ->
  written ((key, item) :: done) key (si_Version item) (slice_bytes (si_Value item)).
Proof. intros Hl. split_and!; [|done|]; exists item; (split; [by left|done]). Qed.

Lemma written_source done : source (written done).
Proof.
  split; [|by intros k v x (_ & Hx & _)]. intros k v w x y (Hi & _) (_ & Hx & item & Hin & Hw & E) Hle.
  split_and!; [done..|]. exists item. split_and!; [done|lia|done].
Qed.

Lemma node_ok_mono done x n g : node_ok (written done) n g -> node_ok (written (x :: done)) n g.
Proof.
  intros [Hw Hp Hs Hq]. split; [done|done|by eapply store_from_mono, Hs; apply written_mono|].
  eapply Forall_impl; [exact Hq|]. intros op. apply op_from_mono, written_mono.
Qed.

Lemma msg_ok_mono done x m : msg_ok (written done) m -> msg_ok (written (x :: done)) m.
Proof.
  intros (batch & Hc & Hf). exists batch. split; [done|].
  eapply Forall_impl; [exact Hf|]. intros op. apply op_from_mono, written_mono.
Qed.

(** A node is replaced: what the other nodes hold and queue stays, and what
    the node itself holds and queues if its new state has it. *)
Lemma held_update nodes wire wire' done done' n g g' b k v :
  nodes !! n = Some g -> (b = n -> ver_ge (g_store g) k v -> ver_ge (g_store g') k v) ->
  held (mkNetwork nodes wire done) b k v -> held (mkNetwork (<[n := g']> nodes) wire' done') b k v.
Proof.
  intros Hn Hge (g1 & Hg1 & Hv). cbn [n_nodes] in Hg1. unfold held. cbn [n_nodes].
  destruct (decide (b = n)) as [->|Hne]; [|exists g1; by rewrite lookup_insert_ne].
  rewrite Hn in Hg1. injection Hg1 as <-. exists g'. rewrite lookup_insert_eq. auto.
Qed.

Lemma waiting_update nodes wire wire' done done' n g g' b k v :
  nodes !! n = Some g ->
  waiting (mkNetwork nodes wire done) b k v ->
  waiting (mkNetwork (<[n := g']> nodes) wire' done') b k v \/
  exists op, n <> b /\ op ∈ w_pendingOps (g_writer g) /\ (op ∉ w_pendingOps (g_writer g')) /\ newer op k v.
Proof.
  intros Hn (a & g1 & op & Hg1 & Hne & Hop & Hnw). cbn [n_nodes] in Hg1. unfold waiting. cbn [n_nodes].
  destruct (decide (a = n)) as [->|Hna]; [|left; exists a, g1, op; by rewrite lookup_insert_ne].
  rewrite Hn in Hg1. injection Hg1 as <-.
  destruct (decide (op ∈ w_pendingOps (g_writer g'))); [|right; by exists op].
  left. exists n, g', op. by rewrite lookup_insert_eq.
Qed.

Lemma in_flight_mono nodes nodes' wire wire' done done' b k v :
  (forall m, m ∈ wire -> m ∈ wire') ->
  in_flight (mkNetwork nodes wire done) b k v -> in_flight (mkNetwork nodes' wire' done') b k v.
Proof. intros Hm (data & batch & op & Hin & Hrest). exists data, batch, op. split; [by apply Hm|done]. Qed.

Lemma node_there (nodes : gmap string GridKV) n g g' b :
  nodes !! n = Some g -> is_Some ((<[n := g']> nodes) !! b) -> is_Some (nodes !! b).
Proof. intros Hn. destruct (decide (b = n)) as [->|]; [by exists g|by rewrite lookup_insert_ne]. Qed.

(** The operation of a write is queued for every other replica. *)
Lemma wrote_queued s key item o w w' b :
  wrote poolCap s key item o w w' -> b <> w_nodeID w -> b ∈ GetN (w_ring w) key (w_replicaCount w) ->
  mkOp key o (Some item) ∈ w_pendingOps w'.
Proof.
  intros (_ & _ & ->) Hb Hrep. apply elem_of_app. right. apply elem_of_replicate. split; [done|].
  intros Hz%length_zero_iff_nil. assert (Hin : b ∈ remote w (GetN (w_ring w) key (w_replicaCount w))).
  { by apply list_elem_of_filter. }
  rewrite Hz in Hin. by apply elem_of_nil in Hin.
Qed.

(** A write: [s] is the store it finds, with the contents of the node's. *)
Lemma net_ok_write gone nodes wire done n g g' key item o s :
  poolCap <= maxPooled -> slice_len (si_Value item) <= maxAlloc ->
  net_ok gone (mkNetwork nodes wire done) -> nodes !! n = Some g -> key <> ""%string ->
  store_wf s -> (forall k, contents s k = contents (g_store g) k) -> store_from poolCap (written done) s ->
  wrote poolCap s key item o (g_writer g) (g_writer g') -> fits s (prepareCompressedItem poolCap s key item).2 ->
  net_ok gone (mkNetwork (<[n := g']> nodes) wire ((key, item) :: done)).
Proof.
  intros Hcap Hl [HN HW HD HK] Hn Hk Hw Hc Hfrom Hwr Hf. pose proof Hwr as (HS & HP & HQ). cbn [n_nodes n_wire n_done] in *.
  destruct (StoreSet_fits poolCap s key item Hw Hk Hf) as (Hw' & _ & _ & Hput & _).
  pose proof (StoreSet_from poolCap _ (written_source ((key, item) :: done)) Hcap s key item Hw Hk Hf) as Hfrom'.
  rewrite HS in Hw', Hput, Hfrom'. cbn [fst] in *. fold (g_store g') in *.
  pose proof (HN n g Hn) as [_ Hpl _ Hq]. injection Hpl as Hid Hring Hrc.
  split; cbn [n_nodes n_wire n_done].
  - intros n' g1 [[<- <-]|[Hne Hg]]%lookup_insert_Some; [|by apply node_ok_mono, HN].
    split; [done|by rewrite HP; unfold placement; rewrite Hid, Hring, Hrc| |].
    + apply Hfrom'; [by eapply store_from_mono, Hfrom; apply written_mono|by apply written_new].
    + rewrite HQ. apply Forall_app. split; [|apply Forall_replicate; intros i [= <-]; by apply written_new].
      eapply Forall_impl; [exact Hq|]. intros op. apply op_from_mono, written_mono.
  - eapply Forall_impl; [exact HW|]. intros m. apply msg_ok_mono.
  - intros k v b Hgone Hi Hb%(node_there _ _ _ _ _ Hn) Hrep. destruct Hi as (it & Hi & Hiv). apply elem_of_cons in Hi as [[= -> ->]|Hi].
    + destruct (decide (b = n)) as [->|Hne].
      * left. exists g'. split; [apply lookup_insert_eq|].
        rewrite <- Hiv, <- (prepared_version poolCap s key item). by eapply put_new.
      * right. right. exists n, g', (mkOp key o (Some item)). split; [apply lookup_insert_eq|]. split; [done|].
        split; [|split; [done|]; exists item; split; [done|lia]].
        eapply wrote_queued; [exact Hwr|by rewrite Hid|by rewrite Hring, Hrc].
    + destruct (HD k v b Hgone (ex_intro _ it (conj Hi Hiv)) Hb Hrep) as [Hh|[Hfl|Hwt]].
      * left. eapply held_update; [exact Hn| |exact Hh]. intros _ (c & Hcc & Hv).
        eapply put_ge; [exact Hput|]. exists c. by rewrite Hc.
      * right. left. by eapply in_flight_mono, Hfl.
      * right. right. eapply (waiting_update _ _ wire _ _ _ _ g') in Hwt as [Hwt|(op & _ & Hop & Hno & _)]; [exact Hwt| |done].
        destruct Hno. rewrite HQ. apply elem_of_app. by left.
  - intros n' g1 op [[<- <-]|[_ Hg]]%lookup_insert_Some; [|by eapply HK].
    rewrite HQ. intros [Hop|[-> _]%elem_of_replicate]%elem_of_app; [by eapply HK|done].
Qed.

(** The writer after a flush. *)
Lemma flush_state members now w :
  let w' := (flush poolCap members now w).1 in
  w_store w' = (GetSyncBuffer poolCap (w_store w) now).1 /\ placement w' = placement w /\ w_pendingOps w' = [].
Proof.
  unfold flush, flushInternal. destruct (GetSyncBuffer poolCap (w_store w) now) as [s ops].
  by destruct (ops ++ keptPending w).
Qed.

Lemma net_ok_flush gone nodes wire done n g members now residue nowM :
  let w := g_writer g in
  net_ok gone (mkNetwork nodes wire done) -> nodes !! n = Some g -> sees members nodes -> unexpired now (g_store g) ->
  Z.of_nat (length (w_pendingOps w)) <= maxPendingOps w ->
  (forall t, is_Some (nodeIDToAddr members !! t) ->
   sendable nowM Pushed (share w t ((GetSyncBuffer poolCap (w_store w) now).2 ++ keptPending w))) ->
  net_ok gone (mkNetwork (<[n := afterWrite (flush poolCap members now w).1 None g]> nodes)
    (wire ++ ((fun '(a, data) => (a, gossipSend poolCap residue nowM data)) <$> (flush poolCap members now w).2)) done).
Proof.
  intros w [HN HW HD HK] Hn Hsees Hu Hmax Hsend. cbn [n_nodes n_wire n_done] in *.
  pose proof (HN n g Hn) as [Hwf Hpl Hfrom Hq]. pose proof Hpl as [= Hid Hring Hrc].
  destruct (GetSyncBuffer_from poolCap _ (written_source done) (g_store g) now Hwf Hu Hfrom) as (Hwf' & Hcont & Hfrom' & Hops).
  destruct (flush_state members now w) as (Hst & Hpl' & Hpend).
  set (g' := afterWrite (flush poolCap members now w).1 None g).
  assert (Hstore : g_store g' = (GetSyncBuffer poolCap (g_store g) now).1) by exact Hst.
  assert (Hkept : keptPending w = w_pendingOps w).
  { unfold keptPending. by rewrite (proj2 (Z.ltb_ge _ _)) by lia. }
  split; cbn [n_nodes n_wire n_done].
  - intros n' g1 [[<- <-]|[Hne Hg]]%lookup_insert_Some; [|by apply HN].
    split; [by rewrite Hstore|by cbn [g' afterWrite g_writer]; rewrite Hpl'|by rewrite Hstore|].
    cbn [g' afterWrite g_writer]. by rewrite Hpend.
  - apply Forall_app. split; [done|]. apply Forall_forall. intros m ([a data] & -> & Hin)%list_elem_of_fmap.
    apply flush_sent in Hin as (t & _ & _ & Ht & _ & _ & ->). fold w in Hsend.
    eexists. split; [exists residue, nowM, Pushed; split; [apply Hsend; by eexists|reflexivity]|].
    apply Forall_forall. intros op [_ Hop]%list_elem_of_filter.
    apply elem_of_app in Hop as [Hop|Hop]; [by eapply Forall_forall in Hops|].
    rewrite Hkept in Hop. by eapply Forall_forall in Hq.
  - intros k v b Hgone Hi Hb%(node_there _ _ _ _ _ Hn) Hrep. destruct (HD k v b Hgone Hi Hb Hrep) as [Hh|[Hfl|Hwt]].
    + left. eapply held_update; [exact Hn| |exact Hh]. intros _ (c & Hc & Hv). exists c. by rewrite Hstore, Hcont.
    + right. left. eapply in_flight_mono, Hfl. intros m Hm. apply elem_of_app. by left.
    + right. eapply (waiting_update _ _ _ _ _ _ _ g') in Hwt as [Hwt|(op & Hne & Hop & _ & Hnw)]; [right; exact Hwt| |done].
      left. destruct (Hsees b Hb) as (Ha & Hae & Hal).
      assert (Hin : op ∈ share w b ((GetSyncBuffer poolCap (w_store w) now).2 ++ keptPending w)).
      { apply share_elem; [apply elem_of_app; right; by rewrite Hkept|by eapply HK|].
        destruct Hnw as [-> _]. unfold w. by rewrite Hring, Hrc. }
      eexists _, _, op. split; [|split; [exists residue, nowM, Pushed; split; [apply (Hsend b); by eexists|reflexivity]|done]].
      cbn [n_wire]. apply elem_of_app. right. apply list_elem_of_fmap.
      exists (addr b, pushMessage (Serialize (share w b ((GetSyncBuffer poolCap (w_store w) now).2 ++ keptPending w)))).
      split; [done|]. apply flush_sent. exists b. split; [unfold w; by rewrite Hid|].
      split; [|done]. intros E. rewrite E in Hin. by apply elem_of_nil in Hin.
  - intros n' g1 op [[<- <-]|[_ Hg]]%lookup_insert_Some; [|by eapply HK].
    cbn [g' afterWrite g_writer]. rewrite Hpend. by intros ?%elem_of_nil.
Qed.

(** A store is replaced by one with the same contents that still comes from
    the writes, and messages that do are sent. *)
Lemma net_ok_drain gone nodes wire sent done n g s' :
  net_ok gone (mkNetwork nodes wire done) -> nodes !! n = Some g ->
  store_wf s' -> (forall k, contents s' k = contents (g_store g) k) -> store_from poolCap (written done) s' ->
  Forall (msg_ok (written done)) sent ->
  net_ok gone (mkNetwork (<[n := afterWrite (set_store s' (g_writer g)) None g]> nodes) (wire ++ sent) done).
Proof.
  intros [HN HW HD HK] Hn Hwf Hc Hfrom Hsent. cbn [n_nodes n_wire n_done] in *.
  pose proof (HN n g Hn) as [_ Hpl _ Hq]. set (g' := afterWrite _ None g).
  split; cbn [n_nodes n_wire n_done].
  - intros n' g1 [[<- <-]|[Hne Hg]]%lookup_insert_Some; [|by apply HN]. by split.
  - by apply Forall_app.
  - intros k v b Hgone Hi Hb%(node_there _ _ _ _ _ Hn) Hrep. destruct (HD k v b Hgone Hi Hb Hrep) as [Hh|[Hfl|Hwt]].
    + left. eapply held_update; [exact Hn| |exact Hh]. intros _ (c & Hk & Hv). exists c.
      split; [|done]. rewrite <- Hk. apply Hc.
    + right. left. eapply in_flight_mono, Hfl. intros m Hm. apply elem_of_app. by left.
    + right. right. eapply (waiting_update _ _ _ _ _ _ _ g') in Hwt as [Hwt|(op & _ & Hop & Hno & _)]; [exact Hwt| |done].
      by destruct Hno.
  - intros n' g1 op [[<- <-]|[_ Hg]]%lookup_insert_Some; [exact (HK n g op Hn)|by eapply HK].
Qed.

(** A pull from a store [s] that only reads have touched since. *)
Lemma net_ok_pull gone nodes wire done n g s a now residue nowM :
  let r := Pull poolCap (gossipOf n) s a now in
  let ops := (GetSyncBuffer poolCap s now).2 in
  net_ok gone (mkNetwork nodes wire done) -> nodes !! n = Some g -> read_only (g_store g) s ->
  unexpired now s -> (ops <> [] -> sendable nowM (Pulled n) ops) ->
  net_ok gone (mkNetwork (<[n := afterWrite (set_store r.1 (g_writer g)) None g]> nodes)
    (wire ++ ((fun '(a, data) => (a, gossipPullSend poolCap residue nowM data)) <$> r.2)) done).
Proof.
  intros r ops Hz Hn Hro Hu Hsend. pose proof (nk_nodes _ _ Hz n g Hn) as [Hwf _ Hfrom _].
  destruct (GetSyncBuffer_from poolCap _ (written_source done) s now (ro_wf _ _ Hro Hwf) Hu (read_only_from _ _ _ _ Hro Hfrom))
    as (Hwf' & Hcont & Hfrom' & Hops).
  assert (Hr1 : r.1 = (GetSyncBuffer poolCap s now).1).
  { unfold r, Pull. destruct (GetSyncBuffer poolCap s now) as [s' [|]]; done. }
  assert (Hr2 : forall m, m ∈ r.2 -> ops <> [] /\ m = (a, pullMessage n (Serialize ops))).
  { unfold r, ops, Pull. destruct (GetSyncBuffer poolCap s now) as [s' [|x l]]; cbn [fst snd];
      [by intros m ?%elem_of_nil|by intros m ->%list_elem_of_singleton]. }
  rewrite Hr1. apply net_ok_drain; try done.
  - intros k. rewrite Hcont. apply Hro.
  - apply Forall_forall. intros m (m' & -> & [Hne ->]%Hr2)%list_elem_of_fmap.
    exists ops. split; [|exact Hops]. exists residue, nowM, (Pulled n). split; [by apply Hsend|done].
Qed.

(** Nothing is sent. *)
Lemma net_ok_read gone nodes wire done n g s :
  net_ok gone (mkNetwork nodes wire done) -> nodes !! n = Some g -> read_only (g_store g) s ->
  net_ok gone (mkNetwork (<[n := afterWrite (set_store s (g_writer g)) None g]> nodes) wire done).
Proof.
  intros Hz Hn Hro. pose proof (nk_nodes _ _ Hz n g Hn) as [Hwf _ Hfrom _]. rewrite <- (app_nil_r wire).
  apply net_ok_drain; [done|done|by apply Hro|apply Hro|by eapply read_only_from|done].
Qed.

Lemma net_ok_entropy gone nodes wire done n g members now residue nowM :
  let r := doAntiEntropy poolCap (gossipOf n) members (g_store g) now in
  let ops := (GetSyncBuffer poolCap (compared poolCap now (g_store g)) now).2 in
  net_ok gone (mkNetwork nodes wire done) -> nodes !! n = Some g ->
  quiet now (g_store g) -> (ops <> [] -> sendable nowM (Pulled n) ops) ->
  net_ok gone (mkNetwork (<[n := afterWrite (set_store r.1 (g_writer g)) None g]> nodes)
    (wire ++ ((fun '(a, data) => (a, gossipPullSend poolCap residue nowM data)) <$> r.2)) done).
Proof.
  intros r ops Hz Hn Hq Hsend. pose proof (nk_nodes _ _ Hz n g Hn) as [Hwf _ _ _].
  pose proof (compared_read_only poolCap now (g_store g) Hwf Hq) as Hro.
  destruct (doAntiEntropy_cases poolCap now (gossipOf n) members (g_store g)) as [E|[E|[a E]]]; fold r in E; rewrite E.
  - cbn [fst snd fmap list_fmap]. rewrite app_nil_r. by apply net_ok_read.
  - cbn [fst snd fmap list_fmap]. rewrite app_nil_r. by apply net_ok_read.
  - apply net_ok_pull; try done. by eapply quiet_unexpired, read_only_quiet.
Qed.

Lemma net_ok_checkpoint gone nodes wire done n g now f path d :
  net_ok gone (mkNetwork nodes wire done) -> nodes !! n = Some g -> unexpired now (g_store g) ->
  net_ok gone (mkNetwork
    (<[n := afterWrite (set_store (checkpointTick poolCap f now path d (g_store g)).2 (g_writer g)) None g]> nodes) wire done).
Proof.
  intros Hz Hn Hu. pose proof (nk_nodes _ _ Hz n g Hn) as [Hwf _ Hfrom _].
  destruct (GetSyncBuffer_from poolCap _ (written_source done) (g_store g) now Hwf Hu Hfrom) as (Hwf' & Hcont & Hfrom' & _).
  assert (E : (checkpointTick poolCap f now path d (g_store g)).2 = (GetSyncBuffer poolCap (g_store g) now).1).
  { unfold checkpointTick. by destruct (GetSyncBuffer poolCap (g_store g) now) as [s' [|]]. }
  rewrite E, <- (app_nil_r wire). by apply net_ok_drain.
Qed.

(** What a delivery leaves: the contents are those of the operations applied,
    and what it sends comes from the store. *)
Lemma delivered P b members s data batch now residue nowM :
  let s1 := applied_store b now s (omap wire_op batch) in
  let r := onGossip poolCap (gossipOf b) members s data now in
  poolCap <= maxPooled -> source P -> store_wf s -> carries data batch -> Forall (op_from P) batch -> store_from poolCap P s ->
  run_clean poolCap (gossipOf b) now s (opsOf data) ->
  (asks data = true -> answerable nowM now (applied_store b now s (opsOf data))) ->
  store_wf r.1 /\ (forall k, contents r.1 k = contents s1 k) /\ store_from poolCap P r.1 /\
  Forall (msg_ok P) ((fun '(a, data) => (a, gossipSend poolCap residue nowM data)) <$> r.2).
Proof.
  intros s1 r Hcap HP Hwf Hcar Hbatch Hfrom Hclean Hask. rewrite (opsOf_carries data batch Hcap Hcar) in Hclean, Hask.
  destruct (applyOps_from poolCap P HP Hcap (gossipOf b) now s (omap wire_op batch) Hwf Hclean Hfrom) as [Hwf' Hfrom'].
  { apply Forall_forall. intros op' (op & Hop & Hw)%list_elem_of_omap. eapply wire_op_from; [exact Hw|].
    by eapply Forall_forall in Hbatch. }
  fold (applied_store b now s (omap wire_op batch)) in Hwf', Hfrom'. fold s1 in Hwf', Hfrom', Hask.
  destruct (onGossip_carries b members s data batch now Hcap Hcar) as [[_ E]|(Ha & E1 & E2)].
  { fold s1 r in E. rewrite E. by split_and!. }
  fold s1 r in E1, E2.
  destruct (Hask Ha) as [Hu Hsend].
  destruct (GetSyncBuffer_from poolCap P HP s1 now Hwf' Hu Hfrom') as (Hwf2 & Hcont & Hfrom2 & Hops).
  rewrite E1. split_and!; try done.
  apply Forall_forall. intros m ([a d] & -> & [Hne Hm]%E2)%list_elem_of_fmap. cbn [snd] in Hm. subst d.
  eexists. split; [|exact Hops]. exists residue, nowM, Pushed. split; [by apply Hsend|done].
Qed.

Lemma net_ok_deliver gone nodes l1 data l2 done b g members now residue nowM (again : bool) :
  let r := onGossip poolCap (gossipOf b) members (g_store g) data now in
  poolCap <= maxPooled -> (forall x y, addr x = addr y -> x = y) ->
  net_ok gone (mkNetwork nodes (l1 ++ (addr b, data) :: l2) done) ->
  nodes !! b = Some g -> run_clean poolCap (gossipOf b) now (g_store g) (opsOf data) ->
  (asks data = true -> answerable nowM now (applied_store b now (g_store g) (opsOf data))) ->
  net_ok gone (mkNetwork (<[b := afterWrite (set_store r.1 (g_writer g)) None g]> nodes)
    (l1 ++ (if again then [(addr b, data)] else []) ++ l2 ++
     ((fun '(a, data) => (a, gossipSend poolCap residue nowM data)) <$> r.2)) done).
Proof.
  intros r Hcap Hinj [HN HW HD HK] Hn Hclean Hask. cbn [n_nodes n_wire n_done] in *.
  pose proof (HN b g Hn) as [Hwf Hpl Hfrom Hq].
  apply Forall_app in HW as [HW1 HW2]. apply Forall_cons in HW2 as [(batch & Hcar & Hbatch) HW2]. cbn [snd] in Hcar.
  pose proof (opsOf_carries data batch Hcap Hcar) as Hops.
  destruct (delivered (written done) b members (g_store g) data batch now residue nowM) as (Hwf' & Hcont & Hfrom' & Hsent);
    try done; [apply written_source|]. fold r in Hwf', Hcont, Hfrom', Hsent. rewrite Hops in Hclean.
  set (g' := afterWrite (set_store r.1 (g_writer g)) None g).
  assert (Hgeq : forall k v, ver_ge (applied_store b now (g_store g) (omap wire_op batch)) k v -> ver_ge (g_store g') k v).
  { intros k v (c & Hc & Hv). exists c. split; [|done]. rewrite <- Hc. apply Hcont. }
  split; cbn [n_nodes n_wire n_done].
  - intros n' g1 [[<- <-]|[Hne Hg]]%lookup_insert_Some; [|by apply HN]. by split.
  - rewrite !Forall_app. split_and!; try done.
    destruct again; [|done]. apply Forall_singleton. by exists batch.
  - intros k v b' Hgone Hi Hb%(node_there _ _ _ _ _ Hn) Hrep.
    destruct (HD k v b' Hgone Hi Hb Hrep) as [Hh|[(data' & batch' & op & Hin & Hcar' & Hop & Hnw)|Hwt]].
    + left. eapply held_update; [exact Hn| |exact Hh]. intros -> Hge. apply Hgeq.
      by apply (delivered_ge b now (g_store g) batch k v Hwf Hclean Hrep).
    + cbn [n_wire] in Hin. apply elem_of_app in Hin as [Hin|Hin].
      { right. left. exists data', batch', op. split; [cbn [n_wire]; apply elem_of_app; by left|done]. }
      apply elem_of_cons in Hin as [[= E ->]|Hin].
      * apply Hinj in E as ->. left. exists g'. split; [apply lookup_insert_eq|]. apply Hgeq.
        rewrite (opsOf_carries data batch' Hcap Hcar') in Hops. rewrite <- Hops. rewrite <- Hops in Hclean.
        by eapply (delivered_ge b now (g_store g) batch' k v Hwf Hclean Hrep).
      * right. left. exists data', batch', op. split; [cbn [n_wire]; set_solver|done].
    + right. right. eapply (waiting_update _ _ _ _ _ _ _ g') in Hwt as [Hwt|(op & _ & Hop & Hno & _)]; [exact Hwt| |done].
      by destruct Hno.
  - intros n' g1 op [[<- <-]|[_ Hg]]%lookup_insert_Some; [exact (HK b g op Hn)|by eapply HK].
Qed.

Lemma net_step_ok gone z z' :
  poolCap <= maxPooled -> (forall x y, addr x = addr y -> x = y) -> net_ok gone z -> net_step z z' -> net_ok gone z'.
Proof.
  intros Hcap Hinj Hz. destruct 1 as [nodes wire done n g now now1 now2 key value ttl g' item Hn HS Hl Hf
    |nodes wire done n g now now1 now2 key g' s item Hn HD Hu Hf| | | | |].
  - apply Set_wrote in HS as [Hk Hw]. destruct (nk_nodes _ _ Hz n g Hn) as [Hwf _ Hfrom _].
    by eapply net_ok_write.
  - apply Delete_wrote in HD as [Hk Hw]. destruct (nk_nodes _ _ Hz n g Hn) as [Hwf _ [Hh Hr] _].
    destruct (getWith_data poolCap FastCloneBytes (g_store g) key now (Hu key)) as [Hd _].
    assert (Hc : forall k, contents s k = contents (g_store g) k) by (intros k; unfold s, StoreGet; by rewrite Hd).
    eapply net_ok_write; [done| |done|exact Hn|done| |exact Hc| |exact Hw|done].
    + done.
    + by apply wf_getWith.
    + split; [intros k c; rewrite Hc; apply Hh|]. intros op Hop. eapply ring_op_ext; [exact Hc|].
      apply Hr. by eapply buffered_getWith.
  - by apply net_ok_flush.
  - by apply net_ok_pull.
  - by apply net_ok_entropy.
  - by apply net_ok_checkpoint.
  - by apply net_ok_deliver.
Qed.

(** * The theorem *)

(** Nodes that have just started: nothing stored, queued or sent. *)
Definition fresh (z : network) : Prop :=
  n_wire z = [] /\ n_done z = [] /\
  forall n g, n_nodes z !! n = Some g ->
    store_wf (g_store g) /\ placement (g_writer g) = (n, ring, rc) /\ w_pendingOps (g_writer g) = [] /\
    (forall k, contents (g_store g) k = None) /\ (forall op, ~ buffered (g_store g) op).

(** Nothing is under way and nothing is queued. *)
Definition settled (z : network) : Prop :=
  n_wire z = [] /\ forall n g, n_nodes z !! n = Some g -> w_pendingOps (g_writer g) = [].

Lemma fresh_ok z : fresh z -> net_ok (fun _ _ => False) z.
Proof.
  intros (Hw & Hd & Hn). split.
  - intros n g Hg. destruct (Hn n g Hg) as (H1' & H2' & H3' & H4' & H5').
    split; [done|done| |by rewrite H3']. split; [intros k c; by rewrite H4'|intros op Hop; by destruct (H5' op)].
  - by rewrite Hw.
  - intros k v b _. rewrite Hd. by intros (item & ?%elem_of_nil & _).
  - intros n g op Hg. destruct (Hn n g Hg) as (_ & _ & -> & _). by intros ?%elem_of_nil.
Qed.

(** ** Losses *)

(** Messages may be lost, whether the executor refuses the push, no send
    succeeds or the network drops it; the second component lists them. *)
Inductive lossy_step : network * list (string * bytes) -> network * list (string * bytes) -> Prop :=
  | lossy_net z z' lost : net_step z z' -> lossy_step (z, lost) (z', lost)
  | lossy_lose nodes l1 m l2 done lost :
      lossy_step (mkNetwork nodes (l1 ++ m :: l2) done, lost) (mkNetwork nodes (l1 ++ l2) done, m :: lost).

(** A lost message to node [b] had an operation on key [k]. *)
Definition missed (lost : list (string * bytes)) (b k : string) : Prop :=
  exists data op, (addr b, data) ∈ lost /\ op ∈ opsOf data /\ so_Key op = k.

Lemma net_ok_lose lost nodes l1 m l2 done :
  poolCap <= maxPooled -> net_ok (missed lost) (mkNetwork nodes (l1 ++ m :: l2) done) ->
  net_ok (missed (m :: lost)) (mkNetwork nodes (l1 ++ l2) done).
Proof.
  intros Hcap [HN HW HD HK]. cbn [n_nodes n_wire n_done] in *. split; cbn [n_nodes n_wire n_done]; try done.
  - rewrite Forall_app, Forall_cons in HW. rewrite Forall_app. tauto.
  - intros k v b Hgone Hi Hb Hrep.
    destruct (HD k v b) as [Hh|[(data & batch & op & Hin & Hcar & Hop & Hnw)|Hwt]]; try done.
    + intros (data & op & Hin & Hop). apply Hgone. exists data, op. split; [by right|done].
    + by left.
    + cbn [n_wire] in Hin. right. left.
      assert (Hin' : (addr b, data) ∈ l1 ++ l2).
      { rewrite elem_of_app, elem_of_cons in Hin. rewrite elem_of_app. destruct Hin as [?|[<-|?]]; [by left| |by right].
        exfalso. apply Hgone. destruct Hnw as (Hk & i & Hit & _). exists data, (wire_item op i). split; [by left|].
        split; [|by rewrite <- Hk]. rewrite (opsOf_carries data batch Hcap Hcar). apply list_elem_of_omap.
        exists op. split; [done|]. unfold wire_op. by rewrite Hit. }
      by exists data, batch, op.
    + by right; right.
Qed.

Lemma lossy_ok z0 z lost :
  poolCap <= maxPooled -> (forall x y, addr x = addr y -> x = y) -> fresh z0 ->
  steps lossy_step (z0, []) (z, lost) -> net_ok (missed lost) z.
Proof.
  intros Hcap Hinj Hf Hs. refine (steps_invariant lossy_step (fun x => net_ok (missed x.2) x.1) (z0, []) (z, lost) _ _ Hs).
  - intros x y Hx Hxy. destruct Hxy; cbn [fst snd] in *; [by eapply net_step_ok|by apply net_ok_lose].
  - cbn [fst snd]. destruct (fresh_ok z0 Hf) as [HN HW HD HK]. split; try done. intros k v b _. apply HD. by intros [].
Qed.

Lemma lossless z z' lost : steps net_step z z' -> steps lossy_step (z, lost) (z', lost).
Proof.
  induction 1 as [z|z z1 z2 Hs _ IH]; [apply steps_refl|]. eapply steps_cons; [by apply lossy_net|exact IH].
Qed.

(** C4. Convergence: Sets and Deletes on any nodes, flushes, gossip rounds,
    rounds of anti-entropy, checkpoints (which take operations out of the
    buffers), deliveries and losses interleave, and messages arrive in any
    order and any number of times.  At every moment what a node holds was
    written: its version was given to a write of the key, and its value is that
    of a write at that or a newer version.  Once nothing is queued or under
    way, a replica to which no message with an operation on the key was lost
    holds the greatest version that any successful write of the key was given,
    with the value of a write that was given it, and holds nothing if there was
    none, although buffers hand out old versions with new values.  Members and
    ring are fixed with every member seen alive, values are of at most 8 MiB,
    the payloads sent can be decompressed by the receiver, and neither
    expiration nor a limit of memory or of a queue interferes. *)
Theorem cluster_converges z0 z lost k b g :
  poolCap <= maxPooled -> (forall x y, addr x = addr y -> x = y) ->
  fresh z0 -> steps lossy_step (z0, []) (z, lost) -> n_nodes z !! b = Some g ->
  (forall c, contents (g_store g) k = Some c ->
     (exists item, (k, item) ∈ n_done z /\ si_Version item = ci_Version c) /\
     exists item, (k, item) ∈ n_done z /\ ci_Version c <= si_Version item /\
       c_value poolCap c = Some (slice_bytes (si_Value item))) /\
  (settled z -> b ∈ GetN ring k rc -> ~ missed lost b k ->
   match contents (g_store g) k with
   | Some c =>
       (exists item, (k, item) ∈ n_done z /\ si_Version item = ci_Version c /\
          c_value poolCap c = Some (slice_bytes (si_Value item))) /\
       forall item, (k, item) ∈ n_done z -> si_Version item <= ci_Version c
   | None => forall item, (k, item) ∉ n_done z
   end).
Proof.
  intros Hcap Hinj Hfresh Hrun Hg. pose proof (lossy_ok z0 z lost Hcap Hinj Hfresh Hrun) as Hok.
  assert (Hfrom : forall c, contents (g_store g) k = Some c ->
     (exists item, (k, item) ∈ n_done z /\ si_Version item = ci_Version c) /\
     exists item, (k, item) ∈ n_done z /\ ci_Version c <= si_Version item /\
       c_value poolCap c = Some (slice_bytes (si_Value item))).
  { intros c E. destruct (sf_held _ _ _ (no_from _ _ _ (nk_nodes _ _ Hok b g Hg)) k c E) as (x & Hx & Hi & _ & item & Hin & Hv & <-).
    split; [exact Hi|]. by exists item. }
  split; [exact Hfrom|]. intros [Hwire Hq] Hrep Hgone.
  assert (Hall : forall item, (k, item) ∈ n_done z -> ver_ge (g_store g) k (si_Version item)).
  { intros item Hv. destruct (nk_done _ _ Hok k (si_Version item) b) as
      [(g' & Hg' & Hge)|[(data & batch & op & Hin & _)|(a & g' & op & Hg' & _ & Hop & _)]]; try done.
    - by exists item.
    - by simplify_eq.
    - rewrite Hwire in Hin. by apply elem_of_nil in Hin.
    - rewrite (Hq a g' Hg') in Hop. by apply elem_of_nil in Hop. }
  destruct (contents (g_store g) k) as [c|] eqn:E.
  - assert (Hmax : forall item, (k, item) ∈ n_done z -> si_Version item <= ci_Version c).
    { intros item (c' & Hc' & Hle)%Hall. by rewrite E in Hc'; injection Hc' as <-. }
    split; [|exact Hmax]. destruct (Hfrom c eq_refl) as (_ & item & Hin & Hv & Hx).
    exists item. split_and!; [done| |done]. specialize (Hmax item Hin). lia.
  - intros item (c' & Hc' & _)%Hall. by rewrite E in Hc'.
Qed.
End cluster.

(** * An example *)

(** A test for [unexpired]. *)
Lemma unexpired_check `{XXH3} now s :
  forallb (fun sh => forallb (fun kc => negb (expired_at now (ci_ExpireAt kc.2))) (map_to_list (sh_data sh)))
    (MemStorage.shards s) = true ->
  unexpired now s.
Proof.
  intros Ht k c Hc. unfold contents, MemStorage.getShard, MemStorage.shardAt in Hc.
  destruct (MemStorage.shards s !! MemStorage.shardIndex s k) as [sh|] eqn:E; [|cbn [default emptyShard sh_data] in Hc; by rewrite lookup_empty in Hc].
  rewrite forallb_forall in Ht. specialize (Ht sh ltac:(by apply list_elem_of_In; eapply list_elem_of_lookup_2)).
  rewrite forallb_forall in Ht.
  specialize (Ht (k, c) ltac:(apply list_elem_of_In; by apply elem_of_map_to_list)). by apply negb_true_iff in Ht.
Qed.

Lemma New_unbuffered config gomaxprocs op : ~ buffered (MemStorage.New config gomaxprocs) op.
Proof.
  intros (i & sh & Hi & Hop). cbn [MemStorage.New MemStorage.shards] in Hi.
  apply lookup_replicate in Hi as [-> _]. cbn [emptyShard sh_ring newRing syncBuffer] in Hop.
  by apply elem_of_replicate in Hop as [[=] _].
Qed.

#[local] Existing Instance ToyHash.xxh3.
#[local] Existing Instance RunLength.lz4.
#[local] Existing Instance RunLength.laws.
#[local] Existing Instance MergeSort.sort.

(** Two nodes.  n1 sets the key and flushes, n2 receives the push, sets the key
    itself and pulls; n1 takes the version from the pull and answers, n2
    receives the answer and flushes, and n1 receives that push. *)
Definition hostOf (n : string) : string := "h:" +:+ n.
Definition demoView : list NodeInfo := [mkNode "n1" "h:n1" 1 0 0 0; mkNode "n2" "h:n2" 1 0 0 0].
Definition demoNode (rc : Z) (n : string) : GridKV :=
  mkGridKV (newWriter n (NewHLC n) demoStore demoRing None 5 rc) demoMgr2 None None 0 3 0 3 false.

Definition setNode (now : Z) (value : bytes) (g : GridKV) : GridKV :=
  (Set_ 0 (fun _ => true) anyOrder now now now "a" (Some value) None g).1.
Definition flushNode (now : Z) (g : GridKV) : GridKV := afterWrite (flush 0 demoView now (g_writer g)).1 None g.
Definition flushed (now : Z) (g : GridKV) : list (string * bytes) :=
  (fun '(a, data) => (a, gossipSend 0 [] now data)) <$> (flush 0 demoView now (g_writer g)).2.
Definition pullNode (rc now : Z) (n to : string) (g : GridKV) : GridKV :=
  afterWrite (set_store (Pull 0 (gossipOf demoRing rc n) (g_store g) (hostOf to) now).1 (g_writer g)) None g.
Definition pulled (rc now : Z) (n to : string) (g : GridKV) : list (string * bytes) :=
  (fun '(a, data) => (a, gossipPullSend 0 [] now data)) <$>
    (Pull 0 (gossipOf demoRing rc n) (g_store g) (hostOf to) now).2.
Definition receiveNode (rc now : Z) (b : string) (data : bytes) (g : GridKV) : GridKV :=
  afterWrite (set_store (onGossip 0 (gossipOf demoRing rc b) demoView (g_store g) data now).1 (g_writer g)) None g.
Definition answered (rc now : Z) (b : string) (data : bytes) (g : GridKV) : list (string * bytes) :=
  (fun '(a, data) => (a, gossipSend 0 [] now data)) <$>
    (onGossip 0 (gossipOf demoRing rc b) demoView (g_store g) data now).2.
Definition message (l : list (string * bytes)) : bytes := default [] (snd <$> head l).

Definition A1 : GridKV := setNode 1000 [x61; x62] (demoNode 2 "n1").
Definition push1 : bytes := message (flushed 2000 A1).
Definition A2 : GridKV := flushNode 2000 A1.
Definition B1 : GridKV := receiveNode 2 3000 "n2" push1 (demoNode 2 "n2").
Definition B2 : GridKV := setNode 5000 [x63] B1.
Definition pull2 : bytes := message (pulled 2 6000 "n2" "n1" B2).
Definition B3 : GridKV := pullNode 2 6000 "n2" "n1" B2.
Definition answer3 : bytes := message (answered 2 7000 "n1" pull2 A2).
Definition A3 : GridKV := receiveNode 2 7000 "n1" pull2 A2.
Definition B4 : GridKV := receiveNode 2 8000 "n2" answer3 B3.
Definition push4 : bytes := message (flushed 9000 B4).
Definition B5 : GridKV := flushNode 9000 B4.
Definition A4 : GridKV := receiveNode 2 9500 "n1" push4 A3.

Definition version_of (g : GridKV) : option Z := ci_Version <$> contents (g_store g) "a".

Example demo_run_versions :
  version_of A2 = Some 65536000 /\ version_of A3 = Some 327680000 /\ version_of A4 = Some 327680000 /\
  version_of B5 = Some 327680000 /\ setVersion 5000 5000 "a" (g_writer B1) = 327680000.
Proof. vm_compute. repeat split. Qed.

(** Tests for the conditions of a flush. *)
Definition op_fitsb (op : SyncOperation) : bool :=
  match so_Item op with
  | None => true
  | Some item =>
      (str_len (so_Key op) <? 2 ^ 16) && bool_decide (is_sint 64 (si_Version item)) &&
      ((so_OpType op =? OpSet) || (so_OpType op =? OpDelete)) &&
      ((si_ExpireAt item =? zeroTime) || ((0 <? si_ExpireAt item) && (si_ExpireAt item <? 2 ^ 63))) &&
      (slice_len (si_Value item) <? 2 ^ 31)
  end.

Lemma op_fitsb_ok op : op_fitsb op = true -> op_fits op.
Proof.
  unfold op_fitsb, op_fits. destruct (so_Item op) as [item|]; [|done].
  rewrite !andb_true_iff, !orb_true_iff, !andb_true_iff, bool_decide_eq_true, !Z.ltb_lt, !Z.eqb_eq. tauto.
Qed.

Definition sendableb (nowM : Z) (p : parcel) (batch : list SyncOperation) : bool :=
  forallb op_fitsb batch && (Z.of_nat (length batch) <? 2 ^ 32) &&
  (match p with Pushed => true | Pulled n => bool_decide (x3a ∉ StringToBytes n) end) &&
  (blen (parcel_data p batch) <? 2 ^ 32) &&
  deliverable 0 (gossipMessage (parcel_type p) nowM (parcel_data p batch)).

Lemma sendableb_ok nowM p batch : sendableb nowM p batch = true -> sendable 0 nowM p batch.
Proof.
  unfold sendableb. rewrite !andb_true_iff, !Z.ltb_lt, forallb_forall. intros [[[[Hf Hn] Hi] Hs] Hd].
  split; [|done| |done..].
  - apply Forall_forall. intros op Hop. by apply op_fitsb_ok, Hf, list_elem_of_In.
  - intros n ->. by apply bool_decide_eq_true in Hi.
Qed.

Definition shareOf (now : Z) (g : GridKV) (t : string) : list SyncOperation :=
  share (g_writer g) t ((GetSyncBuffer 0 (w_store (g_writer g)) now).2 ++ keptPending (g_writer g)).

Abbreviation demo_step rc := (net_step 0 (fun _ => true) anyOrder demoRing rc hostOf).

Lemma demo_sees nodes : (forall b, is_Some (nodes !! b) -> b = "n1"%string \/ b = "n2"%string) -> sees hostOf demoView nodes.
Proof.
  intros Hb b [->| ->]%Hb; (split; [vm_compute; reflexivity|]; split; [discriminate|]).
  - exists (mkNode "n1" "h:n1" 1 0 0 0). split; [by left|done].
  - exists (mkNode "n2" "h:n2" 1 0 0 0). split; [by right; left|done].
Qed.

(** A flush of a node of the example, with its one message. *)
Lemma demo_flush rc nodes done n g now to :
  nodes !! n = Some g -> (forall b, is_Some (nodes !! b) -> b = "n1"%string \/ b = "n2"%string) ->
  unexpired now (g_store g) -> Z.of_nat (length (w_pendingOps (g_writer g))) <= maxPendingOps (g_writer g) ->
  sendableb now Pushed (shareOf now g "n1") && sendableb now Pushed (shareOf now g "n2") = true ->
  flushed now g = [(hostOf to, message (flushed now g))] ->
  demo_step rc (mkNetwork nodes [] done)
    (mkNetwork (<[n := flushNode now g]> nodes) [(hostOf to, message (flushed now g))] done).
Proof.
  intros Hn Hb Hu Hm [Hs1 Hs2]%andb_prop Hf. rewrite <- Hf.
  apply (net_flush 0 (fun _ => true) anyOrder demoRing rc hostOf nodes [] done n g demoView now [] now); try done.
  - by apply demo_sees.
  - intros t [a Ht]. unfold nodeIDToAddr in Ht. cbn [demoView fold_left] in Ht.
    apply lookup_insert_Some in Ht as [[<- _]|[_ Ht]]; [by apply sendableb_ok|].
    apply lookup_insert_Some in Ht as [[<- _]|[_ Ht]]; [by apply sendableb_ok|]. by rewrite lookup_empty in Ht.
Qed.

(** A pull. *)
Lemma demo_pull rc nodes done n g now to :
  nodes !! n = Some g -> bool_decide (to ∈ gossipTargets n demoView) = true -> nodeIDToAddr demoView !! to = Some (hostOf to) ->
  unexpired now (g_store g) -> sendableb now (Pulled n) (GetSyncBuffer 0 (g_store g) now).2 = true ->
  pulled rc now n to g = [(hostOf to, message (pulled rc now n to g))] ->
  demo_step rc (mkNetwork nodes [] done)
    (mkNetwork (<[n := pullNode rc now n to g]> nodes) [(hostOf to, message (pulled rc now n to g))] done).
Proof.
  intros Hn Ht%bool_decide_eq_true Ha Hu Hs Hp. rewrite <- Hp.
  apply (net_pull 0 (fun _ => true) anyOrder demoRing rc hostOf nodes [] done n g demoView to (hostOf to) now [] now); try done.
  intros _. by apply sendableb_ok.
Qed.

(** A delivery, with its answers [sent]. *)
Lemma demo_receive rc nodes data done b g now sent :
  nodes !! b = Some g -> run_cleanb 0 (gossipOf demoRing rc b) now (g_store g) (opsOf 0 data) = true ->
  (asks 0 data = true -> answerable 0 now now (applied_store 0 demoRing rc b now (g_store g) (opsOf 0 data))) ->
  answered rc now b data g = sent ->
  demo_step rc (mkNetwork nodes [(hostOf b, data)] done) (mkNetwork (<[b := receiveNode rc now b data g]> nodes) sent done).
Proof.
  intros Hn Hc Ha <-.
  pose proof (net_deliver 0 (fun _ => true) anyOrder demoRing rc hostOf nodes [] data [] done b g demoView now [] now false Hn
    (run_cleanb_ok _ _ _ _ _ Hc) Ha) as Hs.
  cbn [app] in Hs. exact Hs.
Qed.

Definition setItem (now : Z) (value : bytes) (g : GridKV) : StoredItem :=
  mkItem (setVersion now now "a" (g_writer g)) (expiry now None g) (Some value) "a".

Lemma demo_set rc nodes wire done n g now value :
  nodes !! n = Some g ->
  (Set_ 0 (fun _ => true) anyOrder now now now "a" (Some value) None g).2 = None ->
  (let item := mkItem (setVersion now now "a" (g_writer g)) (expiry now None g) (Some value) "a" in
   (add64 (u_bytes (total (g_store g))) (prepareCompressedItem 0 (g_store g) "a" item).2
      <=? percent (g_store g) (evictThreshold (cfg (g_store g)))) = true) ->
  (blen value <=? maxAlloc) = true ->
  demo_step rc (mkNetwork nodes wire done)
    (mkNetwork (<[n := setNode now value g]> nodes) wire (("a"%string, setItem now value g) :: done)).
Proof.
  intros Hn Hs Hf Hl.
  apply (net_set 0 (fun _ => true) anyOrder demoRing rc hostOf nodes wire done n g now now now "a" (Some value) None); [done| | |].
  - by apply returns_none.
  - by apply Z.leb_le.
  - by apply Z.leb_le.
Qed.

Definition demoNodes (rc : Z) : gmap string GridKV :=
  <["n1"%string := demoNode rc "n1"]> (<["n2"%string := demoNode rc "n2"]> ∅).
Definition demoEnd : gmap string GridKV :=
  <["n1"%string := A4]> (<["n2"%string := B5]> (<["n2"%string := B4]> (<["n1"%string := A3]> (<["n2"%string := B3]>
    (<["n2"%string := B2]> (<["n2"%string := B1]> (<["n1"%string := A2]> (<["n1"%string := A1]> (demoNodes 2))))))))).
Definition demoDone : list (string * StoredItem) :=
  [("a"%string, setItem 5000 [x63] B1); ("a"%string, setItem 1000 [x61; x62] (demoNode 2 "n1"))].

Ltac two_nodes :=
  let b := fresh "b" in let g := fresh "g" in let Hg := fresh "Hg" in
  intros b [g Hg]; unfold demoNodes in Hg;
  repeat (apply lookup_insert_Some in Hg as [[<- _]|[_ Hg]]; [by (left + right)|]); by rewrite lookup_empty in Hg.
Ltac at_node := unfold demoNodes; rewrite ?lookup_insert_ne by done; apply lookup_insert_eq.

Ltac computes :=
  match goal with
  | |- _ = true -> _ => let Ha := fresh in intros Ha; vm_compute in Ha; discriminate Ha
  | _ => vm_compute; first [reflexivity | discriminate]
  end.

Lemma demo_reaches : steps (demo_step 2) (mkNetwork (demoNodes 2) [] []) (mkNetwork demoEnd [] demoDone).
Proof.
  eapply steps_cons; [apply (demo_set 2 _ _ _ "n1" (demoNode 2 "n1") 1000 [x61; x62]); [at_node|computes..]|].
  fold A1. eapply steps_cons; [apply (demo_flush 2 _ _ "n1" A1 2000 "n2"); [at_node|two_nodes|apply unexpired_check| | |]; computes|].
  fold A2 push1. eapply steps_cons; [apply (demo_receive 2 _ _ _ "n2" (demoNode 2 "n2") 3000 []); [at_node|computes..]|].
  fold B1. eapply steps_cons; [apply (demo_set 2 _ _ _ "n2" B1 5000 [x63]); [at_node|computes..]|].
  fold B2. eapply steps_cons; [apply (demo_pull 2 _ _ "n2" B2 6000 "n1"); [at_node| | |apply unexpired_check| |]; computes|].
  fold B3 pull2. eapply steps_cons; [apply (demo_receive 2 _ _ _ "n1" A2 7000 [(hostOf "n2", answer3)]); [at_node|computes| |computes]|].
  { intros _. split; [apply unexpired_check; computes|]. intros _. apply sendableb_ok. computes. }
  fold A3. eapply steps_cons; [apply (demo_receive 2 _ _ _ "n2" B3 8000 []); [at_node|computes..]|].
  fold B4. eapply steps_cons; [apply (demo_flush 2 _ _ "n2" B4 9000 "n1"); [at_node|two_nodes|apply unexpired_check| | |]; computes|].
  fold B5 push4. eapply steps_cons; [apply (demo_receive 2 _ _ _ "n1" A3 9500 []); [at_node|computes..]|].
  apply steps_refl.
Qed.

Lemma demo_fresh rc : 0 < rc -> fresh demoRing rc (mkNetwork (demoNodes rc) [] []).
Proof.
  intros Hrc. split; [done|]. split; [done|]. cbn [n_nodes]. unfold demoNodes.
  intros n g Hg. repeat (apply lookup_insert_Some in Hg as [[<- <-]|[_ Hg]]; [|]); [..|by rewrite lookup_empty in Hg];
    (split; [apply demoStore_wf|]; split; [unfold placement; cbn; by rewrite (proj2 (Z.leb_gt rc 0)) by lia|];
     split; [done|]; split; [|apply New_unbuffered]);
    intros k; unfold contents, MemStorage.getShard, MemStorage.shardAt;
    (destruct (MemStorage.shards _ !! _) as [sh|] eqn:E; [|done]);
    cbn [demoNode newWriter g_store g_writer w_store demoStore MemStorage.New MemStorage.shards] in E;
    by apply lookup_replicate in E as [-> _].
Qed.

(** After the exchange node n1 has the version and the value of the write of n2. *)
Lemma cluster_converges_witness :
  exists c, contents (g_store A4) "a" = Some c /\
    (forall item, ("a"%string, item) ∈ demoDone -> si_Version item <= ci_Version c) /\
    ci_Version c = 327680000 /\ c_value 0 c = Some [x63].
Proof.
  assert (Hset : settled (mkNetwork demoEnd [] demoDone)).
  { split; [reflexivity|]. cbn [n_nodes]. unfold demoEnd, demoNodes. intros n g Hg.
    repeat (apply lookup_insert_Some in Hg as [[<- <-]|[? Hg]]; [first [congruence | vm_compute; reflexivity]|]).
    by rewrite lookup_empty in Hg. }
  assert (Hinj : forall x y, hostOf x = hostOf y -> x = y) by (intros x y [= E]; exact E).
  pose proof (cluster_converges 0 (fun _ => true) anyOrder demoRing 2 hostOf (mkNetwork (demoNodes 2) [] [])
    (mkNetwork demoEnd [] demoDone) [] "a" "n1" A4 ltac:(vm_compute; discriminate) Hinj (demo_fresh 2 eq_refl)
    (lossless _ _ _ _ _ _ _ _ [] demo_reaches) ltac:(apply lookup_insert_eq)) as [_ Hc].
  specialize (Hc Hset ltac:(apply (bool_decide_unpack _); vm_compute; exact I)
    ltac:(intros (data & op & Hin & _); by apply elem_of_nil in Hin)).
  destruct (contents (g_store A4) "a") as [c|] eqn:E; [|vm_compute in E; discriminate].
  exists c. split; [reflexivity|]. split; [apply Hc|].
  assert (E' : option_map (fun c => (ci_Version c, c_value 0 c)) (contents (g_store A4) "a") =
    Some (327680000, Some [x63])) by (vm_compute; reflexivity).
  rewrite E in E'. injection E' as E1 E2. exact (conj E1 E2).
Defined.

(** The buffer holds operations without their values, which are read when
    they are handed out: the operation that brought the first version to n2
    leaves it with the value of the second. *)
Example old_version_new_value :
  (fun op => (si_Version <$> so_Item op, so_Item op ≫= si_Value)) <$> shareOf 6000 B2 "n1" =
  [(Some 65536000, Some [x63]); (Some 327680000, Some [x63]); (Some 327680000, Some [x63])].
Proof. vm_compute. reflexivity. Qed.
