(* ===== verification/Stale.v ===== *)
(** * Copies outside the replicas

    The writer of a node stores what it is given whether or not the node is a
    replica of the key (storeOrQueue, internal/cluster/writer.go); operations
    that arrive are applied only by replicas (applyOps,
    internal/cluster/gossip.go), and a read prefers the local store (Get,
    internal/cluster/reader.go).  A node that is not a replica therefore keeps
    the copy of its own last write, whatever the rest of the cluster of
    [Converge] does. *)

From Stdlib Require Import Strings.Byte.
From S2P Require Import Prelude Hlc StoredItem Compress SyncBuffer MemStorage MemStorageFacts.
From S2P Require Import MemStorageProps Codec HashRing Member Cluster Gossip Writer Lifecycle TinyLfu.
From S2P Require Import Cache Reader Entropy Replay Wire Net Server Node Remote Replicate StoreFrom Converge.

Section stale.
Context `{XXH3, LZ4, !LZ4Laws, SortSlice} (poolCap : Z).
Context (accepts : nat -> bool) (order : gmap string Z -> list string).
Context (ring : hashRing) (rc : Z) (addr : string -> string).

Abbreviation step := (net_step poolCap accepts order ring rc addr).
Abbreviation ok := (net_ok poolCap ring rc addr (fun _ _ => False)).

(** A step that is not a write on node [b]. *)
Definition elsewhere (b : string) (z z' : network) : Prop :=
  step z z' /\ (n_done z' = n_done z \/ n_nodes z' !! b = n_nodes z !! b).

(** Operations on a key do not change it on a node that is not a replica. *)
Lemma applied_skips b now s ops k :
  store_wf s -> run_clean poolCap (gossipOf ring rc b) now s ops -> b ∉ GetN ring k rc ->
  contents (applied_store poolCap ring rc b now s ops) k = contents s k.
Proof.
  unfold applied_store. intros Hw Hr Hb.
  assert (Hrep : isReplica (gossipOf ring rc b) k = false) by (unfold isReplica; by apply bool_decide_eq_false_2).
  revert s Hw Hr. induction ops as [|op ops IH]; intros s Hw Hr; [done|]. destruct Hr as [Hc Hr].
  pose proof (applyOp_contents poolCap (gossipOf ring rc b) now s op Hw Hc) as Ha. cbn [fmap list_fmap applyOps].
  destruct (applyOp poolCap (gossipOf ring rc b) now s (Some op)) as [s1 err]. cbn [fst] in Hr.
  destruct Ha as (Hw1 & -> & _ & Hk). rewrite IH by done. rewrite Hk.
  destruct (op_stored poolCap s op); [|done]. destruct (decide (so_Key op = k)) as [<-|Hne].
  - by rewrite Hrep.
  - case_match; [|done]. unfold VersionedMap.put. by rewrite decide_False.
Qed.

(** The copy of node [b] stays. *)
Definition copy (z : network) (b k : string) (c : option compressedItem) : Prop :=
  exists g, n_nodes z !! b = Some g /\ contents (g_store g) k = c.

Lemma copy_update nodes wire wire' done done' n g g' b k c :
  nodes !! n = Some g -> (b = n -> contents (g_store g') k = contents (g_store g) k) ->
  copy (mkNetwork nodes wire done) b k c -> copy (mkNetwork (<[n := g']> nodes) wire' done') b k c.
Proof.
  intros Hn Hc (g1 & Hg1 & Hk). cbn [n_nodes] in Hg1. unfold copy. cbn [n_nodes].
  destruct (decide (b = n)) as [->|Hne]; [|exists g1; by rewrite lookup_insert_ne].
  rewrite Hn in Hg1. injection Hg1 as <-. exists g'. rewrite lookup_insert_eq. split; [done|]. by rewrite Hc.
Qed.

Lemma drained_copy n g now P :
  source P -> node_ok poolCap ring rc P n g -> unexpired now (g_store g) ->
  forall k, contents (GetSyncBuffer poolCap (g_store g) now).1 k = contents (g_store g) k.
Proof. intros HP [Hwf _ Hfrom _] Hu. by apply (GetSyncBuffer_from poolCap P HP (g_store g) now). Qed.

Lemma pulled_copy g s a now k :
  contents (GetSyncBuffer poolCap s now).1 k = contents s k -> contents (Pull poolCap g s a now).1 k = contents s k.
Proof. unfold Pull. by destruct (GetSyncBuffer poolCap s now) as [s' [|]]. Qed.

Lemma entropy_copy n g members now P k :
  source P -> node_ok poolCap ring rc P n g -> quiet now (g_store g) ->
  contents (doAntiEntropy poolCap (gossipOf ring rc n) members (g_store g) now).1 k = contents (g_store g) k.
Proof.
  intros HP [Hwf _ Hfrom _] Hq. pose proof (compared_read_only poolCap now (g_store g) Hwf Hq) as Hro.
  destruct (doAntiEntropy_cases poolCap now (gossipOf ring rc n) members (g_store g)) as [->|[->|[a ->]]];
    [done|apply Hro|]. rewrite <- (ro_contents _ _ Hro). apply pulled_copy.
  apply (GetSyncBuffer_from poolCap P HP).
  - by apply Hro.
  - by eapply quiet_unexpired, read_only_quiet.
  - by eapply read_only_from.
Qed.

(** What is not a write leaves the copies outside the replicas alone. *)
Lemma copy_stays z z' b k c :
  poolCap <= maxPooled -> ok z -> b ∉ GetN ring k rc -> step z z' -> n_done z' = n_done z ->
  copy z b k c -> copy z' b k c.
Proof.
  intros Hcap Hz Hb Hs Hd Hc.
  destruct Hs as [nodes wire done n g now now1 now2 key value ttl g' item Hn HS Hl Hf
    |nodes wire done n g now now1 now2 key g' s item Hn HD Hu Hf
    |nodes wire done n g members now residue nowM w Hn Hsees Hu Hmax Hsend
    |nodes wire done n g members t a now residue nowM r ops Hn Ht Ha Hu Hsend
    |nodes wire done n g members now residue nowM r ops Hn Hq Hsend
    |nodes wire done n g now f path d r Hn Hu
    |nodes l1 data l2 done n g members now residue nowM again r Hn Hclean Hask];
    pose proof (nk_nodes _ _ _ _ _ _ Hz n g Hn) as Hnode; cbn [n_done] in Hd, Hnode.
  - by apply (f_equal length) in Hd; cbn in Hd; lia.
  - by apply (f_equal length) in Hd; cbn in Hd; lia.
  - eapply copy_update; [exact Hn| |exact Hc]. intros _.
    destruct (flush_state poolCap members now w) as (Hst & _ & _).
    rewrite <- (drained_copy n g now _ (written_source done) Hnode Hu k). f_equal. exact Hst.
  - eapply copy_update; [exact Hn| |exact Hc]. intros _. apply pulled_copy.
    by eapply (drained_copy n g now _ (written_source done)).
  - eapply copy_update; [exact Hn| |exact Hc]. intros _. by eapply (entropy_copy n g members now _ k (written_source done)).
  - eapply copy_update; [exact Hn| |exact Hc]. intros _. rewrite <- (drained_copy n g now _ (written_source done) Hnode Hu k).
    unfold r, checkpointTick. by destruct (GetSyncBuffer poolCap (g_store g) now) as [s' [|]].
  - eapply copy_update; [exact Hn| |exact Hc]. intros ->.
    pose proof (nk_wire _ _ _ _ _ _ Hz) as HW. cbn [n_wire n_done] in HW.
    apply Forall_app in HW as [_ HW]. apply Forall_cons in HW as [(batch & Hcar & Hbatch) _]. cbn [snd] in Hcar.
    destruct Hnode as [Hwf _ Hfrom _].
    destruct (delivered poolCap ring rc (written done) n members (g_store g) data batch now residue nowM)
      as (_ & Hcont & _ & _); try done; [apply written_source|].
    change (contents r.1 k = contents (g_store g) k). unfold r. rewrite Hcont. apply applied_skips; [done| |done].
    by rewrite <- (opsOf_carries poolCap data batch).
Qed.

(** C19. A node that is not a replica of a key keeps its copy and reads it:
    from any reachable state, whatever the other nodes write and whatever is
    flushed, pulled, repaired and delivered, what its store holds for the key
    stays, and a Get on it that the read cache does not answer returns that
    value without regard to what the replicas would answer ([remote]), although
    they have converged to a newer one.  As in [Converge] no item expires and
    no limit of memory evicts the copy. *)
Theorem stale_copy z0 z z' b k g :
  poolCap <= maxPooled -> (forall x y, addr x = addr y -> x = y) -> fresh ring rc z0 -> steps step z0 z ->
  b ∉ GetN ring k rc -> n_nodes z !! b = Some g -> steps (elsewhere b) z z' ->
  exists g', n_nodes z' !! b = Some g' /\ contents (g_store g') k = contents (g_store g) k /\
    forall c v t1 t2 t3 t4 pick remote,
      k <> ""%string -> g_shuttingDown g' = false ->
      (forall cache, g_cache g' = Some cache -> (CacheGet t1 cache k).2 = None) ->
      contents (g_store g) k = Some c -> ci_decode poolCap c = inr v -> 0 < slice_len v ->
      expired_at t2 (ci_ExpireAt c) = false -> IsExpired (mkItem 0 (ci_ExpireAt c) v k) t4 = false ->
      (Get poolCap t1 t2 t3 t4 pick remote k g').2 = inr (Some (slice_bytes v)).
Proof.
  intros Hcap Hinj Hfresh Hrun Hb Hg Helse.
  assert (Hok : forall x y, ok x -> step x y -> ok y) by (intros x y Hx; by apply net_step_ok).
  assert (Hz : ok z) by (eapply (steps_invariant step ok); [exact Hok|by apply fresh_ok|exact Hrun]).
  destruct (steps_invariant (elsewhere b) (fun x => ok x /\ copy x b k (contents (g_store g) k)) z z') as [_ (g' & Hg' & Hc)].
  - intros x y [Hx Hcx] [Hs Hd]. split; [by eapply Hok|]. destruct Hd as [Hd|Hd]; [by eapply copy_stays|].
    destruct Hcx as (g1 & Hg1 & Hk). exists g1. by rewrite Hd.
  - split; [done|]. by exists g.
  - done.
  - exists g'. split_and!; [done|done|]. intros c v t1 t2 t3 t4 pick remote Hk Hsh Hcache Hci Hv Hlen He2 He4.
    rewrite (Get_local poolCap _ _ _ _ _ _ k g' c v); [|done|done|done|congruence|done|done].
    cbn zeta. unfold IsTombstone, IsExpired in *. cbn [si_Value si_ExpireAt si_Version] in *.
    rewrite (proj2 (Z.eqb_neq (slice_len v) 0)) by lia. cbn [andb]. by rewrite He4.
Qed.
End stale.

(** * An example *)

#[local] Existing Instance ToyHash.xxh3.
#[local] Existing Instance RunLength.lz4.
#[local] Existing Instance RunLength.laws.
#[local] Existing Instance MergeSort.sort.

(** One replica per key: n1 for the key.  n2 sets it and flushes, n1 receives
    the push and then sets the key itself. *)
Definition N2a : GridKV := setNode 1000 [x61] (demoNode 1 "n2").
Definition pushA : bytes := message (flushed 2000 N2a).
Definition N2b : GridKV := flushNode 2000 N2a.
Definition N1a : GridKV := receiveNode 1 3000 "n1" pushA (demoNode 1 "n1").
Definition N1b : GridKV := setNode 5000 [x62] N1a.

Definition agreedNodes : gmap string GridKV := <["n1"%string := N1a]> (<["n2"%string := N2b]> (<["n2"%string := N2a]> (demoNodes 1))).

Definition readNode (g : GridKV) : gridErr + slice := (Get 0 6000 6000 6000 6000 None None "a" g).2.

Definition firstDone : list (string * StoredItem) := [("a"%string, setItem 1000 [x61] (demoNode 1 "n2"))].

Lemma agreed_reached : steps (demo_step 1) (mkNetwork (demoNodes 1) [] []) (mkNetwork agreedNodes [] firstDone).
Proof.
  eapply steps_cons; [apply (demo_set 1 _ _ _ "n2" (demoNode 1 "n2") 1000 [x61]); [|computes..]|].
  { at_node. }
  fold N2a. eapply steps_cons; [apply (demo_flush 1 _ _ "n2" N2a 2000 "n1"); [apply lookup_insert_eq| |apply unexpired_check| | |]; [|computes..]|].
  { two_nodes. }
  fold N2b pushA. eapply steps_cons; [apply (demo_receive 1 _ _ _ "n1" (demoNode 1 "n1") 3000 []); [|computes..]|].
  { at_node. }
  apply steps_refl.
Qed.

Definition newerWrite : network :=
  mkNetwork (<["n1"%string := N1b]> agreedNodes) [] (("a"%string, setItem 5000 [x62] N1a) :: firstDone).

(** Nothing is under way or queued, the replica has the second value, and a
    read on n2 returns the first whatever the replicas would answer. *)
Lemma stale_copy_witness :
  (exists g, n_nodes newerWrite !! "n2"%string = Some g /\
     forall remote, (Get 0 6000 6000 6000 6000 None remote "a" g).2 = inr (Some [x61])) /\
  readNode N1b = inr (Some [x62]) /\
  w_pendingOps (g_writer N2b) = [] /\ w_pendingOps (g_writer N1b) = [].
Proof.
  split; [|vm_compute; repeat split].
  destruct (stale_copy 0 (fun _ => true) anyOrder demoRing 1 hostOf (mkNetwork (demoNodes 1) [] [])
    (mkNetwork agreedNodes [] firstDone) newerWrite "n2" "a" N2b) as (g & Hg & _ & Hread).
  - vm_compute. discriminate.
  - intros x y [= E]. exact E.
  - by apply demo_fresh.
  - apply agreed_reached.
  - apply (bool_decide_unpack _). vm_compute. exact I.
  - cbn [n_nodes]. unfold agreedNodes. rewrite lookup_insert_ne by done. apply lookup_insert_eq.
  - eapply steps_cons; [split|apply steps_refl].
    + apply (demo_set 1 agreedNodes [] firstDone "n1" N1a 5000 [x62]); [apply lookup_insert_eq|computes..].
    + right. unfold newerWrite. cbn [n_nodes]. by rewrite lookup_insert_ne.
  - exists g. split; [exact Hg|]. intros remote.
    assert (E : g = N2b).
    { unfold newerWrite, agreedNodes in Hg. cbn [n_nodes] in Hg. rewrite !lookup_insert_ne in Hg by done.
      rewrite lookup_insert_eq in Hg. by injection Hg as <-. }
    destruct (contents (g_store N2b) "a") as [c|] eqn:Ec; [|vm_compute in Ec; discriminate].
    assert (Hc : option_map (fun c => (ci_decode 0 c, ci_ExpireAt c)) (contents (g_store N2b) "a") =
      Some (inr (Some [x61]), zeroTime)) by (vm_compute; reflexivity).
    rewrite Ec in Hc. injection Hc as Hd He.
    apply (Hread c (Some [x61]) 6000 6000 6000 6000 None remote).
    + discriminate.
    + rewrite E. vm_compute. reflexivity.
    + rewrite E. intros cache Hcache. vm_compute in Hcache. discriminate.
    + reflexivity.
    + exact Hd.
    + reflexivity.
    + rewrite He. reflexivity.
    + rewrite He. reflexivity.
Defined.
