(* ===== verification/Metrics.v ===== *)
(** * Statistics

    internal/network/stats.go (counters, gauges and the global network
    statistics), the measurements of the connection pool (pool.go and
    pool_debug.go), the statistics of the store (mem_storage.go) and the
    complete statistics that gridkv.go puts together from them.  A float64 is
    an IEEE 754 binary64 number, computed with the Standard Library's
    executable specification of floating-point arithmetic. *)

From Stdlib Require Import SpecFloat.
From S2P Require Import Prelude ConnPool StoredItem MemStorage Member Node.

(** * float64 *)

Definition float64 := spec_float.
Definition f64_of_int (z : Z) : float64 := binary_normalize 53 1024 z 0 false.
Definition f64_add (x y : float64) : float64 := SFadd 53 1024 x y.
Definition f64_sub (x y : float64) : float64 := SFsub 53 1024 x y.
Definition f64_mul (x y : float64) : float64 := SFmul 53 1024 x y.
Definition f64_div (x y : float64) : float64 := SFdiv 53 1024 x y.

(** Conversion to an integer: towards zero.  What has no integer part, an
    infinity or a NaN, does not occur here. *)
Definition f64_trunc (x : float64) : Z :=
  match x with
  | S754_finite s m e =>
      let a := if 0 <=? e then Z.pos m * 2 ^ e else Z.pos m / 2 ^ (- e) in if s then - a else a
  | _ => 0
  end.

(** 0.2, the nearest float64. *)
Definition f64_fifth : float64 := f64_div (f64_of_int 1) (f64_of_int 5).

Example f64_fifth_bits : f64_fifth = S754_finite false 7205759403792794 (-55).
Proof. vm_compute. reflexivity. Qed.

(** * Counters and gauges

    A nil pointer is [None]; the methods accept it. *)

Definition counterAdd (delta : Z) (c : option Z) : option Z := (fun v => addu64 v delta) <$> c.
Definition counterInc : option Z -> option Z := counterAdd 1.
Definition counterLoad (c : option Z) : Z := default 0 c.
Definition counterStore (value : Z) (c : option Z) : option Z := (fun _ => value) <$> c.

Definition gaugeAdd (delta : Z) (g : option Z) : option Z := (fun v => add64 v delta) <$> g.
Definition gaugeInc : option Z -> option Z := gaugeAdd 1.
Definition gaugeDec : option Z -> option Z := gaugeAdd (-1).
Definition gaugeLoad (g : option Z) : Z := default 0 g.
Definition gaugeStore (value : Z) (g : option Z) : option Z := (fun _ => value) <$> g.

(** * The collection of one component *)

Record NStats := mkNStats {
  ns_Requests : Z; ns_Success : Z; ns_Errors : Z; ns_Bytes : Z; ns_Messages : Z;
  ns_Active : Z; ns_Idle : Z; ns_Waiters : Z; ns_QueueSize : Z;
}.
Record StatsSnapshot := mkStatsSnapshot {
  sn_Requests : Z; sn_Success : Z; sn_Errors : Z; sn_Bytes : Z; sn_Messages : Z;
  sn_Active : Z; sn_Idle : Z; sn_Waiters : Z; sn_QueueSize : Z;
}.

Definition zeroStats : NStats := mkNStats 0 0 0 0 0 0 0 0 0.

Definition Snapshot (s : option NStats) : StatsSnapshot :=
  match s with
  | None => mkStatsSnapshot 0 0 0 0 0 0 0 0 0
  | Some s =>
      mkStatsSnapshot (counterLoad (Some (ns_Requests s))) (counterLoad (Some (ns_Success s)))
        (counterLoad (Some (ns_Errors s))) (counterLoad (Some (ns_Bytes s))) (counterLoad (Some (ns_Messages s)))
        (gaugeLoad (Some (ns_Active s))) (gaugeLoad (Some (ns_Idle s))) (gaugeLoad (Some (ns_Waiters s)))
        (gaugeLoad (Some (ns_QueueSize s)))
  end.

Definition StatsReset (s : option NStats) : option NStats := (fun _ => zeroStats) <$> s.

(** * The whole network *)

Record NetworkStats := mkNetworkStats { nw_Server : NStats; nw_Pool : NStats; nw_Client : NStats }.

Definition globalStats : NetworkStats := mkNetworkStats zeroStats zeroStats zeroStats.

Definition ResetStats (n : NetworkStats) : NetworkStats :=
  mkNetworkStats zeroStats zeroStats zeroStats.

Record NetworkSnapshot := mkNetworkSnapshot {
  nt_ServerConnections : Z; nt_ServerMessages : Z; nt_ServerBytes : Z; nt_ServerErrors : Z;
  nt_ServerActiveConns : Z;
  nt_PoolTotal : Z; nt_PoolActive : Z; nt_PoolIdle : Z; nt_PoolWaiters : Z;
  nt_PoolCreated : Z; nt_PoolClosed : Z; nt_PoolErrors : Z;
  nt_ClientRequests : Z; nt_ClientResponses : Z; nt_ClientErrors : Z; nt_ClientBytes : Z;
}.

Definition NetSnapshot (n : option NetworkStats) : NetworkSnapshot :=
  match n with
  | None => mkNetworkSnapshot 0 0 0 0 0 0 0 0 0 0 0 0 0 0 0 0
  | Some n =>
      let server := Snapshot (Some (nw_Server n)) in
      let pool := Snapshot (Some (nw_Pool n)) in
      let client := Snapshot (Some (nw_Client n)) in
      mkNetworkSnapshot (sn_Messages server) (sn_Messages server) (sn_Bytes server) (sn_Errors server)
        (sn_Active server) (add64 (sn_Active pool) (sn_Idle pool)) (sn_Active pool) (sn_Idle pool)
        (sn_Waiters pool) (sn_Success pool) (sn_Errors pool) (sn_Errors pool)
        (sn_Requests client) (sn_Success client) (sn_Errors client) (sn_Bytes client)
  end.

(** * Measurements of the pool *)

(** [time.Duration.Seconds]. *)
Definition Seconds (d : Z) : float64 :=
  f64_add (f64_of_int (Z.quot d Second)) (f64_div (f64_of_int (Z.rem d Second)) (f64_of_int 1000000000)).

Record poolPerf := mkPoolPerf {
  waitTimeEMA : Z; waitTimeCount : Z; waitTimeMax : Z;
  holdTimeEMA : Z; holdTimeCount : Z;
  requestCount : Z; lastResetTime : Z;
}.

Definition alphaEMA : float64 := f64_fifth.
Definition windowDuration : Z := 10 * Second.

(** The exponential moving average; a zero stands for no sample yet. *)
Definition nextEMA (alpha : float64) (old ns : Z) : Z :=
  if old =? 0 then ns
  else uint 64 (f64_trunc (f64_add (f64_mul (f64_of_int ns) alpha)
                             (f64_mul (f64_of_int old) (f64_sub (f64_of_int 1) alpha)))).

Definition recordWait (d : Z) (p : poolPerf) : poolPerf :=
  if d <? 0 then p
  else
    mkPoolPerf (nextEMA alphaEMA (waitTimeEMA p) d) (addu64 (waitTimeCount p) 1)
      (if d <=? waitTimeMax p then waitTimeMax p else d)
      (holdTimeEMA p) (holdTimeCount p) (requestCount p) (lastResetTime p).

Definition recordHold (d : Z) (p : poolPerf) : poolPerf :=
  if d <? 0 then p
  else
    mkPoolPerf (waitTimeEMA p) (waitTimeCount p) (waitTimeMax p)
      (nextEMA alphaEMA (holdTimeEMA p) d) (addu64 (holdTimeCount p) 1) (requestCount p) (lastResetTime p).

Definition countRequest (p : poolPerf) : poolPerf :=
  mkPoolPerf (waitTimeEMA p) (waitTimeCount p) (waitTimeMax p) (holdTimeEMA p) (holdTimeCount p)
    (addu64 (requestCount p) 1) (lastResetTime p).

(** The performance part of PoolStats. *)
Record PerfStats := mkPerfStats {
  pf_AvgWaitTime : Z; pf_MaxWaitTime : Z; pf_AvgHoldTime : Z; pf_RequestRate : float64;
  pf_WaitSamples : Z; pf_HoldSamples : Z;
}.

Definition metrics (now : Z) (p : poolPerf) : PerfStats * poolPerf :=
  let elapsed := sint 64 (now - lastResetTime p) in
  let restart count := mkPoolPerf (waitTimeEMA p) (waitTimeCount p) (waitTimeMax p) (holdTimeEMA p)
                         (holdTimeCount p) count now in
  let '(rate, p') :=
    if lastResetTime p =? 0 then (S754_zero false, restart (requestCount p))
    else if windowDuration <=? elapsed
      then (f64_div (f64_of_int (requestCount p)) (Seconds windowDuration), restart 0)
    else if 0 <? elapsed then (f64_div (f64_of_int (requestCount p)) (Seconds elapsed), p)
    else (S754_zero false, p) in
  (mkPerfStats (sint 64 (waitTimeEMA p)) (sint 64 (waitTimeMax p)) (sint 64 (holdTimeEMA p)) rate
     (waitTimeCount p) (holdTimeCount p), p').

(** [Stats] of the pool: a reader of the counters that also restarts the
    window of the request rate. *)
Definition PoolStatsOf (now : Z) (c : PoolStats) (p : poolPerf) : PoolStats * PerfStats * poolPerf :=
  let '(perf, p') := metrics now p in (c, perf, p').

(** The marks of [updateDebugStats]. *)
Record DebugMarks := mkDebugMarks {
  dm_WaitQueueLength : Z; dm_MaxWaitQueueLen : Z; dm_ActiveConnPeak : Z; dm_IdleConnPeak : Z;
}.

Definition updateDebugStats (enabled : bool) (c : PoolStats) (m : DebugMarks) : DebugMarks :=
  if negb enabled then m
  else
    mkDebugMarks (uint 64 (ps_Waiters c))
      (if sint 64 (dm_MaxWaitQueueLen m) <? ps_Waiters c then uint 64 (ps_Waiters c) else dm_MaxWaitQueueLen m)
      (if dm_ActiveConnPeak m <? ps_Active c then ps_Active c else dm_ActiveConnPeak m)
      (if dm_IdleConnPeak m <? ps_Idle c then ps_Idle c else dm_IdleConnPeak m).

(** * Statistics of the store *)

Record StoreStats := mkStoreStats {
  st_KeyCount : Z; st_TotalBytes : Z; st_CompressedBytes : Z; st_OriginalBytes : Z;
  st_CompressionRatio : float64;
  st_GetCount : Z; st_SetCount : Z; st_HitCount : Z; st_MissCount : Z; st_HitRate : float64; st_EvictCount : Z;
}.

Definition StorageStats (s : MemStorage) : StoreStats :=
  let hits := hitCount (access s) in
  let misses := missCount (access s) in
  let hitRate := if 0 <? add64 hits misses then f64_div (f64_of_int hits) (f64_of_int (add64 hits misses))
                 else S754_zero false in
  let compressed := u_compressed (total s) in
  let original := u_original (total s) in
  let ratio := if 0 <? original then f64_div (f64_of_int compressed) (f64_of_int original)
               else S754_zero false in
  mkStoreStats (u_keys (total s)) (u_bytes (total s)) compressed original ratio
    (getCount (access s)) (setCount (access s)) hits misses hitRate (evictCount (access s)).

(** * Statistics of the database *)

Record FullStats := mkFullStats {
  fs_Cluster : ClusterStats; fs_Network : NetworkSnapshot; fs_Storage : StoreStats; fs_Version : string;
}.

Definition Version : string := "v0.3.8".

(** [net]: the network statistics, when the node has a network. *)
Definition GridStats (net : option NetworkStats) (g : GridKV) : FullStats :=
  mkFullStats (Stats g) (NetSnapshot net) (StorageStats (g_store g)) Version.

(** * What the measurements say *)

Fixpoint recordWaits (ds : list Z) (p : poolPerf) : poolPerf :=
  match ds with [] => p | d :: ds => recordWaits ds (recordWait d p) end.

Definition recorded (ds : list Z) : list Z := filter (fun d => 0 <= d) ds.

Lemma recordWait_max d p : waitTimeMax (recordWait d p) = if d <? 0 then waitTimeMax p else Z.max (waitTimeMax p) d.
Proof.
  unfold recordWait. destruct (Z.ltb_spec d 0); [done|]. cbn [waitTimeMax].
  destruct (Z.leb_spec d (waitTimeMax p)); lia.
Qed.

(** The longest wait is the maximum over the waits that were recorded,
    whatever their order, and the samples are counted. *)
Lemma wait_max ds p :
  waitTimeMax (recordWaits ds p) = foldr Z.max (waitTimeMax p) (recorded ds).
Proof.
  revert p. induction ds as [|d ds IH]; intros p; [done|]. cbn [recordWaits]. rewrite IH, recordWait_max.
  unfold recorded. rewrite filter_cons. destruct (Z.ltb_spec d 0) as [Hd|Hd].
  - by rewrite decide_False by lia.
  - rewrite decide_True by lia. cbn [foldr]. generalize (filter (fun x => 0 <= x) ds) as l. intros l.
    induction l as [|x l IHl]; cbn [foldr]; lia.
Qed.

Lemma wait_samples ds p :
  waitTimeCount p = uint 64 (waitTimeCount p) ->
  waitTimeCount (recordWaits ds p) = uint 64 (waitTimeCount p + Z.of_nat (length (recorded ds))).
Proof.
  revert p. induction ds as [|d ds IH]; intros p Hp; cbn [recordWaits].
  { cbn. by rewrite Z.add_0_r. }
  unfold recorded. rewrite filter_cons. unfold recordWait. destruct (Z.ltb_spec d 0) as [Hd|Hd].
  - rewrite decide_False by lia. by apply IH.
  - rewrite decide_True by lia. rewrite IH; cbn [waitTimeCount].
    + unfold addu64, uint, recorded. rewrite Zplus_mod_idemp_l. f_equal. cbn [length]. lia.
    + unfold addu64. symmetry. apply uint_id, uint_range. lia.
Qed.
