(* ===== verification/Boot.v ===== *)
(** * Starting a node

    What NewGridKV (gridkv.go) puts together: the settings of the store, the
    network and the cluster derived from the options, the network stack of
    NewNetwork (internal/network/interface.go), the components of cluster.New
    (internal/cluster/cluster.go), the checkpoint that the start restores
    (internal/cluster/entropy.go), and the loop that joins the seeds.  The
    result is a [GridKV] of [Node]. *)

From Stdlib Require Import Strings.Byte.
From S2P Require Import Prelude Hlc StoredItem Compress SyncBuffer MemStorage MemStorageFacts.
From S2P Require Import MemStorageProps Codec HashRing Member Cluster Gossip Writer Lifecycle TinyLfu Cache Reader.
From S2P Require Import Entropy Checkpoint Replay Wire Net Server ConnPool Executor Config Node Remote Replicate Transport.

(** * The network *)

Record ClientConfig := mkClientConfig {
  cl_DefaultTimeout : Z; cl_RetryCount : Z; cl_RetryBackoff : Z; cl_EnableCompression : bool; cl_MaxRetries : Z;
}.
Definition DefaultClientConfig : ClientConfig := mkClientConfig (10 * Second) 5 (200 * Millisecond) false 5.

Record BackpressureConfig := mkBackpressureConfig { bc_Threshold : Z; bc_MaxCapacity : Z; bc_Strategy : Strategy }.

(** A network configuration; the server's is left empty, and of the pool's
    CleanupInterval is a field of its own. *)
Record NetConfig := mkNetConfig {
  nc_LocalAddress : string;
  nc_TransportConfig : TransportConfig;
  nc_PoolConfig : PoolConfig;
  nc_CleanupInterval : Z;
  nc_ClientConfig : ClientConfig;
  nc_WorkerPoolSize : Z;
  nc_Backpressure : BackpressureConfig;
}.

Definition DefaultBackpressureConfig : BackpressureConfig := mkBackpressureConfig 5000 20000 StrategyBlock.

Definition DefaultNetworkConfig (localAddress : string) : NetConfig :=
  mkNetConfig localAddress DefaultTransportConfig (mkPoolConfig 0 0 0 0) 0 DefaultClientConfig 0
    DefaultBackpressureConfig.

(** [x] when it is positive. *)
Definition or_keep (x d : Z) : Z := if 0 <? x then x else d.

(** The part of NewGridKV that fills in the network configuration. *)
Definition netConfigOf (o : Options) : NetConfig :=
  let n := default emptyNetwork (Network o) in
  let d := DefaultNetworkConfig (bindAddr o) in
  let t := DefaultTransportConfig in
  mkNetConfig (nc_LocalAddress d)
    (mkTransportConfig (if no_Type n =? QUIC then TransportQUIC else TransportTCP)
       (or_keep (no_Timeout n) (tc_Timeout t)) (or_keep (no_ReadTimeout n) (tc_ReadTimeout t))
       (or_keep (no_WriteTimeout n) (tc_WriteTimeout t)) (tc_KeepAlive t) (tc_KeepAliveInterval t)
       (tc_MaxMessageSize t) (tc_EnableZeroCopy t))
    (poolConfig o) (nc_CleanupInterval d)
    (let c := nc_ClientConfig d in
     mkClientConfig (or_keep (no_Timeout n) (cl_DefaultTimeout c)) (cl_RetryCount c) (cl_RetryBackoff c)
       (cl_EnableCompression c) (cl_MaxRetries c))
    (nc_WorkerPoolSize d) (nc_Backpressure d).

Record networkImpl := mkNetworkImpl {
  ni_cfg : NetConfig;
  ni_transport : transport;
  ni_pool : connPool;
  ni_cleanup : bool;              (** the pool's cleanup loop is running *)
  ni_client : ClientConfig;
  ni_router : list Z;             (** the message types with a handler *)
  ni_backpressure : Backpressure;
}.

(** [None]: an unsupported transport. *)
Definition NewNetwork (cfg : NetConfig) : option networkImpl :=
  match NewTransport (nc_TransportConfig cfg) with
  | None => None
  | Some t =>
      let b := nc_Backpressure cfg in
      Some (mkNetworkImpl cfg t (NewConnPool (nc_PoolConfig cfg)) (0 <? nc_CleanupInterval cfg)
              (nc_ClientConfig cfg) [TypeOneWay]
              (NewBackpressure (bc_Threshold b) (bc_MaxCapacity b) (bc_Strategy b)))
  end.

(** [networkImpl.Close]: everything is closed, in this order, whatever fails;
    the names of what failed. *)
Definition NetworkClose (fails : string -> bool) : list string * list string :=
  let order := ["server"; "pool"; "client"; "transport"]%string in
  (order, filter (fun c => fails c = true) order).

(** [SendMessage] is [Send] of the encoded message. *)
Definition SendMessage `{LZ4} (poolCap : Z) (residue : bytes) (b : Backpressure) (msg : Message) (a0 a1 : attempt)
    : bytes * option (option error * Backpressure) :=
  (encodeMessage poolCap residue msg, NetworkSend b a0 a1).

(** * The store and the cluster *)

Definition storeConfig (o : Options) : MemStorage.Config :=
  let s := default emptyStorage (Storage o) in
  mkConfig (so_MaxMemoryMB s) (so_ShardCount s) true 64 0 0 0 false.

Record ClusterConfig := mkClusterConfig {
  kc_NodeID : string; kc_Address : string;
  kc_PingInterval : Z; kc_FailureTimeout : Z; kc_SuspectTimeout : Z;
  kc_VirtualNodes : Z; kc_ReplicaCount : Z;
  kc_BatchThreshold : Z; kc_BatchWindow : Z;
  kc_GossipInterval : Z;
  kc_CacheTTL : Z; kc_CacheSize : Z;
  kc_EntropyInterval : Z;
  kc_ReadRepairRateLimitPerSec : Z;
}.

Definition clusterConfig (o : Options) : ClusterConfig :=
  mkClusterConfig (LocalNodeID o) (bindAddr o) (Z.quot (FailureTimeout o) 3) (FailureTimeout o) (SuspectTimeout o)
    (VirtualNodes o) (ReplicaCount o) (BatchThreshold o) (BatchWindow o) (GossipInterval o)
    (HotReadCacheTTL o) (HotCacheSize o) (5 * 60 * Second) (ReadRepairRateLimitPerSec o).

(** The cluster: the store is inside the writer, the reader shares it. *)
Record Cluster := mkCluster {
  k_member : memberMgr;
  k_writer : writer;
  k_gossip : gossip;
  k_repair : readRepair;
  k_cache : Cache StoredItem;
  k_reader : reader;
  k_entropyInterval : Z;
  k_replay : replay;
  k_executor : Exec;
  k_lifecycle : LifecycleManager;
}.

Definition cacheShards : Z := 256.

(** The second half of [cluster.New]: the components on a ring, a member
    manager, a cache and an executor; [t2] is the clock of the rate limiter. *)
Definition wireComponents `{XXH3} (t2 : Z) (cfg : ClusterConfig) (hlc : HLC) (store : MemStorage)
    (exec : Exec) (hotCache : Cache StoredItem) (ring : hashRing) (member : memberMgr) : Cluster :=
  let gossip := newGossip (kc_NodeID cfg) ring (kc_ReplicaCount cfg) in
  let repair := newReadRepair true (kc_ReadRepairRateLimitPerSec cfg) t2 in
  let writer := newWriter (kc_NodeID cfg) hlc store ring (Some ∅) (kc_BatchThreshold cfg) (kc_ReplicaCount cfg) in
  let reader := newReader (kc_NodeID cfg) store ring (Some member) (Some hotCache) (Some repair) (kc_CacheTTL cfg) 0 in
  let entropy := newAntiEntropy (kc_EntropyInterval cfg) in
  let replay := newReplay "" in
  mkCluster member writer gossip repair hotCache reader entropy replay exec (clusterLifecycle true).

(** [cluster.New] with a network; [t0] and [t1] are the clock for the record of
    the node itself and the ring. *)
Definition NewCluster `{XXH3, SortSlice} (numCPU t0 t1 t2 : Z) (cfg : ClusterConfig) (hlc : HLC) (store : MemStorage)
    : Cluster :=
  let exec := Executor.New numCPU (mkOpts (workerCount numCPU) (queueSize numCPU) true) in
  let cacheSize := if kc_CacheSize cfg <=? 0 then 10000 else kc_CacheSize cfg in
  let hotCache := NewCache {| Shards := cacheShards; Size := cacheSize |} in
  let ring := newHashRing (kc_VirtualNodes cfg) in
  let member := newMemberMgr (mkMemberConfig (kc_NodeID cfg) (kc_Address cfg) (kc_PingInterval cfg)
                  (kc_FailureTimeout cfg) (kc_SuspectTimeout cfg) true true) t0 in
  let ring := updateRing (mm_members member) t1 ring in
  wireComponents t2 cfg hlc store exec hotCache ring member.

(** * NewGridKV *)

Inductive bootErr := errOptions (e : optionsErr) | errNetworkType | errStart (e : lifecycleErr).

Section boot.
Context `{XXH3, LZ4, SortSlice} (accepts : nat -> bool) (poolCap numCPU gomaxprocs t0 t1 t2 t3 t4 t5 : Z).
(** The disk with the checkpoint. *)
Context (d : disk).

(** The node that NewGridKV makes of a started cluster: Start gives the
    member manager its incarnation and writes the items of the checkpoint. *)
Definition assemble (o : Options) (c : Cluster) : GridKV :=
  let '(w, _) := ReplayStart accepts poolCap true accepts t4 t5 d (k_writer c) (k_replay c) in
  mkGridKV w (MemberStart t3 (k_member c)).1 (Some (k_cache c)) (Some (k_repair c))
    (rd_cacheTTL (k_reader c)) (rd_replicaCount (k_reader c)) (TTL o) (ReplicaCount o) false.

(** What starting and closing a component report, the order in which the
    goroutines of Start run, and whether they are done in time. *)
Context (startErr closeErr : string -> option string) (schedule : list string -> list string) (timedOut : bool).

(** A failed start stops the cluster, the network and the store. *)
Record cleanup := mkCleanup { cu_components : list string; cu_network : bool; cu_store : bool }.

Definition NewGridKV (args : list optionArg) : (bootErr * cleanup) + (networkImpl * GridKV) :=
  match buildOptions args with
  | inl e => inl (errOptions e, mkCleanup [] false false)
  | inr o =>
      let hlc := NewHLC (LocalNodeID o) in
      let store := MemStorage.New (storeConfig o) gomaxprocs in
      match NewNetwork (netConfigOf o) with
      | None => inl (errNetworkType, mkCleanup [] false true)
      | Some net =>
          let c := NewCluster numCPU t0 t1 t2 (clusterConfig o) hlc store in
          match StartWithTimeout (k_lifecycle c) startErr schedule timedOut with
          | (lm, _, Some e) => inl (errStart e, mkCleanup (CloseWithTimeout lm closeErr).1 true true)
          | (_, _, None) => inr (net, assemble o c)
          end
      end
  end.
End boot.

(** The loop that joins the seeds, run in the background: the delays before
    the attempts after the first, in nanoseconds (1.5 times each, exact in
    floating point), given the outcome of each attempt. *)
Fixpoint joinLoop (tries : nat) (delay : Z) (outcomes : list bool) : list Z :=
  match tries, outcomes with
  | S tries, false :: outcomes =>
      match tries with O => [] | S _ => delay :: joinLoop tries (delay * 3 / 2) outcomes end
  | _, _ => []
  end.

Definition JoinSeeds (seeds : list string) (outcomes : list bool) : list Z :=
  match seeds with [] => [] | _ => joinLoop 5 (200 * Millisecond) outcomes end.

Example join_delays :
  JoinSeeds ["s"] [false; false; false; false; false] =
  [200 * Millisecond; 300 * Millisecond; 450 * Millisecond; 675 * Millisecond].
Proof. reflexivity. Qed.

(** * A new node *)

Section fresh.
Context `{XXH3, LZ4, SortSlice, !XXH3Laws, !SortSliceLaws} (accepts : nat -> bool).
Context (poolCap numCPU gomaxprocs t0 t1 t2 t3 t4 t5 : Z) (d : disk).

Lemma newMember_table cfg now :
  mm_members (newMemberMgr cfg now) =
    {[mc_NodeID cfg := mkNode (mc_NodeID cfg) (mc_Address cfg) NodeStateAlive 0 now zeroTime]}.
Proof. done. Qed.

Lemma newMember_alive cfg now : aliveIDs (mm_members (newMemberMgr cfg now)) = [mc_NodeID cfg].
Proof. rewrite newMember_table. unfold aliveIDs. rewrite map_to_list_singleton. done. Qed.

(** On a ring of one node every key has that node as its only replica. *)
Lemma ring_alone vn id key n now :
  0 < UnixNano now -> 0 < n ->
  GetN (Update (newHashRing vn) (UnixNano now) [id]).1 key n = [id].
Proof.
  intros Hnow Hn.
  destruct (GetN_update (newHashRing vn) (UnixNano now) [id] key n) as (_ & Hin & Hlen & _); [done| |done|done|].
  { unfold newHashRing. cbn [hr_virtualNodes]. destruct (Z.leb_spec vn 0); lia. }
  cbn [list_to_set] in Hlen. rewrite union_empty_r_L, size_singleton, Nat.min_r in Hlen by lia.
  destruct (GetN _ key n) as [|x [|y l]]; [done| |done].
  specialize (Hin x ltac:(by left)). rewrite list_elem_of_singleton in Hin. by subst x.
Qed.

Lemma NewCluster_ring cfg hlc store :
  w_ring (k_writer (NewCluster numCPU t0 t1 t2 cfg hlc store)) =
    (Update (newHashRing (kc_VirtualNodes cfg)) (UnixNano t1) [kc_NodeID cfg]).1.
Proof. cbn [NewCluster wireComponents k_writer newWriter w_ring]. unfold updateRing. by rewrite newMember_alive. Qed.

Lemma fresh_contents c key : contents (MemStorage.New c gomaxprocs) key = None.
Proof.
  unfold contents, MemStorage.getShard, MemStorage.shardAt.
  destruct (MemStorage.shards (MemStorage.New c gomaxprocs) !! _) as [sh|] eqn:E; [|done].
  cbn [MemStorage.New MemStorage.shards] in E. by apply lookup_replicate in E as [-> _].
Qed.

Lemma fresh_stats o c :
  k_member c = newMemberMgr (mkMemberConfig (LocalNodeID o) (bindAddr o) (Z.quot (FailureTimeout o) 3)
                 (FailureTimeout o) (SuspectTimeout o) true true) t0 ->
  LocalNodeID o <> ""%string ->
  Stats (assemble accepts poolCap t3 t4 t5 d o c) =
    mkClusterStats true 1 1 (if ReplicaCount o <=? 0 then 3 else ReplicaCount o) (LocalNodeID o) 0.
Proof.
  intros Hm Hid. unfold Stats, assemble, ReplayStart. cbn [g_member g_replicaCount]. rewrite Hm.
  unfold Members. cbn [MemberStart fst setIncarnation mm_members newMemberMgr].
  rewrite map_to_list_singleton. cbn [fmap list_fmap snd ni_NodeID].
  by rewrite !filter_cons_True, !filter_nil by done.
Qed.

(** ** The restored checkpoint *)

(** A writer that has only written: the store is well formed, it holds keys of
    the list only, and what decides about replicas is as before. *)
Record restored (w0 : writer) (keys : gset string) (w : writer) : Prop := {
  re_wf : store_wf (w_store w);
  re_keys k : is_Some (contents (w_store w) k) -> k ∈ keys;
  re_place : placement w = placement w0;
}.

Lemma batchSetItem_restored w0 keys version cw kv :
  kv.1 ∈ keys -> restored w0 keys cw.2 -> restored w0 keys (batchSetItem poolCap version cw kv).2.
Proof.
  destruct cw as [cache w], kv as [key item]. cbn [fst snd]. intros Hk [Hw Hc Hp]. unfold batchSetItem.
  destruct (getTargets w cache key) as [cache' targets]. destruct targets; [done|]. case_match; [|done].
  set (it := mkItem _ _ _ key). pose proof (wf_StoreSet poolCap (w_store w) key (Some it) Hw) as Hw'. split; try done.
  intros k Hin. cbn [snd uncache set_store w_store] in Hin. destruct (decide (k = key)) as [->|Hne]; [done|].
  apply Hc. destruct (decide (key = ""%string)) as [->|Hkey].
  { unfold StoreSet in Hin. by rewrite bool_decide_eq_true_2 in Hin. }
  destruct (StoreSet_contents poolCap (w_store w) key it Hw Hkey) as (s1 & Hs & _ & Hr).
  assert (Hk1 : is_Some (contents s1 k)).
  { destruct (StoreSet poolCap (w_store w) key (Some it)) as [s' [e|]]; cbn [fst snd] in *.
    - destruct Hr as [_ Hr]. by rewrite <- Hr.
    - rewrite Hr in Hin. unfold VersionedMap.put in Hin. by rewrite decide_False in Hin. }
  destruct (Hs k) as [E|E]; [by rewrite <- E|rewrite E in Hk1; by destruct Hk1].
Qed.

Lemma restore_restored path w :
  store_wf (w_store w) -> (forall k, contents (w_store w) k = None) ->
  restored w (dom (replayItems (LoadCheckpoint path d))) (restore accepts poolCap t4 t5 path d w).
Proof.
  intros Hw Hnone. unfold restore. set (items := replayItems (LoadCheckpoint path d)).
  assert (Hstart : restored w (dom items) w).
  { split; [done| |done]. intros k [c Hc]. by rewrite Hnone in Hc. }
  unfold WriterBatchSet, stampVersion. destruct (map_to_list items) as [|kv l] eqn:E; [done|].
  destruct (Now (w_hlc w) t4) as [h str]. set (v := hlcToInt64 str t5).
  assert (Hall : forall cw, restored w (dom items) cw.2 ->
    restored w (dom items) (fold_left (batchSetItem poolCap v) (map_to_list items) cw).2).
  { intros cw Hcw. apply (fold_left_inv (fun cw => restored w (dom items) cw.2)); [done|].
    intros cw' [k it] Hcw' Hin. apply batchSetItem_restored; [|done]. cbn [fst]. apply elem_of_map_to_list in Hin.
    apply elem_of_dom. by eexists. }
  rewrite <- E. specialize (Hall (∅, set_hlc h w)). cbn [snd] in Hall.
  destruct Hall as [Hw' Hk' Hp']; [by destruct Hstart|].
  set (w1 := (fold_left _ _ _).2) in *.
  pose proof (triggerBatch_frame accepts w1) as [= E1 _ E2 E3 _ E4 _ E5].
  assert (Ew : w_store (triggerBatch accepts w1) = w_store w1) by done.
  split; [by rewrite Ew|by rewrite Ew|]. rewrite <- Hp'. unfold placement. congruence.
Qed.
End fresh.

(** The node that starts with options [o]. *)
Lemma NewGridKV_node `{XXH3, LZ4, SortSlice} accepts poolCap numCPU gomaxprocs t0 t1 t2 t3 t4 t5 d
    startErr closeErr schedule timedOut args net g :
  NewGridKV accepts poolCap numCPU gomaxprocs t0 t1 t2 t3 t4 t5 d startErr closeErr schedule timedOut args = inr (net, g) ->
  exists o, buildOptions args = inr o /\
    g = assemble accepts poolCap t3 t4 t5 d o
          (NewCluster numCPU t0 t1 t2 (clusterConfig o) (NewHLC (LocalNodeID o)) (MemStorage.New (storeConfig o) gomaxprocs)).
Proof.
  unfold NewGridKV. destruct (buildOptions args) as [e|o]; [done|].
  destruct (NewNetwork _) as [n|]; [|done]. destruct (StartWithTimeout _ _ _ _) as [[lm calls] [e|]]; [done|].
  intros [= <- <-]. by exists o.
Qed.

Lemma buildOptions_id args o : buildOptions args = inr o -> LocalNodeID o <> ""%string.
Proof.
  unfold buildOptions. destruct (match args with [] => _ | _ => _ end) as [e|o0]; [done|].
  destruct (String.eqb_spec (LocalNodeID (applyDefaults o0)) ""); [done|].
  destruct (String.eqb _ ""); [done|]. by intros [= <-].
Qed.

(** C15. A node that NewGridKV returns is ready for use on its own, before the
    seeds are joined in the background: it is healthy, with itself as the only
    member; every key has it as its only replica, so that nothing waits for
    other nodes; its store is well formed and holds keys of the checkpoint
    only; and a non-empty value of at most 8 MiB that is set and has not
    expired is what is read, provided the version it gets is above that of an
    item restored under its key.  The number of shards is one that can be
    allocated and the clock is after 1970. *)
Theorem new_node_serves `{XXH3, LZ4, SortSlice, !XXH3Laws, !SortSliceLaws, !LZ4Laws}
    accepts poolCap numCPU gomaxprocs t0 t1 t2 t3 t4 t5 d startErr closeErr schedule timedOut args o net g :
  NewGridKV accepts poolCap numCPU gomaxprocs t0 t1 t2 t3 t4 t5 d startErr closeErr schedule timedOut args = inr (net, g) ->
  buildOptions args = inr o -> 0 <= so_ShardCount (default emptyStorage (Storage o)) <= 2 ^ 62 ->
  0 < UnixNano t1 ->
  HealthCheck g = None /\ cs_ClusterSize (Stats g) = 1 /\ cs_LocalNodeID (Stats g) = LocalNodeID o /\
  (forall key, GetN (w_ring (g_writer g)) key (w_replicaCount (g_writer g)) = [LocalNodeID o]) /\
  store_wf (g_store g) /\
  (forall key, is_Some (contents (g_store g) key) ->
     key ∈ dom (replayItems (LoadCheckpoint "./checkpoint.dat" d))) /\
  forall now now1 now2 key value ttl g' s1 s2 s3 s4 pick remote order,
    poolCap <= maxPooled -> 0 < slice_len value <= maxAlloc ->
    (forall old, contents (g_store g) key = Some old -> ci_Version old < setVersion now1 now2 key (g_writer g)) ->
    expired_at s2 (expiry now ttl g) = false -> IsExpired (mkItem 0 (expiry now ttl g) value key) s4 = false ->
    Set_ poolCap accepts order now now1 now2 key value ttl g = (g', None) ->
    (Get poolCap s1 s2 s3 s4 pick remote key g').2 = inr (Some (slice_bytes value)).
Proof.
  intros Hg Ho Hsh Ht1. apply NewGridKV_node in Hg as (o' & Ho' & ->). rewrite Ho in Ho'. injection Ho' as <-.
  set (c := NewCluster _ _ _ _ _ _ _).
  pose proof (fresh_stats accepts poolCap t0 t3 t4 t5 d o c eq_refl (buildOptions_id _ _ Ho)) as Hst.
  assert (Hre : restored (k_writer c) (dom (replayItems (LoadCheckpoint "./checkpoint.dat" d)))
    (restore accepts poolCap t4 t5 "./checkpoint.dat" d (k_writer c))).
  { apply restore_restored; [by apply wf_New|]. intros k. apply fresh_contents. }
  destruct Hre as [Hwf Hkeys Hplace]. set (g := assemble _ _ _ _ _ _ o c) in *.
  change (restore accepts poolCap t4 t5 "./checkpoint.dat" d (k_writer c)) with (g_writer g) in Hwf, Hkeys, Hplace.
  split; [unfold HealthCheck; by rewrite Hst|]. split; [by rewrite Hst|]. split; [by rewrite Hst|].
  split; [|split; [done|]; split; [done|]].
  - intros key. unfold placement in Hplace.
    assert (Hring : w_ring (g_writer g) = w_ring (k_writer c)) by congruence.
    assert (Hcount : w_replicaCount (g_writer g) = w_replicaCount (k_writer c)) by congruence.
    rewrite Hring, Hcount. unfold c. rewrite NewCluster_ring. apply ring_alone; [done|].
    cbn [NewCluster wireComponents k_writer newWriter w_replicaCount].
    destruct (Z.leb_spec (kc_ReplicaCount (clusterConfig o)) 0); lia.
  - intros. by eapply Set_then_Get.
Qed.

#[local] Existing Instance ToyHash.xxh3.
#[local] Existing Instance ToyHash.laws.
#[local] Existing Instance RunLength.lz4.
#[local] Existing Instance RunLength.laws.
#[local] Existing Instance MergeSort.sort.
#[local] Existing Instance MergeSort.laws.

Definition demoArgs : list optionArg :=
  [ArgOption (WithLocalNodeID "n1"); ArgOption (WithLocalAddress "h:1"); ArgOption (WithStorageShardCount 4);
   ArgOption (WithVirtualNodes 4)].

#[local] Abbreviation demoBoot :=
  (NewGridKV (fun _ => true) 0 4 4 1000 1000 1000 1000 1000 1000 blankDisk (fun _ => None) (fun _ => None) (fun l => l) false demoArgs).
#[local] Abbreviation demoFirst :=
  (Set_ 0 (fun _ => true) anyOrder 2000 2000 2000 "a" (Some [x61]) None).

Lemma demoBoot_ok :
  match demoBoot with
  | inr (_, g) => (demoFirst g).2 = None /\ g_ttl g = 0 /\ contents (g_store g) "a" = None
  | inl _ => False
  end.
Proof. vm_compute. repeat split. Qed.

Lemma demoArgs_ok :
  match buildOptions demoArgs with
  | inr o => (0 <=? so_ShardCount (default emptyStorage (Storage o))) &&
             (so_ShardCount (default emptyStorage (Storage o)) <=? 2 ^ 62) = true
  | inl _ => False
  end.
Proof. vm_compute. reflexivity. Qed.

Lemma new_node_serves_witness :
  exists net g g', demoBoot = inr (net, g) /\ demoFirst g = (g', None) /\
    (Get 0 3000 3000 3000 3000 None None "a" g').2 = inr (Some [x61]) /\ HealthCheck g = None.
Proof.
  pose proof demoBoot_ok as Hb. pose proof demoArgs_ok as Ha.
  destruct demoBoot as [e|[net g]] eqn:E; [destruct Hb|]. destruct Hb as (Hset & Httl & Hnone).
  destruct (buildOptions demoArgs) as [e|o] eqn:Eo; [destruct Ha|].
  apply andb_prop in Ha as [Ha1 Ha2]. apply Z.leb_le in Ha1, Ha2.
  destruct (new_node_serves _ _ _ _ _ _ _ _ _ _ _ _ _ _ _ _ _ _ _ E Eo (conj Ha1 Ha2) ltac:(vm_compute; reflexivity))
    as (Hh & _ & _ & _ & _ & _ & Hall).
  destruct (demoFirst g) as [g' err] eqn:ES. cbn [snd] in Hset. rewrite Hset in ES.
  exists net, g, g'. split; [reflexivity|]. split; [exact ES|]. split; [|exact Hh].
  apply (Hall 2000 2000 2000 "a"%string (Some [x61]) None g' _ _ _ _ _ _ anyOrder).
  - vm_compute. discriminate.
  - vm_compute. split; [reflexivity|discriminate].
  - intros old Hold. rewrite Hnone in Hold. discriminate.
  - unfold expiry. rewrite Httl. vm_compute. reflexivity.
  - unfold expiry. rewrite Httl. vm_compute. reflexivity.
  - exact ES.
Defined.

(** When a component fails to start, nothing of what has been started is
    closed but the network and the store: the lifecycle manager closes
    nothing before a successful start. *)
Lemma failed_start_leaks `{XXH3, LZ4, SortSlice} accepts poolCap numCPU gomaxprocs t0 t1 t2 t3 t4 t5 d
    startErr closeErr schedule timedOut args e cu :
  NewGridKV accepts poolCap numCPU gomaxprocs t0 t1 t2 t3 t4 t5 d startErr closeErr schedule timedOut args = inl (errStart e, cu) ->
  cu = mkCleanup [] true true.
Proof.
  unfold NewGridKV. destruct (buildOptions args) as [e0|o]; [done|].
  destruct (NewNetwork _) as [n|]; [|done]. cbn [NewCluster wireComponents k_lifecycle].
  assert (Hl : lm_started (clusterLifecycle true) = false) by done.
  unfold StartWithTimeout. rewrite Hl. rewrite cluster_order.
  destruct timedOut; [by intros [= <- <-]|].
  destruct (head _) as [e1|]; [|done]. by intros [= <- <-].
Qed.
