(* ===== verification/Capi.v ===== *)
(** * The C interface

    cgo/cgo.go: the functions exported to C, with the table of instances they
    share and the memory they hand to the caller.  The C heap is a finite map
    from addresses to blocks; a null pointer is 0.  A result of [None] is
    undefined behaviour of C (a bad or repeated [free]) or a panic that ends
    the process. *)

From Stdlib Require Import Strings.Byte.
From stdpp Require Import pretty.
From S2P Require Import Prelude Hlc StoredItem Compress SyncBuffer MemStorage MemStorageFacts.
From S2P Require Import MemStorageProps HashRing Member Cluster Writer TinyLfu Cache Reader Node Metrics.

(** * Memory *)

Abbreviation ptr := Z (only parsing).
Definition NULL : ptr := 0.

(** The fields of gkv_stats_t that are not pointers. *)
Record cstats := mkCStats {
  cc_ready : Z; cc_cluster_size : Z; cc_healthy_nodes : Z; cc_replica_factor : Z;
  cc_pubkeys_ready : Z; cc_pubkey_count : Z; cc_peer_count : Z;
  cc_network : option NetworkSnapshot; cc_storage : option StoreStats;
}.

Definition zeroCStats : cstats := mkCStats 0 0 0 0 0 0 0 None None.

Inductive cblock :=
  | CString (s : string)
  | CBytes (b : bytes)
  | CResult (instance_id : Z) (error_msg : ptr)
  | CGetResult (data : ptr) (data_len : Z) (error_msg : ptr)
  | CStats (st : cstats) (local_node_id version error_msg : ptr).

(** [malloc] is given the addresses in use.  The one of cgo never returns
    null: it ends the process instead. *)
Class Malloc := malloc : gset Z -> ptr.
Class MallocLaws `{Malloc} := {
  malloc_fresh X : malloc X ∉ X;
  malloc_nonnull X : malloc X <> NULL;
}.

Abbreviation cheap := (gmap Z cblock) (only parsing).

Definition alloc `{Malloc} (b : cblock) (h : cheap) : ptr * cheap :=
  let p := malloc (dom h) in (p, <[p := b]> h).

Definition free (p : ptr) (h : cheap) : option cheap :=
  match h !! p with Some _ => Some (delete p h) | None => None end.

Definition freeIf (p : ptr) (h : cheap) : option cheap := if p =? NULL then Some h else free p h.

(** The globals of the package. *)
Record capi := mkCapi {
  c_heap : cheap;
  c_instances : gmap Z GridKV;
  c_instanceID : Z;
  c_versionStr : ptr;
}.

Definition initial : capi := mkCapi ∅ ∅ 0 NULL.

Definition set_heap (h : cheap) (s : capi) : capi :=
  mkCapi h (c_instances s) (c_instanceID s) (c_versionStr s).
Definition set_instance (id : Z) (g : GridKV) (s : capi) : capi :=
  mkCapi (c_heap s) (<[id := g]> (c_instances s)) (c_instanceID s) (c_versionStr s).

Definition getInstance (id : Z) (s : capi) : option GridKV := c_instances s !! id.

(** * Texts of errors *)

Section texts.
(** What the lz4 library says of a block it cannot decompress. *)
Context (lz4Text : string).

Definition storageText (e : storageErr) : string :=
  match e with
  | ErrNotFound => "item not found"
  | ErrExpired => "item expired"
  | ErrVersionMismatch => "version mismatch"
  | ErrMemoryLimit => "memory limit exceeded"
  | ErrEmptyKey => "empty key"
  | errNilItem => "nil item"
  | errRetry => "retry operation"
  | errDecompress => "lz4 decompress failed: " +:+ lz4Text
  end.

(** The errors of [Set], [Get] and [Delete] on [key]. *)
Definition gridText (key : string) (c : ClusterStats) (e : gridErr) : string :=
  match e with
  | ErrShuttingDown => "gridkv shutting down"
  | ErrEmptyKeyG => "empty key"
  | errNotReady =>
      "cluster not ready: cannot Set key " +:+ key +:+ " (nodes: " +:+ pretty (cs_ClusterSize c) +:+
      ", healthy: " +:+ pretty (cs_HealthyNodes c) +:+ ")"
  | errWrite errNoReplicas => "no replica nodes available for key " +:+ key
  | errWrite (errStoreFailed e) => "failed to store key " +:+ key +:+ " locally: " +:+ storageText e
  | errRead e => storageText e
  end.

Definition healthText (c : ClusterStats) : string :=
  if negb (cs_Ready c) then
    "cluster not ready: nodes=" +:+ pretty (cs_ClusterSize c) +:+ ", healthy=" +:+ pretty (cs_HealthyNodes c)
  else "no healthy nodes available".

Definition waitText (c : ClusterStats) : string :=
  if negb (cs_Ready c) then
    "timeout waiting for cluster ready: nodes=" +:+ pretty (cs_ClusterSize c) +:+
    ", healthy=" +:+ pretty (cs_HealthyNodes c)
  else "timeout waiting for cluster stability".
End texts.

Definition errInstance : string := "instance not found".
Definition errKey : string := "key cannot be empty".
Definition errConfig : string := "config JSON is required".

(** * The exported functions *)

(** A new C string. *)
Definition cstring `{Malloc} (text : string) (s : capi) : ptr * capi :=
  let '(p, h) := alloc (CString text) (c_heap s) in (p, set_heap h s).

(** An error, or a null pointer. *)
Definition report `{Malloc} (err : option string) (s : capi) : ptr * capi :=
  match err with Some text => cstring text s | None => (NULL, s) end.

Definition GoString (key : option string) : string := default ""%string key.

(** [C.GoBytes(value, C.int(len))] on a pointer to the bytes [mem]: a length
    that does not fit a C int comes out negative, or short. *)
Definition GoBytes (mem : bytes) (len : Z) : option bytes :=
  let n := sint 32 len in
  if (n <? 0) || (blen mem <? n) then None else Some (take (Z.to_nat n) mem).

(** ttlSec seconds, or no expiration. *)
Definition ttlOf (ttlSec : Z) : Z := if 0 <? ttlSec then ttlSec * Second else 0.

Section exported.
Context `{XXH3, LZ4, Malloc} (poolCap : Z) (lz4Text : string).
Context (accepts : nat -> bool) (order : gmap string Z -> list string).

(** [open]: [ParseConfig] and then [NewGridKV]. *)
Definition gkv_new (open : string -> string + GridKV) (configJSON : option string) (s : capi) : ptr * capi :=
  let build (id : Z) (err : option string) (s : capi) : ptr * capi :=
    let '(p, h) := alloc (CResult 0 NULL) (c_heap s) in
    let '(e, s') := report err (set_heap h s) in
    (p, set_heap (<[p := CResult id e]> (c_heap s')) s') in
  match configJSON with
  | None => build 0 (Some errConfig) s
  | Some configStr =>
      if bool_decide (configStr = ""%string) then build 0 (Some errConfig) s
      else
        match open configStr with
        | inl text => build 0 (Some text) s
        | inr kv =>
            let id := uint 64 (c_instanceID s + 1) in
            build id None (mkCapi (c_heap s) (<[id := kv]> (c_instances s)) id (c_versionStr s))
        end
  end.

(** [value] is [None] for a null pointer. *)
Definition gkv_set (now now1 now2 : Z) (id : Z) (key : option string) (value : option bytes)
    (valueLen ttlSec : Z) (s : capi) : option (ptr * capi) :=
  match getInstance id s with
  | None => Some (cstring errInstance s)
  | Some kv =>
      let keyStr := GoString key in
      if bool_decide (keyStr = ""%string) then Some (cstring errKey s)
      else
        let valueBytes :=
          match value with
          | Some mem => if 0 <? valueLen then Some <$> GoBytes mem valueLen else Some None
          | None => Some None
          end in
        match valueBytes with
        | None => None
        | Some v =>
            let '(kv', err) := Set_ poolCap accepts order now now1 now2 keyStr v (Some (ttlOf ttlSec)) kv in
            Some (report (gridText lz4Text keyStr (Stats kv) <$> err) (set_instance id kv' s))
        end
  end.

Definition gkv_get (now1 now2 now3 now4 : Z) (pick : option nat) (remote : option (string -> reply))
    (id : Z) (key : option string) (s : capi) : ptr * capi :=
  let '(p, h) := alloc (CGetResult NULL 0 NULL) (c_heap s) in
  let s := set_heap h s in
  let fail text s :=
    let '(e, s') := cstring text s in (p, set_heap (<[p := CGetResult NULL 0 e]> (c_heap s')) s') in
  match getInstance id s with
  | None => fail errInstance s
  | Some kv =>
      let keyStr := GoString key in
      if bool_decide (keyStr = ""%string) then fail errKey s
      else
        let '(kv', res) := Get poolCap now1 now2 now3 now4 pick remote keyStr kv in
        let s := set_instance id kv' s in
        match res with
        | inl err => fail (gridText lz4Text keyStr (Stats kv) err) s
        | inr value =>
            if slice_len value =? 0 then (p, s)
            else
              let '(d, h) := alloc (CBytes (slice_bytes value)) (c_heap s) in
              (p, set_heap (<[p := CGetResult d (slice_len value) NULL]> h) s)
        end
  end.

Definition gkv_delete (now now1 now2 : Z) (id : Z) (key : option string) (s : capi) : ptr * capi :=
  match getInstance id s with
  | None => cstring errInstance s
  | Some kv =>
      let keyStr := GoString key in
      if bool_decide (keyStr = ""%string) then cstring errKey s
      else
        let '(kv', err) := Delete poolCap accepts now now1 now2 keyStr kv in
        report (gridText lz4Text keyStr (Stats kv) <$> err) (set_instance id kv' s)
  end.

(** How long [Close] may take. *)
Definition closeTimeout (timeoutSec : Z) : Z := if 0 <? timeoutSec then timeoutSec * Second else 30 * Second.

(** [close]: what [Close] returns on an instance within a time. *)
Definition gkv_close (close : Z -> GridKV -> option string) (id timeoutSec : Z) (s : capi) : ptr * capi :=
  match c_instances s !! id with
  | None => cstring errInstance s
  | Some kv =>
      let s := mkCapi (c_heap s) (delete id (c_instances s)) (c_instanceID s) (c_versionStr s) in
      report (close (closeTimeout timeoutSec) kv) s
  end.

Definition gkv_version (s : capi) : ptr * capi :=
  if c_versionStr s =? NULL then
    let '(p, h) := alloc (CString Version) (c_heap s) in
    (p, mkCapi h (c_instances s) (c_instanceID s) p)
  else (c_versionStr s, s).

Definition gkv_health_check (id : Z) (s : capi) : ptr * capi :=
  match getInstance id s with
  | None => cstring errInstance s
  | Some kv => report ((fun _ => healthText (Stats kv)) <$> HealthCheck kv) s
  end.

Definition waitTimeout (timeoutSec : Z) : Z :=
  let t := sint 64 (timeoutSec * Second) in if t <=? 0 then 30 * Second else t.

(** [polls]: the clock and the statistics whenever [WaitReady] looks. *)
Definition gkv_wait_ready (start : Z) (polls : list (Z * ClusterStats)) (id timeoutSec : Z) (s : capi) : ptr * capi :=
  match getInstance id s with
  | None => cstring errInstance s
  | Some kv =>
      report (if WaitReady start (waitTimeout timeoutSec) polls then None else Some (waitText (Stats kv))) s
  end.

Definition boolToInt (b : bool) : Z := if b then 1 else 0.

(** The copy into the C structure; a C int has 32 bits. *)
Definition cstatsOf (f : FullStats) : cstats :=
  let c := fs_Cluster f in
  mkCStats (boolToInt (cs_Ready c)) (sint 32 (cs_ClusterSize c)) (sint 32 (cs_HealthyNodes c))
    (sint 32 (cs_ReplicaFactor c)) (boolToInt true) 0 (sint 32 (cs_PeerCount c))
    (Some (fs_Network f)) (Some (fs_Storage f)).

Definition gkv_stats (net : option NetworkStats) (id : Z) (s : capi) : ptr * capi :=
  let '(p, h) := alloc (CStats zeroCStats NULL NULL NULL) (c_heap s) in
  let s := set_heap h s in
  match getInstance id s with
  | None =>
      let '(e, s) := cstring errInstance s in
      (p, set_heap (<[p := CStats zeroCStats NULL NULL e]> (c_heap s)) s)
  | Some kv =>
      let f := GridStats net kv in
      let '(n, s) := cstring (cs_LocalNodeID (fs_Cluster f)) s in
      let '(v, s) := gkv_version s in
      (p, set_heap (<[p := CStats (cstatsOf f) n v NULL]> (c_heap s)) s)
  end.

(** * Freeing *)

Definition gkv_free_result (p : ptr) (s : capi) : option capi :=
  if p =? NULL then Some s
  else
    match c_heap s !! p with
    | Some (CResult _ e) => h ← freeIf e (c_heap s); h' ← free p h; Some (set_heap h' s)
    | _ => None
    end.

Definition gkv_free_get_result (p : ptr) (s : capi) : option capi :=
  if p =? NULL then Some s
  else
    match c_heap s !! p with
    | Some (CGetResult d _ e) =>
        h ← freeIf d (c_heap s); h' ← freeIf e h; h'' ← free p h'; Some (set_heap h'' s)
    | _ => None
    end.

Definition gkv_free_string (p : ptr) (s : capi) : option capi :=
  h ← freeIf p (c_heap s); Some (set_heap h s).

Definition gkv_free_stats (p : ptr) (s : capi) : option capi :=
  if p =? NULL then Some s
  else
    match c_heap s !! p with
    | Some (CStats _ n _ e) =>
        h ← freeIf n (c_heap s); h' ← freeIf e h; h'' ← free p h'; Some (set_heap h'' s)
    | _ => None
    end.

(** [None]: a pointer to something else. *)
Definition gkv_result_has_error (p : ptr) (s : capi) : option Z :=
  if p =? NULL then Some 1
  else match c_heap s !! p with Some (CResult _ e) => Some (if e =? NULL then 0 else 1) | _ => None end.

Definition gkv_get_result_has_error (p : ptr) (s : capi) : option Z :=
  if p =? NULL then Some 1
  else match c_heap s !! p with Some (CGetResult _ _ e) => Some (if e =? NULL then 0 else 1) | _ => None end.
End exported.
