(* ===== verification/CapiProps.v ===== *)
(** * Properties of the C interface

    Ownership of C memory, the life of a handle, and what is set is what is
    read, for the functions of [Capi]. *)

From Stdlib Require Import Strings.Byte.
From S2P Require Import Prelude Hlc StoredItem Compress SyncBuffer MemStorage MemStorageFacts.
From S2P Require Import MemStorageProps HashRing Member Cluster Writer TinyLfu Cache Reader Node Metrics Capi.

(** * Ownership

    What the caller gets with a result is a part of the heap of its own;
    statistics also point to the version string [vs], which they share. *)

Inductive kind := KString | KResult | KGet | KStats.

Definition owns_string (p : ptr) (h : cheap) : Prop :=
  (p = NULL /\ h = ∅) \/ (p <> NULL /\ exists s, h = {[p := CString s]}).
Definition owns_bytes (p : ptr) (n : Z) (h : cheap) : Prop :=
  (p = NULL /\ n = 0 /\ h = ∅) \/ (p <> NULL /\ exists b, h = {[p := CBytes b]} /\ blen b = n /\ 0 < n).

Definition owns (vs : ptr) (k : kind) (p : ptr) (h : cheap) : Prop :=
  match k with
  | KString => owns_string p h
  | KResult => p <> NULL /\ exists id e he, owns_string e he /\ he !! p = None /\ h = <[p := CResult id e]> he
  | KGet => p <> NULL /\ exists d n e hd he, owns_bytes d n hd /\ owns_string e he /\ hd ##ₘ he /\
              (hd ∪ he) !! p = None /\ h = <[p := CGetResult d n e]> (hd ∪ he)
  | KStats => p <> NULL /\ exists st m v e hn he, (v = NULL \/ v = vs) /\ owns_string m hn /\ owns_string e he /\ hn ##ₘ he /\
                (hn ∪ he) !! p = None /\ h = <[p := CStats st m v e]> (hn ∪ he)
  end.

(** The function that frees a result of each kind. *)
Definition gkv_free (k : kind) (p : ptr) (s : capi) : option capi :=
  match k with
  | KString => gkv_free_string p s
  | KResult => gkv_free_result p s
  | KGet => gkv_free_get_result p s
  | KStats => gkv_free_stats p s
  end.

(** The version string is made once. *)
Lemma owns_version vs vs' k p h : vs = NULL \/ vs' = vs -> owns vs k p h -> owns vs' k p h.
Proof.
  intros Hv. destruct k; try done. intros (Hp & st & m & v & e & hn & he & Hvv & Hrest). split; [done|].
  exists st, m, v, e, hn, he. split; [|done]. destruct Hvv as [->| ->]; [by left|]. destruct Hv as [->| ->]; auto.
Qed.

Lemma free_singleton p b (r : cheap) : r !! p = None -> free p ({[p := b]} ∪ r) = Some r.
Proof.
  intros Hp. unfold free. rewrite <- insert_union_singleton_l, lookup_insert_eq.
  by rewrite delete_insert_id.
Qed.

(** Freeing what a string owns, out of a larger heap. *)
Lemma freeIf_string p h r : owns_string p h -> h ##ₘ r -> freeIf p (h ∪ r) = Some r.
Proof.
  unfold freeIf. intros [[-> ->]|(Hp & s & ->)] Hd.
  - rewrite Z.eqb_refl. by rewrite (left_id_L ∅ (∪)).
  - rewrite (proj2 (Z.eqb_neq _ _)) by done. apply free_singleton. by apply map_disjoint_singleton_l in Hd.
Qed.

Lemma freeIf_bytes p n h r : owns_bytes p n h -> h ##ₘ r -> freeIf p (h ∪ r) = Some r.
Proof.
  unfold freeIf. intros [(-> & _ & ->)|(Hp & s & -> & _)] Hd.
  - rewrite Z.eqb_refl. by rewrite (left_id_L ∅ (∪)).
  - rewrite (proj2 (Z.eqb_neq _ _)) by done. apply free_singleton. by apply map_disjoint_singleton_l in Hd.
Qed.

(** A part of the heap under a root block: first the part, then the block. *)
Lemma root_split p b (h r : cheap) :
  h !! p = None -> <[p := b]> h ##ₘ r ->
  h ##ₘ {[p := b]} ∪ r /\ <[p := b]> h ∪ r = h ∪ ({[p := b]} ∪ r) /\ r !! p = None /\
  (<[p := b]> h ∪ r) !! p = Some b.
Proof.
  intros Hp Hd. apply map_disjoint_insert_l in Hd as [Hr Hd].
  split_and!; [|..|done|by rewrite lookup_union_l', lookup_insert_eq by (rewrite lookup_insert_eq; eauto)].
  - apply map_disjoint_union_r. split; [by apply map_disjoint_singleton_r|done].
  - rewrite insert_union_singleton_l, (map_union_comm {[p := b]} h), <- (assoc_L (∪)); [done|].
    by apply map_disjoint_singleton_l.
Qed.

(** Freeing a result returns exactly what it owns. *)
Lemma free_owned vs k p h r s :
  owns vs k p h -> h ##ₘ r -> c_heap s = h ∪ r -> gkv_free k p s = Some (set_heap r s).
Proof.
  intros Ho Hd Hs. destruct k; cbn [owns gkv_free] in *.
  - unfold gkv_free_string. rewrite Hs, (freeIf_string p h r) by done. done.
  - destruct Ho as (Hp & id & e & he & He & Hn & ->).
    destruct (root_split p _ he r Hn Hd) as (Hd' & E & Hr & El).
    unfold gkv_free_result. rewrite (proj2 (Z.eqb_neq _ _)), Hs, El by done.
    rewrite E, (freeIf_string e he) by done. cbn [mbind option_bind]. by rewrite free_singleton.
  - destruct Ho as (Hp & d & n & e & hd & he & Hb & He & Hde & Hn & ->).
    destruct (root_split p _ _ r Hn Hd) as (Hd' & E & Hr & El).
    unfold gkv_free_get_result. rewrite (proj2 (Z.eqb_neq _ _)), Hs, El by done.
    apply map_disjoint_union_l in Hd' as [Hd1 Hd2].
    rewrite E, <- (assoc_L (∪)), (freeIf_bytes d n hd) by (done || by apply map_disjoint_union_r).
    cbn [mbind option_bind]. rewrite (freeIf_string e he) by done. cbn [mbind option_bind]. by rewrite free_singleton.
  - destruct Ho as (Hp & st & m & v & e & hn & he & _ & Hm & He & Hde & Hn & ->).
    destruct (root_split p _ _ r Hn Hd) as (Hd' & E & Hr & El).
    unfold gkv_free_stats. rewrite (proj2 (Z.eqb_neq _ _)), Hs, El by done.
    apply map_disjoint_union_l in Hd' as [Hd1 Hd2].
    rewrite E, <- (assoc_L (∪)), (freeIf_string m hn) by (done || by apply map_disjoint_union_r).
    cbn [mbind option_bind]. rewrite (freeIf_string e he) by done. cbn [mbind option_bind]. by rewrite free_singleton.
Qed.

(** * Every call hands over what it allocates *)

Section give.
Context `{XXH3, LZ4, MallocLaws} (poolCap : Z) (lz4Text : string).
Context (accepts : nat -> bool) (order : gmap string Z -> list string).

(** A part of the heap that a call adds for the version string, once. *)
Definition version_part (s s' : capi) (hv : cheap) : Prop :=
  (c_versionStr s' = c_versionStr s /\ hv = ∅) \/
  (c_versionStr s = NULL /\ c_versionStr s' <> NULL /\ hv = {[c_versionStr s' := CString Version]}).

(** The result [p] of a call that took [s] to [s'] owns the rest of what was
    allocated, and nothing else has changed. *)
Definition gives (k : kind) (s : capi) (r : ptr * capi) : Prop :=
  exists h hv, owns (c_versionStr r.2) k r.1 h /\ version_part s r.2 hv /\ h ##ₘ hv /\ h ##ₘ c_heap s /\ hv ##ₘ c_heap s /\
    c_heap r.2 = h ∪ (hv ∪ c_heap s).

Lemma alloc_spec b (h : cheap) p h' :
  alloc b h = (p, h') -> p <> NULL /\ h !! p = None /\ h' = <[p := b]> h.
Proof.
  unfold alloc. intros [= <- <-]. split; [apply malloc_nonnull|]. split; [|done].
  apply not_elem_of_dom, malloc_fresh.
Qed.

Lemma cstring_spec text s p s' :
  cstring text s = (p, s') ->
  owns_string p {[p := CString text]} /\ {[p := CString text]} ##ₘ c_heap s /\
  s' = set_heap ({[p := CString text]} ∪ c_heap s) s.
Proof.
  unfold cstring. destruct (alloc _ _) as [q h] eqn:E. intros [= <- <-].
  apply alloc_spec in E as (Hq & Hn & ->). split; [right; eauto|].
  split; [by apply map_disjoint_singleton_l|]. by rewrite insert_union_singleton_l.
Qed.

(** A call whose result owns [h] and that leaves the version string alone. *)
Lemma gives_plain k s p s' h :
  owns (c_versionStr s') k p h -> h ##ₘ c_heap s -> c_heap s' = h ∪ c_heap s -> c_versionStr s' = c_versionStr s ->
  gives k s (p, s').
Proof.
  intros Ho Hd Hh Hv. exists h, ∅. cbn [fst snd].
  split_and!; [done|by left|apply map_disjoint_empty_r|done|apply map_disjoint_empty_l|].
  by rewrite (left_id_L ∅ (∪)).
Qed.

Lemma report_gives err s s0 :
  c_heap s = c_heap s0 -> c_versionStr s = c_versionStr s0 -> gives KString s0 (report err s).
Proof.
  intros Hh Hv. unfold report. destruct err as [text|].
  - destruct (cstring text s) as [p s'] eqn:E. apply cstring_spec in E as (Ho & Hd & ->).
    apply (gives_plain KString s0 p _ {[p := CString text]}); cbn [owns set_heap c_heap c_versionStr]; [done|..|done].
    + by rewrite <- Hh.
    + by rewrite Hh.
  - apply (gives_plain KString s0 NULL s ∅); [by left|apply map_disjoint_empty_l| |done].
    by rewrite (left_id_L ∅ (∪)).
Qed.

Lemma cstring_gives text s : gives KString s (cstring text s).
Proof. by apply (report_gives (Some text) s s). Qed.

(** A structure is allocated, then what it points to, then it is filled in. *)
Lemma patched p b0 b (hf h0 : cheap) :
  h0 !! p = None -> hf ##ₘ <[p := b0]> h0 ->
  hf !! p = None /\ <[p := b]> hf ##ₘ h0 /\ hf ##ₘ h0 /\ <[p := b]> (hf ∪ <[p := b0]> h0) = <[p := b]> hf ∪ h0.
Proof.
  intros Hp Hd. apply map_disjoint_insert_r in Hd as [Hf Hd].
  split; [done|]. split; [by apply map_disjoint_insert_l|]. split; [done|].
  by rewrite <- insert_union_r, insert_insert_eq, insert_union_l by done.
Qed.

Lemma gkv_set_gives now now1 now2 id key value valueLen ttlSec s r :
  gkv_set poolCap lz4Text accepts order now now1 now2 id key value valueLen ttlSec s = Some r -> gives KString s r.
Proof.
  unfold gkv_set. destruct (getInstance id s) as [kv|]; [|intros [= <-]; apply cstring_gives].
  case_bool_decide; [intros [= <-]; apply cstring_gives|].
  match goal with |- match ?o with _ => _ end = _ -> _ => destruct o as [v|]; [|done] end.
  destruct (Set_ _ _ _ _ _ _ _ _ _ _) as [kv' err]. intros [= <-]. by apply report_gives.
Qed.

Lemma gkv_delete_gives now now1 now2 id key s :
  gives KString s (gkv_delete poolCap lz4Text accepts now now1 now2 id key s).
Proof.
  unfold gkv_delete. destruct (getInstance id s) as [kv|]; [|apply cstring_gives].
  case_bool_decide; [apply cstring_gives|].
  destruct (Delete _ _ _ _ _ _ _) as [kv' err]. by apply report_gives.
Qed.

Lemma gkv_close_gives close id timeoutSec s : gives KString s (gkv_close close id timeoutSec s).
Proof. unfold gkv_close. destruct (c_instances s !! id); [by apply report_gives|apply cstring_gives]. Qed.

Lemma gkv_health_check_gives id s : gives KString s (gkv_health_check id s).
Proof. unfold gkv_health_check. destruct (getInstance id s); [by apply report_gives|apply cstring_gives]. Qed.

Lemma gkv_wait_ready_gives start polls id timeoutSec s :
  gives KString s (gkv_wait_ready start polls id timeoutSec s).
Proof. unfold gkv_wait_ready. destruct (getInstance id s); [by apply report_gives|apply cstring_gives]. Qed.

Lemma gkv_new_gives open configJSON s : gives KResult s (gkv_new open configJSON s).
Proof.
  assert (Hbuild : forall id err s1, c_heap s1 = c_heap s -> c_versionStr s1 = c_versionStr s ->
    gives KResult s (let '(p, h) := alloc (CResult 0 NULL) (c_heap s1) in
                     let '(e, s') := report err (set_heap h s1) in
                     (p, set_heap (<[p := CResult id e]> (c_heap s')) s'))).
  { intros id err s1 Hh Hv. destruct (alloc _ _) as [p h] eqn:Ea. rewrite Hh in Ea.
    apply alloc_spec in Ea as (Hp & Hn & ->).
    assert (Hr : exists e s2 he, report err (set_heap (<[p := CResult 0 NULL]> (c_heap s)) s1) = (e, s2) /\
      owns_string e he /\ he ##ₘ <[p := CResult 0 NULL]> (c_heap s) /\
      c_heap s2 = he ∪ <[p := CResult 0 NULL]> (c_heap s) /\ c_versionStr s2 = c_versionStr s).
    { unfold report. destruct err as [text|].
      - destruct (cstring text _) as [e s2] eqn:Ec. apply cstring_spec in Ec as (Ho & Hd & ->).
        eexists _, _, _. split; [done|]. split; [done|]. cbn [set_heap c_heap c_versionStr] in *. done.
      - eexists _, _, ∅. split; [done|]. split; [by left|]. split; [apply map_disjoint_empty_l|].
        by rewrite (left_id_L ∅ (∪)). }
    destruct Hr as (e & s2 & he & -> & Ho & Hd & Hs2 & Hv2).
    destruct (patched p (CResult 0 NULL) (CResult id e) he (c_heap s) Hn Hd) as (E1 & E2 & _ & E3).
    apply (gives_plain KResult s p _ (<[p := CResult id e]> he)); [|done| |done].
    - cbn [owns]. split; [done|]. by exists id, e, he.
    - cbn [set_heap c_heap]. by rewrite Hs2, E3. }
  unfold gkv_new. destruct configJSON as [c|]; [|by apply Hbuild].
  case_bool_decide; [by apply Hbuild|]. destruct (open c) as [text|kv]; by apply Hbuild.
Qed.

(** A structure for [gkv_get] that is filled in with what it points to. *)
Lemma get_filled p d n e hd he b0 s s' :
  p <> NULL -> c_heap s !! p = None -> owns_bytes d n hd -> owns_string e he -> hd ##ₘ he ->
  hd ∪ he ##ₘ <[p := b0]> (c_heap s) ->
  c_heap s' = <[p := CGetResult d n e]> ((hd ∪ he) ∪ <[p := b0]> (c_heap s)) ->
  c_versionStr s' = c_versionStr s -> gives KGet s (p, s').
Proof.
  intros Hp Hn Hb He Hde Hd Hs Hv.
  destruct (patched p b0 (CGetResult d n e) _ (c_heap s) Hn Hd) as (E1 & E2 & _ & E3).
  apply (gives_plain KGet s p s' (<[p := CGetResult d n e]> (hd ∪ he))); [|done|by rewrite Hs, E3|done].
  cbn [owns]. split; [done|]. by exists d, n, e, hd, he.
Qed.

Lemma owns_bytes_null : owns_bytes NULL 0 ∅.
Proof. by left. Qed.
Lemma owns_string_null : owns_string NULL ∅.
Proof. by left. Qed.

Lemma gkv_get_gives now1 now2 now3 now4 pick remote id key s :
  gives KGet s (gkv_get poolCap lz4Text now1 now2 now3 now4 pick remote id key s).
Proof.
  unfold gkv_get. destruct (alloc _ _) as [p h] eqn:Ea. apply alloc_spec in Ea as (Hp & Hn & ->).
  set (s1 := set_heap _ s).
  assert (Hfail : forall text s2, c_heap s2 = c_heap s1 -> c_versionStr s2 = c_versionStr s ->
    gives KGet s (let '(e, s') := cstring text s2 in
                  (p, set_heap (<[p := CGetResult NULL 0 e]> (c_heap s')) s'))).
  { intros text s2 Hh Hv. destruct (cstring text s2) as [e s'] eqn:Ec.
    apply cstring_spec in Ec as (Ho & Hd & ->). rewrite Hh in Hd.
    apply (get_filled p NULL 0 e ∅ {[e := CString text]} (CGetResult NULL 0 NULL));
      cbn [set_heap c_heap c_versionStr]; rewrite ?(left_id_L ∅ (∪)); try done.
    - apply owns_bytes_null.
    - apply map_disjoint_empty_l.
    - by rewrite Hh. }
  destruct (getInstance id s1) as [kv|]; [|by apply Hfail].
  case_bool_decide; [by apply Hfail|].
  destruct (Get _ _ _ _ _ _ _ _ _) as [kv' [err|value]]; [by apply Hfail|].
  destruct (Z.eqb_spec (slice_len value) 0) as [E0|E0].
  - apply (get_filled p NULL 0 NULL ∅ ∅ (CGetResult NULL 0 NULL)); cbn [set_instance c_heap c_versionStr];
      rewrite ?(left_id_L ∅ (∪)); try done; try (by left); try apply map_disjoint_empty_l.
    cbn. by rewrite insert_insert_eq.
  - destruct (alloc (CBytes _) _) as [d hb] eqn:Eb. apply alloc_spec in Eb as (Hd & Hnd & ->).
    apply (get_filled p d (slice_len value) NULL {[d := CBytes (slice_bytes value)]} ∅ (CGetResult NULL 0 NULL));
      cbn [set_heap set_instance c_heap c_versionStr s1] in *; rewrite ?(right_id_L ∅ (∪)); try done.
    + right. split; [done|]. eexists. split; [done|]. split; [done|]. unfold slice_len in *. lia.
    + by left.
    + apply map_disjoint_empty_r.
    + by apply map_disjoint_singleton_l.
    + by rewrite <- insert_union_singleton_l.
Qed.

Lemma gkv_version_spec s v s' :
  gkv_version s = (v, s') ->
  v = c_versionStr s' /\
  exists hv, version_part s s' hv /\ hv ##ₘ c_heap s /\ c_heap s' = hv ∪ c_heap s.
Proof.
  unfold gkv_version. destruct (Z.eqb_spec (c_versionStr s) NULL) as [E|E].
  - destruct (alloc _ _) as [p h] eqn:Ea. apply alloc_spec in Ea as (Hp & Hn & ->). intros [= <- <-].
    split; [done|]. exists {[p := CString Version]}. split; [by right|]. split; [by apply map_disjoint_singleton_l|].
    apply insert_union_singleton_l.
  - intros [= <- <-]. split; [done|]. exists ∅. split; [by left|]. split; [apply map_disjoint_empty_l|].
    by rewrite (left_id_L ∅ (∪)).
Qed.

Lemma gkv_stats_gives net id s : gives KStats s (gkv_stats net id s).
Proof.
  unfold gkv_stats. destruct (alloc _ _) as [p h] eqn:Ea. apply alloc_spec in Ea as (Hp & Hn & ->).
  set (b0 := CStats zeroCStats NULL NULL NULL). set (s1 := set_heap _ s).
  destruct (getInstance id s1) as [kv|].
  - set (f := GridStats net kv). destruct (cstring _ s1) as [n s2] eqn:Ec.
    apply cstring_spec in Ec as (Ho & Hd & ->). set (hn := {[n := CString _]}) in *.
    destruct (gkv_version _) as [v s3] eqn:Ev. apply gkv_version_spec in Ev as (Ev & hv & Hv & Hdv & Hs3).
    cbn [set_heap c_heap s1] in *. apply map_disjoint_union_r in Hdv as [Hdn Hdv].
    destruct (patched p b0 (CStats (cstatsOf f) n v NULL) (hv ∪ hn) (c_heap s) Hn) as (E1 & E2 & E2' & E3).
    { by apply map_disjoint_union_l. }
    apply lookup_union_None in E1 as [Ep1 Ep2]. apply map_disjoint_union_l in E2' as [Ed1 Ed2].
    exists (<[p := CStats (cstatsOf f) n v NULL]> hn), hv. cbn [fst snd owns set_heap c_heap].
    split_and!.
    + done.
    + exists (cstatsOf f), n, v, NULL, hn, ∅. rewrite (right_id_L ∅ (∪)). split_and!; try done; [by right|by left|].
      apply map_disjoint_empty_r.
    + exact Hv.
    + apply map_disjoint_insert_l. split; [done|]. by symmetry.
    + by apply map_disjoint_insert_l.
    + done.
    + rewrite Hs3, (assoc_L (∪)), E3, (map_union_comm hv hn) by done.
      by rewrite insert_union_l, <- (assoc_L (∪)).
  - destruct (cstring _ s1) as [e s2] eqn:Ec. apply cstring_spec in Ec as (Ho & Hd & ->).
    destruct (patched p b0 (CStats zeroCStats NULL NULL e) {[e := CString errInstance]} (c_heap s) Hn Hd)
      as (E1 & E2 & _ & E3).
    apply (gives_plain KStats s p _ (<[p := CStats zeroCStats NULL NULL e]> {[e := CString errInstance]}));
      [|done|by cbn; rewrite E3|done].
    cbn [owns]. split; [done|]. exists zeroCStats, NULL, NULL, e, ∅, {[e := CString errInstance]}.
    rewrite (left_id_L ∅ (∪)). split_and!; try done; [by left|by left|apply map_disjoint_empty_l].
Qed.
End give.

(** * A client *)

(** Disjoint parts that make up a heap. *)
Fixpoint parts (hs : list cheap) (H : cheap) : Prop :=
  match hs with
  | [] => H = ∅
  | h :: hs => exists H', h ##ₘ H' /\ H = h ∪ H' /\ parts hs H'
  end.

Lemma parts_take i hs h H :
  hs !! i = Some h -> parts hs H -> exists H', h ##ₘ H' /\ H = h ∪ H' /\ parts (delete i hs) H'.
Proof.
  revert i H. induction hs as [|h0 hs IH]; intros i H; [done|]. destruct i as [|i]; cbn [lookup list_lookup].
  { intros [= ->]. done. }
  intros Hi (H0 & Hd & -> & Hp). destruct (IH i H0 Hi Hp) as (H1 & Hd1 & -> & Hp1).
  apply map_disjoint_union_r in Hd as [Hd0 Hd2]. exists (h0 ∪ H1).
  split; [by apply map_disjoint_union_r|]. split.
  - by rewrite !(assoc_L (∪)), (map_union_comm h0 h).
  - by exists H1.
Qed.

Lemma parts_sub i hs h H : hs !! i = Some h -> parts hs H -> h ⊆ H.
Proof.
  intros Hi Hp. destruct (parts_take i hs h H Hi Hp) as (H' & _ & -> & _). apply map_union_subseteq_l.
Qed.

Lemma parts_disjoint i j hs h h' H :
  (i < j)%nat -> hs !! i = Some h -> hs !! j = Some h' -> parts hs H -> h ##ₘ h'.
Proof.
  intros Hij Hi Hj Hp. destruct (parts_take i hs h H Hi Hp) as (H' & Hd & _ & Hp').
  eapply map_disjoint_weaken_r; [exact Hd|]. apply (parts_sub (j - 1) (delete i hs)); [|done].
  rewrite list_lookup_delete_ge by lia. by replace (S (j - 1)) with j by lia.
Qed.

Lemma owns_root vs k p h : owns vs k p h -> p <> NULL -> is_Some (h !! p).
Proof.
  destruct k; cbn [owns].
  - intros [[-> _]|(_ & s & ->)]; [done|]. rewrite lookup_singleton_eq. eauto.
  - intros (_ & id & e & he & _ & _ & ->) _. rewrite lookup_insert_eq. eauto.
  - intros (_ & d & n & e & hd & he & _ & _ & _ & _ & ->) _. rewrite lookup_insert_eq. eauto.
  - intros (_ & st & m & v & e & hn & he & _ & _ & _ & _ & _ & ->) _. rewrite lookup_insert_eq. eauto.
Qed.

(** What a client may read of a result: the structure is there, and each
    pointer of it is NULL or points to a live block of its type. *)
Definition string_at (p : ptr) (h : cheap) : Prop := p = NULL \/ exists t, h !! p = Some (CString t).

Definition readable (k : kind) (p : ptr) (h : cheap) : Prop :=
  match k with
  | KString => string_at p h
  | KResult => exists id e, h !! p = Some (CResult id e) /\ string_at e h
  | KGet => exists d n e, h !! p = Some (CGetResult d n e) /\ string_at e h /\
              (d = NULL /\ n = 0 \/ exists b, h !! d = Some (CBytes b) /\ blen b = n)
  | KStats => exists st m v e, h !! p = Some (CStats st m v e) /\ string_at m h /\ string_at v h /\ string_at e h
  end.

Lemma owns_string_at p h H : owns_string p h -> h ⊆ H -> string_at p H.
Proof.
  intros [[-> _]|(_ & s & ->)] Hs; [by left|]. right. exists s.
  eapply lookup_weaken; [|exact Hs]. apply lookup_singleton_eq.
Qed.

Lemma owned_readable vs k p h H : owns vs k p h -> string_at vs H -> h ⊆ H -> readable k p H.
Proof.
  intros Ho Hvs Hs.
  assert (Hin : forall b h', h = <[p := b]> h' -> H !! p = Some b).
  { intros b h' ->. eapply lookup_weaken; [|exact Hs]. apply lookup_insert_eq. }
  assert (Hsub : forall b h', h' !! p = None -> h = <[p := b]> h' -> h' ⊆ H).
  { intros b h' Hn ->. etransitivity; [|exact Hs]. by apply insert_subseteq. }
  destruct k; cbn [owns readable] in *.
  - by eapply owns_string_at.
  - destruct Ho as (_ & id & e & he & He & Hn & E). exists id, e. split; [by eapply Hin|].
    eapply owns_string_at; [exact He|by eapply Hsub].
  - destruct Ho as (_ & d & n & e & hd & he & Hb & He & Hde & Hn & E). exists d, n, e.
    pose proof (Hsub _ _ Hn E) as Hu. assert (Hhd : hd ⊆ H) by (etransitivity; [apply map_union_subseteq_l|exact Hu]).
    assert (he ⊆ H) by (etransitivity; [by apply map_union_subseteq_r|exact Hu]).
    split; [by eapply Hin|]. split; [by eapply owns_string_at|].
    destruct Hb as [(-> & -> & _)|(_ & b & -> & Hbl & _)]; [by left|]. right. exists b. split; [|done].
    eapply lookup_weaken; [|exact Hhd]. apply lookup_singleton_eq.
  - destruct Ho as (_ & st & m & v & e & hn & he & Hv & Hm & He & Hde & Hn & E). exists st, m, v, e.
    pose proof (Hsub _ _ Hn E) as Hu. assert (hn ⊆ H) by (etransitivity; [apply map_union_subseteq_l|exact Hu]).
    assert (he ⊆ H) by (etransitivity; [by apply map_union_subseteq_r|exact Hu]).
    split; [by eapply Hin|]. split; [by eapply owns_string_at|]. split; [|by eapply owns_string_at].
    destruct Hv as [->| ->]; [by left|done].
Qed.

Inductive ccall :=
  | CallNew (open : string -> string + GridKV) (configJSON : option string)
  | CallSet (now now1 now2 id : Z) (key : option string) (value : option bytes) (valueLen ttlSec : Z)
  | CallGet (now1 now2 now3 now4 : Z) (pick : option nat) (remote : option (string -> reply)) (id : Z)
      (key : option string)
  | CallDelete (now now1 now2 id : Z) (key : option string)
  | CallClose (close : Z -> GridKV -> option string) (id timeoutSec : Z)
  | CallVersion
  | CallHealth (id : Z)
  | CallWait (start : Z) (polls : list (Z * ClusterStats)) (id timeoutSec : Z)
  | CallStats (net : option NetworkStats) (id : Z).

Section client.
Context `{XXH3, LZ4, Malloc} (poolCap : Z) (lz4Text : string).
Context (accepts : nat -> bool) (order : gmap string Z -> list string).

(** The kind of the result is [None] when it stays with the library. *)
Definition call (c : ccall) (s : capi) : option (option kind * ptr * capi) :=
  let give k (r : ptr * capi) := Some (k, r.1, r.2) in
  match c with
  | CallNew open cfg => give (Some KResult) (gkv_new open cfg s)
  | CallSet now now1 now2 id key value len ttl =>
      r ← gkv_set poolCap lz4Text accepts order now now1 now2 id key value len ttl s; give (Some KString) r
  | CallGet now1 now2 now3 now4 pick remote id key =>
      give (Some KGet) (gkv_get poolCap lz4Text now1 now2 now3 now4 pick remote id key s)
  | CallDelete now now1 now2 id key =>
      give (Some KString) (gkv_delete poolCap lz4Text accepts now now1 now2 id key s)
  | CallClose close id t => give (Some KString) (gkv_close close id t s)
  | CallVersion => give None (gkv_version s)
  | CallHealth id => give (Some KString) (gkv_health_check id s)
  | CallWait start polls id t => give (Some KString) (gkv_wait_ready start polls id t s)
  | CallStats net id => give (Some KStats) (gkv_stats net id s)
  end.

(** A client that frees a result at most once, with the function for its
    kind: it keeps the results it has not freed. *)
Inductive cact := Call (c : ccall) | Free (i : nat).

Definition client_step (a : cact) (st : list (kind * ptr) * capi) : option (list (kind * ptr) * capi) :=
  let '(l, s) := st in
  match a with
  | Call c => '(k, p, s') ← call c s; Some (l ++ ((fun k => (k, p)) <$> option_list k), s')
  | Free i => '(k, p) ← l !! i; s' ← gkv_free k p s; Some (delete i l, s')
  end.

Fixpoint client_run (acts : list cact) (st : list (kind * ptr) * capi) : option (list (kind * ptr) * capi) :=
  match acts with
  | [] => Some st
  | a :: acts => st' ← client_step a st; client_run acts st'
  end.
End client.

(** The heap consists of what the results own and of the version string. *)
Definition held (l : list (kind * ptr)) (s : capi) : Prop :=
  exists hs hv, Forall2 (fun r h => owns (c_versionStr s) r.1 r.2 h) l hs /\
    (c_versionStr s = NULL /\ hv = ∅ \/ c_versionStr s <> NULL /\ hv = {[c_versionStr s := CString Version]}) /\
    parts (hv :: hs) (c_heap s).

Lemma held_give k l s r : held l s -> gives k s r -> held (l ++ [(k, r.1)]) r.2.
Proof.
  intros (hs & hv & Hl & Hv & H' & Hd & Hs & Hp) (h & hw & Ho & Hw & D1 & D2 & D3 & Hr).
  rewrite Hs in D2, D3, Hr. apply map_disjoint_union_r in D2 as [D2a D2b]. apply map_disjoint_union_r in D3 as [D3a D3b].
  exists (hs ++ [h]), (hw ∪ hv). split.
  { apply Forall2_app; [|by apply Forall2_cons]. eapply Forall2_impl; [exact Hl|]. intros x y.
    apply owns_version. destruct Hw as [[-> _]|(-> & _)]; auto. }
  split.
  { destruct Hw as [[-> ->]|(E1 & E2 & ->)]; [by rewrite (left_id_L ∅ (∪))|].
    destruct Hv as [[_ ->]|[? _]]; [|done]. right. by rewrite (right_id_L ∅ (∪)). }
  exists (h ∪ H'). split_and!.
  - apply map_disjoint_union_l. split; apply map_disjoint_union_r; done.
  - rewrite Hr, !(assoc_L (∪)), (map_union_comm h hw) by done.
    rewrite <- (assoc_L (∪) hw h hv), (map_union_comm h hv), (assoc_L (∪)) by done. done.
  - clear -Hp D2b. revert H' Hp D2b. induction hs as [|h0 hs IH]; intros H'; cbn [parts app].
    + intros -> D. exists ∅. split; [apply map_disjoint_empty_r|]. done.
    + intros (H1 & D1 & -> & Hp) [D2 D3]%map_disjoint_union_r. exists (h ∪ H1).
      split; [by apply map_disjoint_union_r|]. split; [|by apply IH].
      by rewrite !(assoc_L (∪)), (map_union_comm h h0).
Qed.

Lemma held_free i k p l s :
  held l s -> l !! i = Some (k, p) ->
  exists r, gkv_free k p s = Some (set_heap r s) /\ held (delete i l) (set_heap r s).
Proof.
  intros (hs & hv & Hl & Hv & Hp) Hi.
  destruct (Forall2_lookup_l _ _ _ _ _ Hl Hi) as (h & Hh & Ho). cbn [fst snd] in Ho.
  destruct (parts_take (S i) (hv :: hs) h (c_heap s) Hh Hp) as (r & Hd & Hs & Hr).
  exists r. split; [by apply (free_owned (c_versionStr s) k p h)|].
  exists (delete i hs), hv. split; [|done]. by apply Forall2_delete.
Qed.

Lemma held_version l s : held l s -> string_at (c_versionStr s) (c_heap s).
Proof.
  intros (hs & hv & _ & Hv & Hp). destruct Hv as [[-> _]|[_ ->]]; [by left|]. right. exists Version.
  eapply lookup_weaken; [|apply (parts_sub 0 ({[c_versionStr s := CString Version]} :: hs)); done]. apply lookup_singleton_eq.
Qed.

Lemma held_readable i k p l s : held l s -> l !! i = Some (k, p) -> readable k p (c_heap s).
Proof.
  intros Hh Hi. pose proof (held_version l s Hh) as Hvs. destruct Hh as (hs & hv & Hl & Hv & Hp).
  destruct (Forall2_lookup_l _ _ _ _ _ Hl Hi) as (h & Hh & Ho). cbn [fst snd] in Ho.
  eapply owned_readable; [exact Ho|exact Hvs|]. by apply (parts_sub (S i) (hv :: hs)).
Qed.

Lemma held_distinct l s i j k k' p :
  held l s -> (i < j)%nat -> l !! i = Some (k, p) -> l !! j = Some (k', p) -> p = NULL.
Proof.
  intros (hs & hv & Hl & _ & Hp) Hij Hi Hj. destruct (decide (p = NULL)) as [|Hn]; [done|].
  destruct (Forall2_lookup_l _ _ _ _ _ Hl Hi) as (h & Hh & Ho).
  destruct (Forall2_lookup_l _ _ _ _ _ Hl Hj) as (h' & Hh' & Ho').
  assert (Hd : h ##ₘ h') by (eapply (parts_disjoint (S i) (S j) (hv :: hs)); [lia|done..]).
  destruct (owns_root _ _ _ _ Ho Hn) as [b Hb]. destruct (owns_root _ _ _ _ Ho' Hn) as [b' Hb'].
  by destruct (map_disjoint_spec h h') as [Hx _]; destruct (Hx Hd p b b').
Qed.

Section discipline.
Context `{XXH3, LZ4, MallocLaws} (poolCap : Z) (lz4Text : string).
Context (accepts : nat -> bool) (order : gmap string Z -> list string).

Lemma held_call c l s k p s' :
  held l s -> call poolCap lz4Text accepts order c s = Some (k, p, s') ->
  held (l ++ ((fun k => (k, p)) <$> option_list k)) s'.
Proof.
  intros Hh. destruct c; cbn [call]; try (intros [= <- <- <-]; cbn [option_list fmap list_fmap];
    eapply held_give; [exact Hh|];
    first [apply gkv_new_gives|apply gkv_get_gives|apply gkv_delete_gives|apply gkv_close_gives
          |apply gkv_health_check_gives|apply gkv_wait_ready_gives|apply gkv_stats_gives]).
  - destruct (gkv_set _ _ _ _ _ _ _ _ _ _ _ _ _) as [r|] eqn:E; [|done]. intros [= <- <- <-].
    cbn [option_list fmap list_fmap]. eapply held_give; [exact Hh|by eapply gkv_set_gives].
  - intros [= <- <- <-]. cbn [option_list fmap list_fmap]. rewrite app_nil_r.
    destruct (gkv_version s) as [v s'] eqn:E. apply gkv_version_spec in E as (_ & hw & Hw & Hd & Hs). cbn [snd].
    destruct Hh as (hs & hv & Hl & Hv & H' & Hd' & Hs' & Hp).
    exists hs, (hw ∪ hv). split.
    { eapply Forall2_impl; [exact Hl|]. intros x y. apply owns_version. destruct Hw as [[-> _]|(-> & _)]; auto. }
    rewrite Hs' in Hd, Hs. apply map_disjoint_union_r in Hd as [Hd1 Hd2]. split.
    + destruct Hw as [[-> ->]|(E1 & E2 & ->)]; [by rewrite (left_id_L ∅ (∪))|].
      destruct Hv as [[_ ->]|[? _]]; [|done]. right. by rewrite (right_id_L ∅ (∪)).
    + exists H'. split; [by apply map_disjoint_union_l|]. split; [|done]. by rewrite Hs, (assoc_L (∪)).
Qed.

Lemma held_run acts l s l' s' :
  held l s -> client_run poolCap lz4Text accepts order acts (l, s) = Some (l', s') -> held l' s'.
Proof.
  revert l s. induction acts as [|a acts IH]; intros l s Hh; cbn [client_run]; [by intros [= <- <-]|].
  destruct a as [c|i]; cbn [client_step].
  - destruct (call _ _ _ _ c s) as [[[k p] s1]|] eqn:E; [|done]. cbn [mbind option_bind]. apply IH.
    by eapply held_call.
  - destruct (l !! i) as [[k p]|] eqn:E; [|done]. cbn [mbind option_bind].
    destruct (held_free i k p l s Hh E) as (r & -> & Hr). by apply IH.
Qed.

Lemma held_initial : held [] initial.
Proof.
  exists [], ∅. split; [done|]. split; [by left|]. exists ∅. split; [apply map_disjoint_empty_l|].
  by rewrite (left_id_L ∅ (∪)).
Qed.

(** C9. Memory safety of the C interface: a client that calls in any order
    and frees every result at most once, with the function for its kind, never
    frees a bad pointer, and when it has freed all its results the library
    holds no C memory except the version string.  Every result still held can
    be freed, every pointer in it and the version string is NULL or points to a
    live block of its type, so that reading it reads no freed memory, and no
    other result is the same block. *)
Theorem capi_memory acts l s :
  client_run poolCap lz4Text accepts order acts ([], initial) = Some (l, s) ->
  (forall i k p, l !! i = Some (k, p) -> is_Some (gkv_free k p s) /\ readable k p (c_heap s)) /\
  string_at (c_versionStr s) (c_heap s) /\
  (l = [] -> c_heap s = ∅ \/ c_heap s = {[c_versionStr s := CString Version]}) /\
  (forall i j k k' p, l !! i = Some (k, p) -> l !! j = Some (k', p) -> p <> NULL -> i = j).
Proof.
  intros Hr%held_run; [|apply held_initial]. split; [|split; [by eapply held_version|split]].
  - intros i k p Hi. destruct (held_free i k p l s Hr Hi) as (r & -> & _). split; [by eexists|by eapply held_readable].
  - intros ->. destruct Hr as (hs & hv & Hl & Hv & H' & _ & -> & Hp). apply Forall2_nil_inv_l in Hl as ->.
    cbn [parts] in Hp. subst H'. rewrite (right_id_L ∅ (∪)). destruct Hv as [[_ ->]|[_ ->]]; eauto.
  - intros i j k k' p Hi Hj Hn. destruct (Nat.lt_trichotomy i j) as [Hij|[->|Hij]]; [|done|].
    + by destruct (held_distinct _ _ _ _ _ _ _ Hr Hij Hi Hj).
    + by destruct (held_distinct _ _ _ _ _ _ _ Hr Hij Hj Hi).
Qed.
End discipline.

(** * Handles *)

(** The instance a call works on. *)
Definition handle (c : ccall) : option Z :=
  match c with
  | CallSet _ _ _ id _ _ _ _ | CallGet _ _ _ _ _ _ id _ | CallDelete _ _ _ id _ | CallClose _ id _
  | CallHealth id | CallWait _ _ id _ | CallStats _ id => Some id
  | CallNew _ _ | CallVersion => None
  end.

Definition same_table (s s' : capi) : Prop := c_instances s' = c_instances s /\ c_instanceID s' = c_instanceID s.

Definition drop_instance (id : Z) (s : capi) : capi :=
  mkCapi (c_heap s) (delete id (c_instances s)) (c_instanceID s) (c_versionStr s).
Definition new_instance (kv : GridKV) (s : capi) : capi :=
  let id := uint 64 (c_instanceID s + 1) in
  mkCapi (c_heap s) (<[id := kv]> (c_instances s)) id (c_versionStr s).

(** What a call can do to the table: nothing, a change or removal of its own
    instance, or a new instance under the next number. *)
Inductive table_step (c : ccall) (s s' : capi) : Prop :=
  | tab_same : same_table s s' -> table_step c s s'
  | tab_set id kv : handle c = Some id -> is_Some (getInstance id s) ->
      same_table (set_instance id kv s) s' -> table_step c s s'
  | tab_close id : handle c = Some id -> same_table (drop_instance id s) s' -> table_step c s s'
  | tab_new kv : handle c = None -> same_table (new_instance kv s) s' -> table_step c s s'.

Section handles.
Context `{XXH3, LZ4, Malloc} (poolCap : Z) (lz4Text : string).
Context (accepts : nat -> bool) (order : gmap string Z -> list string).

Lemma cstring_table text s : same_table s (cstring text s).2.
Proof. by unfold cstring; destruct (alloc _ _). Qed.

Lemma report_table err s : same_table s (report err s).2.
Proof. destruct err; [apply cstring_table|done]. Qed.

Lemma version_table s : same_table s (gkv_version s).2.
Proof. unfold gkv_version. case_match; [|done]. by destruct (alloc _ _). Qed.

Lemma gkv_new_table open cfg s : table_step (CallNew open cfg) s (gkv_new open cfg s).2.
Proof.
  assert (Hb : forall id err s1, same_table s1
    (let '(p, h) := alloc (CResult 0 NULL) (c_heap s1) in
     let '(e, s') := report err (set_heap h s1) in (p, set_heap (<[p := CResult id e]> (c_heap s')) s')).2).
  { intros id err s1. destruct (alloc _ _) as [p h].
    pose proof (report_table err (set_heap h s1)) as Hr. destruct (report err _) as [e s']. exact Hr. }
  unfold gkv_new. destruct cfg as [c|]; [|apply tab_same; apply Hb].
  case_bool_decide; [apply tab_same; apply Hb|]. destruct (open c) as [text|kv]; [apply tab_same; apply Hb|].
  apply (tab_new _ _ _ kv); [done|]. apply Hb.
Qed.

Lemma gkv_get_table now1 now2 now3 now4 pick remote id key s :
  table_step (CallGet now1 now2 now3 now4 pick remote id key) s
    (gkv_get poolCap lz4Text now1 now2 now3 now4 pick remote id key s).2.
Proof.
  unfold gkv_get. destruct (alloc _ _) as [p h].
  assert (Hf : forall text s1, same_table s1 (let '(e, s') := cstring text s1 in
    (p, set_heap (<[p := CGetResult NULL 0 e]> (c_heap s')) s')).2).
  { intros text s1. pose proof (cstring_table text s1) as Hc. destruct (cstring text s1). exact Hc. }
  destruct (getInstance id (set_heap h s)) as [kv|] eqn:Eg; [|apply tab_same; apply (Hf errInstance (set_heap h s))].
  case_bool_decide; [apply tab_same; apply (Hf errKey (set_heap h s))|].
  destruct (Get _ _ _ _ _ _ _ _ _) as [kv' [err|value]].
  - apply (tab_set _ _ _ id kv'); [done|by exists kv|apply (Hf (gridText lz4Text (GoString key) (Stats kv) err) (set_instance id kv' (set_heap h s)))].
  - case_match; [by apply (tab_set _ _ _ id kv'); [|exists kv|..]|].
    destruct (alloc (CBytes _) _). by apply (tab_set _ _ _ id kv'); [|exists kv|..].
Qed.

Lemma gkv_stats_table net id s : same_table s (gkv_stats net id s).2.
Proof.
  unfold gkv_stats. destruct (alloc _ _) as [p h]. destruct (getInstance id _) as [kv|].
  - pose proof (cstring_table (cs_LocalNodeID (fs_Cluster (GridStats net kv))) (set_heap h s)) as H2.
    destruct (cstring _ _) as [n s2]. pose proof (version_table s2) as H3. destruct (gkv_version s2) as [v s3].
    destruct H2 as [A1 A2], H3 as [B1 B2]. split; cbn in *; congruence.
  - pose proof (cstring_table errInstance (set_heap h s)) as H2. destruct (cstring _ _) as [e s2]. exact H2.
Qed.

Lemma call_table c s k p s' :
  call poolCap lz4Text accepts order c s = Some (k, p, s') -> table_step c s s'.
Proof.
  destruct c; cbn [call].
  - intros [= <- <- <-]. apply gkv_new_table.
  - unfold gkv_set. destruct (getInstance id s) as [kv|] eqn:Eg; cbn [mbind option_bind].
    2:{ intros [= <- <- <-]. apply tab_same, cstring_table. }
    case_bool_decide; [intros [= <- <- <-]; apply tab_same, cstring_table|].
    match goal with |- match ?o with _ => _ end ≫= _ = _ -> _ => destruct o as [v|]; [|done] end.
    destruct (Set_ _ _ _ _ _ _ _ _ _ _) as [kv' err]. intros [= <- <- <-].
    apply (tab_set _ _ _ id kv'); [done|by exists kv|apply report_table].
  - intros [= <- <- <-]. apply gkv_get_table.
  - intros [= <- <- <-]. unfold gkv_delete. destruct (getInstance id s) as [kv|] eqn:Eg.
    2:{ apply tab_same, cstring_table. }
    case_bool_decide; [apply tab_same, cstring_table|]. destruct (Delete _ _ _ _ _ _ _) as [kv' err].
    apply (tab_set _ _ _ id kv'); [done|by exists kv|apply report_table].
  - intros [= <- <- <-]. unfold gkv_close. destruct (c_instances s !! id) as [kv|].
    2:{ apply tab_same, cstring_table. }
    apply (tab_close _ _ _ id); [done|apply report_table].
  - intros [= <- <- <-]. apply tab_same, version_table.
  - intros [= <- <- <-]. unfold gkv_health_check.
    destruct (getInstance id s); apply tab_same; apply cstring_table || apply report_table.
  - intros [= <- <- <-]. unfold gkv_wait_ready.
    destruct (getInstance id s); apply tab_same; apply cstring_table || apply report_table.
  - intros [= <- <- <-]. apply tab_same, gkv_stats_table.
Qed.
End handles.

Section lifetime.
Context `{XXH3, LZ4, MallocLaws} (poolCap : Z) (lz4Text : string).
Context (accepts : nat -> bool) (order : gmap string Z -> list string).

(** Handles are numbers up to the last one given out, of which there are at
    most [n]. *)
Definition numbered (n : Z) (s : capi) : Prop :=
  0 <= c_instanceID s <= n /\ forall id, is_Some (getInstance id s) -> 0 < id <= c_instanceID s.

Lemma numbered_step c n s s' : n + 1 < 2 ^ 64 -> numbered n s -> table_step c s s' -> numbered (n + 1) s'.
Proof.
  intros Hn [Hid Hall] Hs. unfold numbered, getInstance in *.
  destruct Hs as [[E1 E2]|id kv _ Hex [E1 E2]|id _ [E1 E2]|kv _ [E1 E2]]; rewrite E1, E2; cbn.
  - split; [lia|]. done.
  - split; [lia|]. intros j. destruct (decide (j = id)) as [->|]; [by rewrite lookup_insert_eq; auto|].
    rewrite lookup_insert_ne by done. apply Hall.
  - split; [lia|]. intros j [kv [_ Hj]%lookup_delete_Some]. apply Hall. eauto.
  - rewrite uint_id by (unfold is_uint; lia). split; [lia|]. intros j.
    destruct (decide (j = c_instanceID s + 1)) as [->|]; [lia|].
    rewrite lookup_insert_ne by done. intros Hj%Hall. lia.
Qed.

(** A handle that is not in use is never given out again. *)
Lemma gone_step c n s s' id :
  n + 1 < 2 ^ 64 -> numbered n s -> table_step c s s' -> id <= c_instanceID s -> getInstance id s = None ->
  id <= c_instanceID s' /\ getInstance id s' = None.
Proof.
  intros Hn [Hi _] Hs Hle Hgone. unfold getInstance in *.
  destruct Hs as [[E1 E2]|j kv _ [kv0 Hex] [E1 E2]|j _ [E1 E2]|kv _ [E1 E2]]; rewrite E1, E2; cbn.
  - done.
  - split; [done|]. rewrite lookup_insert_ne; [done|]. intros ->. unfold getInstance in Hex. congruence.
  - split; [done|]. rewrite lookup_delete_None. by right.
  - rewrite uint_id by (unfold is_uint; lia). split; [lia|]. rewrite lookup_insert_ne by lia. done.
Qed.

Lemma free_table i l s l' s' :
  held l s -> client_step poolCap lz4Text accepts order (Free i) (l, s) = Some (l', s') -> same_table s s'.
Proof.
  intros Hh. cbn [client_step]. destruct (l !! i) as [[k p]|] eqn:E; [|done]. cbn [mbind option_bind].
  destruct (held_free i k p l s Hh E) as (r & -> & _). by intros [= <- <-].
Qed.

Lemma client_invariant acts n l s l' s' :
  n + Z.of_nat (length acts) < 2 ^ 64 -> held l s -> numbered n s ->
  client_run poolCap lz4Text accepts order acts (l, s) = Some (l', s') ->
  held l' s' /\ numbered (n + Z.of_nat (length acts)) s' /\
  forall id, id <= c_instanceID s -> getInstance id s = None -> getInstance id s' = None.
Proof.
  revert n l s. induction acts as [|a acts IH]; intros n l s Hn Hh Hnum; cbn [client_run].
  { intros [= <- <-]. rewrite Z.add_0_r. done. }
  destruct (client_step _ _ _ _ a (l, s)) as [[l1 s1]|] eqn:Ea; [|done]. cbn [mbind option_bind length] in *.
  intros Hr.
  assert (Hstep : held l1 s1 /\ exists c, table_step c s s1).
  { split; [by apply (held_run poolCap lz4Text accepts order [a] l s l1 s1 Hh); cbn [client_run]; rewrite Ea|].
    destruct a as [c|i].
    - cbn [client_step] in Ea. destruct (call _ _ _ _ c s) as [[[k p] s2]|] eqn:Ec; [|done]. injection Ea as _ <-.
      exists c. by eapply call_table.
    - exists CallVersion. apply tab_same. by eapply free_table. }
  destruct Hstep as [Hh1 [c Hc]].
  destruct (IH (n + 1) l1 s1 ltac:(lia) Hh1 (numbered_step c n s s1 ltac:(lia) Hnum Hc) Hr) as (I1 & I2 & I3).
  split; [done|]. split; [by replace (n + Z.of_nat (S (length acts))) with (n + 1 + Z.of_nat (length acts)) by lia|].
  intros id Hle Hg. destruct (gone_step c n s s1 id ltac:(lia) Hnum Hc Hle Hg) as [A B]. by apply I3.
Qed.

(** The life of a handle: [gkv_new] gives out a number that no instance
    has, so that it replaces none; a call leaves every instance but its own
    as it is; and once an instance has been closed its handle is dead for
    good: whatever the client does next, every function refuses it.  The
    counter has 64 bits, and the client makes fewer than 2^63 calls before
    and after. *)
Theorem capi_handles acts l s :
  Z.of_nat (length acts) < 2 ^ 63 ->
  client_run poolCap lz4Text accepts order acts ([], initial) = Some (l, s) ->
  getInstance (uint 64 (c_instanceID s + 1)) s = None /\
  (forall c k p s', call poolCap lz4Text accepts order c s = Some (k, p, s') ->
     forall id kv, handle c <> Some id -> getInstance id s = Some kv -> getInstance id s' = Some kv) /\
  (forall close id t acts' l' s',
     Z.of_nat (length acts') < 2 ^ 63 -> is_Some (getInstance id s) ->
     client_run poolCap lz4Text accepts order (Call (CallClose close id t) :: acts') (l, s) = Some (l', s') ->
     getInstance id s' = None).
Proof.
  intros Hlen Hrun.
  destruct (client_invariant acts 0 [] initial l s) as (Hh & Hnum & _); [lia|apply held_initial| |done|].
  { split; [cbn; lia|]. intros id [kv Hkv]. unfold getInstance in Hkv. cbn [initial c_instances] in Hkv. by rewrite lookup_empty in Hkv. }
  assert (Hnew : getInstance (uint 64 (c_instanceID s + 1)) s = None).
  { destruct Hnum as [Hi Hall]. rewrite (uint_id 64 (c_instanceID s + 1)) by (unfold is_uint; lia).
    destruct (getInstance (c_instanceID s + 1) s) eqn:E; [|done]. specialize (Hall _ (ex_intro _ _ E)). lia. }
  split; [done|]. split.
  - intros c k p s' Hc%call_table id kv Hne Hid. unfold getInstance in *.
    destruct Hc as [[-> _]|j kv' Hj _ [-> _]|j Hj [-> _]|kv' _ [-> _]]; cbn.
    + done.
    + rewrite lookup_insert_ne; [done|]. intros ->. done.
    + rewrite lookup_delete_ne; [done|]. intros ->. done.
    + rewrite lookup_insert_ne; [done|]. intros <-. by rewrite Hnew in Hid.
  - intros close id t acts' l' s' Hlen' Hex. cbn [client_run client_step].
    destruct (call _ _ _ _ (CallClose close id t) s) as [[[k p] s1]|] eqn:Ec; [|done]. cbn [mbind option_bind].
    pose proof (held_call _ _ _ _ _ _ _ _ _ _ Hh Ec) as Hh1. pose proof (call_table _ _ _ _ _ _ _ _ _ Ec) as Ht.
    pose proof (numbered_step _ (0 + Z.of_nat (length acts)) _ _ ltac:(lia) Hnum Ht) as Hn1.
    intros Hr. destruct (client_invariant acts' (0 + Z.of_nat (length acts) + 1) _ s1 l' s' ltac:(lia) Hh1 Hn1 Hr) as (_ & _ & Hgone).
    destruct Hex as [kv Hkv]. cbn [call] in Ec. unfold gkv_close in Ec. unfold getInstance in Hkv. rewrite Hkv in Ec.
    injection Ec as _ _ Hs1. pose proof (report_table (close (closeTimeout t) kv) (drop_instance id s)) as [E1 E2].
    unfold drop_instance in E1, E2. rewrite Hs1 in E1, E2. cbn in E1, E2.
    apply Hgone.
    + rewrite E2. apply Hnum. by exists kv.
    + unfold getInstance. rewrite E1. apply lookup_delete_eq.
Qed.
End lifetime.

(** * What is set is what is read *)

Lemma GoBytes_all mem : blen mem < 2 ^ 31 -> GoBytes mem (blen mem) = Some mem.
Proof.
  intros Hb. unfold GoBytes. rewrite sint_id by (unfold is_sint, blen in *; lia).
  destruct (Z.ltb_spec (blen mem) 0); [unfold blen in *; lia|]. rewrite Z.ltb_irrefl. cbn [orb].
  f_equal. apply take_ge. unfold blen. lia.
Qed.

(** A length of 2^32 and more comes through modulo 2^32. *)
Lemma GoBytes_wraps mem n : GoBytes mem (n + 2 ^ 32) = GoBytes mem n.
Proof. unfold GoBytes. by rewrite (sint_congr 32 (n + 2 ^ 32) n) by (lia || by rewrite Zplus_mod, Z_mod_same_full, Z.add_0_r, Zmod_mod). Qed.

Lemma report_null `{MallocLaws} err s s' : report err s = (NULL, s') -> err = None /\ s' = s.
Proof.
  unfold report. destruct err as [text|]; [|by intros [= <-]].
  intros E%cstring_spec. destruct E as ([(_ & Hx)|(Hx & _)] & _); [|done].
  assert (Hl := f_equal (lookup NULL) Hx). by rewrite lookup_singleton_eq, lookup_empty in Hl.
Qed.

(** The result of [gkv_get] that is returned with the state: no error, and a
    pointer to a block of exactly these bytes, with their number. *)
Definition result_holds (r : Z * capi) (d : Z) (b : bytes) : Prop :=
  c_heap r.2 !! r.1 = Some (CGetResult d (blen b) NULL) /\ c_heap r.2 !! d = Some (CBytes b).

(** C29. Through the C interface: when [gkv_set] has returned no error,
    [gkv_get] on the same handle returns a structure without an error that
    points to a block with exactly the bytes that were set, and their number.
    The value has between one byte and 8 MiB, has not expired and is given a
    version above the stored one, and the node has a well-formed store. *)
Theorem capi_set_get `{XXH3, LZ4, !LZ4Laws, MallocLaws} poolCap lz4Text accepts order
    now now1 now2 t1 t2 t3 t4 pick remote id key mem ttlSec s s1 kv :
  getInstance id s = Some kv -> store_wf (g_store kv) -> poolCap <= maxPooled ->
  key <> ""%string -> 0 < blen mem <= maxAlloc ->
  (forall old, contents (g_store kv) key = Some old -> ci_Version old < setVersion now1 now2 key (g_writer kv)) ->
  let expires := expiry now (Some (ttlOf ttlSec)) kv in
  expired_at t2 expires = false -> IsExpired (mkItem 0 expires (Some mem) key) t4 = false ->
  gkv_set poolCap lz4Text accepts order now now1 now2 id (Some key) (Some mem) (blen mem) ttlSec s = Some (NULL, s1) ->
  let r := gkv_get poolCap lz4Text t1 t2 t3 t4 pick remote id (Some key) s1 in
  exists d, result_holds r d mem.
Proof.
  intros Hid Hw Hp Hk Hlen Hold expires He He4. unfold gkv_set. rewrite Hid. cbn [GoString default].
  rewrite bool_decide_eq_false_2 by done. rewrite (proj2 (Z.ltb_lt _ _)) by lia.
  rewrite GoBytes_all by (unfold maxAlloc in *; lia). cbn [fmap option_fmap option_map].
  destruct (Set_ _ _ _ _ _ _ _ _ _ _) as [kv' err] eqn:ES. intros [= Hr]. apply report_null in Hr as [He0 ->].
  apply fmap_None in He0 as ->.
  pose proof (Set_then_Get accepts order poolCap now now1 now2 (Some (ttlOf ttlSec)) key (Some mem) kv kv'
    t1 t2 t3 t4 pick remote Hw Hp Hlen Hold He He4 ES) as Hget.
  unfold gkv_get. destruct (alloc _ _) as [p h] eqn:Ea. apply alloc_spec in Ea as (Hp0 & Hn & ->).
  unfold getInstance. cbn [set_heap set_instance c_instances]. rewrite lookup_insert_eq.
  cbn [GoString default]. rewrite bool_decide_eq_false_2 by done.
  destruct (Get _ _ _ _ _ _ _ _ _) as [kv2 res]. cbn [snd] in Hget. subst res.
  change (slice_len (Some (slice_bytes (Some mem)))) with (blen mem).
  rewrite (proj2 (Z.eqb_neq (blen mem) 0)) by lia. cbn [set_heap set_instance c_heap].
  destruct (alloc (CBytes _) _) as [d hb] eqn:Eb. apply alloc_spec in Eb as (Hd & Hnd & ->).
  exists d. unfold result_holds. cbn [fst snd set_heap c_heap]. split; [apply lookup_insert_eq|].
  rewrite lookup_insert_ne; [apply lookup_insert_eq|]. intros ->. by rewrite lookup_insert_eq in Hnd.
Qed.

(** * Examples *)

(** An allocator that takes the next address above all in use. *)
Module Bump.
#[local] Instance bump : Malloc := fun X => 1 + foldr Z.max 0 (elements X).

Lemma below l x : x ∈ l -> x <= foldr Z.max 0 l.
Proof. induction 1; cbn [foldr]; lia. Qed.

Lemma nonneg l : 0 <= foldr Z.max 0 l.
Proof. induction l; cbn [foldr]; lia. Qed.

#[local] Instance laws : MallocLaws.
Proof.
  split; intros X; unfold malloc, bump.
  - intros Hx%elem_of_elements%below. lia.
  - pose proof (nonneg (elements X)). unfold NULL. lia.
Qed.
End Bump.

#[local] Existing Instance ToyHash.xxh3.
#[local] Existing Instance RunLength.lz4.
#[local] Existing Instance RunLength.laws.
#[local] Existing Instance MergeSort.sort.
#[local] Existing Instance Bump.bump.
#[local] Existing Instance Bump.laws.

Definition openDemo (config : string) : string + GridKV :=
  if bool_decide (config = "{}"%string) then inr demoGrid else inl "invalid"%string.

Definition runDemo (acts : list cact) : option (list (kind * ptr) * capi) :=
  client_run 0 "" (fun _ => true) anyOrder acts ([], initial).

(** Open, set, read, look at the statistics and close, freeing every result. *)
Definition demoActs : list cact :=
  [Call (CallNew openDemo (Some "{}"%string));
   Call (CallSet 1000 1000 1000 1 (Some "a"%string) (Some [x61; x62]) 2 0);
   Call (CallGet 2000 2000 2000 2000 None None 1 (Some "a"%string));
   Call (CallStats (Some globalStats) 1); Call CallVersion;
   Free 3; Free 0; Free 1; Free 0;
   Call (CallClose (fun _ _ => None) 1 0); Free 0].

Lemma capi_memory_witness :
  exists s, runDemo demoActs = Some ([], s) /\
    (c_heap s = ∅ \/ c_heap s = {[c_versionStr s := CString Version]}).
Proof.
  destruct (runDemo demoActs) as [[l s]|] eqn:E; [|vm_compute in E; discriminate].
  assert (El : l = []) by (assert (E' := f_equal (option_map fst) E); vm_compute in E'; injection E' as <-; reflexivity).
  exists s. split; [rewrite El; reflexivity|].
  exact (proj1 (proj2 (proj2 (capi_memory 0 "" (fun _ => true) anyOrder demoActs l s E))) El).
Defined.

(** The handle of the instance that was closed stays dead. *)
Definition reopen : list cact :=
  [Call (CallClose (fun _ _ => None) 1 0); Call (CallNew openDemo (Some "{}"%string))].

Lemma capi_handles_witness :
  exists s, client_run 0 "" (fun _ => true) anyOrder reopen
    (match runDemo (take 1 demoActs) with Some st => st | None => ([], initial) end) = Some s /\ getInstance 1 s.2 = None.
Proof.
  destruct (runDemo (take 1 demoActs)) as [[l s]|] eqn:E; [|vm_compute in E; discriminate].
  assert (Hi : is_Some (getInstance 1 s)).
  { assert (E' : option_map (fun r => bool_decide (is_Some (getInstance 1 r.2))) (runDemo (take 1 demoActs)) =
      Some true) by (vm_compute; reflexivity).
    rewrite E in E'. cbn [option_map snd] in E'. injection E' as E'. by apply bool_decide_eq_true in E'. }
  destruct (client_run 0 "" (fun _ => true) anyOrder reopen (l, s)) as [[l' s']|] eqn:E2.
  - exists (l', s'). split; [reflexivity|].
    exact (proj2 (proj2 (capi_handles 0 "" (fun _ => true) anyOrder (take 1 demoActs) l s ltac:(reflexivity) E))
      (fun _ _ => None) 1 0 [Call (CallNew openDemo (Some "{}"%string))] l' s' ltac:(reflexivity) Hi E2).
  - exfalso. assert (E' : option_map (fun st => bool_decide (is_Some (client_run 0 "" (fun _ => true) anyOrder reopen st)))
      (runDemo (take 1 demoActs)) = Some true) by (vm_compute; reflexivity).
    rewrite E in E'. cbn [option_map] in E'. rewrite E2 in E'. discriminate.
Defined.

Definition demoApi : capi := mkCapi ∅ {[1 := demoGrid]} 1 NULL.

Definition demoSetC : option (ptr * capi) :=
  gkv_set 0 "" (fun _ => true) anyOrder 1000 1000 1000 1 (Some "a"%string) (Some [x61; x62]) 2 0 demoApi.

Lemma capi_set_get_witness :
  exists s1 d, demoSetC = Some (NULL, s1) /\
    result_holds (gkv_get 0 "" 2000 2000 2000 2000 None None 1 (Some "a"%string) s1) d [x61; x62].
Proof.
  destruct demoSetC as [[p s1]|] eqn:E; [|vm_compute in E; discriminate].
  assert (Ep : p = NULL) by (assert (E' := f_equal (option_map fst) E); vm_compute in E'; injection E' as <-; reflexivity).
  rewrite Ep in E.
  destruct (capi_set_get 0 "" (fun _ => true) anyOrder 1000 1000 1000 2000 2000 2000 2000 None None 1 "a"
    [x61; x62] 0 demoApi s1 demoGrid) as [d Hd].
  - reflexivity.
  - apply demoStore_wf.
  - vm_compute. discriminate.
  - discriminate.
  - vm_compute. split; [reflexivity|discriminate].
  - intros old Ho. vm_compute in Ho. discriminate.
  - vm_compute. reflexivity.
  - vm_compute. reflexivity.
  - exact E.
  - exists s1, d. split; [rewrite Ep; reflexivity|exact Hd].
Defined.

(** Following the comment of gkv.h on error_msg as well as the one on the
    result frees the message twice. *)
Example error_msg_freed_twice :
  (let '(p, s) := gkv_new openDemo None initial in
   match c_heap s !! p with
   | Some (CResult _ e) => s' ← gkv_free_string e s; gkv_free_result p s'
   | _ => None
   end) = None.
Proof. vm_compute. reflexivity. Qed.

(** So does following the one on local_node_id. *)
Example local_node_id_freed_twice :
  (let '(p, s) := gkv_stats None 1 demoApi in
   match c_heap s !! p with
   | Some (CStats _ n _ _) => s' ← gkv_free_string n s; gkv_free_stats p s'
   | _ => None
   end) = None.
Proof. vm_compute. reflexivity. Qed.

(** The network statistics of a node that has a network are all zero: nothing
    under internal/network updates the global counters. *)
Example network_stats_zero :
  NetSnapshot (Some globalStats) = mkNetworkSnapshot 0 0 0 0 0 0 0 0 0 0 0 0 0 0 0 0.
Proof. reflexivity. Qed.
