(* ===== verification/Adaptive.v ===== *)
(** * The adaptive size of the connection pool

    [AdaptiveCfg], [newAdaptive], [adjust], [updateEMA] and [adjustLoop] of
    internal/network/pool.go, with the averages and comparisons in binary64. *)

From Stdlib Require Import SpecFloat.
From S2P Require Import Prelude ConnPool Metrics.

Record AdaptiveCfg := mkAdaptiveCfg {
  ac_MinSize : Z; ac_MaxSize : Z; ac_InitialSize : Z; ac_TargetWaitTime : Z;
  ac_HighThreshold : Z; ac_LowThreshold : Z; ac_IncreaseStep : Z; ac_DecreaseStep : Z;
  ac_CooldownPeriod : Z; ac_EMAAlpha : float64;
}.

Definition DefaultAdaptive : AdaptiveCfg :=
  mkAdaptiveCfg 100 20000 2000 (20 * Millisecond) (50 * Millisecond) (10 * Millisecond) 200 100
    (10 * Second) f64_fifth.

Record adaptive := mkAdaptive {
  ad_minSize : Z;
  ad_maxSize : Z;
  ad_targetWaitTime : Z;
  ad_highThreshold : Z;
  ad_lowThreshold : Z;
  ad_currentSize : Z;
  ad_emaWaitTime : Z;
  ad_emaUtilization : Z;    (* in units of 1/10000 *)
  ad_alpha : float64;
  ad_increaseStep : Z;
  ad_decreaseStep : Z;
  ad_cooldownPeriod : Z;
  ad_lastAdjustTime : Z;
}.

Definition minInt (a b : Z) : Z := if a <? b then a else b.
Definition maxInt (a b : Z) : Z := if b <? a then a else b.

Definition newAdaptive (cfg : AdaptiveCfg) : adaptive :=
  let i := ac_InitialSize cfg in
  let i := if i <? ac_MinSize cfg then ac_MinSize cfg else i in
  let i := if ac_MaxSize cfg <? i then ac_MaxSize cfg else i in
  let alpha := ac_EMAAlpha cfg in
  let alpha := if SFleb alpha (f64_of_int 0) || SFltb (f64_of_int 1) alpha then f64_fifth else alpha in
  mkAdaptive (ac_MinSize cfg) (ac_MaxSize cfg) (ac_TargetWaitTime cfg) (ac_HighThreshold cfg)
    (ac_LowThreshold cfg) i 0 0 alpha (ac_IncreaseStep cfg) (ac_DecreaseStep cfg) (ac_CooldownPeriod cfg) 0.

(** [updateEMA]: the loop retries until nobody interferes; a zero stands for
    no sample yet. *)
Definition updateEMA (a : adaptive) (old val : Z) : Z := nextEMA (ad_alpha a) old val.

(** The constants 0.8, 0.5 and 0.3. *)
Definition highUtil : float64 := f64_div (f64_of_int 4) (f64_of_int 5).
Definition lowUtil : float64 := f64_div (f64_of_int 1) (f64_of_int 2).
Definition idleShare : float64 := f64_div (f64_of_int 3) (f64_of_int 10).

Definition utilization (active size : Z) : float64 :=
  if 0 <? size then f64_mul (f64_div (f64_of_int active) (f64_of_int size)) (f64_of_int 10000)
  else S754_zero false.

(** The size that the averages ask for. *)
Definition nextSize (wait util waiters idle : Z) (a : adaptive) : Z :=
  let cur := ad_currentSize a in
  let emaUtil := f64_div (f64_of_int util) (f64_of_int 10000) in
  let newSize :=
    if ((ad_highThreshold a <? sint 64 wait) || SFltb highUtil emaUtil || (5 <? waiters)) && (cur <? ad_maxSize a)
    then minInt (add64 cur (ad_increaseStep a)) (ad_maxSize a) else cur in
  if (sint 64 wait <? ad_lowThreshold a) && SFltb emaUtil lowUtil &&
     (f64_trunc (f64_mul (f64_of_int cur) idleShare) <? idle) && (ad_minSize a <? cur)
  then maxInt (sint 64 (cur - ad_decreaseStep a)) (ad_minSize a) else newSize.

(** [adjust]: the statistics are the counters and the measurements. *)
Definition adjust (now : Z) (stats : PoolStats) (perf : PerfStats) (a : adaptive) : Z * adaptive :=
  if now - ad_lastAdjustTime a <? ad_cooldownPeriod a then (ad_currentSize a, a)
  else
    let wait := updateEMA a (ad_emaWaitTime a) (uint 64 (pf_AvgWaitTime perf)) in
    let util := updateEMA a (ad_emaUtilization a)
                  (uint 64 (f64_trunc (utilization (ps_Active stats) (ad_currentSize a)))) in
    let newSize := nextSize wait util (ps_Waiters stats) (ps_Idle stats) a in
    let last := if newSize =? ad_currentSize a then ad_lastAdjustTime a else now in
    (newSize, mkAdaptive (ad_minSize a) (ad_maxSize a) (ad_targetWaitTime a) (ad_highThreshold a)
                (ad_lowThreshold a) newSize wait util (ad_alpha a) (ad_increaseStep a) (ad_decreaseStep a)
                (ad_cooldownPeriod a) last).

(** [EnableAdaptive] sets the state; the loop it starts then ticks.  A tick of
    [adjustLoop]: [None] when the loop ends. *)
Definition EnableAdaptive (cfg : AdaptiveCfg) : option adaptive := Some (newAdaptive cfg).

Record sized := mkSized {
  sz_cfg : PoolConfig; sz_adaptive : option adaptive; sz_perf : poolPerf; sz_marks : DebugMarks;
}.

Definition adjustTick (now : Z) (closed debug : bool) (stats : PoolStats) (p : sized) : option sized :=
  if closed then None
  else
    let p :=
      match sz_adaptive p with
      | None => p
      | Some a =>
          let '(stats, perf, m) := PoolStatsOf now stats (sz_perf p) in
          let '(newSize, a) := adjust now stats perf a in
          let cfg := sz_cfg p in
          let cfg := if newSize =? MaxActive cfg then cfg
                     else mkPoolConfig (MaxIdle cfg) newSize (IdleTimeout cfg) (WaitTimeout cfg) in
          mkSized cfg (Some a) m (sz_marks p)
      end in
    Some (mkSized (sz_cfg p) (sz_adaptive p) (sz_perf p) (updateDebugStats debug stats (sz_marks p))).

(** * Bounds *)

Lemma minInt_min a b : minInt a b = Z.min a b.
Proof. unfold minInt. destruct (Z.ltb_spec a b); lia. Qed.
Lemma maxInt_max a b : maxInt a b = Z.max a b.
Proof. unfold maxInt. destruct (Z.ltb_spec b a); lia. Qed.

(** Bounds and steps that the arithmetic of an int can take. *)
Record sane (a : adaptive) : Prop := {
  sa_size : ad_minSize a <= ad_currentSize a <= ad_maxSize a;
  sa_inc : 0 <= ad_increaseStep a;
  sa_dec : 0 <= ad_decreaseStep a;
  sa_low : - 2 ^ 63 <= ad_minSize a - ad_decreaseStep a;
  sa_high : ad_maxSize a + ad_increaseStep a < 2 ^ 63;
}.

Lemma sane_steps a : sane a ->
  add64 (ad_currentSize a) (ad_increaseStep a) = ad_currentSize a + ad_increaseStep a /\
  sint 64 (ad_currentSize a - ad_decreaseStep a) = ad_currentSize a - ad_decreaseStep a.
Proof. intros [Hs Hi Hd Hl Hh]. unfold add64. rewrite !sint_id; unfold is_sint; lia. Qed.

Lemma nextSize_bounds wait util waiters idle a :
  sane a ->
  ad_minSize a <= nextSize wait util waiters idle a <= ad_maxSize a /\
  ad_currentSize a - ad_decreaseStep a <= nextSize wait util waiters idle a <= ad_currentSize a + ad_increaseStep a.
Proof.
  intros Hs. destruct (sane_steps a Hs) as [Ei Ed]. destruct Hs as [Hs Hi Hd Hl Hh].
  unfold nextSize. rewrite Ei, Ed, minInt_min, maxInt_max. repeat case_match; lia.
Qed.

(** What stays the same. *)
Definition limits (a : adaptive) :=
  (ad_minSize a, ad_maxSize a, ad_increaseStep a, ad_decreaseStep a, ad_cooldownPeriod a).

Lemma adjust_step now stats perf a :
  sane a ->
  let '(size, a') := adjust now stats perf a in
  sane a' /\ limits a' = limits a /\ size = ad_currentSize a' /\
  ad_lastAdjustTime a' = (if size =? ad_currentSize a then ad_lastAdjustTime a else now) /\
  (size <> ad_currentSize a -> ad_cooldownPeriod a <= now - ad_lastAdjustTime a).
Proof.
  intros Hs. unfold adjust.
  destruct (Z.ltb_spec (now - ad_lastAdjustTime a) (ad_cooldownPeriod a)) as [|Hc]; [by rewrite Z.eqb_refl|].
  set (wait := updateEMA _ _ _). set (util := updateEMA _ _ _).
  destruct (nextSize_bounds wait util (ps_Waiters stats) (ps_Idle stats) a Hs) as [Hb _].
  destruct Hs as [_ Hi Hd Hl Hh]. split_and!; try done.
Qed.

(** A run of ticks: the sizes with the times. *)
Definition tick := (Z * PoolStats * PerfStats)%type.
Fixpoint adjusts (ticks : list tick) (a : adaptive) : list Z * adaptive :=
  match ticks with
  | [] => ([], a)
  | (now, stats, perf) :: ticks =>
      let '(size, a) := adjust now stats perf a in
      let '(sizes, a) := adjusts ticks a in (size :: sizes, a)
  end.

(** The times at which the size changes, from [cur] on. *)
Fixpoint changes (cur : Z) (ticks : list tick) (sizes : list Z) : list Z :=
  match ticks, sizes with
  | (now, _, _) :: ticks, size :: sizes => (if size =? cur then [] else [now]) ++ changes size ticks sizes
  | _, _ => []
  end.

Fixpoint spaced (gap last : Z) (times : list Z) : Prop :=
  match times with
  | [] => True
  | t :: times => gap <= t - last /\ spaced gap t times
  end.

Lemma adjusts_bounds ticks a :
  sane a ->
  let '(sizes, a') := adjusts ticks a in
  Forall (fun size => ad_minSize a <= size <= ad_maxSize a) sizes /\
  spaced (ad_cooldownPeriod a) (ad_lastAdjustTime a) (changes (ad_currentSize a) ticks sizes).
Proof.
  revert a. induction ticks as [|[[now stats] perf] ticks IH]; intros a Hs; cbn [adjusts]; [done|].
  pose proof (adjust_step now stats perf a Hs) as Ha. destruct (adjust now stats perf a) as [size a1].
  destruct Ha as (Hs1 & [= E1 E2 _ _ E5] & -> & El & Hc). specialize (IH a1 Hs1).
  destruct (adjusts ticks a1) as [sizes a2]. destruct IH as [IHb IHs]. rewrite E1, E2, E5 in *.
  split; [constructor; [|done]; destruct Hs1 as [Hs1 _ _ _ _]; by rewrite <- E1, <- E2|].
  cbn [changes]. rewrite El in IHs. destruct (Z.eqb_spec (ad_currentSize a1) (ad_currentSize a)); [exact IHs|].
  cbn [app spaced]. split; [by apply Hc|exact IHs].
Qed.

(** ** Growth *)

Lemma round_aux_nonneg m e l : 0 <= f64_trunc (binary_round_aux 53 1024 false m e l).
Proof.
  unfold binary_round_aux. destruct (shr_fexp _ _ _ _ _) as [r1 e1]. destruct (shr_fexp _ _ _ _ _) as [r2 e2].
  destruct (shr_m r2) as [|p|p]; [done| |done]. destruct (_ <=? _); [|done]. cbn [f64_trunc].
  destruct (Z.leb_spec 0 e2); [nia|]. apply Z.div_pos; lia.
Qed.

Definition unsigned (x : float64) : Prop :=
  match x with S754_finite s _ _ | S754_zero s | S754_infinity s => s = false | S754_nan => True end.

Lemma round_aux_unsigned m e l : unsigned (binary_round_aux 53 1024 false m e l).
Proof.
  unfold binary_round_aux. destruct (shr_fexp _ _ _ _ _) as [r1 e1]. destruct (shr_fexp _ _ _ _ _) as [r2 e2].
  destruct (shr_m r2) as [|p|p]; [done| |done]. by destruct (_ <=? _).
Qed.

Lemma f64_of_int_unsigned z : 0 <= z -> unsigned (f64_of_int z).
Proof.
  intros Hz. unfold f64_of_int, binary_normalize. destruct z as [|p|p]; [done| |lia].
  unfold binary_round. destruct (shl_align _ _ _). apply round_aux_unsigned.
Qed.

(** Three tenths of a size are not negative. *)
Lemma idleShare_nonneg z : 0 <= z -> 0 <= f64_trunc (f64_mul (f64_of_int z) idleShare).
Proof.
  intros Hz%f64_of_int_unsigned. assert (Hi : unsigned idleShare) by (vm_compute; reflexivity).
  unfold f64_mul, SFmul. destruct (f64_of_int z), idleShare; cbn [unsigned] in *; try done; subst.
  apply round_aux_nonneg.
Qed.

(** Callers wait and no connection is idle. *)
Definition pressed (t : tick) : Prop := let '(_, stats, _) := t in 5 < ps_Waiters stats /\ ps_Idle stats <= 0.
Definition tick_time (t : tick) : Z := t.1.1.

Lemma nextSize_pressed wait util waiters idle a :
  sane a -> 0 <= ad_minSize a -> 5 < waiters -> idle <= 0 ->
  nextSize wait util waiters idle a = Z.min (ad_currentSize a + ad_increaseStep a) (ad_maxSize a).
Proof.
  intros Hs Hm Hw Hi. destruct (sane_steps a Hs) as [Ei _]. destruct Hs as [Hs H1 _ _ _].
  unfold nextSize. rewrite Ei, minInt_min. pose proof (idleShare_nonneg (ad_currentSize a) ltac:(lia)) as Hn.
  rewrite (proj2 (Z.ltb_ge (f64_trunc _) idle)) by lia. rewrite andb_false_r. cbn [andb].
  rewrite (proj2 (Z.ltb_lt 5 waiters)), orb_true_r by lia. cbn [andb].
  destruct (Z.ltb_spec (ad_currentSize a) (ad_maxSize a)); lia.
Qed.

Lemma adjusts_grow ticks a :
  sane a -> 0 <= ad_minSize a -> 0 <= ad_cooldownPeriod a ->
  Forall pressed ticks -> spaced (ad_cooldownPeriod a) (ad_lastAdjustTime a) (tick_time <$> ticks) ->
  ad_currentSize (adjusts ticks a).2 =
  Z.min (ad_currentSize a + Z.of_nat (length ticks) * ad_increaseStep a) (ad_maxSize a).
Proof.
  revert a. induction ticks as [|[[now stats] perf] ticks IH]; intros a Hs Hm Hc Hp Hsp.
  { cbn [adjusts snd length]. destruct Hs as [Hs _ _ _ _]. lia. }
  apply Forall_cons in Hp as [[Hw Hi] Hp]. destruct Hsp as [Ht Hsp]. cbn [tick_time fst] in Ht.
  cbn [adjusts]. pose proof (adjust_step now stats perf a Hs) as Ha. unfold adjust in *.
  rewrite (proj2 (Z.ltb_ge _ _)) in * by lia. cbv zeta in *.
  rewrite nextSize_pressed in * by done. set (a1 := mkAdaptive _ _ _ _ _ _ _ _ _ _ _ _ _) in *.
  destruct Ha as (Hs1 & _ & _ & El & _). specialize (IH a1 Hs1 Hm Hc Hp).
  destruct (adjusts ticks a1) as [sizes a2]. cbn [snd] in *. rewrite IH.
  - cbn [a1 ad_currentSize ad_increaseStep ad_maxSize length]. destruct Hs as [Hs Hinc _ _ _]. nia.
  - rewrite El. cbn [a1 ad_cooldownPeriod]. case_match; [|exact Hsp].
    destruct ticks as [|t ticks]; [done|]. destruct Hsp as [Ht2 Hsp]. split; [|exact Hsp].
    cbn [tick_time fst] in *. lia.
Qed.

(** * The property *)

Lemma newAdaptive_sane cfg :
  ac_MinSize cfg <= ac_MaxSize cfg -> 0 <= ac_IncreaseStep cfg -> 0 <= ac_DecreaseStep cfg ->
  - 2 ^ 63 <= ac_MinSize cfg - ac_DecreaseStep cfg -> ac_MaxSize cfg + ac_IncreaseStep cfg < 2 ^ 63 ->
  sane (newAdaptive cfg).
Proof.
  intros Hm Hi Hd Hl Hh. split; cbn [newAdaptive ad_minSize ad_maxSize ad_increaseStep ad_decreaseStep ad_currentSize];
    try done. repeat case_match; to_prop; lia.
Qed.

(** C36. The adaptive limit of connections: whatever the pool reports and
    whenever, the limit stays between its least and its greatest size and two
    changes are at least the cool-down apart; while callers wait and nothing
    is idle it grows by one step per cool-down up to the greatest size. *)
Theorem adaptive_size cfg ticks :
  0 <= ac_MinSize cfg <= ac_MaxSize cfg -> 0 <= ac_IncreaseStep cfg -> 0 <= ac_DecreaseStep cfg ->
  - 2 ^ 63 <= ac_MinSize cfg - ac_DecreaseStep cfg -> ac_MaxSize cfg + ac_IncreaseStep cfg < 2 ^ 63 ->
  let a := newAdaptive cfg in
  let '(sizes, a') := adjusts ticks a in
  Forall (fun size => ac_MinSize cfg <= size <= ac_MaxSize cfg) sizes /\
  spaced (ac_CooldownPeriod cfg) 0 (changes (ad_currentSize a) ticks sizes) /\
  (0 <= ac_CooldownPeriod cfg -> Forall pressed ticks -> spaced (ac_CooldownPeriod cfg) 0 (tick_time <$> ticks) ->
   ad_currentSize a' =
   Z.min (ad_currentSize a + Z.of_nat (length ticks) * ac_IncreaseStep cfg) (ac_MaxSize cfg)).
Proof.
  intros Hm Hi Hd Hl Hh. cbv zeta. pose proof (newAdaptive_sane cfg ltac:(lia) Hi Hd Hl Hh) as Hs.
  pose proof (adjusts_bounds ticks (newAdaptive cfg) Hs) as Hb.
  pose proof (adjusts_grow ticks (newAdaptive cfg) Hs ltac:(apply Hm)) as Hg.
  destruct (adjusts ticks (newAdaptive cfg)) as [sizes a']. cbn [snd] in Hg. destruct Hb as [Hb Hsp].
  split; [exact Hb|]. split; [exact Hsp|]. intros Hc Hp Ht. by apply Hg.
Qed.

(** The default configuration under pressure, a tick every ten seconds: after
    100 ticks the limit has gone from 2000 to the greatest size. *)
Definition busyStats : PoolStats := mkPoolStats 2000 2000 0 10 0 0 0.
Definition busyPerf : PerfStats := mkPerfStats (60 * Millisecond) 0 0 (S754_zero false) 0 0.
Definition busyTicks (n : nat) : list tick := (fun i => (Z.of_nat i * (10 * Second), busyStats, busyPerf)) <$> seq 1 n.

Lemma adaptive_size_witness :
  ad_currentSize (adjusts (busyTicks 100) (newAdaptive DefaultAdaptive)).2 = 20000.
Proof.
  pose proof (adaptive_size DefaultAdaptive (busyTicks 100) ltac:(vm_compute; split; discriminate)
    ltac:(vm_compute; discriminate) ltac:(vm_compute; discriminate) ltac:(vm_compute; discriminate)
    ltac:(vm_compute; reflexivity)) as Ha.
  cbv zeta in Ha. destruct (adjusts (busyTicks 100) (newAdaptive DefaultAdaptive)) as [sizes a'].
  destruct Ha as (_ & _ & Hg). cbn [snd]. rewrite Hg.
  - vm_compute. reflexivity.
  - vm_compute. discriminate.
  - apply Forall_forall. intros t (i & -> & _)%list_elem_of_fmap. vm_compute. split; [reflexivity|discriminate].
  - vm_compute. repeat split; discriminate.
Defined.

(** Callers that wait for one address do not keep the limit up when
    connections to others are idle: the second test overrides the first. *)
Example shrinks_under_waiters :
  let stats := mkPoolStats 1000 100 900 10 0 0 0 in
  fst (adjust (10 * Second) stats (mkPerfStats 0 0 0 (S754_zero false) 0 0) (newAdaptive DefaultAdaptive)) = 1900.
Proof. vm_compute. reflexivity. Qed.

(** The average of a constant does not reach it from below: the product is
    rounded and then truncated. *)
Example ema_stays_below : updateEMA (newAdaptive DefaultAdaptive) 9996 10000 = 9996.
Proof. vm_compute. reflexivity. Qed.
