(* ===== verification/Loops.v ===== *)
(** * Background loops and shutdown

    The goroutines that the components run beside the calls they answer, and
    how they end: the gossip, ping and anti-entropy loops of internal/cluster,
    the cleaner and the eviction of the store (internal/mem_storage), the
    tasks and health checks that a panic may end, and the last steps of [Stop]
    of the executor and of the server.  What a loop does at a tick is the operation
    of the component's own file. *)

From S2P Require Import Prelude StoredItem MemStorage MemStorageFacts Net ConnPool Wire Server Executor.

(** * Gossip *)

Definition gossipFloor : Z := 50 * Millisecond.
Definition gcInterval : Z := 300 * Second.

(** The interval of the ticker, the failures in a row and the last hint to
    the garbage collector. *)
Record gossipClock := mkGossipClock { gl_interval : Z; gl_failures : Z; gl_lastGC : Z }.

Definition gossipInterval (configured : Z) : Z := if configured <=? 0 then 100 * Millisecond else configured.

(** One tick at [now]: [accepted], the executor took the round. *)
Definition gossipTick (original now : Z) (accepted : bool) (g : gossipClock) : gossipClock :=
  let lastGC := if gcInterval <? now - gl_lastGC g then now else gl_lastGC g in
  if negb accepted then
    let failures := gl_failures g + 1 in
    if (3 <=? failures) && (gossipFloor <? gl_interval g)
    then mkGossipClock (Z.max (gl_interval g / 2) gossipFloor) failures lastGC
    else mkGossipClock (gl_interval g) failures lastGC
  else if gl_interval g <? original
  then mkGossipClock (Z.min (gl_interval g * 5 / 4) original) 0 lastGC
  else mkGossipClock (gl_interval g) 0 lastGC.

Fixpoint gossipTicks (original : Z) (ticks : list (Z * bool)) (g : gossipClock) : gossipClock :=
  match ticks with
  | [] => g
  | (now, accepted) :: ticks => gossipTicks original ticks (gossipTick original now accepted g)
  end.

Definition interval_ok (original : Z) (g : gossipClock) : Prop :=
  Z.min gossipFloor original <= gl_interval g <= original.

Lemma gossipTick_ok original now accepted g :
  0 < original -> interval_ok original g -> interval_ok original (gossipTick original now accepted g).
Proof.
  unfold interval_ok, gossipTick. change gossipFloor with 50000000. intros Ho Hi. destruct accepted; cbn [negb].
  - destruct (Z.ltb_spec (gl_interval g) original); cbn [gl_interval]; [|lia].
    assert (gl_interval g <= gl_interval g * 5 / 4) by (apply Z.div_le_lower_bound; lia). lia.
  - destruct (_ && _) eqn:E; cbn [gl_interval]; [|lia].
    apply andb_prop in E as [_ E%Z.ltb_lt]. assert (gl_interval g / 2 <= gl_interval g) by (apply Z.div_le_upper_bound; lia).
    lia.
Qed.

Lemma gossipTicks_ok original ticks g :
  0 < original -> interval_ok original g -> interval_ok original (gossipTicks original ticks g).
Proof.
  intros Ho. revert g. induction ticks as [|[now b] ticks IH]; intros g Hg; [done|].
  apply IH. by apply gossipTick_ok.
Qed.

(** A round that was accepted brings the interval a quarter closer, or back
    to what was configured. *)
Lemma gossipTick_recovers original now g :
  gossipFloor <= gl_interval g -> gl_interval g <= original ->
  gl_interval (gossipTick original now true g) = original \/
  gl_interval g + 12500000 <= gl_interval (gossipTick original now true g).
Proof.
  unfold gossipTick. change gossipFloor with 50000000. intros Hf Ho. cbn [negb].
  destruct (Z.ltb_spec (gl_interval g) original); cbn [gl_interval]; [|left; lia].
  assert (gl_interval g + 12500000 <= gl_interval g * 5 / 4) by (apply Z.div_le_lower_bound; lia). lia.
Qed.

Lemma gossip_recovers n original (nows : list Z) g :
  gossipFloor <= gl_interval g <= original -> length nows = n ->
  original - gl_interval g <= Z.of_nat n * 12500000 ->
  gl_interval (gossipTicks original ((fun now => (now, true)) <$> nows) g) = original.
Proof.
  revert nows g. induction n as [|n IH]; intros nows g Hg Hn Hd.
  { destruct nows; [|done]. cbn. lia. }
  destruct nows as [|now nows]; [done|]. injection Hn as Hn. cbn [fmap list_fmap gossipTicks].
  destruct (gossipTick_recovers original now g) as [E|E]; [lia|lia| |].
  - pose proof (gossipTick_ok original now true g) as Hk. unfold interval_ok in Hk.
    change gossipFloor with 50000000 in *. apply IH; [lia|done|lia].
  - pose proof (gossipTick_ok original now true g) as Hk. unfold interval_ok in Hk.
    change gossipFloor with 50000000 in *. apply IH; [lia|done|lia].
Qed.

(** The gossip interval adapts within bounds and comes back: whatever
    rounds the executor refuses, the interval stays between 50 ms (or the
    configured interval, if that is shorter) and the configured one, and once
    rounds are accepted again it is back after as many of them as there are
    12.5 ms in the difference. *)
Theorem gossip_interval configured ticks nows lastGC :
  let original := gossipInterval configured in
  let g := gossipTicks original ticks (mkGossipClock original 0 lastGC) in
  interval_ok original g /\
  (gossipFloor <= original -> original - gl_interval g <= Z.of_nat (length nows) * 12500000 ->
   gl_interval (gossipTicks original ((fun now => (now, true)) <$> nows) g) = original).
Proof.
  intros original g. assert (Ho : 0 < original).
  { unfold original, gossipInterval. change (100 * Millisecond) with 100000000. destruct (Z.leb_spec configured 0); lia. }
  assert (Hg : interval_ok original g).
  { apply gossipTicks_ok; [done|]. unfold interval_ok. cbn [gl_interval]. lia. }
  split; [done|]. intros Hf Hd. eapply gossip_recovers; [|reflexivity|done].
  unfold interval_ok in Hg. lia.
Qed.

(** * Loops that end at the first refusal *)

(** [entropyLoop] and [pingLoop]: the rounds that run, given what the
    executor says at each tick until the loop is stopped. *)
Fixpoint loopRounds (accepted : list bool) : nat :=
  match accepted with
  | true :: l => S (loopRounds l)
  | _ => 0
  end.

Definition entropyLoop : list bool -> nat := loopRounds.
Definition pingLoop : list bool -> nat := loopRounds.

(** The executor of the cluster refuses when its queue is full: anti-entropy
    then ends for good, whatever the executor accepts later. *)
Lemma entropy_ends l1 l2 : entropyLoop (l1 ++ false :: l2) = entropyLoop l1 \/ false ∈ l1.
Proof.
  induction l1 as [|[] l1 [IH|IH]]; cbn [app]; [by left| | |by right; left..].
  - left. cbn. by f_equal.
  - right. by right.
Qed.

(** From 200 ms, four refusals bring 50 ms; twelve accepted rounds bring it
    back. *)
Lemma gossip_interval_witness :
  let g := gossipTicks (200 * Millisecond) (replicate 4 (0, false)) (mkGossipClock (200 * Millisecond) 0 0) in
  gl_interval g = 50 * Millisecond /\
  gl_interval (gossipTicks (200 * Millisecond) ((fun now => (now, true)) <$> replicate 12 0) g) = 200 * Millisecond.
Proof.
  intros g. split; [vm_compute; reflexivity|].
  apply (proj2 (gossip_interval (200 * Millisecond) (replicate 4 (0, false)) (replicate 12 0) 0)).
  - vm_compute. discriminate.
  - vm_compute. discriminate.
Defined.

Example entropy_stops : entropyLoop [true; false; true; true] = 1%nat.
Proof. reflexivity. Qed.

(** * The store *)

(** The flags and stop channels of the two goroutines of the store. *)
Record stopper := mkStopper {
  sp_evictRunning : bool; sp_evictClosed : bool; sp_cleanerRunning : bool; sp_cleanerClosed : bool;
}.

(** [startCleaner] and, when it is configured, [startAsyncEviction] in
    [New]. *)
Definition startLoops (asyncEviction : bool) (maxMemoryMB : Z) : stopper :=
  mkStopper (asyncEviction && (0 <? maxMemoryMB)) false true false.

(** The steps of [closeInternal]; [None]: the channel is closed twice, which
    panics. *)
Inductive closer := ClEvict | ClEvictClose | ClCleaner | ClCleanerClose | ClClear | ClDone.

Definition closeStep (s : stopper) (c : closer) : option (stopper * closer) :=
  match c with
  | ClEvict =>
      Some (mkStopper false (sp_evictClosed s) (sp_cleanerRunning s) (sp_cleanerClosed s),
            if sp_evictRunning s then ClEvictClose else ClCleaner)
  | ClEvictClose =>
      if sp_evictClosed s then None
      else Some (mkStopper (sp_evictRunning s) true (sp_cleanerRunning s) (sp_cleanerClosed s), ClCleaner)
  | ClCleaner =>
      Some (mkStopper (sp_evictRunning s) (sp_evictClosed s) false (sp_cleanerClosed s),
            if sp_cleanerRunning s then ClCleanerClose else ClClear)
  | ClCleanerClose =>
      if sp_cleanerClosed s then None
      else Some (mkStopper (sp_evictRunning s) (sp_evictClosed s) (sp_cleanerRunning s) true, ClClear)
  | ClClear => Some (s, ClDone)
  | ClDone => None
  end.

(** The goroutines leave when their channel is closed and reset their flag. *)
Inductive stop_step : stopper * list closer -> stopper * list closer -> Prop :=
  | ss_call s l : stop_step (s, l) (s, ClEvict :: l)
  | ss_close s l1 c l2 s' c' : closeStep s c = Some (s', c') -> stop_step (s, l1 ++ c :: l2) (s', l1 ++ c' :: l2)
  | ss_evict s l : sp_evictClosed s = true ->
      stop_step (s, l) (mkStopper false true (sp_cleanerRunning s) (sp_cleanerClosed s), l)
  | ss_cleaner s l : sp_cleanerClosed s = true ->
      stop_step (s, l) (mkStopper (sp_evictRunning s) (sp_evictClosed s) false true, l).

Definition same_point (c x : closer) : bool :=
  match c, x with
  | ClEvict, ClEvict | ClEvictClose, ClEvictClose | ClCleaner, ClCleaner
  | ClCleanerClose, ClCleanerClose | ClClear, ClClear | ClDone, ClDone => true
  | _, _ => false
  end.

(** How many callers are at a point. *)
Fixpoint at_point (c : closer) (l : list closer) : nat :=
  match l with [] => 0 | x :: l => Nat.b2n (same_point c x) + at_point c l end.

Lemma at_point_app c l1 l2 : at_point c (l1 ++ l2) = (at_point c l1 + at_point c l2)%nat.
Proof. induction l1 as [|x l1 IH]; cbn [app at_point]; [done|]. rewrite IH. lia. Qed.

(** A channel is closed, about to be closed by one caller, or still in use;
    never two of these. *)
Definition stop_ok (st : stopper * list closer) : Prop :=
  let '(s, l) := st in
  (Nat.b2n (sp_evictRunning s) + at_point ClEvictClose l + Nat.b2n (sp_evictClosed s) <= 1 /\
   Nat.b2n (sp_cleanerRunning s) + at_point ClCleanerClose l + Nat.b2n (sp_cleanerClosed s) <= 1)%nat.

Lemma stop_step_ok st st' : stop_ok st -> stop_step st st' -> stop_ok st'.
Proof.
  intros Hok. destruct 1 as [s l|s l1 c l2 s' c' Hc|s l He|s l He]; unfold stop_ok in *.
  - exact Hok.
  - rewrite !at_point_app in *. cbn [at_point] in *. destruct s as [er ec cr cc].
    destruct c; cbn [closeStep sp_evictRunning sp_evictClosed sp_cleanerRunning sp_cleanerClosed] in Hc.
    + destruct er; injection Hc as <- <-; cbn in *; lia.
    + destruct ec; [done|]. injection Hc as <- <-. cbn in *; lia.
    + destruct cr; injection Hc as <- <-; cbn in *; lia.
    + destruct cc; [done|]. injection Hc as <- <-. cbn in *; lia.
    + injection Hc as <- <-. cbn in *; lia.
    + done.
  - rewrite He in Hok. cbn in *. lia.
  - rewrite He in Hok. cbn in *. lia.
Qed.

(** Closing the store is safe: however many goroutines call Close,
    however their steps and those of the cleaner and the eviction interleave,
    neither stop channel is closed twice, so that every call can go on to its
    end. *)
Theorem store_close_once async maxMB s l c :
  steps stop_step (startLoops async maxMB, []) (s, l) -> c ∈ l -> c <> ClDone -> is_Some (closeStep s c).
Proof.
  intros Hr Hc Hd. assert (Hok : stop_ok (s, l)).
  { apply (steps_invariant stop_step stop_ok (startLoops async maxMB, [])); [apply stop_step_ok| |done].
    cbn. destruct (async && _); cbn; lia. }
  apply list_elem_of_split in Hc as (l1 & l2 & ->). unfold stop_ok in Hok.
  rewrite !at_point_app in Hok. cbn [at_point] in Hok. destruct c; [..|by destruct Hd]; cbn [closeStep]; try (by eexists).
  - destruct (sp_evictClosed s); [cbn in Hok; lia|by eexists].
  - destruct (sp_cleanerClosed s); [cbn in Hok; lia|by eexists].
Qed.

(** Two calls at once: the second finds nothing to close. *)
Lemma store_close_once_witness :
  exists s, steps stop_step (startLoops true 64, []) (s, [ClCleaner; ClEvictClose]) /\ is_Some (closeStep s ClEvictClose).
Proof.
  assert (Hr : steps stop_step (startLoops true 64, []) (mkStopper false false true false, [ClCleaner; ClEvictClose])).
  { apply (steps_cons _ (startLoops true 64, [ClEvict])); [apply ss_call|].
    apply (steps_cons _ (mkStopper false false true false, [ClEvictClose]));
      [apply (ss_close _ [] ClEvict []); reflexivity|].
    apply (steps_cons _ (mkStopper false false true false, [ClEvict; ClEvictClose])); [apply ss_call|].
    apply (steps_cons _ (mkStopper false false true false, [ClCleaner; ClEvictClose]));
      [apply (ss_close _ [] ClEvict [ClEvictClose]); reflexivity|].
    apply steps_refl. }
  exists (mkStopper false false true false). split; [exact Hr|].
  apply (store_close_once true 64 _ _ ClEvictClose Hr); [|discriminate].
  right. left.
Defined.

(** [closeInternal] on the data: everything is dropped. *)
Definition CloseStore (s : MemStorage) : MemStorage := Clear s.

(** * Stop of the executor *)

(** How long [Stop] waits for the workers. *)
Definition execStopTimeout (timeout cap : Z) : Z :=
  if timeout <=? 0 then
    (if 100 <? cap then Z.min (10 * Second + Z.quot cap 100 * (100 * Millisecond)) (30 * Second) else 10 * Second)
  else timeout.

(** [Close]: the time left until the deadline of the context. *)
Definition execCloseTimeout (remaining : option Z) : Z :=
  match remaining with
  | None => 10 * Second
  | Some t => if t <=? 0 then 10 * Second else t
  end.

Record ExecStats := mkExecStats { xs_Cap : Z; xs_Running : Z; xs_Queued : nat; xs_Done : Z; xs_Dropped : Z }.

Definition ExecStatsOf (trackStats : bool) (e : Exec) : ExecStats :=
  mkExecStats (ex_cap e) (ex_running e) (length (ex_tasks e)) (if trackStats then ex_done e else 0)
    (if trackStats then ex_dropped e else 0).

Lemma execStopTimeout_bounds timeout cap :
  0 < execStopTimeout timeout cap /\ (timeout <= 0 -> 10 * Second <= execStopTimeout timeout cap <= 30 * Second).
Proof.
  unfold execStopTimeout. change (10 * Second) with 10000000000. change (30 * Second) with 30000000000.
  change (100 * Millisecond) with 100000000.
  destruct (Z.leb_spec timeout 0); [|lia]. destruct (Z.ltb_spec 100 cap); [|lia].
  pose proof (Z.quot_pos cap 100 ltac:(lia) ltac:(lia)). lia.
Qed.

(** Workers that are still running when the time is up count themselves out
    afterwards: the statistics then show a negative number. *)
Example running_negative :
  let e := New 1 (mkOpts 1 1 false) in
  xs_Running (ExecStatsOf true (worker_counted 0 (worker_gone [] (StopEnd true (StopExec e)).2))) = -1.
Proof. reflexivity. Qed.

(** * Stop of the server *)

Inductive stopAct :=
  | CloseStopCh | CloseListener | WaitAccept | CloseConnection (c : nat) | CloseConnCh | WaitWorkers (timeout : Z).

(** [Stop] of a server with these connections; [remaining]: the time until
    the deadline of the context; only the first call does anything. *)
Definition ServerStop (first listening : bool) (conns : list nat) (remaining : option Z) : list stopAct :=
  if negb first then []
  else
    [CloseStopCh] ++ (if listening then [CloseListener] else []) ++ [WaitAccept] ++
    (CloseConnection <$> conns) ++ [CloseConnCh] ++
    [WaitWorkers (match remaining with
                  | Some t => if (0 <? t) && (t <? 10 * Second) then t else 10 * Second
                  | None => 10 * Second
                  end)].

(** Every active connection is closed before the channel that feeds the
    workers, and the wait for the workers is bounded. *)
Lemma ServerStop_order listening conns remaining c :
  c ∈ conns ->
  exists pre post t, ServerStop true listening conns remaining = pre ++ CloseConnCh :: post /\
    CloseConnection c ∈ pre /\ post = [WaitWorkers t] /\ 0 < t <= 10 * Second.
Proof.
  intros Hc. unfold ServerStop. cbn [negb].
  set (t := match remaining with Some _ => _ | None => _ end).
  exists ([CloseStopCh] ++ (if listening then [CloseListener] else []) ++ [WaitAccept] ++ (CloseConnection <$> conns)),
    [WaitWorkers t], t.
  split; [by rewrite <- !app_assoc|]. split; [|split; [done|]].
  - do 3 (apply elem_of_app; right). by apply list_elem_of_fmap_2.
  - unfold t. assert (0 < 10 * Second) by (vm_compute; reflexivity).
    destruct remaining as [r|]; [|lia].
    destruct (Z.ltb_spec 0 r), (Z.ltb_spec r (10 * Second)); cbn [andb]; lia.
Qed.

(** The names of the message types, for the log. *)
Definition getMessageTypeName (t : Z) : string :=
  if t =? 0 then "Unknown" else if t =? TypeRequest then "Request" else if t =? TypeResponse then "Response"
  else if t =? TypeOneWay then "OneWay" else if t =? TypeHeartbeat then "Heartbeat" else if t =? 5 then "Error"
  else if t =? 10 then "Ping" else if t =? 11 then "Connect" else if t =? 12 then "Leave"
  else if t =? 20 then "GossipPush" else if t =? 21 then "GossipPull" else if t =? 22 then "GossipResponse"
  else if t =? 30 then "ReadRequest" else if t =? 31 then "ReadResponse" else if t =? 40 then "SyncOperation"
  else "UnknownType".

(** * The pool's loops *)

(** A tick of [cleanupLoop]. *)
Definition cleanupTick (now : Z) (p : connPool) : option connPool :=
  if p_closed p then None else Some (cleanupIdleConns now p).

Definition DefaultPoolConfig : PoolConfig := mkPoolConfig 2048 30000 (30 * Second) (5 * Second).

(** * Calls at their edges *)

(** What a function of the caller does: it returns or panics. *)
Inductive called (A : Type) := Returns (a : A) | Panics (v : string).
Arguments Returns {A} a.
Arguments Panics {A} v.

(** [run] of both executors: a panic goes to the handler and the worker goes
    on; the values the handler is called with. *)
Definition execRun (nilTask onPanic : bool) (task : called unit) : list string :=
  if nilTask then []
  else match task with
       | Returns _ => []
       | Panics v => if onPanic then [v] else []
       end.

(** [Do] before it takes the lock. *)
Inductive doErr := errNilExecutor | errNilTask.
Definition doChecks (nilExec nilTask : bool) : option doErr :=
  if nilExec then Some errNilExecutor else if nilTask then Some errNilTask else None.

(** [Set], [Get] and [Delete] of the facade turn a panic into an error. *)
Definition recovered {A} (op : string) (r : called A) : string + A :=
  match r with
  | Returns a => inr a
  | Panics v => inl ("panic in " +:+ op +:+ " operation: " +:+ v)
  end.

(** ** Wait of the executor *)

Inductive waitErr := errWaitNil | errWaitClosed | errWaitTimeout.

(** The states seen at the ticks of 5 milliseconds, until 30 seconds have
    passed. *)
Definition waitPolls : nat := 6000.
Fixpoint waitLoop (n : nat) (polls : list Exec) : option waitErr :=
  match n, polls with
  | S n, e :: polls => if waitDone e then None else waitLoop n polls
  | _, _ => Some errWaitTimeout
  end.

Definition Wait (nilExec : bool) (e : Exec) (polls : list Exec) : option waitErr :=
  if nilExec then Some errWaitNil else if ex_closed e then Some errWaitClosed else waitLoop waitPolls polls.

(** Wait succeeds exactly when a poll within its time finds the queue empty
    and no worker, which an open executor that keeps its size does not show
    ([fixed_reach] of [Executor]). *)
Lemma Wait_nil e polls :
  ex_closed e = false ->
  (Wait false e polls = None <-> Exists (fun e => ex_tasks e = [] /\ ex_running e = 0) (take waitPolls polls)).
Proof.
  intros Hc. unfold Wait. rewrite Hc. generalize waitPolls as n. intros n. revert n.
  induction polls as [|x polls IH]; intros [|n]; cbn [waitLoop take]; try (split; [done|by intros []%Exists_nil]).
  rewrite Exists_cons, <- IH. unfold waitDone.
  destruct (Nat.eqb_spec (length (ex_tasks x)) 0) as [E%nil_length_inv|E]; cbn [andb];
    [destruct (Z.eqb_spec (ex_running x) 0)|]; [tauto| |]; (split; [auto|]); intros [[Ht Hr]|]; try done.
  by rewrite Ht in E.
Qed.
