(* ===== verification/Shutdown.v ===== *)
(** * Closing a node

    [Close] of gridkv.go, [Stop] of internal/cluster/cluster.go and the Close
    methods of the components in the order of the lifecycle manager, on the
    state they share: the flag that refuses operations, the ring, the store
    with its checkpoint, the queue of the writer and the executor that sends
    its last flush. *)

From Stdlib Require Import Strings.Byte.
From S2P Require Import Prelude Hlc StoredItem Compress SyncBuffer MemStorage MemStorageFacts.
From S2P Require Import MemStorageProps Codec HashRing Member Cluster Gossip Writer Lifecycle TinyLfu.
From S2P Require Import Cache Reader Entropy Checkpoint Replay Wire Net Server ConnPool Executor Node Remote Replicate StoreFrom Converge Loops.

(** A node, its disk, whether the executor takes tasks, whether the writer has
    been stopped, and the pushes that the executor has taken. *)
Record running := mkRunning {
  ru_grid : GridKV;
  ru_disk : disk;
  ru_executor : bool;
  ru_stopped : bool;
  ru_sent : list (string * bytes);
}.

(** The ring is shared: the writer sees what [Stop] makes of it. *)
Definition set_ring (r : hashRing) (w : writer) : writer :=
  mkWriter (w_nodeID w) (w_hlc w) (w_store w) r (w_cache w) (w_batchThreshold w) (w_batchCount w)
    (w_timer w) (w_replicaCount w) (w_flushPending w) (w_lastVersions w) (w_pendingOps w) (w_tasks w) (w_submitted w).

Section shutdown.
Context `{XXH3, LZ4, SortSlice} (poolCap : Z).
(** The clock, what the system calls of the checkpoint meet, its path, and
    whether the queue of the executor has room for a push. *)
Context (now : Z) (f : list verdict) (path : string) (room : string * bytes -> bool).

Definition with_writer (w : writer) (st : running) : running :=
  mkRunning (afterWrite w None (ru_grid st)) (ru_disk st) (ru_executor st) (ru_stopped st) (ru_sent st).

(** [Close] of the component [name]. *)
Definition closeComponent (st : running) (name : string) : running :=
  let g := ru_grid st in
  if bool_decide (name = "replay") then
    let '(d, s) := ReplayClose poolCap f now path (ru_disk st) (g_store g) in
    mkRunning (afterWrite (set_store s (g_writer g)) None g) d (ru_executor st) (ru_stopped st) (ru_sent st)
  else if bool_decide (name = "writer") then
    if ru_stopped st then st
    else
      let '(w, msgs) := StopWriter poolCap (Members (g_member g)) now (g_writer g) in
      mkRunning (afterWrite w None g) (ru_disk st) (ru_executor st) true
        (ru_sent st ++ if ru_executor st then filter (fun m => room m = true) msgs else [])
  else if bool_decide (name = "member-mgr") || bool_decide (name = "executor") then
    mkRunning g (ru_disk st) false (ru_stopped st) (ru_sent st)
  else if bool_decide (name = "storage") then with_writer (set_store (CloseStore (g_store g)) (g_writer g)) st
  else st.

(** [Close] of the facade, on a cluster whose lifecycle manager has been
    started: the flag, the ring, the components; the error is that of the
    first component that reports one. *)
Definition startedLifecycle (network : bool) : LifecycleManager :=
  mkLM (lm_components (clusterLifecycle network)) (lm_dependencies (clusterLifecycle network)) true.

Definition GridClose (network : bool) (closeErr : string -> option string) (nowRing : Z) (st : running)
    : running * option lifecycleErr :=
  let g := CloseGrid (ru_grid st) in
  let w := g_writer g in
  let '(ring, (calls, err)) :=
    ClusterStop closeErr nowRing (g_member g) (startedLifecycle network) (w_ring w) in
  let st := with_writer (set_ring ring w) (mkRunning g (ru_disk st) (ru_executor st) (ru_stopped st) (ru_sent st)) in
  (fold_left closeComponent calls st, err).

(** How long [Close] gives the components: the time of the caller, 30 seconds
    without one, and at most the 30 seconds of the lifecycle manager. *)
Definition closeBudget (timeout : option Z) : Z := Z.min (default (30 * Second) timeout) (30 * Second).

(** * What it does *)

(** The order does not depend on what the components report. *)
Lemma closing_order network closeErr :
  (CloseWithTimeout (startedLifecycle network) closeErr).1 = reverse (clusterComponents network).*1.
Proof. destruct network; reflexivity. Qed.

Definition checkpointed (st : running) : running :=
  let g := ru_grid st in
  let '(d, s) := ReplayClose poolCap f now path (ru_disk st) (g_store g) in
  mkRunning (afterWrite (set_store s (g_writer g)) None g) d (ru_executor st) (ru_stopped st) (ru_sent st).

Definition flushedOut (st : running) : running :=
  let g := ru_grid st in
  if ru_stopped st then st
  else
    let '(w, msgs) := StopWriter poolCap (Members (g_member g)) now (g_writer g) in
    mkRunning (afterWrite w None g) (ru_disk st) (ru_executor st) true
      (ru_sent st ++ if ru_executor st then filter (fun m => room m = true) msgs else []).

Definition emptied (st : running) : running :=
  let g := ru_grid st in
  mkRunning (afterWrite (set_store (CloseStore (g_store g)) (g_writer g)) None g) (ru_disk st) false (ru_stopped st) (ru_sent st).

(** The node after the components have been closed: the checkpoint, then the
    last flush, then the executor, then the store. *)
Lemma closing_steps network st :
  fold_left closeComponent (reverse (clusterComponents network).*1) st = emptied (flushedOut (checkpointed st)).
Proof.
  transitivity (closeComponent (closeComponent (closeComponent (closeComponent st "replay") "writer") "member-mgr") "storage");
    [by destruct network|].
  change (closeComponent st "replay") with (checkpointed st).
  change (closeComponent (checkpointed st) "writer") with (flushedOut (checkpointed st)). done.
Qed.

(** The last flush. *)
Lemma StopWriter_flush members w :
  (StopWriter poolCap members now w).2 = (flush poolCap members now w).2 /\
  w_pendingOps (StopWriter poolCap members now w).1 = [] /\
  w_store (StopWriter poolCap members now w).1 = (GetSyncBuffer poolCap (w_store w) now).1.
Proof.
  unfold StopWriter, flush, flushInternal. cbn [set_timer w_store].
  destruct (GetSyncBuffer poolCap (w_store w) now) as [s ops].
  change (keptPending (set_timer false w)) with (keptPending w). by destruct (ops ++ keptPending w).
Qed.

Lemma checkpointed_writer st :
  let w := g_writer (ru_grid st) in let w' := g_writer (ru_grid (checkpointed st)) in
  w_pendingOps w' = w_pendingOps w /\ placement w' = placement w /\ keptPending w' = keptPending w /\
  g_member (ru_grid (checkpointed st)) = g_member (ru_grid st) /\
  ru_executor (checkpointed st) = ru_executor st /\ ru_stopped (checkpointed st) = ru_stopped st /\
  ru_sent (checkpointed st) = ru_sent st /\ g_shuttingDown (ru_grid (checkpointed st)) = g_shuttingDown (ru_grid st).
Proof. unfold checkpointed. by destruct (ReplayClose _ _ _ _ _ _). Qed.

Lemma flushedOut_running st :
  ru_executor st = true -> ru_stopped st = false ->
  ru_stopped (flushedOut st) = true /\ w_pendingOps (g_writer (ru_grid (flushedOut st))) = [] /\
  g_shuttingDown (ru_grid (flushedOut st)) = g_shuttingDown (ru_grid st) /\
  ru_disk (flushedOut st) = ru_disk st /\
  ru_sent (flushedOut st) =
    ru_sent st ++ filter (fun m => room m = true)
      (flush poolCap (Members (g_member (ru_grid st))) now (g_writer (ru_grid st))).2.
Proof.
  intros He Hs. unfold flushedOut. rewrite Hs, He.
  destruct (StopWriter_flush (Members (g_member (ru_grid st))) (g_writer (ru_grid st))) as (E1 & E2 & _).
  destruct (StopWriter _ _ _ _) as [w msgs]. cbn [fst snd ru_stopped ru_grid ru_sent ru_disk afterWrite g_writer] in *.
  by subst msgs.
Qed.

Lemma Clear_contents s k : contents (MemStorage.Clear s) k = None.
Proof.
  unfold contents, MemStorage.getShard, MemStorage.shardAt, MemStorage.Clear. cbn [MemStorage.shards].
  rewrite list_lookup_fmap. destruct (MemStorage.shards s !! _); [|done]. cbn [fmap option_fmap option_map default clearShard sh_data].
  apply lookup_empty.
Qed.

(** Nothing waits in the buffers. *)
Definition rings_empty (s : MemStorage) : Prop :=
  forall i, syncHead (sh_ring (MemStorage.shardAt s i)) = syncTail (sh_ring (MemStorage.shardAt s i)).

Lemma Clear_rings s : rings_empty (MemStorage.Clear s).
Proof.
  intros i. unfold MemStorage.shardAt, MemStorage.Clear. cbn [MemStorage.shards]. rewrite list_lookup_fmap.
  by destruct (MemStorage.shards s !! i).
Qed.

Lemma drained_nothing s : rings_empty s -> (GetSyncBuffer poolCap s now).2 = [].
Proof.
  intros Hs. unfold GetSyncBuffer.
  refine (proj2 (fold_left_inv (fun so : MemStorage * list SyncOperation => rings_empty so.1 /\ so.2 = []) _ _ _ _ _)).
  - done.
  - intros [s1 ops] i [Hr Ho] _. cbn [fst snd] in *. unfold drainShard, drainRing.
    rewrite (proj2 (Z.eqb_eq _ _) (Hr i)). cbn [fst snd]. rewrite app_nil_r. split; [|done].
    intros j. rewrite shardAt_on_shard. case_decide as E; [|apply Hr]. destruct E as [-> _]. apply Hr.
Qed.

(** Reading leaves the rings alone, and a drain empties them all. *)
Definition rings (s : MemStorage) : list syncRing := sh_ring <$> MemStorage.shards s.

Lemma rings_shard i h s : (forall sh, sh_ring (h sh) = sh_ring sh) -> rings (on_shard i h s) = rings s.
Proof.
  intros Hf. unfold rings. cbn [on_shard MemStorage.shards]. apply list_eq. intros j. rewrite !list_lookup_fmap, list_lookup_alter.
  case_decide as E; [subst j|done]. destruct (MemStorage.shards s !! i); [|done]. cbn. by rewrite Hf.
Qed.

Lemma rings_fillOp s op : rings (fillOp poolCap now s op).1 = rings s.
Proof.
  assert (Hg : forall key, rings (GetNoCopy poolCap s key now).1 = rings s).
  { intros key. unfold GetNoCopy, getWith, expireKey, addUsage, storeTouchLRU, storeRemoveFromLRU.
    repeat case_match; cbn [fst];
      repeat first [ rewrite rings_shard by done
                   | match goal with
                     | |- context [rings (on_total ?h ?x)] => change (rings (on_total h x)) with (rings x)
                     | |- context [rings (on_access ?h ?x)] => change (rings (on_access h x)) with (rings x)
                     end ]; done. }
  unfold fillOp. destruct (so_Item op) as [item|]; [|done]. case_match; [|done].
  specialize (Hg (so_Key op)). destruct (GetNoCopy poolCap s (so_Key op) now) as [s' res]. repeat case_match; exact Hg.
Qed.

Lemma rings_drain_loop buf mask i n s : rings (drain_loop (fillOp poolCap now) buf mask i n s).1.2 = rings s.
Proof.
  revert buf i s. induction n as [|n IH]; intros buf i s; [done|]. cbn [drain_loop].
  destruct (buf !! slot mask i) as [[op|]|]; [|apply IH|apply IH].
  pose proof (rings_fillOp s op) as Hf. destruct (fillOp poolCap now s op) as [s1 op1]. cbn [fst] in Hf.
  specialize (IH (<[slot mask i := None]> buf) (i + 1) s1).
  destruct (drain_loop _ _ _ _ _ _) as [[b s2] ops]. cbn [fst snd] in *. by rewrite IH.
Qed.

Definition ring_empty (r : syncRing) : Prop := syncHead r = syncTail r.

(** Draining a shard empties its ring and leaves the others. *)
Lemma rings_drainShard so i :
  exists r, ring_empty r /\ rings (drainShard poolCap now so i).1 = alter (fun _ => r) i (rings so.1).
Proof.
  destruct so as [s ops]. unfold drainShard, drainRing. set (r0 := sh_ring (MemStorage.shardAt s i)).
  assert (Hset : forall r s1, rings s1 = rings s -> rings (on_shard i (shard_ring (fun _ => r)) s1) = alter (fun _ => r) i (rings s)).
  { intros r s1 <-. unfold rings. cbn [on_shard MemStorage.shards]. apply list_eq. intros j.
    rewrite list_lookup_fmap, !list_lookup_alter, !list_lookup_fmap. case_decide; [|done].
    by destruct (MemStorage.shards s1 !! i). }
  destruct (Z.eqb_spec (syncHead r0) (syncTail r0)) as [E|_].
  - exists r0. split; [exact E|]. cbn [fst]. by apply Hset.
  - pose proof (rings_drain_loop (syncBuffer r0) (syncMask r0) (syncTail r0) (Z.to_nat (syncHead r0 - syncTail r0)) s) as Hl.
    destruct (drain_loop _ _ _ _ _ _) as [[buf s1] new]. cbn [fst snd] in *. eexists. split; [|by apply Hset]. done.
Qed.

Lemma drained_rings s : rings_empty (GetSyncBuffer poolCap s now).1.
Proof.
  assert (K : forall n k so, (forall j, (j < k)%nat -> forall r, rings so.1 !! j = Some r -> ring_empty r) ->
    length (rings so.1) = (k + n)%nat ->
    Forall ring_empty (rings (fold_left (drainShard poolCap now) (seq k n) so).1)).
  { induction n as [|n IH]; intros k so Hk Hl; cbn [seq fold_left].
    - apply Forall_lookup. intros j r Hj. apply (Hk j); [|done]. apply lookup_lt_Some in Hj. lia.
    - destruct (rings_drainShard so k) as (r & Hr & E). apply IH.
      + intros j Hj r'. rewrite E, list_lookup_alter. case_decide as Ej; [intros (x & _ & ->)%fmap_Some; done|].
        apply Hk. lia.
      + rewrite E, length_alter. lia. }
  specialize (K (length (MemStorage.shards s)) 0%nat (s, [])). cbn [fst] in K.
  assert (Hall : Forall ring_empty (rings (GetSyncBuffer poolCap s now).1)).
  { apply K; [lia|]. unfold rings. by rewrite length_fmap. }
  intros i. unfold MemStorage.shardAt. destruct (MemStorage.shards _ !! i) as [sh|] eqn:E; [|done].
  apply (Forall_lookup_1 _ _ i (sh_ring sh) Hall). unfold rings. by rewrite list_lookup_fmap, E.
Qed.

(** The checkpoint that precedes the last flush has taken what was in the
    buffers of the store. *)
Lemma checkpointed_drained st : (GetSyncBuffer poolCap (g_store (ru_grid (checkpointed st))) now).2 = [].
Proof.
  apply drained_nothing. unfold checkpointed, ReplayClose.
  pose proof (drained_rings (g_store (ru_grid st))) as Hr.
  destruct (GetSyncBuffer poolCap (g_store (ru_grid st)) now) as [s ops]. cbn [fst] in Hr.
  destruct ops; exact Hr.
Qed.

(** The state in which [Close] begins to close the components. *)
Definition closing (nowRing : Z) (st : running) : running :=
  let g := CloseGrid (ru_grid st) in
  with_writer (set_ring (updateRing (mm_members (g_member g)) nowRing (w_ring (g_writer g))) (g_writer g))
    (mkRunning g (ru_disk st) (ru_executor st) (ru_stopped st) (ru_sent st)).

Lemma GridClose_steps network closeErr nowRing st :
  (GridClose network closeErr nowRing st).1 = emptied (flushedOut (checkpointed (closing nowRing st))).
Proof.
  unfold GridClose, ClusterStop. rewrite <- (closing_steps network), <- (closing_order network closeErr).
  by destruct (CloseWithTimeout (startedLifecycle network) closeErr).
Qed.

(** Closing again. *)
Lemma close_again network closeErr nowRing st :
  ru_stopped st = true -> rings_empty (g_store (ru_grid st)) ->
  let st' := (GridClose network closeErr nowRing st).1 in ru_sent st' = ru_sent st /\ ru_disk st' = ru_disk st.
Proof.
  intros Hs Hr. cbv zeta. rewrite GridClose_steps. set (c := closing nowRing st).
  assert (Hc : ru_stopped (checkpointed c) = true) by (destruct (checkpointed_writer c) as (_ & _ & _ & _ & _ & -> & _); done).
  unfold emptied, flushedOut. rewrite Hc. cbn [ru_sent ru_disk].
  destruct (checkpointed_writer c) as (_ & _ & _ & _ & _ & _ & -> & _). split; [done|].
  unfold checkpointed, ReplayClose. change (g_store (ru_grid c)) with (g_store (ru_grid st)).
  pose proof (drained_nothing (g_store (ru_grid st)) Hr) as Hn.
  destruct (GetSyncBuffer poolCap (g_store (ru_grid st)) now) as [s ops]. cbn [snd] in Hn. by subst ops.
Qed.

End shutdown.

(** * An example *)

#[local] Existing Instance ToyHash.xxh3.
#[local] Existing Instance RunLength.lz4.
#[local] Existing Instance RunLength.laws.
#[local] Existing Instance MergeSort.sort.

(** The node of [Converge] that has set a key and not flushed it. *)
Definition busyNode : running := mkRunning A1 blankDisk true false [].
Definition closedOnce : running := (GridClose 0 9000 [] "c" (fun _ => true) true (fun _ => None) 9000 busyNode).1.

