(* ===== verification/BufferPool.v ===== *)
(** * Tiered buffer pool

    internal/utils/bufferpool/tiered_pool.go.  A buffer is its length and its
    capacity.  Go's [sync.Pool] gives any of the buffers put into it or makes
    a new one, and may drop buffers at any time: which one a [Get] receives
    is an argument, and dropping is a step of its own. *)

From S2P Require Import Prelude ConnPool Metrics.

Record buffer := mkBuffer { b_len : Z; b_cap : Z }.

Record bufStats := mkBufStats {
  bs_hits : list Z;    (* per tier *)
  bs_misses : Z;
  bs_total : Z;
}.

(** The capacities of the buffers in the pool of each tier. *)
Record TieredBufferPool := mkTiered { tp_tiers : list (list Z); tp_stats : bufStats }.

Definition NewTieredBufferPool : TieredBufferPool :=
  mkTiered (replicate 5 []) (mkBufStats (replicate 5 0) 0 0).

(** What the pool of a tier makes when it is empty. *)
Definition newCap (tier : nat) : Z := nth tier [256; 1024; 4096; 16384; 65536] 0.

(** The tier of a request, from 0. *)
Definition tierFor (size : Z) : nat :=
  if size <=? 1024 then 0
  else if size <=? 4096 then 1
  else if size <=? 16384 then 2
  else if size <=? 65536 then 3
  else 4.

Definition poolMaxAlloc : Z := 2097152.

Definition miss (p : TieredBufferPool) : TieredBufferPool :=
  mkTiered (tp_tiers p) (mkBufStats (bs_hits (tp_stats p)) (addu64 (bs_misses (tp_stats p)) 1)
    (bs_total (tp_stats p))).
Definition hit (tier : nat) (p : TieredBufferPool) : TieredBufferPool :=
  mkTiered (tp_tiers p) (mkBufStats (alter (fun n => addu64 n 1) tier (bs_hits (tp_stats p)))
    (bs_misses (tp_stats p)) (bs_total (tp_stats p))).
Definition count (p : TieredBufferPool) : TieredBufferPool :=
  mkTiered (tp_tiers p) (mkBufStats (bs_hits (tp_stats p)) (bs_misses (tp_stats p))
    (addu64 (bs_total (tp_stats p)) 1)).

(** Taking from the pool of a tier: the buffer at [pick], or a new one. *)
Definition takeFrom (tier : nat) (pick : option nat) (p : TieredBufferPool) : Z * TieredBufferPool :=
  let bufs := default [] (tp_tiers p !! tier) in
  match pick ≫= fun i => bufs !! i with
  | Some c => (c, mkTiered (<[tier := delete (default 0%nat pick) bufs]> (tp_tiers p)) (tp_stats p))
  | None => (newCap tier, p)
  end.

Definition putTo (tier : nat) (c : Z) (p : TieredBufferPool) : TieredBufferPool :=
  mkTiered (alter (cons c) tier (tp_tiers p)) (tp_stats p).

Definition BufGet (size : Z) (pick : option nat) (p : TieredBufferPool) : buffer * TieredBufferPool :=
  let p := count p in
  if size <=? 256 then (mkBuffer 0 size, miss p)
  else
    let tier := tierFor size in
    let '(c, p) := takeFrom tier pick p in
    if size <=? c then (mkBuffer size c, hit tier p)
    else
      let allocSize := if poolMaxAlloc <? size then poolMaxAlloc else size in
      (mkBuffer 0 allocSize, miss (putTo tier c p)).

Definition BufPut (b : buffer) (p : TieredBufferPool) : TieredBufferPool :=
  let c := b_cap b in
  if c =? 0 then p
  else if 65536 <? c then p
  else if c <=? 256 then p
  else if c <=? 1024 then putTo 0 c p
  else if c <=? 4096 then putTo 1 c p
  else if c <=? 16384 then putTo 2 c p
  else putTo 3 c p.

Inductive buf_step : TieredBufferPool -> TieredBufferPool -> Prop :=
| bp_get size pick p : buf_step p (BufGet size pick p).2
| bp_put b p : buf_step p (BufPut b p)
| bp_drop tier bufs bufs' p :
    tp_tiers p !! tier = Some bufs -> bufs' ⊆ bufs ->
    buf_step p (mkTiered (<[tier := bufs']> (tp_tiers p)) (tp_stats p)).

(** Buffers of a tier: as new, or one that fits its range; none of the last
    tier comes from a caller. *)
Definition tier_ok (tier : nat) (c : Z) : Prop :=
  c = newCap tier \/ (newCap tier < c <= newCap (S tier) /\ (tier < 4)%nat).

Record pool_ok (p : TieredBufferPool) : Prop := {
  pk_tiers : length (tp_tiers p) = 5%nat;
  pk_caps tier bufs : tp_tiers p !! tier = Some bufs -> Forall (tier_ok tier) bufs;
  pk_hits : last (bs_hits (tp_stats p)) = Some 0 /\ length (bs_hits (tp_stats p)) = 5%nat;
}.

Lemma ok_stats p st :
  pool_ok p -> last (bs_hits st) = Some 0 -> length (bs_hits st) = 5%nat -> pool_ok (mkTiered (tp_tiers p) st).
Proof. intros [H1 H2 _] ? ?. by split. Qed.

Lemma tiers_insert_ok p tier bufs :
  pool_ok p -> Forall (tier_ok tier) bufs -> pool_ok (mkTiered (<[tier := bufs]> (tp_tiers p)) (tp_stats p)).
Proof.
  intros [H1 H2 H3] Hb. split; cbn; [by rewrite length_insert| |done].
  intros t bs Ht. destruct (decide (t = tier)) as [->|Hne].
  - apply list_lookup_insert_Some in Ht as [(_ & <- & _)|(? & _)]; done.
  - rewrite list_lookup_insert_ne in Ht by done. by apply H2.
Qed.

Lemma ok_putTo p tier c : pool_ok p -> tier_ok tier c -> pool_ok (putTo tier c p).
Proof.
  intros Hp Hc. unfold putTo. destruct (tp_tiers p !! tier) as [bufs|] eqn:E.
  - assert (alter (cons c) tier (tp_tiers p) = <[tier := c :: bufs]> (tp_tiers p)) as ->.
    { apply list_eq. intros i. destruct (decide (i = tier)) as [->|].
      - rewrite list_lookup_alter_eq, E, list_lookup_insert_eq; [done|]. by eapply lookup_lt_Some.
      - by rewrite list_lookup_alter_ne, list_lookup_insert_ne. }
    apply tiers_insert_ok; [done|]. constructor; [done|]. by eapply pk_caps.
  - assert (alter (cons c) tier (tp_tiers p) = tp_tiers p) as ->.
    { apply list_eq. intros i. destruct (decide (i = tier)) as [->|].
      - by rewrite list_lookup_alter_eq, E.
      - by rewrite list_lookup_alter_ne. }
    by destruct p.
Qed.

Lemma ok_takeFrom p tier pick c p' :
  pool_ok p -> takeFrom tier pick p = (c, p') -> pool_ok p' /\ tier_ok tier c.
Proof.
  intros Hp. unfold takeFrom. destruct (tp_tiers p !! tier) as [bufs|] eqn:E; cbn [default from_option id].
  2:{ destruct pick; cbn; intros [= <- <-]; (split; [done|by left]). }
  pose proof (pk_caps _ Hp tier bufs E) as Hb.
  destruct pick as [i|]; cbn [mbind option_bind default from_option id].
  - destruct (bufs !! i) as [x|] eqn:Ex; intros [= <- <-].
    + split; [apply tiers_insert_ok; [done|by apply Forall_delete]|by eapply Forall_lookup_1].
    + split; [done|by left].
  - intros [= <- <-]. split; [done|by left].
Qed.

(** A request is larger than a new buffer of its tier. *)
Lemma tierFor_new size : 256 < size -> newCap (tierFor size) < size /\ (tierFor size < 5)%nat.
Proof. intros Hs. unfold tierFor, newCap. repeat case_match; to_prop; cbn [nth]; lia. Qed.

Lemma BufGet_spec size pick p :
  pool_ok p ->
  let '(b, p') := BufGet size pick p in
  pool_ok p' /\ Z.min size poolMaxAlloc <= b_cap b /\
  (b_len b <> 0 -> b_len b = size /\ 256 < size <= 65536 /\ newCap (tierFor size) < b_cap b).
Proof.
  intros Hp. unfold BufGet.
  assert (Hc : pool_ok (count p)) by (apply ok_stats; [done|apply Hp..]).
  destruct (Z.leb_spec size 256) as [|Hs].
  { split; [apply ok_stats; [done|apply Hp..]|]. cbn. lia. }
  destruct (tierFor_new size Hs) as [Hn Ht].
  destruct (takeFrom (tierFor size) pick (count p)) as [c p1] eqn:E.
  destruct (ok_takeFrom _ _ _ _ _ Hc E) as [Hp1 Hcap].
  destruct (Z.leb_spec size c) as [Hle|Hgt].
  - destruct Hcap as [->|[Hr Ht4]]; [lia|]. split; [|split; [cbn; lia|]].
    + apply ok_stats; [done| |]; cbn; destruct Hp1 as [_ _ [Hl5 Hlen]]; [|by rewrite length_alter].
      rewrite last_lookup, length_alter, Hlen, list_lookup_alter_ne by (cbn; lia).
      by rewrite last_lookup, Hlen in Hl5.
    + intros _. cbn [b_len b_cap].
      assert (newCap (S (tierFor size)) <= 65536 \/ (4 <= tierFor size)%nat) as [|]; [|lia|lia].
      destruct (tierFor size) as [|[|[|[|]]]]; unfold newCap; cbn [nth]; lia.
  - split; [|split; [cbn; case_match; to_prop; unfold poolMaxAlloc in *; lia|done]].
    pose proof (ok_putTo p1 (tierFor size) c Hp1 Hcap) as Hp2. apply ok_stats; [done|apply Hp2..].
Qed.

Lemma buf_step_ok p p' : pool_ok p -> buf_step p p' -> pool_ok p'.
Proof.
  intros Hp Hs. destruct Hs as [size pick p|b p|tier bufs bufs' p Hb Hsub].
  - pose proof (BufGet_spec size pick p Hp) as H. by destruct (BufGet size pick p), H.
  - unfold BufPut. repeat (case_match; [done|]). to_prop.
    repeat case_match; to_prop; (apply ok_putTo; [done|]; right; unfold newCap; cbn [nth]; lia).
  - apply tiers_insert_ok; [done|]. pose proof (pk_caps _ Hp tier bufs Hb) as Hf.
    rewrite Forall_forall in *. auto.
Qed.

(** The buffer pool: in every state that Get, Put and the collector can
    reach, a buffer handed out has room for the request (up to 2 MiB, the
    largest allocation); it comes from a pool only if a caller put it there
    earlier, since the new buffers of every tier are smaller than all
    requests of the tier; and requests above 64 KiB never get a pooled
    buffer: the fifth tier has no hits. *)
Theorem bufferpool_get p size pick :
  steps buf_step NewTieredBufferPool p ->
  let '(b, p') := BufGet size pick p in
  Z.min size poolMaxAlloc <= b_cap b /\
  (b_len b <> 0 -> b_len b = size /\ 256 < size <= 65536 /\ newCap (tierFor size) < b_cap b) /\
  last (bs_hits (tp_stats p')) = Some 0.
Proof.
  intros Hs. assert (Hp : pool_ok p).
  { refine (steps_invariant _ pool_ok _ _ _ _ Hs); [intros x y; apply buf_step_ok|].
    split; [done| |done]. intros tier bufs [-> _]%lookup_replicate. constructor. }
  pose proof (BufGet_spec size pick p Hp) as H. destruct (BufGet size pick p) as [b p'].
  destruct H as (Hp' & H1 & H2). split_and!; [done|done|apply Hp'].
Qed.

Lemma bufferpool_get_witness :
  let p := BufPut (mkBuffer 0 900) NewTieredBufferPool in
  (BufGet 300 (Some 0%nat) p).1 = mkBuffer 300 900 /\ (BufGet 300 None p).1 = mkBuffer 0 300 /\
  last (bs_hits (tp_stats (BufGet 300 (Some 0%nat) p).2)) = Some 0.
Proof.
  intros p. split_and!; [vm_compute; reflexivity..|].
  pose proof (bufferpool_get p 300 (Some 0%nat) ltac:(apply steps_one, bp_put)) as H.
  destruct (BufGet 300 (Some 0%nat) p) as [b p']. by destruct H as (_ & _ & ?).
Defined.

(** * Statistics *)

(** [GetAndPut]: the buffer goes back whatever the function does. *)
Definition GetAndPut {E} (size : Z) (pick : option nat) (fn : buffer -> E) (p : TieredBufferPool) : E * TieredBufferPool :=
  let '(b, p) := BufGet size pick p in (fn b, BufPut b p).

(** The sum of the hits of the tiers, in 64 bits. *)
Definition poolHits (st : bufStats) : Z := foldr addu64 0 (bs_hits st).

Definition HitRate (p : TieredBufferPool) : float64 :=
  let st := tp_stats p in
  if bs_total st =? 0 then f64_of_int 0 else f64_div (f64_of_int (poolHits st)) (f64_of_int (bs_total st)).

Lemma addu64_shift a b c : addu64 (addu64 a b) c = addu64 (addu64 a c) b.
Proof. unfold addu64. rewrite !uint_add_l. f_equal. lia. Qed.

Lemma poolHits_alter l tier :
  (tier < length l)%nat -> foldr addu64 0 (alter (fun n => addu64 n 1) tier l) = addu64 (foldr addu64 0 l) 1.
Proof.
  revert tier. induction l as [|x l IH]; intros [|tier] Ht; cbn [length] in *; try lia; cbn [alter list_alter foldr].
  - apply addu64_shift.
  - change (list_alter _ tier l) with (alter (fun n => addu64 n 1) tier l). rewrite IH by lia.
    unfold addu64. rewrite !uint_add_r, uint_add_l. f_equal. lia.
Qed.

(** Every Get is counted once, as a hit or as a miss. *)
Definition counted (p : TieredBufferPool) : Prop :=
  addu64 (poolHits (tp_stats p)) (bs_misses (tp_stats p)) = bs_total (tp_stats p).

Lemma takeFrom_stats tier pick p : tp_stats (takeFrom tier pick p).2 = tp_stats p.
Proof. unfold takeFrom. by destruct (pick ≫= _). Qed.

Lemma counted_miss p st : tp_stats p = tp_stats (count st) -> counted st -> counted (miss p).
Proof.
  intros E Hc. unfold counted in *. cbn [miss tp_stats bs_misses bs_total]. rewrite E. cbn [count tp_stats bs_hits bs_misses bs_total poolHits].
  rewrite <- Hc. unfold addu64. rewrite uint_add_l, uint_add_r. f_equal. unfold poolHits. cbn [bs_hits]. lia.
Qed.

Lemma buf_step_counted p p' : pool_ok p /\ counted p -> buf_step p p' -> pool_ok p' /\ counted p'.
Proof.
  intros [Hp Hc] Hs. split; [by eapply buf_step_ok|]. destruct Hs as [size pick p|b p|tier bufs bufs' p Hb Hsub].
  - unfold BufGet. destruct (Z.leb_spec size 256) as [|Hsz]; [by apply (counted_miss _ p)|].
    pose proof (takeFrom_stats (tierFor size) pick (count p)) as E.
    destruct (tierFor_new size Hsz) as [_ Ht]. destruct (takeFrom _ pick (count p)) as [c p1]. cbn [snd] in E.
    destruct (size <=? c); [|by apply (counted_miss _ p)].
    unfold counted in *. cbn [snd hit tp_stats bs_misses bs_total]. rewrite E.
    cbn [count tp_stats bs_hits bs_misses bs_total]. unfold poolHits in *. cbn [bs_hits].
    rewrite poolHits_alter by (destruct Hp as [_ _ [_ ->]]; exact Ht). by rewrite addu64_shift, Hc.
  - unfold BufPut. by repeat case_match.
  - done.
Qed.

(** In every state the pool can reach the hits and the misses are the calls of
    Get, counted in 64 bits; the statistics of GetAndPut are those of a Get. *)
Lemma pool_counts p :
  steps buf_step NewTieredBufferPool p ->
  counted p /\ forall E size pick (fn : buffer -> E), counted (GetAndPut size pick fn p).2.
Proof.
  intros Hs.
  assert (Hp : pool_ok p /\ counted p).
  { refine (steps_invariant _ (fun p => pool_ok p /\ counted p) _ _ _ _ Hs); [intros x y; apply buf_step_counted|].
    split; [|done]. split; [done| |done]. intros tier bufs [-> _]%lookup_replicate. constructor. }
  split; [apply Hp|]. intros E size pick fn. unfold GetAndPut.
  pose proof (buf_step_counted p _ Hp (bp_get size pick p)) as Hg. destruct (BufGet size pick p) as [b p1].
  by apply (buf_step_counted p1), bp_put.
Qed.
