(* ===== verification/Logging.v ===== *)
(** * Logging

    internal/utils/logging/logging.go: the settings of a logger and what is
    handed to Go's slog for each call.  The default logger is a value of this
    kind; writing an entry is slog's. *)

From S2P Require Import Prelude.

Record LogOpts := mkLogOpts {
  lo_Level : string;
  lo_Format : string;
  lo_NoCaller : bool;
  lo_NoTime : bool;
}.

(** slog's levels. *)
Definition slogDebug : Z := -4.
Definition slogInfo : Z := 0.
Definition slogWarn : Z := 4.
Definition slogError : Z := 8.

Record Logger := mkLogger {
  lg_level : Z;
  lg_json : bool;
  lg_addSource : bool;
  lg_dropTime : bool;   (* ReplaceAttr removes the time *)
}.

Definition levelOf (s : string) : Z :=
  if String.eqb s "debug" then slogDebug
  else if String.eqb s "warn" then slogWarn
  else if String.eqb s "error" || String.eqb s "fatal" then slogError
  else slogInfo.

Definition NewLogger (o : LogOpts) : Logger :=
  let json := String.eqb (lo_Format o) "json" || String.eqb (lo_Format o) "compact" in
  mkLogger (levelOf (lo_Level o)) json (negb (lo_NoCaller o)) (negb json && negb (lo_NoTime o)).

(** Arguments: strings and other values; [None] is a panic, when a key is not
    a string. *)
Inductive arg := AStr (s : string) | AVal (n : Z).

Fixpoint attrs (kv : list arg) : option (list (string * arg)) :=
  match kv with
  | AStr k :: v :: kv => l ← attrs kv; Some ((k, v) :: l)
  | AVal _ :: _ :: _ => None
  | _ => Some []
  end.

Inductive logged := Silent | Entry (level : Z) (msg : string) (l : list (string * arg)) | LogPanic.

Definition emit (lg : Logger) (level : Z) (msg : string) (l : option (list (string * arg))) : logged :=
  match l with
  | None => LogPanic
  | Some l => if level <? lg_level lg then Silent else Entry level msg l
  end.

(** Debug and Info test the level before they look at the arguments. *)
Definition Debug (lg : Logger) (msg : string) (kv : list arg) : logged :=
  if slogDebug <? lg_level lg then Silent else emit lg slogDebug msg (attrs kv).
Definition Info (lg : Logger) (msg : string) (kv : list arg) : logged :=
  if slogInfo <? lg_level lg then Silent else emit lg slogInfo msg (attrs kv).
Definition Warn (lg : Logger) (msg : string) (kv : list arg) : logged :=
  emit lg slogWarn msg (attrs kv).
Definition Error (lg : Logger) (err : option string) (msg : string) (kv : list arg) : logged :=
  emit lg slogError msg
    ((fun l => l ++ match err with Some e => [("error"%string, AStr e)] | None => [] end) <$> attrs kv).
Definition Fatal (lg : Logger) (err : option string) (msg : string) (kv : list arg) : logged :=
  Error lg err msg kv.

(** With keys that are strings nothing is lost but a last key without a
    value. *)
Fixpoint flatten (l : list (string * arg)) : list arg :=
  match l with [] => [] | (k, v) :: l => AStr k :: v :: flatten l end.

Lemma attrs_flatten l extra : (length extra <= 1)%nat -> attrs (flatten l ++ extra) = Some l.
Proof.
  intros He. induction l as [|[k v] l IH]; simpl; [|by rewrite IH].
  destruct extra as [|[s|n] [|]]; simpl in *; done || lia.
Qed.

(** Errors are written at every level a logger can have. *)
Lemma error_logged o err msg l extra :
  (length extra <= 1)%nat ->
  exists l', Error (NewLogger o) err msg (flatten l ++ extra) = Entry slogError msg (l ++ l').
Proof.
  intros He. unfold Error, emit. rewrite attrs_flatten by done. cbn [fmap option_fmap option_map].
  assert (Hl : lg_level (NewLogger o) <= slogError).
  { cbn [NewLogger lg_level]. unfold levelOf. repeat case_match; vm_compute; discriminate. }
  destruct (Z.ltb_spec slogError (lg_level (NewLogger o))); [lia|]. eauto.
Qed.

(** Text entries carry the time exactly when the option NoTime is set. *)
Lemma text_time o :
  lo_Format o <> "json"%string -> lo_Format o <> "compact"%string ->
  lg_dropTime (NewLogger o) = negb (lo_NoTime o).
Proof.
  intros H1 H2. cbn [NewLogger lg_dropTime].
  apply String.eqb_neq in H1, H2. by rewrite H1, H2.
Qed.

(** * The default logger *)

(** [IsDebug] and [IsInfo] of a logger that may be nil. *)
Definition IsDebug (lg : option Logger) : bool :=
  match lg with Some lg => negb (slogDebug <? lg_level lg) | None => false end.
Definition IsInfo (lg : option Logger) : bool :=
  match lg with Some lg => negb (slogInfo <? lg_level lg) | None => false end.

(** The global logger, as [init] sets it. *)
Definition globalLog : option Logger := Some (NewLogger (mkLogOpts "info" "text" true false)).

(** A nil logger changes nothing. *)
Definition SetDefault (l : option Logger) (global : option Logger) : option Logger :=
  match l with Some l => Some l | None => global end.

Definition DefaultLogger (global : option Logger) : Logger :=
  match global with Some l => l | None => NewLogger (mkLogOpts "" "" false false) end.

(** The functions of the package, on the default logger. *)
Definition pkgDebug (global : option Logger) (msg : string) (kv : list arg) : logged :=
  Debug (DefaultLogger global) msg kv.
Definition pkgInfo (global : option Logger) (msg : string) (kv : list arg) : logged :=
  Info (DefaultLogger global) msg kv.
Definition pkgWarn (global : option Logger) (msg : string) (kv : list arg) : logged :=
  Warn (DefaultLogger global) msg kv.
Definition pkgError (global : option Logger) (err : option string) (msg : string) (kv : list arg) : logged :=
  Error (DefaultLogger global) err msg kv.
Definition pkgFatal (global : option Logger) (err : option string) (msg : string) (kv : list arg) : logged :=
  Fatal (DefaultLogger global) err msg kv.
Definition pkgIsDebug (global : option Logger) : bool := IsDebug (Some (DefaultLogger global)).
Definition pkgIsInfo (global : option Logger) : bool := IsInfo (Some (DefaultLogger global)).

(** Whatever loggers are made the default, errors reach the output. *)
Lemma default_logs_errors (ls : list (option LogOpts)) err msg l :
  let global := foldl (fun g o => SetDefault (NewLogger <$> o) g) globalLog ls in
  exists l', pkgError global err msg (flatten l) = Entry slogError msg (l ++ l').
Proof.
  intros global. assert (Hg : exists o, global = Some (NewLogger o)).
  { unfold global. assert (H0 : exists o, globalLog = Some (NewLogger o)) by (by eexists).
    revert H0. generalize globalLog. induction ls as [|[o|] ls IH]; intros g H0; cbn [foldl]; [done| |].
    - apply IH. by exists o.
    - by apply IH. }
  destruct Hg as [o ->]. unfold pkgError. cbn [DefaultLogger].
  destruct (error_logged o err msg l [] ltac:(cbn; lia)) as [l' E]. rewrite app_nil_r in E. eauto.
Qed.
